(* ===== verification/_CoqProject ===== *)
-Q . S2P
Prelude.v
Resolver.v
Slotmap.v
Store.v
RefCell.v
Guarded.v
StoreFacts.v
Rc.v
Registry.v
Drop.v
DropFacts.v
RegistryOps.v
Edge.v
Node.v
NodeFacts.v
RegistryFacts.v
Guards.v
Ancestors.v
History.v
HistoryFacts.v
Adjacency.v
Petgraph.v
Insertion.v
InsertAncestors.v
Serialization.v
Deserialize.v
Serialize.v
GraphSerial.v
GraphDeserial.v
RoundTrip.v
GuardedOps.v
Messages.v
Detached.v
DetachedFacts.v
PostOrder.v
Attach.v
Transfer.v
TransferFacts.v
AttachFacts.v
Delivery.v
Client.v
ClientFacts.v
Spec.v
Abstraction.v
Refinement.v
SerialRefinement.v
Simulation.v
GuardedClient.v
Programs.v
Model.v
Demo.v
Tests.v
RefinementProps.v
OwnershipProps.v
NodeProps.v
RegistryProps.v
HistoryProps.v
PetgraphProps.v
SerializationProps.v
DetachedProps.v
