(* ===== verification/Prelude.v ===== *)
(** * Verification of relrc

    relrc is a Rust crate of reference-counted pointers with relationships: a
    [RelRc] owns its parents through its incoming edges, and a parent knows its
    children through weak outgoing edges.  Nodes can be entered in registries,
    which give them ids; history graphs are sets of registered nodes that can be
    traversed, serialised and sent.  This library models the source under
    src/src/ as executable definitions and proves what makes it correct.

    ** The parts and the files that model them

    - [Prelude]: outcomes of Rust code (a value, a panic, and two outcomes that
      are shown not to occur), loops over lists, occurrence counts, confluence.
    - [Slotmap]: the crate slotmap as an interface ([SlotMapSig]) with its
      documented laws ([SlotMapLaws]).
    - [Store]: the structs of node.rs, edge.rs and registry.rs as records; [store]
      is the heap of reference-counted allocations with their strong and weak
      counts.  [wf st owners] is the invariant: every count is the number of
      references that exist, [owners] being those outside the heap; parents and
      children agree; parents can be ranked below children; the two maps of a
      registry are inverse; no [RefCell] is borrowed.  [StoreFacts] has the
      accounting lemmas.  [RefCell]: the borrow flags of the cells, and the guards
      that set and clear them.
    - [Rc]: clone, downgrade and upgrade of the standard library's [Rc]; [Drop]:
      [impl Drop for RelRc] with the drop glue around it, as a stack of pending
      drops; [DropFacts]: it is safe and removes exactly the garbage.
    - [Registry] and [RegistryOps]: registry.rs; [RegistryFacts].
    - [Edge]: edge.rs.  [Node]: node.rs; [NodeFacts], and [Ancestors] for
      [all_ancestors] with the breadth-first enumeration it is compared to;
      [Guards] for what goes on while a guard is alive.
    - [History]: history.rs; [HistoryFacts] and [Adjacency] for lookups and
      edges, [Insertion] and [InsertAncestors] for the two insertions.
    - [Petgraph]: petgraph.rs and petgraph/edge_ref.rs.
    - [Serialization]: serialization.rs; [Deserialize], [Serialize],
      [GraphSerial], [GraphDeserial] and [RoundTrip] for its proofs.
    - [Messages]: detached/mpi/msg_types.rs and detached/mpi/send_recv.rs, with the
      trait [MPISendRecv] as a type class and an instance per mode, over
      interfaces for the crate mpi ([MPISig], [MPILaws]) and for the hashes
      ([HashIdSig], [HashIdLaws]).  [Detached] and [Attach]: detached.rs;
      [DetachedFacts], [PostOrder] for its traversal with the recursion it is
      compared to, and [AttachFacts] for what attaching builds.  [Transfer]: detached/mpi.rs as two communicating
      processes; [TransferFacts]; [Delivery] for the transfer composed with the
      attachment.
    - [Resolver]: resolver.rs, its trait as a type class.
    - [Client]: programs that use the public API: a [call] creates, clones,
      registers, looks up, inserts, traverses (by the methods of graphs and by
      petgraph's traits), removes, serialises, deserialises or drops, and [exec] is its
      effect and its output.  A call is [disciplined] unless it removes an id from
      the registry of a graph of the client; [reachable] worlds are those that
      disciplined calls lead to.  [ClientFacts]: the invariant of all reachable
      worlds, and which calls may panic.
    - [Spec]: what the API promises, without counts, child pointers, slot maps or
      fuel: nodes with a value and a list of parents that never change, a map from
      ids to nodes, which may be gone, per registry, and one per graph.  A step
      [spec_step] says which outputs and successors a call may have; whatever no
      owner holds any more is gone ([collected]); [spec_fails] says when a call may
      panic.  [Abstraction] maps a world to a state of the specification;
      [Refinement] and [SerialRefinement] prove, call by call, that [exec]
      implements [spec_step], and [Simulation] puts the calls together.
      [Programs]: operations that are sequences of calls.
    - [Guarded]: two runs of the same code are related, one of them with more guards
      on [RefCell]s alive; [GuardedOps] has a lemma per operation, found by the
      tactic [guarded] that follows the code; [GuardedClient]: clients that take
      guards, keep them over calls and use registries through them.
    - [Model]: concrete implementations of the interfaces; [Demo]: concrete
      programs, on which the properties are instantiated.
    - [Tests]: the unit tests of the repository as programs of the model.
    - [RefinementProps], [OwnershipProps], [NodeProps], [RegistryProps],
      [HistoryProps], [PetgraphProps], [SerializationProps], [DetachedProps]: the
      properties.

    ** How the model corresponds to the code

    A method [T::f] is the definition [T_f]; a loop or closure of it that has a
    name of its own is named in its comment.  A pointer is an address; a method
    that changes counts or fields takes the store and returns the new one.  An
    argument that is moved in is an owned reference of the caller that the callee
    gives up; temporaries are dropped where Rust drops them.  A [RefCell]
    borrow sets the flag of the cell and panics when the flag forbids it; a
    borrowed registry is taken out of the store for the time of the borrow
    ([with_registry_mut]).  Guards that the code does not keep are dropped at the
    end of the statement.  A slot map, a secondary map and a connection are
    values of the interfaces; a [BTreeMap] is a finite map iterated in key order,
    a [HashMap] one that is only looked up.  The stacks of depth-first walks are
    lists with the top first.

    ** Fuel

    Recursion that is not structural takes fuel, and running out of it is an
    outcome of its own that the theorems exclude.  [drop_all] uses the total
    weight of the pending drops and of all references in the store, which every
    step decreases; [RelRc_all_ancestors] and [HistoryGraph_insert_ancestors] one
    more than the number of allocations, since no node is entered twice;
    [deserialize_nodes] one more than the number of serialised nodes, since a path
    of parents that is longer has a cycle, on which the code panics;
    [ancestors_upto] one more than the number of edges; [RelRc_attach] two steps
    per described object.  The loops of the two processes of a transfer have fuel
    as an argument, and the number of objects of the sender is enough.

    ** What the theorems show

    - Refinement: every call of a client in a reachable state, and so every program
      of disciplined calls, does what the specification allows, outputs included; so
      do programs that keep guards, except that a call may panic with a borrow
      error.
    - Ownership: every call in every reachable state returns, the panics that are
      listed apart, and keeps the store consistent, and the graphs too if it is
      disciplined; after every call a node is alive exactly if a remaining reference
      holds it or a descendant; nothing leaks; references are valid; histories are
      acyclic.
    - Nodes: construction, outgoing edges and their upgrades, and the walk over
      the ancestors as a breadth-first enumeration that is cut at the first
      repetition; what panics while a guard on the outgoing edges is alive.
    - Registries: ids and nodes determine each other, ids of dead nodes are freed,
      new nodes are never taken for old ones, and when registration is refused; what
      panics while a guard on a shared registry is alive.
    - History graphs: edges in both directions, and the outcomes of the insertions.
    - petgraph: neighbours and edge references are those of the graph.
    - Serialisation: round trips of nodes, graphs and registries; on which inputs
      deserialisation refuses, and that it terminates on all; when serialisation
      panics, and what it writes otherwise; when what was written for a graph can be
      read back ([serialized_graph_readable_iff]); that a node that was read back
      can not be written again ([reserialize_panics]).
    - Transfer: detaching describes what is reached without passing the given
      hashes; if no object to be requested has the hash 0, every interleaving of
      sender and receiver completes in the same number of steps, and otherwise all
      end with the receiver waiting ([zero_hash_transfer_stalls]); attaching returns
      a node that is offered, builds what is described and reached without passing
      an offered node, or panics, and it is known when; if the hashes tell the
      objects apart, the receiver ends with the history that was sent.
    - The unit tests pass in the model, two excepted: one asks for ids that do not
      exist ([history_graph_test_panics]), the snapshot of the other is stale
      ([parents_snapshot_stale]).
    - Behaviour that differs from the documentation, or is surprising, is proved as
      such, besides the theorems named above in [orphaned_node_unregistrable] and
      [outgoing_guard_excludes], and by examples in [all_ancestors_stops_early],
      [insert_ancestors_misses_grandparent], [attach_shared_parent_panics],
      [remove_orphans_graph_node], [bare_rc_keeps_id] and [post_order_start_twice].

    ** What is not modelled

    - The state after a panic has unwound; running out of memory or keys; counts
      that overflow.
    - Clones of node and edge values are the identity, and their drops do nothing.
    - The glue of derive macros for serde, Debug and Hash; the executor that polls
      futures; sends that block until they are received.
    - The module hash_id, which detached.rs imports, is not part of the
      repository; hashes are a parameter.  detached.rs and detached/mpi.rs are
      commented out in lib.rs, so attaching is not a call of client programs;
      [transfer_delivers] is about any store with the nodes concerned.
    - resolver.rs declares a trait that only its tests implement; nothing calls it.
    - Programs that go on after a [Registry::remove] on the registry of one of their
      graphs, which then no longer agrees with it: such a remove is a [call] whose
      effect is covered, but not one of the calls that lead to [reachable] worlds.
    - Clients that keep the bare [Rc] which the public [From] makes a [RelRc] of, or
      that make a [RelRc] of a cloned [InnerData]: client programs hold [RelRc] only.
      The operations are there ([Rc_drop], [InnerData_clone]); dropping the bare [Rc]
      last frees no id ([bare_rc_keeps_id]), and the copy has edges whose target is
      the original ([InnerData_clone_spec], [copied_data_no_parents]).
    - lib.rs, which declares modules. *)

From stdpp Require Export strings prelude gmap sorting.

(** ** Outcomes of Rust code

    A Rust call either returns, or panics with a message ([expect], [unwrap],
    [assert!]).  [Dangling] is the outcome of reading through a pointer whose
    referent is gone and [OutOfFuel] that of a bounded recursion that was cut
    short; both are outcomes the theorems show never to occur. *)
Inductive error :=
  | Panic (msg : string)
  | Dangling
  | OutOfFuel.

Inductive result (A : Type) :=
  | Ok (a : A)
  | Err (e : error).
Arguments Ok {A} a.
Arguments Err {A} e.

#[export] Instance error_eq_dec : EqDecision error.
Proof. solve_decision. Defined.

Definition rbind {A B} (m : result A) (k : A → result B) : result B :=
  match m with Ok a => k a | Err e => Err e end.

Declare Scope relrc_scope.
Delimit Scope relrc_scope with relrc.
Notation "x ← y ; z" := (rbind y (λ x, z))
  (at level 20, y at level 100, z at level 200, only parsing) : relrc_scope.
Open Scope relrc_scope.

(** [Option::expect] *)
Definition expect {A} (msg : string) (o : option A) : result A :=
  match o with Some a => Ok a | None => Err (Panic msg) end.

(** A read that is only possible through a live pointer. *)
Definition deref {A} (o : option A) : result A :=
  match o with Some a => Ok a | None => Err Dangling end.

Definition assert_that (msg : string) (b : bool) : result unit :=
  if b then Ok tt else Err (Panic msg).

Definition is_panic {A} (r : result A) : Prop :=
  ∃ msg, r = Err (Panic msg).

(** Left-to-right traversal of a list by a fallible function. *)
Fixpoint traverse {A B} (f : A → result B) (l : list A) : result (list B) :=
  match l with
  | [] => Ok []
  | x :: l => y ← f x; ys ← traverse f l; Ok (y :: ys)
  end.

(** Left-to-right loop over a list with a fallible, state-passing body. *)
Fixpoint foldM {A S} (f : S → A → result S) (s : S) (l : list A) : result S :=
  match l with
  | [] => Ok s
  | x :: l => s' ← f s x; foldM f s' l
  end.

(** [Iterator::filter] and [Iterator::filter_map] by a fallible function. *)
Fixpoint filterM {A} (f : A → result bool) (l : list A) : result (list A) :=
  match l with
  | [] => Ok []
  | x :: l => b ← f x; l' ← filterM f l; Ok (if b then x :: l' else l')
  end.
Fixpoint filter_mapM {A B} (f : A → result (option B)) (l : list A) : result (list B) :=
  match l with
  | [] => Ok []
  | x :: l => o ← f x; l' ← filter_mapM f l; Ok (match o with Some y => y :: l' | None => l' end)
  end.

Lemma bind_Ok {A B} (m : result A) (k : A → result B) b :
  rbind m k = Ok b ↔ ∃ a, m = Ok a ∧ k a = Ok b.
Proof. destruct m; naive_solver. Qed.

Lemma expect_Ok {A} msg (o : option A) a : expect msg o = Ok a ↔ o = Some a.
Proof. destruct o; naive_solver. Qed.

Lemma deref_Ok {A} (o : option A) a : deref o = Ok a ↔ o = Some a.
Proof. destruct o; naive_solver. Qed.

Lemma traverse_Ok {A B} (f : A → result B) l l' :
  traverse f l = Ok l' ↔ Forall2 (λ x y, f x = Ok y) l l'.
Proof.
  revert l'; induction l as [|x l IH]; intros l'; simpl.
  { split; [by intros [= <-]; constructor|by inversion_clear 1]. }
  rewrite bind_Ok. setoid_rewrite bind_Ok. setoid_rewrite IH. split.
  - intros (y & Hy & ys & Hys & [= <-]). by constructor.
  - inversion_clear 1. naive_solver.
Qed.

Lemma foldM_app {A S} (f : S → A → result S) s l1 l2 :
  foldM f s (l1 ++ l2) = s' ← foldM f s l1; foldM f s' l2.
Proof.
  revert s; induction l1 as [|x l1 IH]; intros s; simpl; [done|].
  destruct (f s x); simpl; [apply IH|done].
Qed.

Lemma tc_subrel {A} (R R' : relation A) x y :
  (∀ x y, R x y → R' x y) → tc R x y → tc R' x y.
Proof.
  intros HR. induction 1 as [x y Hxy|x y z Hxy _ IH].
  - by apply tc_once, HR.
  - eapply tc_l; [by apply HR|done].
Qed.

(** ** Confluence

    In a system whose steps commute, an execution that ends bounds all others
    and every one of them can be completed to it. *)
Section diamond.
Context {A : Type} (R : relation A).
Hypothesis diamond : ∀ x y z, R x y → R x z → y = z ∨ ∃ w, R y w ∧ R z w.

Lemma diamond_strip n x y f :
  nsteps R n x f → (∀ z, ¬ R f z) → R x y → ∃ n', n = S n' ∧ nsteps R n' y f.
Proof.
  intros Hn Hf. revert y. induction Hn as [x|n x x1 f Hx1 Hn IH]; intros y Hxy.
  { by destruct (Hf y). }
  exists n. split; [done|]. destruct (diamond x x1 y Hx1 Hxy) as [<-|(w & H1 & H2)]; [done|].
  destruct (IH Hf w H1) as (n' & -> & ?). by eapply nsteps_l.
Qed.

Lemma diamond_complete n x f :
  nsteps R n x f → (∀ z, ¬ R f z) →
  ∀ m y, nsteps R m x y → m ≤ n ∧ nsteps R (n - m) y f.
Proof.
  intros Hn Hf m y Hm. revert n Hn. induction Hm as [x|m x x1 y Hx1 Hm IH]; intros n Hn.
  { split; [lia|]. by rewrite Nat.sub_0_r. }
  destruct (diamond_strip n x x1 f Hn Hf Hx1) as (n' & -> & Hn').
  destruct (IH n' Hn') as [? ?]. split; [lia|]. by replace (S n' - S m) with (n' - m) by lia.
Qed.
End diamond.

Lemma StronglySorted_sublist {A} (R : relation A) l l' :
  sublist l' l → StronglySorted R l → StronglySorted R l'.
Proof.
  induction 1 as [|x l1 l2 Hs IH|x l1 l2 Hs IH]; [done|..]; rewrite !StronglySorted_cons.
  - intros [Hx ?]. split; [|by apply IH]. rewrite Forall_forall in *. intros y Hy.
    apply Hx. eapply elem_of_submseteq; [done|]. by apply sublist_submseteq.
  - intros [_ ?]. by apply IH.
Qed.

Lemma filterM_spec {A} (f : A → result bool) (P : A → Prop) l :
  (∀ x, x ∈ l → ∃ b, f x = Ok b ∧ (b = true ↔ P x)) →
  ∃ l', filterM f l = Ok l' ∧ sublist l' l ∧ ∀ x, x ∈ l' ↔ x ∈ l ∧ P x.
Proof.
  induction l as [|x l IH]; intros Hf; simpl.
  { exists []. split_and!; [done|constructor|]. intros x. rewrite elem_of_nil. naive_solver. }
  destruct (Hf x) as (b & -> & Hb); [left|]. simpl.
  destruct IH as (l' & -> & Hsub & Hl'); [intros y Hy; apply Hf; by right|]. simpl.
  eexists; split; [done|]. destruct b.
  - split; [by constructor|]. intros y. rewrite !elem_of_cons, Hl'. naive_solver.
  - split; [by constructor|]. intros y. rewrite elem_of_cons, Hl'. naive_solver.
Qed.

Lemma filter_mapM_spec {A B} (f : A → result (option B)) (P : A → B → Prop) l :
  (∀ x, x ∈ l → ∃ o, f x = Ok o ∧ ∀ y, o = Some y ↔ P x y) →
  ∃ l', filter_mapM f l = Ok l' ∧ ∀ y, y ∈ l' ↔ ∃ x, x ∈ l ∧ P x y.
Proof.
  induction l as [|x l IH]; intros Hf; simpl.
  { exists []. split; [done|]. intros y. split; [by intros ?%elem_of_nil|].
    by intros (? & ?%elem_of_nil & _). }
  destruct (Hf x) as (o & -> & Ho); [left|]. simpl.
  destruct IH as (l' & -> & Hl'); [intros y Hy; apply Hf; by right|]. simpl.
  eexists; split; [done|]. intros y. setoid_rewrite elem_of_cons.
  destruct o as [z|]; [rewrite elem_of_cons|]; rewrite Hl'; naive_solver.
Qed.

Lemma forallb_all {A} (f : A → bool) l : (∀ x, x ∈ l → f x = true) → forallb f l = true.
Proof.
  induction l as [|x l IH]; intros Hf; [done|]. simpl.
  rewrite Hf, IH; [done|intros y ?; apply Hf; by right|left].
Qed.
Lemma forallb_elem {A} (f : A → bool) l x : forallb f l = true → x ∈ l → f x = true.
Proof. intros Hf Hx%list_elem_of_In. by apply (proj1 (forallb_forall f l) Hf). Qed.
Lemma forallb_missing {A} (f : A → bool) l : forallb f l = false → ∃ x, x ∈ l ∧ f x = false.
Proof.
  induction l as [|x l IH]; simpl; [done|]. destruct (f x) eqn:Hx; simpl.
  - intros (y & ? & ?)%IH. exists y. split; [by right|done].
  - intros _. exists x. split; [left|done].
Qed.

Lemma Forall2_elem_l {A B} (P : A → B → Prop) l l' x : Forall2 P l l' → x ∈ l → ∃ y, y ∈ l' ∧ P x y.
Proof.
  intros Hf [i Hi]%list_elem_of_lookup. destruct (Forall2_lookup_l _ _ _ _ _ Hf Hi) as (y & Hy & ?).
  exists y. split; [by eapply list_elem_of_lookup_2|done].
Qed.
Lemma Forall2_elem_r {A B} (P : A → B → Prop) l l' y : Forall2 P l l' → y ∈ l' → ∃ x, x ∈ l ∧ P x y.
Proof. intros Hf%Forall2_flip. by apply (Forall2_elem_l (flip P)). Qed.

Lemma elem_of_option_list {A} (o : option A) x : x ∈ option_list o ↔ o = Some x.
Proof. destruct o; simpl; [rewrite list_elem_of_singleton|rewrite elem_of_nil]; naive_solver. Qed.

Lemma NoDup_fmap_filter {A B} (f : A → B) (P : A → Prop) `{!∀ x, Decision (P x)} l :
  NoDup (f <$> l) → NoDup (f <$> filter P l).
Proof.
  induction l as [|x l IH]; [done|]. csimpl. intros [Hx Hl]%NoDup_cons.
  rewrite filter_cons. case_decide; csimpl; [|by apply IH].
  apply NoDup_cons. split; [|by apply IH]. intros (y & Hy & Hin)%list_elem_of_fmap.
  apply Hx. rewrite Hy. apply list_elem_of_fmap. exists y. split; [done|].
  by apply list_elem_of_filter in Hin as [_ ?].
Qed.

(** ** Weighted sums over the entries of a finite map

    The store contributes a list of references per heap cell; the invariants
    count occurrences in the concatenation of those lists. *)
Definition occ `{EqDecision A} (x : A) (l : list A) : nat :=
  sum_list_with (λ y, if decide (x = y) then 1 else 0) l.

#[global] Arguments occ : simpl never.

Definition map_refs {B R} (f : positive → B → list R) (m : gmap positive B) : list R :=
  map_to_list m ≫= uncurry f.

Lemma sum_list_with_perm {A} (w : A → nat) l1 l2 :
  l1 ≡ₚ l2 → sum_list_with w l1 = sum_list_with w l2.
Proof. induction 1; simpl; lia. Qed.

#[export] Instance map_refs_bind_perm {A B} (f : A → list B) :
  Proper ((≡ₚ) ==> (≡ₚ)) (mbind (M:=list) f).
Proof. intros l1 l2 Hl. by apply bind_Permutation. Qed.

Section map_refs.
Context {B R : Type} (f : positive → B → list R) (w : R → nat).
Implicit Types m : gmap positive B.

Lemma sum_map_refs_fresh m p b :
  m !! p = None →
  sum_list_with w (map_refs f (<[p:=b]> m)) =
    sum_list_with w (f p b) + sum_list_with w (map_refs f m).
Proof.
  intros Hp. unfold map_refs.
  rewrite <-sum_list_with_app. apply sum_list_with_perm.
  rewrite map_to_list_insert by done. done.
Qed.

Lemma sum_map_refs_delete m p b :
  m !! p = Some b →
  sum_list_with w (map_refs f (delete p m)) + sum_list_with w (f p b) =
    sum_list_with w (map_refs f m).
Proof.
  intros Hp. rewrite <-(insert_delete_id m p b) at 2 by done.
  rewrite sum_map_refs_fresh by apply lookup_delete_eq. lia.
Qed.

Lemma sum_map_refs_insert m p b b' :
  m !! p = Some b →
  sum_list_with w (map_refs f (<[p:=b']> m)) + sum_list_with w (f p b) =
    sum_list_with w (map_refs f m) + sum_list_with w (f p b').
Proof.
  intros Hp. rewrite <-insert_delete_eq.
  rewrite sum_map_refs_fresh by apply lookup_delete_eq.
  pose proof (sum_map_refs_delete m p b Hp). lia.
Qed.

Lemma elem_of_map_refs m r :
  r ∈ map_refs f m ↔ ∃ p b, m !! p = Some b ∧ r ∈ f p b.
Proof.
  unfold map_refs. rewrite list_elem_of_bind. split.
  - intros ([p b] & Hr & Hin). apply elem_of_map_to_list in Hin. eauto.
  - intros (p & b & Hp & Hr). exists (p, b). by rewrite elem_of_map_to_list.
Qed.
End map_refs.

Section occ.
Context `{EqDecision A}.
Implicit Types (x y : A) (l : list A).

Lemma occ_nil x : occ x [] = 0.
Proof. done. Qed.
Lemma occ_cons x y l : occ x (y :: l) = (if decide (x = y) then 1 else 0) + occ x l.
Proof. done. Qed.
Lemma occ_app x l1 l2 : occ x (l1 ++ l2) = occ x l1 + occ x l2.
Proof. apply sum_list_with_app. Qed.
Lemma occ_perm x l1 l2 : l1 ≡ₚ l2 → occ x l1 = occ x l2.
Proof. apply sum_list_with_perm. Qed.
Lemma occ_elem_of x l : 0 < occ x l ↔ x ∈ l.
Proof.
  induction l as [|y l IH]; [rewrite occ_nil, elem_of_nil; lia|].
  rewrite occ_cons, elem_of_cons. case_decide; [naive_solver lia|].
  rewrite <-IH. naive_solver lia.
Qed.
Lemma occ_not_elem_of x l : occ x l = 0 ↔ x ∉ l.
Proof. rewrite <-occ_elem_of. lia. Qed.
Lemma occ_NoDup l : NoDup l ↔ ∀ x, occ x l ≤ 1.
Proof.
  induction l as [|y l IH].
  { split; [intros _ x; rewrite occ_nil; lia|constructor]. }
  rewrite NoDup_cons. setoid_rewrite occ_cons. split.
  - intros [Hy%occ_not_elem_of Hl] x. apply IH with (x:=x) in Hl. case_decide; subst; lia.
  - intros Hl. split; [|apply IH; intros x; specialize (Hl x); lia].
    apply occ_not_elem_of. specialize (Hl y). rewrite decide_True in Hl by done. lia.
Qed.
End occ.

#[export] Hint Rewrite @occ_nil @occ_cons @occ_app : occ.

(** Of two elements in a list without duplicates. *)
Lemma sublist_before {B} (l1 l2 : list B) u v :
  NoDup (l1 ++ v :: l2) → [u; v] `sublist_of` l1 ++ v :: l2 → u ∈ l1.
Proof.
  intros Hnd (k1 & k2 & Hk & Hk1 & Hk2)%sublist_app_r.
  destruct k1 as [|x k1]; simplify_eq/=.
  - apply NoDup_app in Hnd as (_ & _ & [Hv _]%NoDup_cons). exfalso. apply Hv.
    apply sublist_cons_r in Hk2 as [Hs|(k & [= -> <-] & Hs)];
      (eapply elem_of_submseteq; [|by apply sublist_submseteq]); set_solver.
  - eapply elem_of_submseteq; [|by apply sublist_submseteq]. left.
Qed.

(** ** Automation *)

(** Turn a count equation about concrete lists into arithmetic. *)
Ltac occ_norm :=
  repeat rewrite ?occ_app, ?occ_cons, ?occ_nil in *.

Ltac occ_lia :=
  occ_norm; repeat case_decide; simplify_eq; try lia.

(** Invert [Ok] equations of the outcome monad. *)
Ltac inv_ok :=
  repeat match goal with
  | H : rbind _ _ = Ok _ |- _ => apply bind_Ok in H; destruct H as (? & ? & H)
  | H : expect _ _ = Ok _ |- _ => apply expect_Ok in H
  | H : deref _ = Ok _ |- _ => apply deref_Ok in H
  | H : Ok _ = Ok _ |- _ => injection H as H
  | H : Err _ = Ok _ |- _ => discriminate H
  end; simplify_eq/=.
