(* ===== verification/Resolver.v ===== *)
(** * [resolver.rs]: equivalence of nodes

    A trait that tells equivalent node values apart from others, the identifier
    of a resolver, and the resolver of the tests. *)

From S2P Require Import Prelude.
From stdpp Require Import strings.

(** [NotEquivalent] *)
Inductive NotEquivalent := mkNotEquivalent.

(** [Result<_, NotEquivalent>] *)
Definition not_equivalent (B : Type) : Type := sum B NotEquivalent.

(** The trait [EquivalenceResolver<N, E>], implemented by the type [R]. *)
Class EquivalenceResolver (R N E : Type) := {
  MergeMapping : Type;
  DedupKey : Type;
  DedupKey_eq_dec :: EqDecision DedupKey;
  resolver_id : R → string;
  dedup_key : R → N → list E → DedupKey;
  try_merge_mapping : R → N → list E → N → list E → not_equivalent MergeMapping;
  move_edge_source : R → MergeMapping → E → E;
}.

(** [a] can be merged into [b]. *)
Definition mergeable {R N E} `{EquivalenceResolver R N E} (r : R) (a b : N * list E) : Prop :=
  ∃ m, try_merge_mapping r a.1 a.2 b.1 b.2 = inl m.

(** A resolver that loses nothing: mergeable nodes form an equivalence, their keys
    have no false negatives (which the trait allows, at the price of missed
    duplicates), and an edge that is moved along two equivalences ends as it does
    along the composite. *)
Class LosslessResolver (R N E : Type) `{EquivalenceResolver R N E} : Prop := {
  mergeable_equivalence (r : R) : Equivalence (mergeable (N:=N) (E:=E) r);
  mergeable_dedup_key (r : R) (a b : N * list E) :
    mergeable r a b → dedup_key r a.1 a.2 = dedup_key r b.1 b.2;
  move_edge_source_trans (r : R) (a b c : N * list E) m1 m2 m3 (e : E) :
    try_merge_mapping r a.1 a.2 b.1 b.2 = inl m1 → try_merge_mapping r b.1 b.2 c.1 c.2 = inl m2 →
    try_merge_mapping r a.1 a.2 c.1 c.2 = inl m3 →
    move_edge_source r m2 (move_edge_source r m1 e) = move_edge_source r m3 e;
}.

(** [ResolverId<N, E, R>]: the marker has no content. *)
Record ResolverId (N E R : Type) := mkResolverId {
  rid_id : string;
}.
Arguments mkResolverId {N E R} _.
Arguments rid_id {N E R} _.

#[export] Instance ResolverId_eq_dec {N E R} : EqDecision (ResolverId N E R).
Proof. solve_decision. Defined.

(** The derived [Default]: [String::default()]. *)
Definition ResolverId_default {N E R} : ResolverId N E R := mkResolverId EmptyString.

Definition ResolverId_from {N E R} `{EquivalenceResolver R N E} (value : R) : ResolverId N E R :=
  mkResolverId (resolver_id value).

Definition String_from_ResolverId {N E R} (value : ResolverId N E R) : string := rid_id value.

(** [InvalidResolver(actual, expected)] and its message. *)
Record InvalidResolver := mkInvalidResolver {
  ir_0 : string;
  ir_1 : string;
}.

Definition quote : string := String (Ascii.ascii_of_nat 34) EmptyString.
Definition InvalidResolver_to_string (e : InvalidResolver) : string :=
  "Invalid resolver " +:+ quote +:+ ir_0 e +:+ quote +:+ ", expected " +:+ quote +:+ ir_1 e +:+ quote.
Definition NotEquivalent_to_string (e : NotEquivalent) : string := "Vertices are not equivalent".

(** ** The resolver of the tests

    [usize] values are only compared and stored. *)
Inductive TestResolver := mkTestResolver.

#[export] Instance test_resolver : EquivalenceResolver TestResolver (nat * nat) nat := {|
  MergeMapping := nat;
  DedupKey := nat;
  resolver_id _ := "test_resolver";
  dedup_key _ value _ := value.1;
  try_merge_mapping _ a_value _ b_value _ :=
    if decide (a_value.1 = b_value.1) then inl b_value.2 else inr mkNotEquivalent;
  move_edge_source _ mapping _ := mapping;
|}.

Lemma test_mergeable r (a b : (nat * nat) * list nat) : mergeable (R:=TestResolver) r a b ↔ a.1.1 = b.1.1.
Proof. unfold mergeable; simpl. case_decide; split; try done; [by eexists|]. intros [? [=]]. Qed.

#[export] Instance test_resolver_laws : LosslessResolver TestResolver (nat * nat) nat.
Proof.
  split.
  - intros r. split; [intros a|intros a b|intros a b c]; rewrite !test_mergeable; congruence.
  - intros r a b Hab. by apply test_mergeable in Hab.
  - intros r a b c m1 m2 m3 e. simpl. repeat case_decide; intros; by simplify_eq.
Qed.

(** ** Groups of candidates

    For a resolver that loses nothing, the group of a node contains everything
    that the node can be merged with. *)
Section groups.
Context {R N E : Type} `{LosslessResolver R N E}.

Definition candidates (r : R) (a : N * list E) (l : list (N * list E)) : list (N * list E) :=
  filter (λ b, dedup_key r b.1 b.2 = dedup_key r a.1 a.2) l.

Lemma candidates_complete r a b l : b ∈ l → mergeable r a b → b ∈ candidates r a l.
Proof.
  intros Hb Hab. apply list_elem_of_filter. split; [|done]. symmetry. by apply mergeable_dedup_key.
Qed.
End groups.
