(* ===== verification/Slotmap.v ===== *)
(** * The [slotmap] crate as an interface

    [registry.rs], [history.rs] and [serialization.rs] use [SlotMap] and
    [SecondaryMap] of the crate [slotmap_fork_lmondada], whose code is not part
    of the repository.  [SlotMapSig] is the part of its API the code calls and
    [SlotMapLaws] what the crate documents about those calls; every component
    below is parametric in both.  Iteration order is unspecified, as the crate
    documents.  Running out of keys (2^32 - 2 live elements) is treated like
    running out of memory and is not represented. *)

From S2P Require Import Prelude.

Class SlotMapSig := {
  (** [new_key_type! { pub struct NodeId; }]: an opaque key with [Eq], [Hash]
      and [Ord]. *)
  NodeId : Type;
  NodeId_eq_dec :: EqDecision NodeId;
  NodeId_countable :: Countable NodeId;
  NodeId_le : relation NodeId;
  NodeId_le_dec :: RelDecision NodeId_le;

  SlotMap : Type → Type;
  sm_with_key : ∀ {V}, SlotMap V;
  sm_insert : ∀ {V}, V → SlotMap V → NodeId * SlotMap V;
  sm_get : ∀ {V}, NodeId → SlotMap V → option V;
  sm_remove : ∀ {V}, NodeId → SlotMap V → option V * SlotMap V;
  sm_iter : ∀ {V}, SlotMap V → list (NodeId * V);
  sm_len : ∀ {V}, SlotMap V → nat;
  sm_retain : ∀ {V}, (NodeId → V → bool) → SlotMap V → SlotMap V;
  (** [SlotMap::map] of the fork: same keys, new values; a panic of the closure
      propagates. *)
  sm_map : ∀ {V U}, (NodeId → V → result U) → SlotMap V → result (SlotMap U);

  SecondaryMap : Type → Type;
  sec_new : ∀ {V}, SecondaryMap V;
  sec_get : ∀ {V}, NodeId → SecondaryMap V → option V;
  (** returns the value that was stored under the key *)
  sec_insert : ∀ {V}, NodeId → V → SecondaryMap V → option V * SecondaryMap V;
  sec_iter : ∀ {V}, SecondaryMap V → list (NodeId * V);
  sec_retain : ∀ {V}, (NodeId → V → bool) → SecondaryMap V → SecondaryMap V;
}.

(** Every key of the secondary map is live in the primary map: the documented
    way to use a [SecondaryMap]. *)
Definition sec_within `{SlotMapSig} {V U} (s : SecondaryMap V) (m : SlotMap U) : Prop :=
  ∀ k, is_Some (sec_get k s) → is_Some (sm_get k m).

(** [SlotMap::map] with a closure that has a state: it is called for every entry, in the
    order of the iterator. *)
Definition sm_map_state `{SlotMapSig} {V U St : Type} (f : NodeId → V → St → result (U * St))
    (m : SlotMap V) (s : St) : result (SlotMap U * St) :=
  r ← foldM (λ (acc : gmap NodeId U * St) (kv : NodeId * V),
        u ← f kv.1 kv.2 acc.2; Ok (<[kv.1 := u.1]> acc.1, u.2)) (∅, s) (sm_iter m);
  m' ← sm_map (λ k _, expect "the closure was called for every key" (r.1 !! k)) m;
  Ok (m', r.2).

Class SlotMapLaws (S : SlotMapSig) : Prop := {
  NodeId_le_total :: TotalOrder NodeId_le;

  sm_get_with_key {V} k : sm_get k (sm_with_key (V:=V)) = None;
  sm_insert_fresh {V} (v : V) m : sm_get (sm_insert v m).1 m = None;
  sm_insert_get {V} (v : V) m j :
    sm_get j (sm_insert v m).2 =
      if decide (j = (sm_insert v m).1) then Some v else sm_get j m;
  sm_remove_result {V} k (m : SlotMap V) : (sm_remove k m).1 = sm_get k m;
  sm_remove_get {V} k (m : SlotMap V) j :
    sm_get j (sm_remove k m).2 = if decide (j = k) then None else sm_get j m;
  sm_iter_get {V} (m : SlotMap V) k v : (k, v) ∈ sm_iter m ↔ sm_get k m = Some v;
  sm_iter_NoDup {V} (m : SlotMap V) : NoDup (sm_iter m).*1;
  sm_len_iter {V} (m : SlotMap V) : sm_len m = length (sm_iter m);
  sm_retain_get {V} f (m : SlotMap V) k :
    sm_get k (sm_retain f m) =
      sm_get k m ≫= λ v, if f k v then Some v else None;
  sm_map_get {V U} (f : NodeId → V → result U) m m' :
    sm_map f m = Ok m' →
    ∀ k, match sm_get k m with
         | Some v => ∃ u, f k v = Ok u ∧ sm_get k m' = Some u
         | None => sm_get k m' = None
         end;
  sm_map_Err {V U} (f : NodeId → V → result U) m e :
    sm_map f m = Err e → ∃ k v, sm_get k m = Some v ∧ f k v = Err e;

  sec_get_new {V} k : sec_get k (sec_new (V:=V)) = None;
  sec_iter_get {V} (s : SecondaryMap V) k v : (k, v) ∈ sec_iter s ↔ sec_get k s = Some v;
  sec_iter_NoDup {V} (s : SecondaryMap V) : NoDup (sec_iter s).*1;
  sec_retain_get {V} f (s : SecondaryMap V) k :
    sec_get k (sec_retain f s) =
      sec_get k s ≫= λ v, if f k v then Some v else None;
  sec_insert_result {V U} k (v : V) s (m : SlotMap U) :
    is_Some (sm_get k m) → sec_within s m →
    (sec_insert k v s).1 = sec_get k s;
  sec_insert_get {V U} k (v : V) s (m : SlotMap U) j :
    is_Some (sm_get k m) → sec_within s m →
    sec_get j (sec_insert k v s).2 = if decide (j = k) then Some v else sec_get j s;
}.

(** [contains_key], [keys] and [values] are views of [get] and [iter]. *)
Definition sec_contains_key `{SlotMapSig} {V} (k : NodeId) (s : SecondaryMap V) : bool :=
  match sec_get k s with Some _ => true | None => false end.
Definition sec_keys `{SlotMapSig} {V} (s : SecondaryMap V) : list NodeId := (sec_iter s).*1.
Definition sec_values `{SlotMapSig} {V} (s : SecondaryMap V) : list V := (sec_iter s).*2.

(** [BTreeSet::from_iter] of keys: ascending, without repetitions. *)
Definition btree_set `{SlotMapSig} (l : list NodeId) : list NodeId :=
  merge_sort NodeId_le (remove_dups l).

Section laws.
Context {S : SlotMapSig} {SLaws : SlotMapLaws S}.
Implicit Types k : NodeId.

Lemma sm_iter_NoDup_pairs {V} (m : SlotMap V) : NoDup (sm_iter m).
Proof. eapply NoDup_fmap_1, sm_iter_NoDup. Qed.

Lemma sec_iter_NoDup_pairs {V} (s : SecondaryMap V) : NoDup (sec_iter s).
Proof. eapply NoDup_fmap_1, sec_iter_NoDup. Qed.

Lemma sm_iter_insert {V} (v : V) m :
  sm_iter (sm_insert v m).2 ≡ₚ ((sm_insert v m).1, v) :: sm_iter m.
Proof.
  pose proof (sm_insert_fresh v m) as Hf.
  apply NoDup_Permutation.
  - apply sm_iter_NoDup_pairs.
  - apply NoDup_cons. split; [|apply sm_iter_NoDup_pairs].
    rewrite sm_iter_get. congruence.
  - intros [j x]. rewrite elem_of_cons, !sm_iter_get, sm_insert_get.
    case_decide; naive_solver.
Qed.

Lemma sm_iter_remove {V} k (v : V) m :
  sm_get k m = Some v → sm_iter m ≡ₚ (k, v) :: sm_iter (sm_remove k m).2.
Proof.
  intros Hk. apply NoDup_Permutation.
  - apply sm_iter_NoDup_pairs.
  - apply NoDup_cons. split; [|apply sm_iter_NoDup_pairs].
    rewrite sm_iter_get, sm_remove_get, decide_True by done. done.
  - intros [j x]. rewrite elem_of_cons, !sm_iter_get, sm_remove_get.
    case_decide; naive_solver.
Qed.

Lemma sm_iter_remove_None {V} k (m : SlotMap V) :
  sm_get k m = None → sm_iter m ≡ₚ sm_iter (sm_remove k m).2.
Proof.
  intros Hk. apply NoDup_Permutation; try apply sm_iter_NoDup_pairs.
  intros [j x]. rewrite !sm_iter_get, sm_remove_get.
  case_decide; naive_solver.
Qed.

Lemma sec_iter_insert_fresh {V U} k (v : V) s (m : SlotMap U) :
  is_Some (sm_get k m) → sec_within s m → sec_get k s = None →
  sec_iter (sec_insert k v s).2 ≡ₚ (k, v) :: sec_iter s.
Proof.
  intros Hk Hs Hn. apply NoDup_Permutation.
  - apply sec_iter_NoDup_pairs.
  - apply NoDup_cons. split; [|apply sec_iter_NoDup_pairs].
    rewrite sec_iter_get. congruence.
  - intros [j x]. rewrite elem_of_cons, !sec_iter_get.
    erewrite sec_insert_get by done. case_decide; naive_solver.
Qed.

Lemma sm_len_mono {V} (m m' : SlotMap V) :
  (∀ k v, sm_get k m' = Some v → sm_get k m = Some v) → sm_len m' ≤ sm_len m.
Proof.
  intros Hm. rewrite !sm_len_iter. apply submseteq_length, NoDup_submseteq; [apply sm_iter_NoDup_pairs|].
  intros [k v]. rewrite !sm_iter_get. apply Hm.
Qed.

Lemma sm_len_remove {V} k (v : V) m :
  sm_get k m = Some v → sm_len m = Datatypes.S (sm_len (sm_remove k m).2).
Proof. intros Hk. rewrite !sm_len_iter. by rewrite (sm_iter_remove k v m Hk). Qed.

Lemma sm_iter_empty {V} (m : SlotMap V) : (∀ k, sm_get k m = None) → sm_iter m = [].
Proof.
  intros Hm. destruct (sm_iter m) as [|[k v] l] eqn:E; [done|].
  assert (sm_get k m = Some v) as Hk by (apply sm_iter_get; rewrite E; left).
  by rewrite Hm in Hk.
Qed.

Lemma sec_iter_new {V} : sec_iter (sec_new (V:=V)) = [].
Proof.
  destruct (sec_iter _) as [|[k v] l] eqn:E; [done|].
  assert (sec_get k (sec_new (V:=V)) = Some v) as Hk
    by (apply sec_iter_get; rewrite E; left).
  by rewrite sec_get_new in Hk.
Qed.

Lemma elem_of_sec_keys {V} (s : SecondaryMap V) k :
  k ∈ sec_keys s ↔ is_Some (sec_get k s).
Proof.
  unfold sec_keys. rewrite list_elem_of_fmap. split.
  - intros ([j v] & -> & Hj%sec_iter_get). by exists v.
  - intros [v Hv]. exists (k, v). by rewrite sec_iter_get.
Qed.

Lemma elem_of_sec_values {V} (s : SecondaryMap V) v :
  v ∈ sec_values s ↔ ∃ k, sec_get k s = Some v.
Proof.
  unfold sec_values. rewrite list_elem_of_fmap. split.
  - intros ([j u] & -> & Hj%sec_iter_get). by exists j.
  - intros [k Hk]. exists (k, v). by rewrite sec_iter_get.
Qed.

Lemma sec_contains_key_spec {V} k (s : SecondaryMap V) :
  sec_contains_key k s = true ↔ is_Some (sec_get k s).
Proof. unfold sec_contains_key. destruct (sec_get k s); naive_solver. Qed.

Lemma sm_map_Ok {V U} (f : NodeId → V → result U) m :
  (∀ k v, sm_get k m = Some v → ∃ u, f k v = Ok u) → ∃ m', sm_map f m = Ok m'.
Proof.
  intros Hf. destruct (sm_map f m) as [m'|e] eqn:E; [by eauto|].
  apply sm_map_Err in E as (k & v & Hk & He).
  destruct (Hf k v Hk) as [u Hu]. congruence.
Qed.

(** A closure that leaves the state as it finds it. *)
Lemma sm_map_state_loop {V U St} (f : NodeId → V → St → result (U * St)) l acc s :
  NoDup l.*1 → (∀ k v, (k, v) ∈ l → (∃ u, f k v s = Ok (u, s)) ∨ ∃ e, f k v s = Err e) →
  let step := λ (a : gmap NodeId U * St) (kv : NodeId * V), u ← f kv.1 kv.2 a.2; Ok (<[kv.1 := u.1]> a.1, u.2) in
  (∃ acc', foldM step (acc, s) l = Ok (acc', s) ∧
     (∀ k v, (k, v) ∈ l → ∃ u, f k v s = Ok (u, s) ∧ acc' !! k = Some u) ∧
     ∀ k, k ∉ l.*1 → acc' !! k = acc !! k) ∨
  (∃ k v e, (k, v) ∈ l ∧ f k v s = Err e ∧ foldM step (acc, s) l = Err e).
Proof.
  intros Hnd Hf step. revert acc Hnd Hf. induction l as [|[k v] l IH]; intros acc Hnd Hf.
  { left. exists acc. split_and!; [done| |done]. by intros k v ?%elem_of_nil. }
  csimpl in Hnd. apply NoDup_cons in Hnd as [Hk Hnd]. cbn [foldM]. unfold step at 1 3. cbn [fst snd].
  destruct (Hf k v ltac:(left)) as [[u Hu]|[e He]].
  2: { right. exists k, v, e. rewrite He. split_and!; [left|done|done]. }
  rewrite Hu. cbn [rbind fst snd]. destruct (IH (<[k := u]> acc) Hnd) as [(acc' & Heq & Hin & Hout)|(j & w & e & ? & ? & ?)].
  { intros j w Hj. apply Hf. by right. }
  - left. exists acc'. split_and!; [done| |].
    + intros j w [[= -> ->]|Hj]%elem_of_cons; [|by apply Hin]. exists u. split; [done|].
      rewrite Hout by done. apply lookup_insert_eq.
    + intros j Hj. csimpl in Hj. apply not_elem_of_cons in Hj as [Hne Hj]. rewrite Hout by done.
      by apply lookup_insert_ne.
  - right. exists j, w, e. split_and!; [by right|done|done].
Qed.

Lemma sm_map_state_outcome {V U St} (f : NodeId → V → St → result (U * St)) (m : SlotMap V) s :
  (∀ k v, sm_get k m = Some v → (∃ u, f k v s = Ok (u, s)) ∨ ∃ e, f k v s = Err e) →
  (∃ m', sm_map_state f m s = Ok (m', s) ∧
     ∀ k, match sm_get k m with
          | Some v => ∃ u, f k v s = Ok (u, s) ∧ sm_get k m' = Some u
          | None => sm_get k m' = None
          end) ∨
  (∃ k v e, sm_get k m = Some v ∧ f k v s = Err e ∧ sm_map_state f m s = Err e).
Proof.
  intros Hf. unfold sm_map_state.
  destruct (sm_map_state_loop f (sm_iter m) ∅ s) as [(acc & -> & Hin & _)|(k & v & e & Hk & He & ->)].
  { apply sm_iter_NoDup. } { intros k v Hk%sm_iter_get. by apply Hf. }
  2: { right. exists k, v, e. by rewrite <-sm_iter_get. }
  left. cbn [rbind fst snd].
  destruct (sm_map_Ok (λ k _, expect "the closure was called for every key" (acc !! k)) m) as [m' Hm].
  { intros k v Hk%sm_iter_get. destruct (Hin k v Hk) as (u & _ & ->). by exists u. }
  rewrite Hm. exists m'. split; [done|]. intros k. pose proof (sm_map_get _ _ _ Hm k) as Hget.
  destruct (sm_get k m) as [v|] eqn:Hk; [|done]. destruct Hget as (u & Hu & Hk').
  apply sm_iter_get in Hk. destruct (Hin k v Hk) as (u' & Hu' & Hacc). rewrite Hacc in Hu. injection Hu as <-. eauto.
Qed.

Lemma elem_of_btree_set l k : k ∈ btree_set l ↔ k ∈ l.
Proof.
  unfold btree_set. rewrite merge_sort_Permutation, elem_of_remove_dups. done.
Qed.

Lemma NoDup_btree_set l : NoDup (btree_set l).
Proof. unfold btree_set. rewrite merge_sort_Permutation. apply NoDup_remove_dups. Qed.
End laws.
