(* ===== verification/Store.v ===== *)
(** * The data model: nodes, edges, registries and the reference-counted store

    The structs of [edge.rs], [node.rs] and [registry.rs], the [Rc]/[Weak]
    allocations of the standard library that hold them, and the ownership
    accounting that ties every count to the references that exist. *)

From S2P Require Import Prelude Slotmap.

(** Addresses of allocations.  A [RelRc] or [RelWeak] is the address of the
    [InnerData] it points to, an [Rc<RefCell<Registry>>] that of a registry. *)
Notation addr := positive (only parsing).

(** ** Structs of the source *)

(** [edge::InnerEdgeData]: stored and owned by the child (the target). *)
Record InnerEdgeData (E : Type) := mkInnerEdgeData {
  ie_value : E;
  ie_source : addr;  (* [RelRc]: strong *)
  ie_target : addr;  (* [RelWeak]: weak *)
}.
Arguments mkInnerEdgeData {E} _ _ _.
Arguments ie_value {E} _.
Arguments ie_source {E} _.
Arguments ie_target {E} _.

(** [edge::WeakEdge] *)
Record WeakEdge := mkWeakEdge {
  we_index : nat;
  we_target : addr;  (* [RelWeak] *)
}.

(** [edge::Edge] *)
Record Edge := mkEdge {
  ed_index : nat;
  ed_target : addr;  (* [RelRc] *)
}.

(** [node::InnerData] *)
Record InnerData (N E : Type) := mkInnerData {
  nd_value : N;
  nd_incoming : list (InnerEdgeData E);
  nd_outgoing : list WeakEdge;
  nd_registry : option addr;  (* [WeakRegistry] *)
}.
Arguments mkInnerData {N E} _ _ _ _.
Arguments nd_value {N E} _.
Arguments nd_incoming {N E} _.
Arguments nd_outgoing {N E} _.
Arguments nd_registry {N E} _.

(** [registry::Registry]: [nodes] holds weak references, [ptr_to_id] raw
    addresses. *)
Record Registry `{S : SlotMapSig} := mkRegistry {
  reg_nodes : SlotMap addr;
  reg_ptr_to_id : gmap addr NodeId;
}.
Arguments mkRegistry {S} _ _.

#[export] Instance WeakEdge_eq_dec : EqDecision WeakEdge.
Proof. solve_decision. Defined.
#[export] Instance Edge_eq_dec : EqDecision Edge.
Proof. solve_decision. Defined.

(** ** Reference-counted allocations

    The standard library's [RcBox]: [rc_weak] includes the one weak count that
    the strong references hold collectively; [rc_val] is [None] once the value
    has been dropped.  The cell leaves the store when [rc_weak] reaches 0, and
    only then can its address be handed out again. *)
Record rcbox (A : Type) := mkRc {
  rc_strong : nat;
  rc_weak : nat;
  rc_val : option A;
}.
Arguments mkRc {A} _ _ _.
Arguments rc_strong {A} _.
Arguments rc_weak {A} _.
Arguments rc_val {A} _.

(** The [RefCell]s: the fields [outgoing] and [registry] of a node, and the cell
    around a shared registry. *)
Inductive cell :=
  | OutgoingCell (p : addr)
  | RegisterCell (p : addr)
  | RegistryCell (g : addr).

#[export] Instance cell_eq_dec : EqDecision cell.
Proof. solve_decision. Defined.
#[export] Instance cell_countable : Countable cell.
Proof.
  refine (inj_countable'
    (λ c, match c with
          | OutgoingCell p => inl (inl p) | RegisterCell p => inl (inr p) | RegistryCell g => inr g
          end)
    (λ x, match x with
          | inl (inl p) => OutgoingCell p | inl (inr p) => RegisterCell p | inr g => RegistryCell g
          end) _).
  by intros [].
Defined.

(** The allocations, and the flags of the [RefCell]s that are borrowed: the number
    of readers, or -1 when there is a writer. *)
Record store (N E : Type) {S : SlotMapSig} := mkStore {
  st_nodes : gmap addr (rcbox (InnerData N E));
  st_regs : gmap addr (rcbox Registry);
  st_borrows : gmap cell Z;
}.
Arguments mkStore {N E S} _ _ _.
Arguments st_nodes {N E S} _.
Arguments st_regs {N E S} _.
Arguments st_borrows {N E S} _.

(** The global allocator: any address that is not in use, in particular one
    that was in use before. *)
Class Allocator := {
  alloc_addr : gset addr → addr;
  alloc_addr_fresh (X : gset addr) : alloc_addr X ∉ X;
}.

(** The references that the counts count. *)
Inductive ref :=
  | NodeStrong (p : addr)
  | NodeWeak (p : addr)
  | RegStrong (g : addr)
  | RegWeak (g : addr).

#[export] Instance ref_eq_dec : EqDecision ref.
Proof. solve_decision. Defined.

Section store.
Context {N E : Type} {S : SlotMapSig}.
Implicit Types (st : store N E) (p q g : addr) (d : InnerData N E) (R : Registry).

(** The live node at an address, if there is one. *)
Definition node st p : option (InnerData N E) := st_nodes st !! p ≫= rc_val.
Definition registry_at st g : option Registry := st_regs st !! g ≫= rc_val.

Definition set_node p b st : store N E :=
  mkStore (<[p:=b]> (st_nodes st)) (st_regs st) (st_borrows st).
Definition set_reg g b st : store N E :=
  mkStore (st_nodes st) (<[g:=b]> (st_regs st)) (st_borrows st).
Definition free_node p st : store N E :=
  mkStore (delete p (st_nodes st)) (st_regs st) (st_borrows st).
Definition free_reg g st : store N E :=
  mkStore (st_nodes st) (delete g (st_regs st)) (st_borrows st).

(** What a reference count says. *)
Definition count st (r : ref) : nat :=
  match r with
  | NodeStrong p => from_option rc_strong 0 (st_nodes st !! p)
  | NodeWeak p => from_option rc_weak 0 (st_nodes st !! p)
  | RegStrong g => from_option rc_strong 0 (st_regs st !! g)
  | RegWeak g => from_option rc_weak 0 (st_regs st !! g)
  end.

(** The references each value owns, in the order its fields are dropped. *)
Definition edge_refs (e : InnerEdgeData E) : list ref :=
  [NodeStrong (ie_source e); NodeWeak (ie_target e)].
Definition weak_edge_ref (e : WeakEdge) : ref := NodeWeak (we_target e).
Definition inner_refs d : list ref :=
  (nd_incoming d ≫= edge_refs) ++ (weak_edge_ref <$> nd_outgoing d) ++
  (RegWeak <$> option_list (nd_registry d)).
Definition registry_refs R : list ref := (λ kp, NodeWeak kp.2) <$> sm_iter (reg_nodes R).

Definition node_cell_refs p (b : rcbox (InnerData N E)) : list ref :=
  match rc_val b with Some d => NodeWeak p :: inner_refs d | None => [] end.
Definition reg_cell_refs g (b : rcbox Registry) : list ref :=
  match rc_val b with Some R => RegWeak g :: registry_refs R | None => [] end.

(** All references held inside the store. *)
Definition internal st : list ref :=
  map_refs node_cell_refs (st_nodes st) ++ map_refs reg_cell_refs (st_regs st).

(** ** Invariant *)

(** [owners] are the references held outside the store: by the client, by
    history graphs and by values under construction or destruction.  Every
    count is exactly the number of references that exist. *)
Definition wf_counts st (owners : list ref) : Prop :=
  ∀ r, count st r = occ r owners + occ r (internal st).

(** A cell is kept while its weak count is positive, its value while its
    strong count is positive. *)
Definition wf_cell {A} (b : rcbox A) : Prop :=
  0 < rc_weak b ∧ (is_Some (rc_val b) ↔ 0 < rc_strong b).
Definition wf_cells st : Prop :=
  map_Forall (λ _, wf_cell) (st_nodes st) ∧ map_Forall (λ _, wf_cell) (st_regs st).

(** Parents and children agree: the node at [p] lists the edge [(i, q)] among
    its outgoing edges exactly once when [p] is the source of the [i]-th
    incoming edge of [q], and not at all otherwise. *)
Definition link_count (dq : InnerData N E) (i : nat) (p : addr) : nat :=
  match nd_incoming dq !! i with
  | Some e => if decide (ie_source e = p) then 1 else 0
  | None => 0
  end.

Record wf_graph (v : addr → option (InnerData N E)) : Prop := {
  wf_target p d e : v p = Some d → e ∈ nd_incoming d → ie_target e = p;
  wf_link p dp q dq i : v p = Some dp → v q = Some dq →
    occ (mkWeakEdge i q) (nd_outgoing dp) = link_count dq i p;
  (** parents precede their children in some ranking *)
  wf_rank : ∃ rank : addr → nat, ∀ q d e,
    v q = Some d → e ∈ nd_incoming d → rank (ie_source e) < rank q;
}.

(** The two maps of a registry are inverse to each other. *)
Definition registry_ok R : Prop :=
  ∀ k p, sm_get k (reg_nodes R) = Some p ↔ reg_ptr_to_id R !! p = Some k.

Record wf st (owners : list ref) : Prop := {
  wf_st_counts : wf_counts st owners;
  wf_st_cells : wf_cells st;
  wf_st_graph : wf_graph (node st);
  wf_st_regs g R : registry_at st g = Some R → registry_ok R;
  (** between calls nothing is borrowed *)
  wf_st_borrows : st_borrows st = ∅;
}.

(** Ancestor relation on live nodes: [parent_of st p q] when [p] is a parent
    of [q]. *)
Definition parent_of st p q : Prop :=
  ∃ d e, node st q = Some d ∧ e ∈ nd_incoming d ∧ ie_source e = p.
Definition ancestor_of st : relation addr := rtc (parent_of st).
End store.

(** A store with nothing in it. *)
Definition empty_store {N E : Type} {S : SlotMapSig} : store N E := mkStore ∅ ∅ ∅.
