(* ===== verification/RefCell.v ===== *)
(** * [RefCell] of the standard library

    The borrow flags, what [borrow] and [borrow_mut] do with them, and when code
    that runs under a borrow does what it would do without. *)

From S2P Require Import Prelude Slotmap Store.

Section refcell.
Context {N E : Type} {S : SlotMapSig}.
Implicit Types (st : store N E) (c : cell) (m : gmap cell Z).

Definition borrow_flag c st : Z := default 0%Z (st_borrows st !! c).
Definition set_borrows m st : store N E := mkStore (st_nodes st) (st_regs st) m.

(** The flag 0 is not stored. *)
Definition set_flag c (z : Z) st : store N E :=
  set_borrows (if decide (z = 0%Z) then delete c (st_borrows st) else <[c := z]> (st_borrows st)) st.

Definition RefCell_borrow c st : result (store N E) :=
  if decide (borrow_flag c st < 0)%Z then Err (Panic "already mutably borrowed: BorrowError")
  else Ok (set_flag c (borrow_flag c st + 1) st).
Definition RefCell_borrow_mut c st : result (store N E) :=
  if decide (borrow_flag c st = 0%Z) then Ok (set_flag c (-1) st)
  else Err (Panic "already borrowed: BorrowMutError").

(** Dropping the guards [Ref] and [RefMut]. *)
Definition Ref_drop c st : store N E := set_flag c (borrow_flag c st - 1) st.
Definition RefMut_drop c st : store N E := set_flag c (borrow_flag c st + 1) st.

(** The guard lives while [f] runs. *)
Definition with_borrow {B} c (f : store N E → result (B * store N E)) st : result (B * store N E) :=
  st1 ← RefCell_borrow c st; r ← f st1; Ok (r.1, Ref_drop c r.2).
Definition with_borrow_mut {B} c (f : store N E → result (B * store N E)) st : result (B * store N E) :=
  st1 ← RefCell_borrow_mut c st; r ← f st1; Ok (r.1, RefMut_drop c r.2).

(** [f] only reads: when the guard is gone the store is as it was. *)
Definition read_borrow {B} c (f : store N E → result B) st : result B :=
  st1 ← RefCell_borrow c st; f st1.

(** ** Code that does not look at the flags

    [f] at a store with other flags does what it does at [st], and leaves the flags
    alone. *)
Definition framed {B} m (f : store N E → result (B * store N E)) st : Prop :=
  f (set_borrows m st) = (r ← f st; Ok (r.1, set_borrows m r.2)).
Definition framed_step m (f : store N E → result (store N E)) st : Prop :=
  f (set_borrows m st) = (s ← f st; Ok (set_borrows m s)).

Lemma set_borrows_self st m : st_borrows st = m → set_borrows m st = st.
Proof. destruct st; simpl. by intros ->. Qed.
Lemma set_borrows_twice m m' st : set_borrows m (set_borrows m' st) = set_borrows m st.
Proof. done. Qed.

Lemma framed_borrows {B} (f : store N E → result (B * store N E)) st r :
  framed (st_borrows st) f st → f st = Ok r → st_borrows r.2 = st_borrows st.
Proof.
  unfold framed. rewrite set_borrows_self by done. intros Hf Hr. rewrite Hr in Hf. simpl in Hf.
  destruct r as [b s]. injection Hf as Hs. simpl. by rewrite Hs.
Qed.
Lemma framed_step_borrows (f : store N E → result (store N E)) st s :
  framed_step (st_borrows st) f st → f st = Ok s → st_borrows s = st_borrows st.
Proof.
  unfold framed_step. rewrite set_borrows_self by done. intros Hf Hr. rewrite Hr in Hf. simpl in Hf.
  injection Hf as Hs. by rewrite Hs.
Qed.

Lemma framed_Ok {B} m (b : B) st : framed m (λ s, Ok (b, s)) st.
Proof. done. Qed.
Lemma framed_bind {A B} m (f : store N E → result (A * store N E)) (k : A → store N E → result (B * store N E)) st :
  framed m f st → (∀ a s, f st = Ok (a, s) → framed m (k a) s) → framed m (λ s, r ← f s; k r.1 r.2) st.
Proof.
  unfold framed. intros Hf Hk. rewrite Hf. destruct (f st) as [[a s]|] eqn:Hs; [|done]. simpl. by apply Hk.
Qed.
Lemma framed_bind_step {B} m (f : store N E → result (store N E)) (k : store N E → result (B * store N E)) st :
  framed_step m f st → (∀ s, f st = Ok s → framed m k s) → framed m (λ s, s' ← f s; k s') st.
Proof.
  unfold framed, framed_step. intros Hf Hk. rewrite Hf. destruct (f st) as [s|] eqn:Hs; [|done]. simpl. by apply Hk.
Qed.
Lemma framed_step_bind {A} m (f : store N E → result (A * store N E)) (k : A → store N E → result (store N E)) st :
  framed m f st → (∀ a s, f st = Ok (a, s) → framed_step m (k a) s) → framed_step m (λ s, r ← f s; k r.1 r.2) st.
Proof.
  unfold framed, framed_step. intros Hf Hk. rewrite Hf. destruct (f st) as [[a s]|] eqn:Hs; [|done]. simpl. by apply Hk.
Qed.
Lemma framed_read {A B} m (g : store N E → result A) (k : A → store N E → result (B * store N E)) st :
  g (set_borrows m st) = g st → (∀ a, g st = Ok a → framed m (k a) st) → framed m (λ s, a ← g s; k a s) st.
Proof. unfold framed. intros -> Hk. destruct (g st) as [a|]; [|done]. simpl. by apply Hk. Qed.

(** ** Borrows of an idle store *)

Lemma RefCell_borrow_idle c st : st_borrows st = ∅ → RefCell_borrow c st = Ok (set_borrows {[c := 1%Z]} st).
Proof. intros Hm. unfold RefCell_borrow, set_flag, borrow_flag. by rewrite Hm. Qed.
Lemma RefCell_borrow_mut_idle c st :
  st_borrows st = ∅ → RefCell_borrow_mut c st = Ok (set_borrows {[c := (-1)%Z]} st).
Proof. intros Hm. unfold RefCell_borrow_mut, set_flag, borrow_flag. by rewrite Hm. Qed.

Lemma Ref_drop_last c st m :
  m !! c = None → st_borrows st = <[c := 1%Z]> m → Ref_drop c st = set_borrows m st.
Proof.
  intros Hc Hm. unfold Ref_drop, set_flag, borrow_flag. rewrite Hm, lookup_insert_eq. simpl.
  by rewrite delete_insert_id.
Qed.
Lemma RefMut_drop_last c st m :
  m !! c = None → st_borrows st = <[c := (-1)%Z]> m → RefMut_drop c st = set_borrows m st.
Proof.
  intros Hc Hm. unfold RefMut_drop, set_flag, borrow_flag. rewrite Hm, lookup_insert_eq. simpl.
  by rewrite delete_insert_id.
Qed.

Lemma read_borrow_idle {B} c (f : store N E → result B) st :
  st_borrows st = ∅ → (∀ m, f (set_borrows m st) = f st) → read_borrow c f st = f st.
Proof. intros Hm Hf. unfold read_borrow. rewrite RefCell_borrow_idle by done. apply Hf. Qed.

Lemma with_borrow_idle {B} c (f : store N E → result (B * store N E)) st :
  st_borrows st = ∅ → (∀ m, framed m f st) → with_borrow c f st = f st.
Proof.
  intros Hm Hf. unfold with_borrow. rewrite RefCell_borrow_idle by done. simpl. rewrite Hf.
  destruct (f st) as [[b s]|] eqn:Hs; [|done]. simpl. rewrite (Ref_drop_last c _ ∅) by done.
  rewrite set_borrows_twice, set_borrows_self; [done|]. rewrite <-Hm.
  exact (framed_borrows f st (b, s) (Hf _) Hs).
Qed.
Lemma with_borrow_mut_idle {B} c (f : store N E → result (B * store N E)) st :
  st_borrows st = ∅ → framed {[c := (-1)%Z]} f st → framed ∅ f st → with_borrow_mut c f st = f st.
Proof.
  intros Hm Hf H0. unfold with_borrow_mut. rewrite RefCell_borrow_mut_idle by done. simpl. rewrite Hf.
  destruct (f st) as [[b s]|] eqn:Hs; [|done]. simpl. rewrite (RefMut_drop_last c _ ∅) by done.
  rewrite set_borrows_twice, set_borrows_self; [done|]. rewrite <-Hm in H0. rewrite <-Hm.
  exact (framed_borrows f st (b, s) H0 Hs).
Qed.
End refcell.
