(* ===== verification/Guarded.v ===== *)
(** * Running code while guards are alive

    Two runs of the same code are compared: one on a store, and one on the same
    store while more guards on its [RefCell]s are alive.  The second run panics
    because of a borrow, or it does what the first does.  Here is the relation, with
    a rule for each way to put code together; [GuardedOps] goes through the
    operations. *)

From S2P Require Import Prelude Slotmap Store RefCell.

Create HintDb guarded discriminated.

(** The two panics of [RefCell]. *)
Definition borrow_error (e : error) : Prop :=
  e = Panic "already borrowed: BorrowMutError" ∨ e = Panic "already mutably borrowed: BorrowError".

(** ** Outcomes

    [P] relates what the two runs return. *)
Definition outcome {A B} (P : A → B → Prop) (r0 : result A) (r1 : result B) : Prop :=
  match r1 with
  | Ok b => ∃ a, r0 = Ok a ∧ P a b
  | Err e => borrow_error e ∨ r0 = Err e
  end.
Arguments outcome : simpl never.

Section outcomes.
Context {A B C D : Type}.

Lemma outcome_Ok (P : A → B → Prop) a b : P a b → outcome P (Ok a) (Ok b).
Proof. intros. by exists a. Qed.
Lemma outcome_Err (P : A → B → Prop) e : outcome P (Err e) (Err e).
Proof. by right. Qed.
Lemma outcome_borrow (P : A → B → Prop) r0 e : borrow_error e → outcome P r0 (Err e).
Proof. by left. Qed.
Lemma outcome_impl (P Q : A → B → Prop) r0 r1 :
  (∀ a b, P a b → Q a b) → outcome P r0 r1 → outcome Q r0 r1.
Proof. intros HPQ. unfold outcome. destruct r1; naive_solver. Qed.

(** What the first run returned is known to the rest. *)
Lemma outcome_bind_with (P : A → B → Prop) (Q : C → D → Prop) r0 r1 k0 k1 :
  outcome P r0 r1 → (∀ a b, r0 = Ok a → P a b → outcome Q (k0 a) (k1 b)) → outcome Q (rbind r0 k0) (rbind r1 k1).
Proof.
  unfold outcome. destruct r1 as [b|e]; simpl.
  - intros (a & -> & Hab) Hk. by apply Hk.
  - intros [?| ->] _; [by left|by right].
Qed.
Lemma outcome_bind (P : A → B → Prop) (Q : C → D → Prop) r0 r1 k0 k1 :
  outcome P r0 r1 → (∀ a b, P a b → outcome Q (k0 a) (k1 b)) → outcome Q (rbind r0 k0) (rbind r1 k1).
Proof. intros Hr Hk. eapply outcome_bind_with; eauto. Qed.
End outcomes.

Section loops.
Context {A B C : Type}.

Lemma outcome_eq (r : result A) : outcome eq r r.
Proof. destruct r; [by apply outcome_Ok|by apply outcome_Err]. Qed.

Lemma outcome_foldM (P : A → A → Prop) (f0 f1 : A → B → result A) l a0 a1 :
  (∀ x a0 a1, P a0 a1 → outcome P (f0 a0 x) (f1 a1 x)) → P a0 a1 →
  outcome P (foldM f0 a0 l) (foldM f1 a1 l).
Proof.
  intros Hf. revert a0 a1. induction l as [|x l IH]; intros a0 a1 Ha; simpl; [by apply outcome_Ok|].
  eapply outcome_bind; [by apply Hf|]. eauto.
Qed.
Lemma outcome_traverse (f0 f1 : B → result C) l :
  (∀ x, outcome eq (f0 x) (f1 x)) → outcome eq (traverse f0 l) (traverse f1 l).
Proof.
  intros Hf. induction l as [|x l IH]; simpl; [by apply outcome_Ok|].
  eapply outcome_bind; [apply Hf|]. intros y ? <-. eapply outcome_bind; [apply IH|]. intros ys ? <-. by apply outcome_Ok.
Qed.
Lemma outcome_filterM (f0 f1 : B → result bool) l :
  (∀ x, outcome eq (f0 x) (f1 x)) → outcome eq (filterM f0 l) (filterM f1 l).
Proof.
  intros Hf. induction l as [|x l IH]; simpl; [by apply outcome_Ok|].
  eapply outcome_bind; [apply Hf|]. intros y ? <-. eapply outcome_bind; [apply IH|]. intros ys ? <-. by apply outcome_Ok.
Qed.
Lemma outcome_filter_mapM (f0 f1 : B → result (option C)) l :
  (∀ x, outcome eq (f0 x) (f1 x)) → outcome eq (filter_mapM f0 l) (filter_mapM f1 l).
Proof.
  intros Hf. induction l as [|x l IH]; simpl; [by apply outcome_Ok|].
  eapply outcome_bind; [apply Hf|]. intros y ? <-. eapply outcome_bind; [apply IH|]. intros ys ? <-. by apply outcome_Ok.
Qed.
End loops.

(** ** Flags *)

Definition flag (F : gmap cell Z) c : Z := default 0%Z (F !! c).
Definition put_flag c (z : Z) (F : gmap cell Z) : gmap cell Z :=
  if decide (z = 0%Z) then delete c F else <[c := z]> F.

(** No flag 0 is stored. *)
Definition canonical (F : gmap cell Z) : Prop := ∀ c, F !! c ≠ Some 0%Z.

(** [F1] has the guards of [F0] and more: readers of cells that nobody writes to,
    writers of cells that nobody uses. *)
Record more_guards (F0 F1 : gmap cell Z) : Prop := {
  mg_canonical0 : canonical F0;
  mg_canonical1 : canonical F1;
  mg_cell c : flag F1 c = flag F0 c ∨ (0 ≤ flag F0 c < flag F1 c)%Z ∨ (flag F0 c = 0 ∧ flag F1 c < 0)%Z;
}.

Section flags.
Implicit Types (F : gmap cell Z) (c : cell) (z : Z).

Lemma flag_put c c' z F : flag (put_flag c z F) c' = if decide (c' = c) then z else flag F c'.
Proof.
  unfold flag, put_flag. repeat case_decide; subst.
  - by rewrite lookup_delete_eq.
  - by rewrite lookup_delete_ne.
  - by rewrite lookup_insert_eq.
  - by rewrite lookup_insert_ne.
Qed.
Lemma put_flag_back c z F : canonical F → put_flag c (flag F c) (put_flag c z F) = F.
Proof.
  intros HF. apply map_eq. intros c'. unfold put_flag, flag. destruct (F !! c) as [y|] eqn:Hc; simpl.
  - rewrite decide_False by (intros ->; by apply (HF c)).
    destruct (decide (c' = c)) as [->|]; [by rewrite lookup_insert_eq|]. rewrite lookup_insert_ne by done.
    case_decide; [by rewrite lookup_delete_ne|by rewrite lookup_insert_ne].
  - destruct (decide (c' = c)) as [->|]; [by rewrite lookup_delete_eq|]. rewrite lookup_delete_ne by done.
    case_decide; [by rewrite lookup_delete_ne|by rewrite lookup_insert_ne].
Qed.
Lemma put_flag_canonical c z F : canonical F → canonical (put_flag c z F).
Proof.
  intros HF c'. unfold put_flag. case_decide.
  - intros [_ ?]%lookup_delete_Some. by eapply HF.
  - intros [[_ ?]|[_ ?]]%lookup_insert_Some; [done|by eapply HF].
Qed.
Lemma more_guards_put c z0 z1 F0 F1 :
  more_guards F0 F1 → (z1 = z0 ∨ (0 ≤ z0 < z1)%Z) → more_guards (put_flag c z0 F0) (put_flag c z1 F1).
Proof.
  intros [H0 H1 Hc] Hz. split; [by apply put_flag_canonical..|]. intros c'. rewrite !flag_put.
  case_decide; [naive_solver|apply Hc].
Qed.
Lemma more_guards_start F : canonical F → more_guards ∅ F.
Proof. intros HF. split; [by intros c|done|]. intros c. replace (flag ∅ c) with 0%Z by done. lia. Qed.
End flags.

Section guarded.
Context {N E : Type} {S : SlotMapSig}.
Implicit Types (s : store N E) (F : gmap cell Z) (c : cell).

(** The same store, with the guards of [F0] and with those of [F1]. *)
Definition stores F0 F1 s0 s1 : Prop :=
  more_guards F0 F1 ∧ st_borrows s0 = F0 ∧ s1 = set_borrows F1 s0.

(** A result beside the store. *)
Definition returns {B} F0 F1 : relation (B * store N E) := prod_relation eq (stores F0 F1).

Lemma returns_pair {B} F0 F1 (b : B) s0 s1 : stores F0 F1 s0 s1 → returns F0 F1 (b, s0) (b, s1).
Proof. by split. Qed.

(** Updates leave the flags alone. *)
Lemma stores_set_node F0 F1 s0 s1 p b : stores F0 F1 s0 s1 → stores F0 F1 (set_node p b s0) (set_node p b s1).
Proof. by intros (? & ? & ->). Qed.
Lemma stores_set_reg F0 F1 s0 s1 g b : stores F0 F1 s0 s1 → stores F0 F1 (set_reg g b s0) (set_reg g b s1).
Proof. by intros (? & ? & ->). Qed.
Lemma stores_free_node F0 F1 s0 s1 p : stores F0 F1 s0 s1 → stores F0 F1 (free_node p s0) (free_node p s1).
Proof. by intros (? & ? & ->). Qed.
Lemma stores_free_reg F0 F1 s0 s1 g : stores F0 F1 s0 s1 → stores F0 F1 (free_reg g s0) (free_reg g s1).
Proof. by intros (? & ? & ->). Qed.

(** [f] returns a result and a store, a store, or only a result. *)
Definition runs_alike {B} (f : store N E → result (B * store N E)) : Prop :=
  ∀ F0 F1 s0 s1, stores F0 F1 s0 s1 → outcome (returns F0 F1) (f s0) (f s1).
Definition steps_alike (f : store N E → result (store N E)) : Prop :=
  ∀ F0 F1 s0 s1, stores F0 F1 s0 s1 → outcome (stores F0 F1) (f s0) (f s1).
Definition reads_alike {B} (f : store N E → result B) : Prop :=
  ∀ F0 F1 s0 s1, stores F0 F1 s0 s1 → outcome eq (f s0) (f s1).

(** ** Borrows *)

Lemma set_flag_put c z s : set_flag c z s = set_borrows (put_flag c z (st_borrows s)) s.
Proof. done. Qed.

(** Giving back a flag. *)
Lemma stores_back F0 F1 c z0 z1 s0 s1 :
  more_guards F0 F1 → stores (put_flag c z0 F0) (put_flag c z1 F1) s0 s1 →
  stores F0 F1 (set_flag c (flag F0 c) s0) (set_flag c (flag F1 c) s1).
Proof.
  intros Hm (_ & Hb & ->). rewrite !set_flag_put, Hb. simpl. rewrite put_flag_back by apply Hm.
  rewrite put_flag_back by apply Hm. by split_and!.
Qed.

Lemma RefCell_borrow_outcome F0 F1 c s0 s1 :
  stores F0 F1 s0 s1 →
  outcome (stores (put_flag c (flag F0 c + 1) F0) (put_flag c (flag F1 c + 1) F1))
    (RefCell_borrow c s0) (RefCell_borrow c s1).
Proof.
  intros (Hm & <- & ->). unfold RefCell_borrow, borrow_flag. simpl.
  change (default 0%Z (st_borrows s0 !! c)) with (flag (st_borrows s0) c).
  change (default 0%Z (F1 !! c)) with (flag F1 c).
  pose proof (mg_cell _ _ Hm c) as Hc. destruct (decide (flag F1 c < 0)%Z) as [H1|H1].
  { apply outcome_borrow. by right. }
  rewrite decide_False by lia. apply outcome_Ok. split; [|done]. apply more_guards_put; [done|lia].
Qed.
Lemma RefCell_borrow_mut_outcome F0 F1 c s0 s1 :
  stores F0 F1 s0 s1 →
  outcome (λ t0 t1, flag F0 c = 0%Z ∧ flag F1 c = 0%Z ∧ stores (put_flag c (-1) F0) (put_flag c (-1) F1) t0 t1)
    (RefCell_borrow_mut c s0) (RefCell_borrow_mut c s1).
Proof.
  intros (Hm & <- & ->). unfold RefCell_borrow_mut, borrow_flag. simpl.
  change (default 0%Z (st_borrows s0 !! c)) with (flag (st_borrows s0) c).
  change (default 0%Z (F1 !! c)) with (flag F1 c).
  pose proof (mg_cell _ _ Hm c) as Hc. destruct (decide (flag F1 c = 0%Z)) as [H1|H1]; [|apply outcome_borrow; by left].
  rewrite decide_True by lia. apply outcome_Ok. split_and!; [lia|done|].
  split; [|done]. apply more_guards_put; [done|lia].
Qed.

Lemma with_borrow_alike {B} c (f : store N E → result (B * store N E)) :
  runs_alike f → runs_alike (with_borrow c f).
Proof.
  intros Hf F0 F1 s0 s1 Hs. eapply outcome_bind; [by apply RefCell_borrow_outcome|]. intros t0 t1 Ht.
  eapply outcome_bind; [by apply Hf|]. intros [b u0] [? u1] [[= <-] Hu]. simpl in Hu.
  apply outcome_Ok, returns_pair. unfold Ref_drop, borrow_flag. pose proof Hu as (_ & Hb0 & Hb1). simpl.
  assert (st_borrows u1 = put_flag c (flag F1 c + 1) F1) as -> by by rewrite Hb1.
  rewrite Hb0. fold (flag (put_flag c (flag F0 c + 1) F0) c). fold (flag (put_flag c (flag F1 c + 1) F1) c).
  rewrite !flag_put, !decide_True by done. rewrite !Z.add_simpl_r. eapply stores_back; [apply Hs|done].
Qed.
Lemma with_borrow_mut_alike {B} c (f : store N E → result (B * store N E)) :
  runs_alike f → runs_alike (with_borrow_mut c f).
Proof.
  intros Hf F0 F1 s0 s1 Hs. eapply outcome_bind; [by apply RefCell_borrow_mut_outcome|]. intros t0 t1 (H0 & H1 & Ht).
  eapply outcome_bind; [by apply Hf|]. intros [b u0] [? u1] [[= <-] Hu]. simpl in Hu.
  apply outcome_Ok, returns_pair. unfold RefMut_drop, borrow_flag. pose proof Hu as (_ & Hb0 & Hb1). simpl.
  assert (st_borrows u1 = put_flag c (-1) F1) as -> by by rewrite Hb1.
  rewrite Hb0. fold (flag (put_flag c (-1) F0) c). fold (flag (put_flag c (-1) F1) c).
  rewrite !flag_put, !decide_True by done. change (-1 + 1)%Z with 0%Z. rewrite <-H0 at 1. rewrite <-H1.
  eapply stores_back; [apply Hs|done].
Qed.
Lemma read_borrow_alike {B} c (f : store N E → result B) : reads_alike f → reads_alike (read_borrow c f).
Proof. intros Hf F0 F1 s0 s1 Hs. eapply outcome_bind; [by apply RefCell_borrow_outcome|]. apply Hf. Qed.

(** ** Code that does not look at the flags *)

Lemma framed_alike {B} (f : store N E → result (B * store N E)) : (∀ m st, framed m f st) → runs_alike f.
Proof.
  intros Hf F0 F1 s0 s1 (Hm & Hb & ->). rewrite (Hf F1 s0).
  destruct (f s0) as [[b s]|e] eqn:Hs; [|apply outcome_Err]. apply outcome_Ok, returns_pair.
  split_and!; [done| |done]. rewrite <-Hb. exact (framed_borrows f s0 (b, s) (Hf _ _) Hs).
Qed.
Lemma framed_step_alike (f : store N E → result (store N E)) : (∀ m st, framed_step m f st) → steps_alike f.
Proof.
  intros Hf F0 F1 s0 s1 (Hm & Hb & ->). rewrite (Hf F1 s0).
  destruct (f s0) as [s|e] eqn:Hs; [|apply outcome_Err]. apply outcome_Ok.
  split_and!; [done| |done]. rewrite <-Hb. exact (framed_step_borrows f s0 s (Hf _ _) Hs).
Qed.

(** The two stores show the same. *)
Lemma node_alike p : reads_alike (λ s, deref (node s p)).
Proof. intros F0 F1 s0 s1 (_ & _ & ->). apply outcome_eq. Qed.
Lemma registry_alike g : reads_alike (λ s, deref (registry_at s g)).
Proof. intros F0 F1 s0 s1 (_ & _ & ->). apply outcome_eq. Qed.
Lemma cell_alike p : reads_alike (λ s, deref (st_nodes s !! p)).
Proof. intros F0 F1 s0 s1 (_ & _ & ->). apply outcome_eq. Qed.
Lemma reg_cell_alike g : reads_alike (λ s, deref (st_regs s !! g)).
Proof. intros F0 F1 s0 s1 (_ & _ & ->). apply outcome_eq. Qed.

(** Loops. *)
Lemma foldM_alike {X B} (f : X * store N E → B → result (X * store N E)) l x :
  (∀ x b, runs_alike (λ s, f (x, s) b)) → runs_alike (λ s, foldM f (x, s) l).
Proof.
  intros Hf F0 F1 s0 s1 Hs. apply outcome_foldM; [|by apply returns_pair].
  intros b [y t0] [? t1] [[= <-] Ht]. by apply Hf.
Qed.
Lemma foldM_step_alike {B} (f : store N E → B → result (store N E)) l :
  (∀ b, steps_alike (λ s, f s b)) → steps_alike (λ s, foldM f s l).
Proof. intros Hf F0 F1 s0 s1 Hs. apply outcome_foldM; [|done]. intros b t0 t1 Ht. by apply Hf. Qed.
End guarded.

#[export] Hint Resolve node_alike registry_alike cell_alike reg_cell_alike : guarded.
#[export] Hint Resolve returns_pair stores_set_node stores_set_reg stores_free_node stores_free_reg : guarded.

(** What a call returned in the two runs: take it apart. *)
Ltac guarded_intro :=
  let a := fresh "a" in let b := fresh "b" in let H := fresh "H" in
  intros a b H;
  lazymatch type of H with
  | a = b => subst b
  | returns _ _ _ _ =>
      let x := fresh "x" in let y := fresh "y" in let s0 := fresh "s" in let s1 := fresh "s" in
      let Heq := fresh "Heq" in
      destruct a as [x s0], b as [y s1], H as [Heq H]; simpl in Heq, H; subst y
  | _ => idtac
  end; cbn [fst snd].

(** Code that takes a store, and the two runs of it.  Calls are left to the lemmas
    about them. *)
Ltac alike :=
  first
    [ solve [eauto with guarded]
    | lazymatch goal with
      | |- _ (with_borrow _ _) => apply with_borrow_alike; alike
      | |- _ (with_borrow_mut _ _) => apply with_borrow_mut_alike; alike
      | |- _ (read_borrow _ _) => apply read_borrow_alike; alike
      | |- _ (λ s, foldM _ (_, s) _) => apply foldM_alike; intros; alike
      | |- _ (λ s, foldM _ s _) => apply foldM_step_alike; intros; alike
      | |- _ (λ s, rbind _ _) => alike_body
      | |- _ (λ s, match _ with _ => _ end) => alike_body
      | |- _ (λ s, Ok _) => alike_body
      end ]
with alike_body :=
  let F0 := fresh "F" in let F1 := fresh "F" in let s0 := fresh "s" in let s1 := fresh "s" in
  let Hs := fresh "Hs" in
  intros F0 F1 s0 s1 Hs; cbn [fst snd]; solve [guarded]
with guarded_call :=
  match goal with
  | |- outcome _ ?r ?r => apply outcome_eq
  | |- outcome _ (filterM _ ?l) (filterM _ ?l) => apply outcome_filterM; intros; guarded
  | |- outcome _ (filter_mapM _ ?l) (filter_mapM _ ?l) => apply outcome_filter_mapM; intros; guarded
  | |- outcome _ (traverse _ ?l) (traverse _ ?l) => apply outcome_traverse; intros; guarded
  | H : stores ?F0 ?F1 ?s0 ?s1 |- outcome _ ?r0 ?r1 =>
      let f := lazymatch r0 with
        | ?f s0 => f
        | _ => let fs := eval pattern s0 in r0 in lazymatch fs with ?f _ => f end
        end in
      let g := eval cbv beta in (f s1) in constr_eq g r1;
      first
        [ refine ((_ : runs_alike f) F0 F1 s0 s1 H); alike
        | refine ((_ : steps_alike f) F0 F1 s0 s1 H); alike
        | refine ((_ : reads_alike f) F0 F1 s0 s1 H); alike ]
  end
with guarded_step :=
  lazymatch goal with
  | |- outcome _ (Ok _) (Ok _) => apply outcome_Ok
  | |- outcome _ (Err _) (Err _) => apply outcome_Err
  | |- outcome _ (rbind _ _) (rbind _ _) => eapply outcome_bind; [solve [guarded_call]|guarded_intro]
  | |- outcome _ (match ?x with _ => _ end) (match ?x with _ => _ end) => destruct x
  | |- outcome _ _ _ => guarded_call
  end
with guarded := repeat guarded_step; eauto with guarded.
