(* ===== verification/StoreFacts.v ===== *)
(** * Accounting lemmas for the store

    How counts, internal references and views change when one cell changes, and
    what the invariant says about a reference that somebody holds. *)

From S2P Require Import Prelude Slotmap Store.

(** The share of a count that one cell is responsible for. *)
Definition node_share {A} (p : addr) (b : rcbox A) (r : ref) : nat :=
  match r with
  | NodeStrong q => if decide (q = p) then rc_strong b else 0
  | NodeWeak q => if decide (q = p) then rc_weak b else 0
  | _ => 0
  end.
Definition reg_share {A} (g : addr) (b : rcbox A) (r : ref) : nat :=
  match r with
  | RegStrong h => if decide (h = g) then rc_strong b else 0
  | RegWeak h => if decide (h = g) then rc_weak b else 0
  | _ => 0
  end.

(** Balance equations of the accounting, reference kind by reference kind. *)
Ltac balance :=
  let r := fresh "r" in
  intros r; destruct r; unfold node_cell_refs, reg_cell_refs; simpl in *;
  occ_lia.

Section facts.
Context {N E : Type} {S : SlotMapSig}.
Implicit Types (st : store N E) (p q g : addr) (d : InnerData N E) (R : Registry).
Implicit Types (ow : list ref).

(** ** Views *)

Lemma node_set_node p b st q :
  node (set_node p b st) q = if decide (q = p) then rc_val b else node st q.
Proof.
  unfold node, set_node; simpl. rewrite lookup_insert.
  repeat case_decide; naive_solver.
Qed.
Lemma node_free_node p st q :
  node (free_node p st) q = if decide (q = p) then None else node st q.
Proof.
  unfold node, free_node; simpl. rewrite lookup_delete.
  repeat case_decide; naive_solver.
Qed.
Lemma registry_at_set_reg g b st h :
  registry_at (set_reg g b st) h = if decide (h = g) then rc_val b else registry_at st h.
Proof.
  unfold registry_at, set_reg; simpl. rewrite lookup_insert.
  repeat case_decide; naive_solver.
Qed.
Lemma registry_at_free_reg g st h :
  registry_at (free_reg g st) h = if decide (h = g) then None else registry_at st h.
Proof.
  unfold registry_at, free_reg; simpl. rewrite lookup_delete.
  repeat case_decide; naive_solver.
Qed.
Lemma node_Some st p d :
  node st p = Some d ↔ ∃ b, st_nodes st !! p = Some b ∧ rc_val b = Some d.
Proof. unfold node. destruct (st_nodes st !! p); naive_solver. Qed.
Lemma registry_at_Some st g R :
  registry_at st g = Some R ↔ ∃ b, st_regs st !! g = Some b ∧ rc_val b = Some R.
Proof. unfold registry_at. destruct (st_regs st !! g); naive_solver. Qed.

Lemma wf_graph_ext (v v' : addr → option (InnerData N E)) :
  (∀ p, v' p = v p) → wf_graph v → wf_graph v'.
Proof.
  intros Hv [Ht Hl [rank Hr]]. split.
  - intros p d e. rewrite Hv. apply Ht.
  - intros p dp q dq i. rewrite !Hv. apply Hl.
  - exists rank. intros q d e. rewrite Hv. apply Hr.
Qed.

(** Losing nodes, or changing what is neither an incoming nor an outgoing
    edge, keeps the graph consistent. *)
Lemma wf_graph_shrink (v v' : addr → option (InnerData N E)) :
  (∀ q d, v' q = Some d → ∃ d0, v q = Some d0 ∧
     nd_incoming d = nd_incoming d0 ∧ nd_outgoing d = nd_outgoing d0) →
  wf_graph v → wf_graph v'.
Proof.
  intros Hv [Ht Hl [rank Hr]]. split.
  - intros p d e (d0 & Hp & Hi & _)%Hv. rewrite Hi. by apply Ht.
  - intros p dp q dq i (dp0 & Hp & _ & Hop)%Hv (dq0 & Hq & Hiq & _)%Hv.
    rewrite Hop, (Hl p dp0 q dq0 i) by done. unfold link_count. by rewrite Hiq.
  - exists rank. intros q d e (d0 & Hq & Hi & _)%Hv. rewrite Hi. by apply Hr.
Qed.

(** ** Counts and internal references under cell updates *)

Lemma count_set_node st p b b' r :
  st_nodes st !! p = Some b →
  count (set_node p b' st) r + node_share p b r = count st r + node_share p b' r.
Proof.
  intros Hp. destruct r as [q|q|q|q]; simpl; try rewrite lookup_insert; try done;
    repeat case_decide; subst; try rewrite Hp; simpl; lia || congruence.
Qed.
Lemma count_alloc_node st p b r :
  st_nodes st !! p = None → count (set_node p b st) r = count st r + node_share p b r.
Proof.
  intros Hp. destruct r as [q|q|q|q]; simpl; try rewrite lookup_insert; try lia;
    repeat case_decide; subst; try rewrite Hp; simpl; lia || congruence.
Qed.
Lemma count_free_node st p b r :
  st_nodes st !! p = Some b → count (free_node p st) r + node_share p b r = count st r.
Proof.
  intros Hp. destruct r as [q|q|q|q]; simpl; try rewrite lookup_delete; try lia;
    repeat case_decide; subst; try rewrite Hp; simpl; lia || congruence.
Qed.
Lemma count_set_reg st g b b' r :
  st_regs st !! g = Some b →
  count (set_reg g b' st) r + reg_share g b r = count st r + reg_share g b' r.
Proof.
  intros Hp. destruct r as [q|q|q|q]; simpl; try rewrite lookup_insert; try done;
    repeat case_decide; subst; try rewrite Hp; simpl; lia || congruence.
Qed.
Lemma count_alloc_reg st g b r :
  st_regs st !! g = None → count (set_reg g b st) r = count st r + reg_share g b r.
Proof.
  intros Hp. destruct r as [q|q|q|q]; simpl; try rewrite lookup_insert; try lia;
    repeat case_decide; subst; try rewrite Hp; simpl; lia || congruence.
Qed.
Lemma count_free_reg st g b r :
  st_regs st !! g = Some b → count (free_reg g st) r + reg_share g b r = count st r.
Proof.
  intros Hp. destruct r as [q|q|q|q]; simpl; try rewrite lookup_delete; try lia;
    repeat case_decide; subst; try rewrite Hp; simpl; lia || congruence.
Qed.

Section sums.
Context (w : ref → nat).
Let wsum := sum_list_with w.

Lemma internal_set_node st p b b' :
  st_nodes st !! p = Some b →
  wsum (internal (set_node p b' st)) + wsum (node_cell_refs p b) =
    wsum (internal st) + wsum (node_cell_refs p b').
Proof.
  intros Hp. unfold wsum, internal; simpl. rewrite !sum_list_with_app.
  pose proof (sum_map_refs_insert node_cell_refs w _ _ _ b' Hp). lia.
Qed.
Lemma internal_alloc_node st p b :
  st_nodes st !! p = None →
  wsum (internal (set_node p b st)) = wsum (internal st) + wsum (node_cell_refs p b).
Proof.
  intros Hp. unfold wsum, internal; simpl. rewrite !sum_list_with_app.
  rewrite sum_map_refs_fresh by done. lia.
Qed.
Lemma internal_free_node st p b :
  st_nodes st !! p = Some b →
  wsum (internal (free_node p st)) + wsum (node_cell_refs p b) = wsum (internal st).
Proof.
  intros Hp. unfold wsum, internal; simpl. rewrite !sum_list_with_app.
  pose proof (sum_map_refs_delete node_cell_refs w _ _ _ Hp). lia.
Qed.
Lemma internal_set_reg st g b b' :
  st_regs st !! g = Some b →
  wsum (internal (set_reg g b' st)) + wsum (reg_cell_refs g b) =
    wsum (internal st) + wsum (reg_cell_refs g b').
Proof.
  intros Hp. unfold wsum, internal; simpl. rewrite !sum_list_with_app.
  pose proof (sum_map_refs_insert reg_cell_refs w _ _ _ b' Hp). lia.
Qed.
Lemma internal_alloc_reg st g b :
  st_regs st !! g = None →
  wsum (internal (set_reg g b st)) = wsum (internal st) + wsum (reg_cell_refs g b).
Proof.
  intros Hp. unfold wsum, internal; simpl. rewrite !sum_list_with_app.
  rewrite sum_map_refs_fresh by done. lia.
Qed.
Lemma internal_free_reg st g b :
  st_regs st !! g = Some b →
  wsum (internal (free_reg g st)) + wsum (reg_cell_refs g b) = wsum (internal st).
Proof.
  intros Hp. unfold wsum, internal; simpl. rewrite !sum_list_with_app.
  pose proof (sum_map_refs_delete reg_cell_refs w _ _ _ Hp). lia.
Qed.
End sums.

(** ** Re-establishing the counts after a cell update

    The side condition balances what the owners, the cell's own references
    and the cell's counts gain and lose. *)

Lemma wf_counts_set_node st p b b' ow ow' :
  st_nodes st !! p = Some b → wf_counts st ow →
  (∀ r, occ r ow + node_share p b' r + occ r (node_cell_refs p b) =
        occ r ow' + node_share p b r + occ r (node_cell_refs p b')) →
  wf_counts (set_node p b' st) ow'.
Proof.
  intros Hp Hw Hr r. specialize (Hw r). specialize (Hr r).
  pose proof (count_set_node st p b b' r Hp) as Hc.
  pose proof (internal_set_node (λ y, if decide (r = y) then 1 else 0) st p b b' Hp) as Hi.
  unfold occ in *. lia.
Qed.
Lemma wf_counts_alloc_node st p b ow ow' :
  st_nodes st !! p = None → wf_counts st ow →
  (∀ r, occ r ow + node_share p b r = occ r ow' + occ r (node_cell_refs p b)) →
  wf_counts (set_node p b st) ow'.
Proof.
  intros Hp Hw Hr r. specialize (Hw r). specialize (Hr r).
  pose proof (count_alloc_node st p b r Hp) as Hc.
  pose proof (internal_alloc_node (λ y, if decide (r = y) then 1 else 0) st p b Hp) as Hi.
  unfold occ in *. lia.
Qed.
Lemma wf_counts_free_node st p b ow ow' :
  st_nodes st !! p = Some b → wf_counts st ow →
  (∀ r, occ r ow + occ r (node_cell_refs p b) = occ r ow' + node_share p b r) →
  wf_counts (free_node p st) ow'.
Proof.
  intros Hp Hw Hr r. specialize (Hw r). specialize (Hr r).
  pose proof (count_free_node st p b r Hp) as Hc.
  pose proof (internal_free_node (λ y, if decide (r = y) then 1 else 0) st p b Hp) as Hi.
  unfold occ in *. lia.
Qed.
Lemma wf_counts_set_reg st g b b' ow ow' :
  st_regs st !! g = Some b → wf_counts st ow →
  (∀ r, occ r ow + reg_share g b' r + occ r (reg_cell_refs g b) =
        occ r ow' + reg_share g b r + occ r (reg_cell_refs g b')) →
  wf_counts (set_reg g b' st) ow'.
Proof.
  intros Hp Hw Hr r. specialize (Hw r). specialize (Hr r).
  pose proof (count_set_reg st g b b' r Hp) as Hc.
  pose proof (internal_set_reg (λ y, if decide (r = y) then 1 else 0) st g b b' Hp) as Hi.
  unfold occ in *. lia.
Qed.
Lemma wf_counts_alloc_reg st g b ow ow' :
  st_regs st !! g = None → wf_counts st ow →
  (∀ r, occ r ow + reg_share g b r = occ r ow' + occ r (reg_cell_refs g b)) →
  wf_counts (set_reg g b st) ow'.
Proof.
  intros Hp Hw Hr r. specialize (Hw r). specialize (Hr r).
  pose proof (count_alloc_reg st g b r Hp) as Hc.
  pose proof (internal_alloc_reg (λ y, if decide (r = y) then 1 else 0) st g b Hp) as Hi.
  unfold occ in *. lia.
Qed.
Lemma wf_counts_free_reg st g b ow ow' :
  st_regs st !! g = Some b → wf_counts st ow →
  (∀ r, occ r ow + occ r (reg_cell_refs g b) = occ r ow' + reg_share g b r) →
  wf_counts (free_reg g st) ow'.
Proof.
  intros Hp Hw Hr r. specialize (Hw r). specialize (Hr r).
  pose proof (count_free_reg st g b r Hp) as Hc.
  pose proof (internal_free_reg (λ y, if decide (r = y) then 1 else 0) st g b Hp) as Hi.
  unfold occ in *. lia.
Qed.

Lemma wf_cells_set_node st p b : wf_cell b → wf_cells st → wf_cells (set_node p b st).
Proof. intros Hb [Hn Hr]. split; [by apply map_Forall_insert_2|done]. Qed.
Lemma wf_cells_free_node st p : wf_cells st → wf_cells (free_node p st).
Proof. intros [Hn Hr]. split; [by apply map_Forall_delete|done]. Qed.
Lemma wf_cells_set_reg st g b : wf_cell b → wf_cells st → wf_cells (set_reg g b st).
Proof. intros Hb [Hn Hr]. split; [done|by apply map_Forall_insert_2]. Qed.
Lemma wf_cells_free_reg st g : wf_cells st → wf_cells (free_reg g st).
Proof. intros [Hn Hr]. split; [done|by apply map_Forall_delete]. Qed.

(** ** What the invariant says about references that exist *)

Lemma wf_node_cell st ow p b :
  wf st ow → st_nodes st !! p = Some b → wf_cell b.
Proof. intros [_ [Hn _] _ _] Hp. by apply (Hn p b). Qed.
Lemma wf_reg_cell st ow g b :
  wf st ow → st_regs st !! g = Some b → wf_cell b.
Proof. intros [_ [_ Hr] _ _] Hp. by apply (Hr g b). Qed.

Lemma wf_owned_count st ow r : wf st ow → r ∈ ow → 0 < count st r.
Proof. intros Hw Hr%occ_elem_of. rewrite (wf_st_counts _ _ Hw r). lia. Qed.

Lemma wf_internal_count st ow r : wf st ow → r ∈ internal st → 0 < count st r.
Proof. intros Hw Hr%occ_elem_of. rewrite (wf_st_counts _ _ Hw r). lia. Qed.

Lemma elem_of_internal st r :
  r ∈ internal st ↔
    (∃ p d, node st p = Some d ∧ (r = NodeWeak p ∨ r ∈ inner_refs d)) ∨
    (∃ g R, registry_at st g = Some R ∧ (r = RegWeak g ∨ r ∈ registry_refs R)).
Proof.
  unfold internal. rewrite elem_of_app, !elem_of_map_refs.
  setoid_rewrite node_Some. setoid_rewrite registry_at_Some.
  unfold node_cell_refs, reg_cell_refs. split.
  - intros [(p & b & Hp & Hr)|(g & b & Hg & Hr)];
      destruct (rc_val b) as [x|] eqn:Hb; try (by apply elem_of_nil in Hr);
      apply elem_of_cons in Hr; [left|right]; naive_solver.
  - intros [(p & d & (b & Hp & Hb) & Hr)|(g & R & (b & Hg & Hb) & Hr)];
      [left; exists p, b|right; exists g, b]; rewrite Hb, elem_of_cons; naive_solver.
Qed.

(** A positive strong count means the node is alive; a positive weak count
    that its cell is still allocated. *)
Lemma count_strong_live st ow p :
  wf st ow → 0 < count st (NodeStrong p) →
  ∃ b d, st_nodes st !! p = Some b ∧ rc_val b = Some d ∧ node st p = Some d.
Proof.
  intros Hw. simpl. destruct (st_nodes st !! p) as [b|] eqn:Hp; simpl; [|lia].
  intros Hs. destruct (wf_node_cell _ _ _ _ Hw Hp) as [_ Hv].
  apply Hv in Hs as [d Hd]. exists b, d. rewrite node_Some. naive_solver.
Qed.
Lemma count_reg_strong_live st ow g :
  wf st ow → 0 < count st (RegStrong g) →
  ∃ b R, st_regs st !! g = Some b ∧ rc_val b = Some R ∧ registry_at st g = Some R.
Proof.
  intros Hw. simpl. destruct (st_regs st !! g) as [b|] eqn:Hp; simpl; [|lia].
  intros Hs. destruct (wf_reg_cell _ _ _ _ Hw Hp) as [_ Hv].
  apply Hv in Hs as [R HR]. exists b, R. rewrite registry_at_Some. naive_solver.
Qed.
Lemma count_weak_alloc st p : 0 < count st (NodeWeak p) → is_Some (st_nodes st !! p).
Proof. simpl. destruct (st_nodes st !! p); simpl; [eauto|lia]. Qed.
Lemma count_reg_weak_alloc st g : 0 < count st (RegWeak g) → is_Some (st_regs st !! g).
Proof. simpl. destruct (st_regs st !! g); simpl; [eauto|lia]. Qed.

(** A cell stays allocated while all that refers to it stays. *)
Lemma alloc_preserved st0 ow0 st ow p :
  wf st0 ow0 → wf st ow → (∀ r, r ∈ ow0 → r ∈ ow) →
  (∀ q d, node st0 q = Some d → node st q = Some d) → (∀ g, registry_at st g = registry_at st0 g) →
  st_nodes st !! p = None → st_nodes st0 !! p = None.
Proof.
  intros Hw0 Hw Hsub Hn HR Hp. destruct (st_nodes st0 !! p) as [b|] eqn:Hb; [exfalso|done].
  assert (NodeWeak p ∈ internal st ++ ow) as Hr.
  { destruct (wf_node_cell _ _ _ _ Hw0 Hb) as [Hwk _].
    assert (0 < occ (NodeWeak p) (internal st0 ++ ow0)) as Ho%occ_elem_of.
    { rewrite occ_app, Nat.add_comm, <-(wf_st_counts _ _ Hw0). simpl. by rewrite Hb. }
    apply elem_of_app in Ho as [Ho|Ho]; apply elem_of_app; [left|right; by apply Hsub].
    apply elem_of_internal in Ho. apply elem_of_internal. setoid_rewrite HR. naive_solver. }
  assert (is_Some (st_nodes st !! p)) as [? ?]; [|congruence].
  apply count_weak_alloc. rewrite (wf_st_counts _ _ Hw), Nat.add_comm, <-occ_app. by apply occ_elem_of.
Qed.

Lemma node_count_strong st ow p d :
  wf st ow → node st p = Some d → 0 < count st (NodeStrong p).
Proof.
  intros Hw (b & Hp & Hb)%node_Some. simpl. rewrite Hp; simpl.
  apply (wf_node_cell _ _ _ _ Hw Hp). by rewrite Hb.
Qed.
Lemma registry_count_strong st ow g R :
  wf st ow → registry_at st g = Some R → 0 < count st (RegStrong g).
Proof.
  intros Hw (b & Hp & Hb)%registry_at_Some. simpl. rewrite Hp; simpl.
  apply (wf_reg_cell _ _ _ _ Hw Hp). by rewrite Hb.
Qed.

Lemma owner_live st ow p :
  wf st ow → NodeStrong p ∈ ow → ∃ d, node st p = Some d.
Proof.
  intros Hw Hp. destruct (count_strong_live st ow p Hw) as (b & d & ? & ? & ?); [|by eauto].
  by eapply wf_owned_count.
Qed.
Lemma reg_owner_live st ow g :
  wf st ow → RegStrong g ∈ ow → ∃ R, registry_at st g = Some R.
Proof.
  intros Hw Hp. destruct (count_reg_strong_live st ow g Hw) as (b & d & ? & ? & ?); [|by eauto].
  by eapply wf_owned_count.
Qed.

Lemma elem_of_inner_refs d r :
  r ∈ inner_refs d ↔
    (∃ e, e ∈ nd_incoming d ∧ (r = NodeStrong (ie_source e) ∨ r = NodeWeak (ie_target e))) ∨
    (∃ e, e ∈ nd_outgoing d ∧ r = NodeWeak (we_target e)) ∨
    (∃ g, nd_registry d = Some g ∧ r = RegWeak g).
Proof.
  unfold inner_refs. rewrite !elem_of_app, list_elem_of_bind, !list_elem_of_fmap.
  unfold edge_refs, weak_edge_ref. setoid_rewrite elem_of_cons.
  setoid_rewrite list_elem_of_singleton. setoid_rewrite elem_of_option_list.
  split; intros [?|[?|?]]; naive_solver.
Qed.

Lemma elem_of_registry_refs `{!SlotMapLaws S} R r :
  r ∈ registry_refs R ↔ ∃ k p, sm_get k (reg_nodes R) = Some p ∧ r = NodeWeak p.
Proof.
  unfold registry_refs. rewrite list_elem_of_fmap. split.
  - intros ([k p] & -> & Hk%sm_iter_get). eauto.
  - intros (k & p & Hk & ->). exists (k, p). by rewrite sm_iter_get.
Qed.

(** The parents of a live node are alive. *)
Lemma source_live st ow q d e :
  wf st ow → node st q = Some d → e ∈ nd_incoming d →
  ∃ dp, node st (ie_source e) = Some dp.
Proof.
  intros Hw Hq He.
  destruct (count_strong_live st ow (ie_source e) Hw) as (b & dp & ? & ? & ?); [|by eauto].
  eapply wf_internal_count; [done|]. apply elem_of_internal. left.
  exists q, d. split; [done|]. right. apply elem_of_inner_refs. naive_solver.
Qed.

(** A registered address is never handed out again while it is registered. *)
Lemma registered_alloc `{!SlotMapLaws S} st ow g R k p :
  wf st ow → registry_at st g = Some R → sm_get k (reg_nodes R) = Some p →
  is_Some (st_nodes st !! p).
Proof.
  intros Hw Hg Hk. apply count_weak_alloc. eapply wf_internal_count; [done|].
  apply elem_of_internal. right. exists g, R. split; [done|]. right.
  apply elem_of_registry_refs. eauto.
Qed.

(** The registry of a live node may be dead, but its cell is allocated. *)
Lemma node_registry_alloc st ow p d g :
  wf st ow → node st p = Some d → nd_registry d = Some g → is_Some (st_regs st !! g).
Proof.
  intros Hw Hd Hg. apply count_reg_weak_alloc. eapply wf_internal_count; [done|].
  apply elem_of_internal. left. exists p, d. split; [done|]. right.
  apply elem_of_inner_refs. right. right. by exists g.
Qed.

Lemma wf_perm st ow ow' : ow ≡ₚ ow' → wf st ow → wf st ow'.
Proof.
  intros Hp [Hc ???]. split; try done. intros r.
  rewrite (Hc r). by rewrite (occ_perm r ow ow').
Qed.

#[export] Instance wf_proper st : Proper ((≡ₚ) ==> iff) (wf st).
Proof. intros ow ow' Hp. split; apply wf_perm; [done|by symmetry]. Qed.

Lemma parent_of_edge st q d i e :
  node st q = Some d → nd_incoming d !! i = Some e → parent_of st (ie_source e) q.
Proof. intros Hq Hi. exists d, e. split; [done|]. split; [by eapply list_elem_of_lookup_2|done]. Qed.

(** ** Liveness

    A node is alive exactly when some owner holds it or one of its
    descendants. *)

Definition held_by st ow p : Prop := ∃ q, NodeStrong q ∈ ow ∧ ancestor_of st p q.

Lemma ancestor_live st ow p q d :
  wf st ow → node st q = Some d → ancestor_of st p q → ∃ dp, node st p = Some dp.
Proof.
  intros Hw Hq Hp. revert d Hq.
  refine (rtc_ind_r (λ q, ∀ d, node st q = Some d → _) p _ _ q Hp); [by eauto|].
  intros y z _ (dz & e & Hz & He & <-) IH d' _. destruct (source_live _ _ _ _ _ Hw Hz He) as [dy Hy]. by eapply IH.
Qed.

Lemma strong_referrer st ow p d :
  wf st ow → node st p = Some d →
  NodeStrong p ∈ ow ∨ ∃ q, parent_of st p q.
Proof.
  intros Hw Hp. pose proof (node_count_strong _ _ _ _ Hw Hp) as Hc.
  rewrite (wf_st_counts _ _ Hw) in Hc.
  destruct (decide (NodeStrong p ∈ ow)) as [?|Hn]; [by left|right].
  apply occ_not_elem_of in Hn. rewrite Hn in Hc.
  apply occ_elem_of, elem_of_internal in Hc as [(q & dq & Hq & [?|Hr])|(g & R & _ & [?|Hr])];
    simplify_eq.
  - apply elem_of_inner_refs in Hr as [(e & He & [?|?])|[(?&?&?)|(?&?&?)]]; simplify_eq.
    exists q, dq, e. done.
  - unfold registry_refs in Hr. apply list_elem_of_fmap in Hr as (? & ? & _). done.
Qed.

Lemma wf_rank_bound st ow :
  wf st ow → ∃ (rank : addr → nat) (B : nat),
    (∀ q d e, node st q = Some d → e ∈ nd_incoming d → rank (ie_source e) < rank q) ∧
    (∀ q d, node st q = Some d → rank q < B).
Proof.
  intros Hw. destruct (wf_rank _ (wf_st_graph _ _ Hw)) as [rank Hr].
  exists rank, (Datatypes.S (max_list (rank <$> (map_to_list (st_nodes st)).*1))).
  split; [done|]. intros q d (b & Hq & _)%node_Some.
  apply Nat.lt_succ_r, max_list_elem_of_le, list_elem_of_fmap.
  exists q. split; [done|]. apply list_elem_of_fmap. exists (q, b).
  by rewrite elem_of_map_to_list.
Qed.

Lemma live_held st ow p d : wf st ow → node st p = Some d → held_by st ow p.
Proof.
  intros Hw. destruct (wf_rank_bound _ _ Hw) as (rank & B & Hr & HB).
  remember (B - rank p) as n eqn:Hn. revert p d Hn.
  induction n as [n IH] using lt_wf_ind. intros p d -> Hp.
  destruct (strong_referrer _ _ _ _ Hw Hp) as [Ho|(q & dq & e & Hq & He & <-)].
  { exists p. split; [done|apply rtc_refl]. }
  pose proof (Hr _ _ _ Hq He). pose proof (HB _ _ Hq). pose proof (HB _ _ Hp).
  destruct (IH (B - rank q)) with (p:=q) (d:=dq) as (o & Ho & Hqo); [lia|done..|].
  exists o. split; [done|]. eapply rtc_l; [|done]. exists dq, e. done.
Qed.

Lemma held_live st ow p : wf st ow → held_by st ow p → ∃ d, node st p = Some d.
Proof.
  intros Hw (q & Ho & Hpq). destruct (owner_live _ _ _ Hw Ho) as [dq Hq].
  by eapply ancestor_live.
Qed.

Lemma ancestor_rank st ow :
  wf st ow → ∃ rank : addr → nat, ∀ p q, tc (parent_of st) p q → rank p < rank q.
Proof.
  intros Hw. destruct (wf_rank_bound _ _ Hw) as (rank & B & Hr & _).
  exists rank. intros p q. induction 1 as [p q (d & e & Hq & He & <-)|p o q (d & e & Hq & He & <-) _ IH].
  - by eapply Hr.
  - pose proof (Hr _ _ _ Hq He). lia.
Qed.

(** Only owners keep a registry alive. *)
Lemma registry_owned st ow g R : wf st ow → registry_at st g = Some R → RegStrong g ∈ ow.
Proof.
  intros Hw HR. pose proof (registry_count_strong _ _ _ _ Hw HR) as Hc.
  rewrite (wf_st_counts _ _ Hw) in Hc. apply occ_elem_of.
  assert (RegStrong g ∉ internal st) as Hi%occ_not_elem_of; [|lia].
  intros [(p & d & _ & [?|Hin])|(h & R' & _ & [?|Hin])]%elem_of_internal; [done| |done|].
  - apply elem_of_inner_refs in Hin. naive_solver.
  - by apply list_elem_of_fmap in Hin as (? & ? & _).
Qed.

(** When nobody holds anything, nothing is left. *)
Lemma wf_no_owners st : wf st [] → st = empty_store.
Proof.
  intros Hw.
  assert (∀ p, node st p = None) as Hn.
  { intros p. destruct (node st p) as [d|] eqn:Hd; [exfalso|done].
    by destruct (live_held _ _ _ _ Hw Hd) as (q & ?%elem_of_nil & _). }
  assert (∀ g, registry_at st g = None) as Hr.
  { intros g. destruct (registry_at st g) as [R|] eqn:HR; [exfalso|done].
    by apply (registry_owned _ _ _ _ Hw), elem_of_nil in HR. }
  assert (∀ r, count st r = 0) as Hc.
  { intros r. rewrite (wf_st_counts _ _ Hw), occ_nil. apply occ_not_elem_of.
    intros [(p & d & Hd & _)|(g & R & HR & _)]%elem_of_internal; [by rewrite Hn in Hd|by rewrite Hr in HR]. }
  destruct (wf_st_cells _ _ Hw) as [Hcn Hcr]. pose proof (wf_st_borrows _ _ Hw) as Hbs.
  destruct st as [ns rs bs]. unfold empty_store. f_equal; [..|exact Hbs].
  - apply map_eq. intros p. rewrite lookup_empty. destruct (ns !! p) as [b|] eqn:Hb; [|done].
    destruct (Hcn _ _ Hb) as [? _]. specialize (Hc (NodeWeak p)). simpl in Hc. rewrite Hb in Hc. simpl in Hc. lia.
  - apply map_eq. intros g. rewrite lookup_empty. destruct (rs !! g) as [b|] eqn:Hb; [|done].
    destruct (Hcr _ _ Hb) as [? _]. specialize (Hc (RegWeak g)). simpl in Hc. rewrite Hb in Hc. simpl in Hc. lia.
Qed.
End facts.
