(* ===== verification/Rc.v ===== *)
(** * Reference-count operations of the standard library

    [Rc::clone], [Rc::downgrade], [Weak::clone] and [Weak::upgrade] on the two
    kinds of allocation, with what each does to the ownership accounting.
    Dropping references is in [Drop]. *)

From S2P Require Import Prelude Slotmap Store RefCell StoreFacts.

Section rc.
Context {N E : Type} {S : SlotMapSig}.
Implicit Types (st : store N E) (p q g : addr) (ow : list ref).

Definition rc_clone p st : result (store N E) :=
  b ← deref (st_nodes st !! p);
  if decide (rc_strong b = 0) then Err Dangling else
  Ok (set_node p (mkRc (Datatypes.S (rc_strong b)) (rc_weak b) (rc_val b)) st).

(** One more weak reference: [Rc::downgrade] and [Weak::clone]. *)
Definition rc_new_weak p st : result (store N E) :=
  b ← deref (st_nodes st !! p);
  Ok (set_node p (mkRc (rc_strong b) (Datatypes.S (rc_weak b)) (rc_val b)) st).

Definition rc_upgrade p st : result (option addr * store N E) :=
  b ← deref (st_nodes st !! p);
  if decide (rc_strong b = 0) then Ok (None, st) else
  Ok (Some p, set_node p (mkRc (Datatypes.S (rc_strong b)) (rc_weak b) (rc_val b)) st).

Definition reg_clone g st : result (store N E) :=
  b ← deref (st_regs st !! g);
  if decide (rc_strong b = 0) then Err Dangling else
  Ok (set_reg g (mkRc (Datatypes.S (rc_strong b)) (rc_weak b) (rc_val b)) st).

Definition reg_new_weak g st : result (store N E) :=
  b ← deref (st_regs st !! g);
  Ok (set_reg g (mkRc (rc_strong b) (Datatypes.S (rc_weak b)) (rc_val b)) st).

Definition reg_upgrade g st : result (option addr * store N E) :=
  b ← deref (st_regs st !! g);
  if decide (rc_strong b = 0) then Ok (None, st) else
  Ok (Some g, set_reg g (mkRc (Datatypes.S (rc_strong b)) (rc_weak b) (rc_val b)) st).

(** [Rc::new] of a registry *)
Definition reg_alloc `{Allocator} (R : Registry) st : addr * store N E :=
  let g := alloc_addr (dom (st_regs st)) in
  (g, set_reg g (mkRc 1 1 (Some R)) st).

(** Writes through a pointer, into the [RefCell] fields of a node and into
    the [RefCell] of a registry. *)
Definition put_node p (d : InnerData N E) st : result (store N E) :=
  b ← deref (st_nodes st !! p);
  Ok (set_node p (mkRc (rc_strong b) (rc_weak b) (Some d)) st).
Definition put_registry g (R : Registry) st : result (store N E) :=
  b ← deref (st_regs st !! g);
  Ok (set_reg g (mkRc (rc_strong b) (rc_weak b) (Some R)) st).

(** ** Facts *)

(** Two stores show the same live nodes and registries. *)
Definition same_views st st' : Prop :=
  (∀ p, node st' p = node st p) ∧ (∀ g, registry_at st' g = registry_at st g).

#[export] Instance same_views_equiv : Equivalence same_views.
Proof.
  split.
  - by intros st.
  - intros st st' [Hn Hr]. split; intros; by rewrite ?Hn, ?Hr.
  - intros st1 st2 st3 [Hn Hr] [Hn' Hr']. split; intros; by rewrite ?Hn', ?Hn, ?Hr', ?Hr.
Qed.

Lemma wf_same_views st st' ow ow' :
  wf st ow → same_views st st' → st_borrows st' = st_borrows st → wf_counts st' ow' → wf_cells st' →
  wf st' ow'.
Proof.
  intros [_ _ Hg Hr Hb] [Hvn Hvr] Hb' ? ?. split; try done; [..|by rewrite Hb'].
  - by eapply wf_graph_ext.
  - intros g R. rewrite Hvr. apply Hr.
Qed.

Lemma same_views_set_node st p b b' :
  st_nodes st !! p = Some b → rc_val b' = rc_val b → same_views st (set_node p b' st).
Proof.
  intros Hp Hv. split; [|done]. intros q. rewrite node_set_node.
  case_decide; subst; [|done]. unfold node. by rewrite Hp, Hv.
Qed.
Lemma same_views_set_reg st g b b' :
  st_regs st !! g = Some b → rc_val b' = rc_val b → same_views st (set_reg g b' st).
Proof.
  intros Hp Hv. split; [done|]. intros q. rewrite registry_at_set_reg.
  case_decide; subst; [|done]. unfold registry_at. by rewrite Hp, Hv.
Qed.

Lemma wf_bump_strong st ow p b :
  wf st ow → st_nodes st !! p = Some b → 0 < rc_strong b →
  wf (set_node p (mkRc (Datatypes.S (rc_strong b)) (rc_weak b) (rc_val b)) st)
     (NodeStrong p :: ow).
Proof.
  intros Hw Hp Hs. pose proof (wf_node_cell _ _ _ _ Hw Hp) as [Hb1 Hb2].
  eapply wf_same_views; [done|by eapply same_views_set_node|done|..].
  - eapply wf_counts_set_node; [done|apply Hw|]. balance.
  - apply wf_cells_set_node; [|apply Hw]. split; simpl; [done|]. rewrite Hb2. lia.
Qed.

Lemma wf_bump_weak st ow p b :
  wf st ow → st_nodes st !! p = Some b →
  wf (set_node p (mkRc (rc_strong b) (Datatypes.S (rc_weak b)) (rc_val b)) st)
     (NodeWeak p :: ow).
Proof.
  intros Hw Hp. pose proof (wf_node_cell _ _ _ _ Hw Hp) as [Hb1 Hb2].
  eapply wf_same_views; [done|by eapply same_views_set_node|done|..].
  - eapply wf_counts_set_node; [done|apply Hw|]. balance.
  - apply wf_cells_set_node; [|apply Hw]. split; simpl; [lia|done].
Qed.

Lemma wf_bump_reg_strong st ow g b :
  wf st ow → st_regs st !! g = Some b → 0 < rc_strong b →
  wf (set_reg g (mkRc (Datatypes.S (rc_strong b)) (rc_weak b) (rc_val b)) st)
     (RegStrong g :: ow).
Proof.
  intros Hw Hp Hs. pose proof (wf_reg_cell _ _ _ _ Hw Hp) as [Hb1 Hb2].
  eapply wf_same_views; [done|by eapply same_views_set_reg|done|..].
  - eapply wf_counts_set_reg; [done|apply Hw|]. balance.
  - apply wf_cells_set_reg; [|apply Hw]. split; simpl; [done|]. rewrite Hb2. lia.
Qed.

Lemma wf_bump_reg_weak st ow g b :
  wf st ow → st_regs st !! g = Some b →
  wf (set_reg g (mkRc (rc_strong b) (Datatypes.S (rc_weak b)) (rc_val b)) st)
     (RegWeak g :: ow).
Proof.
  intros Hw Hp. pose proof (wf_reg_cell _ _ _ _ Hw Hp) as [Hb1 Hb2].
  eapply wf_same_views; [done|by eapply same_views_set_reg|done|..].
  - eapply wf_counts_set_reg; [done|apply Hw|]. balance.
  - apply wf_cells_set_reg; [|apply Hw]. split; simpl; [lia|done].
Qed.

Lemma live_cell st ow p d :
  wf st ow → node st p = Some d →
  ∃ b, st_nodes st !! p = Some b ∧ rc_val b = Some d ∧ 0 < rc_strong b.
Proof.
  intros Hw (b & Hp & Hb)%node_Some. exists b. split_and!; try done.
  apply (wf_node_cell _ _ _ _ Hw Hp). by rewrite Hb.
Qed.
Lemma live_reg_cell st ow g R :
  wf st ow → registry_at st g = Some R →
  ∃ b, st_regs st !! g = Some b ∧ rc_val b = Some R ∧ 0 < rc_strong b.
Proof.
  intros Hw (b & Hp & Hb)%registry_at_Some. exists b. split_and!; try done.
  apply (wf_reg_cell _ _ _ _ Hw Hp). by rewrite Hb.
Qed.

Lemma rc_clone_wf st ow p d :
  wf st ow → node st p = Some d →
  ∃ st', rc_clone p st = Ok st' ∧ wf st' (NodeStrong p :: ow) ∧ same_views st st'.
Proof.
  intros Hw Hd. destruct (live_cell _ _ _ _ Hw Hd) as (b & Hp & Hb & Hs).
  unfold rc_clone. rewrite Hp; simpl. rewrite decide_False by lia.
  eexists. split_and!; [done|by apply wf_bump_strong|by eapply same_views_set_node].
Qed.

Lemma rc_new_weak_wf st ow p :
  wf st ow → is_Some (st_nodes st !! p) →
  ∃ st', rc_new_weak p st = Ok st' ∧ wf st' (NodeWeak p :: ow) ∧ same_views st st'.
Proof.
  intros Hw [b Hp]. unfold rc_new_weak. rewrite Hp; simpl.
  eexists. split_and!; [done|by apply wf_bump_weak|by eapply same_views_set_node].
Qed.

(** [RelWeak::upgrade] succeeds exactly on live nodes. *)
Lemma rc_upgrade_live st ow p d :
  wf st ow → node st p = Some d →
  ∃ st', rc_upgrade p st = Ok (Some p, st') ∧ rc_clone p st = Ok st' ∧
    wf st' (NodeStrong p :: ow) ∧ same_views st st'.
Proof.
  intros Hw Hd. destruct (live_cell _ _ _ _ Hw Hd) as (b & Hp & Hb & Hs).
  unfold rc_upgrade, rc_clone. rewrite Hp; simpl. rewrite !decide_False by lia.
  eexists. split_and!; [done|done|by apply wf_bump_strong|by eapply same_views_set_node].
Qed.
Lemma rc_upgrade_dead st ow p :
  wf st ow → is_Some (st_nodes st !! p) → node st p = None →
  rc_upgrade p st = Ok (None, st).
Proof.
  intros Hw [b Hp] Hn. unfold rc_upgrade. rewrite Hp; simpl.
  rewrite decide_True; [done|].
  destruct (wf_node_cell _ _ _ _ Hw Hp) as [_ Hv].
  unfold node in Hn. rewrite Hp in Hn; simpl in Hn. rewrite Hn in Hv.
  destruct (rc_strong b); [done|]. destruct Hv as [_ Hv]. destruct Hv; [lia|done].
Qed.

Lemma reg_clone_wf st ow g R :
  wf st ow → registry_at st g = Some R →
  ∃ st', reg_clone g st = Ok st' ∧ wf st' (RegStrong g :: ow) ∧ same_views st st'.
Proof.
  intros Hw Hd. destruct (live_reg_cell _ _ _ _ Hw Hd) as (b & Hp & Hb & Hs).
  unfold reg_clone. rewrite Hp; simpl. rewrite decide_False by lia.
  eexists. split_and!; [done|by apply wf_bump_reg_strong|by eapply same_views_set_reg].
Qed.

Lemma reg_new_weak_wf st ow g :
  wf st ow → is_Some (st_regs st !! g) →
  ∃ st', reg_new_weak g st = Ok st' ∧ wf st' (RegWeak g :: ow) ∧ same_views st st'.
Proof.
  intros Hw [b Hp]. unfold reg_new_weak. rewrite Hp; simpl.
  eexists. split_and!; [done|by apply wf_bump_reg_weak|by eapply same_views_set_reg].
Qed.

Lemma reg_upgrade_live st ow g R :
  wf st ow → registry_at st g = Some R →
  ∃ st', reg_upgrade g st = Ok (Some g, st') ∧ reg_clone g st = Ok st' ∧
    wf st' (RegStrong g :: ow) ∧ same_views st st'.
Proof.
  intros Hw Hd. destruct (live_reg_cell _ _ _ _ Hw Hd) as (b & Hp & Hb & Hs).
  unfold reg_upgrade, reg_clone. rewrite Hp; simpl. rewrite !decide_False by lia.
  eexists. split_and!; [done|done|by apply wf_bump_reg_strong|by eapply same_views_set_reg].
Qed.
Lemma reg_upgrade_dead st ow g :
  wf st ow → is_Some (st_regs st !! g) → registry_at st g = None →
  reg_upgrade g st = Ok (None, st).
Proof.
  intros Hw [b Hp] Hn. unfold reg_upgrade. rewrite Hp; simpl.
  rewrite decide_True; [done|].
  destruct (wf_reg_cell _ _ _ _ Hw Hp) as [_ Hv].
  unfold registry_at in Hn. rewrite Hp in Hn; simpl in Hn. rewrite Hn in Hv.
  destruct (rc_strong b); [done|]. destruct Hv as [_ Hv]. destruct Hv; [lia|done].
Qed.

Lemma reg_alloc_wf `{Allocator} st ow R :
  wf st (registry_refs R ++ ow) → registry_ok R →
  ∃ g st', reg_alloc R st = (g, st') ∧ wf st' (RegStrong g :: ow) ∧
    registry_at st g = None ∧ st_regs st !! g = None ∧
    (∀ p, node st' p = node st p) ∧
    (∀ h, registry_at st' h = if decide (h = g) then Some R else registry_at st h).
Proof.
  intros Hw HR. unfold reg_alloc. set (g := alloc_addr (dom (st_regs st))).
  assert (st_regs st !! g = None) as Hg.
  { apply not_elem_of_dom. apply alloc_addr_fresh. }
  eexists g, _. split_and!; [done|..]; try done.
  - split.
    + eapply wf_counts_alloc_reg; [done|apply Hw|]. balance.
    + apply wf_cells_set_reg; [|apply Hw]. split; simpl; [lia|]. split; [lia|eauto].
    + apply Hw.
    + intros h R'. rewrite registry_at_set_reg. case_decide; [naive_solver|apply Hw].
    + apply Hw.
  - unfold registry_at. by rewrite Hg.
  - intros h. by rewrite registry_at_set_reg.
Qed.

Lemma put_node_wf st ow ow' p d d' :
  wf st ow → node st p = Some d →
  (∀ r, occ r ow + occ r (inner_refs d) = occ r ow' + occ r (inner_refs d')) →
  wf_graph (λ q, if decide (q = p) then Some d' else node st q) →
  ∃ st', put_node p d' st = Ok st' ∧ wf st' ow' ∧
    (∀ q, node st' q = if decide (q = p) then Some d' else node st q) ∧
    (∀ g, registry_at st' g = registry_at st g) ∧
    (∀ q, count st' (NodeStrong q) = count st (NodeStrong q)) ∧
    (∀ w, sum_list_with w (internal st') + sum_list_with w (inner_refs d) =
          sum_list_with w (internal st) + sum_list_with w (inner_refs d')).
Proof.
  intros Hw Hd Hr Hg. destruct (live_cell _ _ _ _ Hw Hd) as (b & Hp & Hb & Hs).
  unfold put_node. rewrite Hp; simpl. eexists. split; [done|].
  assert (∀ q, node (set_node p (mkRc (rc_strong b) (rc_weak b) (Some d')) st) q =
               if decide (q = p) then Some d' else node st q) as Hn.
  { intros q. by rewrite node_set_node. }
  split_and!; try done.
  - split.
    + eapply wf_counts_set_node; [done|apply Hw|]. intros r. specialize (Hr r). revert r Hr.
      unfold node_cell_refs; simpl. rewrite Hb. balance.
    + apply wf_cells_set_node; [|apply Hw].
      destruct (wf_node_cell _ _ _ _ Hw Hp) as [? _]. split; simpl; [done|]. split; eauto.
    + eapply wf_graph_ext; [|exact Hg]. done.
    + apply Hw.
    + apply Hw.
  - intros q. simpl. rewrite lookup_insert. case_decide; subst; simpl; [|done].
    by rewrite Hp.
  - intros w.
    pose proof (internal_set_node w st p b (mkRc (rc_strong b) (rc_weak b) (Some d')) Hp) as Hi.
    unfold node_cell_refs in Hi; simpl in Hi. rewrite Hb in Hi; simpl in Hi. lia.
Qed.

Lemma put_registry_wf st ow ow' g R R' :
  wf st ow → registry_at st g = Some R → registry_ok R' →
  (∀ r, occ r ow + occ r (registry_refs R) = occ r ow' + occ r (registry_refs R')) →
  ∃ st', put_registry g R' st = Ok st' ∧ wf st' ow' ∧
    (∀ q, node st' q = node st q) ∧
    (∀ h, registry_at st' h = if decide (h = g) then Some R' else registry_at st h) ∧
    (∀ q, count st' (NodeStrong q) = count st (NodeStrong q)) ∧
    (∀ w, sum_list_with w (internal st') + sum_list_with w (registry_refs R) =
          sum_list_with w (internal st) + sum_list_with w (registry_refs R')).
Proof.
  intros Hw HR HR' Hr. destruct (live_reg_cell _ _ _ _ Hw HR) as (b & Hp & Hb & Hs).
  unfold put_registry. rewrite Hp; simpl. eexists. split; [done|].
  split_and!; try done.
  - split.
    + eapply wf_counts_set_reg; [done|apply Hw|]. intros r. specialize (Hr r). revert r Hr.
      unfold reg_cell_refs; simpl. rewrite Hb. balance.
    + apply wf_cells_set_reg; [|apply Hw].
      destruct (wf_reg_cell _ _ _ _ Hw Hp) as [? _]. split; simpl; [done|]. split; eauto.
    + apply Hw.
    + intros h R0. rewrite registry_at_set_reg. case_decide; [naive_solver|apply Hw].
    + apply Hw.
  - intros h. by rewrite registry_at_set_reg.
  - intros w.
    pose proof (internal_set_reg w st g b (mkRc (rc_strong b) (rc_weak b) (Some R')) Hp) as Hi.
    unfold reg_cell_refs in Hi; simpl in Hi. rewrite Hb in Hi; simpl in Hi. lia.
Qed.

(** ** None of these operations looks at a [RefCell] flag *)

Ltac frame_cell :=
  intros; unfold framed, framed_step, rc_clone, rc_new_weak, rc_upgrade, reg_clone, reg_new_weak, reg_upgrade,
    put_node, put_registry; simpl;
  match goal with |- context [deref ?o] => destruct o as [[? ? ?]|] end; simpl;
  repeat case_decide; done.

Lemma rc_clone_framed m p st : framed_step m (rc_clone p) st.
Proof. frame_cell. Qed.
Lemma rc_new_weak_framed m p st : framed_step m (rc_new_weak p) st.
Proof. frame_cell. Qed.
Lemma rc_upgrade_framed m p st : framed m (rc_upgrade p) st.
Proof. frame_cell. Qed.
Lemma reg_new_weak_framed m g st : framed_step m (reg_new_weak g) st.
Proof. frame_cell. Qed.
Lemma reg_upgrade_framed m g st : framed m (reg_upgrade g) st.
Proof. frame_cell. Qed.
Lemma put_node_framed m p d st : framed_step m (put_node p d) st.
Proof. frame_cell. Qed.
Lemma put_registry_framed m g R st : framed_step m (put_registry g R) st.
Proof. frame_cell. Qed.
End rc.
