(* ===== verification/Registry.v ===== *)
(** * [registry.rs]: the maps of a registry

    The operations of [Registry] that only touch its two maps.  Those that
    upgrade weak references (and so create and drop temporaries) are in
    [RegistryOps]. *)

From S2P Require Import Prelude Slotmap Store StoreFacts Rc.

Section registry.
Context {N E : Type} {S : SlotMapSig}.
Implicit Types (R : Registry) (p q : addr) (k id : NodeId) (st : store N E).

Definition Registry_new : Registry := mkRegistry sm_with_key ∅.

Definition Registry_from_slotmap (nodes : SlotMap addr) : Registry :=
  mkRegistry nodes
    (foldl (λ m kp, <[kp.2 := kp.1]> m) ∅ (sm_iter nodes)).

Definition Registry_get_id R p : option NodeId := reg_ptr_to_id R !! p.

Definition Registry_contains R p : bool :=
  match Registry_get_id R p with Some _ => true | None => false end.

Definition Registry_add_node R p st : result (NodeId * Registry * store N E) :=
  match Registry_get_id R p with
  | Some existing_id => Ok (existing_id, R, st)
  | None =>
      st' ← rc_new_weak p st;  (* node.downgrade() *)
      let ins := sm_insert p (reg_nodes R) in
      Ok (ins.1, mkRegistry ins.2 (<[p := ins.1]> (reg_ptr_to_id R)), st')
  end.

Definition Registry_get_id_or_insert R p st : result (NodeId * Registry * store N E) :=
  match Registry_get_id R p with
  | Some id => Ok (id, R, st)
  | None => Registry_add_node R p st
  end.

Definition Registry_len R : nat := sm_len (reg_nodes R).
Definition Registry_is_empty R : bool := bool_decide (Registry_len R = 0).

(** Also returns the removed weak reference, which the caller drops. *)
Definition Registry_remove R id : option addr * Registry :=
  let rem := sm_remove id (reg_nodes R) in
  match rem.1 with
  | Some weak_ref => (Some weak_ref, mkRegistry rem.2 (delete weak_ref (reg_ptr_to_id R)))
  | None => (None, mkRegistry rem.2 (reg_ptr_to_id R))
  end.

Definition Registry_as_slotmap R : SlotMap addr := reg_nodes R.

(** [FromIterator<&RelRc>] *)
Definition Registry_from_iter (l : list addr) st : result (Registry * store N E) :=
  foldM (λ Rs p, r ← Registry_add_node Rs.1 p Rs.2; Ok (r.1.2, r.2)) (Registry_new, st) l.

(** ** Facts *)
Context `{!SlotMapLaws S}.

Lemma Registry_new_ok : registry_ok Registry_new.
Proof.
  intros k p. simpl. rewrite sm_get_with_key, lookup_empty. done.
Qed.
Lemma Registry_new_refs : registry_refs Registry_new = [].
Proof.
  unfold registry_refs; simpl. rewrite sm_iter_empty; [done|].
  intros k. apply sm_get_with_key.
Qed.

Lemma foldl_insert_lookup (l : list (NodeId * addr)) (m : gmap addr NodeId) p :
  NoDup l.*2 →
  foldl (λ m kp, <[kp.2 := kp.1]> m) m l !! p =
    match list_find (λ kp, kp.2 = p) l with
    | Some (_, kp) => Some kp.1
    | None => m !! p
    end.
Proof.
  revert m. induction l as [|[k q] l IH]; intros m; csimpl; [done|].
  intros [Hq Hl]%NoDup_cons. rewrite IH by done. case_decide as Hqp; simplify_eq/=.
  - destruct (list_find _ l) as [[i [k' q']]|] eqn:Hf; simpl.
    + apply list_find_Some in Hf as (Hi & ? & _); simplify_eq/=.
      destruct Hq. apply list_elem_of_fmap. exists (k', p). split; [done|].
      by eapply list_elem_of_lookup_2.
    + by rewrite lookup_insert_eq.
  - destruct (list_find _ l) as [[i kp]|]; simpl; [done|].
    by rewrite lookup_insert_ne.
Qed.

(** A registry rebuilt from a slot map of distinct nodes is consistent. *)
Lemma Registry_from_slotmap_ok nodes :
  NoDup (sm_iter nodes).*2 → registry_ok (Registry_from_slotmap nodes).
Proof.
  intros Hnd k p. simpl. rewrite foldl_insert_lookup, lookup_empty by done.
  rewrite <-sm_iter_get. split.
  - intros Hin. destruct (list_find _ (sm_iter nodes)) as [[i [k' p']]|] eqn:Hf.
    + apply list_find_Some in Hf as (Hi & ? & _); simplify_eq/=.
      apply list_elem_of_lookup in Hin as [j Hj].
      assert (i = j) as ->; [|by simplify_eq].
      eapply NoDup_lookup; [exact Hnd| |].
      * rewrite list_lookup_fmap, Hi. done.
      * rewrite list_lookup_fmap, Hj. done.
    + apply list_find_None in Hf. rewrite Forall_forall in Hf.
      by specialize (Hf _ Hin).
  - destruct (list_find _ (sm_iter nodes)) as [[i [k' p']]|] eqn:Hf; [|done].
    intros [= <-]. apply list_find_Some in Hf as (Hi & ? & _); simplify_eq/=.
    by eapply list_elem_of_lookup_2.
Qed.

Lemma Registry_add_fresh_ok R p :
  registry_ok R → Registry_get_id R p = None →
  registry_ok (mkRegistry (sm_insert p (reg_nodes R)).2
                          (<[p := (sm_insert p (reg_nodes R)).1]> (reg_ptr_to_id R))).
Proof.
  intros HR Hp k q. unfold Registry_get_id in Hp. simpl.
  pose proof (sm_insert_fresh p (reg_nodes R)) as Hf.
  rewrite sm_insert_get, lookup_insert.
  pose proof (HR k q) as Hkq. repeat case_decide; naive_solver congruence.
Qed.

Lemma Registry_add_fresh_refs R p (m : gmap addr NodeId) :
  registry_refs (mkRegistry (sm_insert p (reg_nodes R)).2 m) ≡ₚ NodeWeak p :: registry_refs R.
Proof. unfold registry_refs; simpl. by rewrite sm_iter_insert. Qed.

Lemma Registry_remove_ok R id : registry_ok R → registry_ok (Registry_remove R id).2.
Proof.
  intros HR k q. unfold Registry_remove. rewrite sm_remove_result.
  destruct (sm_get id (reg_nodes R)) as [w|] eqn:Hid; simpl; rewrite sm_remove_get.
  - rewrite lookup_delete. pose proof Hid as Hw%HR.
    pose proof (HR k q). repeat case_decide; naive_solver congruence.
  - pose proof (HR k q). case_decide; naive_solver congruence.
Qed.

Lemma Registry_remove_result R id :
  (Registry_remove R id).1 = sm_get id (reg_nodes R).
Proof. unfold Registry_remove. rewrite sm_remove_result. by destruct (sm_get _ _). Qed.

Lemma Registry_remove_get R id k :
  sm_get k (reg_nodes (Registry_remove R id).2) =
    if decide (k = id) then None else sm_get k (reg_nodes R).
Proof. unfold Registry_remove. destruct (sm_remove id _).1; simpl; apply sm_remove_get. Qed.

Lemma Registry_remove_refs R id p :
  sm_get id (reg_nodes R) = Some p →
  registry_refs R ≡ₚ NodeWeak p :: registry_refs (Registry_remove R id).2.
Proof.
  intros Hid. unfold Registry_remove. rewrite sm_remove_result, Hid. simpl.
  unfold registry_refs; simpl. by rewrite (sm_iter_remove id p).
Qed.

(** An id stands for one address and an address has one id. *)
Lemma registry_ok_get_id R p id :
  registry_ok R → Registry_get_id R p = Some id ↔ sm_get id (reg_nodes R) = Some p.
Proof. intros HR. by rewrite (HR id p). Qed.

Lemma Registry_add_node_spec st ow R p d :
  wf st (registry_refs R ++ ow) → registry_ok R → node st p = Some d →
  ∃ id R' st', Registry_add_node R p st = Ok (id, R', st') ∧
    wf st' (registry_refs R' ++ ow) ∧ registry_ok R' ∧ same_views st st' ∧
    Registry_get_id R' p = Some id ∧
    (∀ q, q ≠ p → Registry_get_id R' q = Registry_get_id R q) ∧
    (∀ k, sm_get k (reg_nodes R') =
          if decide (k = id) then Some p else sm_get k (reg_nodes R)) ∧
    (is_Some (Registry_get_id R p) → R' = R ∧ st' = st).
Proof.
  intros Hw HR Hp. unfold Registry_add_node.
  destruct (Registry_get_id R p) as [id|] eqn:Hid.
  - exists id, R, st. split_and!; try done. intros k. case_decide; [|done]. subst.
    by apply registry_ok_get_id.
  - destruct (rc_new_weak_wf st _ p Hw) as (st' & -> & Hw' & Hv).
    { apply node_Some in Hp as (b & -> & _). done. }
    simpl. eexists _, _, st'. split_and!; try done.
    + rewrite Registry_add_fresh_refs. done.
    + by apply Registry_add_fresh_ok.
    + unfold Registry_get_id; simpl. apply lookup_insert_eq.
    + intros q Hq. unfold Registry_get_id; simpl. by rewrite lookup_insert_ne.
    + intros k. simpl. apply sm_insert_get.
Qed.
End registry.
