(* ===== verification/Drop.v ===== *)
(** * Dropping references

    [impl Drop for RelRc] of [node.rs] and the drop glue around it: the field
    [Rc] after the body of [drop], the fields of an [InnerData] when its last
    strong reference goes, the entries of a [Registry] likewise.  The nested
    calls are run by a stack of pending drops, innermost first, which is the
    order in which Rust runs them. *)

From S2P Require Import Prelude Slotmap Store RefCell StoreFacts Rc Registry.

(** A pending drop. [DRc] is the [Rc] field of a [RelRc] whose own [drop] has
    already run. *)
Inductive dropping :=
  | DRelRc (p : addr)
  | DRc (p : addr)
  | DWeak (p : addr)
  | DRegRc (g : addr)
  | DRegWeak (g : addr).

#[export] Instance dropping_eq_dec : EqDecision dropping.
Proof. solve_decision. Defined.

Definition drop_of (r : ref) : dropping :=
  match r with
  | NodeStrong p => DRelRc p
  | NodeWeak p => DWeak p
  | RegStrong g => DRegRc g
  | RegWeak g => DRegWeak g
  end.

Definition dropping_ref (i : dropping) : ref :=
  match i with
  | DRelRc p | DRc p => NodeStrong p
  | DWeak p => NodeWeak p
  | DRegRc g => RegStrong g
  | DRegWeak g => RegWeak g
  end.

(** Weights under which every step of the machine makes progress. *)
Definition drop_weight (i : dropping) : nat := match i with DRelRc _ => 3 | _ => 1 end.
Definition ref_weight (r : ref) : nat := drop_weight (drop_of r).

Section drop.
Context {N E : Type} {S : SlotMapSig}.
Implicit Types (st : store N E) (p q g : addr) (d : InnerData N E) (R : Registry).
Implicit Types (ow : list ref) (stack : list dropping).

Definition clear_registry d : InnerData N E :=
  mkInnerData (nd_value d) (nd_incoming d) (nd_outgoing d) None.

(** [registry.borrow().get_id(self)] *)
Definition registered_id g p st : result (option NodeId) :=
  read_borrow (RegistryCell g) (λ s, R ← deref (registry_at s g); Ok (Registry_get_id R p)) st.

(** [registry.borrow_mut().remove(id)]: the weak reference that leaves the slot map
    is for the caller to drop. *)
Definition remove_id g id st : result (option addr * store N E) :=
  with_borrow_mut (RegistryCell g)
    (λ s, R ← deref (registry_at s g);
          let rem := Registry_remove R id in
          s' ← put_registry g rem.2 s;
          Ok (rem.1, s')) st.

(** The part of [drop] after [register.take()] gave [weak].  Returns what goes
    out of scope: the weak reference that left the slot map, the upgraded
    reference and [weak] itself. *)
Definition RelRc_unregister p (weak : addr) st : result (list dropping * store N E) :=
  up ← reg_upgrade weak st;
  match up.1 with
  | None => Ok ([DRegWeak weak], up.2)
  | Some g =>
      o ← registered_id g p up.2;
      match o with
      | None => Ok ([DRegRc g; DRegWeak weak], up.2)
      | Some id =>
          rem ← remove_id g id up.2;
          Ok ((DWeak <$> option_list rem.1) ++ [DRegRc g; DRegWeak weak], rem.2)
      end
  end.

(** The body of [<RelRc as Drop>::drop]; returns the locals that are dropped
    before it returns.  The guard [register] is one of them; it goes last, but none
    of the others needs its cell, and here it goes first. *)
Definition RelRc_drop p st : result (list dropping * store N E) :=
  b ← deref (st_nodes st !! p);
  if decide (1 < rc_strong b) then Ok ([], st) else
  with_borrow_mut (RegisterCell p)
    (λ s, d ← deref (node s p);
          match nd_registry d with
          | None => Ok ([], s)
          | Some weak =>
              s1 ← put_node p (clear_registry d) s;  (* register.take() *)
              RelRc_unregister p weak s1
          end) st.

(** Drop of an [Rc<InnerData>]: at zero the fields of the value go, then the
    weak reference the strong ones held together. *)
Definition drop_rc p st : result (list dropping * store N E) :=
  b ← deref (st_nodes st !! p);
  match rc_strong b with
  | 0 => Err Dangling
  | 1 =>
      d ← deref (rc_val b);
      Ok ((drop_of <$> inner_refs d) ++ [DWeak p], set_node p (mkRc 0 (rc_weak b) None) st)
  | Datatypes.S s => Ok ([], set_node p (mkRc s (rc_weak b) (rc_val b)) st)
  end.

Definition drop_weak p st : result (list dropping * store N E) :=
  b ← deref (st_nodes st !! p);
  match rc_weak b with
  | 0 => Err Dangling
  | 1 => Ok ([], free_node p st)
  | Datatypes.S w => Ok ([], set_node p (mkRc (rc_strong b) w (rc_val b)) st)
  end.

Definition drop_reg_rc g st : result (list dropping * store N E) :=
  b ← deref (st_regs st !! g);
  match rc_strong b with
  | 0 => Err Dangling
  | 1 =>
      R ← deref (rc_val b);
      Ok ((drop_of <$> registry_refs R) ++ [DRegWeak g], set_reg g (mkRc 0 (rc_weak b) None) st)
  | Datatypes.S s => Ok ([], set_reg g (mkRc s (rc_weak b) (rc_val b)) st)
  end.

Definition drop_reg_weak g st : result (list dropping * store N E) :=
  b ← deref (st_regs st !! g);
  match rc_weak b with
  | 0 => Err Dangling
  | 1 => Ok ([], free_reg g st)
  | Datatypes.S w => Ok ([], set_reg g (mkRc (rc_strong b) w (rc_val b)) st)
  end.

(** One drop.  After the body of [RelRc::drop] its locals go and then the
    field; when there are no locals the field goes at once. *)
Definition drop_step (i : dropping) st : result (list dropping * store N E) :=
  match i with
  | DRelRc p =>
      r ← RelRc_drop p st;
      match r.1 with
      | [] => drop_rc p r.2
      | locals => Ok (locals ++ [DRc p], r.2)
      end
  | DRc p => drop_rc p st
  | DWeak p => drop_weak p st
  | DRegRc g => drop_reg_rc g st
  | DRegWeak g => drop_reg_weak g st
  end.

Fixpoint drop_loop (fuel : nat) stack st : result (store N E) :=
  match stack with
  | [] => Ok st
  | i :: stack' =>
      match fuel with
      | 0 => Err OutOfFuel
      | Datatypes.S fuel' =>
          r ← drop_step i st;
          drop_loop fuel' (r.1 ++ stack') r.2
      end
  end.

(** Every step uses up weight, so the total weight is enough fuel. *)
Definition total_weight stack st : nat :=
  sum_list_with drop_weight stack + sum_list_with ref_weight (internal st).

Definition drop_all stack st : result (store N E) :=
  drop_loop (total_weight stack st) stack st.

(** Drop of one [RelRc], and of anything that owns references. *)
Definition drop_relrc p st : result (store N E) := drop_all [DRelRc p] st.
Definition drop_refs (l : list ref) st : result (store N E) := drop_all (drop_of <$> l) st.
End drop.
