(* ===== verification/DropFacts.v ===== *)
(** * Dropping is safe, terminates and removes exactly the garbage *)

From S2P Require Import Prelude Slotmap Store RefCell StoreFacts Rc Registry Drop.

Section drop_facts.
Context {N E : Type} {S : SlotMapSig} {SLaws : SlotMapLaws S}.
Implicit Types (st : store N E) (p q g : addr) (d : InnerData N E) (R : Registry).
Implicit Types (ow : list ref) (stack : list dropping).

Notation wsum := (sum_list_with ref_weight).
Notation dsum := (sum_list_with drop_weight).

Lemma dropping_ref_drop_of (l : list ref) : dropping_ref <$> (drop_of <$> l) = l.
Proof. induction l as [|[] l IH]; csimpl; congruence. Qed.
Lemma dsum_drop_of (l : list ref) : dsum (drop_of <$> l) = wsum l.
Proof. induction l as [|r l IH]; csimpl; [done|]. by rewrite IH. Qed.
Lemma drop_refs_nil st : drop_refs [] st = Ok st.
Proof. unfold drop_refs, drop_all. by destruct (total_weight _ _). Qed.

Lemma DRc_drop_of q (l : list ref) : DRc q ∉ drop_of <$> l.
Proof. rewrite list_elem_of_fmap. by intros ([] & ? & _). Qed.

(** ** The primitive drops *)

Lemma drop_weak_wf st ow p :
  wf st (NodeWeak p :: ow) →
  ∃ st', drop_weak p st = Ok ([], st') ∧ wf st' ow ∧ same_views st st' ∧
    (∀ q, count st' (NodeStrong q) = count st (NodeStrong q)) ∧
    wsum (internal st') = wsum (internal st).
Proof.
  intros Hw. pose proof (wf_owned_count st _ (NodeWeak p) Hw ltac:(left)) as Hc.
  pose proof (wf_st_counts _ _ Hw (NodeStrong p)) as Hcs.
  pose proof (wf_st_counts _ _ Hw (NodeWeak p)) as Hcw.
  rewrite occ_cons, decide_True in Hcw by done.
  simpl in Hc, Hcs, Hcw. destruct (st_nodes st !! p) as [b|] eqn:Hp; simpl in *; [|lia].
  destruct (wf_node_cell _ _ _ _ Hw Hp) as [Hb1 Hb2].
  unfold drop_weak. rewrite Hp; simpl.
  destruct (rc_weak b) as [|[|w]] eqn:Hwk; [lia|..].
  - assert (rc_val b = None) as Hv.
    { destruct (rc_val b) as [d|] eqn:Hv; [|done]. exfalso.
      assert (0 < occ (NodeWeak p) (internal st)); [|lia].
      apply occ_elem_of, elem_of_internal. left. exists p, d.
      split; [|by left]. apply node_Some. eauto. }
    assert (rc_strong b = 0) as Hs.
    { destruct (rc_strong b); [done|]. rewrite Hv in Hb2.
      destruct Hb2 as [_ Hb2]. destruct Hb2; [lia|done]. }
    assert (same_views st (free_node p st)) as Hsv.
    { split; [|done]. intros q. rewrite node_free_node. case_decide; [|done]. subst. unfold node. by rewrite Hp. }
    eexists. split; [done|]. split_and!; [|done|..].
    + eapply wf_same_views; [done|done|done| |].
      * eapply wf_counts_free_node; [done|apply Hw|]. unfold node_cell_refs. rewrite Hv. balance.
      * apply wf_cells_free_node, Hw.
    + intros q. simpl. rewrite lookup_delete. case_decide; [|done].
      subst. by rewrite Hp.
    + pose proof (internal_free_node ref_weight st p b Hp) as Hi.
      unfold node_cell_refs in Hi. rewrite Hv in Hi. simpl in Hi. lia.
  - eexists. split; [done|].
    assert (same_views st (set_node p (mkRc (rc_strong b) (Datatypes.S w) (rc_val b)) st)) as Hv
      by (by eapply same_views_set_node).
    split_and!; [|done|..].
    + eapply wf_same_views; [done|done|done| |].
      * eapply wf_counts_set_node; [done|apply Hw|]. balance.
      * apply wf_cells_set_node; [|apply Hw]. split; simpl; [lia|done].
    + intros q. simpl. rewrite lookup_insert. case_decide; [|done].
      subst. by rewrite Hp.
    + pose proof (internal_set_node ref_weight st p b
        (mkRc (rc_strong b) (Datatypes.S w) (rc_val b)) Hp) as Hi.
      unfold node_cell_refs in Hi; simpl in Hi. lia.
Qed.

Lemma drop_reg_weak_wf st ow g :
  wf st (RegWeak g :: ow) →
  ∃ st', drop_reg_weak g st = Ok ([], st') ∧ wf st' ow ∧ same_views st st' ∧
    (∀ q, count st' (NodeStrong q) = count st (NodeStrong q)) ∧
    wsum (internal st') = wsum (internal st).
Proof.
  intros Hw. pose proof (wf_owned_count st _ (RegWeak g) Hw ltac:(left)) as Hc.
  pose proof (wf_st_counts _ _ Hw (RegWeak g)) as Hcw.
  rewrite occ_cons, decide_True in Hcw by done.
  simpl in Hc, Hcw. destruct (st_regs st !! g) as [b|] eqn:Hp; simpl in *; [|lia].
  destruct (wf_reg_cell _ _ _ _ Hw Hp) as [Hb1 Hb2].
  unfold drop_reg_weak. rewrite Hp; simpl.
  destruct (rc_weak b) as [|[|w]] eqn:Hwk; [lia|..].
  - assert (rc_val b = None) as Hv.
    { destruct (rc_val b) as [R|] eqn:Hv; [|done]. exfalso.
      assert (0 < occ (RegWeak g) (internal st)); [|lia].
      apply occ_elem_of, elem_of_internal. right. exists g, R.
      split; [|by left]. apply registry_at_Some. eauto. }
    assert (rc_strong b = 0) as Hs.
    { destruct (rc_strong b); [done|]. rewrite Hv in Hb2.
      destruct Hb2 as [_ Hb2]. destruct Hb2; [lia|done]. }
    assert (same_views st (free_reg g st)) as Hsv.
    { split; [done|]. intros q. rewrite registry_at_free_reg. case_decide; [|done].
      subst. unfold registry_at. by rewrite Hp. }
    eexists. split; [done|]. split_and!; [|done|done|].
    + eapply wf_same_views; [done|done|done| |].
      * eapply wf_counts_free_reg; [done|apply Hw|].
        unfold reg_cell_refs. rewrite Hv. balance.
      * apply wf_cells_free_reg, Hw.
    + pose proof (internal_free_reg ref_weight st g b Hp) as Hi.
      unfold reg_cell_refs in Hi. rewrite Hv in Hi. simpl in Hi. lia.
  - eexists. split; [done|].
    assert (same_views st (set_reg g (mkRc (rc_strong b) (Datatypes.S w) (rc_val b)) st)) as Hv
      by (by eapply same_views_set_reg).
    split_and!; [|done|done|].
    + eapply wf_same_views; [done|done|done| |].
      * eapply wf_counts_set_reg; [done|apply Hw|]. balance.
      * apply wf_cells_set_reg; [|apply Hw]. split; simpl; [lia|done].
    + pose proof (internal_set_reg ref_weight st g b
        (mkRc (rc_strong b) (Datatypes.S w) (rc_val b)) Hp) as Hi.
      unfold reg_cell_refs in Hi; simpl in Hi. lia.
Qed.

Lemma drop_rc_wf st ow p :
  wf st (NodeStrong p :: ow) →
  (1 < count st (NodeStrong p) ∧ ∃ st', drop_rc p st = Ok ([], st') ∧
     wf st' ow ∧ same_views st st' ∧
     (∀ q, q ≠ p → count st' (NodeStrong q) = count st (NodeStrong q)) ∧
     wsum (internal st') = wsum (internal st)) ∨
  (count st (NodeStrong p) = 1 ∧ ∃ d st', node st p = Some d ∧
     drop_rc p st = Ok ((drop_of <$> inner_refs d) ++ [DWeak p], st') ∧
     wf st' (inner_refs d ++ NodeWeak p :: ow) ∧
     (∀ q, node st' q = if decide (q = p) then None else node st q) ∧
     (∀ g, registry_at st' g = registry_at st g) ∧
     (∀ q, q ≠ p → count st' (NodeStrong q) = count st (NodeStrong q)) ∧
     wsum (internal st') + wsum (inner_refs d) + 1 = wsum (internal st)).
Proof.
  intros Hw. pose proof (wf_owned_count st _ (NodeStrong p) Hw ltac:(left)) as Hc.
  destruct (count_strong_live _ _ _ Hw Hc) as (b & d & Hp & Hb & Hd).
  simpl in Hc |- *. rewrite Hp in Hc |- *; simpl in Hc |- *.
  destruct (wf_node_cell _ _ _ _ Hw Hp) as [Hb1 Hb2].
  unfold drop_rc. rewrite Hp; simpl.
  destruct (rc_strong b) as [|[|s]] eqn:Hs; [lia|right|left].
  - split; [done|]. exists d, (set_node p (mkRc 0 (rc_weak b) None) st).
    rewrite Hb. split_and!; try done.
    + split.
      * eapply wf_counts_set_node; [done|apply Hw|].
        unfold node_cell_refs; simpl. rewrite Hb. balance.
      * apply wf_cells_set_node; [|apply Hw]. split; simpl; [done|].
        split; [by intros []|lia].
      * eapply wf_graph_shrink; [|apply Hw]. intros q dq. rewrite node_set_node.
        case_decide; [done|]. eauto.
      * apply Hw.
      * apply Hw.
    + intros q. by rewrite node_set_node.
    + intros q Hq. simpl. by rewrite lookup_insert_ne.
    + pose proof (internal_set_node ref_weight st p b (mkRc 0 (rc_weak b) None) Hp) as Hi.
      unfold node_cell_refs in Hi; simpl in Hi. rewrite Hb in Hi. simpl in Hi.
      change (ref_weight (NodeWeak p)) with 1 in Hi. lia.
  - split; [lia|].
    assert (same_views st (set_node p (mkRc (Datatypes.S s) (rc_weak b) (rc_val b)) st)) as Hv
      by (by eapply same_views_set_node).
    eexists. split_and!; [done| |done|..].
    + eapply wf_same_views; [done|done|done| |].
      * eapply wf_counts_set_node; [done|apply Hw|]. balance.
      * apply wf_cells_set_node; [|apply Hw]. split; simpl; [done|].
        rewrite Hb. split; [lia|eauto].
    + intros q Hq. simpl. by rewrite lookup_insert_ne.
    + pose proof (internal_set_node ref_weight st p b
        (mkRc (Datatypes.S s) (rc_weak b) (rc_val b)) Hp) as Hi.
      unfold node_cell_refs in Hi; simpl in Hi. lia.
Qed.

Lemma drop_reg_rc_wf st ow g :
  wf st (RegStrong g :: ow) →
  (1 < count st (RegStrong g) ∧ ∃ st', drop_reg_rc g st = Ok ([], st') ∧
     wf st' ow ∧ same_views st st' ∧
     (∀ q, count st' (NodeStrong q) = count st (NodeStrong q)) ∧
     wsum (internal st') = wsum (internal st)) ∨
  (count st (RegStrong g) = 1 ∧ ∃ R st', registry_at st g = Some R ∧
     drop_reg_rc g st = Ok ((drop_of <$> registry_refs R) ++ [DRegWeak g], st') ∧
     wf st' (registry_refs R ++ RegWeak g :: ow) ∧
     (∀ q, node st' q = node st q) ∧
     (∀ h, registry_at st' h = if decide (h = g) then None else registry_at st h) ∧
     (∀ q, count st' (NodeStrong q) = count st (NodeStrong q)) ∧
     wsum (internal st') + wsum (registry_refs R) + 1 = wsum (internal st)).
Proof.
  intros Hw. pose proof (wf_owned_count st _ (RegStrong g) Hw ltac:(left)) as Hc.
  destruct (count_reg_strong_live _ _ _ Hw Hc) as (b & R & Hp & Hb & Hd).
  simpl in Hc |- *. rewrite Hp in Hc |- *; simpl in Hc |- *.
  destruct (wf_reg_cell _ _ _ _ Hw Hp) as [Hb1 Hb2].
  unfold drop_reg_rc. rewrite Hp; simpl.
  destruct (rc_strong b) as [|[|s]] eqn:Hs; [lia|right|left].
  - split; [done|]. exists R, (set_reg g (mkRc 0 (rc_weak b) None) st).
    rewrite Hb. split_and!; try done.
    + split.
      * eapply wf_counts_set_reg; [done|apply Hw|].
        unfold reg_cell_refs; simpl. rewrite Hb. balance.
      * apply wf_cells_set_reg; [|apply Hw]. split; simpl; [done|].
        split; [by intros []|lia].
      * apply Hw.
      * intros h R'. rewrite registry_at_set_reg. case_decide; [done|apply Hw].
      * apply Hw.
    + intros q. by rewrite registry_at_set_reg.
    + pose proof (internal_set_reg ref_weight st g b (mkRc 0 (rc_weak b) None) Hp) as Hi.
      unfold reg_cell_refs in Hi; simpl in Hi. rewrite Hb in Hi. simpl in Hi.
      change (ref_weight (RegWeak g)) with 1 in Hi. lia.
  - split; [lia|].
    assert (same_views st (set_reg g (mkRc (Datatypes.S s) (rc_weak b) (rc_val b)) st)) as Hv
      by (by eapply same_views_set_reg).
    eexists. split_and!; [done| |done|done|].
    + eapply wf_same_views; [done|done|done| |].
      * eapply wf_counts_set_reg; [done|apply Hw|]. balance.
      * apply wf_cells_set_reg; [|apply Hw]. split; simpl; [done|].
        rewrite Hb. split; [lia|eauto].
    + pose proof (internal_set_reg ref_weight st g b
        (mkRc (Datatypes.S s) (rc_weak b) (rc_val b)) Hp) as Hi.
      unfold reg_cell_refs in Hi; simpl in Hi. lia.
Qed.

(** ** The body of [RelRc::drop] *)

(** What unregistering does to the registry of a node that goes. *)
Definition unregister p R : Registry :=
  match Registry_get_id R p with
  | Some id => (Registry_remove R id).2
  | None => R
  end.

Lemma unregister_ok p R : registry_ok R → registry_ok (unregister p R).
Proof.
  intros HR. unfold unregister. destruct (Registry_get_id R p); [|done].
  by apply Registry_remove_ok.
Qed.
Lemma unregister_get p R k :
  registry_ok R →
  sm_get k (reg_nodes (unregister p R)) =
    if decide (sm_get k (reg_nodes R) = Some p) then None else sm_get k (reg_nodes R).
Proof.
  intros HR. unfold unregister. destruct (Registry_get_id R p) as [id|] eqn:Hid.
  - rewrite Registry_remove_get. apply registry_ok_get_id in Hid; [|done].
    repeat case_decide; subst; try done.
    apply HR in Hid. apply (registry_ok_get_id R p k HR) in H0.
    unfold Registry_get_id in H0. congruence.
  - case_decide as Hk; [|done]. apply registry_ok_get_id in Hk; [|done]. congruence.
Qed.
Lemma unregister_get_id p R q :
  registry_ok R →
  Registry_get_id (unregister p R) q = if decide (q = p) then None else Registry_get_id R q.
Proof.
  intros HR. unfold unregister. destruct (Registry_get_id R p) as [id|] eqn:Hid.
  - unfold Registry_remove. rewrite sm_remove_result.
    apply registry_ok_get_id in Hid as Hg; [|done]. rewrite Hg. simpl.
    unfold Registry_get_id; simpl. rewrite lookup_delete. repeat case_decide; congruence.
  - case_decide; congruence.
Qed.

(** Taking a strong reference changes neither what is held inside the store nor
    the counts of nodes. *)
Lemma reg_clone_internal st st' g :
  reg_clone g st = Ok st' →
  wsum (internal st') = wsum (internal st) ∧
  ∀ q, count st' (NodeStrong q) = count st (NodeStrong q).
Proof.
  unfold reg_clone. intros Hcl. destruct (st_regs st !! g) as [b|] eqn:Hg; simpl in Hcl; [|done].
  case_decide; [done|]. injection Hcl as <-. split; [|done].
  pose proof (internal_set_reg ref_weight st g b
    (mkRc (Datatypes.S (rc_strong b)) (rc_weak b) (rc_val b)) Hg) as Hi.
  unfold reg_cell_refs in Hi; simpl in Hi. lia.
Qed.

(** The borrows of [drop] succeed in an idle store. *)
Lemma registered_id_borrowed g p m st :
  m !! RegistryCell g = None →
  registered_id g p (set_borrows m st) = (R ← deref (registry_at st g); Ok (Registry_get_id R p)).
Proof. intros Hm. unfold registered_id, read_borrow, RefCell_borrow, borrow_flag. simpl. by rewrite Hm. Qed.
Lemma remove_id_borrowed g id m st :
  m !! RegistryCell g = None →
  remove_id g id (set_borrows m st) =
    (R ← deref (registry_at st g);
     let rem := Registry_remove R id in
     s' ← put_registry g rem.2 st; Ok (rem.1, set_borrows m s')).
Proof.
  intros Hm. unfold remove_id, with_borrow_mut, RefCell_borrow_mut, borrow_flag. simpl. rewrite Hm. simpl.
  change (registry_at (set_flag _ _ _) g) with (registry_at st g).
  destruct (registry_at st g) as [R|]; [|done]. simpl. unfold set_flag. rewrite set_borrows_twice.
  rewrite put_registry_framed. destruct (put_registry g _ st) as [s|]; [|done]. simpl.
  by rewrite (RefMut_drop_last _ _ m).
Qed.

Lemma registered_id_idle g p st :
  st_borrows st = ∅ → registered_id g p st = (R ← deref (registry_at st g); Ok (Registry_get_id R p)).
Proof. intros Hb. rewrite <-(set_borrows_self st ∅ Hb) at 1. by apply registered_id_borrowed. Qed.
Lemma remove_id_idle g id st :
  st_borrows st = ∅ →
  remove_id g id st =
    (R ← deref (registry_at st g);
     let rem := Registry_remove R id in
     s' ← put_registry g rem.2 st; Ok (rem.1, s')).
Proof.
  intros Hb. rewrite <-(set_borrows_self st ∅ Hb) at 1. rewrite remove_id_borrowed by done.
  destruct (registry_at st g) as [R|]; [|done]. simpl. destruct (put_registry g _ st) as [s|] eqn:Hs; [|done]. simpl.
  rewrite set_borrows_self; [done|]. rewrite <-Hb. exact (framed_step_borrows _ _ _ (put_registry_framed _ _ _ _) Hs).
Qed.

Lemma RelRc_unregister_framed m p weak st :
  (∀ g, m !! RegistryCell g = None) → st_borrows st = ∅ → framed m (RelRc_unregister p weak) st.
Proof.
  intros Hm Hb. unfold framed, RelRc_unregister. rewrite reg_upgrade_framed.
  destruct (reg_upgrade weak st) as [[[g|] s]|] eqn:Hs; [|done..]. simpl.
  pose proof (framed_borrows _ _ _ (reg_upgrade_framed _ _ _) Hs) as Hbs. simpl in Hbs. rewrite Hb in Hbs.
  rewrite registered_id_borrowed, registered_id_idle by done.
  destruct (registry_at s g) as [R|] eqn:HR; [|done]. simpl.
  destruct (Registry_get_id R p) as [id|]; [|done]. rewrite remove_id_borrowed, remove_id_idle by done.
  rewrite HR. simpl.   by destruct (put_registry g _ s) as [s'|].
Qed.

Lemma RelRc_drop_idle p st :
  st_borrows st = ∅ →
  RelRc_drop p st =
    (b ← deref (st_nodes st !! p);
     if decide (1 < rc_strong b) then Ok ([], st) else
     d ← deref (rc_val b);
     match nd_registry d with
     | None => Ok ([], st)
     | Some weak => st1 ← put_node p (clear_registry d) st; RelRc_unregister p weak st1
     end).
Proof.
  intros Hb. unfold RelRc_drop. destruct (st_nodes st !! p) as [b|] eqn:Hp; [|done]. simpl.
  case_decide; [done|].
  assert (∀ m, (∀ g, m !! RegistryCell g = None) → framed m (λ s, d ← deref (node s p);
      match nd_registry d with
      | None => Ok ([], s)
      | Some weak => s1 ← put_node p (clear_registry d) s; RelRc_unregister p weak s1
      end) st) as Hfr.
  { intros m Hm. apply framed_read; [done|]. intros d _. destruct (nd_registry d) as [weak|]; [|done].
    apply framed_bind_step; [apply put_node_framed|]. intros s Hs. apply RelRc_unregister_framed; [done|].
    rewrite <-Hb. exact (framed_step_borrows _ _ _ (put_node_framed _ _ _ _) Hs). }
  rewrite with_borrow_mut_idle; [|done|by apply Hfr..].
  unfold node. by rewrite Hp.
Qed.

Lemma RelRc_unregister_live st ow p g R :
  wf st (RegWeak g :: ow) → registry_at st g = Some R →
  ∃ locals st', RelRc_unregister p g st = Ok (locals, st') ∧
    locals ≠ [] ∧ (∀ q, DRc q ∉ locals) ∧
    wf st' ((dropping_ref <$> locals) ++ ow) ∧ (∀ q, node st' q = node st q) ∧
    (∀ h, registry_at st' h = if decide (h = g) then Some (unregister p R) else registry_at st h) ∧
    (∀ q, count st' (NodeStrong q) = count st (NodeStrong q)) ∧
    wsum (internal st') + dsum locals = wsum (internal st) + 2.
Proof.
  intros Hw HR. unfold RelRc_unregister.
  destruct (reg_upgrade_live st _ g R Hw HR) as (st1 & -> & Hcl & Hw1 & [Hn1 Hr1]). simpl.
  rewrite registered_id_idle by apply Hw1.
  rewrite Hr1, HR. simpl. destruct (reg_clone_internal _ _ _ Hcl) as [Hi1 Hc1].
  unfold unregister. destruct (Registry_get_id R p) as [id|] eqn:Hid.
  - pose proof (wf_st_regs _ _ Hw g R HR) as HRok.
    apply registry_ok_get_id in Hid; [|done]. rewrite remove_id_idle by apply Hw1. rewrite Hr1, HR. simpl.
    destruct (put_registry_wf st1 _ (NodeWeak p :: RegStrong g :: RegWeak g :: ow)
      g R (Registry_remove R id).2 Hw1) as (st2 & -> & Hw2 & Hn2 & Hr2 & Hc2 & Hi2).
    { by rewrite Hr1. }
    { by apply Registry_remove_ok. }
    { intros r. pose proof (occ_perm r _ _ (Registry_remove_refs R id p Hid)). occ_norm. lia. }
    simpl. rewrite Registry_remove_result, Hid. simpl. eexists _, st2. split_and!; try done.
    + intros q. set_solver.
    + intros q. by rewrite Hn2, Hn1.
    + intros h. rewrite Hr2, Hr1. done.
    + intros q. exact (eq_trans (Hc2 q) (Hc1 q)).
    + specialize (Hi2 ref_weight).
      pose proof (sum_list_with_perm ref_weight _ _ (Registry_remove_refs R id p Hid)) as Hperm.
      simpl in *. change (ref_weight (NodeWeak p)) with 1 in Hperm. lia.
  - eexists _, st1. split_and!; try done.
    + intros q. set_solver.
    + intros h. rewrite Hr1. case_decide; [|done]. by subst.
    + simpl. lia.
Qed.

Lemma RelRc_unregister_dead st ow p g :
  wf st (RegWeak g :: ow) → registry_at st g = None →
  RelRc_unregister p g st = Ok ([DRegWeak g], st).
Proof.
  intros Hw HR. unfold RelRc_unregister. rewrite (reg_upgrade_dead st _ g Hw); [done| |done].
  apply count_reg_weak_alloc. eapply wf_owned_count; [done|left].
Qed.

Lemma RelRc_drop_wf st ow p :
  wf st (NodeStrong p :: ow) →
  (RelRc_drop p st = Ok ([], st) ∧
     (1 < count st (NodeStrong p) ∨ ∃ d, node st p = Some d ∧ nd_registry d = None)) ∨
  (count st (NodeStrong p) = 1 ∧ ∃ d g locals st',
     node st p = Some d ∧ nd_registry d = Some g ∧
     RelRc_drop p st = Ok (locals, st') ∧ locals ≠ [] ∧ (∀ q, DRc q ∉ locals) ∧
     wf st' ((dropping_ref <$> locals) ++ NodeStrong p :: ow) ∧
     (∀ q, node st' q = if decide (q = p) then Some (clear_registry d) else node st q) ∧
     (∀ h, registry_at st' h =
           if decide (h = g) then unregister p <$> registry_at st g else registry_at st h) ∧
     (∀ q, count st' (NodeStrong q) = count st (NodeStrong q)) ∧
     wsum (internal st') + dsum locals < wsum (internal st) + 2).
Proof.
  intros Hw. pose proof (wf_owned_count st _ (NodeStrong p) Hw ltac:(left)) as Hc.
  destruct (count_strong_live _ _ _ Hw Hc) as (b & d & Hp & Hb & Hd).
  rewrite RelRc_drop_idle by apply Hw. simpl in Hc |- *. rewrite Hp in Hc |- *; simpl in Hc |- *.
  case_decide as Hs; [left; auto|]. rewrite Hb; simpl.
  destruct (nd_registry d) as [g|] eqn:Hg; [right|by left; eauto].
  split; [lia|].
  destruct (put_node_wf st _ (RegWeak g :: NodeStrong p :: ow) p d (clear_registry d) Hw Hd)
    as (st1 & -> & Hw1 & Hn1 & Hr1 & Hc1 & Hi1).
  { unfold inner_refs; simpl. rewrite Hg. balance. }
  { eapply wf_graph_shrink; [|apply Hw]. intros q dq.
    case_decide; [|by eauto]. intros [= <-]. subst. eauto. }
  simpl. specialize (Hi1 ref_weight).
  assert (wsum (inner_refs d) = wsum (inner_refs (clear_registry d)) + 1) as Hwd.
  { unfold inner_refs; simpl. rewrite Hg, !sum_list_with_app. simpl. lia. }
  destruct (registry_at st g) as [R|] eqn:HR; simpl; pose proof HR as HR1; rewrite <-Hr1 in HR1.
  - destruct (RelRc_unregister_live st1 _ p g R Hw1 HR1)
      as (locals & st' & -> & Hl & Hl' & Hw' & Hn & Hr & Hcs & Hi).
    exists d, g, locals, st'. split_and!; try done.
    + intros q. by rewrite Hn, Hn1.
    + intros h. rewrite Hr, Hr1. by case_decide; [rewrite HR|].
    + intros q. exact (eq_trans (Hcs q) (Hc1 q)).
    + lia.
  - rewrite (RelRc_unregister_dead st1 _ p g Hw1 HR1).
    eexists d, g, _, st1. split_and!; try done.
    + intros q. set_solver.
    + intros h. rewrite Hr1. case_decide; [|done]. subst. by rewrite HR.
    + simpl. lia.
Qed.

(** ** What a sequence of drops changes

    [drop_inv st0 st stack] relates the store [st0] before a sequence of drops
    to the store [st] in which the drops of [stack] are still pending.  A node
    with a pending [DRc] is doomed: it is held by that reference only. *)
Record drop_inv st0 st stack : Prop := {
  (** a node that is left is unchanged, unless it is doomed *)
  di_nodes q d : node st q = Some d → ∃ d0, node st0 q = Some d0 ∧
    (d = d0 ∨ d = clear_registry d0 ∧ DRc q ∈ stack);
  di_doomed q : DRc q ∈ stack → count st (NodeStrong q) = 1 ∧
    ∃ d, node st q = Some d ∧ nd_registry d = None;
  (** a registry that is left has lost entries of dead or doomed nodes only *)
  di_regs g R : registry_at st g = Some R → ∃ R0, registry_at st0 g = Some R0 ∧
    (∀ k q, sm_get k (reg_nodes R) = Some q → sm_get k (reg_nodes R0) = Some q) ∧
    (∀ k q, sm_get k (reg_nodes R0) = Some q →
       sm_get k (reg_nodes R) = Some q ∨ node st q = None ∨ DRc q ∈ stack);
  (** a node that is gone, or doomed, is no longer in the registry that
      tracked it *)
  di_freed q d0 g R : node st0 q = Some d0 → nd_registry d0 = Some g →
    node st q = None ∨ DRc q ∈ stack → registry_at st g = Some R →
    Registry_get_id R q = None;
  (** a registry has lost entries of nodes that it tracked only *)
  di_lost g R R0 k q : registry_at st g = Some R → registry_at st0 g = Some R0 →
    sm_get k (reg_nodes R0) = Some q → sm_get k (reg_nodes R) = None →
    ∃ d0, node st0 q = Some d0 ∧ nd_registry d0 = Some g;
}.

Lemma drop_inv_refl st stack : (∀ q, DRc q ∉ stack) →  drop_inv st st stack.
Proof.
  intros Hs. split.
  - eauto.
  - intros q Hq. by destruct (Hs q).
  - eauto 10.
  - intros q d0 g R Hq _ [?|Hd]; [congruence|]. by destruct (Hs q).
  - intros; simplify_eq.
Qed.

(** A step that shows the same nodes and registries. *)
Lemma drop_inv_same st0 st st' i locals stack :
  drop_inv st0 st (i :: stack) → same_views st st' →
  (∀ q, DRc q ∉ locals) → (∀ q, i ≠ DRc q) →
  (∀ q, DRc q ∈ stack → count st' (NodeStrong q) = count st (NodeStrong q)) →
  drop_inv st0 st' (locals ++ stack).
Proof.
  intros [Hn Hd Hr Hf Hlo] [Hvn Hvr] Hl Hi Hc.
  assert (∀ q, DRc q ∈ locals ++ stack ↔ DRc q ∈ i :: stack) as Hst.
  { intros q. rewrite elem_of_app, elem_of_cons. naive_solver. }
  split.
  - intros q d. rewrite Hvn. setoid_rewrite Hst. apply Hn.
  - intros q Hq. pose proof Hq as Hq'. apply Hst in Hq. destruct (Hd q Hq) as [Hc1 Hd1].
    rewrite Hvn, Hc; [done|]. apply elem_of_app in Hq' as [?|?]; [naive_solver|done].
  - intros g R. rewrite Hvr. intros (R0 & ? & ? & HR)%Hr. exists R0.
    split_and!; [done..|]. intros k q. rewrite Hvn, Hst. apply HR.
  - intros q d0 g R. rewrite Hvn, Hvr, Hst. apply Hf.
  - intros g R R0 k q. rewrite Hvr. apply Hlo.
Qed.

(** The registry [g] goes. *)
Lemma drop_inv_reg st0 st st' g i locals stack :
  drop_inv st0 st (i :: stack) →
  (∀ q, node st' q = node st q) →
  (∀ h, registry_at st' h = if decide (h = g) then None else registry_at st h) →
  (∀ q, count st' (NodeStrong q) = count st (NodeStrong q)) →
  (∀ q, DRc q ∉ locals) → (∀ q, i ≠ DRc q) →
  drop_inv st0 st' (locals ++ stack).
Proof.
  intros [Hn Hd Hr Hf Hlo] Hvn Hvr Hc Hl Hi.
  assert (∀ q, DRc q ∈ locals ++ stack ↔ DRc q ∈ i :: stack) as Hst.
  { intros q. rewrite elem_of_app, elem_of_cons. naive_solver. }
  split.
  - intros q d. rewrite Hvn. setoid_rewrite Hst. apply Hn.
  - intros q. rewrite Hst, Hvn, Hc. apply Hd.
  - intros h R. rewrite Hvr. case_decide; [done|].
    intros (R0 & ? & ? & HR)%Hr. exists R0.
    split_and!; [done..|]. intros k q. rewrite Hvn, Hst. apply HR.
  - intros q d0 h R. rewrite Hvn, Hvr, Hst. case_decide; [done|]. apply Hf.
  - intros h R R0 k q. rewrite Hvr. case_decide; [done|]. apply Hlo.
Qed.

(** The node [p], which no registry tracks any more, goes. *)
Lemma drop_inv_kill st0 st st' p d i locals stack :
  drop_inv st0 st (i :: stack) → node st p = Some d → nd_registry d = None →
  (∀ q, node st' q = if decide (q = p) then None else node st q) →
  (∀ g, registry_at st' g = registry_at st g) →
  (∀ q, q ≠ p → count st' (NodeStrong q) = count st (NodeStrong q)) →
  (∀ q, DRc q ∉ locals) → (∀ q, i = DRc q → q = p) → DRc p ∉ stack →
  drop_inv st0 st' (locals ++ stack).
Proof.
  intros [Hn Hd Hr Hf Hlo] Hp Hreg Hvn Hvr Hc Hl Hi Hps.
  assert (∀ q, DRc q ∈ locals ++ stack ↔ DRc q ∈ i :: stack ∧ q ≠ p) as Hst.
  { intros q. rewrite elem_of_app, elem_of_cons. naive_solver. }
  split.
  - intros q dq. rewrite Hvn. setoid_rewrite Hst. case_decide; [done|].
    intros (d0 & ? & [?|[??]])%Hn; eauto 10.
  - intros q [Hq Hne]%Hst. rewrite Hvn, Hc, decide_False by done. by apply Hd.
  - intros g R. rewrite Hvr. intros (R0 & ? & ? & HR)%Hr. exists R0.
    split_and!; [done..|]. intros k q Hk. rewrite Hvn, Hst.
    destruct (HR k q Hk) as [?|[?|?]]; case_decide; naive_solver.
  - intros q d0 g R Hq0 Hg. rewrite Hvn, Hvr, Hst.
    intros Hdead HR. eapply Hf; [done|done| |done].
    case_decide; subst; [|naive_solver]. right.
    destruct (Hn p d Hp) as (d1 & ? & [->|[_ ?]]); [congruence|done].
  - intros g R R0 k q. rewrite Hvr. apply Hlo.
Qed.

(** The body of [RelRc::drop] ran for the last reference to [p]. *)
Lemma drop_inv_doom st0 st st' p d g locals stack :
  drop_inv st0 st (DRelRc p :: stack) → (∀ g R, registry_at st g = Some R → registry_ok R) →
  node st p = Some d → nd_registry d = Some g → count st (NodeStrong p) = 1 →
  (∀ q, node st' q = if decide (q = p) then Some (clear_registry d) else node st q) →
  (∀ h, registry_at st' h =
     if decide (h = g) then unregister p <$> registry_at st g else registry_at st h) →
  (∀ q, count st' (NodeStrong q) = count st (NodeStrong q)) →
  (∀ q, DRc q ∉ locals) → DRc p ∉ stack →
  drop_inv st0 st' ((locals ++ [DRc p]) ++ stack).
Proof.
  intros [Hn Hd Hr Hf Hlo] Hok Hp Hg Hcp Hvn Hvr Hc Hl Hps.
  assert (∀ q, DRc q ∈ (locals ++ [DRc p]) ++ stack ↔ DRc q ∈ DRelRc p :: stack ∨ q = p) as Hst.
  { intros q. rewrite !elem_of_app, !elem_of_cons, elem_of_nil. naive_solver. }
  assert (node st0 p = Some d) as Hp0.
  { destruct (Hn p d Hp) as (d0 & ? & [->|[_ Hx]]); [done|]. set_solver. }
  split.
  - intros q dq. rewrite Hvn. setoid_rewrite Hst. case_decide; subst.
    + intros [= <-]. exists d. auto.
    + intros (d0 & ? & [?|[??]])%Hn; eauto 10.
  - intros q. rewrite Hst, Hvn, Hc. case_decide; subst.
    + intros _. split; [done|]. by eexists.
    + intros [Hq|?]; [by apply Hd|done].
  - intros h R. rewrite Hvr. case_decide as Hh; subst.
    + destruct (registry_at st g) as [R1|] eqn:HR1; simpl; [|done]. intros [= <-].
      destruct (Hr g R1 HR1) as (R0 & HR0 & Hsub & Hlost). exists R0. split; [done|].
      pose proof (unregister_get p R1) as Hu. split.
      * intros k q. rewrite Hu by eauto. case_decide; [done|]. apply Hsub.
      * intros k q Hk. rewrite Hu, Hst, Hvn by eauto.
        destruct (Hlost k q Hk) as [?|[?|?]]; repeat case_decide; naive_solver.
    + intros (R0 & ? & ? & HR)%Hr. exists R0. split_and!; [done..|].
      intros k q Hk. rewrite Hvn, Hst. destruct (HR k q Hk) as [?|[?|?]]; case_decide; naive_solver.
  - intros q d0 h R Hq0 Hh. rewrite Hvn, Hvr, Hst. intros Hdead.
    destruct (decide (h = g)) as [->|].
    + destruct (registry_at st g) as [R1|] eqn:HR1; simpl; [|done]. intros [= <-].
      rewrite unregister_get_id by eauto. destruct (decide (q = p)); [done|].
      apply (Hf q d0 g R1); naive_solver.
    + intros HR. destruct (decide (q = p)) as [->|]; [congruence|].
      apply (Hf q d0 h R); naive_solver.
  - intros h R R0 k q. rewrite Hvr. case_decide as Hh; subst; [|by apply Hlo].
    destruct (registry_at st g) as [R1|] eqn:HR1; simpl; [|done]. intros [= <-] HR0 Hk Hnone.
    rewrite unregister_get in Hnone by eauto. destruct (Hr g R1 HR1) as (R2 & HR2 & Hsub & _).
    case_decide as Hkp; [apply Hsub in Hkp; naive_solver|]. by apply (Hlo g R1 R0 k q).
Qed.
Lemma sole_not_doomed st p stack ext :
  wf st (NodeStrong p :: (dropping_ref <$> stack) ++ ext) →
  count st (NodeStrong p) = 1 → DRc p ∉ stack.
Proof.
  intros Hw Hc Hin. rewrite (wf_st_counts _ _ Hw) in Hc.
  rewrite occ_cons, decide_True, occ_app in Hc by done.
  assert (0 < occ (NodeStrong p) (dropping_ref <$> stack)); [|lia].
  apply occ_elem_of, list_elem_of_fmap. by exists (DRc p).
Qed.

Definition drop_progress st0 ext stack st stack' st' : Prop :=
  wf st' ((dropping_ref <$> stack') ++ ext) ∧ drop_inv st0 st' stack' ∧
  total_weight stack' st' < total_weight stack st.

(** Dropping the [Rc] field of a node that no registry tracks. *)
Lemma drop_rc_progress st0 st i p stack ext :
  wf st (NodeStrong p :: (dropping_ref <$> stack) ++ ext) →
  drop_inv st0 st (i :: stack) → (i = DRelRc p ∨ i = DRc p) →
  (1 < count st (NodeStrong p) ∨ ∃ d, node st p = Some d ∧ nd_registry d = None) →
  ∃ items st', drop_rc p st = Ok (items, st') ∧
    drop_progress st0 ext (i :: stack) st (items ++ stack) st'.
Proof.
  intros Hw Hinv Hi Hpre. unfold drop_progress, total_weight. simpl.
  assert (1 ≤ drop_weight i) as Hwi by (destruct i; simpl; lia).
  destruct (drop_rc_wf st _ p Hw) as
    [(Hc & st' & -> & Hw' & Hv & Hcs & Hsum)|
     (Hc & d & st' & Hd & -> & Hw' & Hvn & Hvr & Hcs & Hsum)].
  - eexists [], st'. split_and!; [done|done| |simpl; lia].
    destruct Hi as [->| ->].
    + eapply drop_inv_same; [done|done|set_solver|done|].
      intros q Hq. apply Hcs. intros ->.
      destruct (di_doomed _ _ _ Hinv p) as [? _]; [by right|lia].
    + destruct (di_doomed _ _ _ Hinv p) as [? _]; [by left|lia].
  - eexists _, st'. split; [done|]. split_and!.
    + rewrite !fmap_app, dropping_ref_drop_of. simpl. by rewrite <-!(assoc_L (++)).
    + destruct Hpre as [?|(d' & Hd' & Hreg)]; [lia|]. simplify_eq.
      eapply drop_inv_kill; try done.
      * intros q. rewrite elem_of_app, list_elem_of_singleton.
        intros [?%DRc_drop_of|?]; done.
      * intros q ->. by destruct Hi as [?|?]; simplify_eq.
      * by eapply sole_not_doomed.
    + rewrite !sum_list_with_app, dsum_drop_of. simpl. lia.
Qed.

Lemma drop_step_progress st0 st i stack ext :
  wf st ((dropping_ref <$> i :: stack) ++ ext) → drop_inv st0 st (i :: stack) →
  ∃ items st', drop_step i st = Ok (items, st') ∧
    drop_progress st0 ext (i :: stack) st (items ++ stack) st'.
Proof.
  intros Hw Hinv. destruct i as [p|p|p|g|g]; simpl in Hw |- *.
  - destruct (RelRc_drop_wf st _ p Hw) as
      [[-> Hpre]|(Hc & d & g & locals & st' & Hd & Hg & -> & Hne & Hl & Hw' & Hvn & Hvr & Hcs & Hsum)];
      simpl.
    { eapply drop_rc_progress; eauto. }
    exists (locals ++ [DRc p]), st'. split; [by destruct locals|]. split_and!.
    + rewrite !fmap_app. simpl. by rewrite <-!(assoc_L (++)).
    + eapply drop_inv_doom; try done; [apply Hw|by eapply sole_not_doomed].
    + unfold total_weight. rewrite !sum_list_with_app. simpl. lia.
  - eapply drop_rc_progress; eauto. right.
    destruct (di_doomed _ _ _ Hinv p) as [_ ?]; [by left|done].
  - destruct (drop_weak_wf st _ p Hw) as (st' & -> & Hw' & Hv & Hcs & Hsum).
    eexists [], st'. split; [done|]. split_and!; [done| |].
    + eapply drop_inv_same; [done|done|set_solver|done|done].
    + unfold total_weight. simpl. lia.
  - destruct (drop_reg_rc_wf st _ g Hw) as
      [(Hc & st' & -> & Hw' & Hv & Hcs & Hsum)|
       (Hc & R & st' & HR & -> & Hw' & Hvn & Hvr & Hcs & Hsum)].
    + eexists [], st'. split; [done|]. split_and!; [done| |].
      * eapply drop_inv_same; [done|done|set_solver|done|done].
      * unfold total_weight. simpl. lia.
    + eexists _, st'. split; [done|]. split_and!.
      * rewrite !fmap_app, dropping_ref_drop_of. simpl. by rewrite <-!(assoc_L (++)).
      * eapply drop_inv_reg; try done. intros q.
        rewrite elem_of_app, list_elem_of_singleton. intros [?%DRc_drop_of|?]; done.
      * unfold total_weight. rewrite !sum_list_with_app, dsum_drop_of. simpl. lia.
  - destruct (drop_reg_weak_wf st _ g Hw) as (st' & -> & Hw' & Hv & Hcs & Hsum).
    eexists [], st'. split; [done|]. split_and!; [done| |].
    + eapply drop_inv_same; [done|done|set_solver|done|done].
    + unfold total_weight. simpl. lia.
Qed.

Lemma drop_loop_spec st0 fuel stack st ext :
  wf st ((dropping_ref <$> stack) ++ ext) → drop_inv st0 st stack →
  total_weight stack st ≤ fuel →
  ∃ st', drop_loop fuel stack st = Ok st' ∧ wf st' ext ∧ drop_inv st0 st' [].
Proof.
  revert stack st. induction fuel as [|fuel IH]; intros [|i stack] st Hw Hinv Hf;
    try (by exists st).
  - exfalso. revert Hf. unfold total_weight. destruct i; simpl; lia.
  - simpl. destruct (drop_step_progress st0 st i stack ext Hw Hinv)
      as (items & st' & -> & Hw' & Hinv' & Hlt). simpl.
    apply IH; [done..|lia].
Qed.

(** Dropping references that are owned always succeeds, gives the owners that
    are left, and changes nothing that is still alive. *)
Lemma drop_refs_spec st l ext :
  wf st (l ++ ext) →
  ∃ st', drop_refs l st = Ok st' ∧ wf st' ext ∧ drop_inv st st' [].
Proof.
  intros Hw. unfold drop_refs, drop_all. apply drop_loop_spec.
  - by rewrite dropping_ref_drop_of.
  - apply drop_inv_refl. intros q. apply DRc_drop_of.
  - done.
Qed.

Lemma drop_relrc_spec st p ext :
  wf st (NodeStrong p :: ext) →
  ∃ st', drop_relrc p st = Ok st' ∧ wf st' ext ∧ drop_inv st st' [].
Proof. apply (drop_refs_spec st [NodeStrong p]). Qed.

(** ** Consequences *)

(** What survives a sequence of drops is unchanged. *)
Lemma dropped_node st st' q d : drop_inv st st' [] → node st' q = Some d → node st q = Some d.
Proof.
  intros Hinv Hq. destruct (di_nodes _ _ _ Hinv q d Hq) as (d0 & ? & [->|[_ Hx]]); [done|].
  by apply elem_of_nil in Hx.
Qed.

Lemma dropped_parent st st' p q : drop_inv st st' [] → parent_of st' p q → parent_of st p q.
Proof. intros Hinv (d & e & Hq%(dropped_node _ _ _ _ Hinv) & ? & ?). by exists d, e. Qed.

Lemma dropped_held st st' ext q :
  drop_inv st st' [] → held_by st' ext q → held_by st ext q.
Proof.
  intros Hinv (o & ? & Ho). exists o. split; [done|].
  eapply rtc_subrel; [|done]. intros x y. by apply dropped_parent.
Qed.

Lemma held_dropped st st' ext q :
  wf st' ext → drop_inv st st' [] → held_by st ext q → ∃ d, node st' q = Some d.
Proof.
  intros Hw Hinv (o & Ho & Hqo). destruct (owner_live _ _ _ Hw Ho) as [do Hdo].
  revert do Hdo. refine (rtc_ind_r (λ o, ∀ do, node st' o = Some do → _) q _ _ o Hqo); [by eauto|].
  intros y z _ (dz & e & Hz & He & <-) IH dz' Hz'.
  pose proof (dropped_node _ _ _ _ Hinv Hz'). simplify_eq.
  destruct (source_live _ _ _ _ _ Hw Hz' He) as [dy Hy]. by eapply IH.
Qed.

(** Exactly the nodes that some remaining owner holds survive, unchanged. *)
Lemma dropped_exact st st' ext q d :
  wf st' ext → drop_inv st st' [] →
  node st' q = Some d ↔ node st q = Some d ∧ held_by st ext q.
Proof.
  intros Hw' Hinv. split.
  - intros Hq. split; [exact (dropped_node _ _ _ _ Hinv Hq)|].
    apply (dropped_held _ _ _ _ Hinv). by eapply live_held.
  - intros [Hq Hh]. destruct (held_dropped _ _ _ _ Hw' Hinv Hh) as [d' Hd'].
    pose proof (dropped_node _ _ _ _ Hinv Hd'). by simplify_eq.
Qed.

(** Exactly the entries of surviving nodes, and of nodes that belong elsewhere,
    are left in a registry that survives. *)
Lemma dropped_entries st st' ext g R0 R k p :
  wf st' ext → drop_inv st st' [] → registry_at st g = Some R0 → registry_at st' g = Some R →
  sm_get k (reg_nodes R) = Some p ↔
    sm_get k (reg_nodes R0) = Some p ∧ (held_by st ext p ∨ (node st p ≫= nd_registry) ≠ Some g).
Proof.
  intros Hw' Hinv HR0 HR. destruct (di_regs _ _ _ Hinv g R HR) as (R1 & ? & Hsub & Hlost). simplify_eq.
  split.
  - intros Hk. split; [by apply Hsub|]. destruct (node st' p) as [d|] eqn:Hp.
    { left. by apply (dropped_exact _ _ _ _ _ Hw' Hinv) in Hp as [_ ?]. }
    right. intros (d & Hd & Hg)%bind_Some.
    pose proof (di_freed _ _ _ Hinv p d g R Hd Hg (or_introl Hp) HR) as Hf.
    apply (wf_st_regs _ _ Hw' g R HR) in Hk. unfold Registry_get_id in Hf. congruence.
  - intros [Hk Hor]. destruct (sm_get k (reg_nodes R)) as [q|] eqn:Hq; [apply Hsub in Hq; congruence|].
    destruct (di_lost _ _ _ Hinv g R R0 k p HR HR0 Hk Hq) as (d & Hd & Hg).
    destruct Hor as [Hh|Hne]; [|by rewrite Hd in Hne].
    destruct (held_dropped _ _ _ _ Hw' Hinv Hh) as [d' Hd'].
    by destruct (Hlost k p Hk) as [?|[?|?%elem_of_nil]]; simplify_eq.
Qed.

Lemma drop_refs_exact st st' l ext q d :
  wf st (l ++ ext) → drop_refs l st = Ok st' →
  node st' q = Some d ↔ node st q = Some d ∧ held_by st ext q.
Proof.
  intros Hw Hd. destruct (drop_refs_spec _ _ _ Hw) as (st1 & Hst1 & Hw' & Hinv).
  rewrite Hd in Hst1. injection Hst1 as <-. by apply dropped_exact.
Qed.

Lemma held_same_views st st' ow p : same_views st st' → held_by st ow p → held_by st' ow p.
Proof.
  intros [Hn _] (o & ? & Ho). exists o. split; [done|]. eapply rtc_subrel; [|done].
  intros x y (d & e & Hy & ?). exists d, e. by rewrite Hn.
Qed.

Lemma drop_inv_views st0 st1 st : same_views st0 st1 → drop_inv st1 st [] → drop_inv st0 st [].
Proof.
  intros [Hn HR] Hinv. split.
  - intros q d Hd. rewrite <-Hn. by apply (di_nodes _ _ _ Hinv).
  - by intros q ?%elem_of_nil.
  - intros g R Hg. rewrite <-HR. by apply (di_regs _ _ _ Hinv).
  - intros q d0 g R Hd0. rewrite <-Hn in Hd0. by apply (di_freed _ _ _ Hinv).
  - intros g R R0 k q Hg. rewrite <-HR. setoid_rewrite <-Hn. by apply (di_lost _ _ _ Hinv).
Qed.

(** Dropping a weak reference, or a strong reference to a node that is held
    otherwise, changes nothing that can be seen. *)
Definition quiet st ow (r : ref) : Prop :=
  match r with
  | NodeStrong p => held_by st ow p
  | NodeWeak _ | RegWeak _ => True
  | RegStrong _ => False
  end.

Lemma quiet_same_views st st' ow r : same_views st st' → quiet st ow r → quiet st' ow r.
Proof. destruct r; simpl; try done. apply held_same_views. Qed.

Lemma held_referrer st ow p :
  held_by st ow p → NodeStrong p ∈ ow ++ internal st.
Proof.
  intros (o & Ho & Hpo). apply elem_of_app. inversion Hpo as [|? y ? (d & e & Hy & He & <-)]; subst.
  - by left.
  - right. apply elem_of_internal. left. exists y, d. split; [done|]. right.
    apply elem_of_inner_refs. naive_solver.
Qed.

Lemma drop_step_quiet r st l ow :
  wf st (r :: l ++ ow) → quiet st ow r →
  ∃ st', drop_step (drop_of r) st = Ok ([], st') ∧ wf st' (l ++ ow) ∧ same_views st st'.
Proof.
  intros Hw Hq. destruct r as [p|p|g|g]; simpl in *; [| |done|].
  - assert (1 < count st (NodeStrong p)) as Hc.
    { rewrite (wf_st_counts _ _ Hw). rewrite occ_cons, decide_True, occ_app by done.
      apply held_referrer, occ_elem_of in Hq. rewrite occ_app in Hq. lia. }
    destruct (RelRc_drop_wf st _ p Hw) as [[-> _]|(? & _)]; [|lia]. simpl.
    destruct (drop_rc_wf st _ p Hw) as [(_ & st1 & -> & Hw1 & Hv1 & _)|(? & _)]; [|lia]. eauto.
  - destruct (drop_weak_wf st _ p Hw) as (st1 & -> & Hw1 & Hv1 & _). eauto.
  - destruct (drop_reg_weak_wf st _ g Hw) as (st1 & -> & Hw1 & Hv1 & _). eauto.
Qed.

Lemma drop_loop_quiet fuel l st ow :
  wf st (l ++ ow) → (∀ r, r ∈ l → quiet st ow r) → length l ≤ fuel →
  ∃ st', drop_loop fuel (drop_of <$> l) st = Ok st' ∧ wf st' ow ∧ same_views st st'.
Proof.
  revert fuel st. induction l as [|r l IH]; intros [|fuel] st Hw Hl Hf; simpl in Hf; try lia.
  1,2: by exists st.
  csimpl. destruct (drop_step_quiet r st l ow Hw) as (st1 & -> & Hw1 & Hv1); [apply Hl; left|].
  simpl. destruct (IH fuel st1) as (st2 & -> & ? & ?); [done| |lia|].
  { intros x Hx. eapply quiet_same_views; [done|]. apply Hl. by right. }
  exists st2. split_and!; [done..|]. by etrans.
Qed.

Lemma dsum_length (l : list dropping) : length l ≤ dsum l.
Proof. induction l as [|[] l IH]; simpl; lia. Qed.

Lemma drop_refs_quiet st l ow :
  wf st (l ++ ow) → (∀ r, r ∈ l → quiet st ow r) →
  ∃ st', drop_refs l st = Ok st' ∧ wf st' ow ∧ same_views st st'.
Proof.
  intros Hw Hl. apply drop_loop_quiet; [done..|].
  pose proof (dsum_length (drop_of <$> l)) as Hlen. rewrite length_fmap in Hlen.
  unfold total_weight. lia.
Qed.

Lemma drop_refs_weak st l ow :
  wf st (l ++ ow) → (∀ r, r ∈ l → (∃ p, r = NodeWeak p) ∨ (∃ g, r = RegWeak g)) →
  ∃ st', drop_refs l st = Ok st' ∧ wf st' ow ∧ same_views st st'.
Proof. intros Hw Hl. apply drop_refs_quiet; [done|]. by intros r [[p ->]|[g ->]]%Hl. Qed.

Lemma drop_refs_redundant st l ow :
  wf st (l ++ ow) → (∀ r, r ∈ l → ∃ p, r = NodeStrong p ∧ held_by st ow p) →
  ∃ st', drop_refs l st = Ok st' ∧ wf st' ow ∧ same_views st st'.
Proof. intros Hw Hl. apply drop_refs_quiet; [done|]. by intros r (p & -> & ?)%Hl. Qed.

(** A temporary strong reference leaves no trace at all. *)
Lemma clone_drop_id st st' p ow :
  wf st ow → rc_clone p st = Ok st' → drop_relrc p st' = Ok st.
Proof.
  unfold rc_clone. intros Hw. destruct (st_nodes st !! p) as [b|] eqn:Hp; simpl; [|done].
  case_decide as Hs; [done|]. intros [= <-].
  unfold drop_relrc, drop_all, total_weight. simpl.
  unfold RelRc_drop; simpl. rewrite lookup_insert_eq; simpl.
  rewrite decide_True by lia. simpl. unfold drop_rc; simpl.
  rewrite lookup_insert_eq; simpl. destruct (rc_strong b) as [|s] eqn:Hb; [done|]. simpl.
  unfold set_node; simpl. rewrite insert_insert_eq.
  rewrite <-Hb. replace (mkRc (rc_strong b) (rc_weak b) (rc_val b)) with b by (by destruct b).
  rewrite insert_id by done. by destruct st.
Qed.

(** ** Drops that do not look at a [RefCell] flag *)

Lemma drop_loop_nil fuel st : drop_loop fuel [] st = Ok st.
Proof. by destruct fuel. Qed.

Lemma drop_refs_weak_framed m (o : option addr) st :
  framed_step m (drop_refs (NodeWeak <$> option_list o)) st.
Proof.
  unfold framed_step. destruct o as [p|]; [|by rewrite !drop_refs_nil]. csimpl.
  unfold drop_refs, drop_all, total_weight. simpl. unfold drop_weak; simpl.
  destruct (st_nodes st !! p) as [b|]; [|done]. simpl.
  destruct (rc_weak b) as [|[|w]]; simpl; [done|by rewrite !drop_loop_nil..].
Qed.

Lemma drop_relrc_shared p b st :
  st_nodes st !! p = Some b → 1 < rc_strong b →
  drop_relrc p st = Ok (set_node p (mkRc (pred (rc_strong b)) (rc_weak b) (rc_val b)) st).
Proof.
  intros Hp Hs. unfold drop_relrc, drop_all, total_weight. simpl.
  unfold RelRc_drop. rewrite Hp; simpl. rewrite decide_True by done. simpl.
  unfold drop_rc. rewrite Hp; simpl. destruct (rc_strong b) as [|[|s]]; [lia..|]. simpl. done.
Qed.

(** A temporary that an upgrade makes. *)
Lemma upgraded_drop_framed m p st s :
  rc_upgrade p st = Ok (Some p, s) → framed_step m (drop_relrc p) s.
Proof.
  unfold rc_upgrade, framed_step. destruct (st_nodes st !! p) as [b|]; [|done]. simpl.
  case_decide; [done|]. intros [= <-].
  erewrite !drop_relrc_shared; [reflexivity|apply lookup_insert_eq|simpl; lia|apply lookup_insert_eq|simpl; lia].
Qed.
Lemma rc_upgrade_Some p q st s : rc_upgrade p st = Ok (Some q, s) → q = p.
Proof.
  unfold rc_upgrade. destruct (st_nodes st !! p) as [b|]; [|done]. simpl. case_decide; [done|]. by intros [= <- _].
Qed.
End drop_facts.
