(* ===== verification/RegistryOps.v ===== *)
(** * [registry.rs]: operations that resolve weak references, and registration

    While a registry is mutably borrowed its content is with the borrower; the
    operations below take the content they work on as an argument and return
    the new one. *)

From S2P Require Import Prelude Slotmap Store RefCell StoreFacts Rc Registry Drop DropFacts.

Section registry_ops.
Context {N E : Type} {S : SlotMapSig}.
Implicit Types (st : store N E) (p q g : addr) (R : Registry) (k id : NodeId).

(** [registry.borrow_mut()] for the duration of [f], which has the content. *)
Definition registry_update {B} g (f : Registry → store N E → result (B * Registry * store N E)) st :
    result (B * store N E) :=
  R ← deref (registry_at st g);
  st1 ← put_registry g Registry_new st;
  r ← f R st1;
  st' ← put_registry g r.1.2 r.2;
  Ok (r.1.1, st').
Definition with_registry_mut {B} g (f : Registry → store N E → result (B * Registry * store N E)) st :
    result (B * store N E) :=
  with_borrow_mut (RegistryCell g) (registry_update g f) st.

(** [registry.borrow()] for the duration of [f]. *)
Definition with_registry {B} g (f : Registry → store N E → result (B * store N E)) st :
    result (B * store N E) :=
  with_borrow (RegistryCell g) (λ s, R ← deref (registry_at s g); f R s) st.

(** The weak reference is cloned out of the slot map, upgraded and dropped. *)
Definition Registry_get R id st : result (option addr * store N E) :=
  match sm_get id (reg_nodes R) with
  | None => Ok (None, st)
  | Some weak_ref =>
      st1 ← rc_new_weak weak_ref st;
      up ← rc_upgrade weak_ref st1;
      st2 ← drop_refs [NodeWeak weak_ref] up.2;
      Ok (up.1, st2)
  end.

(** The node that [get] returns is a temporary. *)
Definition Registry_contains_id R id st : result (bool * store N E) :=
  r ← Registry_get R id st;
  match r.1 with
  | Some p => st' ← drop_relrc p r.2; Ok (true, st')
  | None => Ok (false, r.2)
  end.

(** The first loop of [free_node_ids]: [dead_ids] and [dead_ptrs] grow in
    step, here as one list of pairs. *)
Definition collect_dead (acc : list (NodeId * addr) * store N E) (kw : NodeId * addr) :
    result (list (NodeId * addr) * store N E) :=
  up ← rc_upgrade kw.2 acc.2;
  match up.1 with
  | Some p => st' ← drop_relrc p up.2; Ok (acc.1, st')
  | None => Ok (acc.1 ++ [kw], up.2)
  end.

(** The second loop: the weak reference that leaves the slot map is dropped. *)
Definition remove_slot (acc : SlotMap addr * store N E) id : result (SlotMap addr * store N E) :=
  let rem := sm_remove id acc.1 in
  st' ← drop_refs (NodeWeak <$> option_list rem.1) acc.2;
  Ok (rem.2, st').

Definition Registry_free_node_ids R st : result (nat * Registry * store N E) :=
  dead ← foldM collect_dead ([], st) (sm_iter (reg_nodes R));
  rem ← foldM remove_slot (reg_nodes R, dead.2) (dead.1).*1;
  let ptr_to_id := foldl (λ m p, delete p m) (reg_ptr_to_id R) (dead.1).*2 in
  Ok (sm_len rem.1, mkRegistry rem.1 ptr_to_id, rem.2).

(** [Registry::iter], consumed: the live nodes with their ids. *)
Definition Registry_iter R st : result (list (NodeId * addr) * store N E) :=
  foldM (λ acc kw,
      up ← rc_upgrade kw.2 acc.2;
      match up.1 with
      | Some p => Ok (acc.1 ++ [(kw.1, p)], up.2)
      | None => Ok (acc.1, up.2)
      end)
    ([], st) (sm_iter (reg_nodes R)).

(** [Registry::remove] with the drop of the removed weak reference. *)
Definition Registry_remove_drop R id st : result (unit * Registry * store N E) :=
  let rem := Registry_remove R id in
  st' ← drop_refs (NodeWeak <$> option_list rem.1) st;
  Ok (tt, rem.2, st').

(** The derived [Clone]: every weak reference is cloned. *)
Definition Registry_clone R st : result (Registry * store N E) :=
  st' ← foldM (λ s kw, rc_new_weak kw.2 s) st (sm_iter (reg_nodes R));
  Ok (R, st').

(** ** Under a borrow

    The operations do not borrow themselves, so a guard on a registry does not
    change what they do. *)

Lemma registry_update_framed {B} m g (f : Registry → store N E → result (B * Registry * store N E)) st :
  (∀ R s, framed m (f R) s) → framed m (registry_update g f) st.
Proof.
  intros Hf. apply framed_read; [done|]. intros R _. apply framed_bind_step; [apply put_registry_framed|].
  intros s _. apply (framed_bind m (f R) (λ r s, s' ← put_registry g r.2 s; Ok (r.1, s'))); [apply Hf|].
  intros r s' _. apply framed_bind_step; [apply put_registry_framed|done].
Qed.
Lemma with_registry_mut_idle {B} g (f : Registry → store N E → result (B * Registry * store N E)) st :
  st_borrows st = ∅ → (∀ m R s, framed m (f R) s) → with_registry_mut g f st = registry_update g f st.
Proof. intros Hb Hf. by apply with_borrow_mut_idle; [|apply registry_update_framed..]. Qed.
Lemma with_registry_idle {B} g (f : Registry → store N E → result (B * store N E)) st R :
  st_borrows st = ∅ → (∀ m, framed m (f R) st) → registry_at st g = Some R → with_registry g f st = f R st.
Proof.
  intros Hb Hf HR. unfold with_registry. rewrite with_borrow_idle; [by rewrite HR|done|].
  intros m. apply framed_read; [done|]. rewrite HR. by intros _ [= <-].
Qed.

Lemma foldM_framed {X A} m (f : X * store N E → A → result (X * store N E)) l x st :
  (∀ x s a, framed m (λ s, f (x, s) a) s) → framed m (λ s, foldM f (x, s) l) st.
Proof.
  intros Hf. revert x st. induction l as [|a l IH]; intros x st; [done|].
  unfold framed. simpl. rewrite (Hf x st a). destruct (f (x, st) a) as [[x' s]|]; [|done]. apply IH.
Qed.
Lemma foldM_framed_step {A} m (f : store N E → A → result (store N E)) l st :
  (∀ s a, framed_step m (λ s, f s a) s) → framed_step m (λ s, foldM f s l) st.
Proof.
  intros Hf. revert st. induction l as [|a l IH]; intros st; [done|].
  unfold framed_step. simpl. rewrite (Hf st a). destruct (f st a) as [s|]; [|done]. apply IH.
Qed.

Lemma Registry_add_node_framed m R p st : framed m (Registry_add_node R p) st.
Proof.
  unfold Registry_add_node. destruct (Registry_get_id R p); [done|].
  apply framed_bind_step; [apply rc_new_weak_framed|done].
Qed.
Lemma Registry_get_framed m R id st : framed m (Registry_get R id) st.
Proof.
  unfold Registry_get. destruct (sm_get id (reg_nodes R)) as [w|]; [|done].
  apply framed_bind_step; [apply rc_new_weak_framed|]. intros s _.
  apply (framed_bind m (rc_upgrade w) (λ o s, s' ← drop_refs [NodeWeak w] s; Ok (o, s'))); [apply rc_upgrade_framed|].
  intros o s' _. apply framed_bind_step; [apply (drop_refs_weak_framed m (Some w))|done].
Qed.
Lemma collect_dead_framed m acc kw st : framed m (λ s, collect_dead (acc, s) kw) st.
Proof.
  unfold framed, collect_dead. simpl. rewrite rc_upgrade_framed.
  destruct (rc_upgrade kw.2 st) as [[[p|] s]|] eqn:Hs; [|done..]. simpl.
  pose proof (rc_upgrade_Some _ _ _ _ Hs) as ->. rewrite (upgraded_drop_framed m _ _ _ Hs).
  by destruct (drop_relrc kw.2 s).
Qed.
Lemma remove_slot_framed m (sm : SlotMap addr) id st : framed m (λ s, remove_slot (sm, s) id) st.
Proof. unfold remove_slot. apply framed_bind_step; [apply drop_refs_weak_framed|done]. Qed.
Lemma Registry_free_node_ids_framed m R st : framed m (Registry_free_node_ids R) st.
Proof.
  unfold framed, Registry_free_node_ids.
  rewrite (foldM_framed m collect_dead) by (intros; apply collect_dead_framed).
  destruct (foldM collect_dead _ _) as [[dead s]|]; [|done]. simpl.
  rewrite (foldM_framed m remove_slot) by (intros; apply remove_slot_framed).
  by destruct (foldM remove_slot _ _).
Qed.
Lemma Registry_remove_drop_framed m R id st : framed m (Registry_remove_drop R id) st.
Proof. apply framed_bind_step; [apply drop_refs_weak_framed|done]. Qed.
Lemma Registry_clone_framed m R st : framed m (Registry_clone R) st.
Proof.
  apply framed_bind_step; [|done].
  apply (foldM_framed_step m (λ s kw, rc_new_weak kw.2 s)). intros s kw. apply rc_new_weak_framed.
Qed.

Lemma Registry_iter_framed m R st : framed m (Registry_iter R) st.
Proof.
  apply foldM_framed. intros l s kw.
  apply (framed_bind m (rc_upgrade kw.2) (λ o s, match o with
    | Some p => Ok (l ++ [(kw.1, p)], s) | None => Ok (l, s) end)); [apply rc_upgrade_framed|].
  by intros [p|] s' _.
Qed.

(** The node that [get] returns has another reference. *)
Lemma Registry_get_drop_framed m R id st p s :
  Registry_get R id st = Ok (Some p, s) → framed_step m (drop_relrc p) s.
Proof.
  unfold Registry_get. destruct (sm_get id (reg_nodes R)) as [w|]; [|done].
  unfold rc_new_weak, rc_upgrade. destruct (st_nodes st !! w) as [b|] eqn:Hw; [|done]. simpl.
  rewrite lookup_insert_eq. simpl. case_decide; simpl; [by destruct (drop_refs _ _)|].
  unfold drop_refs, drop_all, total_weight. simpl. unfold drop_weak. simpl. rewrite !lookup_insert_eq. simpl.
  destruct (rc_weak b) as [|n]; simpl; rewrite drop_loop_nil; simpl; intros [= <- <-]; unfold framed_step.
  - unfold drop_relrc, drop_all, total_weight. simpl. unfold RelRc_drop. simpl. by rewrite lookup_delete_eq.
  - erewrite !drop_relrc_shared; [reflexivity|apply lookup_insert_eq|simpl; lia|apply lookup_insert_eq|simpl; lia].
Qed.
Lemma Registry_contains_id_framed m R id st : framed m (Registry_contains_id R id) st.
Proof.
  unfold framed, Registry_contains_id. rewrite Registry_get_framed.
  destruct (Registry_get R id st) as [[[p|] s]|] eqn:Hs; [|done..]. simpl.
  rewrite (Registry_get_drop_framed m _ _ _ _ _ Hs). by destruct (drop_relrc p s).
Qed.
End registry_ops.

(** What [with_registry_mut] may run: code that does not borrow again. *)
Class BorrowFree {N E B : Type} {S : SlotMapSig}
    (f : Registry → store N E → result (B * Registry * store N E)) : Prop :=
  borrow_free m R st : framed m (f R) st.

#[export] Instance add_node_borrow_free {N E S} p :
  BorrowFree (N:=N) (E:=E) (S:=S) (λ R, Registry_add_node R p).
Proof. intros m R st. apply Registry_add_node_framed. Qed.
#[export] Instance free_node_ids_borrow_free {N E S} :
  BorrowFree (N:=N) (E:=E) (S:=S) Registry_free_node_ids.
Proof. intros m R st. apply Registry_free_node_ids_framed. Qed.
#[export] Instance remove_drop_borrow_free {N E S} id :
  BorrowFree (N:=N) (E:=E) (S:=S) (λ R, Registry_remove_drop R id).
Proof. intros m R st. apply Registry_remove_drop_framed. Qed.
