(* ===== verification/Edge.v ===== *)
(** * [edge.rs]: relationships between nodes

    Edges are owned by their target.  A [WeakEdge] names an edge by its target
    and its position among the target's incoming edges; an [Edge] keeps the
    target alive. *)

From S2P Require Import Prelude Slotmap Store StoreFacts Rc Registry Drop DropFacts.

Section edge.
Context {N E : Type} {S : SlotMapSig}.
Implicit Types (st : store N E) (p q : addr) (d : InnerData N E) (ow : list ref).

Definition InnerEdgeData_new (value : E) (source target : addr) : InnerEdgeData E :=
  mkInnerEdgeData value source target.
Definition InnerEdgeData_value (e : InnerEdgeData E) : E := ie_value e.
Definition InnerEdgeData_source (e : InnerEdgeData E) : addr := ie_source e.

(** The derived [Clone] of [InnerEdgeData]. *)
Definition InnerEdgeData_clone st (e : InnerEdgeData E) : result (store N E) :=
  st1 ← rc_clone (ie_source e) st;
  rc_new_weak (ie_target e) st1.

(** [WeakEdge::new]; the weak reference is moved in. *)
Definition WeakEdge_new (index : nat) (target : addr) : WeakEdge := mkWeakEdge index target.

(** Clones the weak reference to the target. *)
Definition InnerEdgeData_downgrade (e : InnerEdgeData E) (target_pos : nat) st :
    result (WeakEdge * store N E) :=
  st' ← rc_new_weak (ie_target e) st;
  Ok (WeakEdge_new target_pos (ie_target e), st').

Definition InnerEdgeData_target (e : InnerEdgeData E) st : result (addr * store N E) :=
  up ← rc_upgrade (ie_target e) st;
  t ← expect "target node is no longer alive" up.1;
  Ok (t, up.2).

Definition WeakEdge_ptr_eq (a b : WeakEdge) : bool :=
  bool_decide (we_index a = we_index b) && bool_decide (we_target a = we_target b).
Definition WeakEdge_target (e : WeakEdge) : addr := we_target e.

Definition Edge_target (e : Edge) : addr := ed_target e.
Definition Edge_into_target (e : Edge) : addr := ed_target e.

(** [<Edge as Deref>::deref] *)
Definition Edge_deref (e : Edge) st : result (InnerEdgeData E) :=
  d ← deref (node st (ed_target e));
  expect "called `Option::unwrap()` on a `None` value" (nd_incoming d !! ed_index e).

Definition WeakEdge_upgrade (e : WeakEdge) st : result (option Edge * store N E) :=
  up ← rc_upgrade (we_target e) st;
  Ok (option_map (mkEdge (we_index e)) up.1, up.2).

(** ** Facts *)

Lemma WeakEdge_ptr_eq_spec a b : WeakEdge_ptr_eq a b = true ↔ a = b.
Proof.
  unfold WeakEdge_ptr_eq. rewrite andb_true_iff, !bool_decide_eq_true.
  destruct a, b; naive_solver.
Qed.

Lemma WeakEdge_upgrade_live st ow e d :
  wf st ow → node st (we_target e) = Some d →
  ∃ st', WeakEdge_upgrade e st = Ok (Some (mkEdge (we_index e) (we_target e)), st') ∧
    wf st' (NodeStrong (we_target e) :: ow) ∧ same_views st st'.
Proof.
  intros Hw Hd. destruct (rc_upgrade_live _ _ _ _ Hw Hd) as (st' & Hup & _ & ? & ?).
  unfold WeakEdge_upgrade. rewrite Hup. eauto.
Qed.
Lemma WeakEdge_upgrade_dead st ow e :
  wf st ow → is_Some (st_nodes st !! we_target e) → node st (we_target e) = None →
  WeakEdge_upgrade e st = Ok (None, st).
Proof.
  intros Hw Ha Hn. unfold WeakEdge_upgrade. by rewrite (rc_upgrade_dead _ _ _ Hw Ha Hn).
Qed.

(** An outgoing edge whose target is alive is an incoming edge of the target. *)
Lemma outgoing_incoming st ow p d we dq :
  wf st ow → node st p = Some d → we ∈ nd_outgoing d → node st (we_target we) = Some dq →
  ∃ e, nd_incoming dq !! we_index we = Some e ∧ ie_source e = p ∧ ie_target e = we_target we.
Proof.
  intros Hw Hp Hwe Hq. destruct we as [i q]; simpl in *.
  pose proof (wf_link _ (wf_st_graph _ _ Hw) p d q dq i Hp Hq) as Hl.
  apply occ_elem_of in Hwe. rewrite Hl in Hwe. unfold link_count in Hwe.
  destruct (nd_incoming dq !! i) as [e|] eqn:He; [|lia]. case_decide; [|lia].
  exists e. split_and!; [done..|]. eapply (wf_target _ (wf_st_graph _ _ Hw)); [done|].
  by eapply list_elem_of_lookup_2.
Qed.

Lemma incoming_outgoing st ow q dq i e :
  wf st ow → node st q = Some dq → nd_incoming dq !! i = Some e →
  ∃ dp, node st (ie_source e) = Some dp ∧ mkWeakEdge i q ∈ nd_outgoing dp.
Proof.
  intros Hw Hq He. destruct (source_live _ _ _ _ e Hw Hq) as [dp Hp].
  { by eapply list_elem_of_lookup_2. }
  exists dp. split; [done|]. apply occ_elem_of.
  rewrite (wf_link _ (wf_st_graph _ _ Hw) _ dp q dq i Hp Hq).
  unfold link_count. rewrite He, decide_True by done. lia.
Qed.

(** The target of an edge found in a live node is that node, and can be
    upgraded. *)
Lemma InnerEdgeData_target_owner st ow q d e :
  wf st ow → node st q = Some d → e ∈ nd_incoming d →
  ∃ st', InnerEdgeData_target e st = Ok (q, st') ∧
    wf st' (NodeStrong q :: ow) ∧ same_views st st'.
Proof.
  intros Hw Hq He. pose proof (wf_target _ (wf_st_graph _ _ Hw) q d e Hq He) as <-.
  destruct (rc_upgrade_live _ _ _ _ Hw Hq) as (st' & Hup & _ & ? & ?).
  unfold InnerEdgeData_target. rewrite Hup. simpl. eauto.
Qed.
End edge.
