(* ===== verification/Node.v ===== *)
(** * [node.rs]: reference-counted pointers with relationships *)

From S2P Require Import Prelude Slotmap Store RefCell StoreFacts Rc Registry Drop DropFacts RegistryOps Edge.

Section node.
Context {N E : Type} {S : SlotMapSig} {A : Allocator}.
Implicit Types (st : store N E) (p q g : addr) (d : InnerData N E).

(** ** Construction *)

Definition InnerData_new (value : N) : InnerData N E := mkInnerData value [] [] None.
Definition InnerData_with_incoming (value : N) (incoming : list (InnerEdgeData E)) :
    InnerData N E :=
  mkInnerData value incoming [] None.

Definition RelRc_new (value : N) st : addr * store N E :=
  let p := alloc_addr (dom (st_nodes st)) in
  (p, set_node p (mkRc 1 1 (Some (InnerData_new value))) st).

Definition set_outgoing d (l : list WeakEdge) : InnerData N E :=
  mkInnerData (nd_value d) (nd_incoming d) l (nd_registry d).

(** [edge.source().outgoing.borrow_mut().push(edge.downgrade(i))] *)
Definition push_outgoing st (ie : nat * InnerEdgeData E) : result (store N E) :=
  let source := InnerEdgeData_source ie.2 in
  r ← with_borrow_mut (OutgoingCell source)
        (λ s, we ← InnerEdgeData_downgrade ie.2 ie.1 s;
              d ← deref (node we.2 source);
              s' ← put_node source (set_outgoing d (nd_outgoing d ++ [we.1])) we.2;
              Ok (tt, s')) st;
  Ok r.2.

Definition register_outgoing_edges (incoming : list (InnerEdgeData E)) st :
    result (store N E) :=
  foldM push_outgoing st (zip (seq 0 (length incoming)) incoming).

(** The parents are moved in: every element of [parents] is an owned [RelRc].
    [Rc::new_cyclic] leaves one strong reference, and each incoming edge a
    clone of the weak reference to the new node. *)
Definition RelRc_with_parents (value : N) (parents : list (addr * E)) st :
    result (addr * store N E) :=
  let p := alloc_addr (dom (st_nodes st)) in
  let incoming := (λ pe, InnerEdgeData_new pe.2 pe.1 p) <$> parents in
  let st1 := set_node p
    (mkRc 1 (1 + length incoming) (Some (InnerData_with_incoming value incoming))) st in
  st2 ← register_outgoing_edges incoming st1;
  Ok (p, st2).

(** [N: Default] gives the value [default]. *)
Definition InnerData_default (default : N) : InnerData N E := mkInnerData default [] [] None.
Definition RelRc_default (default : N) st : addr * store N E := RelRc_new default st.

(** ** Pointers *)

(** [From<Rc<InnerData>>] and [Deref].  A client that keeps the [Rc] beside the
    [RelRc] drops it without [<RelRc as Drop>::drop] ([Rc_drop]). *)
Definition RelRc_from (inner : addr) : addr := inner.
Definition Rc_drop (inner : addr) st : result (store N E) := drop_all [DRc inner] st.
Definition RelRc_deref p st : result (InnerData N E) := deref (node st p).

Definition RelWeak_as_ptr p : addr := p.
Definition RelWeak_ptr_eq p q : bool := bool_decide (p = q).
Definition RelRc_as_ptr p : addr := p.
Definition RelRc_ptr_eq p q : bool := bool_decide (p = q).
Definition RelRc_clone p st : result (store N E) := rc_clone p st.
Definition RelRc_downgrade p st : result (store N E) := rc_new_weak p st.
Definition RelWeak_clone p st : result (store N E) := rc_new_weak p st.
Definition RelWeak_upgrade p st : result (option addr * store N E) := rc_upgrade p st.

(** [RelRc::registry]: a strong reference to the registry, if it still exists. *)
Definition RelRc_registry p st : result (option addr * store N E) :=
  with_borrow (RegisterCell p)
    (λ s, d ← deref (node s p);
          match nd_registry d with
          | None => Ok (None, s)
          | Some weak => reg_upgrade weak s
          end) st.

Definition set_registry d (o : option addr) : InnerData N E :=
  mkInnerData (nd_value d) (nd_incoming d) (nd_outgoing d) o.

(** [self.0.registry.borrow_mut().replace(weak)]; there is no old content to drop. *)
Definition replace_register p g st : result (store N E) :=
  r ← with_borrow_mut (RegisterCell p)
        (λ s, d ← deref (node s p);
              s' ← put_node p (set_registry d (Some g)) s;
              Ok (tt, s')) st;
  Ok r.2.

(** [Rc::downgrade(registry)] is made first; it is dropped when the node is
    already registered. *)
Definition RelRc_try_set_register p g st : result (bool * store N E) :=
  st1 ← reg_new_weak g st;
  register ← read_borrow (RegisterCell p) (λ s, d ← deref (node s p); Ok (nd_registry d)) st1;
  match register with
  | Some existing =>
      st2 ← drop_refs [RegWeak g] st1;
      Ok (bool_decide (existing = g), st2)
  | None => st2 ← replace_register p g st1; Ok (true, st2)
  end.

Definition RelRc_try_register_in p g st : result (option NodeId * store N E) :=
  r ← RelRc_try_set_register p g st;
  if r.1 then
    a ← with_registry_mut g (λ R, Registry_add_node R p) r.2;
    Ok (Some a.1, a.2)
  else Ok (None, r.2).

(** ** Reading a node *)

Definition InnerData_incoming d (index : nat) : option (InnerEdgeData E) :=
  nd_incoming d !! index.
Definition InnerData_incoming_weak d (index : nat) st : result (option WeakEdge * store N E) :=
  match nd_incoming d !! index with
  | None => Ok (None, st)
  | Some e => st' ← rc_new_weak (ie_target e) st; Ok (Some (WeakEdge_new index (ie_target e)), st')
  end.
Definition InnerData_parent d (index : nat) : option addr :=
  InnerEdgeData_source <$> nd_incoming d !! index.
Definition InnerData_value d : N := nd_value d.
Definition InnerData_all_incoming d : list (InnerEdgeData E) := nd_incoming d.
Definition InnerData_all_incoming_weak d st : result (list WeakEdge * store N E) :=
  foldM (λ acc ie,
      st' ← rc_new_weak (ie_target ie.2) acc.2;
      Ok (acc.1 ++ [WeakEdge_new ie.1 (ie_target ie.2)], st'))
    ([], st) (zip (seq 0 (length (nd_incoming d))) (InnerData_all_incoming d)).
Definition InnerData_all_parents d : list addr :=
  InnerEdgeData_source <$> InnerData_all_incoming d.
Definition InnerData_n_incoming d : nat := length (nd_incoming d).
(** The guard that is returned is for the caller to drop; [all_outgoing_weak] clones
    the edges and drops it. *)
Definition InnerData_all_outgoing_weak_ref p st : result (list WeakEdge * store N E) :=
  st1 ← RefCell_borrow (OutgoingCell p) st;
  d ← deref (node st1 p);
  Ok (nd_outgoing d, st1).
Definition InnerData_all_outgoing_weak p st : result (list WeakEdge * store N E) :=
  r ← InnerData_all_outgoing_weak_ref p st;
  st' ← foldM (λ s e, rc_new_weak (we_target e) s) r.2 r.1;
  Ok (r.1, Ref_drop (OutgoingCell p) st').

(** The derived [Clone] of [InnerData], field by field; a [RefCell] is cloned under a
    borrow.  The copy is a value of its own, but the target of its edges is still
    the node [p]. *)
Definition InnerData_clone p st : result (InnerData N E * store N E) :=
  d ← deref (node st p);
  st1 ← foldM InnerEdgeData_clone st (nd_incoming d);
  outgoing ← InnerData_all_outgoing_weak p st1;
  registry ← with_borrow (RegisterCell p)
    (λ s, d ← deref (node s p);
          match nd_registry d with
          | None => Ok (None, s)
          | Some weak => s' ← reg_new_weak weak s; Ok (Some weak, s')
          end) outgoing.2;
  Ok (mkInnerData (nd_value d) (nd_incoming d) outgoing.1 registry.1, registry.2).

(** [Vec::retain] over the outgoing edges: an edge that cannot be upgraded is
    removed from the vector and dropped before the next one is looked at. *)
Fixpoint retain_outgoing p (kept rest : list WeakEdge) st : result (list Edge * store N E) :=
  match rest with
  | [] => Ok ([], st)
  | e :: rest' =>
      up ← WeakEdge_upgrade e st;
      match up.1 with
      | Some edge =>
          r ← retain_outgoing p (kept ++ [e]) rest' up.2;
          Ok (edge :: r.1, r.2)
      | None =>
          d ← deref (node up.2 p);
          st1 ← put_node p (set_outgoing d (kept ++ rest')) up.2;
          st2 ← drop_refs [NodeWeak (we_target e)] st1;
          retain_outgoing p kept rest' st2
      end
  end.

(** The first borrow is for the capacity of the vector. *)
Definition InnerData_all_outgoing p st : result (list Edge * store N E) :=
  _ ← read_borrow (OutgoingCell p) (λ s, d ← deref (node s p); Ok (length (nd_outgoing d))) st;
  with_borrow_mut (OutgoingCell p)
    (λ s, d ← deref (node s p); retain_outgoing p [] (nd_outgoing d) s) st.

Definition edge_owners (l : list Edge) : list ref := (λ e, NodeStrong (ed_target e)) <$> l.

Definition InnerData_all_children p st : result (list addr * store N E) :=
  r ← InnerData_all_outgoing p st;
  Ok (Edge_into_target <$> r.1, r.2).

(** The vector of edges is a temporary. *)
Definition InnerData_n_outgoing p st : result (nat * store N E) :=
  r ← InnerData_all_outgoing p st;
  st' ← drop_refs (edge_owners r.1) r.2;
  Ok (length r.1, st').

(** ** [RelRc::all_ancestors]

    The state of the closure given to [iter::from_fn] and one call of it. *)
Record ancestors_iter := mkAncestorsIter {
  ai_seen : gset addr;
  ai_stack : list addr;
}.

Definition ancestors_next st (it : ancestors_iter) : result (option addr * ancestors_iter) :=
  match ai_stack it with
  | [] => Ok (None, it)
  | p :: stack =>
      if decide (p ∈ ai_seen it) then Ok (None, mkAncestorsIter (ai_seen it) stack) else
      d ← deref (node st p);
      Ok (Some p, mkAncestorsIter ({[p]} ∪ ai_seen it) (stack ++ InnerData_all_parents d))
  end.

(** Consuming the iterator: [collect] and [for] stop at the first [None]. *)
Fixpoint ancestors_collect (fuel : nat) st (it : ancestors_iter) : result (list addr) :=
  match fuel with
  | 0 => Err OutOfFuel
  | Datatypes.S fuel' =>
      r ← ancestors_next st it;
      match r.1 with
      | None => Ok []
      | Some p => ps ← ancestors_collect fuel' st r.2; Ok (p :: ps)
      end
  end.

(** Every item is a node that was not seen before, so one call per allocated
    node and a last one are enough. *)
Definition RelRc_all_ancestors p st : result (list addr) :=
  ancestors_collect (Datatypes.S (size (st_nodes st))) st (mkAncestorsIter ∅ [p]).
End node.
