(* ===== verification/NodeFacts.v ===== *)
(** * Specifications of the node operations *)

From S2P Require Import Prelude Slotmap Store RefCell StoreFacts Rc Registry Drop DropFacts RegistryOps Edge Node.

Section node_facts.
Context {N E : Type} {S : SlotMapSig} {SLaws : SlotMapLaws S} {A : Allocator}.
Implicit Types (st : store N E) (p q g : addr) (d : InnerData N E) (ow : list ref).

(** ** Creating nodes *)

(** The address of a new node is referred to by nobody. *)
Lemma alloc_fresh st : st_nodes st !! alloc_addr (dom (st_nodes st)) = None.
Proof. apply not_elem_of_dom, alloc_addr_fresh. Qed.

Lemma fresh_node st p : st_nodes st !! p = None → node st p = None.
Proof. intros Hp. unfold node. by rewrite Hp. Qed.

Lemma fresh_not_source st ow p q d e :
  wf st ow → st_nodes st !! p = None → node st q = Some d → e ∈ nd_incoming d →
  ie_source e ≠ p.
Proof.
  intros Hw Hp Hq He <-. destruct (source_live _ _ _ _ _ Hw Hq He) as [dp Hdp].
  rewrite (fresh_node _ _ Hp) in Hdp. done.
Qed.

Lemma fresh_not_outgoing st ow p q d we :
  wf st ow → st_nodes st !! p = None → node st q = Some d → we ∈ nd_outgoing d →
  we_target we ≠ p.
Proof.
  intros Hw Hp Hq He <-. assert (is_Some (st_nodes st !! we_target we)) as [b Hb]; [|congruence].
  apply count_weak_alloc. eapply wf_internal_count; [done|].
  apply elem_of_internal. left. exists q, d. split; [done|]. right.
  apply elem_of_inner_refs. naive_solver.
Qed.

(** ** The borrows of an idle store *)

Lemma push_framed m e i q st :
  framed m (λ s, we ← InnerEdgeData_downgrade e i s;
                 d ← deref (node we.2 q);
                 s' ← put_node q (set_outgoing d (nd_outgoing d ++ [we.1])) we.2;
                 Ok (tt, s')) st.
Proof.
  apply (framed_bind m (InnerEdgeData_downgrade e i) (λ we s, d ← deref (node s q);
    s' ← put_node q (set_outgoing d (nd_outgoing d ++ [we])) s; Ok (tt, s'))).
  { apply framed_bind_step; [apply rc_new_weak_framed|done]. }
  intros we s _. apply (framed_read m (λ s, deref (node s q))); [done|]. intros d _.
  apply framed_bind_step; [apply put_node_framed|done].
Qed.
Lemma push_outgoing_idle st (ie : nat * InnerEdgeData E) :
  st_borrows st = ∅ →
  push_outgoing st ie =
    (we ← InnerEdgeData_downgrade ie.2 ie.1 st;
     d ← deref (node we.2 (InnerEdgeData_source ie.2));
     put_node (InnerEdgeData_source ie.2) (set_outgoing d (nd_outgoing d ++ [we.1])) we.2).
Proof.
  intros Hb. unfold push_outgoing. rewrite with_borrow_mut_idle; [|done|apply push_framed..].
  destruct (InnerEdgeData_downgrade _ _ st) as [[we s]|]; [|done]. simpl.
  destruct (node s _) as [d|]; [|done]. simpl. by destruct (put_node _ _ s).
Qed.

Lemma retain_outgoing_framed m p kept rest st : framed m (retain_outgoing p kept rest) st.
Proof.
  revert kept st. induction rest as [|e rest IH]; intros kept st; [done|].
  unfold framed. simpl. unfold WeakEdge_upgrade. rewrite rc_upgrade_framed.
  destruct (rc_upgrade _ st) as [[[q|] s]|]; [| |done]; simpl.
  - rewrite IH. by destruct (retain_outgoing p _ rest s) as [[]|].
  - change (node (set_borrows m s) p) with (node s p). destruct (node s p) as [d|]; [|done]. simpl.
    rewrite put_node_framed. destruct (put_node p _ s) as [s1|]; [|done]. simpl.
    rewrite (drop_refs_weak_framed m (Some (we_target e))). csimpl.
    destruct (drop_refs _ s1) as [s2|]; [|done]. apply IH.
Qed.
Lemma all_outgoing_idle p st :
  st_borrows st = ∅ →
  InnerData_all_outgoing p st = (d ← deref (node st p); retain_outgoing p [] (nd_outgoing d) st).
Proof.
  intros Hb. unfold InnerData_all_outgoing. rewrite read_borrow_idle by done.
  destruct (node st p) as [d|] eqn:Hd; [|done]. simpl.
  rewrite with_borrow_mut_idle; [by rewrite Hd|done|..].
  all: apply (framed_read _ (λ s, deref (node s p))); [done|]; intros; apply retain_outgoing_framed.
Qed.

Lemma registry_framed m p st :
  framed m (λ s, d ← deref (node s p);
                 match nd_registry d with None => Ok (None, s) | Some weak => reg_upgrade weak s end) st.
Proof.
  apply (framed_read m (λ s, deref (node s p))); [done|]. intros d _.
  destruct (nd_registry d); [apply reg_upgrade_framed|done].
Qed.
Lemma RelRc_registry_idle p st :
  st_borrows st = ∅ →
  RelRc_registry p st =
    (d ← deref (node st p);
     match nd_registry d with None => Ok (None, st) | Some weak => reg_upgrade weak st end).
Proof.
  intros Hb. unfold RelRc_registry. rewrite with_borrow_idle; [done|done|]. intros m. apply registry_framed.
Qed.

Lemma replace_register_idle p g st :
  st_borrows st = ∅ →
  replace_register p g st = (d ← deref (node st p); put_node p (set_registry d (Some g)) st).
Proof.
  intros Hb. unfold replace_register. rewrite with_borrow_mut_idle; [|done|..].
  { destruct (node st p) as [d|]; [|done]. simpl. by destruct (put_node p _ st). }
  all: apply (framed_read _ (λ s, deref (node s p))); [done|]; intros; apply framed_bind_step; [apply put_node_framed|done].
Qed.
Lemma try_set_register_idle p g st :
  st_borrows st = ∅ →
  RelRc_try_set_register p g st =
    (st1 ← reg_new_weak g st;
     d ← deref (node st1 p);
     match nd_registry d with
     | Some existing => st2 ← drop_refs [RegWeak g] st1; Ok (bool_decide (existing = g), st2)
     | None => st2 ← put_node p (set_registry d (Some g)) st1; Ok (true, st2)
     end).
Proof.
  intros Hb. unfold RelRc_try_set_register. destruct (reg_new_weak g st) as [st1|] eqn:Hs; [|done]. simpl.
  assert (st_borrows st1 = ∅) as Hb1.
  { rewrite <-Hb. exact (framed_step_borrows _ _ _ (reg_new_weak_framed _ _ _) Hs). }
  rewrite read_borrow_idle by done. destruct (node st1 p) as [d|] eqn:Hd; [|done]. simpl.
  destruct (nd_registry d); [done|]. rewrite replace_register_idle by done. by rewrite Hd.
Qed.

(** The outgoing edges that a list of numbered incoming edges adds to [q]. *)
Definition new_outgoing q (l : list (nat * InnerEdgeData E)) : list WeakEdge :=
  (λ ie, mkWeakEdge ie.1 (ie_target ie.2)) <$> filter (λ ie, ie_source ie.2 = q) l.

Lemma push_outgoing_spec st ow ie d :
  wf_counts st ow → wf_cells st → st_borrows st = ∅ →
  node st (ie_source ie.2) = Some d → is_Some (st_nodes st !! ie_target ie.2) →
  ∃ st', push_outgoing st ie = Ok st' ∧ wf_counts st' ow ∧ wf_cells st' ∧ st_borrows st' = ∅ ∧
    (∀ q, node st' q = (λ d, set_outgoing d (nd_outgoing d ++ new_outgoing q [ie])) <$> node st q) ∧
    (∀ g, registry_at st' g = registry_at st g) ∧
    (∀ q, is_Some (st_nodes st !! q) → is_Some (st_nodes st' !! q)).
Proof.
  intros Hc Hcell Hbs Hd [bt Hbt]. rewrite push_outgoing_idle by done. destruct ie as [i e]; simpl in *.
  unfold InnerEdgeData_downgrade, InnerEdgeData_source, rc_new_weak; simpl.
  rewrite Hbt; simpl.
  set (bt' := mkRc (rc_strong bt) (Datatypes.S (rc_weak bt)) (rc_val bt)).
  set (st1 := set_node (ie_target e) bt' st).
  assert (∀ q, node st1 q = node st q) as Hn1.
  { by apply (same_views_set_node st _ bt bt'). }
  assert (wf_counts st1 (NodeWeak (ie_target e) :: ow)) as Hc1.
  { eapply wf_counts_set_node; [done..|]. subst bt'. balance. }
  assert (wf_cells st1) as Hcell1.
  { apply wf_cells_set_node; [|done]. destruct Hcell as [Hcn _].
    destruct (Hcn _ _ Hbt). split; simpl; [lia|done]. }
  assert (∀ g, registry_at st1 g = registry_at st g) as Hr1 by done.
  assert (st_borrows st1 = ∅) as Hbs1 by done.
  assert (∀ q, is_Some (st_nodes st !! q) → is_Some (st_nodes st1 !! q)) as Ha1.
  { intros q Hq. simpl. by apply lookup_insert_is_Some'; right. }
  clearbody st1. rewrite Hn1, Hd; simpl.
  pose proof Hd as Hd1. rewrite <-Hn1 in Hd1. apply node_Some in Hd1 as (b & Hb & Hv).
  unfold put_node. rewrite Hb; simpl. eexists. split; [done|]. split_and!.
  - eapply wf_counts_set_node; [done..|]. intros r.
    assert (occ r (inner_refs (set_outgoing d (nd_outgoing d ++ [WeakEdge_new i (ie_target e)])))
            = occ r (inner_refs d) + (if decide (r = NodeWeak (ie_target e)) then 1 else 0)) as Hir.
    { unfold inner_refs; simpl. rewrite fmap_app. simpl. occ_norm.
      change (weak_edge_ref (WeakEdge_new i (ie_target e))) with (NodeWeak (ie_target e)). lia. }
    unfold node_cell_refs; simpl. rewrite Hv. rewrite !occ_cons, Hir.
    destruct r; simpl; repeat case_decide; simplify_eq; lia.
  - apply wf_cells_set_node; [|done]. destruct Hcell1 as [Hcn _].
    destruct (Hcn _ _ Hb) as [? Hs]. split; simpl; [done|]. rewrite Hv in Hs.
    split; [intros _; by apply Hs|eauto].
  - done.
  - intros q. rewrite node_set_node, Hn1. unfold new_outgoing.
    rewrite filter_cons, filter_nil. simpl.
    destruct (decide (q = ie_source e)) as [->|Hq].
    + rewrite decide_True, Hd by done. done.
    + rewrite decide_False by done. simpl. destruct (node st q) as [dq|]; [|done]. simpl.
      rewrite app_nil_r. by destruct dq.
  - done.
  - intros q Hq. simpl. apply lookup_insert_is_Some'; right. by apply Ha1.
Qed.
Lemma push_outgoing_loop l st ow :
  wf_counts st ow → wf_cells st → st_borrows st = ∅ →
  (∀ ie, ie ∈ l → is_Some (node st (ie_source ie.2)) ∧ is_Some (st_nodes st !! ie_target ie.2)) →
  ∃ st', foldM push_outgoing st l = Ok st' ∧ wf_counts st' ow ∧ wf_cells st' ∧ st_borrows st' = ∅ ∧
    (∀ q, node st' q = (λ d, set_outgoing d (nd_outgoing d ++ new_outgoing q l)) <$> node st q) ∧
    (∀ g, registry_at st' g = registry_at st g).
Proof.
  revert st. induction l as [|ie l IH]; intros st Hc Hcell Hbs Hl; simpl.
  { exists st. split_and!; try done. intros q. destruct (node st q) as [dq|]; [|done]. simpl.
    unfold new_outgoing. simpl. rewrite app_nil_r. by destruct dq. }
  destruct (Hl ie) as [[d Hd] Ht]; [left|].
  destruct (push_outgoing_spec st ow ie d Hc Hcell Hbs Hd Ht)
    as (st1 & -> & Hc1 & Hcell1 & Hbs1 & Hn1 & Hr1 & Ha1). simpl.
  destruct (IH st1 Hc1 Hcell1 Hbs1) as (st2 & -> & Hc2 & Hcell2 & Hbs2 & Hn2 & Hr2).
  { intros ie' Hie. destruct (Hl ie') as [[d' Hd'] Ht']; [by right|]. split; [|by apply Ha1].
    rewrite Hn1, Hd'. simpl. eauto. }
  exists st2. split_and!; try done.
  - intros q. rewrite Hn2, Hn1. destruct (node st q) as [dq|]; [|done]. simpl.
    f_equal. unfold set_outgoing; simpl. f_equal. rewrite <-(assoc_L (++)). f_equal.
    unfold new_outgoing. rewrite !filter_cons, filter_nil. case_decide; done.
  - intros g. by rewrite Hr2.
Qed.

Lemma occ_new_outgoing p q i k (l : list (InnerEdgeData E)) :
  (∀ e, e ∈ l → ie_target e = p) →
  occ (mkWeakEdge i p) (new_outgoing q (zip (seq k (length l)) l)) =
    if decide (k ≤ i) then
      match l !! (i - k) with
      | Some e => if decide (ie_source e = q) then 1 else 0
      | None => 0
      end
    else 0.
Proof.
  revert k. induction l as [|e l IH]; intros k Hl.
  { simpl. unfold new_outgoing; simpl. rewrite occ_nil. by case_decide. }
  simpl. unfold new_outgoing. rewrite filter_cons. simpl.
  specialize (IH (Datatypes.S k) ltac:(set_solver)).
  assert (∀ x, occ (mkWeakEdge i p) ((λ ie, mkWeakEdge ie.1 (ie_target ie.2)) <$>
     (if decide (ie_source e = q) then (k, e) :: x else x)) =
     (if decide (k = i ∧ ie_source e = q) then 1 else 0) +
     occ (mkWeakEdge i p) ((λ ie, mkWeakEdge ie.1 (ie_target ie.2)) <$> x)) as Hx.
  { intros x. pose proof (Hl e ltac:(left)) as He. repeat case_decide; csimpl;
      rewrite ?occ_cons; repeat case_decide; simplify_eq/=; try naive_solver lia. }
  rewrite Hx. unfold new_outgoing in IH. rewrite IH. clear Hx IH.
  destruct (decide (k ≤ i)), (decide (Datatypes.S k ≤ i)); try lia.
  - rewrite (decide_False (P := k = i ∧ _)) by lia. simpl.
    replace (i - k) with (Datatypes.S (i - Datatypes.S k)) by lia. done.
  - assert (i = k) as -> by lia. rewrite Nat.sub_diag. simpl.
    repeat case_decide; naive_solver lia.
  - rewrite decide_False by lia. done.
Qed.

Lemma elem_of_new_outgoing_target p q (l : list (InnerEdgeData E)) k we :
  (∀ e, e ∈ l → ie_target e = p) →
  we ∈ new_outgoing q (zip (seq k (length l)) l) → we_target we = p.
Proof.
  intros Hl. unfold new_outgoing. rewrite list_elem_of_fmap.
  intros ([i e] & -> & [_ Hin]%list_elem_of_filter). simpl. apply Hl.
  by eapply elem_of_zip_r.
Qed.

(** The graph with one more node, whose parents know about it. *)
Lemma wf_graph_extend st ow p value (parents : list (addr * E)) :
  let incoming := (λ pe, mkInnerEdgeData pe.2 pe.1 p) <$> parents in
  wf st ow → st_nodes st !! p = None → (∀ pe, pe ∈ parents → is_Some (node st pe.1)) →
  wf_graph (λ q, if decide (q = p) then Some (mkInnerData value incoming [] None) else
    (λ d, set_outgoing d (nd_outgoing d ++
            new_outgoing q (zip (seq 0 (length incoming)) incoming))) <$> node st q).
Proof.
  intros incoming Hw Hp Hparents. pose proof (wf_st_graph _ _ Hw) as [Ht Hl _].
  assert (∀ e, e ∈ incoming → ie_target e = p) as Htp.
  { intros e. unfold incoming. rewrite list_elem_of_fmap. by intros (? & -> & _). }
  assert (∀ e, e ∈ incoming → is_Some (node st (ie_source e))) as Hsrc.
  { intros e. unfold incoming. rewrite list_elem_of_fmap. intros (pe & -> & ?). by apply Hparents. }
  assert (∀ e, e ∈ incoming → ie_source e ≠ p) as Hsp.
  { intros e [? He]%Hsrc Hep. by rewrite Hep, (fresh_node _ _ Hp) in He. }
  split.
  - intros q d e. case_decide; subst.
    + intros [= <-]. apply Htp.
    + destruct (node st q) as [dq|] eqn:Hq; [|done]. intros [= <-]. by apply (Ht q dq e).
  - intros q dq r dr i. destruct (decide (q = p)) as [->|Hqp]; [intros [= <-]|].
    + (* the new node is nobody's parent *)
      simpl. rewrite occ_nil. case_decide; subst; [intros [= <-]|]; unfold link_count; simpl.
      * destruct (incoming !! i) as [e|] eqn:He; [|done]. rewrite decide_False; [done|].
        apply Hsp. by eapply list_elem_of_lookup_2.
      * destruct (node st r) as [dr0|] eqn:Hr; [|done]. intros [= <-]. simpl.
        destruct (nd_incoming dr0 !! i) as [e|] eqn:He; [|done]. rewrite decide_False; [done|].
        eapply fresh_not_source; [done..|]. by eapply list_elem_of_lookup_2.
    + destruct (node st q) as [dq0|] eqn:Hq; [|done]. intros [= <-]. simpl. rewrite occ_app.
      case_decide; subst.
      * (* edges into the new node *)
        intros [= <-]. rewrite occ_new_outgoing by done. rewrite decide_True by lia.
        rewrite Nat.sub_0_r. unfold link_count; simpl.
        assert (occ (mkWeakEdge i p) (nd_outgoing dq0) = 0) as ->; [|done].
        apply occ_not_elem_of. intros Hin. by eapply fresh_not_outgoing in Hin.
      * (* edges between old nodes *)
        destruct (node st r) as [dr0|] eqn:Hr; [|done]. intros [= <-].
        rewrite (Hl q dq0 r dr0 i Hq Hr). unfold link_count; simpl.
        assert (occ (mkWeakEdge i r) (new_outgoing q (zip (seq 0 (length incoming)) incoming)) = 0)
          as ->; [|lia].
        apply occ_not_elem_of. intros Hin%(elem_of_new_outgoing_target p); done.
  - destruct (wf_rank_bound _ _ Hw) as (rank & B & Hr & HB).
    exists (λ q, if decide (q = p) then B else rank q). intros q d e.
    destruct (decide (q = p)) as [->|Hqp].
    + intros [= <-] He; simpl in He. rewrite decide_False by (by apply Hsp).
      destruct (Hsrc e He) as [ds Hds]. by eapply HB.
    + destruct (node st q) as [dq|] eqn:Hq; [|done]. intros [= <-] He; simpl in He.
      rewrite decide_False by (by eapply fresh_not_source). by eapply Hr.
Qed.

Definition parent_owners (parents : list (addr * E)) : list ref :=
  (λ pe, NodeStrong pe.1) <$> parents.
Definition new_incoming p (parents : list (addr * E)) : list (InnerEdgeData E) :=
  (λ pe, mkInnerEdgeData pe.2 pe.1 p) <$> parents.

Lemma new_incoming_refs r p parents :
  occ r (new_incoming p parents ≫= edge_refs) =
    occ r (parent_owners parents) +
    (if decide (r = NodeWeak p) then length parents else 0).
Proof.
  induction parents as [|[q v] l IH]; [by case_decide|].
  change (new_incoming p ((q, v) :: l)) with (mkInnerEdgeData v q p :: new_incoming p l).
  change (parent_owners ((q, v) :: l)) with (NodeStrong q :: parent_owners l).
  rewrite bind_cons, !occ_app, IH. unfold edge_refs; simpl. occ_norm.
  repeat case_decide; simplify_eq; lia.
Qed.

(** [RelRc::with_parents]: the new node has the given value and parents in the
    given order, each parent gains the new edges at the end of its outgoing
    edges, nothing else changes, and the handles to the parents are consumed
    in exchange for one handle to the new node. *)
Lemma RelRc_with_parents_spec st ow value parents :
  wf st (parent_owners parents ++ ow) →
  ∃ p st', RelRc_with_parents value parents st = Ok (p, st') ∧
    wf st' (NodeStrong p :: ow) ∧ st_nodes st !! p = None ∧
    (∀ q, node st' q =
       if decide (q = p) then Some (mkInnerData value (new_incoming p parents) [] None) else
       (λ d, set_outgoing d (nd_outgoing d ++
          new_outgoing q (zip (seq 0 (length parents)) (new_incoming p parents)))) <$> node st q) ∧
    (∀ g, registry_at st' g = registry_at st g).
Proof.
  intros Hw. unfold RelRc_with_parents, register_outgoing_edges.
  pose proof (alloc_fresh st) as Hp. set (p := alloc_addr (dom (st_nodes st))) in *.
  change ((λ pe, InnerEdgeData_new pe.2 pe.1 p) <$> parents) with (new_incoming p parents).
  set (inc := new_incoming p parents). set (d0 := InnerData_with_incoming value inc).
  assert (length inc = length parents) as Hlen by apply length_fmap.
  set (st1 := set_node p _ st).
  assert (wf_counts st1 (NodeStrong p :: ow)) as Hc1.
  { eapply wf_counts_alloc_node; [done|apply Hw|]. intros r.
    unfold node_cell_refs, inner_refs, d0; simpl. rewrite app_nil_r.
    unfold inc in *. rewrite Hlen, !occ_cons, occ_app, new_incoming_refs.
    destruct r; simpl; repeat case_decide; simplify_eq; lia. }
  assert (wf_cells st1) as Hcell1.
  { apply wf_cells_set_node; [|apply Hw]. split; simpl; [lia|]. split; [lia|eauto]. }
  assert (∀ pe, pe ∈ parents → is_Some (node st pe.1)) as Hpar.
  { intros pe Hpe. eapply owner_live; [done|]. apply elem_of_app. left.
    apply list_elem_of_fmap. eauto. }
  destruct (push_outgoing_loop (zip (seq 0 (length inc)) inc) st1 _ Hc1 Hcell1 (wf_st_borrows _ _ Hw))
    as (st2 & -> & Hc2 & Hcell2 & Hbs2 & Hn2 & Hr2).
  { intros [i e] Hie%elem_of_zip_r. unfold inc, new_incoming in Hie.
    apply list_elem_of_fmap in Hie as (pe & -> & Hpe). simpl. split.
    - destruct (Hpar pe Hpe) as [d Hd]. unfold st1. rewrite node_set_node.
      case_decide; [by eexists|by exists d].
    - rewrite lookup_insert_eq. eauto. }
  simpl. exists p, st2. rewrite <-Hlen. split; [done|].
  assert (∀ q, node st2 q = if decide (q = p) then Some (mkInnerData value inc [] None) else
    (λ d, set_outgoing d (nd_outgoing d ++ new_outgoing q (zip (seq 0 (length inc)) inc))) <$>
      node st q) as Hn.
  { intros q. rewrite Hn2. unfold st1. rewrite node_set_node. case_decide; [|done].
    subst. simpl. f_equal. unfold d0, set_outgoing; simpl. f_equal.
    destruct (new_outgoing p _) as [|we l] eqn:Hno; [done|].
    assert (we ∈ new_outgoing p (zip (seq 0 (length inc)) inc)) as Hwe by (rewrite Hno; left).
    unfold new_outgoing in Hwe.
    apply list_elem_of_fmap in Hwe as ([i e] & -> & [Hs Hie]%list_elem_of_filter); simpl in Hs.
    apply elem_of_zip_r in Hie. unfold inc, new_incoming in Hie.
    apply list_elem_of_fmap in Hie as (pe & -> & Hpe). simpl in Hs.
    destruct (Hpar pe Hpe) as [d Hd]. rewrite Hs, (fresh_node _ _ Hp) in Hd. done. }
  split_and!; try done.
  split; try done.
  - eapply wf_graph_ext; [exact Hn|]. by apply (wf_graph_extend _ _ p value parents Hw Hp).
  - intros g R. rewrite Hr2. apply Hw.
Qed.

(** A node that is not among the parents is not touched. *)
Lemma new_outgoing_other p q k (parents : list (addr * E)) :
  (∀ pe, pe ∈ parents → pe.1 ≠ q) →
  new_outgoing q (zip (seq k (length parents)) (new_incoming p parents)) = [].
Proof.
  revert k. induction parents as [|pe parents IH]; intros k Hq; [done|]. csimpl.
  unfold new_outgoing. rewrite filter_cons_False by (apply Hq; left).
  apply IH. intros pe' Hpe'. apply Hq. by right.
Qed.

Lemma RelRc_new_with_parents value st :
  RelRc_with_parents value [] st = Ok (RelRc_new value st).
Proof. done. Qed.

Lemma RelRc_new_spec st ow value :
  wf st ow →
  let p := (RelRc_new value st).1 in let st' := (RelRc_new value st).2 in
  wf st' (NodeStrong p :: ow) ∧ st_nodes st !! p = None ∧
  (∀ q, node st' q = if decide (q = p) then Some (InnerData_new value) else node st q) ∧
  (∀ g, registry_at st' g = registry_at st g).
Proof.
  intros Hw. destruct (RelRc_with_parents_spec st ow value [] Hw)
    as (p & st' & Heq & Hw' & Hp & Hn & Hr).
  rewrite RelRc_new_with_parents in Heq.
  assert (RelRc_new value st = (p, st')) as -> by congruence. simpl.
  split_and!; try done. intros q. rewrite Hn. case_decide; [done|].
  destruct (node st q) as [d|]; [|done]. simpl. unfold new_outgoing; simpl.
  rewrite app_nil_r. by destruct d.
Qed.

(** ** Outgoing edges *)

Definition live_edge st (e : WeakEdge) : Prop := is_Some (node st (we_target e)).
#[export] Instance live_edge_dec st e : Decision (live_edge st e) := is_Some_dec _.
Definition strong_edge (e : WeakEdge) : Edge := mkEdge (we_index e) (we_target e).

Lemma live_edge_filter st st' (l : list WeakEdge) :
  (∀ q, is_Some (node st' q) ↔ is_Some (node st q)) →
  filter (live_edge st') l = filter (live_edge st) l.
Proof. intros Hn. apply list_filter_iff. intros e. apply Hn. Qed.

(** Forgetting an outgoing edge to a dead node. *)
Lemma wf_graph_prune st ow p d kept e rest :
  wf st ow → node st p = Some d → nd_outgoing d = kept ++ e :: rest →
  node st (we_target e) = None →
  wf_graph (λ q, if decide (q = p) then Some (set_outgoing d (kept ++ rest)) else node st q).
Proof.
  intros Hw Hp Ho He. pose proof (wf_st_graph _ _ Hw) as [Ht Hl [rank Hr]]. split.
  - intros q dq x. case_decide; subst; [intros [= <-]; by apply (Ht p d)|by apply Ht].
  - intros q dq r dr i Hq Hrr.
    assert (∃ dr0, node st r = Some dr0 ∧ nd_incoming dr = nd_incoming dr0) as (dr0 & Hr0 & Hi).
    { case_decide; [|by eauto]. case_decide; simplify_eq; eauto. }
    assert (link_count dr i q = link_count dr0 i q) as -> by (unfold link_count; by rewrite Hi).
    destruct (decide (q = p)) as [->|]; simplify_eq/=.
    + rewrite <-(Hl p d r dr0 i Hp Hr0), Ho, !occ_app, occ_cons.
      rewrite decide_False; [lia|]. intros <-. simpl in He. congruence.
    + by apply Hl.
  - exists rank. intros q dq x. case_decide; subst; [intros [= <-]; by apply (Hr p d)|by apply Hr].
Qed.

Lemma inner_refs_prune r d kept e rest :
  nd_outgoing d = kept ++ e :: rest →
  occ r (inner_refs d) =
    occ r (inner_refs (set_outgoing d (kept ++ rest))) +
    occ r [NodeWeak (we_target e)].
Proof.
  intros Ho. unfold inner_refs; simpl. rewrite Ho, !fmap_app, fmap_cons.
  change (weak_edge_ref e) with (NodeWeak (we_target e)). occ_norm. lia.
Qed.

Lemma outgoing_alloc st ow p d e :
  wf st ow → node st p = Some d → e ∈ nd_outgoing d → is_Some (st_nodes st !! we_target e).
Proof.
  intros Hw Hp He. apply count_weak_alloc. eapply wf_internal_count; [done|].
  apply elem_of_internal. left. exists p, d. split; [done|]. right.
  apply elem_of_inner_refs. naive_solver.
Qed.

Lemma retain_outgoing_spec p rest st ow kept d :
  wf st ow → node st p = Some d → nd_outgoing d = kept ++ rest →
  ∃ st', retain_outgoing p kept rest st = Ok (strong_edge <$> filter (live_edge st) rest, st') ∧
    wf st' (edge_owners (strong_edge <$> filter (live_edge st) rest) ++ ow) ∧
    (∀ q, node st' q = if decide (q = p)
       then Some (set_outgoing d (kept ++ filter (live_edge st) rest)) else node st q) ∧
    (∀ g, registry_at st' g = registry_at st g).
Proof.
  revert st ow kept d. induction rest as [|e rest IH]; intros st ow kept d Hw Hp Ho; simpl.
  { exists st. split_and!; try done. intros q. case_decide; [|done]. subst.
    rewrite filter_nil, <-Ho, Hp. by destruct d. }
  rewrite filter_cons. destruct (decide (live_edge st e)) as [[de Hde]|Hde].
  - destruct (WeakEdge_upgrade_live st ow e de Hw Hde) as (st1 & -> & Hw1 & [Hn1 Hr1]). simpl.
    destruct (IH st1 _ (kept ++ [e]) d Hw1) as (st2 & -> & Hw2 & Hn2 & Hr2).
    { by rewrite Hn1. } { by rewrite Ho, <-(assoc_L (++)). }
    rewrite (live_edge_filter st st1) in * by (intros q; by rewrite Hn1). simpl.
    exists st2. split_and!; [done|..].
    + eapply wf_perm; [|exact Hw2]. unfold edge_owners. csimpl. by rewrite Permutation_middle.
    + intros q. rewrite Hn2, Hn1, <-(assoc_L (++)). done.
    + intros g. by rewrite Hr2.
  - assert (node st (we_target e) = None) as Hdead.
    { destruct (node st (we_target e)) eqn:?; [|done]. destruct Hde. by eexists. }
    assert (is_Some (st_nodes st !! we_target e)) as Hal.
    { eapply (outgoing_alloc st ow p d); [done..|]. rewrite Ho. apply elem_of_app. right. left. }
    rewrite (WeakEdge_upgrade_dead st ow e Hw Hal Hdead). simpl.
    rewrite Hp; simpl.
    destruct (put_node_wf st ow (NodeWeak (we_target e) :: ow) p d (set_outgoing d (kept ++ rest)) Hw Hp)
      as (st1 & -> & Hw1 & Hn1 & Hr1 & _).
    { intros r. rewrite (inner_refs_prune r d kept e rest Ho). occ_norm. lia. }
    { by eapply wf_graph_prune. }
    simpl. destruct (drop_refs_weak st1 [NodeWeak (we_target e)] ow Hw1) as (st2 & -> & Hw2 & [Hn2 Hr2]).
    { intros r ->%list_elem_of_singleton. eauto. }
    simpl. destruct (IH st2 ow kept (set_outgoing d (kept ++ rest)) Hw2) as (st3 & -> & Hw3 & Hn3 & Hr3).
    { by rewrite Hn2, Hn1, decide_True. } { done. }
    assert (filter (live_edge st2) rest = filter (live_edge st) rest) as Hfl.
    { apply live_edge_filter. intros q. rewrite Hn2, Hn1. case_decide; [|done].
      subst. rewrite Hp. split; eauto. }
    rewrite Hfl in *.
    exists st3. split_and!; try done.
    + intros q. rewrite Hn3, Hn2, Hn1. by case_decide.
    + intros g. by rewrite Hr3, Hr2, Hr1.
Qed.

(** [InnerData::all_outgoing]: the live outgoing edges in order, each holding
    its target; edges to dead nodes are forgotten. *)
Lemma all_outgoing_spec st ow p d :
  wf st ow → node st p = Some d →
  ∃ st', InnerData_all_outgoing p st =
      Ok (strong_edge <$> filter (live_edge st) (nd_outgoing d), st') ∧
    wf st' (edge_owners (strong_edge <$> filter (live_edge st) (nd_outgoing d)) ++ ow) ∧
    (∀ q, node st' q = if decide (q = p)
       then Some (set_outgoing d (filter (live_edge st) (nd_outgoing d))) else node st q) ∧
    (∀ g, registry_at st' g = registry_at st g).
Proof.
  intros Hw Hp. rewrite all_outgoing_idle by apply Hw. rewrite Hp; simpl.
  by apply retain_outgoing_spec.
Qed.

(** The live outgoing edges of [p] are the edges of live nodes whose source
    is [p], each once. *)
Lemma live_outgoing_NoDup st ow p d :
  wf st ow → node st p = Some d → NoDup (filter (live_edge st) (nd_outgoing d)).
Proof.
  intros Hw Hp. apply occ_NoDup. intros [i q].
  destruct (decide (live_edge st (mkWeakEdge i q))) as [[dq Hq]|Hl].
  - transitivity (occ (mkWeakEdge i q) (nd_outgoing d)).
    + induction (nd_outgoing d) as [|e l IH]; [done|]. rewrite filter_cons.
      case_decide; rewrite ?occ_cons; lia.
    + rewrite (wf_link _ (wf_st_graph _ _ Hw) p d q dq i Hp Hq). unfold link_count.
      destruct (nd_incoming dq !! i); [case_decide|]; lia.
  - rewrite (proj2 (occ_not_elem_of _ _)); [lia|]. by rewrite list_elem_of_filter; intros [? _].
Qed.

Lemma elem_of_live_outgoing st ow p d i q :
  wf st ow → node st p = Some d →
  mkWeakEdge i q ∈ filter (live_edge st) (nd_outgoing d) ↔
    ∃ dq e, node st q = Some dq ∧ nd_incoming dq !! i = Some e ∧ ie_source e = p.
Proof.
  intros Hw Hp. rewrite list_elem_of_filter. split.
  - intros [[dq Hq] Hin]. simpl in Hq.
    destruct (outgoing_incoming st ow p d _ dq Hw Hp Hin Hq) as (e & ? & ? & _). eauto.
  - intros (dq & e & Hq & He & <-).
    destruct (incoming_outgoing st ow q dq i e Hw Hq He) as (dp & Hdp & Hin).
    simplify_eq. split; [by eexists|done].
Qed.

(** What a node that is alive in a store with owners [ow] is held by stays so
    when outgoing edges are forgotten. *)
Lemma held_pruned st st' ow p d l q :
  node st p = Some d →
  (∀ q, node st' q = if decide (q = p) then Some (set_outgoing d l) else node st q) →
  held_by st ow q → held_by st' ow q.
Proof.
  intros Hp Hn (o & ? & Ho). exists o. split; [done|]. eapply rtc_subrel; [|done].
  intros x y (dy & e & Hy & He & Hs). destruct (decide (y = p)) as [->|].
  - simplify_eq. exists (set_outgoing d l), e. by rewrite Hn, decide_True.
  - exists dy, e. by rewrite Hn, decide_False.
Qed.

Lemma edge_owners_held st ow p d l st' :
  wf st ow → node st p = Some d →
  (∀ q, node st' q = if decide (q = p) then Some (set_outgoing d l) else node st q) →
  ∀ r, r ∈ edge_owners (strong_edge <$> filter (live_edge st) (nd_outgoing d)) →
    ∃ q, r = NodeStrong q ∧ held_by st' ow q.
Proof.
  intros Hw Hp Hn r. unfold edge_owners. rewrite <-list_fmap_compose, list_elem_of_fmap.
  intros (e & -> & [[de Hde] _]%list_elem_of_filter). eexists. split; [done|].
  apply (held_pruned st st' ow p d l); [done..|]. by eapply live_held.
Qed.

(** [InnerData::n_outgoing] counts the live outgoing edges, and the temporary
    strong references it makes are gone afterwards. *)
Lemma n_outgoing_spec st ow p d :
  wf st ow → node st p = Some d →
  ∃ st', InnerData_n_outgoing p st = Ok (length (filter (live_edge st) (nd_outgoing d)), st') ∧
    wf st' ow ∧
    (∀ q, node st' q = if decide (q = p)
       then Some (set_outgoing d (filter (live_edge st) (nd_outgoing d))) else node st q) ∧
    (∀ g, registry_at st' g = registry_at st g).
Proof.
  intros Hw Hp. destruct (all_outgoing_spec st ow p d Hw Hp) as (st1 & Ha & Hw1 & Hn1 & Hr1).
  unfold InnerData_n_outgoing. rewrite Ha; simpl. rewrite length_fmap.
  destruct (drop_refs_redundant st1 _ ow Hw1) as (st2 & -> & Hw2 & [Hn2 Hr2]).
  { by eapply edge_owners_held. }
  simpl. exists st2. split_and!; try done.
  - intros q. by rewrite Hn2, Hn1.
  - intros g. by rewrite Hr2.
Qed.

(** Handles to several live nodes. *)
Lemma clone_nodes st0 st ow l :
  same_views st0 st → wf st ow → (∀ p, p ∈ l → is_Some (node st0 p)) →
  ∃ st', foldM (λ s q, RelRc_clone q s) st l = Ok st' ∧
    wf st' ((NodeStrong <$> l) ++ ow) ∧ same_views st0 st'.
Proof.
  revert st ow. induction l as [|p l IH]; intros st ow Hv Hw Hl; [by exists st|].
  cbn [foldM fmap list_fmap app]. destruct (Hl p) as [d Hd]; [left|].
  destruct (rc_clone_wf st ow p d Hw) as (st1 & Hc & Hw1 & Hv1).
  { by rewrite (proj1 Hv). }
  unfold RelRc_clone at 1. rewrite Hc. cbn [rbind].
  destruct (IH st1 (NodeStrong p :: ow)) as (st2 & -> & Hw2 & Hv2);
    [by etrans|done|intros q Hq; apply Hl; by right|].
  exists st2. split_and!; [done| |done]. by rewrite <-Permutation_middle in Hw2.
Qed.

(** ** What the users of a node see of it *)

(** The sources and values of the incoming edges. *)
Definition incoming_pairs (d : InnerData N E) : list (addr * E) :=
  (λ e, (InnerEdgeData_source e, InnerEdgeData_value e)) <$> InnerData_all_incoming d.

(** The value, the incoming edges and the registry: what other nodes do not
    change. *)
Definition node_view st p : option (N * list (InnerEdgeData E) * option addr) :=
  (λ d, (nd_value d, nd_incoming d, nd_registry d)) <$> node st p.

Lemma node_view_live st st' :
  (∀ q, node_view st' q = node_view st q) → ∀ q, is_Some (node st' q) ↔ is_Some (node st q).
Proof.
  intros Hv q. specialize (Hv q). unfold node_view in Hv.
  destruct (node st' q), (node st q); naive_solver.
Qed.

Lemma new_incoming_pairs p (parents : list (addr * E)) :
  (λ e, (ie_source e, ie_value e)) <$> new_incoming p parents = parents.
Proof.
  unfold new_incoming. rewrite <-list_fmap_compose. rewrite <-(list_fmap_id parents) at 2.
  apply list_fmap_ext. by intros i [q e].
Qed.

(** [RelRc::with_parents], seen this way, only adds a node. *)
Lemma with_parents_view st ow value parents :
  wf st (parent_owners parents ++ ow) →
  ∃ p st', RelRc_with_parents value parents st = Ok (p, st') ∧
    wf st' (NodeStrong p :: ow) ∧ st_nodes st !! p = None ∧
    (∀ q, node_view st' q =
       if decide (q = p) then Some (value, new_incoming p parents, None) else node_view st q) ∧
    (∀ g, registry_at st' g = registry_at st g).
Proof.
  intros Hw. destruct (RelRc_with_parents_spec _ _ value parents Hw) as (p & st' & Heq & Hw' & Hf & Hn & HR).
  exists p, st'. split_and!; try done. intros q. unfold node_view. rewrite Hn.
  case_decide; [done|]. by destruct (node st q).
Qed.

(** ** Copies of the data of a node *)

Lemma clone_edges st0 st ow (l : list (InnerEdgeData E)) :
  same_views st0 st → wf st ow →
  (∀ e, e ∈ l → is_Some (node st0 (ie_source e)) ∧ is_Some (node st0 (ie_target e))) →
  ∃ st', foldM InnerEdgeData_clone st l = Ok st' ∧
    wf st' ((l ≫= edge_refs) ++ ow) ∧ same_views st0 st'.
Proof.
  revert st ow. induction l as [|e l IH]; intros st ow Hv Hw Hl; [by exists st|].
  cbn [foldM]. destruct (Hl e) as [[ds Hs] [dt Ht]]; [left|].
  destruct (rc_clone_wf st ow (ie_source e) ds Hw) as (st1 & Hc & Hw1 & Hv1).
  { by rewrite (proj1 Hv). }
  destruct (rc_new_weak_wf st1 _ (ie_target e) Hw1) as (st2 & Hc2 & Hw2 & Hv2).
  { rewrite <-(proj1 Hv), <-(proj1 Hv1) in Ht. apply node_Some in Ht as (b & ? & _). eauto. }
  unfold InnerEdgeData_clone at 1. rewrite Hc. cbn [rbind]. rewrite Hc2. cbn [rbind].
  destruct (IH st2 (edge_refs e ++ ow)) as (st3 & -> & Hw3 & Hv3).
  - by do 2 (etrans; [done|]).
  - unfold edge_refs; simpl. by rewrite Permutation_swap.
  - intros x Hx. apply Hl. by right.
  - exists st3. split_and!; [done| |done].
    rewrite (Permutation_app_swap_app (l ≫= edge_refs)) in Hw3. exact Hw3.
Qed.

Lemma clone_weak_edges st0 st ow (l : list WeakEdge) :
  same_views st0 st → wf st ow → (∀ e, e ∈ l → is_Some (st_nodes st !! we_target e)) →
  ∃ st', foldM (λ s e, rc_new_weak (we_target e) s) st l = Ok st' ∧
    wf st' ((weak_edge_ref <$> l) ++ ow) ∧ same_views st0 st'.
Proof.
  revert st ow. induction l as [|e l IH]; intros st ow Hv Hw Hl; [by exists st|]. cbn [foldM].
  destruct (rc_new_weak_wf st ow (we_target e) Hw) as (st1 & Heq & Hw1 & Hv1); [apply Hl; left|]. rewrite Heq. cbn [rbind].
  destruct (IH st1 (weak_edge_ref e :: ow)) as (st2 & -> & Hw2 & Hv2); [by etrans|done| |].
  - intros x Hx. unfold rc_new_weak in Heq. destruct (st_nodes st !! we_target e) as [b|] eqn:Hb; [|done].
    injection Heq as <-. simpl. apply lookup_insert_is_Some'. right. apply Hl. by right.
  - exists st2. split_and!; [done| |done]. by rewrite <-Permutation_middle in Hw2.
Qed.

Lemma all_outgoing_weak_spec st ow p d :
  wf st ow → node st p = Some d →
  ∃ st', InnerData_all_outgoing_weak p st = Ok (nd_outgoing d, st') ∧
    wf st' ((weak_edge_ref <$> nd_outgoing d) ++ ow) ∧ same_views st st'.
Proof.
  intros Hw Hd.
  assert (InnerData_all_outgoing_weak p st = with_borrow (OutgoingCell p) (λ s, d ← deref (node s p);
    s' ← foldM (λ s e, rc_new_weak (we_target e) s) s (nd_outgoing d); Ok (nd_outgoing d, s')) st) as ->.
  { unfold InnerData_all_outgoing_weak, InnerData_all_outgoing_weak_ref, with_borrow.
    destruct (RefCell_borrow _ st) as [s|]; [|done]. simpl. destruct (node s p) as [d'|]; [|done]. simpl.
    by destruct (foldM _ _ _). }
  rewrite with_borrow_idle; [|apply Hw|].
  2: { intros m. apply framed_read; [done|]. intros d' _. apply framed_bind_step; [|done].
       apply foldM_framed_step. intros s e. apply rc_new_weak_framed. }
  rewrite Hd. simpl. destruct (clone_weak_edges st st ow (nd_outgoing d)) as (st' & -> & ? & ?); [done|done| |by exists st'].
  intros e He. apply count_weak_alloc. eapply wf_internal_count; [done|]. apply elem_of_internal. left.
  exists p, d. split; [done|]. right. apply elem_of_inner_refs. right. left. by exists e.
Qed.

(** A copy owns what the original owns once more. *)
Lemma InnerData_clone_spec st ow p d :
  wf st ow → node st p = Some d →
  ∃ st', InnerData_clone p st = Ok (d, st') ∧ wf st' (inner_refs d ++ ow) ∧ same_views st st'.
Proof.
  intros Hw Hd. unfold InnerData_clone. rewrite Hd. cbn [deref rbind].
  destruct (clone_edges st st ow (nd_incoming d)) as (st1 & -> & Hw1 & Hv1); [done|done| |].
  { intros e He. split; [by eapply source_live|].
    rewrite (wf_target _ (wf_st_graph _ _ Hw) p d e Hd He). by exists d. }
  cbn [rbind]. rewrite <-(proj1 Hv1) in Hd.
  destruct (all_outgoing_weak_spec st1 _ p d Hw1 Hd) as (st2 & -> & Hw2 & Hv2). cbn [rbind fst snd].
  rewrite <-(proj1 Hv2) in Hd. rewrite with_borrow_idle; [|apply Hw2|].
  2: { intros m. apply framed_read; [done|]. intros d' _. destruct (nd_registry d'); [|done].
       apply framed_bind_step; [apply reg_new_weak_framed|done]. }
  rewrite Hd. cbn [deref rbind]. unfold inner_refs. destruct (nd_registry d) as [g|] eqn:Hg.
  - destruct (reg_new_weak_wf st2 _ g Hw2) as (st3 & -> & Hw3 & Hv3); [by eapply node_registry_alloc|].
    cbn [rbind fst snd]. exists st3. split_and!; [|clear -Hw3|by do 2 (etrans; [done|])].
    + destruct d; simpl in *. by subst.
    + eapply wf_perm; [|exact Hw3]. simpl. rewrite <-!(assoc_L (++)), (Permutation_app_swap_app (weak_edge_ref <$> _)).
      cbn [app]. by rewrite <-!Permutation_middle.
  - exists st2. split_and!; [|clear -Hw2|by etrans].
    + destruct d; simpl in *. by subst.
    + eapply wf_perm; [|exact Hw2]. simpl. rewrite app_nil_r, <-(assoc_L (++)). by rewrite Permutation_app_swap_app.
Qed.

(** But a node made of the copy, by [RelRc::from], would break the links between
    parents and children unless it has no parents. *)
Lemma copied_data_no_parents st ow p q d :
  wf st ow → node st p = Some d → node st q = Some d → p ≠ q → nd_incoming d = [].
Proof.
  intros Hw Hp Hq Hne. destruct (nd_incoming d) as [|e l] eqn:Hl; [done|].
  pose proof (wf_target _ (wf_st_graph _ _ Hw) p d e Hp) as Ht.
  pose proof (wf_target _ (wf_st_graph _ _ Hw) q d e Hq) as Ht'. rewrite Hl in Ht, Ht'.
  rewrite Ht in Ht' by left. destruct Hne. apply Ht'. left.
Qed.
End node_facts.
