(* ===== verification/RegistryFacts.v ===== *)
(** * Specifications of the registry operations *)

From S2P Require Import Prelude Slotmap Store RefCell StoreFacts Rc Registry Drop DropFacts RegistryOps Edge Node NodeFacts.

Section registry_facts.
Context {N E : Type} {S : SlotMapSig} {SLaws : SlotMapLaws S}.
Implicit Types (st : store N E) (p q g : addr) (R : Registry) (k id : NodeId) (ow : list ref).

(** ** Borrowing *)

Lemma with_registry_mut_spec {B} (f : Registry → store N E → result (B * Registry * store N E))
    `{!BorrowFree f} st ow g R (Q : B → Registry → store N E → Prop) :
  wf st ow → registry_at st g = Some R →
  (∀ st1, wf st1 (registry_refs R ++ ow) → (∀ q, node st1 q = node st q) →
     (∀ h, h ≠ g → registry_at st1 h = registry_at st h) →
     registry_at st1 g = Some Registry_new →
     ∃ b R' st2, f R st1 = Ok (b, R', st2) ∧ wf st2 (registry_refs R' ++ ow) ∧
       registry_ok R' ∧ (∀ h, registry_at st2 h = registry_at st1 h) ∧ Q b R' st2) →
  ∃ b R' st2 st', with_registry_mut g f st = Ok (b, st') ∧ wf st' ow ∧ Q b R' st2 ∧
    (∀ q, node st' q = node st2 q) ∧
    (∀ h, registry_at st' h = if decide (h = g) then Some R' else registry_at st h).
Proof.
  intros Hw HR Hf. rewrite with_registry_mut_idle; [|apply Hw|intros; apply borrow_free].
  unfold registry_update. rewrite HR; simpl.
  destruct (put_registry_wf st ow (registry_refs R ++ ow) g R Registry_new Hw HR Registry_new_ok)
    as (st1 & -> & Hw1 & Hn1 & Hr1 & _).
  { intros r. rewrite Registry_new_refs. occ_norm. lia. }
  simpl. destruct (Hf st1) as (b & R' & st2 & -> & Hw2 & Hok & Hr2 & HQ); try done.
  { intros h Hh. by rewrite Hr1, decide_False. }
  { by rewrite Hr1, decide_True. }
  simpl.
  destruct (put_registry_wf st2 _ ow g Registry_new R' Hw2) as (st3 & -> & Hw3 & Hn3 & Hr3 & _); try done.
  { by rewrite Hr2, Hr1, decide_True. }
  { intros r. rewrite Registry_new_refs. occ_norm. lia. }
  simpl. exists b, R', st2, st3. split_and!; try done.
  intros h. rewrite Hr3. case_decide; [done|]. rewrite Hr2, Hr1. by rewrite decide_False.
Qed.

Lemma with_registry_get st ow g R id :
  wf st ow → registry_at st g = Some R → with_registry g (λ R, Registry_get R id) st = Registry_get R id st.
Proof.
  intros Hw. apply (with_registry_idle g (λ R, Registry_get R id)); [apply Hw|]. intros m. apply Registry_get_framed.
Qed.
Lemma with_registry_contains_id st ow g R id :
  wf st ow → registry_at st g = Some R →
  with_registry g (λ R, Registry_contains_id R id) st = Registry_contains_id R id st.
Proof.
  intros Hw. apply (with_registry_idle g (λ R, Registry_contains_id R id)); [apply Hw|].
  intros m. apply Registry_contains_id_framed.
Qed.
Lemma with_registry_clone st ow g R :
  wf st ow → registry_at st g = Some R → with_registry g Registry_clone st = Registry_clone R st.
Proof. intros Hw. apply with_registry_idle; [apply Hw|]. intros m. apply Registry_clone_framed. Qed.

Lemma with_registry_iter st ow g R :
  wf st ow → registry_at st g = Some R → with_registry g Registry_iter st = Registry_iter R st.
Proof. intros Hw. apply with_registry_idle; [apply Hw|]. intros m. apply Registry_iter_framed. Qed.
Lemma with_registry_len st ow g R :
  wf st ow → registry_at st g = Some R →
  with_registry g (λ R s, Ok (Registry_len R, s)) st = Ok (Registry_len R, st).
Proof. intros Hw. by apply (with_registry_idle g (λ R s, Ok (Registry_len R, s))); [apply Hw|]. Qed.

(** Registering a node only adds an id. *)
Lemma added_id R R' p id :
  registry_ok R → registry_ok R' → Registry_get_id R' p = Some id →
  (∀ q, q ≠ p → Registry_get_id R' q = Registry_get_id R q) →
  (∀ k, sm_get k (reg_nodes R') = if decide (k = id) then Some p else sm_get k (reg_nodes R)) →
  ∀ k q, sm_get k (reg_nodes R) = Some q → sm_get k (reg_nodes R') = Some q.
Proof.
  intros HR HR' Hid Hq Hget k q Hk. destruct (decide (q = p)) as [->|Hne].
  - rewrite Hget. by case_decide.
  - apply HR in Hk. apply HR'. rewrite <-Hk. by apply Hq.
Qed.

(** ** Iterating *)

(** [Registry::iter] yields the entries of live nodes, with a new strong reference
    for each. *)
Lemma Registry_iter_loop (l : list (NodeId * addr)) st ow acc :
  wf st ow → (∀ kp, kp ∈ l → NodeWeak kp.2 ∈ internal st) →
  ∃ st', foldM (λ acc kw, up ← rc_upgrade kw.2 acc.2;
      match up.1 with Some p => Ok (acc.1 ++ [(kw.1, p)], up.2) | None => Ok (acc.1, up.2) end)
      (acc, st) l = Ok (acc ++ filter (λ kp, is_Some (node st kp.2)) l, st') ∧
    wf st' ((NodeStrong <$> (filter (λ kp, is_Some (node st kp.2)) l).*2) ++ ow) ∧ same_views st st'.
Proof.
  revert st ow acc. induction l as [|[k p] l IH]; intros st ow acc Hw Hl.
  { exists st. by rewrite app_nil_r. }
  assert (∀ st1 ow1 acc1, wf st1 ow1 → same_views st st1 → ∃ st', foldM (λ acc kw, up ← rc_upgrade kw.2 acc.2;
      match up.1 with Some p => Ok (acc.1 ++ [(kw.1, p)], up.2) | None => Ok (acc.1, up.2) end)
      (acc1, st1) l = Ok (acc1 ++ filter (λ kp, is_Some (node st kp.2)) l, st') ∧
    wf st' ((NodeStrong <$> (filter (λ kp, is_Some (node st kp.2)) l).*2) ++ ow1) ∧ same_views st st') as HI.
  { intros st1 ow1 acc1 Hw1 Hv1. destruct (IH st1 ow1 acc1 Hw1) as (st' & Heq & Hw' & Hv').
    { intros kp Hkp. specialize (Hl kp (list_elem_of_further _ _ _ Hkp)). apply elem_of_internal in Hl.
      apply elem_of_internal. by setoid_rewrite (proj1 Hv1); setoid_rewrite (proj2 Hv1). }
    rewrite (list_filter_iff (λ kp : NodeId * addr, is_Some (node st1 kp.2)) (λ kp, is_Some (node st kp.2))) in Heq, Hw'
      by (intros x; by rewrite (proj1 Hv1)).
    exists st'. split_and!; [done..|by etrans]. }
  cbn [foldM fst snd]. destruct (node st p) as [d|] eqn:Hd.
  - destruct (rc_upgrade_live _ _ _ _ Hw Hd) as (st1 & -> & _ & Hw1 & Hv1). cbn [rbind fst snd].
    destruct (HI _ _ (acc ++ [(k, p)]) Hw1 Hv1) as (st' & -> & Hw' & Hv'). exists st'.
    rewrite filter_cons_True by (simpl; by rewrite Hd). csimpl. rewrite <-(assoc_L (++)). split_and!; [done| |done].
    by rewrite Permutation_middle.
  - rewrite (rc_upgrade_dead _ _ _ Hw); [|apply count_weak_alloc; eapply wf_internal_count; [done|]; apply (Hl (k, p)); left|done].
    cbn [rbind fst snd]. rewrite filter_cons_False by (simpl; rewrite Hd; by intros [??]). by apply HI.
Qed.

Lemma Registry_iter_spec st ow g R :
  wf st ow → registry_at st g = Some R →
  ∃ l st', Registry_iter R st = Ok (l, st') ∧ wf st' ((NodeStrong <$> l.*2) ++ ow) ∧ same_views st st' ∧
    NoDup l.*1 ∧ ∀ k p, (k, p) ∈ l ↔ sm_get k (reg_nodes R) = Some p ∧ is_Some (node st p).
Proof.
  intros Hw HR. destruct (Registry_iter_loop (sm_iter (reg_nodes R)) st ow [] Hw) as (st' & Heq & Hw' & Hv).
  { intros [k p] Hkp%sm_iter_get. apply elem_of_internal. right. exists g, R. split; [done|]. right.
    apply elem_of_registry_refs. by exists k, p. }
  eexists _, st'. split; [exact Heq|]. simpl. split_and!; [done..| |].
  - apply NoDup_fmap_filter, sm_iter_NoDup.
  - intros k p. rewrite list_elem_of_filter, sm_iter_get. naive_solver.
Qed.

(** ** Resolving ids *)

Lemma registry_refs_alloc st ow R k p :
  wf st (registry_refs R ++ ow) → sm_get k (reg_nodes R) = Some p → is_Some (st_nodes st !! p).
Proof.
  intros Hw Hk. apply count_weak_alloc. eapply wf_owned_count; [done|].
  apply elem_of_app. left. apply elem_of_registry_refs. eauto.
Qed.

(** What an id stands for: the registered node, if it is alive. *)
Definition resolve st R id : option addr :=
  match sm_get id (reg_nodes R) with
  | Some p => if node st p then Some p else None
  | None => None
  end.

Lemma resolve_Some st R id p :
  resolve st R id = Some p ↔ sm_get id (reg_nodes R) = Some p ∧ is_Some (node st p).
Proof.
  unfold resolve. destruct (sm_get id (reg_nodes R)) as [q|]; [|naive_solver].
  destruct (node st q) eqn:Hq; split; try naive_solver.
  intros [[= ->] [? ?]]. congruence.
Qed.

(** [Registry::get] of an id that stands for a live node returns a new strong
    reference to it; of any other id nothing. *)
Lemma Registry_get_spec st ow R id :
  wf st ow → (∀ p, sm_get id (reg_nodes R) = Some p → is_Some (st_nodes st !! p)) →
  ∃ st', Registry_get R id st = Ok (resolve st R id, st') ∧
    wf st' ((NodeStrong <$> option_list (resolve st R id)) ++ ow) ∧ same_views st st'.
Proof.
  intros Hw Hal. unfold Registry_get, resolve.
  destruct (sm_get id (reg_nodes R)) as [p|] eqn:Hid; [|by exists st].
  destruct (rc_new_weak_wf st ow p Hw) as (st1 & -> & Hw1 & Hv1); [by apply Hal|]. simpl.
  assert (is_Some (st_nodes st1 !! p)) as Hal1.
  { apply count_weak_alloc. eapply wf_owned_count; [done|]. left. }
  destruct (node st p) as [d|] eqn:Hp; pose proof Hv1 as [Hn1 _].
  - destruct (rc_upgrade_live st1 _ p d Hw1) as (st2 & -> & _ & Hw2 & Hv2); [by rewrite Hn1|].
    simpl. destruct (drop_refs_weak st2 [NodeWeak p] (NodeStrong p :: ow)) as (st3 & -> & Hw3 & Hv3).
    { eapply wf_perm; [|exact Hw2]. constructor. }
    { intros r ->%list_elem_of_singleton. eauto. }
    simpl. exists st3. split_and!; try done. etrans; [|done]. by etrans.
  - rewrite (rc_upgrade_dead st1 _ p Hw1 Hal1) by (by rewrite Hn1). simpl.
    destruct (drop_refs_weak st1 [NodeWeak p] ow Hw1) as (st3 & -> & Hw3 & Hv3).
    { intros r ->%list_elem_of_singleton. eauto. }
    simpl. exists st3. split_and!; try done. by etrans.
Qed.

Lemma Registry_contains_id_spec st ow R id :
  wf st ow → (∀ p, sm_get id (reg_nodes R) = Some p → is_Some (st_nodes st !! p)) →
  ∃ st', Registry_contains_id R id st = Ok (if resolve st R id then true else false, st') ∧
    wf st' ow ∧ same_views st st'.
Proof.
  intros Hw Hal. unfold Registry_contains_id.
  destruct (Registry_get_spec st ow R id Hw Hal) as (st1 & -> & Hw1 & Hv1). simpl.
  destruct (resolve st R id) as [p|] eqn:Hres; [|by exists st1].
  apply resolve_Some in Hres as [_ [d Hd]].
  destruct (drop_refs_redundant st1 [NodeStrong p] ow Hw1) as (st2 & Hd2 & Hw2 & Hv2).
  { intros r ->%list_elem_of_singleton. eexists. split; [done|].
    eapply held_same_views; [done|]. by eapply live_held. }
  unfold drop_refs in Hd2; simpl in Hd2. unfold drop_relrc. rewrite Hd2. simpl.
  exists st2. split_and!; try done. by etrans.
Qed.

(** ** Freeing dead ids *)

Definition dead_entry st (kw : NodeId * addr) : Prop := node st kw.2 = None.
#[local] Instance dead_entry_dec st kw : Decision (dead_entry st kw).
Proof. unfold dead_entry. destruct (node st kw.2); [by right|by left]. Defined.

Lemma collect_dead_loop l acc st0 st ow :
  wf st ow → same_views st0 st → (∀ kw, kw ∈ l → is_Some (st_nodes st0 !! kw.2)) →
  (∀ q, is_Some (st_nodes st0 !! q) → is_Some (st_nodes st !! q)) →
  foldM collect_dead (acc, st) l = Ok (acc ++ filter (dead_entry st0) l, st).
Proof.
  revert acc. induction l as [|kw l IH]; intros acc Hw Hv Hal Hal'.
  { simpl. by rewrite filter_nil, app_nil_r. }
  simpl. unfold collect_dead at 1; simpl.
  pose proof Hv as [Hn _]. rewrite filter_cons.
  destruct (node st0 kw.2) as [d|] eqn:Hd.
  - destruct (rc_upgrade_live st ow kw.2 d Hw) as (st1 & -> & Hcl & _ & _); [by rewrite Hn|]. simpl.
    rewrite (clone_drop_id st st1 kw.2 ow Hw Hcl). simpl.
    rewrite decide_False by (unfold dead_entry; congruence). apply IH; set_solver.
  - rewrite (rc_upgrade_dead st ow kw.2 Hw) by (rewrite ?Hn; set_solver). simpl.
    rewrite decide_True by done. rewrite IH by set_solver.
    by rewrite <-(assoc_L (++)).
Qed.

Lemma remove_slot_loop l (m : SlotMap addr) st ow :
  wf st (((λ kp, NodeWeak kp.2) <$> sm_iter m) ++ ow) → NoDup l →
  ∃ m' st', foldM remove_slot (m, st) l = Ok (m', st') ∧
    wf st' (((λ kp, NodeWeak kp.2) <$> sm_iter m') ++ ow) ∧ same_views st st' ∧
    (∀ k, sm_get k m' = if decide (k ∈ l) then None else sm_get k m).
Proof.
  revert m st. induction l as [|id l IH]; intros m st Hw Hl; simpl.
  { by exists m, st. }
  apply NoDup_cons in Hl as [Hid Hl]. unfold remove_slot at 1; simpl. rewrite sm_remove_result.
  assert (∃ st1, drop_refs (NodeWeak <$> option_list (sm_get id m)) st = Ok st1 ∧
    wf st1 (((λ kp, NodeWeak kp.2) <$> sm_iter (sm_remove id m).2) ++ ow) ∧ same_views st st1)
    as (st1 & -> & Hw1 & Hv1).
  { apply drop_refs_weak.
    - eapply wf_perm; [|exact Hw]. destruct (sm_get id m) as [p|] eqn:Hg; simpl.
      + by rewrite (sm_iter_remove id p m Hg).
      + by rewrite (sm_iter_remove_None id m Hg).
    - intros r (p & -> & _)%list_elem_of_fmap. eauto. }
  simpl. destruct (IH (sm_remove id m).2 st1 Hw1 Hl) as (m' & st2 & -> & Hw2 & Hv2 & Hget).
  exists m', st2. split_and!; try done; [by etrans|].
  intros k. rewrite Hget, sm_remove_get. repeat case_decide; set_solver.
Qed.

Lemma foldl_delete_lookup (l : list addr) (m : gmap addr NodeId) p :
  foldl (λ m p, delete p m) m l !! p = if decide (p ∈ l) then None else m !! p.
Proof.
  revert m. induction l as [|q l IH]; intros m; simpl; [done|].
  rewrite IH, lookup_delete. repeat case_decide; set_solver.
Qed.

(** [Registry::remove] removes one entry, from both maps. *)
Lemma Registry_remove_drop_spec st ow R id :
  wf st (registry_refs R ++ ow) → registry_ok R →
  ∃ st', Registry_remove_drop R id st = Ok (tt, (Registry_remove R id).2, st') ∧
    wf st' (registry_refs (Registry_remove R id).2 ++ ow) ∧ same_views st st'.
Proof.
  intros Hw HR. unfold Registry_remove_drop. rewrite Registry_remove_result.
  destruct (drop_refs_weak st (NodeWeak <$> option_list (sm_get id (reg_nodes R)))
    (registry_refs (Registry_remove R id).2 ++ ow)) as (st' & -> & Hw' & Hv').
  - destruct (sm_get id (reg_nodes R)) as [p|] eqn:Hid; simpl.
    + by rewrite (Registry_remove_refs R id p Hid) in Hw.
    + unfold Registry_remove. rewrite sm_remove_result, Hid. unfold registry_refs in *. simpl.
      by rewrite <-(sm_iter_remove_None id _ Hid).
  - intros r (p & -> & _)%list_elem_of_fmap. eauto.
  - by exists st'.
Qed.

(** [Registry::free_node_ids] removes exactly the entries of dead nodes, from
    both maps, and returns how many are left. *)
Lemma Registry_free_node_ids_spec st ow R :
  wf st (registry_refs R ++ ow) → registry_ok R →
  ∃ R' st', Registry_free_node_ids R st = Ok (Registry_len R', R', st') ∧
    wf st' (registry_refs R' ++ ow) ∧ registry_ok R' ∧ same_views st st' ∧
    (∀ k, sm_get k (reg_nodes R') = resolve st R k).
Proof.
  intros Hw HR. unfold Registry_free_node_ids.
  set (dead := filter (dead_entry st) (sm_iter (reg_nodes R))).
  rewrite (collect_dead_loop _ [] st st _ Hw); try done.
  2: { intros [k p] Hk%sm_iter_get. by eapply registry_refs_alloc. }
  simpl. fold dead.
  assert (∀ k p, (k, p) ∈ dead ↔ sm_get k (reg_nodes R) = Some p ∧ node st p = None) as Hdead.
  { intros k p. unfold dead. rewrite list_elem_of_filter, sm_iter_get. naive_solver. }
  destruct (remove_slot_loop (dead.*1) (reg_nodes R) st ow Hw) as (m' & st' & -> & Hw' & Hv & Hget).
  { apply NoDup_fmap_filter, sm_iter_NoDup. }
  simpl. set (R' := mkRegistry m' _). exists R', st'. split; [done|].
  assert (∀ k, sm_get k (reg_nodes R') = resolve st R k) as Hres.
  { intros k. simpl. rewrite Hget. unfold resolve. case_decide as Hk.
    - apply list_elem_of_fmap in Hk as ([k' p] & -> & [Hg Hp]%Hdead). simpl. by rewrite Hg, Hp.
    - destruct (sm_get k (reg_nodes R)) as [p|] eqn:Hg; [|done].
      destruct (node st p) eqn:Hp; [done|]. destruct Hk. apply list_elem_of_fmap.
      exists (k, p). split; [done|]. by apply Hdead. }
  split_and!; try done.
  intros k p. rewrite Hres, resolve_Some. simpl. rewrite foldl_delete_lookup, (HR k p).
  case_decide as Hp.
  - apply list_elem_of_fmap in Hp as ([k' p'] & -> & [Hg Hp]%Hdead). simpl in *.
    rewrite Hp. split; [by intros [_ []]|done].
  - split; [by intros [? _]|]. intros Hk. split; [done|].
    destruct (node st p) eqn:Hn; [by eauto|]. destruct Hp. apply list_elem_of_fmap.
    exists (k, p). split; [done|]. apply Hdead. split; [|done]. by apply HR.
Qed.

(** ** Registering nodes *)

Implicit Types d : InnerData N E.

Lemma set_registry_same d o : nd_registry d = o → set_registry d o = d.
Proof. intros <-. by destruct d. Qed.

Lemma try_set_register_taken st ow p g d R h :
  wf st ow → node st p = Some d → registry_at st g = Some R → nd_registry d = Some h →
  ∃ st', RelRc_try_set_register p g st = Ok (bool_decide (h = g), st') ∧
    wf st' ow ∧ same_views st st'.
Proof.
  intros Hw Hp Hg Hd. rewrite try_set_register_idle by apply Hw.
  destruct (reg_new_weak_wf st ow g Hw) as (st1 & -> & Hw1 & Hv1).
  { apply registry_at_Some in Hg as (b & -> & _). eauto. }
  simpl. pose proof Hv1 as [Hn1 _]. rewrite Hn1, Hp; simpl. rewrite Hd.
  destruct (drop_refs_weak st1 [RegWeak g] ow Hw1) as (st2 & -> & Hw2 & Hv2).
  { intros r ->%list_elem_of_singleton. eauto. }
  simpl. exists st2. split_and!; try done. by etrans.
Qed.

Lemma wf_graph_set_registry st ow p d o :
  wf st ow → node st p = Some d →
  wf_graph (λ q, if decide (q = p) then Some (set_registry d o) else node st q).
Proof.
  intros Hw Hp. eapply wf_graph_shrink; [|apply Hw]. intros q dq.
  case_decide; [|by eauto]. intros [= <-]. subst. eauto.
Qed.

Lemma try_set_register_free st ow p g d R :
  wf st ow → node st p = Some d → registry_at st g = Some R → nd_registry d = None →
  ∃ st', RelRc_try_set_register p g st = Ok (true, st') ∧ wf st' ow ∧
    (∀ q, node st' q = if decide (q = p) then Some (set_registry d (Some g)) else node st q) ∧
    (∀ h, registry_at st' h = registry_at st h).
Proof.
  intros Hw Hp Hg Hd. rewrite try_set_register_idle by apply Hw.
  destruct (reg_new_weak_wf st ow g Hw) as (st1 & -> & Hw1 & [Hn1 Hr1]).
  { apply registry_at_Some in Hg as (b & -> & _). eauto. }
  simpl. rewrite Hn1, Hp; simpl. rewrite Hd.
  destruct (put_node_wf st1 _ ow p d (set_registry d (Some g)) Hw1)
    as (st2 & -> & Hw2 & Hn2 & Hr2 & _).
  { by rewrite Hn1. }
  { unfold inner_refs; simpl. rewrite Hd. balance. }
  { eapply wf_graph_set_registry; [done|]. by rewrite Hn1. }
  simpl. exists st2. split_and!; try done.
  - intros q. rewrite Hn2, Hn1. done.
  - intros h. by rewrite Hr2.
Qed.

(** Both cases in which the node may be registered in [g]. *)
Lemma try_set_register_ok st ow p g d R :
  wf st ow → node st p = Some d → registry_at st g = Some R →
  nd_registry d = None ∨ nd_registry d = Some g →
  ∃ st', RelRc_try_set_register p g st = Ok (true, st') ∧ wf st' ow ∧
    (∀ q, node st' q = if decide (q = p) then Some (set_registry d (Some g)) else node st q) ∧
    (∀ h, registry_at st' h = registry_at st h).
Proof.
  intros Hw Hp Hg [Hd|Hd]; [by eapply try_set_register_free|].
  destruct (try_set_register_taken st ow p g d R g Hw Hp Hg Hd) as (st' & Heq & Hw' & [Hn Hr]).
  rewrite bool_decide_true in Heq by done. exists st'. split_and!; try done.
  intros q. rewrite Hn. case_decide; [|done]. subst. by rewrite set_registry_same.
Qed.

(** The two outcomes of [RelRc::try_register_in]. *)
Lemma try_register_in_other st ow p g d R h :
  wf st ow → node st p = Some d → registry_at st g = Some R → nd_registry d = Some h → h ≠ g →
  ∃ st', RelRc_try_register_in p g st = Ok (None, st') ∧ wf st' ow ∧ same_views st st'.
Proof.
  intros Hw Hp Hg Hd Hne. unfold RelRc_try_register_in.
  destruct (try_set_register_taken st ow p g d R h Hw Hp Hg Hd) as (st' & -> & ? & ?).
  simpl. rewrite bool_decide_false by done. eauto.
Qed.

Lemma try_register_in_ok st ow p g d R :
  wf st ow → node st p = Some d → registry_at st g = Some R →
  nd_registry d = None ∨ nd_registry d = Some g →
  ∃ id R' st', RelRc_try_register_in p g st = Ok (Some id, st') ∧ wf st' ow ∧
    (∀ q, node st' q = if decide (q = p) then Some (set_registry d (Some g)) else node st q) ∧
    (∀ h, registry_at st' h = if decide (h = g) then Some R' else registry_at st h) ∧
    registry_ok R' ∧ Registry_get_id R' p = Some id ∧
    (∀ q, q ≠ p → Registry_get_id R' q = Registry_get_id R q) ∧
    (∀ k, sm_get k (reg_nodes R') = if decide (k = id) then Some p else sm_get k (reg_nodes R)) ∧
    (is_Some (Registry_get_id R p) → R' = R).
Proof.
  intros Hw Hp Hg Hd. unfold RelRc_try_register_in.
  destruct (try_set_register_ok st ow p g d R Hw Hp Hg Hd) as (st1 & -> & Hw1 & Hn1 & Hr1). simpl.
  pose proof (wf_st_regs _ _ Hw g R Hg) as HRok.
  destruct (with_registry_mut_spec (λ R, Registry_add_node R p) st1 ow g R
    (λ id R' st2, (∀ q, node st2 q = node st1 q) ∧ registry_ok R' ∧ Registry_get_id R' p = Some id ∧
      (∀ q, q ≠ p → Registry_get_id R' q = Registry_get_id R q) ∧
      (∀ k, sm_get k (reg_nodes R') = if decide (k = id) then Some p else sm_get k (reg_nodes R)) ∧
      (is_Some (Registry_get_id R p) → R' = R)) Hw1)
    as (id & R' & st2 & st' & -> & Hw' & (Hn2 & HQ) & Hn' & Hr'); simpl.
  { by rewrite Hr1. }
  { intros st2 Hw2 Hn2 _ _.
    destruct (Registry_add_node_spec st2 ow R p (set_registry d (Some g)) Hw2 HRok)
      as (id & R' & st3 & -> & Hw3 & Hok & [Hn3 Hr3] & Hid & Hother & Hget & Hsame).
    { by rewrite Hn2, Hn1, decide_True. }
    exists id, R', st3. split_and!; try done.
    - intros q. by rewrite Hn3.
    - intros Hs. by destruct (Hsame Hs). }
  exists id, R', st'. split_and!; try done; try (by apply HQ).
  - intros q. by rewrite Hn', Hn2, Hn1.
  - intros h. rewrite Hr', Hr1. done.
Qed.

(** ** Freeing the id of a node that goes *)

Lemma drop_frees_id st st' p d g R k :
  (∀ g R, registry_at st' g = Some R → registry_ok R) →
  drop_inv st st' [] → node st p = Some d → nd_registry d = Some g →
  node st' p = None → registry_at st' g = Some R →
  Registry_get_id R p = None ∧ sm_get k (reg_nodes R) ≠ Some p.
Proof.
  intros Hok' Hinv Hp Hd Hdead HR.
  pose proof (di_freed _ _ _ Hinv p d g R Hp Hd (or_introl Hdead) HR) as Hf.
  split; [done|]. intros Hk. apply (Hok' g R HR) in Hk. unfold Registry_get_id in Hf. congruence.
Qed.

(** Entries of nodes that stay alive stay. *)
Lemma drop_keeps_id st st' ext g R k p :
  wf st' ext → drop_inv st st' [] → RegStrong g ∈ ext → registry_at st g = Some R →
  sm_get k (reg_nodes R) = Some p → is_Some (node st' p) →
  ∃ R', registry_at st' g = Some R' ∧ sm_get k (reg_nodes R') = Some p.
Proof.
  intros Hw Hinv Hg HR Hk [d Hd]. destruct (reg_owner_live _ _ _ Hw Hg) as [R' HR'].
  exists R'. split; [done|]. destruct (di_regs _ _ _ Hinv g R' HR') as (R0 & HR0 & _ & Hlost).
  simplify_eq. destruct (Hlost k p Hk) as [?|[?|Hx]]; [done|congruence|].
  by apply elem_of_nil in Hx.
Qed.

(** A node that was just created is in no registry, whatever was registered
    under its address before. *)
Lemma fresh_not_registered st ow g R p :
  wf st ow → registry_at st g = Some R → st_nodes st !! p = None → Registry_get_id R p = None.
Proof.
  intros Hw HR Hp. destruct (Registry_get_id R p) as [k|] eqn:Hk; [|done].
  apply registry_ok_get_id in Hk; [|by eapply wf_st_regs].
  destruct (registered_alloc _ _ _ _ _ _ Hw HR Hk) as [b Hb]. congruence.
Qed.
End registry_facts.
