(* ===== verification/Guards.v ===== *)
(** * Guards of [RefCell]s

    What calls do while a guard that [RefCell::borrow] gave is alive: those that
    would write to the cell panic, the others do what they do without it. *)

From S2P Require Import Prelude Slotmap Store RefCell StoreFacts Rc Registry Drop DropFacts RegistryOps Edge Node NodeFacts RegistryFacts.

(** The panic of [RefCell::borrow_mut]. *)
Definition already_borrowed {B} : result B := Err (Panic "already borrowed: BorrowMutError").

Section guards.
Context {N E : Type} {S : SlotMapSig} {SLaws : SlotMapLaws S} {A : Allocator}.
Implicit Types (st : store N E) (c : cell) (m : gmap cell Z) (p q g : addr) (ow : list ref).

Lemma with_borrow_mut_busy {B} c (f : store N E → result (B * store N E)) st :
  borrow_flag c st ≠ 0%Z → with_borrow_mut c f st = already_borrowed.
Proof. intros Hc. unfold with_borrow_mut, RefCell_borrow_mut. by rewrite decide_False. Qed.

Lemma with_borrow_mut_framed {B} c (f : store N E → result (B * store N E)) m st :
  st_borrows st = ∅ → m !! c = None → (∀ m, framed m f st) → framed m (with_borrow_mut c f) st.
Proof.
  intros Hb Hm Hf. unfold framed. rewrite (with_borrow_mut_idle c f st) by done.
  unfold with_borrow_mut, RefCell_borrow_mut, borrow_flag. simpl. rewrite Hm. simpl.
  unfold set_flag. rewrite set_borrows_twice. simpl. rewrite Hf. destruct (f st) as [[b s]|]; [|done]. simpl.
  by rewrite (RefMut_drop_last c _ m).
Qed.

Lemma read_borrow_guarded {B} c (f : store N E → result B) m st :
  (0 ≤ default 0 (m !! c))%Z → (∀ m, f (set_borrows m st) = f st) → read_borrow c f (set_borrows m st) = f st.
Proof.
  intros Hm Hf. unfold read_borrow, RefCell_borrow, borrow_flag. simpl. rewrite decide_False by lia.
  simpl. unfold set_flag. rewrite set_borrows_twice. apply Hf.
Qed.

(** ** Outgoing edges *)

Lemma push_outgoing_framed m st (ie : nat * InnerEdgeData E) :
  st_borrows st = ∅ → m !! OutgoingCell (ie_source ie.2) = None →
  framed_step m (λ s, push_outgoing s ie) st.
Proof.
  intros Hb Hm. unfold framed_step, push_outgoing.
  rewrite with_borrow_mut_framed; [|done|done|intros; apply push_framed].
  by destruct (with_borrow_mut _ _ st).
Qed.

Lemma push_loop_framed m l st :
  st_borrows st = ∅ → (∀ ie, ie ∈ l → m !! OutgoingCell (ie_source ie.2) = None) →
  framed_step m (λ s, foldM push_outgoing s l) st.
Proof.
  revert st. induction l as [|ie l IH]; intros st Hb Hm; [done|]. unfold framed_step. simpl.
  rewrite (push_outgoing_framed m st ie Hb) by (apply Hm; left).
  destruct (push_outgoing st ie) as [s|] eqn:Hs; [|done]. apply IH; [|intros; apply Hm; by right].
  rewrite <-Hb. eapply (framed_step_borrows (λ s, push_outgoing s ie)); [|done].
  apply push_outgoing_framed; [done|]. by rewrite Hb.
Qed.
Lemma push_loop_busy p l st st' :
  st_borrows st = ∅ → foldM push_outgoing st l = Ok st' → p ∈ (λ ie, ie_source ie.2) <$> l →
  foldM push_outgoing (set_borrows {[OutgoingCell p := 1%Z]} st) l = already_borrowed.
Proof.
  revert st. induction l as [|ie l IH]; intros st Hb; [by intros _ ?%elem_of_nil|]. csimpl.
  destruct (push_outgoing st ie) as [s|] eqn:Hs; [|done]. simpl. intros Hl Hin.
  destruct (decide (ie_source ie.2 = p)) as [Hp|Hp].
  - unfold push_outgoing. rewrite with_borrow_mut_busy; [done|]. unfold borrow_flag. simpl.
    unfold InnerEdgeData_source. by rewrite Hp, lookup_singleton_eq.
  - assert (({[OutgoingCell p := 1%Z]} : gmap cell Z) !! OutgoingCell (ie_source ie.2) = None) as Hm.
    { apply lookup_singleton_ne. congruence. }
    rewrite (push_outgoing_framed _ st ie Hb Hm), Hs. simpl. apply IH; [|done|set_solver].
    rewrite <-Hb. eapply (framed_step_borrows (λ s, push_outgoing s ie)); [|done].
    apply push_outgoing_framed; [done|]. by rewrite Hb.
Qed.

Lemma with_parents_guarded st ow p value parents :
  wf st (parent_owners parents ++ ow) →
  RelRc_with_parents value parents (set_borrows {[OutgoingCell p := 1%Z]} st) =
    if decide (p ∈ parents.*1) then already_borrowed else
    r ← RelRc_with_parents value parents st; Ok (r.1, set_borrows {[OutgoingCell p := 1%Z]} r.2).
Proof.
  intros Hw. destruct (RelRc_with_parents_spec st ow value parents Hw) as (q & st' & Heq & _).
  revert Heq. unfold RelRc_with_parents, register_outgoing_edges. simpl.
  set (inc := (λ pe, InnerEdgeData_new pe.2 pe.1 _) <$> parents). set (l := zip _ inc).
  change (set_node ?q ?b (set_borrows ?m st)) with (set_borrows m (set_node q b st)).
  set (st1 := set_node _ _ st). assert (st_borrows st1 = ∅) as Hb by apply Hw.
  assert ((λ ie : nat * InnerEdgeData E, ie_source ie.2) <$> l = parents.*1) as Hl.
  { transitivity (ie_source <$> l.*2); [by rewrite <-list_fmap_compose|].
    unfold l. rewrite snd_zip by (by rewrite length_seq). unfold inc. by rewrite <-list_fmap_compose. }
  destruct (foldM push_outgoing st1 l) as [s|] eqn:Hs; [|done]. intros _. case_decide as Hp.
  - by rewrite (push_loop_busy p l st1 s Hb Hs) by (by rewrite Hl).
  - rewrite (push_loop_framed _ l st1 Hb), Hs; [done|]. intros ie Hie. apply lookup_singleton_ne.
    intros [= ->]. apply Hp. rewrite <-Hl. by apply (list_elem_of_fmap_2 (λ ie, ie_source ie.2)).
Qed.

Lemma all_outgoing_guarded st p q :
  st_borrows st = ∅ → is_Some (node st q) →
  InnerData_all_outgoing q (set_borrows {[OutgoingCell p := 1%Z]} st) =
    if decide (q = p) then already_borrowed else
    r ← InnerData_all_outgoing q st; Ok (r.1, set_borrows {[OutgoingCell p := 1%Z]} r.2).
Proof.
  intros Hb [d Hd]. unfold InnerData_all_outgoing.
  rewrite (read_borrow_idle _ _ st) by done. rewrite read_borrow_guarded; [|by destruct (decide (q = p)) as [->|];
    [rewrite lookup_singleton_eq|rewrite lookup_singleton_ne by congruence]|done].
  rewrite Hd. simpl. case_decide as Hq.
  - subst. apply with_borrow_mut_busy. unfold borrow_flag. simpl. by rewrite lookup_singleton_eq.
  - rewrite with_borrow_mut_framed; [done|done|apply lookup_singleton_ne; congruence|].
    intros m. apply (framed_read _ (λ s, deref (node s q))); [done|]. intros; apply retain_outgoing_framed.
Qed.

(** ** Registries *)

Lemma drop_reg_weak_framed m g st : framed_step m (drop_refs [RegWeak g]) st.
Proof.
  unfold framed_step, drop_refs, drop_all, total_weight. simpl. unfold drop_reg_weak; simpl.
  destruct (st_regs st !! g) as [b|]; [|done]. simpl.
  destruct (rc_weak b) as [|[|w]]; simpl; [done|by rewrite !drop_loop_nil..].
Qed.

Lemma registered_id_guarded st g p :
  registered_id g p (set_borrows {[RegistryCell g := 1%Z]} st) =
    (R ← deref (registry_at st g); Ok (Registry_get_id R p)).
Proof. unfold registered_id. by rewrite read_borrow_guarded; [|rewrite lookup_singleton_eq|]. Qed.

(** Only the last step of the registration needs the registry. *)
Lemma try_set_register_framed g p st :
  st_borrows st = ∅ →
  framed {[RegistryCell g := 1%Z]} (RelRc_try_set_register p g) st.
Proof.
  intros Hb. unfold framed, RelRc_try_set_register. rewrite reg_new_weak_framed.
  destruct (reg_new_weak g st) as [s|] eqn:Hs; [|done]. simpl.
  assert (st_borrows s = ∅) as Hbs.
  { rewrite <-Hb. exact (framed_step_borrows _ _ _ (reg_new_weak_framed _ _ _) Hs). }
  rewrite read_borrow_guarded by (by rewrite ?lookup_singleton_ne). rewrite read_borrow_idle by done.
  destruct (node s p) as [d|]; [|done]. simpl. destruct (nd_registry d) as [h|].
  - rewrite drop_reg_weak_framed. by destruct (drop_refs _ s).
  - unfold replace_register. rewrite with_borrow_mut_framed; [|done|by rewrite lookup_singleton_ne|].
    { by destruct (with_borrow_mut _ _ s). }
    intros m. apply (framed_read _ (λ s, deref (node s p))); [done|]. intros d' _.
    apply framed_bind_step; [apply put_node_framed|done].
Qed.

Lemma try_register_guarded st ow p g d R :
  wf st ow → node st p = Some d → registry_at st g = Some R → nd_registry d = None ∨ nd_registry d = Some g →
  RelRc_try_register_in p g (set_borrows {[RegistryCell g := 1%Z]} st) = already_borrowed.
Proof.
  intros Hw Hd HR Hreg. unfold RelRc_try_register_in. rewrite try_set_register_framed by apply Hw.
  destruct (try_set_register_ok st ow p g d R Hw Hd HR Hreg) as (s & -> & _). simpl.
  unfold with_registry_mut. rewrite with_borrow_mut_busy; [done|]. unfold borrow_flag. simpl.
  by rewrite lookup_singleton_eq.
Qed.

(** [drop] of the last reference to a registered node. *)
Lemma unregister_busy m st s p g R id :
  m !! RegistryCell g = Some 1%Z → reg_upgrade g st = Ok (Some g, s) → registry_at s g = Some R →
  Registry_get_id R p = Some id → RelRc_unregister p g (set_borrows m st) = already_borrowed.
Proof.
  intros Hm Hup HR Hid. unfold RelRc_unregister. rewrite reg_upgrade_framed, Hup. simpl.
  unfold registered_id. rewrite read_borrow_guarded; [|by rewrite Hm|done]. rewrite HR. simpl. rewrite Hid.
  unfold remove_id. rewrite with_borrow_mut_busy; [done|]. unfold borrow_flag. simpl. by rewrite Hm.
Qed.

Lemma drop_last_guarded st ow p g d R id :
  wf st (NodeStrong p :: ow) → node st p = Some d → nd_registry d = Some g → registry_at st g = Some R →
  Registry_get_id R p = Some id → count st (NodeStrong p) = 1 →
  drop_relrc p (set_borrows {[RegistryCell g := 1%Z]} st) = already_borrowed.
Proof.
  intros Hw Hd Hg HR Hid Hc.
  destruct (put_node_wf st _ (RegWeak g :: NodeStrong p :: ow) p d (clear_registry d) Hw Hd)
    as (s1 & Hs1 & Hw1 & _ & Hr1 & _).
  { unfold inner_refs; simpl. rewrite Hg. balance. }
  { eapply wf_graph_shrink; [|apply Hw]. intros q dq. case_decide; [|by eauto]. intros [= <-]. subst. eauto. }
  destruct (reg_upgrade_live s1 _ g R Hw1) as (s2 & Hup & _ & _ & _ & Hr2); [by rewrite Hr1|].
  apply node_Some in Hd as Hcell. destruct Hcell as (b & Hp & Hb). simpl in Hc. rewrite Hp in Hc. simpl in Hc.
  unfold drop_relrc, drop_all, total_weight. simpl. unfold RelRc_drop. simpl. rewrite Hp. simpl.
  rewrite decide_False by lia.
  unfold with_borrow_mut, RefCell_borrow_mut, borrow_flag. simpl. rewrite lookup_singleton_ne by done. simpl.
  unfold set_flag. simpl. rewrite set_borrows_twice.
  change (node (set_borrows ?m st) p) with (node st p). rewrite Hd. simpl. rewrite Hg.
  rewrite put_node_framed, Hs1. simpl.
  rewrite (unregister_busy _ s1 s2 p g R id); [done| |done| |done].
  - by rewrite lookup_insert_ne, lookup_singleton_eq.
  - by rewrite Hr2, Hr1.
Qed.
Lemma drop_shared_guarded st p m :
  1 < count st (NodeStrong p) → ∃ s, drop_relrc p st = Ok s ∧ drop_relrc p (set_borrows m st) = Ok (set_borrows m s).
Proof.
  simpl. destruct (st_nodes st !! p) as [b|] eqn:Hp; simpl; [|lia]. intros Hc.
  eexists. split; [by apply (drop_relrc_shared p b)|]. exact (drop_relrc_shared p b (set_borrows m st) Hp Hc).
Qed.
End guards.
