(* ===== verification/Ancestors.v ===== *)
(** * [RelRc::all_ancestors]

    The iterator is a breadth-first walk that ends at the first node it meets
    for the second time.  What it yields is sound; it is complete when no
    ancestor is reached along two edges. *)

From S2P Require Import Prelude Slotmap Store StoreFacts Rc Registry Drop DropFacts RegistryOps Edge Node NodeFacts.

Section ancestors.
Context {N E : Type} {S : SlotMapSig}.
Implicit Types (st : store N E) (p q x y : addr) (d : InnerData N E) (ow : list ref).

Lemma elem_of_all_parents st q d y :
  node st q = Some d → y ∈ InnerData_all_parents d ↔ parent_of st y q.
Proof.
  intros Hq. unfold InnerData_all_parents, InnerData_all_incoming, InnerEdgeData_source.
  rewrite list_elem_of_fmap. split.
  - intros (e & -> & He). by exists d, e.
  - intros (d' & e & ? & He & <-). simplify_eq. eauto.
Qed.

(** The walk so far: [out] has been yielded, [stack] is waiting. *)
Record walk st p (out stack : list addr) : Prop := {
  walk_NoDup : NoDup out;
  walk_out x : x ∈ out → ancestor_of st x p;
  walk_stack x : x ∈ stack → ancestor_of st x p;
  walk_closed x y : x ∈ out → parent_of st y x → y ∈ out ∨ y ∈ stack;
}.

Lemma walk_start st p : walk st p [] [p].
Proof.
  split.
  - constructor.
  - intros x Hx. by apply elem_of_nil in Hx.
  - intros x ->%list_elem_of_singleton. apply rtc_refl.
  - intros x y Hx. by apply elem_of_nil in Hx.
Qed.

Lemma walk_step st p q d out stack :
  walk st p out (q :: stack) → node st q = Some d → q ∉ out →
  walk st p (out ++ [q]) (stack ++ InnerData_all_parents d).
Proof.
  intros [Hnd Ho Hs Hc] Hq Hout. pose proof (Hs q ltac:(left)) as Hqp. split.
  - apply NoDup_app. split_and!; [done| |apply NoDup_singleton].
    intros x Hx ->%list_elem_of_singleton. done.
  - intros x [?| ->%list_elem_of_singleton]%elem_of_app; [by apply Ho|done].
  - intros x [?|Hx]%elem_of_app; [apply Hs; by right|].
    apply (elem_of_all_parents st q d x Hq) in Hx. by eapply rtc_l.
  - intros x y [Hx| ->%list_elem_of_singleton]%elem_of_app Hy.
    + destruct (Hc x y Hx Hy) as [?|[->|?]%elem_of_cons]; rewrite !elem_of_app; try by auto.
      left. right. by apply list_elem_of_singleton.
    + right. apply elem_of_app. right. by apply (elem_of_all_parents st q d y Hq).
Qed.

Lemma walk_seen_bound st p out stack :
  walk st p out stack → (∀ x, ancestor_of st x p → is_Some (node st x)) →
  length out ≤ size (st_nodes st).
Proof.
  intros [Hnd Ho _ _] Hl. rewrite <-size_dom.
  rewrite <-(size_list_to_set (C:=gset addr) out) by done.
  apply subseteq_size. intros x Hx%elem_of_list_to_set. apply elem_of_dom.
  destruct (Hl x) as [d (b & Hb & _)%node_Some]; [by apply Ho|]. eauto.
Qed.

Lemma ancestors_collect_spec st p fuel out stack :
  walk st p out stack → (∀ x, ancestor_of st x p → is_Some (node st x)) →
  size (st_nodes st) < length out + fuel →
  ∃ l rest, ancestors_collect fuel st (mkAncestorsIter (list_to_set out) stack) = Ok l ∧
    walk st p (out ++ l) rest ∧
    (rest = [] ∨ ∃ x rest', rest = x :: rest' ∧ x ∈ out ++ l).
Proof.
  intros Hwalk Hl. revert out stack Hwalk. induction fuel as [|fuel IH]; intros out stack Hwalk Hf.
  { pose proof (walk_seen_bound _ _ _ _ Hwalk Hl). lia. }
  simpl. unfold ancestors_next; simpl. destruct stack as [|q stack]; simpl.
  { exists [], []. rewrite app_nil_r. auto. }
  case_decide as Hq; simpl.
  { exists [], (q :: stack). rewrite app_nil_r. split_and!; try done. right.
    apply elem_of_list_to_set in Hq. eauto. }
  rewrite elem_of_list_to_set in Hq.
  destruct (Hl q) as [d Hd]; [apply (walk_stack _ _ _ _ Hwalk); left|]. rewrite Hd. simpl.
  replace ({[q]} ∪ list_to_set out : gset addr) with (list_to_set (out ++ [q]) : gset addr).
  2: { rewrite list_to_set_app_L. simpl. set_solver. }
  destruct (IH (out ++ [q]) (stack ++ InnerData_all_parents d)) as (l & rest & -> & Hw & Hr).
  { by apply walk_step. } { rewrite length_app. simpl. lia. }
  simpl. exists (q :: l), rest. rewrite <-(assoc_L (++)) in Hw, Hr. done.
Qed.

Lemma all_ancestors_walk st ow p d :
  wf st ow → node st p = Some d →
  ∃ l rest, RelRc_all_ancestors p st = Ok l ∧ walk st p l rest ∧
    (rest = [] ∨ ∃ x rest', rest = x :: rest' ∧ x ∈ l).
Proof.
  intros Hw Hp. unfold RelRc_all_ancestors.
  destruct (ancestors_collect_spec st p (Datatypes.S (size (st_nodes st))) [] [p])
    as (l & rest & Heq & ? & ?).
  - apply walk_start.
  - intros x Hx. destruct (ancestor_live _ _ _ _ _ Hw Hp Hx) as [dx ?]. eauto.
  - simpl. lia.
  - eauto.
Qed.

(** When the walk ran dry it has yielded every ancestor. *)
Lemma walk_complete st p l x : walk st p l [] → p ∈ l → ancestor_of st x p → x ∈ l.
Proof.
  intros [_ _ _ Hc] Hp Hx. refine (rtc_ind_l (λ x, x ∈ l) p Hp _ x Hx).
  intros y z Hyz _ Hz. destruct (Hc z y Hz Hyz) as [?|Hn]; [done|].
  by apply elem_of_nil in Hn.
Qed.

Lemma ancestors_head st ow p d l :
  wf st ow → node st p = Some d → RelRc_all_ancestors p st = Ok l → ∃ l', l = p :: l'.
Proof.
  intros Hw Hp. unfold RelRc_all_ancestors. simpl. unfold ancestors_next; simpl.
  rewrite decide_False by set_solver. rewrite Hp; simpl.
  intros Heq. apply bind_Ok in Heq as (l' & _ & [= <-]). eauto.
Qed.

(** ** The reference: generation by generation

    The parents of the nodes of a generation, with repetitions, are the next one.
    What is yielded is the sequence of all generations up to the first node that
    has occurred before. *)
Definition parents_at st p : list addr :=
  match node st p with Some d => InnerData_all_parents d | None => [] end.
Fixpoint generations (parents : addr → list addr) (n : nat) (l : list addr) : list addr :=
  match n with
  | 0 => []
  | Datatypes.S n' => l ++ generations parents n' (l ≫= parents)
  end.
Fixpoint distinct_prefix (seen : gset addr) (l : list addr) : list addr :=
  match l with
  | [] => []
  | x :: l' => if decide (x ∈ seen) then [] else x :: distinct_prefix ({[x]} ∪ seen) l'
  end.

Lemma generations_nil parents n : generations parents n [] = [].
Proof. by induction n. Qed.
Lemma generations_ext (parents parents' : addr → list addr) n l :
  (∀ p, parents p = parents' p) → generations parents n l = generations parents' n l.
Proof.
  intros Hp. revert l. induction n as [|n IH]; intros l; [done|]. simpl. f_equal.
  rewrite (list_bind_ext parents parents' l l); [apply IH|done..].
Qed.

(** The queue holds the rest of a generation and the part of the next one that is
    known: the parents of those that have been yielded. *)
Lemma collect_generations fuel n st seen cur next l :
  ancestors_collect fuel st (mkAncestorsIter seen (cur ++ next)) = Ok l →
  fuel ≤ n + (if cur then 0 else 1) →
  l = distinct_prefix seen (cur ++ generations (parents_at st) n (next ++ (cur ≫= parents_at st))).
Proof.
  revert n seen cur next l. induction fuel as [|fuel IH]; intros n seen cur next l; [done|].
  assert (∀ n q cur next l,
    ancestors_collect (Datatypes.S fuel) st (mkAncestorsIter seen ((q :: cur) ++ next)) = Ok l → fuel ≤ n →
    l = distinct_prefix seen ((q :: cur) ++ generations (parents_at st) n (next ++ ((q :: cur) ≫= parents_at st)))) as Hcons.
  { clear n cur next l. intros n q cur next l Hl Hn. simpl in *. unfold ancestors_next in Hl. simpl in Hl.
    case_decide; simpl in Hl; [by injection Hl as <-|]. destruct (node st q) as [d|] eqn:Hd; [|done]. simpl in Hl.
    apply bind_Ok in Hl as (l' & Hl' & [= <-]). f_equal. rewrite <-(assoc_L (++)) in Hl'.
    apply (IH n) in Hl'; [|destruct cur; lia]. rewrite Hl'. rewrite <-(assoc_L (++)).
    assert (parents_at st q = InnerData_all_parents d) as -> by (unfold parents_at; by rewrite Hd). done. }
  destruct cur as [|q cur]; intros Hl Hn; [|apply Hcons; [done|lia]].
  destruct next as [|q next].
  - simpl in *. rewrite generations_nil. by injection Hl as <-.
  - destruct n as [|n]; [lia|]. cbn [mbind list_bind app]. rewrite app_nil_r. cbn [generations].
    pose proof (Hcons n q next [] l) as Hc. rewrite !app_nil_r in Hc. apply Hc; [done|lia].
Qed.

Lemma all_ancestors_generations st p l n :
  RelRc_all_ancestors p st = Ok l → size (st_nodes st) ≤ n →
  l = distinct_prefix ∅ (generations (parents_at st) (Datatypes.S n) [p]).
Proof.
  intros Hl Hn. apply (collect_generations _ n _ _ [p] []) in Hl; [|lia]. by rewrite Hl.
Qed.

(** [l] is what the traversal from [p] yields, given the parents of each node. *)
Definition lists_ancestors (parents : addr → list addr) p l : Prop :=
  ∃ n, ∀ m, n ≤ m → l = distinct_prefix ∅ (generations parents m [p]).

Lemma lists_ancestors_ext parents parents' p l :
  (∀ q, parents q = parents' q) → lists_ancestors parents p l → lists_ancestors parents' p l.
Proof.
  intros He [n Hl]. exists n. intros m Hm. rewrite (Hl m Hm). f_equal. by apply generations_ext.
Qed.

Lemma lists_ancestors_eq parents p l l' : lists_ancestors parents p l → lists_ancestors parents p l' → l = l'.
Proof. intros [n Hl] [n' Hl']. rewrite (Hl (n + n')), (Hl' (n + n')); [done|lia..]. Qed.

Lemma all_ancestors_listed st p l :
  RelRc_all_ancestors p st = Ok l → lists_ancestors (parents_at st) p l.
Proof.
  intros Hl. exists (Datatypes.S (size (st_nodes st))). intros [|m] Hm; [lia|].
  apply all_ancestors_generations; [done|lia].
Qed.

(** ** Ancestries without sharing *)

(** No ancestor of [p] is the source of two edges into ancestors of [p]. *)
Definition unshared st p : Prop :=
  ∀ q1 q2 d1 d2 i1 i2 e1 e2,
    ancestor_of st q1 p → ancestor_of st q2 p →
    node st q1 = Some d1 → node st q2 = Some d2 →
    nd_incoming d1 !! i1 = Some e1 → nd_incoming d2 !! i2 = Some e2 →
    ie_source e1 = ie_source e2 → q1 = q2 ∧ i1 = i2.

(** Along such a walk nothing is met twice. *)
Record tree_walk st p (out stack : list addr) : Prop := {
  tw_walk : walk st p out stack;
  tw_NoDup : NoDup (out ++ stack);
  tw_stack x : x ∈ out ++ stack → x = p ∨ ∃ y, y ∈ out ∧ parent_of st x y;
}.

Lemma all_parents_NoDup st p q d :
  unshared st p → ancestor_of st q p → node st q = Some d → NoDup (InnerData_all_parents d).
Proof.
  intros Hu Hq Hd. apply NoDup_alt. intros i j x.
  unfold InnerData_all_parents, InnerData_all_incoming. rewrite !list_lookup_fmap.
  destruct (nd_incoming d !! i) as [e1|] eqn:H1; [|done].
  destruct (nd_incoming d !! j) as [e2|] eqn:H2; [|done]. simpl.
  intros [= <-] [= Hs]. by destruct (Hu q q d d i j e1 e2 Hq Hq Hd Hd H1 H2 (eq_sym Hs)).
Qed.

Lemma tree_walk_step st ow p q d out stack :
  wf st ow → unshared st p → tree_walk st p out (q :: stack) → node st q = Some d → q ∉ out →
  tree_walk st p (out ++ [q]) (stack ++ InnerData_all_parents d).
Proof.
  intros Hw Hu [Hwalk Hnd Hs] Hq Hout.
  pose proof (walk_stack _ _ _ _ Hwalk q ltac:(left)) as Hqp.
  pose proof Hnd as Hnd'. rewrite NoDup_app, NoDup_cons in Hnd'.
  destruct Hnd' as (Hn1 & Hn2 & Hqs & Hn3).
  destruct (ancestor_rank _ _ Hw) as [rank Hrank].
  assert (∀ x, x ∈ InnerData_all_parents d → x ∉ out ++ q :: stack) as Hnew.
  { intros x Hx Hin. apply (elem_of_all_parents st q d x Hq) in Hx as Hxq.
    destruct (Hs x Hin) as [->|(y & Hy & Hxy)].
    - (* p would be above itself *)
      assert (tc (parent_of st) p p) as Hpp by (by eapply tc_rtc_r; [apply tc_once|]).
      apply Hrank in Hpp. lia.
    - destruct Hxy as (dy & e2 & Hdy & He2 & Hse2).
      destruct Hxq as (dq & e1 & Hdq & He1 & Hse1).
      apply list_elem_of_lookup in He1 as [i1 He1], He2 as [i2 He2].
      destruct (Hu q y dq dy i1 i2 e1 e2) as [-> _]; try done; [|congruence].
      by apply (walk_out _ _ _ _ Hwalk). }
  split.
  - by eapply walk_step.
  - rewrite <-(assoc_L (++)). change ([q] ++ ?l) with (q :: l).
    rewrite app_comm_cons, (assoc_L (++)). apply NoDup_app. split_and!; [done| |].
    + intros x Hx Hx'. by apply (Hnew x).
    + by eapply all_parents_NoDup.
  - intros x. rewrite <-(assoc_L (++)). change ([q] ++ ?l) with (q :: l).
    rewrite app_comm_cons, (assoc_L (++)). intros [Hx|Hx]%elem_of_app.
    + destruct (Hs x Hx) as [?|(y & ? & ?)]; [by left|right]. exists y.
      split; [apply elem_of_app; by left|done].
    + right. exists q. split; [apply elem_of_app; right; by apply list_elem_of_singleton|].
      by apply (elem_of_all_parents st q d x Hq).
Qed.

Lemma tree_collect st ow p fuel out stack :
  wf st ow → unshared st p → tree_walk st p out stack →
  (∀ x, ancestor_of st x p → is_Some (node st x)) →
  size (st_nodes st) < length out + fuel →
  ∃ l, ancestors_collect fuel st (mkAncestorsIter (list_to_set out) stack) = Ok l ∧
    walk st p (out ++ l) [].
Proof.
  intros Hw Hu Htw Hl. revert out stack Htw. induction fuel as [|fuel IH]; intros out stack Htw Hf.
  { pose proof (walk_seen_bound _ _ _ _ (tw_walk _ _ _ _ Htw) Hl). lia. }
  simpl. unfold ancestors_next; simpl. destruct stack as [|q stack]; simpl.
  { exists []. rewrite app_nil_r. split; [done|]. apply Htw. }
  assert (q ∉ out) as Hq.
  { intros Hq. pose proof (tw_NoDup _ _ _ _ Htw) as Hnd. apply NoDup_app in Hnd as (_ & Hd & _).
    apply (Hd q Hq). left. }
  rewrite decide_False by (by rewrite elem_of_list_to_set).
  destruct (Hl q) as [d Hd]; [apply (walk_stack _ _ _ _ (tw_walk _ _ _ _ Htw)); left|].
  rewrite Hd. simpl.
  replace ({[q]} ∪ list_to_set out : gset addr) with (list_to_set (out ++ [q]) : gset addr).
  2: { rewrite list_to_set_app_L. simpl. set_solver. }
  destruct (IH (out ++ [q]) (stack ++ InnerData_all_parents d)) as (l & -> & Hwl).
  { by eapply tree_walk_step. } { rewrite length_app. simpl. lia. }
  simpl. exists (q :: l). rewrite <-(assoc_L (++)) in Hwl. done.
Qed.

Lemma all_ancestors_unshared st ow p d :
  wf st ow → node st p = Some d → unshared st p →
  ∃ l, RelRc_all_ancestors p st = Ok l ∧ NoDup l ∧ ∀ x, x ∈ l ↔ ancestor_of st x p.
Proof.
  intros Hw Hp Hu.
  destruct (tree_collect st ow p (Datatypes.S (size (st_nodes st))) [] [p] Hw Hu)
    as (l & Heq & Hwalk).
  - split; [apply walk_start|apply NoDup_singleton|]. intros x ->%list_elem_of_singleton. by left.
  - intros x Hx. destruct (ancestor_live _ _ _ _ _ Hw Hp Hx) as [dx ?]. eauto.
  - simpl. lia.
  - exists l. split; [done|]. split; [apply Hwalk|]. intros x. split; [apply Hwalk|].
    apply walk_complete; [done|].
    destruct (ancestors_head _ _ _ _ _ Hw Hp Heq) as [l' ->]. left.
Qed.
End ancestors.
