(* ===== verification/History.v ===== *)
(** * [history.rs]: the graph of a set of nodes

    A [HistoryGraph] owns nodes, under ids that the shared registry assigns,
    and shows the relationships between them. *)

From S2P Require Import Prelude Slotmap Store StoreFacts Rc Registry Drop DropFacts RegistryOps Edge Node.

Record HistoryGraph {S : SlotMapSig} := mkHistoryGraph {
  hg_nodes : SecondaryMap addr;  (* [RelRc]s *)
  hg_registry : addr;            (* [Rc<RefCell<Registry>>] *)
}.
Arguments mkHistoryGraph {S} _ _.

Record EdgeId {S : SlotMapSig} := mkEdgeId {
  eid_target : NodeId;
  eid_index : nat;
}.
Arguments mkEdgeId {S} _ _.

#[export] Instance EdgeId_eq_dec {S : SlotMapSig} : EqDecision EdgeId.
Proof. solve_decision. Defined.

Section history.
Context {N E : Type} {S : SlotMapSig} {A : Allocator}.
Implicit Types (st : store N E) (p q g : addr) (hg : HistoryGraph) (id k : NodeId).

(** What a graph owns, in the order it is dropped: the nodes, then the
    registry. *)
Definition hg_owners hg : list ref :=
  (NodeStrong <$> sec_values (hg_nodes hg)) ++ [RegStrong (hg_registry hg)].
Definition HistoryGraph_drop hg st : result (store N E) := drop_refs (hg_owners hg) st.

(** ** Lookup *)

Definition HistoryGraph_get_node hg id : option addr := sec_get id (hg_nodes hg).
Definition HistoryGraph_contains_id hg id : bool := sec_contains_key id (hg_nodes hg).
Definition HistoryGraph_all_node_ids hg : list NodeId := sec_keys (hg_nodes hg).

Definition HistoryGraph_registry hg : addr := hg_registry hg.

Definition HistoryGraph_get_node_id hg p st : result (option NodeId) :=
  o ← registered_id (hg_registry hg) p st;
  match o with
  | None => Ok None
  | Some id => Ok (if sec_contains_key id (hg_nodes hg) then Some id else None)
  end.

Definition HistoryGraph_contains hg p st : result bool :=
  o ← registered_id (hg_registry hg) p st;
  match o with
  | None => Ok false
  | Some id => Ok (HistoryGraph_contains_id hg id)
  end.

Definition HistoryGraph_get_edge hg (e : EdgeId) st : result (option (InnerEdgeData E)) :=
  match HistoryGraph_get_node hg (eid_target e) with
  | None => Ok None
  | Some p =>
      d ← deref (node st p);
      match InnerData_incoming d (eid_index e) with
      | None => Ok None
      | Some edge =>
          b ← HistoryGraph_contains hg (InnerEdgeData_source edge) st;
          Ok (if b then Some edge else None)
      end
  end.

Definition HistoryGraph_contains_edge hg (e : EdgeId) st : result bool :=
  o ← HistoryGraph_get_edge hg e st;
  Ok (match o with Some _ => true | None => false end).

Definition HistoryGraph_source hg (e : EdgeId) st : result (option NodeId) :=
  o ← HistoryGraph_get_edge hg e st;
  match o with
  | None => Ok None
  | Some edge => HistoryGraph_get_node_id hg (InnerEdgeData_source edge) st
  end.

Definition HistoryGraph_target hg (e : EdgeId) st : result (option NodeId) :=
  b ← HistoryGraph_contains_edge hg e st;
  Ok (if b then Some (eid_target e) else None).

(** ** Adjacency *)

(** The strong edges that [all_outgoing] returns are consumed one by one:
    the target is looked up and dropped. *)
Definition outgoing_edge_id hg (acc : list EdgeId * store N E) (e : Edge) :
    result (list EdgeId * store N E) :=
  o ← HistoryGraph_get_node_id hg (ed_target e) acc.2;
  st' ← drop_relrc (ed_target e) acc.2;
  Ok (match o with
      | Some target => acc.1 ++ [mkEdgeId target (ed_index e)]
      | None => acc.1
      end, st').

Definition HistoryGraph_outgoing_edges hg id st : result (list EdgeId * store N E) :=
  match HistoryGraph_get_node hg id with
  | None => Ok ([], st)
  | Some p =>
      r ← InnerData_all_outgoing p st;
      foldM (outgoing_edge_id hg) ([], r.2) r.1
  end.

Definition HistoryGraph_incoming_edges hg id st : result (list EdgeId) :=
  n_incoming ←
    match HistoryGraph_get_node hg id with
    | None => Ok 0
    | Some p => d ← deref (node st p); Ok (InnerData_n_incoming d)
    end;
  filterM (λ e, HistoryGraph_contains_edge hg e st) (mkEdgeId id <$> seq 0 n_incoming).

Definition HistoryGraph_parents hg id st : result (list NodeId) :=
  l ← HistoryGraph_incoming_edges hg id st;
  filter_mapM (λ e, HistoryGraph_source hg e st) l.

Definition HistoryGraph_children hg id st : result (list NodeId * store N E) :=
  r ← HistoryGraph_outgoing_edges hg id st;
  l ← filter_mapM (λ e, HistoryGraph_target hg e r.2) r.1;
  Ok (l, r.2).

(** ** Insertion *)

(** The node is moved in; it is dropped when it is not stored. *)
Definition HistoryGraph_insert_node hg p st :
    result (option NodeId * HistoryGraph * store N E) :=
  o ← HistoryGraph_get_node_id hg p st;
  match o with
  | Some id => st' ← drop_relrc p st; Ok (Some id, hg, st')
  | None =>
      r ← RelRc_try_register_in p (hg_registry hg) st;
      match r.1 with
      | None => st' ← drop_relrc p r.2; Ok (None, hg, st')
      | Some id =>
          let ins := sec_insert id p (hg_nodes hg) in
          st' ← drop_refs (NodeStrong <$> option_list ins.1) r.2;
          Ok (Some id, mkHistoryGraph ins.2 (hg_registry hg), st')
      end
  end.

(** [node] is owned by the call and dropped at its end; a parent that is
    missing is cloned into the recursive call. *)
Fixpoint insert_ancestors (fuel : nat) hg p st :
    result (NodeId * HistoryGraph * store N E) :=
  match fuel with
  | 0 => Err OutOfFuel
  | Datatypes.S fuel' =>
      d ← deref (node st p);
      r ← foldM (λ acc parent,
            b ← HistoryGraph_contains acc.1 parent acc.2;
            if b then Ok acc else
            st1 ← rc_clone parent acc.2;
            r ← insert_ancestors fuel' acc.1 parent st1;
            Ok (r.1.2, r.2))
          (hg, st) (InnerData_all_parents d);
      st1 ← rc_clone p r.2;
      i ← HistoryGraph_insert_node r.1 p st1;
      id ← expect "node not registered" i.1.1;
      st2 ← drop_relrc p i.2;
      Ok (id, i.1.2, st2)
  end.

(** The recursion follows a chain of distinct live nodes. *)
Definition HistoryGraph_insert_ancestors hg p st :
    result (NodeId * HistoryGraph * store N E) :=
  insert_ancestors (Datatypes.S (size (st_nodes st))) hg p st.

(** ** Construction *)

(** [registry.into()] has happened: [g] is an owned [Rc]. *)
Definition HistoryGraph_new (nodes : list addr) g st : result (HistoryGraph * store N E) :=
  foldM (λ acc p, r ← HistoryGraph_insert_node acc.1 p acc.2; Ok (r.1.2, r.2))
    (mkHistoryGraph sec_new g, st) nodes.

Definition HistoryGraph_with_registry g st : result (HistoryGraph * store N E) :=
  HistoryGraph_new [] g st.

Definition HistoryGraph_from_nodes (nodes : list addr) st : result (HistoryGraph * store N E) :=
  let r := reg_alloc Registry_new st in
  HistoryGraph_new nodes r.1 r.2.

(** The derived [Default] and [Clone]: the copy shares the registry. *)
Definition HistoryGraph_default st : HistoryGraph * store N E :=
  let r := reg_alloc Registry_new st in
  (mkHistoryGraph sec_new r.1, r.2).

Definition HistoryGraph_clone hg st : result (HistoryGraph * store N E) :=
  st1 ← foldM (λ s n, RelRc_clone n s) st (sec_values (hg_nodes hg));
  st2 ← reg_clone (hg_registry hg) st1;
  Ok (hg, st2).
End history.
