(* ===== verification/HistoryFacts.v ===== *)
(** * Specifications of the history graph: lookups and adjacency *)

From S2P Require Import Prelude Slotmap Store StoreFacts Rc Registry Drop DropFacts RegistryOps Edge Node NodeFacts RegistryFacts History.

Section history_facts.
Context {N E : Type} {S : SlotMapSig} {SLaws : SlotMapLaws S} {A : Allocator}.
Implicit Types (st : store N E) (p q g : addr) (hg : HistoryGraph) (id k m : NodeId).
Implicit Types (R : Registry) (ow : list ref) (d : InnerData N E) (edge : InnerEdgeData E).

(** The graph files its nodes under the ids its registry has for them. *)
Definition hg_ok st hg : Prop :=
  ∃ R, registry_at st (hg_registry hg) = Some R ∧
    ∀ k p, sec_get k (hg_nodes hg) = Some p → sm_get k (reg_nodes R) = Some p.

Definition in_graph hg p : Prop := ∃ k, sec_get k (hg_nodes hg) = Some p.

(** The edge [e] of the graph, with its data: its target is in the graph, it
    is the [eid_index e]-th incoming edge there, and its source is in the
    graph as well. *)
Definition graph_edge st hg (e : EdgeId) edge : Prop :=
  ∃ q d, sec_get (eid_target e) (hg_nodes hg) = Some q ∧ node st q = Some d ∧
    nd_incoming d !! eid_index e = Some edge ∧ in_graph hg (ie_source edge).

(** ** Ids of nodes *)

Definition graph_id R hg p : option NodeId :=
  match Registry_get_id R p with
  | Some id => if sec_contains_key id (hg_nodes hg) then Some id else None
  | None => None
  end.

Lemma get_node_id_eq st hg p R :
  st_borrows st = ∅ → registry_at st (hg_registry hg) = Some R →
  HistoryGraph_get_node_id hg p st = Ok (graph_id R hg p).
Proof.
  intros Hb HR. unfold HistoryGraph_get_node_id, graph_id. rewrite registered_id_idle, HR by done. simpl.
  by destruct (Registry_get_id R p).
Qed.

Lemma contains_eq st hg p R :
  st_borrows st = ∅ → registry_at st (hg_registry hg) = Some R →
  HistoryGraph_contains hg p st = Ok (if graph_id R hg p then true else false).
Proof.
  intros Hb HR. unfold HistoryGraph_contains, HistoryGraph_contains_id, graph_id.
  rewrite registered_id_idle, HR by done. simpl.
  destruct (Registry_get_id R p); [|done]. by destruct (sec_contains_key _ _).
Qed.

Lemma graph_id_spec st ow hg R p k :
  wf st ow → registry_at st (hg_registry hg) = Some R →
  (∀ k p, sec_get k (hg_nodes hg) = Some p → sm_get k (reg_nodes R) = Some p) →
  graph_id R hg p = Some k ↔ sec_get k (hg_nodes hg) = Some p.
Proof.
  intros Hw HR Hin. pose proof (wf_st_regs _ _ Hw _ _ HR) as Hok. unfold graph_id. split.
  - destruct (Registry_get_id R p) as [j|] eqn:Hj; [|done].
    destruct (sec_contains_key j _) eqn:Hc; [|done]. intros [= ->].
    apply sec_contains_key_spec in Hc as [p' Hp']. rewrite Hp'.
    apply Hin in Hp'. apply registry_ok_get_id in Hj; [|done]. congruence.
  - intros Hk. pose proof (Hin _ _ Hk) as Hg. apply registry_ok_get_id in Hg; [|done].
    rewrite Hg. unfold sec_contains_key. by rewrite Hk.
Qed.

Lemma graph_id_in_graph st ow hg R p :
  wf st ow → registry_at st (hg_registry hg) = Some R →
  (∀ k p, sec_get k (hg_nodes hg) = Some p → sm_get k (reg_nodes R) = Some p) →
  is_Some (graph_id R hg p) ↔ in_graph hg p.
Proof.
  intros Hw HR Hin. split; intros [k Hk]; exists k; by eapply graph_id_spec in Hk.
Qed.

(** [get_node_id] inverts [get_node]. *)
Lemma get_node_id_spec st ow hg p :
  wf st ow → hg_ok st hg →
  ∃ o, HistoryGraph_get_node_id hg p st = Ok o ∧
    ∀ k, o = Some k ↔ HistoryGraph_get_node hg k = Some p.
Proof.
  intros Hw (R & HR & Hin). exists (graph_id R hg p). split; [apply get_node_id_eq; [apply Hw|done]|].
  intros k. by eapply graph_id_spec.
Qed.

Lemma contains_spec st ow hg p :
  wf st ow → hg_ok st hg →
  ∃ b, HistoryGraph_contains hg p st = Ok b ∧ (b = true ↔ in_graph hg p).
Proof.
  intros Hw (R & HR & Hin). exists (if graph_id R hg p then true else false).
  split; [apply contains_eq; [apply Hw|done]|]. rewrite <-(graph_id_in_graph st ow hg R p) by done.
  destruct (graph_id R hg p); naive_solver.
Qed.

(** A node has at most one id in a graph. *)
Lemma hg_ok_inj st ow hg k m p :
  wf st ow → hg_ok st hg →
  sec_get k (hg_nodes hg) = Some p → sec_get m (hg_nodes hg) = Some p → k = m.
Proof.
  intros Hw (R & HR & Hin) Hk Hm. pose proof (wf_st_regs _ _ Hw _ _ HR) as Hok.
  apply Hin, Hok in Hk. apply Hin, Hok in Hm. congruence.
Qed.

Lemma hg_node_held hg k p :
  sec_get k (hg_nodes hg) = Some p → NodeStrong p ∈ hg_owners hg.
Proof.
  intros Hk. apply elem_of_app. left. apply list_elem_of_fmap. exists p. split; [done|].
  apply elem_of_sec_values. by exists k.
Qed.

Lemma hg_node_live st ow hg k p :
  wf st (hg_owners hg ++ ow) → sec_get k (hg_nodes hg) = Some p → ∃ d, node st p = Some d.
Proof.
  intros Hw Hk. eapply owner_live; [done|]. apply elem_of_app. left. by eapply hg_node_held.
Qed.

Lemma hg_ok_ext st st' hg :
  (∀ g, registry_at st' g = registry_at st g) → hg_ok st hg → hg_ok st' hg.
Proof. intros HR (R & ? & ?). exists R. by rewrite HR. Qed.

Lemma hg_ok_same_views st st' hg : same_views st st' → hg_ok st hg → hg_ok st' hg.
Proof. intros [_ HR]. by apply hg_ok_ext. Qed.

(** ** Edges *)

Lemma get_edge_spec st ow hg e :
  wf st (hg_owners hg ++ ow) → hg_ok st hg →
  ∃ o, HistoryGraph_get_edge hg e st = Ok o ∧ ∀ edge, o = Some edge ↔ graph_edge st hg e edge.
Proof.
  intros Hw Hok. unfold HistoryGraph_get_edge, HistoryGraph_get_node, graph_edge.
  destruct (sec_get (eid_target e) _) as [q|] eqn:Hq; [|exists None; naive_solver].
  destruct (hg_node_live _ _ _ _ _ Hw Hq) as [d Hd]. rewrite Hd. simpl. unfold InnerData_incoming.
  destruct (nd_incoming d !! eid_index e) as [edge|] eqn:He; [|exists None; naive_solver].
  destruct (contains_spec st _ hg (InnerEdgeData_source edge) Hw Hok) as (b & -> & Hb). simpl.
  exists (if b then Some edge else None). split; [done|]. intros edge'.
  unfold InnerEdgeData_source in Hb. destruct b; naive_solver.
Qed.

Lemma contains_edge_spec st ow hg e :
  wf st (hg_owners hg ++ ow) → hg_ok st hg →
  ∃ b, HistoryGraph_contains_edge hg e st = Ok b ∧ (b = true ↔ ∃ edge, graph_edge st hg e edge).
Proof.
  intros Hw Hok. unfold HistoryGraph_contains_edge.
  destruct (get_edge_spec st ow hg e Hw Hok) as (o & -> & Ho). simpl.
  eexists; split; [done|]. setoid_rewrite <-Ho. destruct o; naive_solver.
Qed.

Lemma source_spec st ow hg e :
  wf st (hg_owners hg ++ ow) → hg_ok st hg →
  ∃ o, HistoryGraph_source hg e st = Ok o ∧
    ∀ k, o = Some k ↔ ∃ edge, graph_edge st hg e edge ∧ sec_get k (hg_nodes hg) = Some (ie_source edge).
Proof.
  intros Hw Hok. unfold HistoryGraph_source.
  destruct (get_edge_spec st ow hg e Hw Hok) as (o & -> & Ho). simpl.
  setoid_rewrite <-Ho. destruct o as [edge|]; [|exists None; naive_solver].
  destruct (get_node_id_spec st _ hg (InnerEdgeData_source edge) Hw Hok) as (o' & -> & Ho').
  exists o'. split; [done|]. unfold HistoryGraph_get_node, InnerEdgeData_source in Ho'. naive_solver.
Qed.

Lemma target_spec st ow hg e :
  wf st (hg_owners hg ++ ow) → hg_ok st hg →
  ∃ o, HistoryGraph_target hg e st = Ok o ∧
    ∀ k, o = Some k ↔ k = eid_target e ∧ ∃ edge, graph_edge st hg e edge.
Proof.
  intros Hw Hok. unfold HistoryGraph_target.
  destruct (contains_edge_spec st ow hg e Hw Hok) as (b & -> & Hb). simpl.
  eexists; split; [done|]. intros k. rewrite <-Hb. destruct b; naive_solver.
Qed.
End history_facts.
