(* ===== verification/Adjacency.v ===== *)
(** * Adjacency in a history graph

    [incoming_edges], [outgoing_edges], [parents] and [children] of [history.rs]
    enumerate the same edges from their two ends. *)

From S2P Require Import Prelude Slotmap Store StoreFacts Rc Registry Drop DropFacts RegistryOps Edge Node NodeFacts RegistryFacts History HistoryFacts.

Section adjacency.
Context {N E : Type} {S : SlotMapSig} {SLaws : SlotMapLaws S} {A : Allocator}.
Implicit Types (st : store N E) (p q g : addr) (hg : HistoryGraph) (id k m : NodeId).
Implicit Types (R : Registry) (ow : list ref) (d : InnerData N E) (edge : InnerEdgeData E).

(** ** Incoming edges *)

Lemma incoming_edges_spec st ow hg id :
  wf st (hg_owners hg ++ ow) → hg_ok st hg →
  ∃ l, HistoryGraph_incoming_edges hg id st = Ok l ∧
    StronglySorted (λ e f, eid_index e < eid_index f) l ∧
    ∀ e, e ∈ l ↔ eid_target e = id ∧ ∃ edge, graph_edge st hg e edge.
Proof.
  intros Hw Hok. unfold HistoryGraph_incoming_edges.
  assert (∃ n, match HistoryGraph_get_node hg id with
               | None => Ok 0
               | Some p => d ← deref (node st p); Ok (InnerData_n_incoming d)
               end = Ok n ∧ ∀ i edge, graph_edge st hg (mkEdgeId id i) edge → i < n)
    as (n & -> & Hn).
  { unfold HistoryGraph_get_node, graph_edge. simpl.
    destruct (sec_get id _) as [p|] eqn:Hp; [|exists 0; naive_solver].
    destruct (hg_node_live _ _ _ _ _ Hw Hp) as [d Hd]. rewrite Hd. simpl.
    eexists; split; [done|]. intros i edge (q & d' & ? & ? & Hi & _). simplify_eq.
    by eapply lookup_lt_Some. }
  simpl. edestruct (filterM_spec (λ e, HistoryGraph_contains_edge hg e st)
    (λ e, ∃ edge, graph_edge st hg e edge) (mkEdgeId id <$> seq 0 n)) as (l & -> & Hsub & Hl).
  { intros e _. by eapply contains_edge_spec. }
  exists l. split; [done|]. split.
  - eapply StronglySorted_sublist; [done|]. clear. generalize 0.
    induction n as [|n IH]; intros j; csimpl; constructor; [apply IH|].
    apply Forall_fmap, Forall_forall. intros i Hi%elem_of_seq. simpl. lia.
  - intros e. rewrite Hl, list_elem_of_fmap. split; [naive_solver|].
    intros [<- [edge He]]. split; [|by exists edge]. exists (eid_index e).
    destruct e as [t i]; simpl in *. split; [done|]. apply elem_of_seq.
    split; [lia|]. by eapply Hn.
Qed.

Lemma parents_spec st ow hg m :
  wf st (hg_owners hg ++ ow) → hg_ok st hg →
  ∃ l, HistoryGraph_parents hg m st = Ok l ∧
    ∀ k, k ∈ l ↔ ∃ i edge, graph_edge st hg (mkEdgeId m i) edge ∧
      sec_get k (hg_nodes hg) = Some (ie_source edge).
Proof.
  intros Hw Hok. unfold HistoryGraph_parents.
  destruct (incoming_edges_spec st ow hg m Hw Hok) as (l & -> & _ & Hl). simpl.
  edestruct (filter_mapM_spec (λ e, HistoryGraph_source hg e st)) as (l' & -> & Hl').
  { intros e _. by eapply source_spec. }
  exists l'. split; [done|]. intros k. rewrite Hl'. setoid_rewrite Hl. split.
  - intros ([t i] & [<- _] & edge & ? & ?). by exists i, edge.
  - intros (i & edge & ? & ?). exists (mkEdgeId m i). naive_solver.
Qed.

(** ** Outgoing edges *)

Definition named_edge R hg (e : Edge) : option EdgeId :=
  (λ t, mkEdgeId t (ed_index e)) <$> graph_id R hg (ed_target e).

Lemma outgoing_loop hg R es acc st ow :
  wf st (edge_owners es ++ ow) → registry_at st (hg_registry hg) = Some R →
  (∀ r, r ∈ edge_owners es → ∃ q, r = NodeStrong q ∧ held_by st ow q) →
  ∃ st', foldM (outgoing_edge_id hg) (acc, st) es = Ok (acc ++ omap (named_edge R hg) es, st') ∧
    wf st' ow ∧ same_views st st'.
Proof.
  revert acc st. induction es as [|e es IH]; intros acc st Hw HR Hh.
  { exists st. simpl. by rewrite app_nil_r. }
  simpl. unfold outgoing_edge_id at 1. rewrite (get_node_id_eq _ _ _ _ (wf_st_borrows _ _ Hw) HR). simpl.
  destruct (drop_refs_redundant st [NodeStrong (ed_target e)] (edge_owners es ++ ow))
    as (st1 & Hst1 & Hw1 & Hv1); [done| |].
  { intros r ->%list_elem_of_singleton. destruct (Hh (NodeStrong (ed_target e))) as (q & ? & Hq).
    { left. } simplify_eq. exists (ed_target e). split; [done|].
    destruct Hq as (o & Ho & Hqo). exists o. split; [apply elem_of_app; by right|done]. }
  change (drop_refs [NodeStrong (ed_target e)] st) with (drop_relrc (ed_target e) st) in Hst1.
  rewrite Hst1. simpl.
  destruct (IH (match graph_id R hg (ed_target e) with
                | Some t => acc ++ [mkEdgeId t (ed_index e)] | None => acc end) st1)
    as (st2 & -> & Hw2 & Hv2).
  - done.
  - by rewrite (proj2 Hv1).
  - intros r Hr. destruct (Hh r) as (q & -> & Hq); [by right|]. exists q. split; [done|].
    by eapply held_same_views.
  - exists st2. split_and!; [|done|by etrans]. unfold named_edge.
    destruct (graph_id R hg (ed_target e)); simpl; [by rewrite <-(assoc_L (++))|done].
Qed.

(** The graph enumerates the live outgoing edges whose target it contains. *)
Lemma elem_of_named_edges st ow hg R id p d e :
  wf st (hg_owners hg ++ ow) → registry_at st (hg_registry hg) = Some R →
  (∀ k p, sec_get k (hg_nodes hg) = Some p → sm_get k (reg_nodes R) = Some p) →
  sec_get id (hg_nodes hg) = Some p → node st p = Some d →
  e ∈ omap (named_edge R hg) (strong_edge <$> filter (live_edge st) (nd_outgoing d)) ↔
  ∃ edge, graph_edge st hg e edge ∧ ie_source edge = p.
Proof.
  intros Hw HR Hin Hid Hd. rewrite list_elem_of_omap. unfold named_edge. split.
  - intros (? & ([i q] & -> & Hq)%list_elem_of_fmap & He). simpl in He.
    eapply elem_of_live_outgoing in Hq as (dq & edge & Hdq & Hi & Hs); [|done..].
    apply fmap_Some in He as (t & Ht & ->). eapply graph_id_spec in Ht; [|done..].
    exists edge. split; [|done]. exists q, dq. split_and!; [done..|]. exists id. congruence.
  - intros (edge & (q & dq & Ht & Hdq & Hi & _) & Hs). destruct e as [t i]; simpl in *.
    exists (mkEdge i q). split.
    + apply list_elem_of_fmap. exists (mkWeakEdge i q). split; [done|].
      eapply elem_of_live_outgoing; [done..|]. naive_solver.
    + simpl. by rewrite (proj2 (graph_id_spec st _ hg R q t Hw HR Hin) Ht).
Qed.

Lemma NoDup_named_edges st ow hg R p d :
  wf st (hg_owners hg ++ ow) → registry_at st (hg_registry hg) = Some R →
  (∀ k p, sec_get k (hg_nodes hg) = Some p → sm_get k (reg_nodes R) = Some p) →
  node st p = Some d →
  NoDup (omap (named_edge R hg) (strong_edge <$> filter (live_edge st) (nd_outgoing d))).
Proof.
  intros Hw HR Hin Hd. pose proof (live_outgoing_NoDup _ _ _ _ Hw Hd) as Hnd.
  revert Hnd. generalize (filter (live_edge st) (nd_outgoing d)) as es.
  induction 1 as [|we l Hwe _ IH]; [constructor|]. csimpl.
  destruct (named_edge R hg (strong_edge we)) as [e|] eqn:He; [|done].
  apply NoDup_cons. split; [|done].
  intros (? & (we' & -> & Hwe')%list_elem_of_fmap & He')%list_elem_of_omap.
  unfold named_edge in *. apply fmap_Some in He as (t & Ht & ->).
  apply fmap_Some in He' as (t' & Ht' & [= <- ?]).
  eapply graph_id_spec in Ht; [|done..]. eapply graph_id_spec in Ht'; [|done..].
  destruct we, we'; naive_solver.
Qed.

(** [HistoryGraph::outgoing_edges] of a node of the graph: every edge of the
    graph with that source, once.  The store only forgets edges to dead
    nodes. *)
Lemma outgoing_edges_spec st ow hg id p d :
  wf st (hg_owners hg ++ ow) → hg_ok st hg →
  sec_get id (hg_nodes hg) = Some p → node st p = Some d →
  ∃ l st', HistoryGraph_outgoing_edges hg id st = Ok (l, st') ∧
    wf st' (hg_owners hg ++ ow) ∧
    (∀ q, node st' q = if decide (q = p)
       then Some (set_outgoing d (filter (live_edge st) (nd_outgoing d))) else node st q) ∧
    (∀ g, registry_at st' g = registry_at st g) ∧
    NoDup l ∧ ∀ e, e ∈ l ↔ ∃ edge, graph_edge st hg e edge ∧ ie_source edge = p.
Proof.
  intros Hw (R & HR & Hin) Hid Hd. unfold HistoryGraph_outgoing_edges, HistoryGraph_get_node.
  rewrite Hid. destruct (all_outgoing_spec st _ p d Hw Hd) as (st1 & -> & Hw1 & Hn1 & HR1). simpl.
  destruct (outgoing_loop hg R (strong_edge <$> filter (live_edge st) (nd_outgoing d)) [] st1
    (hg_owners hg ++ ow)) as (st2 & -> & Hw2 & [Hn2 HR2]); [done|by rewrite HR1| |].
  { intros r Hr. by eapply edge_owners_held. }
  eexists _, st2. split; [done|]. split_and!.
  - done.
  - intros q. by rewrite Hn2, Hn1.
  - intros g. by rewrite HR2, HR1.
  - by eapply NoDup_named_edges.
  - intros e. by eapply elem_of_named_edges.
Qed.

(** Forgetting outgoing edges does not change the edges of the graph. *)
Lemma graph_edge_pruned st st' hg e edge p d l :
  node st p = Some d →
  (∀ q, node st' q = if decide (q = p) then Some (set_outgoing d l) else node st q) →
  graph_edge st' hg e edge ↔ graph_edge st hg e edge.
Proof.
  intros Hd Hn. unfold graph_edge.
  split; intros (q & dq & Hq & Hdq & Hi & Hs); exists q.
  - rewrite Hn in Hdq. case_decide; simplify_eq; eauto 10.
  - rewrite Hn. case_decide; simplify_eq; eauto 10.
Qed.

Lemma children_spec st ow hg k p d :
  wf st (hg_owners hg ++ ow) → hg_ok st hg →
  sec_get k (hg_nodes hg) = Some p → node st p = Some d →
  ∃ l st', HistoryGraph_children hg k st = Ok (l, st') ∧ wf st' (hg_owners hg ++ ow) ∧
    (∀ q, node st' q = if decide (q = p)
       then Some (set_outgoing d (filter (live_edge st) (nd_outgoing d))) else node st q) ∧
    (∀ g, registry_at st' g = registry_at st g) ∧
    ∀ m, m ∈ l ↔ ∃ i edge, graph_edge st hg (mkEdgeId m i) edge ∧ ie_source edge = p.
Proof.
  intros Hw Hok Hk Hd.
  destruct (outgoing_edges_spec st ow hg k p d Hw Hok Hk Hd)
    as (es & st1 & Hes & Hw1 & Hn1 & HR1 & _ & Hel).
  pose proof (hg_ok_ext _ _ _ HR1 Hok) as Hok1. unfold HistoryGraph_children. rewrite Hes. simpl.
  edestruct (filter_mapM_spec (λ e, HistoryGraph_target hg e st1)) as (l & -> & Hl).
  { intros e _. by eapply target_spec. }
  exists l, st1. split_and!; [done..|]. intros m. rewrite Hl. setoid_rewrite Hel. split.
  - intros ([t i] & (edge & He & ?) & -> & _). by exists i, edge.
  - intros (i & edge & He & <-). exists (mkEdgeId m i). split; [by exists edge|].
    split; [done|]. exists edge. by eapply graph_edge_pruned.
Qed.

(** ** Whether or not the graph has the node

    Only child pointers change, those to nodes that are gone. *)

Definition pruned st st' : Prop :=
  (∀ q, (λ d, set_outgoing d []) <$> node st' q = (λ d, set_outgoing d []) <$> node st q) ∧
  ∀ g, registry_at st' g = registry_at st g.

Lemma pruned_update st st' p d l :
  node st p = Some d → (∀ q, node st' q = if decide (q = p) then Some (set_outgoing d l) else node st q) →
  (∀ g, registry_at st' g = registry_at st g) → pruned st st'.
Proof.
  intros Hd Hn HR. split; [|done]. intros q. rewrite Hn. case_decide; [subst; by rewrite Hd|done].
Qed.

Lemma outgoing_edges_total st ow hg id :
  wf st (hg_owners hg ++ ow) → hg_ok st hg →
  ∃ l st', HistoryGraph_outgoing_edges hg id st = Ok (l, st') ∧ wf st' (hg_owners hg ++ ow) ∧
    pruned st st' ∧ NoDup l ∧
    ∀ e, e ∈ l ↔ ∃ p edge, sec_get id (hg_nodes hg) = Some p ∧ graph_edge st hg e edge ∧ ie_source edge = p.
Proof.
  intros Hw Hok. destruct (sec_get id (hg_nodes hg)) as [p|] eqn:Hp.
  - destruct (hg_node_live _ _ _ _ _ Hw Hp) as [d Hd].
    destruct (outgoing_edges_spec st ow hg id p d Hw Hok Hp Hd) as (l & st' & Heq & Hw' & Hn & HR & Hnd & Hl).
    exists l, st'. split_and!; [done|done|by eapply pruned_update|done|]. intros e. rewrite Hl. naive_solver.
  - unfold HistoryGraph_outgoing_edges, HistoryGraph_get_node. rewrite Hp. exists [], st.
    split_and!; [done|done|done|constructor|]. intros e. rewrite elem_of_nil. naive_solver.
Qed.

Lemma children_total st ow hg k :
  wf st (hg_owners hg ++ ow) → hg_ok st hg →
  ∃ l st', HistoryGraph_children hg k st = Ok (l, st') ∧ wf st' (hg_owners hg ++ ow) ∧ pruned st st' ∧
    ∀ m, m ∈ l ↔ ∃ p i edge, sec_get k (hg_nodes hg) = Some p ∧
      graph_edge st hg (mkEdgeId m i) edge ∧ ie_source edge = p.
Proof.
  intros Hw Hok. destruct (sec_get k (hg_nodes hg)) as [p|] eqn:Hp.
  - destruct (hg_node_live _ _ _ _ _ Hw Hp) as [d Hd].
    destruct (children_spec st ow hg k p d Hw Hok Hp Hd) as (l & st' & Heq & Hw' & Hn & HR & Hl).
    exists l, st'. split_and!; [done|done|by eapply pruned_update|]. intros m. rewrite Hl. naive_solver.
  - unfold HistoryGraph_children, HistoryGraph_outgoing_edges, HistoryGraph_get_node. rewrite Hp. exists [], st.
    split_and!; [done..|]. intros m. rewrite elem_of_nil. naive_solver.
Qed.

(** [children] and [parents] are the same relation. *)
Lemma children_parents_dual st ow hg k m p ms ks st' :
  wf st (hg_owners hg ++ ow) → hg_ok st hg → sec_get k (hg_nodes hg) = Some p →
  HistoryGraph_children hg k st = Ok (ms, st') → HistoryGraph_parents hg m st = Ok ks →
  m ∈ ms ↔ k ∈ ks.
Proof.
  intros Hw Hok Hk Hms Hks.
  destruct (hg_node_live _ _ _ _ _ Hw Hk) as [d Hd].
  destruct (children_spec st ow hg k p d Hw Hok Hk Hd) as (l & st1 & Hl & _ & _ & _ & Hel).
  destruct (parents_spec st ow hg m Hw Hok) as (l' & Hl' & Hel').
  rewrite Hms in Hl. rewrite Hks in Hl'. injection Hl as <- <-. injection Hl' as <-.
  rewrite Hel, Hel'. split; intros (i & edge & He & Hs); exists i, edge; (split; [done|]).
  - by rewrite Hs.
  - congruence.
Qed.
End adjacency.
