(* ===== verification/Petgraph.v ===== *)
(** * [petgraph.rs] and [petgraph/edge_ref.rs]: the graph traits

    The adapters that present a [HistoryGraph] to the algorithms of the
    [petgraph] crate.  The iterators they return are modelled as consumed. *)

From S2P Require Import Prelude Slotmap Store StoreFacts Rc Registry Drop DropFacts RegistryOps Edge Node NodeFacts RegistryFacts History HistoryFacts Adjacency.

(** [petgraph::Direction] *)
Inductive Direction := Outgoing | Incoming.

(** [edge_ref::EdgeRef]: an edge id with the graph it belongs to. *)
Record EdgeRef {S : SlotMapSig} := mkEdgeRef {
  er_id : EdgeId;
  er_history : HistoryGraph;
}.
Arguments mkEdgeRef {S} _ _.

Section petgraph.
Context {N E : Type} {S : SlotMapSig} {A : Allocator}.
Implicit Types (st : store N E) (hg : HistoryGraph) (id k m : NodeId).

(** ** Edge references *)

Definition EdgeRef_new (id : EdgeId) hg : EdgeRef := mkEdgeRef id hg.

Definition EdgeRef_edge_data (e : EdgeRef) st : result (InnerEdgeData E) :=
  o ← HistoryGraph_get_edge (er_history e) (er_id e) st;
  expect "edge is valid" o.

Definition EdgeRef_source (e : EdgeRef) st : result NodeId :=
  o ← HistoryGraph_source (er_history e) (er_id e) st;
  expect "edge is valid" o.

Definition EdgeRef_target (e : EdgeRef) st : result NodeId :=
  o ← HistoryGraph_target (er_history e) (er_id e) st;
  expect "edge is valid" o.

Definition EdgeRef_weight (e : EdgeRef) st : result E :=
  edge ← EdgeRef_edge_data e st;
  Ok (InnerEdgeData_value edge).

Definition EdgeRef_id (e : EdgeRef) : EdgeId := er_id e.

(** ** Graph traits *)

Definition neighbors_directed hg id (d : Direction) st : result (list NodeId * store N E) :=
  match d with
  | Outgoing =>
      r ← HistoryGraph_outgoing_edges hg id st;
      Ok (eid_target <$> r.1, r.2)
  | Incoming =>
      l ← HistoryGraph_incoming_edges hg id st;
      ks ← traverse (λ e, o ← HistoryGraph_source hg e st; expect "edge is valid" o) l;
      Ok (ks, st)
  end.

Definition neighbors hg id st : result (list NodeId * store N E) :=
  neighbors_directed hg id Outgoing st.

Definition edge_references hg st : result (list EdgeRef) :=
  ls ← traverse (λ id, l ← HistoryGraph_incoming_edges hg id st;
                       Ok ((λ e, EdgeRef_new e hg) <$> l))
         (HistoryGraph_all_node_ids hg);
  Ok (mjoin ls).

Definition node_identifiers hg : list NodeId := HistoryGraph_all_node_ids hg.

Definition edges hg id st : result (list EdgeRef * store N E) :=
  r ← HistoryGraph_outgoing_edges hg id st;
  Ok ((λ e, EdgeRef_new e hg) <$> r.1, r.2).

Definition edges_directed hg id (d : Direction) st : result (list EdgeRef * store N E) :=
  match d with
  | Outgoing =>
      r ← HistoryGraph_outgoing_edges hg id st;
      Ok ((λ e, EdgeRef_new e hg) <$> r.1, r.2)
  | Incoming =>
      l ← HistoryGraph_incoming_edges hg id st;
      Ok ((λ e, EdgeRef_new e hg) <$> l, st)
  end.

Definition visit_map hg : gset NodeId := ∅.
Definition reset_map hg (map : gset NodeId) : gset NodeId := ∅.

(** ** Facts *)

Context {SLaws : SlotMapLaws S}.
Implicit Types (ow : list ref) (edge : InnerEdgeData E) (p q : addr).

(** The methods of a reference to an edge of the graph return its ends. *)
Lemma EdgeRef_methods st ow hg e edge :
  wf st (hg_owners hg ++ ow) → hg_ok st hg → graph_edge st hg e edge →
  EdgeRef_edge_data (EdgeRef_new e hg) st = Ok edge ∧
  EdgeRef_weight (EdgeRef_new e hg) st = Ok (ie_value edge) ∧
  EdgeRef_target (EdgeRef_new e hg) st = Ok (eid_target e) ∧
  ∃ k, EdgeRef_source (EdgeRef_new e hg) st = Ok k ∧ sec_get k (hg_nodes hg) = Some (ie_source edge).
Proof.
  intros Hw Hok He. unfold EdgeRef_weight, EdgeRef_edge_data, EdgeRef_target, EdgeRef_source. simpl.
  destruct (get_edge_spec st ow hg e Hw Hok) as (o & -> & Ho).
  destruct (source_spec st ow hg e Hw Hok) as (s & -> & Hs).
  destruct (target_spec st ow hg e Hw Hok) as (t & -> & Ht). simpl.
  pose proof (proj2 (Ho edge) He) as ->. simpl.
  pose proof (proj2 (Ht (eid_target e)) ltac:(by eauto)) as ->. simpl.
  pose proof He as (q & d & _ & _ & _ & k & Hk).
  pose proof (proj2 (Hs k) ltac:(by eauto)) as ->. simpl. split_and!; try done. by exists k.
Qed.

Lemma index_sorted_NoDup (l : list EdgeId) :
  StronglySorted (λ e f, eid_index e < eid_index f) l → NoDup l.
Proof.
  induction 1 as [|e l _ IH Hall]; constructor; [|done]. intros Hin.
  rewrite Forall_forall in Hall. specialize (Hall _ Hin). lia.
Qed.

(** An incoming neighbor per incoming edge, an outgoing one per outgoing edge. *)
Lemma incoming_neighbors_spec st ow hg m :
  wf st (hg_owners hg ++ ow) → hg_ok st hg →
  ∃ es ks, neighbors_directed hg m Incoming st = Ok (ks, st) ∧ NoDup es ∧
    (∀ e, e ∈ es ↔ eid_target e = m ∧ ∃ edge, graph_edge st hg e edge) ∧
    Forall2 (λ e k, ∃ edge, graph_edge st hg e edge ∧ sec_get k (hg_nodes hg) = Some (ie_source edge)) es ks.
Proof.
  intros Hw Hok. simpl. destruct (incoming_edges_spec st ow hg m Hw Hok) as (es & -> & Hs & Hes). simpl.
  assert (∃ ks, traverse (λ e, o ← HistoryGraph_source hg e st; expect "edge is valid" o) es = Ok ks ∧
    Forall2 (λ e k, ∃ edge, graph_edge st hg e edge ∧ sec_get k (hg_nodes hg) = Some (ie_source edge)) es ks)
    as (ks & -> & Hks).
  { assert (∀ e, e ∈ es → ∃ edge, graph_edge st hg e edge) as Hedges by (intros e He; by apply Hes).
    clear Hs Hes. induction es as [|e es IH]; simpl; [by exists []|].
    destruct IH as (ks & -> & Hks); [intros ? ?; apply Hedges; by right|].
    destruct (Hedges e) as [edge He]; [left|].
    destruct (source_spec st ow hg e Hw Hok) as (s & -> & Hs). simpl.
    pose proof He as (q & d & _ & _ & _ & k & Hk).
    pose proof (proj2 (Hs k) ltac:(by eauto)) as ->. simpl. exists (k :: ks). split; [done|].
    constructor; [by exists edge|done]. }
  exists es, ks. split_and!; [done|by apply index_sorted_NoDup|done|done].
Qed.

Lemma outgoing_neighbors_spec st ow hg k :
  wf st (hg_owners hg ++ ow) → hg_ok st hg →
  ∃ es st', neighbors_directed hg k Outgoing st = Ok (eid_target <$> es, st') ∧
    wf st' (hg_owners hg ++ ow) ∧ pruned st st' ∧ NoDup es ∧
    ∀ e, e ∈ es ↔ ∃ p edge, sec_get k (hg_nodes hg) = Some p ∧ graph_edge st hg e edge ∧ ie_source edge = p.
Proof.
  intros Hw Hok. simpl. destruct (outgoing_edges_total st ow hg k Hw Hok) as (es & st' & -> & ?). by exists es, st'.
Qed.

(** The references that [edges_directed] gives are those of the edges at the node. *)
Lemma edges_directed_spec st ow hg k d :
  wf st (hg_owners hg ++ ow) → hg_ok st hg →
  ∃ es st', edges_directed hg k d st = Ok ((λ e, EdgeRef_new e hg) <$> es, st') ∧
    wf st' (hg_owners hg ++ ow) ∧ pruned st st' ∧ NoDup es ∧
    ∀ e, e ∈ es ↔ match d with
      | Outgoing => ∃ p edge, sec_get k (hg_nodes hg) = Some p ∧ graph_edge st hg e edge ∧ ie_source edge = p
      | Incoming => eid_target e = k ∧ ∃ edge, graph_edge st hg e edge
      end.
Proof.
  intros Hw Hok. destruct d; simpl.
  - destruct (outgoing_edges_total st ow hg k Hw Hok) as (es & st' & -> & ?). by exists es, st'.
  - destruct (incoming_edges_spec st ow hg k Hw Hok) as (es & -> & Hs%index_sorted_NoDup & Hes). by exists es, st.
Qed.

(** Traversing with a function that always returns, and flattening. *)
Lemma traverse_join {B C} (f : B → result (list C)) (P : B → C → Prop) l :
  NoDup l → (∀ x, x ∈ l → ∃ ys, f x = Ok ys ∧ NoDup ys ∧ ∀ y, y ∈ ys ↔ P x y) →
  (∀ x x' y, P x y → P x' y → x = x') →
  ∃ ls, traverse f l = Ok ls ∧ NoDup (mjoin ls) ∧ ∀ y, y ∈ mjoin ls ↔ ∃ x, x ∈ l ∧ P x y.
Proof.
  intros Hnd Hf Hinj. induction Hnd as [|x l Hx _ IH]; simpl.
  { exists []. split_and!; [done|constructor|]. intros y. simpl. rewrite elem_of_nil.
    split; [done|]. by intros (x & ?%elem_of_nil & _). }
  destruct (Hf x) as (ys & -> & Hys & Hy); [left|]. simpl.
  destruct IH as (ls & -> & Hls & Hl); [intros ? ?; apply Hf; by right|]. simpl.
  exists (ys :: ls). split; [done|]. simpl. split.
  - apply NoDup_app. split_and!; [done| |done]. intros y Hy1%Hy (x' & Hx' & Hy2)%Hl.
    pose proof (Hinj _ _ _ Hy1 Hy2). by subst.
  - intros y. rewrite elem_of_app, Hy, Hl. setoid_rewrite elem_of_cons. naive_solver.
Qed.

(** [edge_references] lists every edge of the graph once. *)
Lemma edge_references_spec st ow hg :
  wf st (hg_owners hg ++ ow) → hg_ok st hg →
  ∃ l, edge_references hg st = Ok l ∧ NoDup l ∧
    ∀ r, r ∈ l ↔ er_history r = hg ∧ ∃ edge, graph_edge st hg (er_id r) edge.
Proof.
  intros Hw Hok. unfold edge_references.
  destruct (traverse_join (λ id, l ← HistoryGraph_incoming_edges hg id st;
      Ok ((λ e, EdgeRef_new e hg) <$> l))
    (λ id r, er_history r = hg ∧ eid_target (er_id r) = id ∧ ∃ edge, graph_edge st hg (er_id r) edge)
    (HistoryGraph_all_node_ids hg)) as (ls & -> & Hnd & Hl).
  - apply sec_iter_NoDup.
  - intros id _. destruct (incoming_edges_spec st ow hg id Hw Hok) as (l & -> & Hs & Hl). simpl.
    eexists; split; [done|]. split.
    + apply NoDup_fmap_2; [by intros ?? [= ?]|by apply index_sorted_NoDup].
    + intros r. rewrite list_elem_of_fmap. setoid_rewrite Hl. split; [naive_solver|].
      intros (<- & <- & edge & He). exists (er_id r). split; [by destruct r|by eauto].
  - intros x x' r (_ & <- & _) (_ & <- & _). done.
  - simpl. eexists; split; [done|]. split; [done|]. intros r. rewrite Hl. split; [naive_solver|].
    intros (<- & edge & He). exists (eid_target (er_id r)). split; [|by eauto].
    destruct He as (q & d & Hq & _). apply elem_of_sec_keys. by exists q.
Qed.
Lemma graph_edge_fun st hg e edge edge' : graph_edge st hg e edge → graph_edge st hg e edge' → edge = edge'.
Proof. intros (? & ? & ? & ? & ? & _) (? & ? & ? & ? & ? & _). by simplify_eq. Qed.

(** Every reference read through its methods. *)
Definition EdgeRef_read (e : EdgeRef) st : result (EdgeId * NodeId * NodeId * E) :=
  source ← EdgeRef_source e st;
  target ← EdgeRef_target e st;
  weight ← EdgeRef_weight e st;
  Ok (EdgeRef_id e, source, target, weight).

Lemma read_references_spec st ow hg rs :
  wf st (hg_owners hg ++ ow) → hg_ok st hg →
  (∀ r, r ∈ rs → er_history r = hg ∧ ∃ edge, graph_edge st hg (er_id r) edge) →
  ∃ l, traverse (λ r, EdgeRef_read r st) rs = Ok l ∧ l.*1.*1.*1 = er_id <$> rs ∧
    ∀ e s t v, (e, s, t, v) ∈ l ↔ e ∈ er_id <$> rs ∧ t = eid_target e ∧
      ∃ edge, graph_edge st hg e edge ∧ sec_get s (hg_nodes hg) = Some (ie_source edge) ∧ ie_value edge = v.
Proof.
  intros Hw Hok Hrs. induction rs as [|[e h] rs IH]; csimpl.
  { exists []. split_and!; [done..|]. intros e s t v. rewrite !elem_of_nil. naive_solver. }
  destruct IH as (l & -> & Hids & Hl); [intros; apply Hrs; by right|].
  destruct (Hrs (mkEdgeRef e h)) as [Hh [edge He]]; [left|]. simpl in Hh, He. subst h. unfold EdgeRef_read.
  destruct (EdgeRef_methods st ow hg e edge Hw Hok He) as (_ & Hv & Ht & k & Hs & Hk).
  unfold EdgeRef_new in *. rewrite Hv, Ht, Hs. simpl.
  eexists; split; [done|]. split; [csimpl; by rewrite Hids|]. intros e' s t v. rewrite !elem_of_cons, Hl. split.
  - intros [[= -> -> -> ->]|?]; [|naive_solver]. split_and!; [by left|done|]. by exists edge.
  - intros ([->|?] & -> & edge' & He' & Hs' & <-); [left|right; by eauto 10].
    rewrite (graph_edge_fun _ _ _ _ _ He' He) in *. by rewrite (hg_ok_inj _ _ _ _ _ _ Hw Hok Hs' Hk).
Qed.

Lemma read_all_references st ow hg :
  wf st (hg_owners hg ++ ow) → hg_ok st hg →
  ∃ rs, edge_references hg st = Ok rs ∧ ∃ l, traverse (λ e, EdgeRef_read e st) rs = Ok l ∧ NoDup l.*1.*1.*1 ∧
    ∀ e s t v, (e, s, t, v) ∈ l ↔ t = eid_target e ∧
      ∃ edge, graph_edge st hg e edge ∧ sec_get s (hg_nodes hg) = Some (ie_source edge) ∧ ie_value edge = v.
Proof.
  intros Hw Hok. destruct (edge_references_spec st ow hg Hw Hok) as (rs & Heq & Hnd & Hrs).
  exists rs. split; [done|]. destruct (read_references_spec st ow hg rs Hw Hok) as (l & Hl & Hids & Hin).
  { intros r. apply Hrs. }
  exists l. split_and!; [done| |].
  - rewrite Hids. apply NoDup_fmap_2_strong; [|done].
    intros [e h] [e' h'] [Hh _]%Hrs [Hh' _]%Hrs. simpl in *. congruence.
  - intros e s t v. rewrite Hin. split; [naive_solver|]. intros (-> & edge & He & ?).
    split_and!; [|done|by exists edge]. apply list_elem_of_fmap. exists (EdgeRef_new e hg).
    split; [done|]. apply Hrs. by eauto.
Qed.
End petgraph.
