(* ===== verification/Insertion.v ===== *)
(** * Inserting nodes into a history graph

    The outcomes of [HistoryGraph::insert_node] and of the recursive
    [HistoryGraph::insert_ancestors]. *)

From S2P Require Import Prelude Slotmap Store StoreFacts Rc Registry Drop DropFacts RegistryOps Edge Node NodeFacts RegistryFacts History HistoryFacts.

Section insertion.
Context {N E : Type} {S : SlotMapSig} {SLaws : SlotMapLaws S} {A : Allocator}.
Implicit Types (st : store N E) (p q x y g : addr) (hg : HistoryGraph) (id k m : NodeId).
Implicit Types (R : Registry) (ow : list ref) (d : InnerData N E).

(** ** What registration changes *)

(** Nodes without a registry may have been registered in [g], and registries
    may have gained entries; nothing else changed. *)
Record registered_more g st st' : Prop := {
  rm_node q d : node st q = Some d →
    node st' q = Some d ∨ nd_registry d = None ∧ node st' q = Some (set_registry d (Some g));
  rm_live q : is_Some (node st' q) → is_Some (node st q);
  rm_reg h R : registry_at st h = Some R → ∃ R', registry_at st' h = Some R' ∧
    ∀ k q, sm_get k (reg_nodes R) = Some q → sm_get k (reg_nodes R') = Some q;
  rm_other h : h ≠ g → registry_at st' h = registry_at st h;
}.

Lemma registered_more_views g st st' : same_views st st' → registered_more g st st'.
Proof.
  intros [Hn HR]. split.
  - intros q d Hd. left. by rewrite Hn.
  - intros q. by rewrite Hn.
  - intros h R Hh. exists R. by rewrite HR.
  - done.
Qed.

Lemma registered_more_trans g st1 st2 st3 :
  registered_more g st1 st2 → registered_more g st2 st3 → registered_more g st1 st3.
Proof.
  intros H12 H23. split.
  - intros q d Hd. destruct (rm_node _ _ _ H12 _ _ Hd) as [Hd2|[Hr Hd2]].
    + by apply (rm_node _ _ _ H23).
    + destruct (rm_node _ _ _ H23 _ _ Hd2) as [Hd3|[Hr3 _]]; [by right|done].
  - intros q Hq. by apply (rm_live _ _ _ H12), (rm_live _ _ _ H23).
  - intros h R Hh. destruct (rm_reg _ _ _ H12 _ _ Hh) as (R2 & Hh2 & H2).
    destruct (rm_reg _ _ _ H23 _ _ Hh2) as (R3 & Hh3 & H3). exists R3. eauto.
  - intros h Hh. by rewrite (rm_other _ _ _ H23), (rm_other _ _ _ H12).
Qed.

Lemma registered_more_parent g st st' x y :
  registered_more g st st' → parent_of st' x y ↔ parent_of st x y.
Proof.
  intros Hm. split.
  - intros (d' & e & Hy & He & Hs). destruct (rm_live _ _ _ Hm y) as [d Hd]; [by exists d'|].
    exists d, e. split; [done|]. split; [|done].
    destruct (rm_node _ _ _ Hm _ _ Hd) as [Hd'|[_ Hd']]; by simplify_eq/=.
  - intros (d & e & Hy & He & Hs).
    destruct (rm_node _ _ _ Hm _ _ Hy) as [Hd'|[_ Hd']]; by eexists _, e.
Qed.

Lemma hg_ok_registered_more g st st' hg :
  registered_more g st st' → hg_ok st hg → hg_ok st' hg.
Proof.
  intros Hm (R & HR & Hin). destruct (rm_reg _ _ _ Hm _ _ HR) as (R' & HR' & Hsub).
  exists R'. eauto.
Qed.

(** A graph stays consistent while references that do not belong to it are
    dropped. *)
Lemma hg_ok_drop st st' hg ow :
  wf st' (hg_owners hg ++ ow) → drop_inv st st' [] → hg_ok st hg → hg_ok st' hg.
Proof.
  intros Hw Hinv (R & HR & Hin).
  assert (RegStrong (hg_registry hg) ∈ hg_owners hg ++ ow) as Hreg.
  { apply elem_of_app. left. apply elem_of_app. right. left. }
  destruct (reg_owner_live _ _ _ Hw Hreg) as [R' HR']. exists R'. split; [done|].
  intros k p Hk. destruct (hg_node_live _ _ _ _ _ Hw Hk) as [d Hd].
  destruct (drop_keeps_id st st' _ (hg_registry hg) R k p Hw Hinv Hreg HR) as (R'' & ? & ?).
  - by apply Hin.
  - by exists d.
  - congruence.
Qed.

(** ** [insert_node] *)

(** The registry of [p] lets it be registered in [g]. *)
Definition registrable st g p : Prop :=
  ∃ d, node st p = Some d ∧ (nd_registry d = None ∨ nd_registry d = Some g).

Lemma insert_node_known st ow hg p k :
  wf st (NodeStrong p :: hg_owners hg ++ ow) → hg_ok st hg →
  sec_get k (hg_nodes hg) = Some p →
  ∃ st', HistoryGraph_insert_node hg p st = Ok (Some k, hg, st') ∧
    wf st' (hg_owners hg ++ ow) ∧ same_views st st'.
Proof.
  intros Hw Hok Hk. unfold HistoryGraph_insert_node.
  destruct (get_node_id_spec st _ hg p Hw Hok) as (o & -> & Ho). simpl.
  apply Ho in Hk as Hk'. subst o.
  destruct (drop_refs_redundant st [NodeStrong p] (hg_owners hg ++ ow)) as (st' & Hst' & ? & ?).
  { done. }
  { intros r ->%list_elem_of_singleton. exists p. split; [done|]. exists p. split; [|done].
    apply elem_of_app. left. by eapply hg_node_held. }
  unfold drop_refs in Hst'. simpl in Hst'. unfold drop_relrc. rewrite Hst'. simpl. by exists st'.
Qed.

(** Storing a newly registered node. *)
Lemma hg_owners_insert hg (R : Registry) id p :
  sec_within (hg_nodes hg) (reg_nodes R) → is_Some (sm_get id (reg_nodes R)) →
  sec_get id (hg_nodes hg) = None →
  hg_owners (mkHistoryGraph (sec_insert id p (hg_nodes hg)).2 (hg_registry hg)) ≡ₚ
    NodeStrong p :: hg_owners hg.
Proof.
  intros Hin Hid Hn. unfold hg_owners, sec_values. simpl.
  by rewrite (sec_iter_insert_fresh id p (hg_nodes hg) (reg_nodes R)) by done.
Qed.

Lemma insert_node_new st ow hg p :
  wf st (NodeStrong p :: hg_owners hg ++ ow) → hg_ok st hg →
  ¬ in_graph hg p → registrable st (hg_registry hg) p →
  ∃ id hg' st', HistoryGraph_insert_node hg p st = Ok (Some id, hg', st') ∧
    wf st' (hg_owners hg' ++ ow) ∧ hg_ok st' hg' ∧ hg_registry hg' = hg_registry hg ∧
    sec_get id (hg_nodes hg) = None ∧
    (∀ k, sec_get k (hg_nodes hg') = if decide (k = id) then Some p else sec_get k (hg_nodes hg)) ∧
    registered_more (hg_registry hg) st st' ∧ (∀ q, q ≠ p → node st' q = node st q) ∧
    (∃ d, node st p = Some d ∧ node st' p = Some (set_registry d (Some (hg_registry hg)))) ∧
    (∀ R R', registry_at st (hg_registry hg) = Some R → registry_at st' (hg_registry hg) = Some R' →
       (∀ k q, sm_get k (reg_nodes R') = Some q → sm_get k (reg_nodes R) = Some q ∨ k = id ∧ q = p) ∧
       (∀ k, Registry_get_id R p = Some k → k = id ∧ R' = R)).
Proof.
  intros Hw Hok Hni (d & Hd & Hreg). unfold HistoryGraph_insert_node.
  destruct (get_node_id_spec st _ hg p Hw Hok) as (o & -> & Ho). simpl.
  destruct o as [k|]; [destruct Hni; exists k; by apply Ho|].
  destruct Hok as (R & HR & Hin).
  destruct (try_register_in_ok st _ p (hg_registry hg) d R Hw Hd HR Hreg)
    as (id & R' & st1 & -> & Hw1 & Hn1 & HR1 & HokR' & Hid & Hq & Hget & Hkeep). simpl.
  pose proof (wf_st_regs _ _ Hw _ _ HR) as HokR.
  pose proof (added_id R R' p id HokR HokR' Hid Hq Hget) as Hsub.
  assert (sec_get id (hg_nodes hg) = None) as Hfresh.
  { destruct (sec_get id (hg_nodes hg)) as [q|] eqn:Hsq; [exfalso|done]. pose proof Hsq as Hq'%Hin%Hsub.
    rewrite Hget, decide_True in Hq' by done. injection Hq' as <-. by apply Hni; exists id. }
  assert (is_Some (sm_get id (reg_nodes R'))) as HidR'.
  { exists p. by apply registry_ok_get_id. }
  assert (sec_within (hg_nodes hg) (reg_nodes R')) as Hwithin.
  { intros k [q Hk]. exists q. by apply Hsub, Hin. }
  rewrite (sec_insert_result id p (hg_nodes hg) (reg_nodes R') HidR' Hwithin), Hfresh. simpl.
  rewrite drop_refs_nil. simpl.
  eexists id, _, st1. split; [done|]. split_and!.
  - rewrite (hg_owners_insert hg R' id p) by done. done.
  - exists R'. simpl. rewrite HR1, decide_True by done. split; [done|]. intros k q.
    rewrite (sec_insert_get id p (hg_nodes hg) (reg_nodes R') k) by done.
    case_decide; [|by eauto]. intros [= ->]. subst k. by apply registry_ok_get_id.
  - done.
  - done.
  - intros k. simpl. by rewrite (sec_insert_get id p (hg_nodes hg) (reg_nodes R') k).
  - split.
    + intros q dq Hdq. rewrite Hn1. case_decide; [|by left]. simplify_eq.
      destruct Hreg as [Hreg|Hreg]; [by right|left]. by rewrite set_registry_same.
    + intros q. rewrite Hn1. case_decide; [|done]. subst. by rewrite Hd.
    + intros h Rh Hh. rewrite HR1. case_decide; [|by exists Rh]. simplify_eq. by exists R'.
    + intros h Hh. by rewrite HR1, decide_False.
  - intros q Hne. by rewrite Hn1, decide_False.
  - exists d. by rewrite Hn1, decide_True.
  - intros R0 R1 HR0. rewrite HR1, decide_True by done. intros [= <-]. simplify_eq. split.
    + intros k q. rewrite Hget. case_decide; naive_solver.
    + intros k Hk. assert (R' = R) as -> by (apply Hkeep; by exists k). split; [congruence|done].
Qed.

(** The node is registered elsewhere: it is not inserted and the handle to it
    is gone. *)
Lemma insert_node_foreign st ow hg p d h :
  wf st (NodeStrong p :: hg_owners hg ++ ow) → hg_ok st hg → ¬ in_graph hg p →
  node st p = Some d → nd_registry d = Some h → h ≠ hg_registry hg →
  ∃ st', HistoryGraph_insert_node hg p st = Ok (None, hg, st') ∧
    wf st' (hg_owners hg ++ ow) ∧ hg_ok st' hg ∧ drop_inv st st' [] ∧
    ∀ q dq, node st' q = Some dq ↔ node st q = Some dq ∧ held_by st (hg_owners hg ++ ow) q.
Proof.
  intros Hw Hok Hni Hd Hh Hne. unfold HistoryGraph_insert_node.
  destruct (get_node_id_spec st _ hg p Hw Hok) as (o & -> & Ho). simpl.
  destruct o as [k|]; [destruct Hni; exists k; by apply Ho|].
  pose proof Hok as (R & HR & _).
  destruct (try_register_in_other st _ p _ d R h Hw Hd HR Hh Hne) as (st1 & -> & Hw1 & Hv1). simpl.
  destruct (drop_relrc_spec st1 p _ Hw1) as (st2 & Hst2 & Hw2 & Hinv). rewrite Hst2. simpl.
  exists st2. split_and!; [done..| | |].
  - eapply hg_ok_drop; [done..|]. by eapply hg_ok_same_views.
  - by eapply drop_inv_views.
  - intros q dq. rewrite (drop_refs_exact st1 st2 [NodeStrong p] (hg_owners hg ++ ow) q dq Hw1 Hst2).
    rewrite (proj1 Hv1). split; intros [? Hheld]; (split; [done|]);
      (eapply held_same_views; [|exact Hheld]); [by symmetry|done].
Qed.
End insertion.
