(* ===== verification/InsertAncestors.v ===== *)
(** * [HistoryGraph::insert_ancestors]

    The recursion terminates on every history, inserts the node with the
    ancestors that are reached through nodes missing from the graph, and panics
    exactly when one of those belongs to another registry. *)

From S2P Require Import Prelude Slotmap Store StoreFacts Rc Registry Drop DropFacts RegistryOps Edge Node NodeFacts RegistryFacts Ancestors History HistoryFacts Insertion.

Section insert_ancestors.
Context {N E : Type} {S : SlotMapSig} {SLaws : SlotMapLaws S} {A : Allocator}.
Implicit Types (st : store N E) (p q x y g : addr) (hg : HistoryGraph) (id k : NodeId).
Implicit Types (R : Registry) (ow : list ref) (d : InnerData N E) (path : list addr).

(** [x] is reached from [p] along parents that are not in the graph. *)
Definition missing st hg : relation addr :=
  rtc (λ x y, parent_of st x y ∧ ¬ in_graph hg x).

(** The graph [hg] has become [hg'] while [p] is being inserted. *)
Record inserting st hg p st' hg' : Prop := {
  ins_ok : hg_ok st' hg';
  ins_registry : hg_registry hg' = hg_registry hg;
  ins_stores : registered_more (hg_registry hg) st st';
  ins_mono k x : sec_get k (hg_nodes hg) = Some x → sec_get k (hg_nodes hg') = Some x;
  ins_sound x : in_graph hg' x →
    in_graph hg x ∨ missing st hg x p ∧ registrable st (hg_registry hg) x;
  ins_closed x y : in_graph hg' x → parent_of st y x → in_graph hg x ∨ in_graph hg' y;
  (** the registry has gained ids of inserted nodes only *)
  ins_entries R R' k x : registry_at st (hg_registry hg) = Some R →
    registry_at st' (hg_registry hg) = Some R' → sm_get k (reg_nodes R') = Some x →
    sm_get k (reg_nodes R) = Some x ∨ sec_get k (hg_nodes hg') = Some x;
  (** inserted nodes are registered, the others unchanged *)
  ins_new x : in_graph hg' x → ¬ in_graph hg x →
    ∃ d, node st x = Some d ∧ node st' x = Some (set_registry d (Some (hg_registry hg)));
  ins_old x : in_graph hg x ∨ ¬ in_graph hg' x → node st' x = node st x;
}.

#[export] Instance in_graph_dec hg x : Decision (in_graph hg x).
Proof.
  refine (cast_if (decide (x ∈ sec_values (hg_nodes hg)))); unfold in_graph;
    by rewrite <-elem_of_sec_values.
Defined.

Lemma ins_mono_in st hg p st' hg' x :
  inserting st hg p st' hg' → in_graph hg x → in_graph hg' x.
Proof. intros Hi [k Hk]. exists k. by eapply ins_mono. Qed.

Lemma inserting_refl st hg p : hg_ok st hg → inserting st hg p st hg.
Proof.
  intros Hok. split; [done|done| |done|by left|by left| |done|done].
  - by apply registered_more_views.
  - intros R R' k x HR HR' Hk. left. congruence.
Qed.

Lemma inserting_views st hg p st1 hg1 st2 :
  inserting st hg p st1 hg1 → same_views st1 st2 → inserting st hg p st2 hg1.
Proof.
  intros Hi Hv. split; try apply Hi.
  - eapply hg_ok_same_views; [done|]. apply Hi.
  - eapply registered_more_trans; [apply Hi|]. by apply registered_more_views.
  - intros R R' k x HR. rewrite (proj2 Hv). by apply (ins_entries _ _ _ _ _ Hi).
  - intros x. rewrite (proj1 Hv). by apply (ins_new _ _ _ _ _ Hi).
  - intros x. rewrite (proj1 Hv). by apply (ins_old _ _ _ _ _ Hi).
Qed.

Lemma missing_mono st hg st1 hg1 p q x :
  inserting st hg p st1 hg1 → missing st1 hg1 x q → missing st hg x q.
Proof.
  intros Hi. apply rtc_subrel. intros y z [Hp Hn]. split.
  - by apply (registered_more_parent _ _ _ y z (ins_stores _ _ _ _ _ Hi)).
  - intros Hin. by eapply Hn, ins_mono_in.
Qed.

Lemma registrable_before g st st1 x :
  registered_more g st st1 → registrable st1 g x → registrable st g x.
Proof.
  intros Hm (d1 & Hd1 & Hr). destruct (rm_live _ _ _ Hm x) as [d Hd]; [by exists d1|].
  exists d. split; [done|].
  destruct (rm_node _ _ _ Hm _ _ Hd) as [Hd'|[? _]]; [by simplify_eq|by left].
Qed.

(** Inserting a missing parent [y] of [p] is part of inserting [p]. *)
Lemma inserting_parent st hg p st1 hg1 y st2 hg2 :
  inserting st hg p st1 hg1 → inserting st1 hg1 y st2 hg2 →
  parent_of st y p → ¬ in_graph hg1 y → inserting st hg p st2 hg2.
Proof.
  intros H1 H2 Hy Hn. assert (¬ in_graph hg y) as Hn0.
  { intros Hin. by eapply Hn, ins_mono_in. }
  split.
  - apply H2.
  - rewrite (ins_registry _ _ _ _ _ H2). apply H1.
  - eapply registered_more_trans; [apply H1|].
    rewrite <-(ins_registry _ _ _ _ _ H1). apply H2.
  - intros k x Hk. by eapply ins_mono, ins_mono.
  - intros x Hx. destruct (ins_sound _ _ _ _ _ H2 x Hx) as [Hx1|[Hm Hr]].
    + by apply (ins_sound _ _ _ _ _ H1).
    + right. split.
      * eapply rtc_r; [by eapply missing_mono|]. done.
      * eapply registrable_before; [apply H1|].
        by rewrite (ins_registry _ _ _ _ _ H1) in Hr.
  - intros x z Hx Hz.
    destruct (ins_closed _ _ _ _ _ H2 x z Hx) as [Hx1|Hz2]; [| |by right].
    + by apply (registered_more_parent _ _ _ z x (ins_stores _ _ _ _ _ H1)).
    + destruct (ins_closed _ _ _ _ _ H1 x z Hx1 Hz) as [?|Hz1]; [by left|right].
      by eapply ins_mono_in.
  - intros R R2 k x HR HR2 Hk.
    destruct (rm_reg _ _ _ (ins_stores _ _ _ _ _ H1) _ _ HR) as (R1 & HR1 & _).
    rewrite <-(ins_registry _ _ _ _ _ H1) in HR1, HR2.
    destruct (ins_entries _ _ _ _ _ H2 R1 R2 k x HR1 HR2 Hk) as [Hk1|?]; [|by right].
    rewrite (ins_registry _ _ _ _ _ H1) in HR1.
    destruct (ins_entries _ _ _ _ _ H1 R R1 k x HR HR1 Hk1) as [?|?]; [by left|right].
    by apply (ins_mono _ _ _ _ _ H2).
  - intros x Hx Hx0. rewrite <-(ins_registry _ _ _ _ _ H1). destruct (decide (in_graph hg1 x)) as [Hx1|Hx1].
    + destruct (ins_new _ _ _ _ _ H1 x Hx1 Hx0) as (d & ? & Hd). exists d. split; [done|].
      rewrite (ins_old _ _ _ _ _ H2) by (by left). by rewrite (ins_registry _ _ _ _ _ H1).
    + destruct (ins_new _ _ _ _ _ H2 x Hx Hx1) as (d & Hd & ?). exists d.
      by rewrite (ins_old _ _ _ _ _ H1) in Hd by (by right).
  - intros x Hx. assert (in_graph hg x ∨ ¬ in_graph hg1 x) as Hx1.
    { destruct Hx as [?|Hx]; [by left|right]. intros ?. by eapply Hx, ins_mono_in. }
    rewrite (ins_old _ _ _ _ _ H2); [by apply (ins_old _ _ _ _ _ H1)|].
    destruct Hx as [?|?]; [left; by eapply ins_mono_in|by right].
Qed.

(** The last step: [p] itself, all of whose parents are in. *)
Lemma inserting_self st hg p st1 hg1 st2 hg2 :
  inserting st hg p st1 hg1 → hg_ok st2 hg2 → hg_registry hg2 = hg_registry hg1 →
  registered_more (hg_registry hg1) st1 st2 →
  (∀ k x, sec_get k (hg_nodes hg1) = Some x → sec_get k (hg_nodes hg2) = Some x) →
  (∀ x, in_graph hg2 x → in_graph hg1 x ∨ x = p) →
  registrable st (hg_registry hg) p → (∀ y, parent_of st y p → in_graph hg1 y) →
  (∀ R R' k x, registry_at st1 (hg_registry hg1) = Some R → registry_at st2 (hg_registry hg1) = Some R' →
     sm_get k (reg_nodes R') = Some x → sm_get k (reg_nodes R) = Some x ∨ sec_get k (hg_nodes hg2) = Some x) →
  ¬ in_graph hg1 p → in_graph hg2 p → (∀ q, q ≠ p → node st2 q = node st1 q) →
  (∃ d, node st1 p = Some d ∧ node st2 p = Some (set_registry d (Some (hg_registry hg1)))) →
  inserting st hg p st2 hg2.
Proof.
  intros H1 Hok Hr Hm Hmono Hx2 Hp Hpar Hent Hp1 Hp2 Hne (dp & Hdp & Hdp2).
  assert (¬ in_graph hg p) as Hp0 by (intros ?; by eapply Hp1, ins_mono_in). split.
  - done.
  - rewrite Hr. apply H1.
  - eapply registered_more_trans; [apply H1|]. by rewrite <-(ins_registry _ _ _ _ _ H1).
  - intros k x Hk. by eapply Hmono, ins_mono.
  - intros x [Hx| ->]%Hx2; [by apply (ins_sound _ _ _ _ _ H1)|right].
    split; [apply rtc_refl|done].
  - intros x y [Hx| ->]%Hx2 Hy.
    + destruct (ins_closed _ _ _ _ _ H1 x y Hx Hy) as [?|[k Hk]]; [by left|right].
      exists k. by apply Hmono.
    + right. destruct (Hpar y Hy) as [k Hk]. exists k. by apply Hmono.
  - intros R R2 k x HR HR2 Hk.
    destruct (rm_reg _ _ _ (ins_stores _ _ _ _ _ H1) _ _ HR) as (R1 & HR1 & _).
    rewrite <-(ins_registry _ _ _ _ _ H1) in HR2. pose proof HR1 as HR1'.
    rewrite <-(ins_registry _ _ _ _ _ H1) in HR1'.
    destruct (Hent R1 R2 k x HR1' HR2 Hk) as [Hk1|?]; [|by right].
    destruct (ins_entries _ _ _ _ _ H1 R R1 k x HR HR1 Hk1) as [?|?]; [by left|right]. by apply Hmono.
  - intros x [Hx| ->]%Hx2 Hx0.
    + rewrite Hne by congruence. by apply (ins_new _ _ _ _ _ H1).
    + exists dp. rewrite <-(ins_registry _ _ _ _ _ H1), <-(ins_old _ _ _ _ _ H1) by (by right). done.
  - intros x Hx. destruct (decide (x = p)) as [->|Hxp]; [by destruct Hx|]. rewrite Hne by done.
    apply (ins_old _ _ _ _ _ H1). destruct Hx as [?|Hx]; [by left|right]. intros [k Hk].
    apply Hx. exists k. by apply Hmono.
Qed.

(** All missing ancestors end up in the graph. *)
Lemma inserting_complete st hg p st' hg' x :
  inserting st hg p st' hg' → in_graph hg' p → (∀ y, parent_of st y p → in_graph hg' y) →
  missing st hg x p → in_graph hg' x.
Proof.
  intros Hi Hp Hpar Hx. unfold missing in Hx.
  assert (in_graph hg' x ∧ (x = p ∨ ¬ in_graph hg x)) as [? _]; [|done].
  induction Hx as [p|x y p [Hxy Hn] _ IH]; [by auto|].
  destruct IH as [Hy Hy']; [done..|]. split; [|by right].
  destruct Hy' as [->|Hy']; [by apply Hpar|].
  by destruct (ins_closed _ _ _ _ _ Hi y x Hy Hxy).
Qed.

(** ** The two outcomes of a call *)

Definition inserted st hg p ow (r : result (NodeId * HistoryGraph * store N E)) : Prop :=
  ∃ id hg' st', r = Ok (id, hg', st') ∧ wf st' (hg_owners hg' ++ ow) ∧
    inserting st hg p st' hg' ∧ sec_get id (hg_nodes hg') = Some p ∧
    (∀ y, parent_of st y p → in_graph hg' y).

Definition refused {B} st hg p (r : result B) : Prop :=
  r = Err (Panic "node not registered") ∧
  ∃ x, missing st hg x p ∧ ¬ in_graph hg x ∧ ¬ registrable st (hg_registry hg) x.

Definition insert_parent fuel (acc : HistoryGraph * store N E) (parent : addr) :
    result (HistoryGraph * store N E) :=
  b ← HistoryGraph_contains acc.1 parent acc.2;
  if b then Ok acc else
  st1 ← rc_clone parent acc.2;
  r ← insert_ancestors fuel acc.1 parent st1;
  Ok (r.1.2, r.2).

Lemma registrable_dec_or st p g d :
  node st p = Some d →
  registrable st g p ∨ ∃ h, nd_registry d = Some h ∧ h ≠ g.
Proof.
  intros Hd. destruct (nd_registry d) as [h|] eqn:Hh.
  - destruct (decide (h = g)) as [->|]; [left|right; by exists h]. exists d. auto.
  - left. exists d. auto.
Qed.

(** The call's own handle goes; the graph holds the node by then. *)
Lemma insert_release st0 hg0 st2 hg2 ow p id :
  wf st2 (hg_owners hg2 ++ NodeStrong p :: ow) →
  inserting st0 hg0 p st2 hg2 → sec_get id (hg_nodes hg2) = Some p →
  (∀ y, parent_of st0 y p → in_graph hg2 y) →
  inserted st0 hg0 p ow (st3 ← drop_relrc p st2; Ok (id, hg2, st3)).
Proof.
  intros Hw2 Hi2 Hid Hp2.
  destruct (drop_refs_redundant st2 [NodeStrong p] (hg_owners hg2 ++ ow)) as (st3 & Hst3 & ? & Hv3).
  { eapply wf_perm; [|exact Hw2]. by rewrite <-Permutation_middle. }
  { intros r ->%list_elem_of_singleton. exists p. split; [done|]. exists p. split; [|done].
    apply elem_of_app. left. by eapply hg_node_held. }
  change (drop_refs [NodeStrong p] st2) with (drop_relrc p st2) in Hst3. rewrite Hst3. simpl.
  exists id, hg2, st3. split_and!; [done..| |done|done]. by eapply inserting_views.
Qed.

(** What stops the insertion of a parent stops that of the node. *)
Lemma refused_parent {B C} st0 hg0 p st1 hg y (r : result B) (r' : result C) :
  inserting st0 hg0 p st1 hg → parent_of st0 y p → ¬ in_graph hg y →
  refused st1 hg y r → r' = Err (Panic "node not registered") → refused st0 hg0 p r'.
Proof.
  intros Hi Hyp Hny [_ (x & Hx & Hnx & Hrx)] ->. split; [done|]. exists x. split_and!.
  - eapply rtc_r; [by eapply missing_mono|]. split; [done|]. intros Hin. by eapply Hny, ins_mono_in.
  - intros Hin. by eapply Hnx, ins_mono_in.
  - intros (d0 & Hd0 & Hr0). apply Hrx. rewrite (ins_registry _ _ _ _ _ Hi).
    destruct (rm_node _ _ _ (ins_stores _ _ _ _ _ Hi) _ _ Hd0) as [?|[_ ?]]; eexists; naive_solver.
Qed.

(** The end of a call, once the parents are in. *)
Lemma insert_self st0 hg0 st hg ow p d :
  wf st (NodeStrong p :: hg_owners hg ++ ow) → node st p = Some d →
  inserting st0 hg0 p st hg → (∀ y, parent_of st0 y p → in_graph hg y) →
  let r := st1 ← rc_clone p st;
           i ← HistoryGraph_insert_node hg p st1;
           id ← expect "node not registered" i.1.1;
           st2 ← drop_relrc p i.2;
           Ok (id, i.1.2, st2) in
  inserted st0 hg0 p ow r ∨ refused st0 hg0 p r.
Proof.
  intros Hw Hd Hi Hpar. destruct (rc_clone_wf st _ p d Hw Hd) as (st1 & -> & Hw1 & Hv1). cbn zeta.
  pose proof (inserting_views _ _ _ _ _ _ Hi Hv1) as Hi1. simpl.
  assert (Hw1' : wf st1 (NodeStrong p :: hg_owners hg ++ NodeStrong p :: ow)).
  { eapply wf_perm; [|exact Hw1]. by rewrite Permutation_middle. }
  assert (node st1 p = Some d) as Hd1 by by rewrite (proj1 Hv1).
  destruct (get_node_id_spec st1 _ hg p Hw1' (ins_ok _ _ _ _ _ Hi1)) as (o & Ho & Hk).
  destruct o as [k|].
  - left. assert (Hkp : sec_get k (hg_nodes hg) = Some p) by by apply Hk.
    destruct (insert_node_known st1 _ hg p k Hw1' (ins_ok _ _ _ _ _ Hi1) Hkp) as (st2 & -> & Hw2 & Hv2).
    simpl. apply insert_release; [done| |done|done]. by eapply inserting_views.
  - assert (¬ in_graph hg p) as Hni by (intros [k Hin]; by apply Hk in Hin).
    destruct (registrable_dec_or st1 p (hg_registry hg) d Hd1) as [Hreg|(h & Hh & Hne)].
    + left. destruct (insert_node_new st1 _ hg p Hw1' (ins_ok _ _ _ _ _ Hi1) Hni Hreg)
        as (id & hg2 & st2 & -> & Hw2 & Hok2 & Hr2 & Hn & Hg2 & Hm2 & Hne2 & Hd2 & Hent). simpl.
      assert (∀ k x, sec_get k (hg_nodes hg) = Some x → sec_get k (hg_nodes hg2) = Some x) as Hmono.
      { intros k x Hkx. rewrite Hg2. case_decide; [congruence|done]. }
      apply insert_release; [done| | |].
      * eapply inserting_self; [exact Hi1|done..| | |done| |done| |done|done].
        -- intros x [k Hkx]. rewrite Hg2 in Hkx. case_decide; [naive_solver|left; by exists k].
        -- eapply registrable_before; [apply Hi1|].
           by rewrite <-(ins_registry _ _ _ _ _ Hi1).
        -- intros R R' k x HR HR' Hkx. destruct (proj1 (Hent R R' HR HR') k x Hkx) as [?|[-> ->]]; [by left|right].
           by rewrite Hg2, decide_True.
        -- exists id. by rewrite Hg2, decide_True.
      * by rewrite Hg2, decide_True.
      * intros y Hy. destruct (Hpar y Hy) as [k Hky]. exists k. by apply Hmono.
    + right. destruct (insert_node_foreign st1 _ hg p d h Hw1' (ins_ok _ _ _ _ _ Hi1) Hni Hd1 Hh Hne)
        as (st2 & -> & _). simpl. split; [done|]. exists p. split; [apply rtc_refl|].
      split; [intros Hin; by eapply Hni, ins_mono_in|].
      intros (d0 & Hd0 & Hr0). destruct (rm_node _ _ _ (ins_stores _ _ _ _ _ Hi1) _ _ Hd0) as [Hd0'|[? Hd0']].
      * simplify_eq. rewrite (ins_registry _ _ _ _ _ Hi) in Hne. naive_solver.
      * simplify_eq/=. rewrite (ins_registry _ _ _ _ _ Hi) in Hne. naive_solver.
Qed.
(** The loop over the parents. *)
(** Cloning a node and inserting its ancestors changes neither the set of live nodes nor
    who is an ancestor of whom. *)
Lemma inserting_path st st1 st2 hg y hg2 p path (L : gset addr) :
  same_views st st1 → inserting st1 hg y st2 hg2 →
  (∀ q, is_Some (node st q) → q ∈ L) → (∀ x, x ∈ path → x ∈ L ∧ tc (parent_of st) p x) →
  (∀ q, is_Some (node st2 q) → q ∈ L) ∧ ∀ x, x ∈ path → x ∈ L ∧ tc (parent_of st2) p x.
Proof.
  intros Hv Hi HL Hpath. split.
  - intros q Hq. apply HL. rewrite <-(proj1 Hv). by apply (rm_live _ _ _ (ins_stores _ _ _ _ _ Hi)).
  - intros x Hx. destruct (Hpath x Hx) as [? Ht]. split; [done|]. eapply tc_subrel; [|exact Ht]. intros a b Hab.
    apply (registered_more_parent _ _ _ a b (ins_stores _ _ _ _ _ Hi)).
    by apply (registered_more_parent (hg_registry hg) _ _ a b (registered_more_views _ _ _ Hv)).
Qed.

Lemma insert_parents fuel ow p path (L : gset addr) st0 hg0 :
  (∀ hg y st ow path', wf st (NodeStrong y :: hg_owners hg ++ ow) → hg_ok st hg →
     (∀ q, is_Some (node st q) → q ∈ L) → NoDup (y :: path') →
     (∀ x, x ∈ path' → x ∈ L ∧ tc (parent_of st) y x) → size L < length path' + fuel →
     inserted st hg y ow (insert_ancestors fuel hg y st) ∨
     refused st hg y (insert_ancestors fuel hg y st)) →
  NoDup (p :: path) → size L < length (p :: path) + fuel →
  ∀ ys st hg,
  wf st (NodeStrong p :: hg_owners hg ++ ow) →
  inserting st0 hg0 p st hg →
  (∀ q, is_Some (node st q) → q ∈ L) →
  (∀ x, x ∈ path → x ∈ L ∧ tc (parent_of st) p x) →
  (∀ y, y ∈ ys → parent_of st0 y p) →
  (∃ st' hg', foldM (insert_parent fuel) (hg, st) ys = Ok (hg', st') ∧
     wf st' (NodeStrong p :: hg_owners hg' ++ ow) ∧ inserting st0 hg0 p st' hg' ∧
     (∀ x, in_graph hg x → in_graph hg' x) ∧ (∀ y, y ∈ ys → in_graph hg' y)) ∨
  refused st0 hg0 p (foldM (insert_parent fuel) (hg, st) ys).
Proof.
  intros IH Hnd Hf. induction ys as [|y ys IHys]; intros st hg Hw Hi HL Hpath Hys.
  { left. exists st, hg. split_and!; try done. by intros y ?%elem_of_nil. }
  simpl. unfold insert_parent at 1 3. simpl.
  destruct (contains_spec st _ hg y Hw (ins_ok _ _ _ _ _ Hi)) as (b & -> & Hb). simpl.
  destruct b; simpl.
  { destruct (IHys st hg Hw Hi HL Hpath) as [(st' & hg' & -> & ? & ? & Hm & Hy')|?]; [set_solver| |by right].
    left. exists st', hg'. split_and!; try done. intros z [->|Hz]%elem_of_cons; [|by auto].
    by apply Hm, Hb. }
  assert (¬ in_graph hg y) as Hny by (intros Hin; by apply Hb in Hin).
  assert (parent_of st0 y p) as Hyp0 by (apply Hys; left).
  assert (parent_of st y p) as Hyp
    by by apply (registered_more_parent _ _ _ y p (ins_stores _ _ _ _ _ Hi)).
  pose proof Hyp as (dp & e & Hdp & He & <-).
  destruct (source_live _ _ _ _ _ Hw Hdp He) as [dy Hdy].
  destruct (rc_clone_wf st _ (ie_source e) dy Hw Hdy) as (st1 & -> & Hw1 & Hv1). simpl.
  pose proof (inserting_views _ _ _ _ _ _ Hi Hv1) as Hi1.
  assert (∀ x z, tc (parent_of st) x z → tc (parent_of st1) x z) as Htc.
  { intros x z. apply tc_subrel. intros a b.
    apply (registered_more_parent (hg_registry hg) _ _ a b (registered_more_views _ _ _ Hv1)). }
  assert (∀ x, x ∈ p :: path → x ∈ L ∧ tc (parent_of st) (ie_source e) x) as Hpath'.
  { intros x [->|Hx]%elem_of_cons; [split; [by apply HL|by apply tc_once]|].
    destruct (Hpath x Hx) as [? Ht]. split; [done|]. by eapply tc_l. }
  destruct (ancestor_rank _ _ Hw) as [rank Hrank].
  destruct (IH hg (ie_source e) st1 (NodeStrong p :: ow) (p :: path))
    as [(id & hg2 & st2 & -> & Hw2 & Hi2 & Hid & _)|Href].
  - eapply wf_perm; [|exact Hw1]. by rewrite <-Permutation_middle.
  - by eapply hg_ok_same_views, ins_ok.
  - intros q. rewrite (proj1 Hv1). apply HL.
  - apply NoDup_cons. split; [|done]. intros Hin. apply Hpath' in Hin as [_ Ht].
    apply Hrank in Ht. lia.
  - intros x Hx. destruct (Hpath' x Hx). auto.
  - done.
  - simpl. pose proof (inserting_parent _ _ _ _ _ _ _ _ Hi1 Hi2 Hyp0 Hny) as Hi2'.
    destruct (IHys st2 hg2) as [(st' & hg' & -> & ? & ? & Hm & Hy')|?]; [..|by right].
    + eapply wf_perm; [|exact Hw2]. by rewrite <-Permutation_middle.
    + done.
    + by apply (inserting_path _ _ _ _ _ _ p path L Hv1 Hi2).
    + by apply (inserting_path _ _ _ _ _ _ p path L Hv1 Hi2).
    + set_solver.
    + left. exists st', hg'. split_and!; try done.
      * intros x Hx. apply Hm. by apply (ins_mono_in _ _ _ _ _ _ Hi2).
      * intros z [->|Hz]%elem_of_cons; [|by auto]. apply Hm. by exists id.
  - right. eapply refused_parent; [exact Hi1|done|done|exact Href|]. by rewrite (proj1 Href).
Qed.

Lemma insert_ancestors_outcome fuel (L : gset addr) hg p st ow path :
  wf st (NodeStrong p :: hg_owners hg ++ ow) → hg_ok st hg →
  (∀ q, is_Some (node st q) → q ∈ L) → NoDup (p :: path) →
  (∀ x, x ∈ path → x ∈ L ∧ tc (parent_of st) p x) → size L < length path + fuel →
  inserted st hg p ow (insert_ancestors fuel hg p st) ∨
  refused st hg p (insert_ancestors fuel hg p st).
Proof.
  revert hg p st ow path. induction fuel as [|fuel IH]; intros hg p st ow path Hw Hok HL Hnd Hpath Hf.
  all: destruct (owner_live st _ p Hw) as [d Hd]; [left|].
  { exfalso. assert (list_to_set (p :: path) ⊆ L) as Hsub.
    { intros x [->|Hx]%elem_of_list_to_set%elem_of_cons; [apply HL; by exists d|by apply Hpath]. }
    apply subseteq_size in Hsub. rewrite size_list_to_set in Hsub by done. simpl in Hsub. lia. }
  simpl. rewrite Hd. simpl.
  destruct (insert_parents fuel ow p path L st hg IH Hnd ltac:(simpl; lia)
    (InnerData_all_parents d) st hg Hw (inserting_refl _ _ _ Hok) HL Hpath)
    as [(st' & hg' & Hfold & Hw' & Hi & _ & Hin)|[Hfold Hx]].
  { intros y. by apply elem_of_all_parents. }
  - unfold insert_parent in Hfold. rewrite Hfold. simpl.
    destruct (owner_live st' _ p Hw') as [d' Hd']; [left|]. eapply insert_self; [done..|].
    intros y Hy. by eapply Hin, elem_of_all_parents.
  - right. unfold insert_parent in Hfold. rewrite Hfold. simpl. by split.
Qed.

(** A call with the fuel of the definition never runs out of it. *)
Lemma HistoryGraph_insert_ancestors_outcome hg p st ow :
  wf st (NodeStrong p :: hg_owners hg ++ ow) → hg_ok st hg →
  inserted st hg p ow (HistoryGraph_insert_ancestors hg p st) ∨
  refused st hg p (HistoryGraph_insert_ancestors hg p st).
Proof.
  intros Hw Hok. eapply (insert_ancestors_outcome _ (dom (st_nodes st)) _ _ _ _ []); try done.
  - intros q [d (b & Hb & _)%node_Some]. by eapply elem_of_dom_2.
  - apply NoDup_singleton.
  - by intros x ?%elem_of_nil.
  - rewrite size_dom. simpl. lia.
Qed.
End insert_ancestors.
