(* ===== verification/Serialization.v ===== *)
(** * [serialization.rs]: serialisable representations

    Values are cloned by [N: Clone] and [E: Clone], which is taken to be the
    identity. *)

From S2P Require Import Prelude Slotmap Store StoreFacts Rc Registry Drop DropFacts RegistryOps Edge Node History.

Record SerializedInnerData (N E : Type) {S : SlotMapSig} := mkSerializedInnerData {
  sid_value : N;
  sid_incoming : list (NodeId * E);
}.
Arguments mkSerializedInnerData {N E S} _ _.
Arguments sid_value {N E S} _.
Arguments sid_incoming {N E S} _.

Record SerializedRegistry (N E : Type) {S : SlotMapSig} := mkSerializedRegistry {
  sr_nodes : SlotMap (SerializedInnerData N E);
}.
Arguments mkSerializedRegistry {N E S} _.
Arguments sr_nodes {N E S} _.

(** [nodes] is a [BTreeSet]: ascending and without repetitions. *)
Record SerializedHistoryGraph (N E : Type) {S : SlotMapSig} := mkSerializedHistoryGraph {
  shg_nodes : list NodeId;
  shg_registry : SerializedRegistry N E;
}.
Arguments mkSerializedHistoryGraph {N E S} _ _.
Arguments shg_nodes {N E S} _.
Arguments shg_registry {N E S} _.

Record SerializedRelRc (N E : Type) {S : SlotMapSig} := mkSerializedRelRc {
  srr_id : NodeId;
  srr_ancestors_graph : SerializedHistoryGraph N E;
}.
Arguments mkSerializedRelRc {N E S} _ _.
Arguments srr_id {N E S} _.
Arguments srr_ancestors_graph {N E S} _.

Section mapping.
Context {N M E : Type} {S : SlotMapSig}.

Definition SerializedInnerData_map_value (f : N → M) (s : SerializedInnerData N E) :
    SerializedInnerData M E :=
  mkSerializedInnerData (f (sid_value s)) (sid_incoming s).

(** The closure is taken to be a pure function. *)
Definition SerializedRegistry_map_nodes (f : N → M) (r : SerializedRegistry N E) :
    result (SerializedRegistry M E) :=
  nodes ← sm_map (λ _ v, Ok (SerializedInnerData_map_value f v)) (sr_nodes r);
  Ok (mkSerializedRegistry nodes).
End mapping.

Section serialization.
Context {N E : Type} {S : SlotMapSig} {A : Allocator}.
Implicit Types (st : store N E) (p q g : addr) (R : Registry) (hg : HistoryGraph) (id k : NodeId).

(** ** Serialising *)

(** The node is a temporary of the call. *)
Definition serialize_inner_data id R st : result (SerializedInnerData N E * store N E) :=
  r ← Registry_get R id st;
  p ← expect "valid node" r.1;
  d ← deref (node r.2 p);
  parent_ids ← traverse (λ n, expect "valid node" (Registry_get_id R n)) (InnerData_all_parents d);
  let incoming := zip parent_ids (InnerEdgeData_value <$> InnerData_all_incoming d) in
  st' ← drop_relrc p r.2;
  Ok (mkSerializedInnerData (InnerData_value d) incoming, st').

Definition Registry_to_serialized R st : result (SerializedRegistry N E * store N E) :=
  nodes ← sm_map_state (λ k _, serialize_inner_data k R) (Registry_as_slotmap R) st;
  Ok (mkSerializedRegistry nodes.1, nodes.2).

(** The ids of the ancestors of one node; ancestors that have none get one. *)
Definition ancestor_ids (acc : list NodeId * Registry * store N E) id :
    result (list NodeId * Registry * store N E) :=
  r ← Registry_get acc.1.2 id acc.2;
  p ← expect "invalid node" r.1;
  ancestors ← RelRc_all_ancestors p r.2;
  ids ← foldM (λ a n,
          i ← Registry_get_id_or_insert a.1.2 n a.2;
          Ok (a.1.1 ++ [i.1.1], i.1.2, i.2))
        (acc.1.1, acc.1.2, r.2) ancestors;
  st' ← drop_relrc p ids.2;
  Ok (ids.1, st').

Definition HistoryGraph_to_serialized hg st :
    result (SerializedHistoryGraph N E * store N E) :=
  let nodes := btree_set (HistoryGraph_all_node_ids hg) in
  c ← with_registry (hg_registry hg) Registry_clone st;
  a ← foldM ancestor_ids ([], c.1, c.2) nodes;
  let ancestors : gset NodeId := list_to_set a.1.1 in
  ser ← Registry_to_serialized a.1.2 a.2;
  let kept := sm_retain (λ k _, bool_decide (k ∈ ancestors)) (sr_nodes ser.1) in
  st' ← drop_refs (registry_refs a.1.2) ser.2;
  Ok (mkSerializedHistoryGraph nodes (mkSerializedRegistry kept), st').

(** [registry.into()] has happened: [g] is an owned [Rc].  The graph is dropped
    at the end. *)
Definition RelRc_to_serialized p g st : result (SerializedRelRc N E * store N E) :=
  h ← HistoryGraph_with_registry g st;
  st1 ← rc_clone p h.2;
  i ← HistoryGraph_insert_ancestors h.1 p st1;
  s ← HistoryGraph_to_serialized i.1.2 i.2;
  st' ← HistoryGraph_drop i.1.2 s.2;
  Ok (mkSerializedRelRc i.1.1 s.1, st').

(** ** Deserialising *)

(** The state of the recursion: what is left to deserialise, the nodes that
    exist already, and the store. *)
Record deser_state := mkDeser {
  ds_serialised : SlotMap (SerializedInnerData N E);
  ds_nodes : SecondaryMap addr;
  ds_store : store N E;
}.

(** [all_nodes.get(parent_id).expect(..).clone()] with the edge value. *)
Definition clone_parent (nodes : SecondaryMap addr) (acc : list (addr * E) * store N E)
    (pe : NodeId * E) : result (list (addr * E) * store N E) :=
  parent ← expect "valid dfs order" (sec_get pe.1 nodes);
  st' ← rc_clone parent acc.2;
  Ok (acc.1 ++ [(parent, pe.2)], st').

Fixpoint deserialize_node (fuel : nat) id (ds : deser_state) : result deser_state :=
  match fuel with
  | 0 => Err OutOfFuel
  | Datatypes.S fuel' =>
      let rem := sm_remove id (ds_serialised ds) in
      node_ser ← expect "invalid node_id" rem.1;
      ds1 ← foldM (λ ds' pe,
              if sec_contains_key pe.1 (ds_nodes ds') then Ok ds'
              else deserialize_node fuel' pe.1 ds')
            (mkDeser rem.2 (ds_nodes ds) (ds_store ds)) (sid_incoming node_ser);
      incoming ← foldM (clone_parent (ds_nodes ds1)) ([], ds_store ds1) (sid_incoming node_ser);
      r ← RelRc_with_parents (sid_value node_ser) incoming.1 incoming.2;
      let ins := sec_insert id r.1 (ds_nodes ds1) in
      st' ← drop_refs (NodeStrong <$> option_list ins.1) r.2;
      Ok (mkDeser (ds_serialised ds1) ins.2 st')
  end.

(** Every call takes at least one node out of the slot map. *)
Fixpoint deserialize_loop (fuel : nat) (ds : deser_state) : result deser_state :=
  match sm_iter (ds_serialised ds) with
  | [] => Ok ds
  | (id, _) :: _ =>
      match fuel with
      | 0 => Err OutOfFuel
      | Datatypes.S fuel' =>
          ds' ← deserialize_node (Datatypes.S (sm_len (ds_serialised ds))) id ds;
          deserialize_loop fuel' ds'
      end
  end.

Definition deserialize_nodes (serialised_nodes : SlotMap (SerializedInnerData N E)) st :
    result (SecondaryMap addr * store N E) :=
  ds ← deserialize_loop (sm_len serialised_nodes) (mkDeser serialised_nodes sec_new st);
  Ok (ds_nodes ds, ds_store ds).

(** The weak references of the registry are made one by one by the closure of
    [map]; here first the slot map of their addresses, then the counts. *)
Definition Registry_from_serialized (ser : SerializedRegistry N E) st :
    result (Registry * SecondaryMap addr * store N E) :=
  nodes_set ← sm_map (λ _ _, Ok tt) (sr_nodes ser);
  r ← deserialize_nodes (sr_nodes ser) st;
  registry ← sm_map (λ k _, expect "invalid node_id" (sec_get k r.1)) nodes_set;
  st' ← foldM (λ s kp, rc_new_weak kp.2 s) r.2 (sm_iter registry);
  Ok (Registry_from_slotmap registry, r.1, st').

(** [keep_nodes.iter().all(|&k| registry.contains_id(k))] *)
Fixpoint all_contains_id R (ks : list NodeId) st : result (bool * store N E) :=
  match ks with
  | [] => Ok (true, st)
  | k :: ks =>
      r ← Registry_contains_id R k st;
      if r.1 then all_contains_id R ks r.2 else Ok (false, r.2)
  end.

Definition HistoryGraph_from_serialized (ser : SerializedHistoryGraph N E) st :
    result (HistoryGraph * store N E) :=
  r ← Registry_from_serialized (shg_registry ser) st;
  let keep_nodes : gset NodeId := list_to_set (shg_nodes ser) in
  _ ← assert_that "assertion failed: keep_nodes.iter().all(|&k| all_nodes.contains_key(k))"
        (forallb (λ k, sec_contains_key k r.1.2) (elements keep_nodes));
  c ← all_contains_id r.1.1 (elements keep_nodes) r.2;
  _ ← assert_that "assertion failed: keep_nodes.iter().all(|&k| registry.contains_id(k))" c.1;
  let kept := sec_retain (λ k _, bool_decide (k ∈ keep_nodes)) r.1.2 in
  let removed := filter (λ kp, kp.1 ∉ keep_nodes) (sec_iter r.1.2) in
  st1 ← drop_refs (NodeStrong <$> removed.*2) c.2;
  _ ← assert_that "assertion failed: all_nodes.values().all(|v| registry.contains(v))"
        (forallb (Registry_contains r.1.1) (sec_values kept));
  let g := reg_alloc r.1.1 st1 in
  HistoryGraph_new (sec_values kept) g.1 g.2.

Definition RelRc_from_serialized (ser : SerializedRelRc N E) st : result (addr * store N E) :=
  h ← HistoryGraph_from_serialized (srr_ancestors_graph ser) st;
  p ← expect "valid node" (HistoryGraph_get_node h.1 (srr_id ser));
  st1 ← rc_clone p h.2;
  st' ← HistoryGraph_drop h.1 st1;
  Ok (p, st').

(** The [From] implementations; the graph is consumed. *)
Definition RelRc_from_SerializedRelRc (serialized : SerializedRelRc N E) st : result (addr * store N E) :=
  RelRc_from_serialized serialized st.
Definition SerializedHistoryGraph_from_HistoryGraph (value : HistoryGraph) st :
    result (SerializedHistoryGraph N E * store N E) :=
  r ← HistoryGraph_to_serialized value st;
  st' ← HistoryGraph_drop value r.2;
  Ok (r.1, st').
Definition HistoryGraph_from_SerializedHistoryGraph (value : SerializedHistoryGraph N E) st :
    result (HistoryGraph * store N E) :=
  HistoryGraph_from_serialized value st.
End serialization.
