(* ===== verification/Deserialize.v ===== *)
(** * Deserialisation

    [deserialize_nodes] terminates on every input.  It rebuilds exactly the
    serialised nodes, or panics because the input names an id it does not hold
    or because its parent relation is cyclic. *)

From S2P Require Import Prelude Slotmap Store StoreFacts Rc Registry Drop DropFacts RegistryOps Edge Node NodeFacts RegistryFacts History Serialization.

Section deserialize.
Context {N E : Type} {S : SlotMapSig} {SLaws : SlotMapLaws S} {A : Allocator}.
Implicit Types (st : store N E) (p q : addr) (id j k : NodeId) (d : InnerData N E) (ow : list ref).
Implicit Types (ds : deser_state (N:=N) (E:=E)) (s : SerializedInnerData N E).
Implicit Types (nodes : SecondaryMap addr) (ser : SlotMap (SerializedInnerData N E)).

(** ** Serialised histories *)

(** [j] is the id of a parent of [k]. *)
Definition ser_parent ser j k : Prop :=
  ∃ s e, sm_get k ser = Some s ∧ (j, e) ∈ sid_incoming s.

Definition ser_bad ser : Prop :=
  (∃ k, tc (ser_parent ser) k k) ∨ (∃ j k, ser_parent ser j k ∧ sm_get j ser = None).

(** The node [d] is what [s] describes, its parents found in [nodes]. *)
Definition decodes nodes s d : Prop :=
  nd_value d = sid_value s ∧
  Forall2 (λ pe e, sec_get pe.1 nodes = Some (ie_source e) ∧ ie_value e = pe.2)
    (sid_incoming s) (nd_incoming d).

Definition node_owners nodes : list ref := NodeStrong <$> sec_values nodes.

(** ** The invariant of the recursion *)

Record deser_inv ser0 st0 ow ds : Prop := {
  di_wf : wf (ds_store ds) (node_owners (ds_nodes ds) ++ ow);
  di_decoded k p : sec_get k (ds_nodes ds) = Some p →
    sm_get k (ds_serialised ds) = None ∧ st_nodes st0 !! p = None ∧
    ∃ s d, sm_get k ser0 = Some s ∧ node (ds_store ds) p = Some d ∧
      nd_registry d = None ∧ decodes (ds_nodes ds) s d;
  di_inj j k p : sec_get j (ds_nodes ds) = Some p → sec_get k (ds_nodes ds) = Some p → j = k;
  di_ser k s : sm_get k (ds_serialised ds) = Some s → sm_get k ser0 = Some s;
  di_old q d : node st0 q = Some d → node (ds_store ds) q = Some d;
  di_new q d : node (ds_store ds) q = Some d →
    node st0 q = Some d ∨ ∃ k, sec_get k (ds_nodes ds) = Some q;
  di_reg g : registry_at (ds_store ds) g = registry_at st0 g;
  di_start : wf st0 ow;
}.

(** What a call may change. *)
Record deser_step ds ds' : Prop := {
  dp_nodes k p : sec_get k (ds_nodes ds) = Some p → sec_get k (ds_nodes ds') = Some p;
  dp_ser k s : sm_get k (ds_serialised ds') = Some s → sm_get k (ds_serialised ds) = Some s;
  dp_new k : is_Some (sec_get k (ds_nodes ds')) →
    is_Some (sec_get k (ds_nodes ds)) ∨ is_Some (sm_get k (ds_serialised ds));
  dp_done k : is_Some (sm_get k (ds_serialised ds)) → sm_get k (ds_serialised ds') = None →
    is_Some (sec_get k (ds_nodes ds'));
}.

Lemma deser_step_refl ds : deser_step ds ds.
Proof. split; try done; [by left|]. intros k [s Hs]. congruence. Qed.

Lemma deser_step_trans ds1 ds2 ds3 : deser_step ds1 ds2 → deser_step ds2 ds3 → deser_step ds1 ds3.
Proof.
  intros H12 H23. split.
  - intros k p Hk. by apply H23, H12.
  - intros k s Hk. by apply H12, H23.
  - intros k Hk. destruct (dp_new _ _ H23 k Hk) as [?|[s Hs]]; [by apply H12|right].
    exists s. by apply H12.
  - intros k Hk Hn. destruct (sm_get k (ds_serialised ds2)) as [s|] eqn:Hs.
    + by apply (dp_done _ _ H23); [exists s|].
    + destruct (dp_done _ _ H12 k Hk Hs) as [p Hp]. exists p. by apply H23.
Qed.

(** Ids taken out of the slot map whose node does not exist yet: the calls in
    progress. *)
Definition pending ser0 ds k : Prop :=
  is_Some (sm_get k ser0) ∧ sm_get k (ds_serialised ds) = None ∧ sec_get k (ds_nodes ds) = None.

Lemma pending_step ser0 ds ds' k : deser_step ds ds' → pending ser0 ds' k → pending ser0 ds k.
Proof.
  intros Hs (Hk & Hser & Hn). split; [done|]. split.
  - destruct (sm_get k (ds_serialised ds)) as [s|] eqn:E'; [exfalso|done].
    destruct (dp_done _ _ Hs k) as [p Hp]; [by exists s|done|]. congruence.
  - destruct (sec_get k (ds_nodes ds)) as [p|] eqn:E'; [exfalso|done].
    apply (dp_nodes _ _ Hs) in E'. congruence.
Qed.

Lemma decodes_mono nodes nodes' s d :
  (∀ k p, sec_get k nodes = Some p → sec_get k nodes' = Some p) →
  decodes nodes s d → decodes nodes' s d.
Proof.
  intros Hm [Hv Hf]. split; [done|]. eapply Forall2_impl; [done|]. intros pe e [? ?]. split; [|done].
  by apply Hm.
Qed.

(** ** Creating the node, once its parents exist *)

Lemma clone_parents_loop nodes l acc st ow :
  wf st (parent_owners acc ++ node_owners nodes ++ ow) →
  (∀ pe, pe ∈ l → is_Some (sec_get pe.1 nodes)) →
  ∃ parents st', foldM (clone_parent nodes) (acc, st) l = Ok (acc ++ parents, st') ∧
    wf st' (parent_owners (acc ++ parents) ++ node_owners nodes ++ ow) ∧ same_views st st' ∧
    Forall2 (λ (pe : NodeId * E) (pp : addr * E), sec_get pe.1 nodes = Some pp.1 ∧ pp.2 = pe.2)
      l parents.
Proof.
  revert acc st. induction l as [|pe l IH]; intros acc st Hw Hl.
  { exists [], st. rewrite app_nil_r. split_and!; [done..|constructor]. }
  simpl. unfold clone_parent at 1. destruct (Hl pe) as [p Hp]; [left|]. rewrite Hp. simpl.
  assert (NodeStrong p ∈ parent_owners acc ++ node_owners nodes ++ ow) as Hin.
  { apply elem_of_app. right. apply elem_of_app. left. apply list_elem_of_fmap. exists p.
    split; [done|]. apply elem_of_sec_values. by exists pe.1. }
  destruct (owner_live _ _ _ Hw Hin) as [d Hd].
  destruct (rc_clone_wf _ _ p d Hw Hd) as (st1 & -> & Hw1 & Hv1). simpl.
  destruct (IH (acc ++ [(p, pe.2)]) st1) as (parents & st' & -> & Hw' & Hv' & Hf).
  - unfold parent_owners in *. rewrite fmap_app. simpl.
    eapply wf_perm; [|exact Hw1]. rewrite <-(assoc_L (++)). simpl. by rewrite <-Permutation_middle.
  - intros pe' Hpe'. apply Hl. by right.
  - exists ((p, pe.2) :: parents), st'. rewrite <-(assoc_L (++)) in *. simpl in *.
    split_and!; [done..|by etrans|]. constructor; [done|done].
Qed.

(** The node of [id] has been created at [p] with the cloned [parents], in the
    store [st2], and is recorded in [nodes']. *)
Section created.
Context (ser0 : SlotMap (SerializedInnerData N E)) (st0 st2 : store N E) (ow : list ref)
  (ds : deser_state (N:=N) (E:=E)) (id : NodeId) (s : SerializedInnerData N E) (p : addr)
  (parents : list (addr * E)) (nodes' : SecondaryMap addr).
Hypothesis Hi : deser_inv ser0 st0 ow ds.
Hypothesis Hs : sm_get id ser0 = Some s.
Hypothesis Hser : sm_get id (ds_serialised ds) = None.
Hypothesis Hid : sec_get id (ds_nodes ds) = None.
Hypothesis Hparents : Forall2 (λ (pe : NodeId * E) (pp : addr * E),
  sec_get pe.1 (ds_nodes ds) = Some pp.1 ∧ pp.2 = pe.2) (sid_incoming s) parents.
Hypothesis Hfresh : node (ds_store ds) p = None.
Hypothesis Hunused : st_nodes st0 !! p = None.
Hypothesis Hn2 : ∀ q, node st2 q =
  if decide (q = p) then Some (mkInnerData (sid_value s) (new_incoming p parents) [] None) else
  (λ d, set_outgoing d (nd_outgoing d ++
     new_outgoing q (zip (seq 0 (length parents)) (new_incoming p parents)))) <$>
  node (ds_store ds) q.
Hypothesis Hget : ∀ k, sec_get k nodes' = if decide (k = id) then Some p else sec_get k (ds_nodes ds).

Lemma created_mono k q : sec_get k (ds_nodes ds) = Some q → sec_get k nodes' = Some q.
Proof. intros Hq. rewrite Hget. case_decide; [congruence|done]. Qed.

Lemma created_ne k q : sec_get k (ds_nodes ds) = Some q → q ≠ p.
Proof.
  intros Hq ->. destruct (di_decoded _ _ _ _ Hi k p Hq) as (_ & _ & s' & d & _ & Hd & _). congruence.
Qed.

(** The nodes of the original store are not among the parents. *)
Lemma created_old q d0 : node st0 q = Some d0 → node st2 q = Some d0.
Proof.
  intros Hd0. pose proof (di_old _ _ _ _ Hi q d0 Hd0) as Hd. rewrite Hn2, decide_False by congruence.
  rewrite Hd. simpl. rewrite new_outgoing_other, app_nil_r; [by destruct d0|].
  intros pp Hpp <-. apply list_elem_of_lookup in Hpp as [i Hpp].
  destruct (Forall2_lookup_r _ _ _ _ _ Hparents Hpp) as (pe & _ & Hpe & _).
  destruct (di_decoded _ _ _ _ Hi _ _ Hpe) as (_ & Hnone%fresh_node & _). congruence.
Qed.

Lemma created_decoded k q :
  sec_get k nodes' = Some q →
  sm_get k (ds_serialised ds) = None ∧ st_nodes st0 !! q = None ∧
  ∃ s d, sm_get k ser0 = Some s ∧ node st2 q = Some d ∧ nd_registry d = None ∧ decodes nodes' s d.
Proof.
  rewrite Hget. case_decide as Hk.
  - intros [= <-]. subst k. split; [done|]. split; [done|].
    exists s. eexists. rewrite Hn2, decide_True by done. split_and!; try done. split; [done|].
    simpl. unfold new_incoming. apply Forall2_fmap_r. eapply Forall2_impl; [exact Hparents|].
    intros pe pp [? ?]. simpl. split; [by apply created_mono|done].
  - intros Hq. destruct (di_decoded _ _ _ _ Hi k q Hq) as (? & ? & s' & d & Hs' & Hd & Hr & Hdec).
    split; [done|]. split; [done|]. exists s'. eexists.
    rewrite Hn2, decide_False by (by eapply created_ne). rewrite Hd. simpl. split_and!; try done.
    apply (decodes_mono _ nodes') in Hdec as [Hv Hinc]; [|apply created_mono]. by split.
Qed.

Lemma created_new q d :
  node st2 q = Some d → node st0 q = Some d ∨ ∃ k, sec_get k nodes' = Some q.
Proof.
  intros Hq2. pose proof Hq2 as Hq. rewrite Hn2 in Hq. case_decide as Hqp.
  { right. exists id. subst. by rewrite Hget, decide_True. }
  apply fmap_Some in Hq as (d' & Hd' & _). destruct (di_new _ _ _ _ Hi q d' Hd') as [H0|[k Hk]].
  - left. pose proof (created_old q d' H0). congruence.
  - right. exists k. by apply created_mono.
Qed.

Lemma created_inv :
  wf st2 (node_owners nodes' ++ ow) → (∀ g, registry_at st2 g = registry_at (ds_store ds) g) →
  deser_inv ser0 st0 ow (mkDeser (ds_serialised ds) nodes' st2).
Proof.
  intros Hw HR. split; simpl; [done|exact created_decoded| |apply Hi|exact created_old|exact created_new| |apply Hi].
  - intros j k q. rewrite !Hget. repeat case_decide; try congruence.
    + intros [= <-] Hq. by apply created_ne in Hq.
    + intros Hq [= <-]. by apply created_ne in Hq.
    + by apply Hi.
  - intros g. rewrite HR. apply Hi.
Qed.
End created.

(** The node of [id] is created and stored. *)
Lemma create_node ser0 st0 ow ds id s :
  deser_inv ser0 st0 ow ds → sm_get id ser0 = Some s → sm_get id (ds_serialised ds) = None →
  sec_get id (ds_nodes ds) = None →
  (∀ pe, pe ∈ sid_incoming s → is_Some (sec_get pe.1 (ds_nodes ds))) →
  ∃ ds', (incoming ← foldM (clone_parent (ds_nodes ds)) ([], ds_store ds) (sid_incoming s);
          r ← RelRc_with_parents (sid_value s) incoming.1 incoming.2;
          let ins := sec_insert id r.1 (ds_nodes ds) in
          st' ← drop_refs (NodeStrong <$> option_list ins.1) r.2;
          Ok (mkDeser (ds_serialised ds) ins.2 st')) = Ok ds' ∧
    deser_inv ser0 st0 ow ds' ∧ ds_serialised ds' = ds_serialised ds ∧
    (∀ k, is_Some (sec_get k (ds_nodes ds')) ↔ is_Some (sec_get k (ds_nodes ds)) ∨ k = id) ∧
    (∀ k p, sec_get k (ds_nodes ds) = Some p → sec_get k (ds_nodes ds') = Some p).
Proof.
  intros Hi Hs Hser Hid Hpar.
  destruct (clone_parents_loop (ds_nodes ds) (sid_incoming s) [] (ds_store ds) ow
    (di_wf _ _ _ _ Hi) Hpar) as (parents & st1 & -> & Hw1 & [Hn1 HR1] & Hf). simpl in *.
  destruct (RelRc_with_parents_spec st1 _ (sid_value s) parents Hw1)
    as (p & st2 & -> & Hw2 & Hfresh & Hn2 & HR2). simpl.
  assert (st_nodes st0 !! p = None) as Hunused.
  { eapply (alloc_preserved st0 ow st1); [apply Hi|exact Hw1|set_solver| | |done].
    - intros q d Hq. rewrite Hn1. by apply Hi.
    - intros g. rewrite HR1. apply Hi. }
  apply fresh_node in Hfresh. rewrite Hn1 in Hfresh.
  assert (sec_within (ds_nodes ds) ser0) as Hwithin.
  { intros k [q Hq]. destruct (di_decoded _ _ _ _ Hi k q Hq) as (_ & _ & s' & _ & ? & _). by exists s'. }
  assert (is_Some (sm_get id ser0)) as Hids by by exists s.
  rewrite (sec_insert_result id p _ ser0 Hids Hwithin), Hid. simpl. rewrite drop_refs_nil. simpl.
  assert (∀ k, sec_get k (sec_insert id p (ds_nodes ds)).2 =
    if decide (k = id) then Some p else sec_get k (ds_nodes ds)) as Hget.
  { intros k. by apply (sec_insert_get id p _ ser0 k). }
  eexists. split; [done|]. split_and!; simpl; [|done| |].
  - eapply created_inv; try done.
    + intros q. by rewrite Hn2, Hn1.
    + eapply wf_perm; [|exact Hw2]. unfold node_owners, sec_values.
      by rewrite (sec_iter_insert_fresh id p _ ser0 Hids Hwithin Hid).
    + intros g. by rewrite HR2, HR1.
  - intros k. rewrite Hget. case_decide; [|naive_solver]. split; [by right|by exists p].
  - intros k q Hq. rewrite Hget. case_decide; [congruence|done].
Qed.

(** ** The recursion *)

Definition refused_input {B} ser0 (r : result B) : Prop :=
  r = Err (Panic "invalid node_id") ∧ ser_bad ser0.

Definition deserialize_parent fuel ds (pe : NodeId * E) : result deser_state :=
  if sec_contains_key pe.1 (ds_nodes ds) then Ok ds else deserialize_node fuel pe.1 ds.

(** The loop over the parents of [id]. *)
Lemma deserialize_parents ser0 st0 ow fuel id :
  (∀ j ds, deser_inv ser0 st0 ow ds → sm_len (ds_serialised ds) < fuel →
     (sm_get j ser0 = None → ser_bad ser0) → sec_get j (ds_nodes ds) = None →
     (∀ k, pending ser0 ds k → tc (ser_parent ser0) j k) →
     (∃ ds', deserialize_node fuel j ds = Ok ds' ∧ deser_inv ser0 st0 ow ds' ∧
        deser_step ds ds' ∧ is_Some (sec_get j (ds_nodes ds'))) ∨
     refused_input ser0 (deserialize_node fuel j ds)) →
  ∀ l ds, deser_inv ser0 st0 ow ds → sm_len (ds_serialised ds) < fuel →
    (∀ pe, pe ∈ l → ser_parent ser0 pe.1 id) → 
    (∀ k, pending ser0 ds k → k = id ∨ tc (ser_parent ser0) id k) →
    (∃ ds', foldM (deserialize_parent fuel) ds l = Ok ds' ∧ deser_inv ser0 st0 ow ds' ∧
       deser_step ds ds' ∧ ∀ pe, pe ∈ l → is_Some (sec_get pe.1 (ds_nodes ds'))) ∨
    refused_input ser0 (foldM (deserialize_parent fuel) ds l).
Proof.
  intros IH. induction l as [|pe l IHl]; intros ds Hi Hf Hl Hp.
  { left. exists ds. split_and!; [done|done|apply deser_step_refl|]. by intros pe ?%elem_of_nil. }
  simpl. unfold deserialize_parent at 1 3.
  assert (∀ ds1, deser_inv ser0 st0 ow ds1 → deser_step ds ds1 → is_Some (sec_get pe.1 (ds_nodes ds1)) →
    (∃ ds', foldM (deserialize_parent fuel) ds1 l = Ok ds' ∧ deser_inv ser0 st0 ow ds' ∧
       deser_step ds ds' ∧ ∀ pe', pe' ∈ pe :: l → is_Some (sec_get pe'.1 (ds_nodes ds'))) ∨
    refused_input ser0 (foldM (deserialize_parent fuel) ds1 l)) as Hrest.
  { intros ds1 Hi1 Hs1 [p1 Hp1]. destruct (IHl ds1 Hi1) as [(ds' & Heq & Hi' & Hs' & Hin)|?].
    - pose proof (sm_len_mono _ _ (dp_ser _ _ Hs1)). lia.
    - intros pe' Hpe'. apply Hl. by right.
    - intros k Hk. apply Hp. by eapply pending_step.
    - left. exists ds'. split_and!; [done|done|by eapply deser_step_trans|].
      intros pe' [->|?]%elem_of_cons; [|by auto]. exists p1. by apply Hs'.
    - by right. }
  destruct (sec_contains_key pe.1 (ds_nodes ds)) eqn:Hc; simpl.
  { apply Hrest; [done|apply deser_step_refl|]. by apply sec_contains_key_spec. }
  assert (ser_parent ser0 pe.1 id) as Hpar by (apply Hl; left).
  assert (sec_get pe.1 (ds_nodes ds) = None) as Hnone.
  { destruct (sec_get pe.1 (ds_nodes ds)) eqn:Hg; [|done]. exfalso.
    enough (sec_contains_key pe.1 (ds_nodes ds) = true) by congruence.
    apply sec_contains_key_spec. by rewrite Hg. }
  destruct (IH pe.1 ds Hi Hf) as [(ds1 & -> & Hi1 & Hs1 & Hin1)|[-> Hbad]].
  - intros Hn. right. by exists pe.1, id.
  - done.
  - intros k Hk. destruct (Hp k Hk) as [->|Ht]; [by apply tc_once|by eapply tc_l].
  - simpl. by apply Hrest.
  - right. by split.
Qed.

Lemma deserialize_node_outcome ser0 st0 ow fuel id ds :
  deser_inv ser0 st0 ow ds → sm_len (ds_serialised ds) < fuel →
  (sm_get id ser0 = None → ser_bad ser0) → sec_get id (ds_nodes ds) = None →
  (∀ k, pending ser0 ds k → tc (ser_parent ser0) id k) →
  (∃ ds', deserialize_node fuel id ds = Ok ds' ∧ deser_inv ser0 st0 ow ds' ∧
     deser_step ds ds' ∧ is_Some (sec_get id (ds_nodes ds'))) ∨
  refused_input ser0 (deserialize_node fuel id ds).
Proof.
  revert id ds. induction fuel as [|fuel IH]; intros id ds Hi Hf Hn Hid Hp; [lia|].
  simpl. rewrite sm_remove_result. destruct (sm_get id (ds_serialised ds)) as [s|] eqn:Hs; simpl.
  2: { right. split; [done|]. destruct (sm_get id ser0) as [s|] eqn:Hs0; [|by apply Hn].
       left. exists id. apply Hp. split_and!; [by exists s|done|done]. }
  pose proof (di_ser _ _ _ _ Hi _ _ Hs) as Hs0.
  set (ds0 := mkDeser (sm_remove id (ds_serialised ds)).2 (ds_nodes ds) (ds_store ds)).
  assert (∀ k, sm_get k (ds_serialised ds0) = if decide (k = id) then None else sm_get k (ds_serialised ds)) as Hrem.
  { intros k. apply sm_remove_get. }
  assert (deser_inv ser0 st0 ow ds0) as Hi0.
  { destruct Hi as [Hwf Hdec Hinj Hser Hold Hnew Hreg]. split; try done.
    - intros k p Hk. destruct (Hdec k p Hk) as [? ?]. split; [|done]. rewrite Hrem. by case_decide.
    - intros k s'. rewrite Hrem. case_decide; [done|apply Hser]. }
  destruct (deserialize_parents ser0 st0 ow fuel id IH (sid_incoming s) ds0 Hi0)
    as [(ds1 & Heq & Hi1 & Hs1 & Hin)|[Heq Hbad]].
  - rewrite (sm_len_remove id s _ Hs) in Hf. simpl. lia.
  - intros [j e] Hpe. by exists s, e.
  - intros k (Hk & Hk1 & Hk2). destruct (decide (k = id)) as [->|Hne]; [by left|right].
    apply Hp. split_and!; [done| |done]. by rewrite Hrem, decide_False in Hk1.
  - unfold deserialize_parent in Heq. rewrite Heq. simpl. left.
    assert (sm_get id (ds_serialised ds1) = None) as Hid1.
    { destruct (sm_get id (ds_serialised ds1)) as [s'|] eqn:Hs'; [exfalso|done].
      apply (dp_ser _ _ Hs1) in Hs'. by rewrite Hrem, decide_True in Hs'. }
    assert (sec_get id (ds_nodes ds1) = None) as Hid2.
    { destruct (sec_get id (ds_nodes ds1)) as [q|] eqn:Hq; [exfalso|done].
      destruct (dp_new _ _ Hs1 id) as [[? Hx]|[? Hx]]; [by exists q|simpl in Hx; congruence|].
      by rewrite Hrem, decide_True in Hx. }
    destruct (create_node ser0 st0 ow ds1 id s Hi1 Hs0 Hid1 Hid2 Hin) as (ds' & Heq' & Hi' & Hser' & Hdom & Hmono).
    exists ds'. split_and!; [exact Heq'|done| |by apply Hdom; right]. split.
    + intros k p Hk. by apply Hmono, Hs1.
    + intros k s' Hk. rewrite Hser' in Hk. apply (dp_ser _ _ Hs1) in Hk. rewrite Hrem in Hk.
      by case_decide.
    + intros k [Hk| ->]%Hdom; [|right; by exists s].
      destruct (dp_new _ _ Hs1 k Hk) as [?|[s' Hx]]; [by left|right]. rewrite Hrem in Hx.
      case_decide; [done|by exists s'].
    + intros k [s' Hk] Hnk. apply Hdom. destruct (decide (k = id)) as [->|Hne]; [by right|left].
      rewrite Hser' in Hnk. apply (dp_done _ _ Hs1); [|done]. rewrite Hrem, decide_False by done. by exists s'.
  - unfold deserialize_parent in Heq. rewrite Heq. right. by split.
Qed.

(** ** All nodes *)

(** [nodes] holds a fresh copy of every serialised node; what was there before
    is unchanged. *)
Record decoded ser st0 ow nodes st : Prop := {
  dec_wf : wf st (node_owners nodes ++ ow);
  dec_dom k : is_Some (sec_get k nodes) ↔ is_Some (sm_get k ser);
  dec_node k p : sec_get k nodes = Some p → st_nodes st0 !! p = None ∧
    ∃ s d, sm_get k ser = Some s ∧ node st p = Some d ∧ nd_registry d = None ∧ decodes nodes s d;
  dec_inj j k p : sec_get j nodes = Some p → sec_get k nodes = Some p → j = k;
  dec_old q d : node st0 q = Some d → node st q = Some d;
  dec_new q d : node st q = Some d → node st0 q = Some d ∨ ∃ k, sec_get k nodes = Some q;
  dec_reg g : registry_at st g = registry_at st0 g;
}.

Lemma deser_finish ser0 st0 ow ds :
  deser_inv ser0 st0 ow ds → (∀ k, ¬ pending ser0 ds k) → sm_iter (ds_serialised ds) = [] →
  decoded ser0 st0 ow (ds_nodes ds) (ds_store ds).
Proof.
  intros Hi Hp Hiter. split; try apply Hi.
  - intros k. split.
    + intros [p Hk]. destruct (di_decoded _ _ _ _ Hi k p Hk) as (_ & _ & s & _ & ? & _). by exists s.
    + intros [s Hs]. destruct (sec_get k (ds_nodes ds)) eqn:Hk; [done|]. exfalso. apply (Hp k).
      split_and!; [by exists s| |done]. destruct (sm_get k (ds_serialised ds)) as [s'|] eqn:Hk'; [|done].
      apply sm_iter_get in Hk'. rewrite Hiter in Hk'. by apply elem_of_nil in Hk'.
Qed.

Lemma deserialize_loop_outcome ser0 st0 ow fuel ds :
  deser_inv ser0 st0 ow ds → sm_len (ds_serialised ds) ≤ fuel → (∀ k, ¬ pending ser0 ds k) →
  (∃ ds', deserialize_loop fuel ds = Ok ds' ∧ decoded ser0 st0 ow (ds_nodes ds') (ds_store ds')) ∨
  refused_input ser0 (deserialize_loop fuel ds).
Proof.
  revert ds. induction fuel as [|fuel IH]; intros ds Hi Hf Hp; cbn [deserialize_loop];
    destruct (sm_iter (ds_serialised ds)) as [|[id s] l] eqn:Hiter.
  - left. exists ds. split; [done|]. by apply deser_finish.
  - rewrite sm_len_iter, Hiter in Hf. simpl in Hf. lia.
  - left. exists ds. split; [done|]. by apply deser_finish.
  - assert (sm_get id (ds_serialised ds) = Some s) as Hs by (apply sm_iter_get; rewrite Hiter; left).
    pose proof (di_ser _ _ _ _ Hi _ _ Hs) as Hs0.
    destruct (deserialize_node_outcome ser0 st0 ow (Datatypes.S (sm_len (ds_serialised ds))) id ds Hi)
      as [(ds' & -> & Hi' & Hst & [p Hid])|[-> ?]]; [lia|congruence| |by intros k ?%Hp| |by right].
    { destruct (sec_get id (ds_nodes ds)) as [p|] eqn:Hid; [exfalso|done].
      destruct (di_decoded _ _ _ _ Hi id p Hid) as [? _]. congruence. }
    simpl. apply IH; [done| |].
    + assert (sm_len (ds_serialised ds') ≤ sm_len (sm_remove id (ds_serialised ds)).2) as Hle.
      { apply sm_len_mono. intros k v Hk. rewrite sm_remove_get. case_decide; [|by apply Hst].
        subst. destruct (di_decoded _ _ _ _ Hi' id p Hid) as [? _]. congruence. }
      rewrite (sm_len_remove _ _ _ Hs) in Hf. lia.
    + intros k Hk. eapply Hp, pending_step; [done|exact Hk].
Qed.

Lemma deser_start ser st ow :
  wf st ow → deser_inv ser st ow (mkDeser ser sec_new st).
Proof.
  intros Hw. split; simpl; try done.
  - unfold node_owners, sec_values. by rewrite sec_iter_new.
  - intros k p. by rewrite sec_get_new.
  - intros j k p. by rewrite sec_get_new.
  - by left.
Qed.

Lemma deserialize_nodes_outcome ser st ow :
  wf st ow →
  (∃ nodes st', deserialize_nodes ser st = Ok (nodes, st') ∧ decoded ser st ow nodes st') ∨
  refused_input ser (deserialize_nodes ser st).
Proof.
  intros Hw. unfold deserialize_nodes.
  destruct (deserialize_loop_outcome ser st ow (sm_len ser) (mkDeser ser sec_new st))
    as [(ds & -> & Hdec)|[-> Hbad]].
  - by apply deser_start.
  - done.
  - intros k ([s Hs] & Hk & _). simpl in Hk. congruence.
  - left. by exists (ds_nodes ds), (ds_store ds).
  - by right.
Qed.

(** Inputs that describe the nodes of a store are never refused. *)
Lemma described_good ser nodes st ow :
  wf st ow →
  (∀ j k, ser_parent ser j k → ∃ p q, sec_get k nodes = Some p ∧ sec_get j nodes = Some q ∧
     parent_of st q p) →
  (∀ k p, sec_get k nodes = Some p → is_Some (sm_get k ser)) → ¬ ser_bad ser.
Proof.
  intros Hw Hpar Hdom [[k Hk]|(j & k & Hjk & Hj)].
  - assert (∀ j k, tc (ser_parent ser) j k → ∃ p q, sec_get k nodes = Some p ∧
      sec_get j nodes = Some q ∧ tc (parent_of st) q p) as Htc.
    { intros j i Ht. induction Ht as [j i Hji|j m i Hjm _ (p & x & Hp & Hx & Hxp)].
      - destruct (Hpar j i Hji) as (p & q & ? & ? & ?). exists p, q. split_and!; [done..|]. by apply tc_once.
      - destruct (Hpar j m Hjm) as (x' & q & ? & ? & ?). simplify_eq. exists p, q.
        split_and!; [done..|]. by eapply tc_l. }
    destruct (Htc k k Hk) as (p & q & ? & ? & Ht). simplify_eq.
    destruct (ancestor_rank _ _ Hw) as [rank Hr]. apply Hr in Ht. lia.
  - destruct (Hpar j k Hjk) as (p & q & _ & Hq & _). destruct (Hdom j q Hq). congruence.
Qed.

(** A serialised parent of a decoded node is a parent of it. *)
Lemma decodes_parent nodes s d st j e p :
  decodes nodes s d → node st p = Some d → (j, e) ∈ sid_incoming s →
  ∃ q, sec_get j nodes = Some q ∧ parent_of st q p.
Proof.
  intros [_ Hf] Hp [i Hi]%list_elem_of_lookup.
  destruct (Forall2_lookup_l _ _ _ _ _ Hf Hi) as (ie & Hie & Hq & _). exists (ie_source ie).
  split; [done|]. by eapply parent_of_edge.
Qed.

(** So bad inputs are always refused. *)
Lemma decoded_good ser st0 ow nodes st : decoded ser st0 ow nodes st → ¬ ser_bad ser.
Proof.
  intros Hd. eapply (described_good ser nodes st); [apply Hd|..].
  - intros j k (s & e & Hs & Hin). destruct (proj2 (dec_dom _ _ _ _ _ Hd k)) as [p Hp]; [by exists s|].
    destruct (dec_node _ _ _ _ _ Hd k p Hp) as (_ & s' & d & Hs' & Hn & _ & Hdec). simplify_eq.
    destruct (decodes_parent _ _ _ _ _ _ _ Hdec Hn Hin) as (q & ? & ?). by exists p, q.
  - intros k p Hk. apply (dec_dom _ _ _ _ _ Hd). by exists p.
Qed.

(** ** The registry *)

Lemma new_weak_alloc st st' p q :
  rc_new_weak p st = Ok st' → is_Some (st_nodes st !! q) → is_Some (st_nodes st' !! q).
Proof.
  unfold rc_new_weak. destruct (st_nodes st !! p) as [b|] eqn:Hp; simpl; [|done]. intros [= <-] Hq. simpl.
  destruct (decide (q = p)) as [->|]; [by rewrite lookup_insert_eq|by rewrite lookup_insert_ne].
Qed.

Lemma new_weaks_loop (l : list (NodeId * addr)) st ow :
  wf st ow → (∀ kp, kp ∈ l → is_Some (st_nodes st !! kp.2)) →
  ∃ st', foldM (λ st kp, rc_new_weak kp.2 st) st l = Ok st' ∧
    wf st' (((λ kp, NodeWeak kp.2) <$> l) ++ ow) ∧ same_views st st'.
Proof.
  revert st ow. induction l as [|kp l IH]; intros st ow Hw Hl; [by exists st|]. simpl.
  destruct (rc_new_weak_wf st ow kp.2 Hw) as (st1 & Heq & Hw1 & Hv1); [apply Hl; left|].
  rewrite Heq. simpl. destruct (IH st1 _ Hw1) as (st' & -> & Hw' & Hv').
  { intros kp' Hkp'. apply (new_weak_alloc _ _ _ _ Heq), Hl. by right. }
  exists st'. split_and!; [done| |by etrans]. csimpl. by rewrite Permutation_middle.
Qed.

(** [Registry::from_serialized]: the registry knows exactly the new nodes, under
    the serialised ids. *)
Lemma Registry_from_serialized_outcome (ser : SerializedRegistry N E) st ow :
  wf st ow →
  (∃ R nodes st', Registry_from_serialized ser st = Ok (R, nodes, st') ∧
     decoded (sr_nodes ser) st (registry_refs R ++ ow) nodes st' ∧ registry_ok R ∧
     (∀ k, sm_get k (reg_nodes R) = sec_get k nodes)) ∨
  refused_input (sr_nodes ser) (Registry_from_serialized ser st).
Proof.
  intros Hw. unfold Registry_from_serialized.
  destruct (sm_map_Ok (λ _ _, Ok tt) (sr_nodes ser)) as [ns Hns]; [by eauto|].
  rewrite Hns. simpl. pose proof (sm_map_get _ _ _ Hns) as Hget.
  destruct (deserialize_nodes_outcome (sr_nodes ser) st ow Hw) as [(nodes & st1 & -> & Hd)|[-> ?]];
    simpl; [left|by right].
  assert (∀ k u, sm_get k ns = Some u → ∃ p, sec_get k nodes = Some p) as Hkeys.
  { intros k u Hk. apply (dec_dom _ _ _ _ _ Hd). specialize (Hget k).
    destruct (sm_get k (sr_nodes ser)); [done|congruence]. }
  destruct (sm_map_Ok (λ k _, expect "invalid node_id" (sec_get k nodes)) ns) as [m Hm].
  { intros k v [p Hp]%Hkeys. exists p. by rewrite Hp. }
  rewrite Hm. simpl. pose proof (sm_map_get _ _ _ Hm) as Hgetm.
  assert (∀ k, sm_get k m = sec_get k nodes) as Hsame.
  { intros k. specialize (Hgetm k). specialize (Hget k). destruct (sm_get k ns) as [[]|] eqn:Hk.
    - destruct Hgetm as (p & Hp%expect_Ok & ->). done.
    - rewrite Hgetm. destruct (sec_get k nodes) as [p|] eqn:Hp; [exfalso|done].
      destruct (proj1 (dec_dom _ _ _ _ _ Hd k)) as [s Hs]; [by exists p|]. rewrite Hs in Hget.
      destruct Hget as (? & _ & ?). congruence. }
  destruct (new_weaks_loop (sm_iter m) st1 _ (dec_wf _ _ _ _ _ Hd)) as (st2 & -> & Hw2 & [Hn2 HR2]).
  { intros [k p] Hkp%sm_iter_get. rewrite Hsame in Hkp.
    destruct (dec_node _ _ _ _ _ Hd k p Hkp) as (_ & s & d & _ & (b & Hb & _)%node_Some & _). by exists b. }
  simpl. eexists _, nodes, st2. split; [done|]. split_and!; [|apply Registry_from_slotmap_ok|done].
  - destruct Hd as [Hdw Hdom Hnode Hinj Hold Hnew Hreg]. split; try done.
    + eapply wf_perm; [|exact Hw2]. unfold registry_refs. simpl. apply Permutation_app_swap_app.
    + intros k p Hk. rewrite Hn2. by apply Hnode.
    + intros q d Hq. rewrite Hn2. by apply Hold.
    + intros q d. rewrite Hn2. apply Hnew.
    + intros g. by rewrite HR2.
  - apply NoDup_fmap_2_strong; [|apply sm_iter_NoDup_pairs].
    intros [k p] [j q] Hk%sm_iter_get Hj%sm_iter_get. simpl. intros ->. rewrite Hsame in Hk, Hj.
    f_equal. by eapply dec_inj.
Qed.
End deserialize.
