(* ===== verification/Serialize.v ===== *)
(** * Serialisation of registries, and its inverse *)

From S2P Require Import Prelude Slotmap Store StoreFacts Rc Registry Drop DropFacts RegistryOps Edge Node NodeFacts RegistryFacts Ancestors History Serialization Deserialize.

Section serialize.
Context {N E : Type} {S : SlotMapSig} {SLaws : SlotMapLaws S} {A : Allocator}.
Implicit Types (st : store N E) (p q : addr) (id j k : NodeId) (d : InnerData N E) (ow : list ref).
Implicit Types (R : Registry) (s : SerializedInnerData N E) (nodes : SecondaryMap addr).

(** ** One node *)

(** [Registry::get] of the id of a live node clones its [Rc] and leaves nothing
    else behind. *)
Lemma Registry_get_clone st ow R id p d :
  wf st ow → sm_get id (reg_nodes R) = Some p → node st p = Some d →
  ∃ st', Registry_get R id st = Ok (Some p, st') ∧ rc_clone p st = Ok st'.
Proof.
  intros Hw Hid Hd. destruct (live_cell _ _ _ _ Hw Hd) as (b & Hb & Hv & Hs).
  destruct (wf_node_cell _ _ _ _ Hw Hb) as [Hwk _].
  unfold Registry_get, rc_new_weak, rc_clone, rc_upgrade. rewrite Hid, Hb. simpl.
  rewrite lookup_insert_eq. simpl. rewrite !decide_False by lia. simpl.
  unfold drop_refs, drop_all, total_weight. simpl. unfold drop_weak. simpl.
  rewrite lookup_insert_eq. simpl. destruct (rc_weak b) as [|n] eqn:Hn; [lia|]. simpl.
  eexists. split; [|done]. unfold set_node. simpl. rewrite !insert_insert_eq.
  by destruct (sum_list_with _ _).
Qed.

(** The serialised data [s] describes [d], its parents named by [R]. *)
Definition encodes R d s : Prop :=
  sid_value s = nd_value d ∧
  Forall2 (λ e pe, Registry_get_id R (ie_source e) = Some pe.1 ∧ pe.2 = ie_value e)
    (nd_incoming d) (sid_incoming s).

(** Parents that have ids. *)
Definition parents_known R d : Prop :=
  ∀ e, e ∈ nd_incoming d → is_Some (Registry_get_id R (ie_source e)).

Lemma traverse_ids R (l : list (InnerEdgeData E)) :
  (∃ ids, traverse (λ n, expect "valid node" (Registry_get_id R n)) (InnerEdgeData_source <$> l) = Ok ids ∧
     Forall2 (λ e pe, Registry_get_id R (ie_source e) = Some pe.1 ∧ pe.2 = ie_value e)
       l (zip ids (InnerEdgeData_value <$> l))) ∨
  (traverse (λ n, expect "valid node" (Registry_get_id R n)) (InnerEdgeData_source <$> l) =
     Err (Panic "valid node") ∧ ∃ e, e ∈ l ∧ Registry_get_id R (ie_source e) = None).
Proof.
  induction l as [|e l IH]; [left; exists []; split; [done|constructor]|]. csimpl.
  unfold InnerEdgeData_source at 1 3. destruct (Registry_get_id R (ie_source e)) as [k|] eqn:Hk; simpl.
  2: { right. split; [done|]. exists e. split; [left|done]. }
  destruct IH as [(ids & -> & Hf)|(-> & e' & ? & ?)]; simpl.
  - left. exists (k :: ids). split; [done|]. simpl. by constructor.
  - right. split; [done|]. exists e'. split; [by right|done].
Qed.

(** Serialising one node leaves the store as it was. *)
Lemma serialize_inner_data_outcome st ow R id p :
  wf st ow → sm_get id (reg_nodes R) = Some p → is_Some (st_nodes st !! p) →
  (∃ s d, serialize_inner_data id R st = Ok (s, st) ∧ node st p = Some d ∧ encodes R d s) ∨
  (serialize_inner_data id R st = Err (Panic "valid node") ∧
     (node st p = None ∨ ∃ d e, node st p = Some d ∧ e ∈ nd_incoming d ∧
        Registry_get_id R (ie_source e) = None)).
Proof.
  intros Hw Hid Hal. unfold serialize_inner_data. destruct (node st p) as [d|] eqn:Hd.
  - destruct (Registry_get_clone _ _ _ _ _ _ Hw Hid Hd) as (st1 & -> & Hc). simpl.
    destruct (rc_clone_wf _ _ _ _ Hw Hd) as (st2 & Hc' & _ & [Hn _]). rewrite Hc in Hc'.
    injection Hc' as <-. rewrite Hn, Hd. simpl. unfold InnerData_all_parents, InnerData_all_incoming.
    destruct (traverse_ids R (nd_incoming d)) as [(ids & -> & Hf)|(-> & e & He & Hk)]; simpl.
    + left. rewrite (clone_drop_id _ _ _ _ Hw Hc). simpl. by eexists _, d.
    + right. split; [done|]. right. by exists d, e.
  - right. destruct (Registry_get_spec st ow R id Hw) as (st1 & -> & _).
    { intros q Hq. simplify_eq. done. }
    unfold resolve. rewrite Hid, Hd. simpl. auto.
Qed.

Lemma known_encodes R d : parents_known R d → ∃ s, encodes R d s.
Proof.
  intros Hpk. destruct (traverse_ids R (nd_incoming d)) as [(ids & _ & Hf)|(_ & e & He & Hk)].
  - by eexists (mkSerializedInnerData (nd_value d) _).
  - destruct (Hpk e He). congruence.
Qed.

Lemma encodes_inj R d s s' : encodes R d s → encodes R d s' → s = s'.
Proof.
  intros [Hv Hf] [Hv' Hf']. destruct s as [v inc], s' as [v' inc']. simpl in *. f_equal; [congruence|].
  clear v v' Hv Hv'. revert inc' Hf'. induction Hf as [|e [j x] l l' [Hj Hx] _ IH]; intros inc' Hf';
    inversion Hf' as [|? [j' x'] ? l'' [Hj' Hx'] Htl]; subst; [done|]. simpl in *. f_equal; [|by apply IH].
  f_equal; congruence.
Qed.

(** ** Registries *)

(** All registered nodes are alive and so are, registered as well, their
    parents. *)
Definition serializable st R : Prop :=
  ∀ k p, sm_get k (reg_nodes R) = Some p → ∃ d, node st p = Some d ∧ parents_known R d.

(** A registered node is gone, or one of its parents is not registered. *)
Definition unserializable st R : Prop :=
  ∃ k p, sm_get k (reg_nodes R) = Some p ∧
    (node st p = None ∨ ∃ d e, node st p = Some d ∧ e ∈ nd_incoming d ∧
       Registry_get_id R (ie_source e) = None).

Lemma unserializable_not st R : unserializable st R → ¬ serializable st R.
Proof.
  intros (k & p & Hk & Hbad) Hser. destruct (Hser k p Hk) as (d & Hd & Hpk).
  destruct Hbad as [?|(d' & e & ? & He & Hno)]; [congruence|]. simplify_eq. destruct (Hpk e He). congruence.
Qed.

(** What [to_serialized] gives. *)
Definition encoded st R (ser : SerializedRegistry N E) : Prop :=
  ∀ k, match sm_get k (reg_nodes R) with
       | Some p => ∃ s d, sm_get k (sr_nodes ser) = Some s ∧ node st p = Some d ∧ encodes R d s
       | None => sm_get k (sr_nodes ser) = None
       end.

Lemma encodes_known R d s : encodes R d s → parents_known R d.
Proof.
  intros [_ Hf] e [i Hi]%list_elem_of_lookup.
  destruct (Forall2_lookup_l _ _ _ _ _ Hf Hi) as (pe & _ & ? & _). by exists pe.1.
Qed.

Lemma Registry_to_serialized_outcome st ow R :
  wf st ow → (∀ k p, sm_get k (reg_nodes R) = Some p → is_Some (st_nodes st !! p)) →
  (∃ ser, Registry_to_serialized R st = Ok (ser, st) ∧ encoded st R ser ∧ serializable st R) ∨
  (Registry_to_serialized R st = Err (Panic "valid node") ∧ unserializable st R).
Proof.
  intros Hw Hal. unfold Registry_to_serialized, Registry_as_slotmap.
  destruct (sm_map_state_outcome (λ k (_ : addr), serialize_inner_data k R) (reg_nodes R) st)
    as [(m & -> & Hget)|(k & p & e & Hk & He & ->)]; simpl.
  { intros k p Hk. destruct (serialize_inner_data_outcome st ow R k p Hw Hk (Hal k p Hk)) as [(s & d & -> & _)|[-> _]]; eauto. }
  - left. eexists; split; [done|].
    assert (∀ k p, sm_get k (reg_nodes R) = Some p → ∃ s d, sm_get k m = Some s ∧
      node st p = Some d ∧ encodes R d s) as Hkey.
    { intros k p Hk. specialize (Hget k). rewrite Hk in Hget. destruct Hget as (s & Hs & Hks).
      destruct (serialize_inner_data_outcome st ow R k p Hw Hk (Hal k p Hk))
        as [(s' & d & Heq & ? & ?)|[Heq _]]; rewrite Heq in Hs; [|done]. simplify_eq/=. eauto. }
    split.
    + intros k. specialize (Hget k). destruct (sm_get k (reg_nodes R)) as [p|] eqn:Hk; [by apply Hkey|done].
    + intros k p Hk. destruct (Hkey k p Hk) as (s & d & _ & ? & ?). exists d. split; [done|].
      by eapply encodes_known.
  - right. destruct (serialize_inner_data_outcome st ow R k p Hw Hk (Hal k p Hk))
      as [(s & d & Heq & _)|[Heq Hbad]]; rewrite Heq in He; [done|]. simplify_eq/=.
    split; [done|]. by exists k, p.
Qed.

(** ** Serialising what was deserialised *)

Lemma encodes_decodes R nodes s d s' :
  registry_ok R → (∀ k, sm_get k (reg_nodes R) = sec_get k nodes) →
  decodes nodes s d → encodes R d s' → s' = s.
Proof.
  intros Hok Hsame [Hv Hf] [Hv' Hf']. destruct s as [v inc], s' as [v' inc']. simpl in *. f_equal; [congruence|].
  clear v v' Hv Hv'. revert inc' Hf'. induction Hf as [|[j x] e l l' [Hj Hx] _ IH]; intros inc' Hf';
    inversion Hf' as [|? [j' x'] ? l'' [Hj' Hx'] Htl]; subst; [done|]. simpl in *. f_equal; [|by apply IH].
  f_equal; [|congruence]. rewrite <-Hsame in Hj. apply Hok in Hj. unfold Registry_get_id in Hj'. congruence.
Qed.

Lemma Registry_reserialize ser st ow R nodes st' :
  decoded (sr_nodes ser) st (registry_refs R ++ ow) nodes st' → registry_ok R →
  (∀ k, sm_get k (reg_nodes R) = sec_get k nodes) →
  ∃ ser', Registry_to_serialized R st' = Ok (ser', st') ∧
    ∀ k, sm_get k (sr_nodes ser') = sm_get k (sr_nodes ser).
Proof.
  intros Hd Hok Hsame. pose proof (dec_wf _ _ _ _ _ Hd) as Hw.
  assert (∀ k p, sm_get k (reg_nodes R) = Some p → ∃ s d, sm_get k (sr_nodes ser) = Some s ∧
    node st' p = Some d ∧ decodes nodes s d) as Hnode.
  { intros k p Hk. rewrite Hsame in Hk. destruct (dec_node _ _ _ _ _ Hd k p Hk) as (_ & s & d & ? & ? & _ & ?).
    eauto. }
  destruct (Registry_to_serialized_outcome st' _ R Hw) as [(ser' & Heq & Henc & _)|[_ Hbad]].
  - intros k p Hk. destruct (Hnode k p Hk) as (s & d & _ & (b & Hb & _)%node_Some & _). by exists b.
  - exists ser'. split; [done|]. intros k. specialize (Henc k).
    destruct (sm_get k (reg_nodes R)) as [p|] eqn:Hk.
    + destruct Henc as (s' & d & -> & Hp & Henc). destruct (Hnode k p Hk) as (s & d' & -> & Hp' & Hdec).
      simplify_eq. f_equal. by eapply encodes_decodes.
    + rewrite Henc. destruct (sm_get k (sr_nodes ser)) as [s|] eqn:Hs; [exfalso|done].
      destruct (proj2 (dec_dom _ _ _ _ _ Hd k)) as [p Hp]; [by exists s|]. rewrite <-Hsame in Hp. congruence.
  - exfalso. apply (unserializable_not _ _ Hbad). intros k p Hk. destruct (Hnode k p Hk) as (s & d & _ & ? & _ & Hf). exists d.
    split; [done|]. intros e [i Hi]%list_elem_of_lookup.
    destruct (Forall2_lookup_r _ _ _ _ _ Hf Hi) as (pe & _ & Hpe & _). exists pe.1.
    apply registry_ok_get_id; [done|]. by rewrite Hsame.
Qed.
End serialize.
