(* ===== verification/GraphSerial.v ===== *)
(** * Serialisation of history graphs *)

From S2P Require Import Prelude Slotmap Store StoreFacts Rc Registry Drop DropFacts RegistryOps Edge Node NodeFacts RegistryFacts Ancestors History HistoryFacts Insertion InsertAncestors Serialization Deserialize Serialize.

Section graph_serial.
Context {N E : Type} {S : SlotMapSig} {SLaws : SlotMapLaws S} {A : Allocator}.
Implicit Types (st : store N E) (p q x y g : addr) (id j k : NodeId) (d : InnerData N E) (ow : list ref).
Implicit Types (R : Registry) (hg : HistoryGraph) (s : SerializedInnerData N E) (nodes : SecondaryMap addr).

(** The graph contains the parents of its nodes. *)
Definition graph_closed st hg : Prop :=
  ∀ x y, in_graph hg x → parent_of st y x → in_graph hg y.

(** ** Collecting the ids of ancestors *)

(** [R] is [R0] with ids for the nodes of [X] as well, and [ids] are the ids of
    these.  A reference from outside holds what the references of [R] do not. *)
Record naming R0 st0 ow (X : addr → Prop) (a : list NodeId * Registry * store N E) : Prop := {
  nm_wf : wf a.2 (registry_refs a.1.2 ++ ow);
  nm_ok : registry_ok a.1.2;
  nm_views : same_views st0 a.2;
  nm_kept k q : sm_get k (reg_nodes R0) = Some q → sm_get k (reg_nodes a.1.2) = Some q;
  nm_new k q : sm_get k (reg_nodes a.1.2) = Some q → sm_get k (reg_nodes R0) = Some q ∨ X q;
  nm_all q : X q → ∃ k, sm_get k (reg_nodes a.1.2) = Some q;
  nm_ids k : k ∈ a.1.1 ↔ ∃ q, X q ∧ sm_get k (reg_nodes a.1.2) = Some q;
}.

Lemma naming_ext R0 st0 ow (X Y : addr → Prop) a :
  (∀ q, X q ↔ Y q) → naming R0 st0 ow X a → naming R0 st0 ow Y a.
Proof.
  intros HXY [? ? ? ? Hnew Hall Hids]. split; try done.
  - intros k q Hk. rewrite <-HXY. by apply Hnew.
  - intros q Hq. apply Hall. by apply HXY.
  - intros k. rewrite Hids. by setoid_rewrite HXY.
Qed.

Lemma naming_step R0 st0 ow X a n d :
  naming R0 st0 ow X a → node st0 n = Some d →
  ∃ a', (i ← Registry_get_id_or_insert a.1.2 n a.2; Ok (a.1.1 ++ [i.1.1], i.1.2, i.2)) = Ok a' ∧
    naming R0 st0 ow (λ q, X q ∨ q = n) a'.
Proof.
  intros [Hw Hok Hv Hkept Hnew Hall Hids] Hd. destruct a as [[ids R] st]. simpl in *.
  destruct (Registry_add_node_spec st ow R n d Hw Hok) as
    (id & R' & st' & Heq & Hw' & Hok' & Hv' & Hid & Hq & Hget & _); [by rewrite (proj1 Hv)|].
  assert (Registry_get_id_or_insert R n st = Ok (id, R', st')) as ->.
  { unfold Registry_get_id_or_insert. revert Heq. unfold Registry_add_node. by destruct (Registry_get_id R n). }
  assert (∀ k q, sm_get k (reg_nodes R) = Some q → sm_get k (reg_nodes R') = Some q) as Hmono.
  { intros k q Hk. rewrite Hget. case_decide as Hkid; [|done]. subst k.
    destruct (decide (q = n)) as [->|Hne]; [done|]. apply Hok in Hk. fold (Registry_get_id R q) in Hk.
    rewrite <-Hq in Hk by done. apply registry_ok_get_id in Hk; [|done].
    apply registry_ok_get_id in Hid; [|done]. congruence. }
  eexists. split; [done|]. split; simpl; try done.
  - by etrans.
  - intros k q Hk. by apply Hmono, Hkept.
  - intros k q. rewrite Hget. case_decide; [naive_solver|]. intros [?|?]%Hnew; auto.
  - intros q [[k Hk]%Hall| ->]; [exists k; by apply Hmono|exists id; by apply registry_ok_get_id].
  - intros k. rewrite elem_of_app, list_elem_of_singleton, Hids, Hget.
    apply registry_ok_get_id in Hid; [|done]. split.
    + intros [(q & Hx & Hk)| ->]; [|exists n; rewrite decide_True by done; by auto].
      exists q. split; [by left|]. apply Hmono in Hk. by rewrite Hget in Hk.
    + intros (q & [Hx| ->] & Hk); case_decide as Hkid; [by right|left; by exists q|by right|].
      left. exists n. apply Hmono in Hk. apply Hok' in Hk, Hid. congruence.
Qed.

Lemma naming_loop R0 st0 ow l :
  (∀ n, n ∈ l → is_Some (node st0 n)) → ∀ X a, naming R0 st0 ow X a →
  ∃ a', foldM (λ a n, i ← Registry_get_id_or_insert a.1.2 n a.2; Ok (a.1.1 ++ [i.1.1], i.1.2, i.2)) a l = Ok a' ∧
    naming R0 st0 ow (λ q, X q ∨ q ∈ l) a'.
Proof.
  induction l as [|n l IH]; intros Hl X a Hn.
  { exists a. split; [done|]. eapply naming_ext; [|done]. intros q. rewrite elem_of_nil. naive_solver. }
  destruct (Hl n) as [d Hd]; [left|]. destruct (naming_step _ _ _ _ _ _ _ Hn Hd) as (a1 & Ha1 & Hn1).
  cbn [foldM]. rewrite Ha1. cbn [rbind].
  destruct (IH (λ n' H', Hl n' (list_elem_of_further _ _ _ H')) _ _ Hn1) as (a' & -> & Hn'). exists a'.
  split; [done|]. eapply naming_ext; [|done]. intros q. simpl. rewrite elem_of_cons. naive_solver.
Qed.

Lemma closed_ancestors st hg p x : graph_closed st hg → in_graph hg p → ancestor_of st x p → in_graph hg x.
Proof.
  intros Hcl Hp Hx. unfold ancestor_of in Hx. induction Hx as [p|x y p Hxy _ IH]; [done|].
  eapply Hcl; [|done]. by apply IH.
Qed.

Lemma parents_at_views st st' q : same_views st st' → parents_at st' q = parents_at st q.
Proof. intros [Hn _]. unfold parents_at. by rewrite Hn. Qed.

(** One node of the graph: what the traversal of its ancestors yields is named. *)
Lemma naming_ancestors R0 st0 ow X a id p d :
  naming R0 st0 ow X a → sm_get id (reg_nodes R0) = Some p → node st0 p = Some d → NodeStrong p ∈ ow →
  ∃ a', ancestor_ids a id = Ok a' ∧
    naming R0 st0 ow (λ q, X q ∨ ∃ l, lists_ancestors (parents_at st0) p l ∧ q ∈ l) a'.
Proof.
  intros Hn Hid Hd Hp. destruct a as [[ids R] st]. pose proof Hn as [Hw Hok Hv Hkept Hnew Hall Hids].
  simpl in *. rewrite <-(proj1 Hv) in Hd. unfold ancestor_ids. simpl.
  destruct (Registry_get_clone _ _ _ _ _ _ Hw (Hkept _ _ Hid) Hd) as (st1 & -> & Hc). simpl.
  destruct (rc_clone_wf _ _ _ _ Hw Hd) as (st1' & Hc' & Hw1 & Hv1). rewrite Hc in Hc'. injection Hc' as <-.
  rewrite <-(proj1 Hv1) in Hd. assert (same_views st0 st1) as Hv01 by by etrans.
  destruct (all_ancestors_walk _ _ _ _ Hw1 Hd) as (l & rest & Hl & Hwalk & _). rewrite Hl. simpl.
  apply all_ancestors_listed in Hl.
  apply (lists_ancestors_ext _ (parents_at st0)) in Hl; [|intros q; by apply parents_at_views].
  destruct (naming_loop R0 st0 (NodeStrong p :: ow) l) with (X := X) (a := (ids, R, st1)) as (a1 & -> & Hn1).
  { intros n Hx. destruct (ancestor_live _ _ n _ _ Hw1 Hd) as [dn Hdn]; [by apply (walk_out _ _ _ _ Hwalk)|].
    rewrite (proj1 Hv01) in Hdn. by exists dn. }
  { split; simpl; try done. by rewrite <-Permutation_middle. }
  simpl. change (drop_relrc p a1.2) with (drop_refs [NodeStrong p] a1.2).
  destruct (drop_refs_redundant a1.2 [NodeStrong p] (registry_refs a1.1.2 ++ ow)) as (st2 & -> & Hw2 & Hv2).
  { simpl. rewrite Permutation_middle. apply Hn1. }
  { intros r ->%list_elem_of_singleton. exists p. split; [done|]. exists p.
    split; [|apply rtc_refl]. apply elem_of_app. by right. }
  simpl. eexists. split; [done|]. eapply (naming_ext _ _ _ (λ q, X q ∨ q ∈ l)).
  { intros q. apply or_iff_compat_l. split; [by eauto|]. intros (l' & Hl' & Hq).
    by rewrite (lists_ancestors_eq _ _ _ _ Hl Hl'). }
  destruct Hn1 as [? ? Hvw ? ? ? ?]. split; simpl; try done. by etrans.
Qed.

Lemma naming_ancestors_loop R0 st0 ow hg ks :
  (∀ k, k ∈ ks → ∃ p d, sec_get k (hg_nodes hg) = Some p ∧ sm_get k (reg_nodes R0) = Some p ∧
     node st0 p = Some d ∧ NodeStrong p ∈ ow) →
  ∀ X a, naming R0 st0 ow X a →
  ∃ a', foldM ancestor_ids a ks = Ok a' ∧
    naming R0 st0 ow (λ q, X q ∨ ∃ k p l, k ∈ ks ∧ sec_get k (hg_nodes hg) = Some p ∧
      lists_ancestors (parents_at st0) p l ∧ q ∈ l) a'.
Proof.
  induction ks as [|k ks IH]; intros Hks X a Hn.
  { exists a. split; [done|]. eapply naming_ext; [|done]. intros q. split; [by left|].
    intros [?|(k & _ & _ & ?%elem_of_nil & _)]; done. }
  destruct (Hks k) as (p & d & Hk & Hk0 & Hd & Hp); [left|].
  destruct (naming_ancestors _ _ _ _ _ _ _ _ Hn Hk0 Hd Hp) as (a1 & Ha1 & Hn1).
  cbn [foldM]. rewrite Ha1. cbn [rbind].
  destruct (IH (λ n' H', Hks n' (list_elem_of_further _ _ _ H')) _ _ Hn1) as (a' & -> & Hn'). exists a'.
  split; [done|]. eapply naming_ext; [|done]. intros q. simpl. setoid_rewrite elem_of_cons. naive_solver.
Qed.

(** ** [HistoryGraph::to_serialized] *)

(** What the traversals from the nodes of the graph yield. *)
Definition yielded st hg x : Prop :=
  ∃ y l, in_graph hg y ∧ lists_ancestors (parents_at st) y l ∧ x ∈ l.

(** [ser] was written with the names of [R'], which extends the registry [R] of
    [hg]: it lists the nodes of the graph, and holds what the traversals yield. *)
Record written st hg R (ser : SerializedHistoryGraph N E) R' : Prop := {
  wr_ok : registry_ok R';
  wr_kept k q : sm_get k (reg_nodes R) = Some q → sm_get k (reg_nodes R') = Some q;
  wr_new k q : sm_get k (reg_nodes R') = Some q → sm_get k (reg_nodes R) = Some q ∨ yielded st hg q;
  wr_all q : yielded st hg q → ∃ k, sm_get k (reg_nodes R') = Some q;
  wr_serializable : serializable st R';
  wr_nodes k : k ∈ shg_nodes ser ↔ is_Some (sec_get k (hg_nodes hg));
  wr_entry k s : sm_get k (sr_nodes (shg_registry ser)) = Some s ↔
    ∃ p d, sm_get k (reg_nodes R') = Some p ∧ yielded st hg p ∧ node st p = Some d ∧ encodes R' d s;
}.

(** The nodes that have an id, or get one. *)
Definition named st hg R x : Prop := (∃ k, sm_get k (reg_nodes R) = Some x) ∨ yielded st hg x.

(** A node with a name is gone, or has a parent without one. *)
Definition blocked st hg R : Prop :=
  ∃ x, named st hg R x ∧ (node st x = None ∨ ∃ y, parent_of st y x ∧ ¬ named st hg R y).

Lemma written_not_blocked st hg R ser R' : written st hg R ser R' → ¬ blocked st hg R.
Proof.
  intros Hwr (x & Hx & Hbad). pose proof (wr_ok _ _ _ _ _ Hwr) as Hok.
  assert (∃ k, sm_get k (reg_nodes R') = Some x) as [k Hk].
  { destruct Hx as [[k Hk]|Hx]; [exists k; by apply (wr_kept _ _ _ _ _ Hwr)|by apply (wr_all _ _ _ _ _ Hwr)]. }
  destruct (wr_serializable _ _ _ _ _ Hwr k x Hk) as (d & Hd & Hpk).
  destruct Hbad as [?|(y & (d' & e & ? & He & <-) & Hno)]; [congruence|]. simplify_eq.
  destruct (Hpk e He) as [j Hj]. apply Hno. apply registry_ok_get_id in Hj; [|done].
  destruct (wr_new _ _ _ _ _ Hwr _ _ Hj); [left; by exists j|by right].
Qed.

Lemma serializable_views st st' R : same_views st st' → serializable st' R → serializable st R.
Proof. intros [Hn _] Hs k p Hk. rewrite <-Hn. by eapply Hs. Qed.

Lemma HistoryGraph_to_serialized_outcome st ow hg R :
  wf st (hg_owners hg ++ ow) → registry_at st (hg_registry hg) = Some R →
  (∀ k p, sec_get k (hg_nodes hg) = Some p → sm_get k (reg_nodes R) = Some p) →
  (∃ ser st' R', HistoryGraph_to_serialized hg st = Ok (ser, st') ∧
     wf st' (hg_owners hg ++ ow) ∧ same_views st st' ∧ written st hg R ser R') ∨
  (HistoryGraph_to_serialized hg st = Err (Panic "valid node") ∧ blocked st hg R).
Proof.
  intros Hw HR Hin. pose proof (wf_st_regs _ _ Hw _ _ HR) as HokR.
  unfold HistoryGraph_to_serialized. rewrite (with_registry_clone _ _ _ R Hw HR). unfold Registry_clone.
  destruct (new_weaks_loop (sm_iter (reg_nodes R)) st _ Hw) as (st1 & -> & Hw1 & Hv1).
  { intros [k p] Hkp%sm_iter_get. eapply registered_alloc; [exact Hw|exact HR|exact Hkp]. }
  simpl. set (ks := btree_set (HistoryGraph_all_node_ids hg)).
  assert (∀ k, k ∈ ks ↔ is_Some (sec_get k (hg_nodes hg))) as Hks.
  { intros k. unfold ks. rewrite elem_of_btree_set. apply elem_of_sec_keys. }
  destruct (naming_ancestors_loop R st (hg_owners hg ++ ow) hg ks) with (X := λ _ : addr, False)
    (a := ([] : list NodeId, R, st1)) as (a & -> & Hn).
  { intros k [p Hk]%Hks. destruct (hg_node_live _ _ _ _ _ Hw Hk) as [d Hd]. exists p, d.
    split_and!; [done|by apply Hin|done|]. apply elem_of_app. left. by eapply hg_node_held. }
  { split; simpl; try done; [by left|]. intros k. rewrite elem_of_nil. naive_solver. }
  apply (naming_ext _ _ _ _ (yielded st hg)) in Hn.
  2: { intros q. unfold yielded, in_graph. setoid_rewrite Hks. unfold is_Some. naive_solver. }
  destruct a as [[ids R'] st2]. simpl. destruct Hn as [Hw2 Hok2 Hv2 Hkept Hnew Hall Hids]. simpl in *.
  assert (∀ x, named st hg R x ↔ ∃ k, sm_get k (reg_nodes R') = Some x) as Hnamed.
  { intros x. split; [intros [[k Hk]|Hx]; [exists k; by apply Hkept|by apply Hall]|].
    intros [k [?|?]%Hnew]; [left; by exists k|by right]. }
  destruct (Registry_to_serialized_outcome st2 _ R' Hw2) as [(ser & -> & Henc & Hser)|[-> Hbad]].
  { intros k p Hk. by eapply registry_refs_alloc. }
  2: { right. split; [done|]. destruct Hbad as (k & p & Hk & Hbad). rewrite (proj1 Hv2) in Hbad. exists p.
    split; [apply Hnamed; by exists k|]. destruct Hbad as [?|(d & e & Hd & He & Hno)]; [by left|right].
    exists (ie_source e). split; [by exists d, e|]. intros [j Hj]%Hnamed. apply Hok2 in Hj.
    unfold Registry_get_id in Hno. congruence. }
  left. simpl. destruct (drop_refs_weak st2 (registry_refs R') (hg_owners hg ++ ow)) as (st3 & -> & Hw3 & Hv3).
  { done. }
  { intros r (k & p & _ & ->)%elem_of_registry_refs. left. by exists p. }
  simpl. eexists _, st3, R'. split; [done|]. split_and!; [done|by etrans|].
  split; simpl; try done; [by eapply serializable_views|].
  intros k s. rewrite sm_retain_get. specialize (Henc k).
  destruct (sm_get k (reg_nodes R')) as [p|] eqn:Hk.
  2: { rewrite Henc. simpl. split; [done|]. by intros (? & ? & ? & _). }
  destruct Henc as (s' & d & -> & Hd & Henc). simpl. rewrite (proj1 Hv2) in Hd. split.
  - case_bool_decide as Hy; [|done]. intros [= <-]. apply elem_of_list_to_set, Hids in Hy as (q & Hy & Hq).
    simplify_eq. by exists p, d.
  - intros (p' & d' & [= <-] & Hy & Hd' & Henc'). simplify_eq. rewrite bool_decide_true.
    + f_equal. by eapply encodes_inj.
    + apply elem_of_list_to_set, Hids. by exists p.
Qed.

(** The serialised graph [ser] describes [hg]. *)
Definition describes st hg (ser : SerializedHistoryGraph N E) : Prop :=
  (∀ k, k ∈ shg_nodes ser ↔ is_Some (sec_get k (hg_nodes hg))) ∧
  ∀ k, match sec_get k (hg_nodes hg) with
       | Some p => ∃ s d, sm_get k (sr_nodes (shg_registry ser)) = Some s ∧
                     node st p = Some d ∧ decodes (hg_nodes hg) s d
       | None => sm_get k (sr_nodes (shg_registry ser)) = None
       end.

(** Within a closed graph the ids of the registry are those of the graph. *)
Lemma encodes_graph st hg R p d s :
  registry_ok R → (∀ k p, sec_get k (hg_nodes hg) = Some p → sm_get k (reg_nodes R) = Some p) →
  graph_closed st hg → in_graph hg p → node st p = Some d → encodes R d s → decodes (hg_nodes hg) s d.
Proof.
  intros Hok Hin Hcl Hp Hd [Hv Hf]. split; [done|]. apply Forall2_flip.
  apply Forall2_same_length_lookup in Hf as [Hlen Hf].
  apply Forall2_same_length_lookup. split; [done|]. intros i e pe He Hpe.
  destruct (Hf i e pe He Hpe) as [Hk Hval]. split; [|done].
  destruct (Hcl p (ie_source e) Hp) as [k Hks]; [by eapply parent_of_edge|].
  pose proof (proj1 (Hok _ _) (Hin _ _ Hks)) as Hks'. unfold Registry_get_id in Hk. congruence.
Qed.

Lemma HistoryGraph_to_serialized_closed st ow hg R :
  wf st (hg_owners hg ++ ow) → registry_at st (hg_registry hg) = Some R →
  (∀ k p, sec_get k (hg_nodes hg) = Some p → sm_get k (reg_nodes R) = Some p) →
  graph_closed st hg → serializable st R →
  ∃ ser st', HistoryGraph_to_serialized hg st = Ok (ser, st') ∧
    wf st' (hg_owners hg ++ ow) ∧ same_views st st' ∧ describes st hg ser.
Proof.
  intros Hw HR Hin Hcl Hser. pose proof (wf_st_regs _ _ Hw _ _ HR) as HokR.
  assert (∀ x, yielded st hg x → in_graph hg x) as Hy.
  { intros x (y & l & [k Hk] & Hl & Hx). destruct (hg_node_live _ _ _ _ _ Hw Hk) as [d Hd].
    destruct (all_ancestors_walk _ _ _ _ Hw Hd) as (l' & rest & Hl' & Hwalk & _).
    rewrite (lists_ancestors_eq _ _ _ _ Hl (all_ancestors_listed _ _ _ Hl')) in Hx.
    apply (closed_ancestors st hg y x Hcl); [by exists k|]. by apply (walk_out _ _ _ _ Hwalk). }
  destruct (HistoryGraph_to_serialized_outcome st ow hg R Hw HR Hin)
    as [(ser & st' & R' & -> & Hw' & Hv & Hwr)|[_ (x & Hx & Hbad)]].
  - exists ser, st'. split_and!; [done..|]. split; [apply (wr_nodes _ _ _ _ _ Hwr)|]. intros k. pose proof (wr_entry _ _ _ _ _ Hwr k) as He.
    destruct (sec_get k (hg_nodes hg)) as [p|] eqn:Hk.
    + destruct (Hser k p (Hin _ _ Hk)) as (d & Hd & _).
      assert (∃ s, encodes R' d s) as [s Hs].
      { destruct (wr_serializable _ _ _ _ _ Hwr k p) as (d' & Hd' & Hpk); [by apply (wr_kept _ _ _ _ _ Hwr), Hin|]. simplify_eq.
        by apply known_encodes. }
      exists s, d. split_and!; [|done|].
      * apply He. exists p, d. split_and!; [by apply (wr_kept _ _ _ _ _ Hwr), Hin| |done|done]. exists p.
        destruct (all_ancestors_walk _ _ _ _ Hw Hd) as (l & rest & Hl & _ & _). exists l.
        split_and!; [by exists k|by apply all_ancestors_listed|].
        destruct (ancestors_head _ _ _ _ _ Hw Hd Hl) as [l' ->]. left.
      * apply (encodes_graph st hg R' p d s); try done; [apply Hwr| |by exists k].
        intros j q Hj. by apply (wr_kept _ _ _ _ _ Hwr), Hin.
    + destruct (sm_get k (sr_nodes (shg_registry ser))) as [s|] eqn:Hs; [exfalso|done].
      destruct (proj1 (He s) eq_refl) as (p & d & Hp & [j Hj]%Hy & _). pose proof (wr_kept _ _ _ _ _ Hwr _ _ (Hin _ _ Hj)) as Hj'.
      apply (wr_ok _ _ _ _ _ Hwr) in Hp, Hj'. congruence.
  - exfalso. assert (∀ x, named st hg R x → ∃ k, sm_get k (reg_nodes R) = Some x) as Hnm.
    { intros z [?|[k Hk]%Hy]; [done|]. exists k. by apply Hin. }
    apply Hnm in Hx as [k Hk]. destruct (Hser k x Hk) as (d & Hd & Hpk).
    destruct Hbad as [?|(y & (d' & e & ? & He & <-) & Hno)]; [congruence|]. simplify_eq.
    destruct (Hpk e He) as [j Hj]. apply Hno. left. exists j. by apply registry_ok_get_id.
Qed.
End graph_serial.
