(* ===== verification/GraphDeserial.v ===== *)
(** * Deserialisation of history graphs *)

From S2P Require Import Prelude Slotmap Store StoreFacts Rc Registry Drop DropFacts RegistryOps Edge Node NodeFacts RegistryFacts Ancestors History HistoryFacts Insertion InsertAncestors Serialization Deserialize Serialize GraphSerial.

Section graph_deserial.
Context {N E : Type} {S : SlotMapSig} {SLaws : SlotMapLaws S} {A : Allocator}.
Implicit Types (st : store N E) (p q x y g : addr) (id j k : NodeId) (d : InnerData N E) (ow : list ref).
Implicit Types (R : Registry) (hg : HistoryGraph) (s : SerializedInnerData N E) (nodes : SecondaryMap addr).

(** ** A graph over a registry that knows its nodes already *)

(** Inserting nodes that have ids but are tracked by no registry. *)
Lemma new_graph_loop g R ps hg st ow :
  wf st ((NodeStrong <$> ps) ++ hg_owners hg ++ ow) → hg_ok st hg → hg_registry hg = g →
  registry_at st g = Some R → NoDup ps →
  (∀ p, p ∈ ps → is_Some (Registry_get_id R p) ∧ ¬ in_graph hg p ∧
     ∃ d, node st p = Some d ∧ nd_registry d = None) →
  ∃ hg' st', foldM (λ acc p, r ← HistoryGraph_insert_node acc.1 p acc.2; Ok (r.1.2, r.2))
      (hg, st) ps = Ok (hg', st') ∧
    wf st' (hg_owners hg' ++ ow) ∧ hg_ok st' hg' ∧ hg_registry hg' = g ∧ registry_at st' g = Some R ∧
    (∀ k q, sec_get k (hg_nodes hg') = Some q ↔
       sec_get k (hg_nodes hg) = Some q ∨ q ∈ ps ∧ Registry_get_id R q = Some k) ∧
    registered_more g st st' ∧ (∀ q, q ∉ ps → node st' q = node st q) ∧
    (∀ q, q ∈ ps → ∃ d, node st q = Some d ∧ node st' q = Some (set_registry d (Some g))).
Proof.
  revert hg st. induction ps as [|p ps IH]; intros hg st Hw Hok Hg HR Hnd Hps.
  { exists hg, st. split_and!; try done.
    - intros k q. rewrite elem_of_nil. naive_solver.
    - by apply registered_more_views.
    - by intros q ?%elem_of_nil. }
  apply NoDup_cons in Hnd as [Hp Hnd]. destruct (Hps p) as ([id Hid] & Hni & d & Hd & Hnr); [left|].
  simpl. assert (wf st (NodeStrong p :: hg_owners hg ++ (NodeStrong <$> ps) ++ ow)) as Hw0.
  { eapply wf_perm; [|exact Hw]. csimpl. by rewrite (Permutation_app_swap_app (hg_owners hg)). }
  destruct (insert_node_new st _ hg p Hw0 Hok Hni) as
    (id' & hg1 & st1 & -> & Hw1 & Hok1 & Hg1 & Hfr & Hget & Hm1 & Hn1 & Hp1 & Hent); [exists d; auto|]. simpl.
  rewrite Hg in Hg1, Hm1, Hp1, Hent. destruct (rm_reg _ _ _ Hm1 _ _ HR) as (R1 & HR1 & _).
  destruct (proj2 (Hent R R1 HR HR1) id Hid) as [<- ->].
  destruct (IH hg1 st1) as (hg' & st' & -> & Hw' & Hok' & Hg' & HR' & Hget' & Hm' & Hn' & Hp').
  - eapply wf_perm; [|exact Hw1]. by rewrite (Permutation_app_swap_app (hg_owners hg1)).
  - done.
  - done.
  - done.
  - done.
  - intros q Hq. destruct (Hps q) as (? & Hnq & dq & Hdq & ?); [by right|]. split; [done|].
    assert (q ≠ p) by (intros ->; done). split; [|exists dq; by rewrite Hn1].
    intros [k Hk]. rewrite Hget in Hk. case_decide; [congruence|]. apply Hnq. by exists k.
  - exists hg', st'. split_and!; try done.
    + intros k q. rewrite Hget', Hget, elem_of_cons. case_decide; naive_solver.
    + by eapply registered_more_trans.
    + intros q Hq. rewrite Hn', Hn1; [done|set_solver..].
    + intros q [->|Hq]%elem_of_cons; [by rewrite Hn'|]. destruct (Hp' q Hq) as (dq & Hdq & ->).
      exists dq. rewrite <-Hdq, Hn1; [done|]. by intros ->.
Qed.

(** ** The checks on the kept nodes *)

Lemma all_contains_id_spec R ks st ow :
  wf st ow → (∀ k, k ∈ ks → ∃ p d, sm_get k (reg_nodes R) = Some p ∧ node st p = Some d) →
  ∃ st', all_contains_id R ks st = Ok (true, st') ∧ wf st' ow ∧ same_views st st'.
Proof.
  revert st. induction ks as [|k ks IH]; intros st Hw Hks; simpl; [by exists st|].
  destruct (Hks k) as (p & d & Hk & Hd); [left|].
  destruct (Registry_contains_id_spec st ow R k Hw) as (st1 & -> & Hw1 & Hv1).
  { intros q Hq. simplify_eq. apply node_Some in Hd as (b & Hb & _). by exists b. }
  assert (resolve st R k = Some p) as -> by (apply resolve_Some; eauto). simpl.
  destruct (IH st1 Hw1) as (st' & -> & Hw' & Hv').
  { intros j Hj. destruct (Hks j) as (q & dq & ? & ?); [by right|]. exists q, dq. by rewrite (proj1 Hv1). }
  exists st'. split_and!; [done..|by etrans].
Qed.

Lemma sec_retain_split nodes (K : gset NodeId) :
  sec_iter nodes ≡ₚ filter (λ kp, kp.1 ∉ K) (sec_iter nodes) ++
    sec_iter (sec_retain (λ k _, bool_decide (k ∈ K)) nodes).
Proof.
  apply NoDup_Permutation.
  - apply sec_iter_NoDup_pairs.
  - apply NoDup_app. split_and!.
    + apply NoDup_filter, sec_iter_NoDup_pairs.
    + intros [k p] [Hk _]%list_elem_of_filter Hkp%sec_iter_get. rewrite sec_retain_get in Hkp.
      destruct (sec_get k nodes); simpl in Hkp; [|done]. by rewrite bool_decide_false in Hkp.
    + apply sec_iter_NoDup_pairs.
  - intros [k p]. rewrite elem_of_app, list_elem_of_filter, !sec_iter_get, sec_retain_get. simpl.
    destruct (sec_get k nodes) as [q|]; simpl; [|naive_solver].
    destruct (decide (k ∈ K)); [rewrite bool_decide_true by done|rewrite bool_decide_false by done]; naive_solver.
Qed.

Lemma sec_retain_Some nodes (K : gset NodeId) k p :
  sec_get k (sec_retain (λ k _, bool_decide (k ∈ K)) nodes) = Some p ↔ k ∈ K ∧ sec_get k nodes = Some p.
Proof.
  rewrite sec_retain_get. destruct (sec_get k nodes); simpl; [|naive_solver].
  case_bool_decide; naive_solver.
Qed.

(** ** [HistoryGraph::from_serialized] *)

Lemma decoded_known ser st ow nodes st1 R k p :
  registry_ok R → (∀ k, sm_get k (reg_nodes R) = sec_get k nodes) → decoded ser st ow nodes st1 →
  sec_get k nodes = Some p ↔ Registry_get_id R p = Some k.
Proof. intros Hok Hsame _. rewrite <-Hsame. symmetry. by apply registry_ok_get_id. Qed.

(** All nodes of [ser] are made, in [st1]; those that it does not list are dropped,
    which gives [st3]; and the others are put into the graph [hg] over the new
    registry [R]. *)
Record revived (ser : SerializedHistoryGraph N E) st ow R nodes st1 st3 hg st' : Prop := {
  rv_decoded : decoded (sr_nodes (shg_registry ser)) st (registry_refs R ++ ow) nodes st1;
  rv_ok : registry_ok R;
  rv_same k : sm_get k (reg_nodes R) = sec_get k nodes;
  rv_dropped : drop_inv st1 st3 [];
  rv_wf : ∃ l, wf st3 (l ++ ow) ∧ ∀ q, NodeStrong q ∈ l ↔ in_graph hg q;
  rv_fresh : st_regs st3 !! hg_registry hg = None;
  rv_graph k p : sec_get k (hg_nodes hg) = Some p ↔ k ∈ shg_nodes ser ∧ sec_get k nodes = Some p;
  rv_registry h : registry_at st' h = if decide (h = hg_registry hg) then Some R else registry_at st3 h;
  rv_kept q : in_graph hg q →
    ∃ d, node st3 q = Some d ∧ node st' q = Some (set_registry d (Some (hg_registry hg)));
  rv_other q : ¬ in_graph hg q → node st' q = node st3 q;
}.

(** The last part: the kept nodes are put into a graph over the new registry. *)
Lemma keep_nodes (ser : SerializedHistoryGraph N E) st ow R nodes st1 st3 :
  decoded (sr_nodes (shg_registry ser)) st (registry_refs R ++ ow) nodes st1 → registry_ok R →
  (∀ k, sm_get k (reg_nodes R) = sec_get k nodes) →
  let K := list_to_set (shg_nodes ser) : gset NodeId in
  let kept := sec_retain (λ k _, bool_decide (k ∈ K)) nodes in
  wf st3 (registry_refs R ++ node_owners kept ++ ow) → drop_inv st1 st3 [] →
  ∃ hg st', (let g := reg_alloc R st3 in HistoryGraph_new (sec_values kept) g.1 g.2) = Ok (hg, st') ∧
    wf st' (hg_owners hg ++ ow) ∧ hg_ok st' hg ∧ revived ser st ow R nodes st1 st3 hg st'.
Proof.
  intros Hd Hok Hsame K kept Hw3 Hinv.
  assert (∀ q, q ∈ sec_values kept ↔ ∃ k, k ∈ shg_nodes ser ∧ sec_get k nodes = Some q) as Hkept.
  { intros q. rewrite elem_of_sec_values.
    split; intros [k Hk]; exists k; [apply sec_retain_Some in Hk|apply sec_retain_Some];
      unfold K in *; by rewrite elem_of_list_to_set in *. }
  destruct (reg_alloc_wf st3 (node_owners kept ++ ow) R Hw3 Hok)
    as (g & st4 & -> & Hw4 & _ & Hfr & Hn4 & HR4). cbn zeta. simpl.
  destruct (new_graph_loop g R (sec_values kept) (mkHistoryGraph sec_new g) st4 ow)
    as (hg & st' & Heq & Hw' & Hok' & Hg & HRg & Hget & Hm & Hn' & Hp').
  - eapply wf_perm; [|exact Hw4]. unfold hg_owners, sec_values at 2. simpl. rewrite sec_iter_new. simpl.
    by rewrite <-Permutation_middle.
  - exists R. simpl. rewrite HR4, decide_True by done. split; [done|]. intros k p. by rewrite sec_get_new.
  - done.
  - by rewrite HR4, decide_True.
  - unfold sec_values. apply NoDup_fmap_2_strong; [|apply sec_iter_NoDup_pairs].
    intros [k p] [j q] Hk%sec_iter_get Hj%sec_iter_get. simpl. intros ->.
    apply sec_retain_Some in Hk as [_ Hk], Hj as [_ Hj]. f_equal. by eapply dec_inj.
  - intros p Hpk. pose proof Hpk as (k & Hk & Hp)%Hkept. split; [exists k; by apply Hok; rewrite Hsame|].
    split; [intros [j Hj]; simpl in Hj; by rewrite sec_get_new in Hj|].
    destruct (owner_live _ _ p Hw3) as [d Hdp].
    { apply elem_of_app. right. apply elem_of_app. left. by apply list_elem_of_fmap_2. }
    exists d. rewrite Hn4. split; [done|]. apply (dropped_node _ _ _ _ Hinv) in Hdp.
    destruct (dec_node _ _ _ _ _ Hd k p Hp) as (_ & s & d' & _ & ? & ? & _). by simplify_eq.
  - assert (∀ k p, sec_get k (hg_nodes hg) = Some p ↔ k ∈ shg_nodes ser ∧ sec_get k nodes = Some p) as Hgr.
    { intros k p. rewrite Hget. simpl. rewrite sec_get_new, Hkept.
      rewrite <-(decoded_known _ _ _ _ _ _ _ _ Hok Hsame Hd). split; [|naive_solver].
      intros [?|[(j & Hj & Hjp) Hkp]]; [done|]. assert (j = k) as -> by (by eapply dec_inj). done. }
    assert (∀ q, in_graph hg q ↔ q ∈ sec_values kept) as Hing.
    { intros q. rewrite Hkept. unfold in_graph. by setoid_rewrite Hgr. }
    exists hg, st'. split; [done|]. split_and!; try done. split; try done.
    + exists (registry_refs R ++ node_owners kept). rewrite <-(assoc_L (++)). split; [done|].
      intros q. rewrite elem_of_app, Hing, elem_of_registry_refs. unfold node_owners.
      rewrite list_elem_of_fmap. naive_solver.
    + by rewrite Hg.
    + intros h. rewrite Hg. case_decide; [by subst|]. by rewrite (rm_other _ _ _ Hm), HR4, decide_False.
    + intros q Hq%Hing. rewrite Hg. setoid_rewrite <-Hn4. by apply Hp'.
    + intros q Hq. rewrite Hing in Hq. by rewrite Hn', Hn4.
Qed.

(** Every outcome of [HistoryGraph::from_serialized]. *)
Definition unknown_key (ser : SerializedHistoryGraph N E) : Prop :=
  ∃ k, k ∈ shg_nodes ser ∧ sm_get k (sr_nodes (shg_registry ser)) = None.

Lemma HistoryGraph_from_serialized_outcome (ser : SerializedHistoryGraph N E) st ow :
  wf st ow →
  (∃ R nodes st1 st3 hg st', HistoryGraph_from_serialized ser st = Ok (hg, st') ∧
     ¬ ser_bad (sr_nodes (shg_registry ser)) ∧ ¬ unknown_key ser ∧
     wf st' (hg_owners hg ++ ow) ∧ hg_ok st' hg ∧ revived ser st ow R nodes st1 st3 hg st') ∨
  (∃ msg, HistoryGraph_from_serialized ser st = Err (Panic msg) ∧
     (ser_bad (sr_nodes (shg_registry ser)) ∨ unknown_key ser)).
Proof.
  intros Hw. unfold HistoryGraph_from_serialized.
  destruct (Registry_from_serialized_outcome (shg_registry ser) st ow Hw)
    as [(R & nodes & st1 & -> & Hd & Hok & Hsame)|[-> ?]]; [|by right; eauto]. simpl.
  set (K := list_to_set (shg_nodes ser) : gset NodeId).
  destruct (forallb (λ k, sec_contains_key k nodes) (elements K)) eqn:Hall; simpl.
  2: { right. eexists. split; [done|]. right. apply forallb_missing in Hall as (k & Hk & Hno).
       exists k. apply elem_of_elements, elem_of_list_to_set in Hk. split; [done|].
       destruct (sm_get k (sr_nodes (shg_registry ser))) as [s|] eqn:Hs; [exfalso|done].
       destruct (proj2 (dec_dom _ _ _ _ _ Hd k)) as [p Hp]; [by exists s|].
       assert (sec_contains_key k nodes = true) by (apply sec_contains_key_spec; by exists p). congruence. }
  assert (∀ k, k ∈ K → ∃ p d, sec_get k nodes = Some p ∧ node st1 p = Some d) as HK.
  { intros k Hk%elem_of_elements. apply (forallb_elem _ _ _ Hall) in Hk.
    apply sec_contains_key_spec in Hk as [p Hp].
    destruct (dec_node _ _ _ _ _ Hd k p Hp) as (_ & s & d & _ & ? & _). by exists p, d. }
  left. destruct (all_contains_id_spec R (elements K) st1 _ (dec_wf _ _ _ _ _ Hd)) as (st2 & -> & Hw2 & Hv2).
  { intros k Hk%elem_of_elements. destruct (HK k Hk) as (p & d & ? & ?). exists p, d. by rewrite Hsame. }
  simpl. set (kept := sec_retain (λ k _, bool_decide (k ∈ K)) nodes).
  set (removed := NodeStrong <$> (filter (λ kp : NodeId * addr, kp.1 ∉ K) (sec_iter nodes)).*2).
  assert (wf st2 (removed ++ (node_owners kept ++ registry_refs R) ++ ow)) as Hw2'.
  { eapply wf_perm; [|exact Hw2]. rewrite <-(assoc_L (++)), (assoc_L (++) removed).
    apply Permutation_app_tail. unfold removed, node_owners, sec_values.
    rewrite <-!fmap_app. do 2 apply fmap_Permutation. apply sec_retain_split. }
  destruct (drop_refs_spec st2 _ _ Hw2') as (st3 & -> & Hw3 & Hinv). simpl.
  rewrite (forallb_all _ (sec_values kept)).
  2: { intros q [k Hk]%elem_of_sec_values. apply sec_retain_Some in Hk as [_ Hk].
       unfold Registry_contains, Registry_get_id. rewrite <-Hsame in Hk. apply Hok in Hk. by rewrite Hk. }
  simpl. destruct (keep_nodes ser st ow R nodes st1 st3 Hd Hok Hsame) as (hg & st' & Heq & Hw' & Hok' & Hrv).
  { eapply wf_perm; [|exact Hw3]. rewrite <-(assoc_L (++)). apply Permutation_app_swap_app. }
  { by eapply drop_inv_views. }
  exists R, nodes, st1, st3, hg, st'. split; [exact Heq|]. split_and!; [by eapply decoded_good| |done..].
  intros (k & Hk & Hno). destruct (HK k) as (p & _ & Hp & _); [by apply elem_of_list_to_set|].
  destruct (proj1 (dec_dom _ _ _ _ _ Hd k)); [by exists p|congruence].
Qed.

Section revived.
Context (ser : SerializedHistoryGraph N E) (st st1 st3 st' : store N E) (ow : list ref) (R : Registry)
  (nodes : SecondaryMap addr) (hg : HistoryGraph).
Hypothesis Hw : wf st ow.
Hypothesis Hrv : revived ser st ow R nodes st1 st3 hg st'.

(** Nodes of the graph are new, and so known to nothing from before. *)
Lemma revived_new q : in_graph hg q → st_nodes st !! q = None.
Proof.
  intros [k [_ Hk]%(rv_graph _ _ _ _ _ _ _ _ _ Hrv)].
  by destruct (dec_node _ _ _ _ _ (rv_decoded _ _ _ _ _ _ _ _ _ Hrv) k q Hk).
Qed.

(** What was held before is still held, and unchanged. *)
Lemma revived_survive q d : node st q = Some d → node st3 q = Some d.
Proof.
  intros Hq. destruct (rv_wf _ _ _ _ _ _ _ _ _ Hrv) as (l & Hw3 & _).
  pose proof (dec_old _ _ _ _ _ (rv_decoded _ _ _ _ _ _ _ _ _ Hrv)) as Hold.
  apply (dropped_exact st1 st3 _ q d Hw3 (rv_dropped _ _ _ _ _ _ _ _ _ Hrv)). split; [by apply Hold|].
  destruct (live_held _ _ _ _ Hw Hq) as (o & Ho & Hanc). exists o.
  split; [apply elem_of_app; by right|]. eapply rtc_subrel; [|exact Hanc].
  intros a b (db & e & Hb & ?). exists db, e. split; [by apply Hold|done].
Qed.

Lemma revived_old q d : node st q = Some d → node st' q = Some d.
Proof.
  intros Hq. rewrite (rv_other _ _ _ _ _ _ _ _ _ Hrv); [by apply revived_survive|].
  intros ?%revived_new%fresh_node. congruence.
Qed.

(** A node that is left is as [ser] describes it. *)
Lemma revived_node k p d :
  sec_get k nodes = Some p → node st' p = Some d →
  ∃ s, sm_get k (sr_nodes (shg_registry ser)) = Some s ∧ decodes nodes s d.
Proof.
  intros Hk Hd.
  assert (∃ d3, node st3 p = Some d3 ∧ nd_value d = nd_value d3 ∧ nd_incoming d = nd_incoming d3)
    as (d3 & Hd3 & Hv & Hi).
  { destruct (decide (in_graph hg p)) as [Hg|Hg].
    - destruct (rv_kept _ _ _ _ _ _ _ _ _ Hrv p Hg) as (d3 & ? & ?). exists d3. by simplify_eq/=.
    - rewrite (rv_other _ _ _ _ _ _ _ _ _ Hrv p Hg) in Hd. by exists d. }
  apply (dropped_node _ _ _ _ (rv_dropped _ _ _ _ _ _ _ _ _ Hrv)) in Hd3.
  destruct (dec_node _ _ _ _ _ (rv_decoded _ _ _ _ _ _ _ _ _ Hrv) k p Hk)
    as (_ & s & d1 & Hs & Hd1 & _ & Hv1 & Hf). simplify_eq.
  exists s. split; [done|]. split; [congruence|]. by rewrite Hi.
Qed.
End revived.

(** The graph [hg] holds the nodes that [ser] lists; every node that was rebuilt
    and is alive is as [ser] describes it, and nodes from before are unchanged. *)
Record rebuilt (ser : SerializedHistoryGraph N E) st nodes hg st' : Prop := {
  rb_graph k p : sec_get k (hg_nodes hg) = Some p ↔ k ∈ shg_nodes ser ∧ sec_get k nodes = Some p;
  rb_dom k : is_Some (sec_get k nodes) ↔ is_Some (sm_get k (sr_nodes (shg_registry ser)));
  rb_node k p d : sec_get k nodes = Some p → node st' p = Some d →
    ∃ s, sm_get k (sr_nodes (shg_registry ser)) = Some s ∧ decodes nodes s d;
  rb_old q d : node st q = Some d → node st' q = Some d;
}.

Lemma HistoryGraph_from_serialized_spec (ser : SerializedHistoryGraph N E) st ow :
  wf st ow → ¬ ser_bad (sr_nodes (shg_registry ser)) →
  (∀ k, k ∈ shg_nodes ser → is_Some (sm_get k (sr_nodes (shg_registry ser)))) →
  ∃ nodes hg st', HistoryGraph_from_serialized ser st = Ok (hg, st') ∧
    wf st' (hg_owners hg ++ ow) ∧ hg_ok st' hg ∧ rebuilt ser st nodes hg st'.
Proof.
  intros Hw Hgood Hkeys. destruct (HistoryGraph_from_serialized_outcome ser st ow Hw)
    as [(R & nodes & st1 & st3 & hg & st' & Heq & _ & _ & Hw' & Hok & Hrv)|(_ & _ & [?|(k & Hk & Hno)])]; [|done|].
  - exists nodes, hg, st'. split_and!; [done..|]. split.
    + apply Hrv.
    + apply Hrv.
    + by eapply revived_node.
    + by eapply revived_old.
  - apply Hkeys in Hk as [? ?]. congruence.
Qed.
End graph_deserial.
