(* ===== verification/RoundTrip.v ===== *)
(** * Serialising and deserialising a history *)

From S2P Require Import Prelude Slotmap Store StoreFacts Rc Registry Drop DropFacts RegistryOps Edge Node NodeFacts RegistryFacts Ancestors History HistoryFacts Insertion InsertAncestors Serialization Deserialize Serialize GraphSerial GraphDeserial.

Section round_trip.
Context {N E : Type} {S : SlotMapSig} {SLaws : SlotMapLaws S} {A : Allocator}.
Implicit Types (st : store N E) (p q x y g : addr) (id j k : NodeId) (d : InnerData N E) (ow : list ref).
Implicit Types (R : Registry) (hg : HistoryGraph) (s : SerializedInnerData N E) (nodes : SecondaryMap addr).

(** ** Histories that look the same *)

(** The node [p] of [st] and the node [p'] of [st'] have the same value and, edge
    by edge, the same edge values and parents with the same history. *)
Definition simulates (Rel : addr → addr → Prop) st st' : Prop :=
  ∀ x x', Rel x x' → ∃ d d', node st x = Some d ∧ node st' x' = Some d' ∧
    nd_value d' = nd_value d ∧
    Forall2 (λ e e', ie_value e' = ie_value e ∧ Rel (ie_source e) (ie_source e'))
      (nd_incoming d) (nd_incoming d').

Definition same_history st p st' p' : Prop := ∃ Rel, Rel p p' ∧ simulates Rel st st'.

(** Only values and incoming edges matter. *)
Lemma same_history_left st0 st p st' p' :
  (∀ x d, node st x = Some d → ∃ d0, node st0 x = Some d0 ∧
     nd_value d = nd_value d0 ∧ nd_incoming d = nd_incoming d0) →
  same_history st p st' p' → same_history st0 p st' p'.
Proof.
  intros Hst (Rel & Hp & Hsim). exists Rel. split; [done|]. intros x x' Hx.
  destruct (Hsim x x' Hx) as (d & d' & Hd & Hd' & Hv & Hf). destruct (Hst x d Hd) as (d0 & Hd0 & Hv0 & Hi0).
  exists d0, d'. split_and!; [done..|congruence|]. by rewrite <-Hi0.
Qed.

(** The history of a node survives when the node does. *)
Lemma same_history_right st p st1 st2 p' :
  (∀ x' d, ancestor_of st1 x' p' → node st1 x' = Some d → node st2 x' = Some d) →
  same_history st p st1 p' → same_history st p st2 p'.
Proof.
  intros Hst (Rel & Hp & Hsim). exists (λ x x', Rel x x' ∧ ancestor_of st1 x' p').
  split; [split; [done|apply rtc_refl]|]. intros x x' [Hx Hanc].
  destruct (Hsim x x' Hx) as (d & d' & Hd & Hd' & Hv & Hf). exists d, d'.
  split_and!; [done|by apply Hst|done|].
  apply Forall2_same_length_lookup in Hf as [Hlen Hf]. apply Forall2_same_length_lookup. split; [done|].
  intros i e e' He He'. destruct (Hf i e e' He He') as [? ?]. split_and!; [done..|].
  eapply rtc_l; [|done]. by eapply parent_of_edge.
Qed.

(** ** Graphs *)

Lemma describes_good st ow hg ser :
  wf st ow → describes st hg ser → ¬ ser_bad (sr_nodes (shg_registry ser)).
Proof.
  intros Hw [_ Hdesc]. eapply (described_good _ (hg_nodes hg) st); [done|..].
  - intros j k (s & e & Hs & Hin). specialize (Hdesc k). destruct (sec_get k (hg_nodes hg)) as [p|]; [|congruence].
    destruct Hdesc as (s' & d & Hs' & Hn & Hdec). simplify_eq.
    destruct (decodes_parent _ _ _ _ _ _ _ Hdec Hn Hin) as (q & ? & ?). by exists p, q.
  - intros k p Hk. specialize (Hdesc k). rewrite Hk in Hdesc. destruct Hdesc as (s & _ & ? & _). by exists s.
Qed.

Lemma rebuilt_same_history st hg ser st0 nodes hg' st' ow' k p p' :
  describes st hg ser → rebuilt ser st0 nodes hg' st' → wf st' ow' →
  sec_get k (hg_nodes hg) = Some p → sec_get k nodes = Some p' → is_Some (node st' p') →
  same_history st p st' p'.
Proof.
  intros [_ Hdesc] Hrb Hw' Hk Hk' Hlive.
  exists (λ x x', ∃ k, sec_get k (hg_nodes hg) = Some x ∧ sec_get k nodes = Some x' ∧ is_Some (node st' x')).
  split; [by exists k|]. clear k p p' Hk Hk' Hlive.
  intros x x' (k & Hk & Hk' & [d' Hd']). pose proof (Hdesc k) as Hx. rewrite Hk in Hx.
  destruct Hx as (s & d & Hs & Hd & Hv & Hf). destruct (rb_node _ _ _ _ _ Hrb k x' d' Hk' Hd') as (s' & Hs' & Hv' & Hf').
  simplify_eq. exists d, d'. split_and!; [done..|congruence|].
  apply Forall2_same_length_lookup in Hf as [Hlen Hf], Hf' as [Hlen' Hf'].
  apply Forall2_same_length_lookup. split; [congruence|]. intros i e e' He He'.
  destruct (lookup_lt_is_Some_2 (sid_incoming s) i) as [pe Hpe].
  { apply lookup_lt_Some in He. lia. }
  destruct (Hf i pe e Hpe He) as [H1 H2]. destruct (Hf' i pe e' Hpe He') as [H1' H2']. split; [congruence|].
  exists pe.1. split_and!; [done..|].
  destruct (source_live _ _ _ _ e' Hw' Hd') as [dp ->]; [by eapply list_elem_of_lookup_2|done].
Qed.

(** *** What was written can be read back *)

(** Entries with a parent, in what is written for a graph. *)
Lemma written_parent st hg R ser R' j k :
  written st hg R ser R' →
  ser_parent (sr_nodes (shg_registry ser)) j k ↔
  ∃ x y, sm_get k (reg_nodes R') = Some x ∧ sm_get j (reg_nodes R') = Some y ∧ yielded st hg x ∧ parent_of st y x.
Proof.
  intros Hwr. pose proof (wr_ok _ _ _ _ _ Hwr) as Hok. split.
  - intros (s & e & (x & d & Hk & Hy & Hd & [_ Hf])%(wr_entry _ _ _ _ _ Hwr) & [i Hi]%list_elem_of_lookup).
    destruct (Forall2_lookup_r _ _ _ _ _ Hf Hi) as (ie & Hie & Hj & _). exists x, (ie_source ie).
    split_and!; [done| |done|by eapply parent_of_edge]. by apply registry_ok_get_id.
  - intros (x & y & Hk & Hj & Hy & (d & e & Hd & [i Hi]%list_elem_of_lookup & <-)).
    destruct (wr_serializable _ _ _ _ _ Hwr k x Hk) as (d' & Hd' & Hpk). simplify_eq.
    destruct (known_encodes R' d) as [s Hs]; [done|].
    destruct (Forall2_lookup_l _ _ _ _ _ (proj2 Hs) Hi) as ([j' v] & Hv & Hj' & _).
    apply registry_ok_get_id in Hj; [|done]. simpl in Hj'. simplify_eq. exists s, v.
    split; [|by eapply list_elem_of_lookup_2]. apply (wr_entry _ _ _ _ _ Hwr). by exists x, d.
Qed.

Lemma written_known st hg R ser R' k x :
  written st hg R ser R' → sm_get k (reg_nodes R') = Some x →
  is_Some (sm_get k (sr_nodes (shg_registry ser))) ↔ yielded st hg x.
Proof.
  intros Hwr Hk. split.
  - intros [s (x' & d & Hk' & ? & _)%(wr_entry _ _ _ _ _ Hwr)]. by simplify_eq.
  - intros Hy. destruct (wr_serializable _ _ _ _ _ Hwr k x Hk) as (d & Hd & Hpk).
    destruct (known_encodes R' d Hpk) as [s Hs]. exists s. apply (wr_entry _ _ _ _ _ Hwr). by exists x, d.
Qed.

(** It is known of every parent whether it was left out. *)
Lemma written_left_out_dec st hg R ser R' x y :
  written st hg R ser R' → yielded st hg x → parent_of st y x → yielded st hg y ∨ ¬ yielded st hg y.
Proof.
  intros Hwr Hx (d' & e & Hd' & He & <-). destruct (wr_all _ _ _ _ _ Hwr x Hx) as [k Hk].
  destruct (wr_serializable _ _ _ _ _ Hwr k x Hk) as (d & Hd & Hpk). rewrite Hd in Hd'. injection Hd' as <-.
  destruct (Hpk e He) as [j Hj]. apply registry_ok_get_id in Hj; [|apply Hwr].
  rewrite <-(written_known _ _ _ _ _ _ _ Hwr Hj).
  destruct (sm_get j (sr_nodes (shg_registry ser))); [left; eauto|right; by intros [? ?]].
Qed.

(** No cycle is ever written, so the only defect is a parent that was left out. *)
Lemma written_bad st ow hg R ser R' :
  wf st ow → written st hg R ser R' →
  ser_bad (sr_nodes (shg_registry ser)) ↔ ∃ x y, yielded st hg x ∧ parent_of st y x ∧ ¬ yielded st hg y.
Proof.
  intros Hw Hwr. split.
  - intros [[k Hk]|(j & k & (x & y & Hk & Hj & Hx & Hyx)%(written_parent _ _ _ _ _ _ _ Hwr) & Hnone)].
    + exfalso. assert (∀ j k, tc (ser_parent (sr_nodes (shg_registry ser))) j k → ∃ x y,
        sm_get k (reg_nodes R') = Some x ∧ sm_get j (reg_nodes R') = Some y ∧ tc (parent_of st) y x) as Htc.
      { intros j i Ht. induction Ht as [j i Hji|j m i Hjm _ (x & z & Hx & Hz & Hzx)];
          apply (written_parent _ _ _ _ _ _ _ Hwr) in Hji || apply (written_parent _ _ _ _ _ _ _ Hwr) in Hjm.
        - destruct Hji as (x & y & ? & ? & _ & ?). exists x, y. split_and!; [done..|]. by apply tc_once.
        - destruct Hjm as (z' & y & ? & ? & _ & ?). simplify_eq. exists x, y. split_and!; [done..|]. by eapply tc_l. }
      destruct (Htc k k Hk) as (x & y & ? & ? & Ht). simplify_eq.
      destruct (ancestor_rank _ _ Hw) as [rank Hr]. apply Hr in Ht. lia.
    + exists x, y. split_and!; [done..|]. intros [s Hs]%(written_known _ _ _ _ _ _ _ Hwr Hj). congruence.
  - intros (x & y & Hx & Hyx & Hny). right. destruct (wr_all _ _ _ _ _ Hwr x Hx) as [k Hk].
    destruct (wr_serializable _ _ _ _ _ Hwr k x Hk) as (d & Hd & Hpk).
    destruct Hyx as (d' & e & Hd' & He & <-). rewrite Hd in Hd'. injection Hd' as <-. destruct (Hpk e He) as [j Hj].
    apply registry_ok_get_id in Hj; [|apply Hwr]. exists j, k. split.
    + apply (written_parent _ _ _ _ _ _ _ Hwr). exists x, (ie_source e). split_and!; [done..|]. by exists d, e.
    + destruct (sm_get j (sr_nodes (shg_registry ser))) eqn:Hs; [|done]. destruct Hny.
      apply (written_known _ _ _ _ _ _ _ Hwr Hj). by eexists.
Qed.

Lemma written_nodes st ow hg R ser R' :
  wf st (hg_owners hg ++ ow) → (∀ k p, sec_get k (hg_nodes hg) = Some p → sm_get k (reg_nodes R) = Some p) →
  written st hg R ser R' → ¬ unknown_key ser.
Proof.
  intros Hw Hin Hwr (k & [x Hx]%(wr_nodes _ _ _ _ _ Hwr) & Hnone).
  assert (sm_get k (reg_nodes R') = Some x) as Hk by by apply (wr_kept _ _ _ _ _ Hwr), Hin.
  destruct (proj2 (written_known _ _ _ _ _ _ _ Hwr Hk)) as [s Hs]; [|congruence].
  destruct (hg_node_live _ _ _ _ _ Hw Hx) as [d Hd].
  destruct (all_ancestors_walk _ _ _ _ Hw Hd) as (l & rest & Hl & _ & _). exists x, l.
  split_and!; [by exists k|by apply all_ancestors_listed|].
  destruct (ancestors_head _ _ _ _ _ Hw Hd Hl) as [l' ->]. left.
Qed.

(** ** Nodes *)

(** The new graph over [g] when [p] has been cloned for it. *)
Lemma empty_graph_start st ow p g d :
  wf st (RegStrong g :: ow) → node st p = Some d →
  ∃ st1, rc_clone p st = Ok st1 ∧ same_views st st1 ∧
    wf st1 (NodeStrong p :: hg_owners (mkHistoryGraph sec_new g) ++ ow) ∧ hg_ok st1 (mkHistoryGraph sec_new g).
Proof.
  intros Hw Hd. destruct (reg_owner_live st _ g Hw) as [R0 HR0]; [left|].
  destruct (rc_clone_wf st _ p d Hw Hd) as (st1 & Hst1 & Hw1 & Hv1). exists st1. split_and!; [done..| |].
  - unfold hg_owners, sec_values. simpl. by rewrite sec_iter_new.
  - exists R0. rewrite (proj2 Hv1). split; [done|]. intros k x. simpl. by rewrite sec_get_new.
Qed.

(** The history of [p], inserted into an empty graph over an empty registry. *)
Lemma insert_history st ow p g R0 :
  wf st (RegStrong g :: ow) → NodeStrong p ∈ ow → registry_at st g = Some R0 →
  (∀ k, sm_get k (reg_nodes R0) = None) →
  (∀ x d, ancestor_of st x p → node st x = Some d → nd_registry d = None) →
  ∃ st1 id hg st2 R, rc_clone p st = Ok st1 ∧
    HistoryGraph_insert_ancestors (mkHistoryGraph sec_new g) p st1 = Ok (id, hg, st2) ∧
    wf st2 (hg_owners hg ++ ow) ∧ hg_registry hg = g ∧ registry_at st2 g = Some R ∧
    (∀ k x, sec_get k (hg_nodes hg) = Some x ↔ sm_get k (reg_nodes R) = Some x) ∧
    sec_get id (hg_nodes hg) = Some p ∧ graph_closed st2 hg ∧ registered_more g st st2.
Proof.
  intros Hw Hp HR0 Hempty Hnone. set (hg0 := mkHistoryGraph (S:=S) sec_new g).
  destruct (owner_live st _ p Hw) as [dp Hdp]; [by right|].
  destruct (empty_graph_start st ow p g dp Hw Hdp) as (st1 & Hst1 & Hv1 & Hw1 & Hok0).
  assert (∀ x, ¬ in_graph hg0 x) as Hno by (intros x [k Hk]; simpl in Hk; by rewrite sec_get_new in Hk).
  destruct (HistoryGraph_insert_ancestors_outcome hg0 p st1 ow Hw1 Hok0)
    as [(id & hg & st2 & Heq & Hw2 & Hi & Hid & Hpar)|[_ (x & Hx & _ & Hr)]].
  2: { exfalso. assert (ancestor_of st x p) as Hanc.
       { eapply rtc_subrel; [|exact Hx]. intros a b [(d & e & Hb & ?) _]. exists d, e. by rewrite <-(proj1 Hv1). }
       destruct (ancestor_live _ _ _ _ _ Hw Hdp Hanc) as [d Hd]. apply Hr. exists d.
       rewrite (proj1 Hv1). split; [done|]. left. by eapply Hnone. }
  pose proof (ins_registry _ _ _ _ _ Hi) as Hreg. simpl in Hreg.
  destruct (ins_ok _ _ _ _ _ Hi) as (R & HR & Hin). rewrite Hreg in HR.
  exists st1, id, hg, st2, R. split_and!; try done.
  - intros k x. split; [apply Hin|]. intros Hk.
    destruct (ins_entries _ _ _ _ _ Hi R0 R k x) as [Hk0|?]; [by rewrite (proj2 Hv1)|done|done| |done].
    by rewrite Hempty in Hk0.
  - intros x y Hx Hy. apply (registered_more_parent _ _ _ y x (ins_stores _ _ _ _ _ Hi)) in Hy.
    destruct (ins_closed _ _ _ _ _ Hi x y Hx Hy) as [?%Hno|?]; done.
  - eapply registered_more_trans; [by apply registered_more_views|]. apply Hi.
Qed.

Lemma RelRc_to_serialized_spec st ow p g R0 :
  wf st (RegStrong g :: ow) → NodeStrong p ∈ ow → registry_at st g = Some R0 →
  (∀ k, sm_get k (reg_nodes R0) = None) →
  (∀ x d, ancestor_of st x p → node st x = Some d → nd_registry d = None) →
  ∃ ser st' hg st2, RelRc_to_serialized p g st = Ok (ser, st') ∧ wf st' ow ∧
    drop_inv st2 st' [] ∧ registered_more g st st2 ∧ wf st2 (hg_owners hg ++ ow) ∧
    describes st2 hg (srr_ancestors_graph ser) ∧ sec_get (srr_id ser) (hg_nodes hg) = Some p.
Proof.
  intros Hw Hp HR0 Hempty Hnone.
  destruct (insert_history st ow p g R0 Hw Hp HR0 Hempty Hnone)
    as (st1 & id & hg & st2 & R & Hc & Heq & Hw2 & Hreg & HR & Hent & Hid & Hcl & Hm).
  unfold RelRc_to_serialized. simpl. rewrite Hc. simpl. rewrite Heq. simpl.
  pose proof (wf_st_regs _ _ Hw2 _ _ HR) as HokR.
  destruct (HistoryGraph_to_serialized_closed st2 ow hg R Hw2) as (ser & st3 & -> & Hw3 & Hv3 & Hdesc).
  - by rewrite Hreg.
  - intros k x. apply Hent.
  - done.
  - intros k x Hk. apply Hent in Hk. destruct (hg_node_live _ _ _ _ _ Hw2 Hk) as [d Hd]. exists d.
    split; [done|]. intros e [i Hi]%list_elem_of_lookup.
    destruct (Hcl x (ie_source e)) as [j Hj]; [by exists k|by eapply parent_of_edge|].
    exists j. by apply HokR, Hent.
  - simpl. unfold HistoryGraph_drop. destruct (drop_refs_spec st3 _ _ Hw3) as (st4 & -> & Hw4 & Hinv). simpl.
    eexists _, st4, hg, st2. split; [done|]. split_and!; try done. by eapply drop_inv_views.
Qed.

(** Every outcome of [RelRc::from_serialized].  The node it returns is bound to the
    registry of the graph it came with, which is gone. *)
Lemma RelRc_from_serialized_outcome (ser : SerializedRelRc N E) st ow :
  wf st ow →
  let graph := srr_ancestors_graph ser in
  (∃ p d g st', RelRc_from_serialized ser st = Ok (p, st') ∧ wf st' (NodeStrong p :: ow) ∧
     ¬ ser_bad (sr_nodes (shg_registry graph)) ∧ ¬ unknown_key graph ∧ srr_id ser ∈ shg_nodes graph ∧
     node st' p = Some d ∧ nd_registry d = Some g ∧ registry_at st' g = None) ∨
  (∃ msg, RelRc_from_serialized ser st = Err (Panic msg) ∧
     (ser_bad (sr_nodes (shg_registry graph)) ∨ unknown_key graph ∨ srr_id ser ∉ shg_nodes graph)).
Proof.
  intros Hw graph. unfold RelRc_from_serialized. fold graph.
  destruct (HistoryGraph_from_serialized_outcome graph st ow Hw)
    as [(R & nodes & st1 & st3 & hg & st2 & -> & Hgood & Hknown & Hw2 & _ & Hrv)|(msg & -> & ?)]; [|right; naive_solver].
  simpl. unfold HistoryGraph_get_node. destruct (sec_get (srr_id ser) (hg_nodes hg)) as [p|] eqn:Hid; simpl.
  2: { right. eexists. split; [done|]. right; right. intros Hin.
       destruct (sm_get (srr_id ser) (sr_nodes (shg_registry graph))) as [s|] eqn:Hs; [|by apply Hknown; eexists].
       destruct (proj2 (dec_dom _ _ _ _ _ (rv_decoded _ _ _ _ _ _ _ _ _ Hrv) (srr_id ser))) as [p Hp]; [by exists s|].
       assert (sec_get (srr_id ser) (hg_nodes hg) = Some p) by by apply (rv_graph _ _ _ _ _ _ _ _ _ Hrv). congruence. }
  left. destruct (proj1 (rv_graph _ _ _ _ _ _ _ _ _ Hrv _ _) Hid) as [Hin _].
  destruct (rv_kept _ _ _ _ _ _ _ _ _ Hrv p) as (d & _ & Hd); [by exists (srr_id ser)|].
  destruct (rc_clone_wf _ _ _ _ Hw2 Hd) as (st4 & -> & Hw4 & Hv). simpl.
  assert (wf st4 (hg_owners hg ++ NodeStrong p :: ow)) as Hw4'.
  { eapply wf_perm; [|exact Hw4]. by rewrite <-Permutation_middle. }
  unfold HistoryGraph_drop. destruct (drop_refs_spec _ _ _ Hw4') as (st5 & Hst5 & Hw5 & _). rewrite Hst5. simpl.
  exists p, (set_registry d (Some (hg_registry hg))), (hg_registry hg), st5. split_and!; [done|done|done|done|done| |done|].
  - apply (drop_refs_exact st4 st5 _ _ _ _ Hw4' Hst5). rewrite (proj1 Hv). split; [exact Hd|].
    exists p. split; [left|apply rtc_refl].
  - destruct (registry_at st5 (hg_registry hg)) as [R5|] eqn:HR5; [exfalso|done].
    apply (registry_owned _ _ _ _ Hw5), elem_of_cons in HR5 as [?|Hg]; [done|].
    destruct (rv_wf _ _ _ _ _ _ _ _ _ Hrv) as (l & Hw3 & _).
    destruct (reg_owner_live st3 _ (hg_registry hg) Hw3) as [R3 (b & Hb & _)%registry_at_Some].
    { apply elem_of_app. by right. }
    by rewrite (rv_fresh _ _ _ _ _ _ _ _ _ Hrv) in Hb.
Qed.

(** [RelRc::to_serialized] returns or panics. *)
Lemma RelRc_to_serialized_outcome st ow p g d :
  wf st (RegStrong g :: ow) → node st p = Some d →
  (∃ ser st', RelRc_to_serialized p g st = Ok (ser, st') ∧ wf st' ow) ∨
  (∃ msg, RelRc_to_serialized p g st = Err (Panic msg)).
Proof.
  intros Hw Hd. destruct (empty_graph_start st ow p g d Hw Hd) as (st1 & Hst1 & _ & Hw1 & Hok1).
  unfold RelRc_to_serialized. simpl. rewrite Hst1. simpl.
  destruct (HistoryGraph_insert_ancestors_outcome _ p st1 ow Hw1 Hok1)
    as [(id & hg & st2 & -> & Hw2 & Hi & _)|[-> _]]; [|right; by eexists]. simpl.
  destruct (ins_ok _ _ _ _ _ Hi) as (R & HR & Hin).
  destruct (HistoryGraph_to_serialized_outcome st2 ow hg R Hw2 HR Hin)
    as [(ser & st3 & R' & -> & Hw3 & _)|[-> _]]; [|right; by eexists]. simpl.
  unfold HistoryGraph_drop. destruct (drop_refs_spec st3 _ _ Hw3) as (st4 & -> & Hw4 & _). left. by eexists _, st4.
Qed.

(** A node whose registry is gone can not be serialised with any other. *)
Lemma to_serialized_orphan st ow p g d h :
  wf st (RegStrong g :: ow) → node st p = Some d → nd_registry d = Some h → registry_at st h = None →
  RelRc_to_serialized p g st = Err (Panic "node not registered").
Proof.
  intros Hw Hd Hh Hdead. destruct (reg_owner_live st _ g Hw) as [R0 HR0]; [left|].
  destruct (empty_graph_start st ow p g d Hw Hd) as (st1 & Hst1 & Hv1 & Hw1 & Hok1).
  unfold RelRc_to_serialized. simpl. rewrite Hst1. simpl.
  destruct (HistoryGraph_insert_ancestors_outcome _ p st1 ow Hw1 Hok1)
    as [(id & hg & st2 & Heq & Hw2 & Hi & Hid & Hpar)|[Heq _]]; [exfalso|by rewrite Heq].
  destruct (ins_sound _ _ _ _ _ Hi p) as [[k Hk]|[_ (d1 & Hd1 & Hreg)]]; [by exists id|simpl in Hk; by rewrite sec_get_new in Hk|].
  rewrite (proj1 Hv1), Hd in Hd1. injection Hd1 as <-. rewrite Hh in Hreg. simpl in Hreg. destruct Hreg; congruence.
Qed.

Lemma RelRc_from_serialized_spec st hg (ser : SerializedRelRc N E) p st1 ow1 ow :
  wf st ow → describes st hg (srr_ancestors_graph ser) → sec_get (srr_id ser) (hg_nodes hg) = Some p →
  wf st1 ow1 →
  ∃ p' st', RelRc_from_serialized ser st1 = Ok (p', st') ∧ wf st' (NodeStrong p' :: ow1) ∧
    same_history st p st' p' ∧ (∀ q d, node st1 q = Some d → node st' q = Some d).
Proof.
  intros Hw Hdesc Hid Hw1. unfold RelRc_from_serialized.
  destruct (HistoryGraph_from_serialized_spec (srr_ancestors_graph ser) st1 ow1 Hw1)
    as (nodes & hg' & st2 & -> & Hw2 & Hok2 & Hrb).
  - exact (describes_good st ow hg _ Hw Hdesc).
  - intros k Hk%Hdesc. destruct Hdesc as [_ Hd]. specialize (Hd k). destruct Hk as [q Hq]. rewrite Hq in Hd.
    destruct Hd as (s & _ & ? & _). by exists s.
  - simpl. assert (srr_id ser ∈ shg_nodes (srr_ancestors_graph ser)) as Hin by (apply Hdesc; by exists p).
    assert (is_Some (sec_get (srr_id ser) nodes)) as [p' Hp'].
    { apply (rb_dom _ _ _ _ _ Hrb). destruct Hdesc as [_ Hd]. specialize (Hd (srr_id ser)). rewrite Hid in Hd.
      destruct Hd as (s & _ & ? & _). by exists s. }
    assert (sec_get (srr_id ser) (hg_nodes hg') = Some p') as Hg by by apply (rb_graph _ _ _ _ _ Hrb).
    unfold HistoryGraph_get_node. rewrite Hg. simpl.
    destruct (hg_node_live _ _ _ _ _ Hw2 Hg) as [d' Hd'].
    destruct (rc_clone_wf _ _ _ _ Hw2 Hd') as (st3 & -> & Hw3 & Hv3). simpl.
    assert (wf st3 (hg_owners hg' ++ NodeStrong p' :: ow1)) as Hw3'.
    { eapply wf_perm; [|exact Hw3]. by rewrite <-Permutation_middle. }
    unfold HistoryGraph_drop. destruct (drop_refs_spec _ _ _ Hw3') as (st4 & Hst4 & Hw4 & _). rewrite Hst4. simpl.
    exists p', st4. split_and!; [done..| |].
    + apply (same_history_right _ _ st2); [|eapply (rebuilt_same_history st hg _ st1 nodes hg' st2);
        [done|done|exact Hw2|done|done|by exists d']].
      intros x d Hx Hd. apply (drop_refs_exact st3 st4 _ _ x d Hw3' Hst4). rewrite (proj1 Hv3).
      split; [done|]. exists p'. split; [left|]. eapply rtc_subrel; [|exact Hx].
      intros a b (db & e & Hb & ?). exists db, e. by rewrite (proj1 Hv3).
    + intros q d Hq. apply (drop_refs_exact st3 st4 _ _ q d Hw3' Hst4). rewrite (proj1 Hv3).
      split; [by apply (rb_old _ _ _ _ _ Hrb)|]. destruct (live_held _ _ _ _ Hw1 Hq) as (o & Ho & Hanc).
      exists o. split; [by right|]. eapply rtc_subrel; [|exact Hanc].
      intros a b (db & e & Hb & ?). exists db, e. rewrite (proj1 Hv3). split; [by apply (rb_old _ _ _ _ _ Hrb)|done].
Qed.
End round_trip.
