(* ===== verification/GuardedOps.v ===== *)
(** * Every operation under guards

    Each operation that takes a store is run on a store and on the same store with
    more guards ([Guarded]): where no borrow panics, it does the same. *)

From S2P Require Import Prelude Slotmap Store RefCell Guarded StoreFacts Rc Registry Drop DropFacts RegistryOps Edge Node NodeFacts History Petgraph Serialization Serialize GraphSerial.

Section guarded_ops.
Context {N E : Type} {S : SlotMapSig} {SLaws : SlotMapLaws S} {A : Allocator}.
Implicit Types (s : store N E) (F : gmap cell Z) (c : cell) (p q g : addr) (R : Registry) (id : NodeId) (hg : HistoryGraph).

(** ** Reference counts *)

Lemma rc_clone_alike p : steps_alike (N:=N) (E:=E) (rc_clone p).
Proof. apply framed_step_alike. intros. apply rc_clone_framed. Qed.
Lemma rc_new_weak_alike p : steps_alike (N:=N) (E:=E) (rc_new_weak p).
Proof. apply framed_step_alike. intros. apply rc_new_weak_framed. Qed.
Lemma rc_upgrade_alike p : runs_alike (N:=N) (E:=E) (rc_upgrade p).
Proof. apply framed_alike. intros. apply rc_upgrade_framed. Qed.
Lemma reg_clone_alike g : steps_alike (N:=N) (E:=E) (reg_clone g).
Proof. intros F0 F1 s0 s1 Hs. unfold reg_clone. guarded. Qed.
Lemma reg_new_weak_alike g : steps_alike (N:=N) (E:=E) (reg_new_weak g).
Proof. apply framed_step_alike. intros. apply reg_new_weak_framed. Qed.
Lemma reg_upgrade_alike g : runs_alike (N:=N) (E:=E) (reg_upgrade g).
Proof. apply framed_alike. intros. apply reg_upgrade_framed. Qed.
Lemma put_node_alike p (d : InnerData N E) : steps_alike (put_node p d).
Proof. apply framed_step_alike. intros. apply put_node_framed. Qed.
Lemma put_registry_alike g R : steps_alike (N:=N) (E:=E) (put_registry g R).
Proof. apply framed_step_alike. intros. apply put_registry_framed. Qed.
#[local] Hint Resolve rc_clone_alike rc_new_weak_alike rc_upgrade_alike reg_clone_alike
  reg_new_weak_alike reg_upgrade_alike put_node_alike put_registry_alike : guarded.

(** ** Dropping *)

Lemma registered_id_alike g p : reads_alike (N:=N) (E:=E) (registered_id g p).
Proof. intros F0 F1 s0 s1 Hs. unfold registered_id. guarded. Qed.
Lemma remove_id_alike g id : runs_alike (N:=N) (E:=E) (remove_id g id).
Proof. intros F0 F1 s0 s1 Hs. unfold remove_id. guarded. Qed.
#[local] Hint Resolve registered_id_alike remove_id_alike : guarded.
Lemma RelRc_unregister_alike p weak : runs_alike (N:=N) (E:=E) (RelRc_unregister p weak).
Proof. intros F0 F1 s0 s1 Hs. unfold RelRc_unregister. guarded. Qed.
#[local] Hint Resolve RelRc_unregister_alike : guarded.
Lemma RelRc_drop_alike p : runs_alike (N:=N) (E:=E) (RelRc_drop p).
Proof. intros F0 F1 s0 s1 Hs. unfold RelRc_drop. guarded. Qed.
Lemma drop_rc_alike p : runs_alike (N:=N) (E:=E) (drop_rc p).
Proof. intros F0 F1 s0 s1 Hs. unfold drop_rc. guarded. Qed.
Lemma drop_weak_alike p : runs_alike (N:=N) (E:=E) (drop_weak p).
Proof. intros F0 F1 s0 s1 Hs. unfold drop_weak. guarded. Qed.
Lemma drop_reg_rc_alike g : runs_alike (N:=N) (E:=E) (drop_reg_rc g).
Proof. intros F0 F1 s0 s1 Hs. unfold drop_reg_rc. guarded. Qed.
Lemma drop_reg_weak_alike g : runs_alike (N:=N) (E:=E) (drop_reg_weak g).
Proof. intros F0 F1 s0 s1 Hs. unfold drop_reg_weak. guarded. Qed.
#[local] Hint Resolve RelRc_drop_alike drop_rc_alike drop_weak_alike drop_reg_rc_alike drop_reg_weak_alike : guarded.
Lemma drop_step_alike i : runs_alike (N:=N) (E:=E) (drop_step i).
Proof. intros F0 F1 s0 s1 Hs. unfold drop_step. guarded. Qed.
#[local] Hint Resolve drop_step_alike : guarded.
Lemma drop_loop_alike fuel stack : steps_alike (N:=N) (E:=E) (drop_loop fuel stack).
Proof.
  revert stack. induction fuel as [|fuel IH]; intros stack F0 F1 s0 s1 Hs; destruct stack; simpl; guarded.
Qed.
#[local] Hint Resolve drop_loop_alike : guarded.
Lemma drop_all_alike stack : steps_alike (N:=N) (E:=E) (drop_all stack).
Proof.
  intros F0 F1 s0 s1 Hs. unfold drop_all.
  replace (total_weight stack s1) with (total_weight stack s0) by (by destruct Hs as (_ & _ & ->)). by apply drop_loop_alike.
Qed.
#[local] Hint Resolve drop_all_alike : guarded.
Lemma drop_refs_alike l : steps_alike (N:=N) (E:=E) (drop_refs l).
Proof. apply drop_all_alike. Qed.
Lemma drop_relrc_alike p : steps_alike (N:=N) (E:=E) (drop_relrc p).
Proof. apply drop_all_alike. Qed.
#[local] Hint Resolve drop_refs_alike drop_relrc_alike : guarded.

(** ** Registries *)

Lemma registry_update_alike {B} g (f : Registry → store N E → result (B * Registry * store N E)) :
  (∀ R, runs_alike (f R)) → runs_alike (registry_update g f).
Proof. intros Hf F0 F1 s0 s1 Hs. unfold registry_update. guarded. Qed.
Lemma with_registry_mut_alike {B} g (f : Registry → store N E → result (B * Registry * store N E)) :
  (∀ R, runs_alike (f R)) → runs_alike (with_registry_mut g f).
Proof. intros Hf. by apply with_borrow_mut_alike, registry_update_alike. Qed.
Lemma with_registry_alike {B} g (f : Registry → store N E → result (B * store N E)) :
  (∀ R, runs_alike (f R)) → runs_alike (with_registry g f).
Proof. intros Hf. apply with_borrow_alike. alike. Qed.
#[local] Hint Resolve with_registry_mut_alike with_registry_alike : guarded.
Lemma Registry_add_node_alike R p : runs_alike (N:=N) (E:=E) (Registry_add_node R p).
Proof. intros F0 F1 s0 s1 Hs. unfold Registry_add_node. guarded. Qed.
Lemma Registry_get_alike R id : runs_alike (N:=N) (E:=E) (Registry_get R id).
Proof. intros F0 F1 s0 s1 Hs. unfold Registry_get. guarded. Qed.
#[local] Hint Resolve Registry_add_node_alike Registry_get_alike : guarded.
Lemma Registry_get_id_or_insert_alike R p : runs_alike (N:=N) (E:=E) (Registry_get_id_or_insert R p).
Proof. intros F0 F1 s0 s1 Hs. unfold Registry_get_id_or_insert. guarded. Qed.
Lemma Registry_contains_id_alike R id : runs_alike (N:=N) (E:=E) (Registry_contains_id R id).
Proof. intros F0 F1 s0 s1 Hs. unfold Registry_contains_id. guarded. Qed.
Lemma collect_dead_alike acc kw : runs_alike (N:=N) (E:=E) (λ s, collect_dead (acc, s) kw).
Proof. intros F0 F1 s0 s1 Hs. unfold collect_dead. simpl. guarded. Qed.
Lemma remove_slot_alike sm id : runs_alike (N:=N) (E:=E) (λ s, remove_slot (sm, s) id).
Proof. intros F0 F1 s0 s1 Hs. unfold remove_slot. simpl. guarded. Qed.
#[local] Hint Resolve collect_dead_alike remove_slot_alike : guarded.
Lemma Registry_free_node_ids_alike R : runs_alike (N:=N) (E:=E) (Registry_free_node_ids R).
Proof. intros F0 F1 s0 s1 Hs. unfold Registry_free_node_ids. guarded. Qed.
Lemma Registry_iter_alike R : runs_alike (N:=N) (E:=E) (Registry_iter R).
Proof. intros F0 F1 s0 s1 Hs. unfold Registry_iter. guarded. Qed.
Lemma Registry_remove_drop_alike R id : runs_alike (N:=N) (E:=E) (Registry_remove_drop R id).
Proof. intros F0 F1 s0 s1 Hs. unfold Registry_remove_drop. guarded. Qed.
Lemma Registry_clone_alike R : runs_alike (N:=N) (E:=E) (Registry_clone R).
Proof. intros F0 F1 s0 s1 Hs. unfold Registry_clone. guarded. Qed.
#[local] Hint Resolve Registry_get_id_or_insert_alike Registry_contains_id_alike Registry_free_node_ids_alike Registry_iter_alike Registry_remove_drop_alike Registry_clone_alike : guarded.

(** ** Nodes *)

Lemma push_outgoing_alike (ie : nat * InnerEdgeData E) : steps_alike (N:=N) (λ s, push_outgoing s ie).
Proof. intros F0 F1 s0 s1 Hs. unfold push_outgoing, InnerEdgeData_downgrade. guarded. Qed.
#[local] Hint Resolve push_outgoing_alike : guarded.
Lemma RelRc_with_parents_alike (value : N) (parents : list (addr * E)) :
  runs_alike (RelRc_with_parents value parents).
Proof.
  intros F0 F1 s0 s1 Hs. unfold RelRc_with_parents, register_outgoing_edges.
  replace (dom (st_nodes s1)) with (dom (st_nodes s0)) by (by destruct Hs as (_ & _ & ->)).
  eapply outcome_bind; [|guarded_intro; guarded].
  apply (foldM_step_alike push_outgoing); [intros; apply push_outgoing_alike|by apply stores_set_node].
Qed.
Lemma RelRc_new_alike (value : N) F0 F1 s0 s1 :
  stores F0 F1 s0 s1 → returns F0 F1 (RelRc_new (E:=E) value s0) (RelRc_new value s1).
Proof. intros Hs. pose proof Hs as (_ & _ & ->). apply returns_pair. by apply stores_set_node. Qed.
Lemma RelRc_registry_alike p : runs_alike (N:=N) (E:=E) (RelRc_registry p).
Proof. intros F0 F1 s0 s1 Hs. unfold RelRc_registry. guarded. Qed.
Lemma replace_register_alike p g : steps_alike (N:=N) (E:=E) (replace_register p g).
Proof. intros F0 F1 s0 s1 Hs. unfold replace_register. guarded. Qed.
#[local] Hint Resolve RelRc_with_parents_alike RelRc_registry_alike replace_register_alike : guarded.
Lemma RelRc_try_set_register_alike p g : runs_alike (N:=N) (E:=E) (RelRc_try_set_register p g).
Proof. intros F0 F1 s0 s1 Hs. unfold RelRc_try_set_register. guarded. Qed.
#[local] Hint Resolve RelRc_try_set_register_alike : guarded.
Lemma RelRc_try_register_in_alike p g : runs_alike (N:=N) (E:=E) (RelRc_try_register_in p g).
Proof. intros F0 F1 s0 s1 Hs. unfold RelRc_try_register_in. guarded. Qed.
Lemma WeakEdge_upgrade_alike e : runs_alike (N:=N) (E:=E) (WeakEdge_upgrade e).
Proof. intros F0 F1 s0 s1 Hs. unfold WeakEdge_upgrade. guarded. Qed.
#[local] Hint Resolve RelRc_try_register_in_alike WeakEdge_upgrade_alike : guarded.
Lemma retain_outgoing_alike p kept rest : runs_alike (N:=N) (E:=E) (retain_outgoing p kept rest).
Proof.
  revert kept. induction rest as [|e rest IH]; intros kept F0 F1 s0 s1 Hs; simpl; guarded.
Qed.
#[local] Hint Resolve retain_outgoing_alike : guarded.
Lemma InnerData_all_outgoing_alike p : runs_alike (N:=N) (E:=E) (InnerData_all_outgoing p).
Proof. intros F0 F1 s0 s1 Hs. unfold InnerData_all_outgoing. guarded. Qed.
#[local] Hint Resolve InnerData_all_outgoing_alike : guarded.
Lemma InnerData_n_outgoing_alike p : runs_alike (N:=N) (E:=E) (InnerData_n_outgoing p).
Proof. intros F0 F1 s0 s1 Hs. unfold InnerData_n_outgoing. guarded. Qed.
Lemma RelRc_all_ancestors_alike p : reads_alike (N:=N) (E:=E) (RelRc_all_ancestors p).
Proof.
  intros F0 F1 s0 s1 (_ & _ & ->). unfold RelRc_all_ancestors. simpl size.
  generalize (Datatypes.S (size (st_nodes s0))) (mkAncestorsIter ∅ [p]). intros n.
  induction n as [|n IH]; intros it; simpl; [apply outcome_Err|].
  eapply outcome_bind; [apply (outcome_eq (ancestors_next s0 it))|]. guarded_intro. guarded_step; [|guarded].
  eapply outcome_bind; [apply IH|]. guarded_intro. guarded.
Qed.
#[local] Hint Resolve InnerData_n_outgoing_alike RelRc_all_ancestors_alike : guarded.

(** ** History graphs *)

Lemma HistoryGraph_drop_alike hg : steps_alike (N:=N) (E:=E) (HistoryGraph_drop hg).
Proof. intros F0 F1 s0 s1 Hs. unfold HistoryGraph_drop. guarded. Qed.
#[local] Hint Resolve HistoryGraph_drop_alike : guarded.
Lemma HistoryGraph_get_node_id_alike hg p : reads_alike (N:=N) (E:=E) (HistoryGraph_get_node_id hg p).
Proof. intros F0 F1 s0 s1 Hs. unfold HistoryGraph_get_node_id. guarded. Qed.
#[local] Hint Resolve HistoryGraph_get_node_id_alike : guarded.
Lemma HistoryGraph_contains_alike hg p : reads_alike (N:=N) (E:=E) (HistoryGraph_contains hg p).
Proof. intros F0 F1 s0 s1 Hs. unfold HistoryGraph_contains. guarded. Qed.
#[local] Hint Resolve HistoryGraph_contains_alike : guarded.
Lemma HistoryGraph_get_edge_alike hg e : reads_alike (N:=N) (E:=E) (HistoryGraph_get_edge hg e).
Proof. intros F0 F1 s0 s1 Hs. unfold HistoryGraph_get_edge. guarded. Qed.
#[local] Hint Resolve HistoryGraph_get_edge_alike : guarded.
Lemma HistoryGraph_contains_edge_alike hg e : reads_alike (N:=N) (E:=E) (HistoryGraph_contains_edge hg e).
Proof. intros F0 F1 s0 s1 Hs. unfold HistoryGraph_contains_edge. guarded. Qed.
#[local] Hint Resolve HistoryGraph_contains_edge_alike : guarded.
Lemma HistoryGraph_source_alike hg e : reads_alike (N:=N) (E:=E) (HistoryGraph_source hg e).
Proof. intros F0 F1 s0 s1 Hs. unfold HistoryGraph_source. guarded. Qed.
#[local] Hint Resolve HistoryGraph_source_alike : guarded.
Lemma HistoryGraph_target_alike hg e : reads_alike (N:=N) (E:=E) (HistoryGraph_target hg e).
Proof. intros F0 F1 s0 s1 Hs. unfold HistoryGraph_target. guarded. Qed.
#[local] Hint Resolve HistoryGraph_target_alike : guarded.
Lemma outgoing_edge_id_alike hg acc e : runs_alike (N:=N) (E:=E) (λ s, outgoing_edge_id hg (acc, s) e).
Proof. intros F0 F1 s0 s1 Hs. unfold outgoing_edge_id. simpl. guarded. Qed.
#[local] Hint Resolve outgoing_edge_id_alike : guarded.
Lemma HistoryGraph_outgoing_edges_alike hg id : runs_alike (N:=N) (E:=E) (HistoryGraph_outgoing_edges hg id).
Proof. intros F0 F1 s0 s1 Hs. unfold HistoryGraph_outgoing_edges. guarded. Qed.
#[local] Hint Resolve HistoryGraph_outgoing_edges_alike : guarded.
Lemma HistoryGraph_incoming_edges_alike hg id : reads_alike (N:=N) (E:=E) (HistoryGraph_incoming_edges hg id).
Proof. intros F0 F1 s0 s1 Hs. unfold HistoryGraph_incoming_edges. guarded. Qed.
#[local] Hint Resolve HistoryGraph_incoming_edges_alike : guarded.
Lemma HistoryGraph_parents_alike hg id : reads_alike (N:=N) (E:=E) (HistoryGraph_parents hg id).
Proof. intros F0 F1 s0 s1 Hs. unfold HistoryGraph_parents. guarded. Qed.
#[local] Hint Resolve HistoryGraph_parents_alike : guarded.
Lemma HistoryGraph_children_alike hg id : runs_alike (N:=N) (E:=E) (HistoryGraph_children hg id).
Proof. intros F0 F1 s0 s1 Hs. unfold HistoryGraph_children. guarded. Qed.
#[local] Hint Resolve HistoryGraph_children_alike : guarded.
Lemma HistoryGraph_insert_node_alike hg p : runs_alike (N:=N) (E:=E) (HistoryGraph_insert_node hg p).
Proof. intros F0 F1 s0 s1 Hs. unfold HistoryGraph_insert_node. guarded. Qed.
#[local] Hint Resolve HistoryGraph_insert_node_alike : guarded.
Lemma insert_ancestors_alike fuel hg p : runs_alike (N:=N) (E:=E) (insert_ancestors fuel hg p).
Proof.
  revert hg p. induction fuel as [|fuel IH]; intros hg p F0 F1 s0 s1 Hs; simpl; guarded.
Qed.
#[local] Hint Resolve insert_ancestors_alike : guarded.
Lemma HistoryGraph_insert_ancestors_alike hg p : runs_alike (N:=N) (E:=E) (HistoryGraph_insert_ancestors hg p).
Proof.
  intros F0 F1 s0 s1 Hs. unfold HistoryGraph_insert_ancestors.
  replace (st_nodes s1) with (st_nodes s0) by (by destruct Hs as (_ & _ & ->)). by apply insert_ancestors_alike.
Qed.
Lemma HistoryGraph_new_alike nodes g : runs_alike (N:=N) (E:=E) (HistoryGraph_new nodes g).
Proof. intros F0 F1 s0 s1 Hs. unfold HistoryGraph_new. guarded. Qed.
#[local] Hint Resolve HistoryGraph_new_alike : guarded.
Lemma HistoryGraph_clone_alike hg : runs_alike (N:=N) (E:=E) (HistoryGraph_clone hg).
Proof. intros F0 F1 s0 s1 Hs. unfold HistoryGraph_clone. guarded. Qed.
#[local] Hint Resolve HistoryGraph_clone_alike : guarded.

(** ** [petgraph] *)

Lemma neighbors_directed_alike hg id d : runs_alike (N:=N) (E:=E) (neighbors_directed hg id d).
Proof. intros F0 F1 s0 s1 Hs. unfold neighbors_directed. guarded. Qed.
Lemma edges_directed_alike hg id d : runs_alike (N:=N) (E:=E) (edges_directed hg id d).
Proof. intros F0 F1 s0 s1 Hs. unfold edges_directed. guarded. Qed.
Lemma edge_references_alike hg : reads_alike (N:=N) (E:=E) (edge_references hg).
Proof. intros F0 F1 s0 s1 Hs. unfold edge_references. guarded. Qed.
Lemma EdgeRef_read_alike e : reads_alike (N:=N) (E:=E) (EdgeRef_read e).
Proof.
  intros F0 F1 s0 s1 Hs.
  unfold EdgeRef_read, EdgeRef_source, EdgeRef_target, EdgeRef_weight, EdgeRef_edge_data. guarded.
Qed.
#[local] Hint Resolve neighbors_directed_alike edges_directed_alike edge_references_alike EdgeRef_read_alike : guarded.

(** ** Serialisation *)

Lemma ancestor_ids_alike acc id : runs_alike (N:=N) (E:=E) (λ s, ancestor_ids (acc, s) id).
Proof. intros F0 F1 s0 s1 Hs. unfold ancestor_ids. simpl. guarded. Qed.
#[local] Hint Resolve ancestor_ids_alike : guarded.

Lemma serialize_inner_data_alike id R : runs_alike (N:=N) (E:=E) (serialize_inner_data id R).
Proof. intros F0 F1 s0 s1 Hs. unfold serialize_inner_data. guarded. Qed.
#[local] Hint Resolve serialize_inner_data_alike : guarded.
Lemma Registry_to_serialized_alike R : runs_alike (N:=N) (E:=E) (Registry_to_serialized R).
Proof. intros F0 F1 s0 s1 Hs. unfold Registry_to_serialized, sm_map_state. guarded. Qed.
#[local] Hint Resolve Registry_to_serialized_alike : guarded.
Lemma HistoryGraph_to_serialized_alike hg : runs_alike (N:=N) (E:=E) (HistoryGraph_to_serialized hg).
Proof. intros F0 F1 s0 s1 Hs. unfold HistoryGraph_to_serialized. guarded. Qed.

Lemma clone_parent_alike nodes acc (pe : NodeId * E) : runs_alike (N:=N) (λ s, clone_parent nodes (acc, s) pe).
Proof. intros F0 F1 s0 s1 Hs. unfold clone_parent. simpl. guarded. Qed.
#[local] Hint Resolve clone_parent_alike : guarded.

(** The state of the recursion contains the store. *)
Definition deser_alike F0 F1 (ds0 ds1 : deser_state (N:=N) (E:=E)) : Prop :=
  ds_serialised ds0 = ds_serialised ds1 ∧ ds_nodes ds0 = ds_nodes ds1 ∧
  stores F0 F1 (ds_store ds0) (ds_store ds1).

Lemma deserialize_node_alike F0 F1 fuel id ds0 ds1 :
  deser_alike F0 F1 ds0 ds1 →
  outcome (deser_alike F0 F1) (deserialize_node fuel id ds0) (deserialize_node fuel id ds1).
Proof.
  revert id ds0 ds1. induction fuel as [|fuel IH]; intros id [ser nodes s0] [? ? s1] (? & ? & Hs);
    simpl in *; subst; [apply outcome_Err|]. guarded_step.
  eapply outcome_bind with (P := deser_alike F0 F1).
  { apply outcome_foldM; [|done]. intros pe ds0 ds1 Hds. pose proof Hds as (_ & <- & _).
    guarded_step; [by apply outcome_Ok|by apply IH]. }
  intros [ser1 nodes1 t0] [? ? t1] (? & ? & Ht). simpl in *. subst. guarded. by split_and!.
Qed.
Lemma deserialize_loop_alike F0 F1 fuel ds0 ds1 :
  deser_alike F0 F1 ds0 ds1 →
  outcome (deser_alike F0 F1) (deserialize_loop fuel ds0) (deserialize_loop fuel ds1).
Proof.
  revert ds0 ds1. induction fuel as [|fuel IH]; intros ds0 ds1 Hds; pose proof Hds as (Hser & _ & _);
    cbn [deserialize_loop];
    rewrite <-Hser; destruct (sm_iter (ds_serialised ds0)) as [|[id d] l]; try by apply outcome_Ok.
  { apply outcome_Err. }
  eapply outcome_bind; [by apply deserialize_node_alike|]. intros. by apply IH.
Qed.
Lemma deserialize_nodes_alike ser : runs_alike (N:=N) (E:=E) (deserialize_nodes ser).
Proof.
  intros F0 F1 s0 s1 Hs. unfold deserialize_nodes.
  eapply outcome_bind; [apply (deserialize_loop_alike F0 F1); by split_and!|].
  intros [ser1 nodes t0] [? ? t1] (? & ? & Ht). simpl in *. subst. guarded.
Qed.
#[local] Hint Resolve deserialize_nodes_alike : guarded.
Lemma Registry_from_serialized_alike ser : runs_alike (N:=N) (E:=E) (Registry_from_serialized ser).
Proof. intros F0 F1 s0 s1 Hs. unfold Registry_from_serialized. guarded. Qed.
Lemma all_contains_id_alike R ks : runs_alike (N:=N) (E:=E) (all_contains_id R ks).
Proof. induction ks as [|k ks IH]; intros F0 F1 s0 s1 Hs; simpl; guarded. Qed.
#[local] Hint Resolve Registry_from_serialized_alike all_contains_id_alike : guarded.
Lemma reg_alloc_alike R F0 F1 s0 s1 : stores F0 F1 s0 s1 → returns F0 F1 (reg_alloc R s0) (reg_alloc R s1).
Proof. intros Hs. pose proof Hs as (_ & _ & ->). apply returns_pair. by apply stores_set_reg. Qed.
Lemma HistoryGraph_from_serialized_alike ser : runs_alike (N:=N) (E:=E) (HistoryGraph_from_serialized ser).
Proof.
  intros F0 F1 s0 s1 Hs. unfold HistoryGraph_from_serialized. repeat guarded_step.
  match goal with H : stores _ _ ?s ?t |- outcome _ (HistoryGraph_new _ (reg_alloc ?R ?s).1 _) _ =>
    destruct (reg_alloc_alike R _ _ _ _ H) as [Hg Ht] end.
  rewrite Hg. by apply HistoryGraph_new_alike.
Qed.
End guarded_ops.

#[export] Hint Resolve registry_update_alike rc_clone_alike rc_new_weak_alike rc_upgrade_alike reg_clone_alike
  reg_new_weak_alike reg_upgrade_alike put_node_alike put_registry_alike registered_id_alike
  remove_id_alike RelRc_unregister_alike RelRc_drop_alike drop_rc_alike drop_weak_alike drop_reg_rc_alike
  drop_reg_weak_alike drop_step_alike drop_loop_alike drop_all_alike drop_refs_alike drop_relrc_alike
  with_registry_mut_alike with_registry_alike Registry_add_node_alike Registry_get_alike
  Registry_get_id_or_insert_alike Registry_contains_id_alike collect_dead_alike remove_slot_alike
  Registry_free_node_ids_alike Registry_iter_alike Registry_remove_drop_alike Registry_clone_alike
  push_outgoing_alike RelRc_with_parents_alike RelRc_registry_alike replace_register_alike
  RelRc_try_set_register_alike RelRc_try_register_in_alike WeakEdge_upgrade_alike retain_outgoing_alike
  InnerData_all_outgoing_alike InnerData_n_outgoing_alike RelRc_all_ancestors_alike
  HistoryGraph_drop_alike HistoryGraph_get_node_id_alike HistoryGraph_contains_alike
  HistoryGraph_get_edge_alike HistoryGraph_contains_edge_alike HistoryGraph_source_alike
  HistoryGraph_target_alike outgoing_edge_id_alike HistoryGraph_outgoing_edges_alike
  HistoryGraph_incoming_edges_alike HistoryGraph_parents_alike HistoryGraph_children_alike
  HistoryGraph_insert_node_alike insert_ancestors_alike HistoryGraph_insert_ancestors_alike
  HistoryGraph_new_alike HistoryGraph_clone_alike neighbors_directed_alike edges_directed_alike
  edge_references_alike EdgeRef_read_alike ancestor_ids_alike Registry_to_serialized_alike
  HistoryGraph_to_serialized_alike clone_parent_alike deserialize_nodes_alike
  Registry_from_serialized_alike all_contains_id_alike HistoryGraph_from_serialized_alike : guarded.
