(* ===== verification/Messages.v ===== *)
(** * [detached/mpi/msg_types.rs] and [detached/mpi/send_recv.rs]

    The messages that two processes exchange to transfer a node, their
    encoding as tagged MPI buffers, and the communication modes.  The [mpi]
    crate and the module [hash_id], which [msg_types.rs] imports and the
    repository does not contain, are interfaces. *)

From S2P Require Import Prelude.

(** [hash_id::RelRcHash]: a key of ordered maps that converts to and from
    [usize]. *)
Class HashIdSig := {
  RelRcHash : Type;
  RelRcHash_eq_dec :: EqDecision RelRcHash;
  RelRcHash_countable :: Countable RelRcHash;
  RelRcHash_le : relation RelRcHash;
  RelRcHash_le_dec :: RelDecision RelRcHash_le;
  hash_into : RelRcHash → Z;
  hash_from : Z → RelRcHash;
}.

Class HashIdLaws (H : HashIdSig) : Prop := {
  hash_from_into h : hash_from (hash_into h) = h;
}.

(** One direction of a point-to-point connection of the [mpi] crate: the
    messages in flight, each a buffer of type [B] with an integer tag. *)
Class MPISig := {
  connection : Type → Type;
  conn_new : ∀ {B}, connection B;
  send_with_tag : ∀ {B}, B → Z → connection B → connection B;
  buffered_send_with_tag : ∀ {B}, B → Z → connection B → connection B;
  (** the message and the tag of its status; [None] while there is none: the first
      probe then waits, the second returns *)
  matched_probe_with_tag : ∀ {B}, Z → connection B → option ((B * Z) * connection B);
  immediate_matched_probe_with_tag : ∀ {B}, Z → connection B → option ((B * Z) * connection B);
}.

(** Messages with the same tag are received in the order in which they were
    sent, and a message waits until it is received. *)
Definition delivers `{MPISig} (send : ∀ {B}, B → Z → connection B → connection B) : Prop :=
  ∀ B (b : B) tag tag' c,
    immediate_matched_probe_with_tag tag (send b tag' c) =
      match immediate_matched_probe_with_tag tag c with
      | Some (m, c') => Some (m, send b tag' c')
      | None => if decide (tag = tag') then Some ((b, tag), c) else None
      end.

Class MPILaws (M : MPISig) : Prop := {
  (** both probes find the same message *)
  matched_probe_immediate {B} tag (c : connection B) :
    matched_probe_with_tag tag c = immediate_matched_probe_with_tag tag c;
  probe_new {B} tag : immediate_matched_probe_with_tag tag (conn_new (B:=B)) = None;
  send_delivers : delivers (@send_with_tag _);
  buffered_send_delivers : delivers (@buffered_send_with_tag _);
}.

(** [mpi::MPIMode] *)
Inductive MPIMode := Standard | Buffered | Async.

Inductive MPIMessageTag :=
  | TagRelRc
  | TagNodeWeight
  | TagIncomingEdge
  | TagEdgeWeight
  | TagAck.

#[export] Instance MPIMessageTag_eq_dec : EqDecision MPIMessageTag.
Proof. solve_decision. Defined.

(** [tag as i32] *)
Definition tag_as_i32 (t : MPIMessageTag) : Z :=
  match t with
  | TagRelRc => 0
  | TagNodeWeight => 1
  | TagIncomingEdge => 2
  | TagEdgeWeight => 3
  | TagAck => 100
  end.

(** [<MPIMessageTag as TryFrom<i32>>::try_from] *)
Definition tag_try_from (value : Z) : option MPIMessageTag :=
  match value with
  | 0 => Some TagRelRc
  | 1 => Some TagNodeWeight
  | 2 => Some TagIncomingEdge
  | 3 => Some TagEdgeWeight
  | 100 => Some TagAck
  | _ => None
  end%Z.

(** The structs that are sent as a [usize]. *)
Record MPIRelRc := mkMPIRelRc { mr_hash : Z }.
Record MPIIncomingEdge := mkMPIIncomingEdge { mi_source_hash : Z }.
Record MPIAck := mkMPIAck { ma_hash : Z }.

Section messages.
Context {N E : Type} {H : HashIdSig}.

Inductive MPIMessage :=
  | RelRc (hash : RelRcHash)
  | NodeWeight (value : N)
  | IncomingEdge (sources : list RelRcHash)
  | EdgeWeight (value : E)
  | RequestRelRc (hash : RelRcHash)
  | Done.

Definition MPIMessage_tag (msg : MPIMessage) : MPIMessageTag :=
  match msg with
  | RelRc _ => TagRelRc
  | NodeWeight _ => TagNodeWeight
  | IncomingEdge _ => TagIncomingEdge
  | EdgeWeight _ => TagEdgeWeight
  | RequestRelRc _ | Done => TagAck
  end.

Definition MPIMessage_from_relrc (val : MPIRelRc) : MPIMessage := RelRc (hash_from (mr_hash val)).
Definition MPIMessage_from_edges (val : list MPIIncomingEdge) : MPIMessage :=
  IncomingEdge ((λ e, hash_from (mi_source_hash e)) <$> val).
Definition MPIMessage_from_ack (val : MPIAck) : MPIMessage :=
  if decide (ma_hash val = 0%Z) then Done else RequestRelRc (hash_from (ma_hash val)).

(** [<RelRcHash as From<MPIRelRc>>::from] *)
Definition RelRcHash_from_relrc (msg : MPIRelRc) : RelRcHash := hash_from (mr_hash msg).

(** What travels: a value of one of the types with an MPI datatype. *)
Inductive buffer :=
  | BufRelRc (b : MPIRelRc)
  | BufNode (b : N)
  | BufEdges (b : list MPIIncomingEdge)
  | BufEdge (b : E)
  | BufAck (b : MPIAck).

(** [generate_send_match!]: the buffer that is handed to the send function. *)
Definition message_buffer (msg : MPIMessage) : buffer :=
  match msg with
  | RelRc hash => BufRelRc (mkMPIRelRc (hash_into hash))
  | NodeWeight node_weight => BufNode node_weight
  | IncomingEdge incoming_edges =>
      BufEdges ((λ h, mkMPIIncomingEdge (hash_into h)) <$> incoming_edges)
  | EdgeWeight edge_weight => BufEdge edge_weight
  | RequestRelRc hash => BufAck (mkMPIAck (hash_into hash))
  | Done => BufAck (mkMPIAck 0)
  end.

(** [matched_receive] with a type other than the one that was sent has no
    defined outcome. *)
Definition extract_message (msg : buffer) (status_tag : Z) : result MPIMessage :=
  tag ← expect "invalid message tag" (tag_try_from status_tag);
  match tag, msg with
  | TagRelRc, BufRelRc b => Ok (MPIMessage_from_relrc b)
  | TagNodeWeight, BufNode b => Ok (NodeWeight b)
  | TagIncomingEdge, BufEdges contents => Ok (MPIMessage_from_edges contents)
  | TagEdgeWeight, BufEdge b => Ok (EdgeWeight b)
  | TagAck, BufAck b => Ok (MPIMessage_from_ack b)
  | _, _ => Err Dangling
  end.

(** [std::task::Poll]. *)
Inductive poll (B : Type) :=
  | Ready (b : B)
  | Pending.
Arguments Ready {B} b.
Arguments Pending {B}.

Context {M : MPISig}.
Implicit Types (c : connection buffer).

(** [ReceiveMessageFuture]: a future that probes.  The waker is called when there
    is nothing yet; [true] says that it was. *)
Record ReceiveMessageFuture := mkReceiveMessageFuture {
  rmf_tag : MPIMessageTag;
}.
Definition ReceiveMessageFuture_poll (self : ReceiveMessageFuture) c :
    poll (result MPIMessage) * bool * connection buffer :=
  match immediate_matched_probe_with_tag (tag_as_i32 (rmf_tag self)) c with
  | Some ((msg, status_tag), c') => (Ready (extract_message msg status_tag), false, c')
  | None => (Pending, true, c)
  end.

(** ** The trait [MPISendRecv]

    [receive] is [None] while it waits; what it returns is a future that is polled. *)
Class MPISendRecv (T : Type) := {
  ReceiveOut : Type;
  sr_poll : ReceiveOut → connection buffer → poll (result MPIMessage) * bool * connection buffer;
  sr_send : T → MPIMessage → connection buffer → connection buffer;
  sr_receive : T → MPIMessageTag → connection buffer → option (ReceiveOut * connection buffer);
}.

(** The three implementations.  The process that each of them wraps is the
    connection that the methods take. *)
Inductive MPIStandardSendRecv := mkMPIStandardSendRecv.
Inductive MPIBufferedSendRecv := mkMPIBufferedSendRecv.
Inductive MPIAsyncSendRecv := mkMPIAsyncSendRecv.

(** [future::ready(extract_message(msg, status))] after the blocking probe. *)
Definition receive_ready (tag : MPIMessageTag) c : option (result MPIMessage * connection buffer) :=
  match matched_probe_with_tag (tag_as_i32 tag) c with
  | Some ((msg, status_tag), c') => Some (extract_message msg status_tag, c')
  | None => None
  end.

#[export] Instance standard_send_recv : MPISendRecv MPIStandardSendRecv := {|
  ReceiveOut := result MPIMessage;
  sr_poll r c := (Ready r, false, c);
  sr_send _ msg c := send_with_tag (message_buffer msg) (tag_as_i32 (MPIMessage_tag msg)) c;
  sr_receive _ := receive_ready;
|}.
#[export] Instance buffered_send_recv : MPISendRecv MPIBufferedSendRecv := {|
  ReceiveOut := result MPIMessage;
  sr_poll r c := (Ready r, false, c);
  sr_send _ msg c := buffered_send_with_tag (message_buffer msg) (tag_as_i32 (MPIMessage_tag msg)) c;
  sr_receive _ := receive_ready;
|}.
#[export] Instance async_send_recv : MPISendRecv MPIAsyncSendRecv := {|
  ReceiveOut := ReceiveMessageFuture;
  sr_poll := ReceiveMessageFuture_poll;
  sr_send _ msg c := send_with_tag (message_buffer msg) (tag_as_i32 (MPIMessage_tag msg)) c;
  sr_receive _ tag c := Some (mkReceiveMessageFuture tag, c);
|}.

(** [receive(tag).await]: [None] while there is nothing to receive. *)
Definition receive_await {T} `{MPISendRecv T} (self : T) (tag : MPIMessageTag) c :
    option (result MPIMessage * connection buffer) :=
  match sr_receive self tag c with
  | None => None
  | Some (fut, c1) =>
      match sr_poll fut c1 with
      | (Ready r, _, c2) => Some (r, c2)
      | (Pending, _, _) => None
      end
  end.

(** The implementation that a mode stands for. *)
Definition mpi_send_message (mode : MPIMode) (msg : MPIMessage) c : connection buffer :=
  match mode with
  | Standard => sr_send mkMPIStandardSendRecv msg c
  | Buffered => sr_send mkMPIBufferedSendRecv msg c
  | Async => sr_send mkMPIAsyncSendRecv msg c
  end.
Definition mpi_receive_message (mode : MPIMode) (tag : MPIMessageTag) c :
    option (result MPIMessage * connection buffer) :=
  match mode with
  | Standard => receive_await mkMPIStandardSendRecv tag c
  | Buffered => receive_await mkMPIBufferedSendRecv tag c
  | Async => receive_await mkMPIAsyncSendRecv tag c
  end.

(** In every mode the message is the one that a probe finds. *)
Lemma receive_probe {MLaws : MPILaws M} mode tag c :
  mpi_receive_message mode tag c =
    match immediate_matched_probe_with_tag (tag_as_i32 tag) c with
    | Some ((msg, status_tag), c') => Some (extract_message msg status_tag, c')
    | None => None
    end.
Proof.
  destruct mode; simpl; unfold receive_await; simpl; unfold receive_ready, ReceiveMessageFuture_poll; simpl;
    rewrite ?matched_probe_immediate; by destruct (immediate_matched_probe_with_tag _ c) as [[[b t] c']|].
Qed.

(** ** Facts *)

Lemma tag_try_from_as t : tag_try_from (tag_as_i32 t) = Some t.
Proof. by destruct t. Qed.

#[export] Instance tag_as_i32_inj : Inj (=) (=) tag_as_i32.
Proof. intros [] []; done. Qed.

(** A request whose hash is not 0 is not taken for [Done]. *)
Definition sendable (msg : MPIMessage) : Prop :=
  match msg with RequestRelRc h => hash_into h ≠ 0%Z | _ => True end.

Context {HLaws : HashIdLaws H}.

Lemma extract_message_buffer msg :
  sendable msg →
  extract_message (message_buffer msg) (tag_as_i32 (MPIMessage_tag msg)) = Ok msg.
Proof.
  intros Hs. unfold extract_message. rewrite tag_try_from_as.
  destruct msg as [h|n|l|e|h|]; simpl; try done.
  - unfold MPIMessage_from_relrc; simpl. by rewrite hash_from_into.
  - unfold MPIMessage_from_edges. do 2 f_equal. rewrite <-list_fmap_compose.
    rewrite <-(list_fmap_id l) at 2. apply list_fmap_ext. intros i h _. apply hash_from_into.
  - unfold MPIMessage_from_ack; simpl. by rewrite decide_False, hash_from_into.
Qed.
End messages.

Arguments MPIMessage N E {H}.
Arguments buffer N E : clear implicits.

Section connection.
Context {N E : Type} {H : HashIdSig} {HLaws : HashIdLaws H} {M : MPISig} {MLaws : MPILaws M}.
Implicit Types (c : connection (buffer N E)) (msg : MPIMessage N E).

Lemma mode_delivers mode c msg tag :
  immediate_matched_probe_with_tag tag (mpi_send_message mode msg c) =
    match immediate_matched_probe_with_tag tag c with
    | Some (m, c') => Some (m, mpi_send_message mode msg c')
    | None => if decide (tag = tag_as_i32 (MPIMessage_tag msg))
              then Some ((message_buffer msg, tag), c) else None
    end.
Proof. destruct mode; simpl; apply send_delivers || apply buffered_send_delivers. Qed.

(** A message in flight is received although more are sent. *)
Lemma receive_after_send mode mode' c c' msg tag m :
  mpi_receive_message mode' tag c = Some (m, c') →
  mpi_receive_message mode' tag (mpi_send_message mode msg c) = Some (m, mpi_send_message mode msg c').
Proof.
  rewrite !receive_probe, mode_delivers.
  destruct (immediate_matched_probe_with_tag _ c) as [[[b t] c1]|]; [|done].
  by intros [= <- <-].
Qed.

Definition send_messages mode (l : list (MPIMessage N E)) c : connection (buffer N E) :=
  foldl (λ c msg, mpi_send_message mode msg c) c l.

(** The first message in flight is received first. *)
Lemma receive_first mode mode' msg l :
  sendable msg →
  mpi_receive_message mode' (MPIMessage_tag msg) (send_messages mode (msg :: l) conn_new) =
    Some (Ok msg, send_messages mode l conn_new).
Proof.
  intros Hs. simpl.
  assert (mpi_receive_message mode' (MPIMessage_tag msg) (mpi_send_message mode msg conn_new) =
          Some (Ok msg, conn_new)) as Hr.
  { rewrite receive_probe, mode_delivers, probe_new, decide_True by done.
    by rewrite extract_message_buffer. }
  revert Hr. generalize (mpi_send_message mode msg conn_new) as c.
  generalize (conn_new (B:=buffer N E)) as c'. induction l as [|x l IH]; intros c' c Hr; [done|].
  simpl. apply IH. by apply receive_after_send.
Qed.
End connection.
