(* ===== verification/Detached.v ===== *)
(** * [detached.rs]: nodes cut off from the store

    A [Detached] value describes a node and those of its ancestors that the
    place it is sent to does not have, each named by its hash.  [BTreeMap]s are
    finite maps that are iterated in the order of their keys; [hash_id] is a
    method of the module [hash_id], which the repository does not contain. *)

From S2P Require Import Prelude Slotmap Store StoreFacts Rc Registry Drop DropFacts Edge Node Messages.

(** [DetachedInnerData] *)
Record DetachedInnerData {H : HashIdSig} (N E : Type) := mkDetachedInnerData {
  dd_value : N;
  dd_incoming : list (RelRcHash * E);
}.
Arguments mkDetachedInnerData {H N E} _ _.
Arguments dd_value {H N E} _.
Arguments dd_incoming {H N E} _.

(** [Detached] *)
Record Detached {H : HashIdSig} (N E : Type) := mkDetached {
  dt_current : RelRcHash;
  dt_all_data : gmap RelRcHash (DetachedInnerData N E);
}.
Arguments mkDetached {H N E} _ _.
Arguments dt_current {H N E} _.
Arguments dt_all_data {H N E} _.

(** The entries of a [BTreeMap] in ascending order of the keys. *)
Definition key_le `{HashIdSig} {B} (x y : RelRcHash * B) : Prop := RelRcHash_le x.1 y.1.
#[export] Instance key_le_dec `{HashIdSig} {B} : RelDecision (key_le (B:=B)).
Proof. intros x y. unfold key_le. apply _. Defined.
Definition btree_iter `{HashIdSig} {B} (m : gmap RelRcHash B) : list (RelRcHash * B) :=
  merge_sort key_le (map_to_list m).
Definition btree_contains_key `{HashIdSig} {B} (h : RelRcHash) (m : gmap RelRcHash B) : bool :=
  match m !! h with Some _ => true | None => false end.

(** [Itertools::unique]: first occurrences, in order. *)
Fixpoint unique_from {B} `{EqDecision B, Countable B} (seen : gset B) (l : list B) : list B :=
  match l with
  | [] => []
  | x :: l => if decide (x ∈ seen) then unique_from seen l else x :: unique_from ({[x]} ∪ seen) l
  end.
Definition unique {B} `{EqDecision B, Countable B} (l : list B) : list B := unique_from ∅ l.

Section data.
Context {N E : Type} {H : HashIdSig}.
Implicit Types (dt : Detached N E) (data : DetachedInnerData N E) (h : RelRcHash).

Definition DetachedInnerData_parents data : list RelRcHash := (dd_incoming data).*1.

Definition Detached_empty h : Detached N E := mkDetached h ∅.
Definition Detached_n_ancestors dt : nat := size (dt_all_data dt).

Definition Detached_required_hashes dt : list RelRcHash :=
  unique (filter (λ h, btree_contains_key h (dt_all_data dt) = false)
    ((btree_iter (dt_all_data dt)).*2 ≫= DetachedInnerData_parents)).

Definition Detached_attaches_to {B} dt (attach_to : gmap RelRcHash B) : bool :=
  forallb (λ h, btree_contains_key h attach_to) (Detached_required_hashes dt).
End data.

(** ** [post_order_for_each]

    The visitor [f] may change a state and fail; the stack is a list with its
    top first. *)
Inductive DfsEvent (V : Type) :=
  | DfsEnter (v : V)
  | DfsExit (v : V).
Arguments DfsEnter {V} v.
Arguments DfsExit {V} v.

Section post_order.
Context {V St : Type} `{EqDecision V, Countable V}.
Context (f : V → St → result St) (successors : V → result (list V)) (visit : V → bool).

(** [for u in successors(v) { if visit(u) && visited.insert(u) { stack.push(..) } }] *)
Definition push_successor (acc : gset V * list (DfsEvent V)) (u : V) :
    gset V * list (DfsEvent V) :=
  if visit u then
    if decide (u ∈ acc.1) then acc else ({[u]} ∪ acc.1, DfsEnter u :: acc.2)
  else acc.

Fixpoint post_order_loop (fuel : nat) (visited : gset V) (stack : list (DfsEvent V)) (s : St) :
    result St :=
  match stack with
  | [] => Ok s
  | event :: stack' =>
      match fuel with
      | 0 => Err OutOfFuel
      | Datatypes.S fuel' =>
          match event with
          | DfsEnter v =>
              us ← successors v;
              let acc := foldl push_successor (visited, DfsExit v :: stack') us in
              post_order_loop fuel' acc.1 acc.2 s
          | DfsExit v =>
              s' ← f v s;
              post_order_loop fuel' visited stack' s'
          end
      end
  end.

Definition post_order_for_each (fuel : nat) (start : V) (s : St) : result St :=
  post_order_loop fuel ∅ [DfsEnter start] s.
End post_order.

(** ** Detaching a node *)

Section detach.
Context {N E : Type} {S : SlotMapSig} {H : HashIdSig}.
Context (hash_id : store N E → addr → RelRcHash).
Implicit Types (st : store N E) (p q : addr) (h : RelRcHash).

(** The hash of a node is computed from the values and edges of the node and
    its ancestors: reference counts do not enter. *)
Definition ignores_counts : Prop :=
  ∀ st st' p, same_views st st' → hash_id st' p = hash_id st p.

(** The edges that leave the live nodes of [m]. *)
Definition edges_of (m : gmap addr (rcbox (InnerData N E))) : list (InnerEdgeData E) :=
  map_refs (λ _ b, from_option nd_incoming [] (rc_val b)) m.

(** The stack is a list with its top first; it owns its nodes.  A node that is
    not moved into [all_nodes] is dropped at the end of the iteration. *)
Fixpoint ancestors_upto_loop (fuel : nat) (detach_from : gset RelRcHash)
    (all_nodes : gmap RelRcHash addr) (stack : list addr) st :
    result (gmap RelRcHash addr * store N E) :=
  match stack with
  | [] => Ok (all_nodes, st)
  | p :: stack' =>
      match fuel with
      | 0 => Err OutOfFuel
      | Datatypes.S fuel' =>
          let node_id := hash_id st p in
          if decide (all_nodes !! node_id = None ∧ node_id ∉ detach_from) then
            d ← deref (node st p);
            st1 ← foldM (λ s q, RelRc_clone q s) st (InnerData_all_parents d);
            ancestors_upto_loop fuel' detach_from (<[node_id := p]> all_nodes)
              (reverse (InnerData_all_parents d) ++ stack') st1
          else
            st1 ← drop_relrc p st;
            ancestors_upto_loop fuel' detach_from all_nodes stack' st1
      end
  end.

(** Every edge is pushed at most once, so the number of edges and one more is
    enough fuel. *)
Definition ancestors_upto p (detach_from : gset RelRcHash) st :
    result (gmap RelRcHash addr * store N E) :=
  st1 ← RelRc_clone p st;
  ancestors_upto_loop (Datatypes.S (length (edges_of (st_nodes st)))) detach_from ∅ [p] st1.

(** [<DetachedInnerData as From<&InnerData>>::from] *)
Definition DetachedInnerData_from st (value : InnerData N E) : DetachedInnerData N E :=
  mkDetachedInnerData (InnerData_value value)
    ((λ e, (hash_id st (InnerEdgeData_source e), InnerEdgeData_value e)) <$>
      InnerData_all_incoming value).

(** The edges are moved in and dropped one by one. *)
Definition DetachedInnerData_new (value : N) (incoming : list (InnerEdgeData E)) st :
    result (DetachedInnerData N E * store N E) :=
  r ← foldM (λ acc e,
      let h := hash_id acc.2 (ie_source e) in
      st' ← drop_refs (edge_refs e) acc.2;
      Ok (acc.1 ++ [(h, ie_value e)], st')) ([], st) incoming;
  Ok (mkDetachedInnerData value r.1, r.2).

(** The closure of [Detached::new]: [n] is dropped when it returns. *)
Definition detach_node (acc : gmap RelRcHash (DetachedInnerData N E) * store N E)
    (id_n : RelRcHash * addr) : result (gmap RelRcHash (DetachedInnerData N E) * store N E) :=
  d ← deref (node acc.2 id_n.2);
  st1 ← foldM InnerEdgeData_clone acc.2 (InnerData_all_incoming d);
  data ← DetachedInnerData_new (InnerData_value d) (InnerData_all_incoming d) st1;
  st2 ← drop_relrc id_n.2 data.2;
  Ok (<[id_n.1 := data.1]> acc.1, st2).

Definition Detached_new p (detach_from : gset RelRcHash) st :
    result (Detached N E * store N E) :=
  let current := hash_id st p in
  all_relrc ← ancestors_upto p detach_from st;
  all_data ← foldM detach_node (∅, all_relrc.2) (btree_iter all_relrc.1);
  Ok (mkDetached current all_data.1, all_data.2).

Definition RelRc_detach p (detach_from : gset RelRcHash) st := Detached_new p detach_from st.
End detach.
