(* ===== verification/DetachedFacts.v ===== *)
(** * Detaching a node

    It leaves the store as it was and describes what is reached along parents without
    passing the hashes that are given. *)

From S2P Require Import Prelude Slotmap Store StoreFacts Rc Registry Drop DropFacts Edge Node NodeFacts Ancestors Messages Detached.

Section temporaries.
Context {N E : Type} {S : SlotMapSig} {SLaws : SlotMapLaws S}.
Implicit Types (st : store N E) (p q : addr) (ow : list ref).

(** References that can be given up because they are not the only ones. *)
Definition extra st (r : ref) : Prop :=
  match r with
  | NodeStrong p => is_Some (node st p)
  | NodeWeak _ | RegWeak _ => True
  | RegStrong _ => False
  end.

Lemma held_mono st ow ow' p : ow ⊆ ow' → held_by st ow p → held_by st ow' p.
Proof. intros Hs (o & Ho & ?). exists o. split; [by apply Hs|done]. Qed.

(** What was alive before temporaries were made survives their drop. *)
Lemma drop_extra st0 st ow l l' :
  wf st0 ow → same_views st0 st → wf st (l ++ l' ++ ow) → (∀ r, r ∈ l → extra st0 r) →
  ∃ st', drop_refs l st = Ok st' ∧ wf st' (l' ++ ow) ∧ same_views st0 st'.
Proof.
  intros Hw0 Hv Hw Hl. destruct (drop_refs_quiet st l (l' ++ ow) Hw) as (st' & ? & ? & ?).
  { intros r Hr. specialize (Hl r Hr). destruct r as [p| | |]; simpl in *; try done.
    destruct Hl as [d Hd]. eapply held_same_views; [done|].
    eapply held_mono, live_held; [|done..]. intros x. rewrite elem_of_app. by right. }
  exists st'. split_and!; [done..|]. by etrans.
Qed.

End temporaries.

Section ancestors_upto.
Context {N E : Type} {S : SlotMapSig} {SLaws : SlotMapLaws S} {H : HashIdSig}.
Context (hash_id : store N E → addr → RelRcHash).
Hypothesis hash_id_views : ignores_counts hash_id.
Implicit Types (st : store N E) (p q : addr) (h : RelRcHash) (ow : list ref).

(** ** The walk *)

(** [q] is reached from [p] by going from objects that are not in [from] to their
    parents. *)
Definition reached_upto st (from : gset RelRcHash) q p : Prop :=
  rtc (λ x y, parent_of st x y ∧ hash_id st y ∉ from) q p.

Lemma reached_ancestor st from q p : reached_upto st from q p → ancestor_of st q p.
Proof. apply rtc_subrel. by intros x y [? _]. Qed.

(** [q] has been taken, need not be, or waits. *)
Definition covered st0 (from : gset RelRcHash) (nodes : gmap RelRcHash addr) (stack : list addr) q :=
  is_Some (nodes !! hash_id st0 q) ∨ hash_id st0 q ∈ from ∨ q ∈ stack.

Record upto_inv st0 p0 from (nodes : gmap RelRcHash addr) (stack : list addr) : Prop := {
  up_stack q : q ∈ stack → reached_upto st0 from q p0;
  up_nodes h q : nodes !! h = Some q →
    hash_id st0 q = h ∧ reached_upto st0 from q p0 ∧ h ∉ from;
  up_parents h q r : nodes !! h = Some q → parent_of st0 r q → covered st0 from nodes stack r;
  up_start : covered st0 from nodes stack p0;
}.

Lemma covered_skip st0 from nodes p stack q :
  ¬ (nodes !! hash_id st0 p = None ∧ hash_id st0 p ∉ from) →
  covered st0 from nodes (p :: stack) q → covered st0 from nodes stack q.
Proof.
  intros Hp [?|[?|[->|?]%elem_of_cons]]; unfold covered; auto.
  destruct (nodes !! hash_id st0 p) as [x|]; [by left; eauto|].
  destruct (decide (hash_id st0 p ∈ from)); [auto|]. by destruct Hp.
Qed.

Lemma covered_take st0 from nodes p stack new q :
  covered st0 from nodes (p :: stack) q →
  covered st0 from (<[hash_id st0 p := p]> nodes) (new ++ stack) q.
Proof.
  unfold covered. rewrite elem_of_app, elem_of_cons.
  intros [Hq|[?|[->|?]]]; [left|auto|left|auto].
  - by apply lookup_insert_is_Some'; right.
  - rewrite lookup_insert_eq. eauto.
Qed.

Lemma upto_skip st0 p0 from nodes p stack :
  upto_inv st0 p0 from nodes (p :: stack) →
  ¬ (nodes !! hash_id st0 p = None ∧ hash_id st0 p ∉ from) →
  upto_inv st0 p0 from nodes stack.
Proof.
  intros [Hs Hn Hp H0] Hc. split.
  - intros q Hq. apply Hs. by right.
  - done.
  - intros h q r Hq Hr. eapply covered_skip; [done|]. by eapply Hp.
  - by eapply covered_skip.
Qed.

Lemma upto_take st0 p0 from nodes p d stack :
  upto_inv st0 p0 from nodes (p :: stack) → node st0 p = Some d →
  nodes !! hash_id st0 p = None → hash_id st0 p ∉ from →
  upto_inv st0 p0 from (<[hash_id st0 p := p]> nodes)
    (reverse (InnerData_all_parents d) ++ stack).
Proof.
  intros [Hs Hn Hp H0] Hd Hnone Hfrom. pose proof (Hs p ltac:(left)) as Hpa. split.
  - intros q [Hq|Hq]%elem_of_app; [|apply Hs; by right].
    rewrite elem_of_reverse, (elem_of_all_parents st0 p d q Hd) in Hq. by eapply rtc_l.
  - intros h q [[<- <-]|[? ?]]%lookup_insert_Some; [done|by apply Hn].
  - intros h q r [[<- <-]|[? ?]]%lookup_insert_Some Hr.
    + right; right. rewrite elem_of_app, elem_of_reverse, (elem_of_all_parents st0 p d r Hd). by left.
    + eapply covered_take, Hp; done.
  - by apply covered_take.
Qed.

(** The edges of nodes that have not been taken bound what is still to come. *)
Lemma edges_of_delete (m : gmap addr (rcbox (InnerData N E))) p b :
  m !! p = Some b →
  length (edges_of (delete p m)) + length (from_option nd_incoming [] (rc_val b)) =
    length (edges_of m).
Proof.
  intros Hp. pose proof (sum_map_refs_delete
    (λ _ b, from_option nd_incoming [] (rc_val b)) (λ _ : InnerEdgeData E, 1) m p b Hp) as Hs.
  assert (∀ l : list (InnerEdgeData E), sum_list_with (λ _, 1) l = length l) as Hlen.
  { induction l; simpl; auto. }
  unfold edges_of. rewrite !Hlen in Hs. done.
Qed.

Definition node_owners (nodes : gmap RelRcHash addr) : list ref :=
  NodeStrong <$> (map_to_list nodes).*2.

Lemma ancestors_upto_spec st0 p0 d0 from fuel nodes stack st ow m :
  wf st0 ow → same_views st0 st → node st0 p0 = Some d0 →
  wf st ((NodeStrong <$> stack) ++ node_owners nodes ++ ow) →
  upto_inv st0 p0 from nodes stack →
  (∀ q, nodes !! hash_id st0 q = None → m !! q = st_nodes st0 !! q) →
  length stack + length (edges_of m) ≤ fuel →
  ∃ nodes' st', ancestors_upto_loop hash_id fuel from nodes stack st = Ok (nodes', st') ∧
    upto_inv st0 p0 from nodes' [] ∧ same_views st0 st' ∧ wf st' (node_owners nodes' ++ ow).
Proof.
  intros Hw0 Hv Hd0. revert nodes stack st m Hv.
  induction fuel as [|fuel IH]; intros nodes [|p stack] st m Hv Hw Hinv Hm Hf;
    [by exists nodes, st|simpl in Hf; lia|by exists nodes, st|].
  destruct (ancestor_live _ _ _ _ _ Hw0 Hd0 (reached_ancestor _ _ _ _ (up_stack _ _ _ _ _ Hinv p ltac:(left)))) as [d Hd].
  cbn [ancestors_upto_loop]. rewrite (hash_id_views st0 st p Hv).
  case_decide as Hc.
  - destruct Hc as [Hnone Hfrom]. rewrite (proj1 Hv), Hd. cbn [deref rbind].
    csimpl in Hw.
    destruct (clone_nodes st0 st _ (InnerData_all_parents d) Hv Hw) as (st1 & -> & Hw1 & Hv1).
    { intros q Hq. apply (elem_of_all_parents st0 p d q Hd) in Hq.
      eapply ancestor_live; [done..|]. by apply rtc_once. }
    cbn [rbind].
    pose proof Hd as Hd'. apply node_Some in Hd' as (b & Hb & Hbd).
    rewrite <-(Hm p Hnone) in Hb.
    eapply (IH _ _ st1 (delete p m)); [done| |by apply upto_take| |].
    + unfold node_owners in *. rewrite map_to_list_insert by done. csimpl.
      rewrite fmap_app, reverse_Permutation, <-(assoc_L (++)). cbn [app].
      rewrite <-!Permutation_middle. rewrite <-Permutation_middle in Hw1. exact Hw1.
    + intros q [Hq1 Hq2]%lookup_insert_None. rewrite lookup_delete_ne by congruence. by apply Hm.
    + pose proof (edges_of_delete m p b Hb) as He. rewrite Hbd in He. simpl in He, Hf.
      unfold InnerData_all_parents, InnerData_all_incoming.
      rewrite length_app, length_reverse, length_fmap. lia.
  - destruct (drop_extra st0 st ow [NodeStrong p] ((NodeStrong <$> stack) ++ node_owners nodes))
      as (st1 & Hdrop & Hw1 & Hv1); [done|done|by rewrite <-!(assoc_L (++))|..].
    { intros r ->%list_elem_of_singleton. simpl. eauto. }
    change (drop_relrc p st) with (drop_refs [NodeStrong p] st). rewrite Hdrop. cbn [rbind].
    rewrite <-(assoc_L (++)) in Hw1.
    eapply IH; [done..|by eapply upto_skip|done|simpl in Hf; lia].
Qed.

(** ** The description *)

Lemma DetachedInnerData_new_spec st0 ow value (l : list (InnerEdgeData E)) st ext :
  wf st0 ow → same_views st0 st → wf st ((l ≫= edge_refs) ++ ext ++ ow) →
  (∀ e, e ∈ l → is_Some (node st0 (ie_source e))) →
  ∃ st', DetachedInnerData_new hash_id value l st =
      Ok (mkDetachedInnerData value ((λ e, (hash_id st0 (ie_source e), ie_value e)) <$> l), st') ∧
    wf st' (ext ++ ow) ∧ same_views st0 st'.
Proof.
  intros Hw0 Hv Hw Hl. unfold DetachedInnerData_new.
  set (step := λ acc e, _). set (out := λ e : InnerEdgeData E, (hash_id st0 (ie_source e), ie_value e)).
  assert (∀ acc, ∃ st', foldM step (acc, st) l = Ok (acc ++ (out <$> l), st') ∧
    wf st' (ext ++ ow) ∧ same_views st0 st') as Hloop.
  { revert st Hv Hw Hl. induction l as [|e l IH]; intros st Hv Hw Hl acc.
    { exists st. csimpl. by rewrite app_nil_r. }
    cbn [foldM]. unfold step at 1. cbn [fst snd].
    assert (wf st (edge_refs e ++ ((l ≫= edge_refs) ++ ext) ++ ow)) as Hw'.
    { by rewrite <-(assoc_L (++)). }
    destruct (drop_extra st0 st ow _ _ Hw0 Hv Hw') as (st1 & -> & Hw1 & Hv1).
    { intros r [-> | ->%list_elem_of_singleton]%elem_of_cons; simpl; [|done]. apply Hl. left. }
    cbn [rbind]. rewrite (hash_id_views st0 st _ Hv).
    change (hash_id st0 (ie_source e), ie_value e) with (out e).
    rewrite <-(assoc_L (++)) in Hw1.
    destruct (IH st1 Hv1 Hw1 ltac:(intros x ?; apply Hl; by right) (acc ++ [out e])) as (st2 & -> & ? & ?).
    exists st2. csimpl. by rewrite <-(assoc_L (++)). }
  destruct (Hloop []) as (st' & -> & ? & ?). exists st'. done.
Qed.

Lemma detach_node_spec st0 ow all st h q d ext :
  wf st0 ow → same_views st0 st → wf st (NodeStrong q :: ext ++ ow) → node st0 q = Some d →
  ∃ st', detach_node hash_id (all, st) (h, q) =
      Ok (<[h := DetachedInnerData_from hash_id st0 d]> all, st') ∧
    wf st' (ext ++ ow) ∧ same_views st0 st'.
Proof.
  intros Hw0 Hv Hw Hd. unfold detach_node. cbn [fst snd]. rewrite (proj1 Hv), Hd. cbn [deref rbind].
  assert (∀ e, e ∈ nd_incoming d →
    is_Some (node st0 (ie_source e)) ∧ is_Some (node st0 (ie_target e))) as Hlive.
  { intros e He. destruct (source_live _ _ _ _ _ Hw0 Hd He). split; [eauto|].
    rewrite (wf_target _ (wf_st_graph _ _ Hw0) q d e Hd He). eauto. }
  destruct (clone_edges st0 st _ (InnerData_all_incoming d) Hv Hw Hlive) as (st1 & -> & Hw1 & Hv1).
  cbn [rbind].
  destruct (DetachedInnerData_new_spec st0 ow (InnerData_value d) (InnerData_all_incoming d) st1
    (NodeStrong q :: ext) Hw0 Hv1 Hw1) as (st2 & -> & Hw2 & Hv2).
  { intros e He. by apply Hlive. }
  cbn [rbind fst snd].
  destruct (drop_extra st0 st2 ow [NodeStrong q] ext Hw0 Hv2 Hw2) as (st3 & Hdrop & Hw3 & Hv3).
  { intros r ->%list_elem_of_singleton. simpl. eauto. }
  change (drop_relrc q st2) with (drop_refs [NodeStrong q] st2). rewrite Hdrop. cbn [rbind]. eauto.
Qed.

Lemma btree_iter_perm {B} (m : gmap RelRcHash B) : btree_iter m ≡ₚ map_to_list m.
Proof. apply merge_sort_Permutation. Qed.

Lemma elem_of_btree_iter {B} (m : gmap RelRcHash B) h b : (h, b) ∈ btree_iter m ↔ m !! h = Some b.
Proof. by rewrite btree_iter_perm, elem_of_map_to_list. Qed.

Lemma btree_iter_NoDup {B} (m : gmap RelRcHash B) : NoDup (btree_iter m).*1.
Proof. rewrite btree_iter_perm. apply NoDup_fst_map_to_list. Qed.

Lemma detach_nodes_spec st0 ow l all st :
  wf st0 ow → same_views st0 st → wf st ((NodeStrong <$> l.*2) ++ ow) →
  NoDup l.*1 → (∀ h q, (h, q) ∈ l → is_Some (node st0 q)) →
  ∃ all' st', foldM (detach_node hash_id) (all, st) l = Ok (all', st') ∧
    wf st' ow ∧ same_views st0 st' ∧
    ∀ h data, all' !! h = Some data ↔
      (∃ q d, (h, q) ∈ l ∧ node st0 q = Some d ∧ data = DetachedInnerData_from hash_id st0 d) ∨
      (h ∉ l.*1 ∧ all !! h = Some data).
Proof.
  intros Hw0. revert all st. induction l as [|[h q] l IH]; intros all st Hv Hw Hnd Hl.
  { exists all, st. split_and!; [done..|]. intros h data. split.
    - intros ?. right. split; [|done]. by intros ?%elem_of_nil.
    - intros [(? & ? & ?%elem_of_nil & _)|[_ ?]]; done. }
  csimpl in Hw. csimpl in Hnd. apply NoDup_cons in Hnd as [Hh Hnd]. cbn [foldM].
  destruct (Hl h q) as [d Hd]; [left|].
  destruct (detach_node_spec st0 ow all st h q d _ Hw0 Hv Hw Hd) as (st1 & -> & Hw1 & Hv1).
  cbn [rbind].
  destruct (IH (<[h := DetachedInnerData_from hash_id st0 d]> all) st1 Hv1 Hw1 Hnd)
    as (all' & st' & -> & Hw' & Hv' & Hall).
  { intros k x ?. apply (Hl k). by right. }
  exists all', st'. split_and!; [done..|]. intros k data. rewrite Hall, lookup_insert_Some.
  csimpl. setoid_rewrite elem_of_cons. split.
  - intros [(x & dx & ? & ?)|[Hk [[<- <-]|[? ?]]]]; [left; exists x, dx; auto|left; exists q, d; auto|].
    right. naive_solver.
  - intros [(x & dx & [[= -> ->]|?] & ? & ->)|[Hk ?]].
    + right. split; [done|]. left. naive_solver.
    + left. eauto.
    + right. naive_solver.
Qed.

(** What a [Detached] value made in [st] says of the ancestors of [p]: only those are
    described that are reached without passing an object of [from], and with an
    object its parents, those in [from] excepted. *)
Record detaches st p (from : gset RelRcHash) (dt : Detached N E) : Prop := {
  dts_current : dt_current dt = hash_id st p;
  dts_data h data : dt_all_data dt !! h = Some data →
    h ∉ from ∧ ∃ q d, reached_upto st from q p ∧ hash_id st q = h ∧ node st q = Some d ∧
      data = DetachedInnerData_from hash_id st d;
  dts_start : is_Some (dt_all_data dt !! dt_current dt) ∨ dt_current dt ∈ from;
  dts_closed h data h' : dt_all_data dt !! h = Some data → h' ∈ DetachedInnerData_parents data →
    is_Some (dt_all_data dt !! h') ∨ h' ∈ from;
}.

Lemma elem_of_from_parents st q d h :
  node st q = Some d →
  h ∈ DetachedInnerData_parents (DetachedInnerData_from hash_id st d) ↔
  ∃ r, parent_of st r q ∧ hash_id st r = h.
Proof.
  intros Hd. unfold DetachedInnerData_parents, DetachedInnerData_from; simpl.
  rewrite <-list_fmap_compose, list_elem_of_fmap. split.
  - intros (e & -> & He). exists (ie_source e). split; [by exists d, e|done].
  - intros (r & (d' & e & Hd' & He & <-) & <-). simplify_eq. by exists e.
Qed.

Lemma detaches_of_walk st p from nodes (dt : Detached N E) :
  upto_inv st p from nodes [] → dt_current dt = hash_id st p →
  (∀ h data, dt_all_data dt !! h = Some data ↔ ∃ q d, nodes !! h = Some q ∧ node st q = Some d ∧
     data = DetachedInnerData_from hash_id st d) →
  (∀ h q, nodes !! h = Some q → is_Some (node st q)) →
  detaches st p from dt.
Proof.
  intros [_ Hn Hp H0] Hcur Hall Hlive.
  assert (∀ q, covered st from nodes [] q →
    is_Some (dt_all_data dt !! hash_id st q) ∨ hash_id st q ∈ from) as Hcov.
  { intros q [[x Hx]|[?|?%elem_of_nil]]; [left|by right|done].
    destruct (Hlive _ _ Hx) as [dx Hdx]. eexists. apply Hall. eauto. }
  split; [done| | |].
  - intros h data (q & d & Hq & Hd & ->)%Hall. destruct (Hn _ _ Hq) as (<- & ? & ?). eauto 10.
  - rewrite Hcur. by apply Hcov.
  - intros h data h' (q & d & Hq & Hd & ->)%Hall Hh'.
    apply (elem_of_from_parents st q d h' Hd) in Hh' as (r & Hr & <-). apply Hcov. by eapply Hp.
Qed.

(** Where the hashes tell the ancestors apart, all that are reached are described. *)
Lemma detaches_exact st p from (dt : Detached N E) h data :
  detaches st p from dt →
  (∀ q q', ancestor_of st q p → ancestor_of st q' p → hash_id st q = hash_id st q' → q = q') →
  dt_all_data dt !! h = Some data ↔
    h ∉ from ∧ ∃ q d, reached_upto st from q p ∧ hash_id st q = h ∧ node st q = Some d ∧
      data = DetachedInnerData_from hash_id st d.
Proof.
  intros Hdt Hinj. split; [apply Hdt|]. intros (Hfrom & q & d & Hq & <- & Hd & ->).
  assert (∀ x, reached_upto st from x p → is_Some (dt_all_data dt !! hash_id st x) ∨ hash_id st x ∈ from) as Hall.
  { intros x Hx. refine (rtc_ind_l (λ x, is_Some (dt_all_data dt !! hash_id st x) ∨ hash_id st x ∈ from) p _ _ x Hx).
    { rewrite <-(dts_current _ _ _ _ Hdt). apply Hdt. }
    clear x Hx. intros x y [Hxy Hny] Hy [[data Hda]|?]; [|done].
    destruct (dts_data _ _ _ _ Hdt _ _ Hda) as (_ & y' & dy & Hy' & Heq & Hdy & ->).
    assert (y' = y) as -> by (apply Hinj; [by eapply reached_ancestor..|done]).
    eapply (dts_closed _ _ _ _ Hdt); [exact Hda|]. apply (elem_of_from_parents st y dy _ Hdy). by exists x. }
  destruct (Hall q Hq) as [[data Hda]|?]; [|done].
  destruct (dts_data _ _ _ _ Hdt _ _ Hda) as (_ & q' & d' & Hq' & Heq & Hd' & ->).
  assert (q' = q) as -> by (apply Hinj; [by eapply reached_ancestor..|done]). by simplify_eq.
Qed.

Lemma Detached_new_spec st ow p d from :
  wf st ow → node st p = Some d →
  ∃ dt st', Detached_new hash_id p from st = Ok (dt, st') ∧
    wf st' ow ∧ same_views st st' ∧ detaches st p from dt.
Proof.
  intros Hw Hd. unfold Detached_new, ancestors_upto, RelRc_clone.
  destruct (rc_clone_wf st ow p d Hw Hd) as (st1 & -> & Hw1 & Hv1). cbn [rbind].
  destruct (ancestors_upto_spec st p d from (Datatypes.S (length (edges_of (st_nodes st)))) ∅ [p]
    st1 ow (st_nodes st)) as (nodes & st2 & -> & Hinv & Hv2 & Hw2); try done.
  { split; [|done..|].
    - intros q ->%list_elem_of_singleton. apply rtc_refl.
    - right; right. by apply list_elem_of_singleton. }
  cbn [rbind fst snd].
  assert (∀ h q, nodes !! h = Some q → is_Some (node st q)) as Hlive.
  { intros h q (_ & Ha%reached_ancestor & _)%(up_nodes _ _ _ _ _ Hinv). by eapply ancestor_live. }
  destruct (detach_nodes_spec st ow (btree_iter nodes) ∅ st2 Hw Hv2)
    as (all & st3 & -> & Hw3 & Hv3 & Hall).
  { unfold node_owners in Hw2. by rewrite btree_iter_perm. }
  { apply btree_iter_NoDup. } { intros h q. rewrite elem_of_btree_iter. apply Hlive. }
  cbn [rbind fst snd]. eexists _, st3. split_and!; [done..|].
  eapply detaches_of_walk; [done..| |done]. intros h data. simpl. rewrite Hall.
  setoid_rewrite elem_of_btree_iter. naive_solver.
Qed.
End ancestors_upto.
