(* ===== verification/PostOrder.v ===== *)
(** * [post_order_for_each] visits every vertex once

    The traversal is a [for] loop over some order of the vertices that are
    reached, with the start last.  A vertex follows its successors in it when
    no vertex is reached along two edges. *)

From S2P Require Import Prelude Messages Detached.

Section post_order.
Context {V : Type} `{EqDecision V, Countable V}.
Context (successors : V → result (list V)) (visit : V → bool).
Implicit Types (v u start : V) (out : list V) (visited X : gset V) (stack : list (DfsEvent V)).

Definition dfs_edge v u : Prop := ∃ us, successors v = Ok us ∧ u ∈ us ∧ visit u = true.

Definition event_vertex (e : DfsEvent V) : V := match e with DfsEnter v | DfsExit v => v end.
Definition event_weight (e : DfsEvent V) : nat := match e with DfsEnter _ => 2 | DfsExit _ => 1 end.

(** The vertices that [for u in successors(v)] pushes. *)
Fixpoint unclaimed visited (us : list V) : list V :=
  match us with
  | [] => []
  | u :: us' =>
      if visit u then
        if decide (u ∈ visited) then unclaimed visited us' else u :: unclaimed ({[u]} ∪ visited) us'
      else unclaimed visited us'
  end.

Lemma push_unclaimed us visited stack :
  foldl (push_successor visit) (visited, stack) us =
    (list_to_set (unclaimed visited us) ∪ visited, (DfsEnter <$> reverse (unclaimed visited us)) ++ stack).
Proof.
  revert visited stack. induction us as [|u us IH]; intros visited stack; [simpl; f_equal; set_solver|].
  cbn [foldl unclaimed]. unfold push_successor at 2. cbn [fst snd].
  destruct (visit u); [|apply IH]. case_decide; [apply IH|]. rewrite IH.
  f_equal; [set_solver|]. by rewrite reverse_cons, fmap_app, <-(assoc_L (++)).
Qed.
Lemma unclaimed_spec us visited :
  NoDup (unclaimed visited us) ∧ ∀ u, u ∈ unclaimed visited us ↔ u ∈ us ∧ visit u = true ∧ u ∉ visited.
Proof.
  revert visited. induction us as [|u us IH]; intros visited; simpl.
  { split; [constructor|]. intros u. rewrite !elem_of_nil. naive_solver. }
  destruct (visit u) eqn:Hu; [case_decide as Hvis|].
  - destruct (IH visited) as [Hnd Hnew]. split; [done|]. intros x. rewrite Hnew, elem_of_cons. naive_solver.
  - destruct (IH ({[u]} ∪ visited)) as [Hnd Hnew]. split.
    + constructor; [|done]. rewrite Hnew. set_solver.
    + intros x. rewrite !elem_of_cons, Hnew, elem_of_union, elem_of_singleton.
      destruct (decide (x = u)) as [->|]; naive_solver.
  - destruct (IH visited) as [Hnd Hnew]. split; [done|]. intros x. rewrite Hnew, elem_of_cons. naive_solver congruence.
Qed.

(** ** The reference: a recursive traversal

    A vertex claims all its successors that nobody has claimed, then each of them is
    traversed, the last one first, and at the end the vertex itself is visited. *)
Section recursion.
Context {St : Type} (f : V → St → result St).
Implicit Types (acc : gset V * St) (s : St) (r : result St).

Fixpoint post_order_rec (fuel : nat) v acc : result (gset V * St) :=
  match fuel with
  | 0 => Err OutOfFuel
  | Datatypes.S fuel' =>
      us ← successors v;
      let new := unclaimed acc.1 us in
      acc' ← foldM (λ acc u, post_order_rec fuel' u acc) (list_to_set new ∪ acc.1, acc.2) (reverse new);
      s' ← f v acc'.2;
      Ok (acc'.1, s')
  end.

(** What the loop does with [Enter] events, given what it does with one. *)
Lemma loop_enter_all n k m l visited stack s r :
  (∀ n' visited v stack s r, n' ≤ n → post_order_loop f successors visit n' visited (DfsEnter v :: stack) s = r →
     r ≠ Err OutOfFuel →
     match post_order_rec m v (visited, s) with
     | Ok acc => ∃ n'', n'' < n' ∧ post_order_loop f successors visit n'' acc.1 stack acc.2 = r
     | Err e => r = Err e
     end) →
  k ≤ n → post_order_loop f successors visit k visited ((DfsEnter <$> l) ++ stack) s = r → r ≠ Err OutOfFuel →
  match foldM (λ acc u, post_order_rec m u acc) (visited, s) l with
  | Ok acc => ∃ n', n' ≤ k ∧ post_order_loop f successors visit n' acc.1 stack acc.2 = r
  | Err e => r = Err e
  end.
Proof.
  intros Hone. revert k visited s. induction l as [|v l IH]; intros k visited s Hk Hr Hne; simpl.
  { exists k. done. }
  apply (Hone k) in Hr; [|done|done]. destruct (post_order_rec m v (visited, s)) as [[visited' s']|e]; [|done].
  simpl. destruct Hr as (k' & Hk' & Hr). pose proof (IH k' visited' s' ltac:(lia) Hr Hne) as Hl.
  destruct (foldM _ (visited', s') l) as [acc|]; [|done]. destruct Hl as (n' & ? & ?). exists n'. split; [lia|done].
Qed.

Lemma loop_enter n m visited v stack s r :
  n ≤ m → post_order_loop f successors visit n visited (DfsEnter v :: stack) s = r → r ≠ Err OutOfFuel →
  match post_order_rec m v (visited, s) with
  | Ok acc => ∃ n', n' < n ∧ post_order_loop f successors visit n' acc.1 stack acc.2 = r
  | Err e => r = Err e
  end.
Proof.
  revert n visited v stack s r. induction m as [|m IH]; intros n visited v stack s r Hnm Hr Hne.
  { destruct n; [|lia]. by destruct Hne. }
  destruct n as [|n]; [by destruct Hne|]. cbn [post_order_loop post_order_rec] in *.
  destruct (successors v) as [us|e]; [|by subst]. cbn [rbind] in *. cbv zeta in *. cbn [fst snd] in *.
  rewrite push_unclaimed in Hr. cbn [fst snd] in Hr.
  apply (loop_enter_all n n m) in Hr; [|intros; eapply IH; [|done|done]; lia|done|done].
  destruct (foldM _ _ (reverse _)) as [[visited' s']|e]; [|done]. cbn [rbind fst snd].
  destruct Hr as (n' & Hn' & Hr). destruct n' as [|n']; [by destruct Hne|]. cbn [post_order_loop fst snd] in Hr.
  destruct (f v s') as [s''|e]; [|simpl in *; congruence]. cbn [rbind fst snd] in *. exists n'. split; [lia|done].
Qed.

Lemma post_order_recursive n start s r :
  post_order_for_each f successors visit n start s = r → r ≠ Err OutOfFuel →
  (acc ← post_order_rec n start (∅, s); Ok acc.2) = r.
Proof.
  intros Hr Hne. apply (loop_enter n n) in Hr; [|lia|done].
  destruct (post_order_rec n start (∅, s)) as [acc|]; [|done]. destruct Hr as (n' & _ & Hr).
  simpl. by destruct n'.
Qed.
End recursion.

(** No reachable vertex is a successor of two. *)
Definition dfs_forest start : Prop :=
  ∀ v v' u, rtc dfs_edge start v → rtc dfs_edge start v' → dfs_edge v u → dfs_edge v' u → v = v'.

(** [v] has been entered. *)
Definition entered out stack v : Prop := v ∈ out ∨ DfsExit v ∈ stack.

(** [out] has been called, [stack] is to come. *)
Record dfs_inv start out visited stack : Prop := {
  dfs_NoDup : NoDup (out ++ (event_vertex <$> stack));
  dfs_elem v : v ∈ out ++ (event_vertex <$> stack) ↔ v = start ∨ v ∈ visited;
  dfs_visited v : v ∈ visited → tc dfs_edge start v;
  dfs_last : last (out ++ (event_vertex <$> stack)) = Some start;
  dfs_closed v u : entered out stack v → dfs_edge v u → u ∈ visited;
  dfs_from u : u ∈ visited → ∃ v, entered out stack v ∧ dfs_edge v u;
  dfs_before : dfs_forest start → ∀ v u, entered out stack v → dfs_edge v u →
    [u; v] `sublist_of` out ++ (event_vertex <$> stack);
}.

Lemma dfs_start start : dfs_inv start [] ∅ [DfsEnter start].
Proof.
  split; simpl.
  - apply NoDup_singleton.
  - intros v. rewrite list_elem_of_singleton. set_solver.
  - set_solver.
  - done.
  - intros v u [?%elem_of_nil|?%list_elem_of_singleton]; done.
  - set_solver.
  - intros _ v u [?%elem_of_nil|?%list_elem_of_singleton]; done.
Qed.

Lemma entered_exit out v stack x :
  entered (out ++ [v]) stack x ↔ entered out (DfsExit v :: stack) x.
Proof.
  unfold entered. rewrite elem_of_app, list_elem_of_singleton, elem_of_cons. naive_solver.
Qed.

Lemma entered_enter out v new stack x :
  entered out ((DfsEnter <$> new) ++ DfsExit v :: stack) x ↔
    x = v ∨ entered out (DfsEnter v :: stack) x.
Proof.
  unfold entered. rewrite elem_of_app, !elem_of_cons, list_elem_of_fmap. naive_solver.
Qed.

Lemma dfs_exit start out visited v stack :
  dfs_inv start out visited (DfsExit v :: stack) → dfs_inv start (out ++ [v]) visited stack.
Proof.
  intros [Hnd Hel Hvis Hlast Hcl Hfrom Hbef]. csimpl in *.
  rewrite cons_middle, (assoc_L (++)) in Hnd, Hlast. setoid_rewrite cons_middle in Hel.
  setoid_rewrite (assoc_L (++)) in Hel. setoid_rewrite cons_middle in Hbef.
  setoid_rewrite (assoc_L (++)) in Hbef.
  split; try done; by setoid_rewrite entered_exit.
Qed.

Lemma dfs_reached start out visited v stack :
  dfs_inv start out visited (DfsEnter v :: stack) → rtc dfs_edge start v.
Proof.
  intros Hinv. destruct (proj1 (dfs_elem _ _ _ _ Hinv v)) as [->|?]; [|done|].
  - csimpl. rewrite elem_of_app, elem_of_cons. auto.
  - by apply tc_rtc, Hinv.
Qed.

(** In a forest no successor of a vertex has been visited when it is entered. *)
Lemma dfs_unvisited start out visited v stack u :
  dfs_inv start out visited (DfsEnter v :: stack) → dfs_forest start →
  dfs_edge v u → u ∉ visited.
Proof.
  intros Hinv Hf Hvu Hu. destruct (dfs_from _ _ _ _ Hinv u Hu) as (x & Hx & Hxu).
  assert (x ∈ out ++ (event_vertex <$> stack)) as Hin.
  { rewrite elem_of_app. destruct Hx as [?|[?|?]%elem_of_cons]; [by left|done|right].
    by apply (list_elem_of_fmap_2 event_vertex _ (DfsExit x)). }
  assert (x = v) as ->.
  { apply (Hf _ _ u); [|by eapply dfs_reached|done|done].
    destruct (proj1 (dfs_elem _ _ _ _ Hinv x)) as [->|?]; [|done|by apply tc_rtc, Hinv].
    csimpl. rewrite elem_of_app, elem_of_cons. rewrite elem_of_app in Hin. naive_solver. }
  pose proof (dfs_NoDup _ _ _ _ Hinv) as Hnd. csimpl in Hnd.
  rewrite <-Permutation_middle in Hnd. by apply NoDup_cons in Hnd as [? _].
Qed.

Lemma dfs_enter start out visited v stack us new :
  dfs_inv start out visited (DfsEnter v :: stack) → ¬ tc dfs_edge start start →
  successors v = Ok us → NoDup new → (∀ u, u ∈ new ↔ u ∈ us ∧ visit u = true ∧ u ∉ visited) →
  dfs_inv start out (list_to_set new ∪ visited)
    ((DfsEnter <$> reverse new) ++ DfsExit v :: stack).
Proof.
  intros Hinv Hac Hus Hnd Hnew. pose proof (dfs_reached _ _ _ _ _ Hinv) as Hv.
  assert (∀ u, u ∈ new → tc dfs_edge start u) as Hreach.
  { intros u (? & ? & _)%Hnew. eapply tc_rtc_l; [done|]. apply tc_once. by exists us. }
  pose proof (λ u, dfs_unvisited _ _ _ _ _ u Hinv) as Hunv.
  destruct Hinv as [Hnd0 Hel Hvis Hlast Hcl Hfrom Hbef]. csimpl in *.
  assert (out ++ (event_vertex <$> (DfsEnter <$> reverse new) ++ DfsExit v :: stack) ≡ₚ
          new ++ (out ++ v :: (event_vertex <$> stack))) as Hperm.
  { rewrite fmap_app, <-list_fmap_compose. csimpl. rewrite Permutation_app_swap_app.
    f_equiv. change (event_vertex ∘ DfsEnter) with (id (A:=V)). rewrite list_fmap_id.
    apply reverse_Permutation. }
  split.
  - rewrite Hperm. apply NoDup_app. split_and!; [done| |done].
    intros u Hu Hin. apply Hel in Hin as [->|Hin]; [by apply Hac, Hreach|].
    apply Hnew in Hu. naive_solver.
  - intros u. rewrite Hperm, elem_of_app, Hel, elem_of_union, elem_of_list_to_set. naive_solver.
  - intros u [Hu%elem_of_list_to_set|]%elem_of_union; auto.
  - rewrite last_app_cons in Hlast. rewrite fmap_app. csimpl. by rewrite (assoc_L (++)), last_app_cons.
  - intros x u [->|Hx]%entered_enter Hxu; [|apply elem_of_union; right; by eapply Hcl].
    destruct Hxu as (us' & Hus' & Hu & Hvu). assert (us' = us) as -> by congruence.
    destruct (decide (u ∈ visited)) as [?|Hn]; [set_solver|].
    apply elem_of_union. left. apply elem_of_list_to_set, Hnew. done.
  - setoid_rewrite entered_enter.
    intros u [(? & ? & _)%elem_of_list_to_set%Hnew|(x & ? & ?)%Hfrom]%elem_of_union; [|by eauto].
    exists v. split; [by left|]. by exists us.
  - intros Hf x u Hx Hxu. rewrite fmap_app, <-list_fmap_compose. csimpl.
    apply entered_enter in Hx as [->|Hx].
    + destruct Hxu as (us' & Hus' & Hu & Hvu). assert (us' = us) as -> by congruence.
      apply sublist_inserts_l. apply (sublist_app [u] _ [v]); [|apply sublist_skip, sublist_nil_l].
      change (event_vertex ∘ DfsEnter) with (id (A:=V)). rewrite list_fmap_id.
      apply singleton_sublist_l, elem_of_reverse, Hnew.
      split_and!; [done..|]. apply (Hunv _ Hf). by exists us.
    + etrans; [by apply (Hbef Hf)|]. apply sublist_app; [done|]. by apply sublist_inserts_l.
Qed.

(** Each vertex that is not yet visited accounts for two events. *)
Definition dfs_work X visited stack : nat :=
  2 * size (X ∖ visited) + sum_list_with event_weight stack.

Lemma dfs_work_enter X visited v stack new :
  NoDup new → (∀ u, u ∈ new → u ∈ X ∧ u ∉ visited) →
  dfs_work X (list_to_set new ∪ visited) ((DfsEnter <$> reverse new) ++ DfsExit v :: stack) <
  dfs_work X visited (DfsEnter v :: stack).
Proof.
  intros Hnd Hnew. unfold dfs_work. rewrite sum_list_with_app. simpl.
  assert (sum_list_with event_weight (DfsEnter <$> reverse new) = 2 * length new) as ->.
  { rewrite <-length_reverse. induction (reverse new) as [|? l IH]; csimpl; [done|]. rewrite IH. lia. }
  assert (size (X ∖ visited) = size (X ∖ (list_to_set new ∪ visited)) + length new) as ->; [|lia].
  rewrite <-(size_list_to_set (C:=gset V) new) by done. rewrite <-size_union by set_solver.
  f_equal. apply set_eq. intros u. rewrite elem_of_union, !elem_of_difference, elem_of_union,
    elem_of_list_to_set. destruct (decide (u ∈ new)); naive_solver.
Qed.

Section traversal.
Context (start : V) (X : gset V).
Hypothesis succ_Ok : ∀ v, rtc dfs_edge start v → ∃ us, successors v = Ok us.
Hypothesis acyclic : ¬ tc dfs_edge start start.
Hypothesis bounded : ∀ v, tc dfs_edge start v → v ∈ X.

Lemma post_order_loop_spec fuel out visited stack :
  dfs_inv start out visited stack → dfs_work X visited stack ≤ fuel →
  ∃ l visited', dfs_inv start (out ++ l) visited' [] ∧
    ∀ St (f : V → St → result St) s,
      post_order_loop f successors visit fuel visited stack s = foldM (λ s v, f v s) s l.
Proof.
  revert out visited stack. induction fuel as [|fuel IH]; intros out visited [|[v|v] stack] Hinv Hw.
  1,4: exists [], visited; by rewrite app_nil_r.
  1,2: unfold dfs_work in Hw; simpl in Hw; lia.
  - destruct (succ_Ok v) as [us Hus]; [by eapply dfs_reached|].
    pose proof (push_unclaimed us visited (DfsExit v :: stack)) as Heq.
    destruct (unclaimed_spec us visited) as [Hnd Hnew]. set (new := unclaimed visited us) in *.
    pose proof (dfs_enter _ _ _ _ _ _ _ Hinv acyclic Hus Hnd Hnew) as Hinv'.
    destruct (IH _ _ _ Hinv') as (l & visited' & ? & Hl).
    { enough (dfs_work X (list_to_set new ∪ visited) ((DfsEnter <$> reverse new) ++ DfsExit v :: stack)
        < dfs_work X visited (DfsEnter v :: stack)) by lia.
      apply dfs_work_enter; [done|]. intros u Hu. split; [|by apply Hnew].
      apply bounded, (dfs_visited _ _ _ _ Hinv'). set_solver. }
    exists l, visited'. split; [done|]. intros St f s. cbn [post_order_loop]. rewrite Hus. cbn [rbind].
    rewrite Heq. apply Hl.
  - destruct (IH _ _ _ (dfs_exit _ _ _ _ _ Hinv)) as (l & visited' & ? & Hl).
    { unfold dfs_work in *. simpl in Hw. lia. }
    exists (v :: l), visited'. rewrite <-(assoc_L (++)) in *. split; [done|].
    intros St f s. simpl. destruct (f v s); simpl; [apply Hl|done].
Qed.

Lemma post_order_spec fuel :
  2 + 2 * size X ≤ fuel →
  ∃ l, NoDup l ∧ last l = Some start ∧ (∀ v, v ∈ l ↔ rtc dfs_edge start v) ∧
    (dfs_forest start → ∀ v u, v ∈ l → dfs_edge v u → [u; v] `sublist_of` l) ∧
    ∀ St (f : V → St → result St) s,
      post_order_for_each f successors visit fuel start s = foldM (λ s v, f v s) s l.
Proof.
  intros Hf. destruct (post_order_loop_spec fuel [] ∅ [DfsEnter start] (dfs_start start))
    as (l & visited & [Hnd Hel Hvis Hlast Hcl _ Hbef] & Hl).
  { unfold dfs_work. rewrite difference_empty_L. simpl. lia. }
  cbn [app] in *. rewrite fmap_nil, app_nil_r in *. exists l. split_and!; [done..| | |done].
  2: { intros Hforest v u Hv. apply (Hbef Hforest). by left. }
  intros v. split.
  - intros [->|?%Hvis]%Hel; [done|by apply tc_rtc].
  - intros Hv. refine (rtc_ind_r (λ v, v ∈ l) start _ _ v Hv); [apply Hel; auto|].
    intros x y _ Hxy Hx. apply Hel. right. eapply Hcl; [by left|done].
Qed.
End traversal.
End post_order.
