(* ===== verification/Attach.v ===== *)
(** * [RelRc::attach] of [detached.rs]

    The described nodes are created in the order of [post_order_for_each] on
    the graph of parents, cut at the nodes that are already there. *)

From S2P Require Import Prelude Slotmap Store Rc Registry Drop Edge Node Messages Detached.

Section attach.
Context {N E : Type} {S : SlotMapSig} {A : Allocator} {H : HashIdSig}.
Context (hash_id : store N E → addr → RelRcHash).
Implicit Types (st : store N E) (attach_to all_new_relrc : gmap RelRcHash addr).

Definition unwrap {B} : option B → result B :=
  expect "called `Option::unwrap()` on a `None` value".

(** [collect] into a [BTreeMap]: of two nodes with the same hash the later one
    is kept. *)
Definition collect_attach_to (nodes : list addr) st :
    result (gmap RelRcHash addr * store N E) :=
  foldM (λ acc n,
      let h := hash_id acc.2 n in
      st' ← drop_refs (NodeStrong <$> option_list (acc.1 !! h)) acc.2;
      Ok (<[h := n]> acc.1, st')) (∅, st) nodes.

(** The closure that finds and clones one parent. *)
Definition attach_parent attach_to all_new_relrc (acc : list (addr * E) * store N E)
    (incoming : RelRcHash * E) : result (list (addr * E) * store N E) :=
  relrc ← unwrap (match all_new_relrc !! incoming.1 with
                  | Some relrc => Some relrc
                  | None => attach_to !! incoming.1
                  end);
  st' ← RelRc_clone relrc acc.2;
  Ok (acc.1 ++ [(relrc, incoming.2)], st').

(** The visitor: creates the node [id]. *)
Definition attach_node (detached : Detached N E) attach_to (id : RelRcHash)
    (s : gmap RelRcHash addr * store N E) : result (gmap RelRcHash addr * store N E) :=
  data ← unwrap (dt_all_data detached !! id);
  parents ← foldM (attach_parent attach_to s.1) ([], s.2) (dd_incoming data);
  relrc ← RelRc_with_parents (dd_value data) parents.1 parents.2;
  st' ← drop_refs (NodeStrong <$> option_list (s.1 !! id)) relrc.2;
  Ok (<[id := relrc.1]> s.1, st').

(** The successors of an object are its parents. *)
Definition attach_successors (detached : Detached N E) (id : RelRcHash) : result (list RelRcHash) :=
  data ← unwrap (dt_all_data detached !! id);
  Ok (DetachedInnerData_parents data).

Definition map_owners (m : gmap RelRcHash addr) : list ref := NodeStrong <$> (btree_iter m).*2.

(** The nodes of [attach_to] are moved in.  Every described object is entered
    and left at most once, which bounds the traversal. *)
Definition RelRc_attach (detached : Detached N E) (attach_to : list addr) st :
    result (addr * store N E) :=
  a ← collect_attach_to attach_to st;
  match a.1 !! dt_current detached with
  | Some relrc =>
      st1 ← RelRc_clone relrc a.2;
      st2 ← drop_refs (map_owners a.1) st1;
      Ok (relrc, st2)
  | None =>
      r ← post_order_for_each (attach_node detached a.1) (attach_successors detached)
            (λ id, negb (btree_contains_key id a.1)) (2 + 2 * size (dt_all_data detached))
            (dt_current detached) (∅, a.2);
      relrc ← unwrap (r.1 !! dt_current detached);
      st' ← drop_refs (map_owners (delete (dt_current detached) r.1) ++ map_owners a.1) r.2;
      Ok (relrc, st')
  end.
End attach.
