(* ===== verification/Transfer.v ===== *)
(** * [detached/mpi.rs]: transferring a node between two processes

    The sender describes the node; the receiver asks for the ancestors it does
    not have, one at a time, until the node can be attached.  [async] functions
    are processes: sequences of sends and of receives that wait.  Two processes
    run concurrently over two connections, one in each direction. *)

From S2P Require Import Prelude Slotmap Store Rc Registry Drop Edge Node Messages Detached Attach.

Declare Scope proc_scope.
Delimit Scope proc_scope with proc.

Section proc.
Context {N E : Type} {H : HashIdSig}.

Inductive proc (A : Type) :=
  | Ret (a : A)
  | Send (msg : MPIMessage N E) (k : proc A)
  | Receive (tag : MPIMessageTag) (k : MPIMessage N E → proc A)
  | Throw (e : error).
Arguments Ret {A} a.
Arguments Send {A} msg k.
Arguments Receive {A} tag k.
Arguments Throw {A} e.

Fixpoint proc_bind {A B} (p : proc A) (f : A → proc B) : proc B :=
  match p with
  | Ret a => f a
  | Send msg k => Send msg (proc_bind k f)
  | Receive tag k => Receive tag (λ msg, proc_bind (k msg) f)
  | Throw e => Throw e
  end.
Notation "x '<~' y ; z" := (proc_bind y (λ x, z))
  (at level 20, y at level 100, z at level 200, only parsing) : proc_scope.
Local Open Scope proc_scope.

Definition lift {A} (r : result A) : proc A := match r with Ok a => Ret a | Err e => Throw e end.
Definition send (msg : MPIMessage N E) : proc unit := Send msg (Ret tt).
Definition receive (tag : MPIMessageTag) : proc (MPIMessage N E) := Receive tag Ret.

(** ** One object *)

Fixpoint send_weights (incoming_values : list E) : proc unit :=
  match incoming_values with
  | [] => Ret tt
  | weight :: rest => _ <~ send (EdgeWeight weight); send_weights rest
  end.

Definition mpi_send (hash : RelRcHash) (data : DetachedInnerData N E) : proc unit :=
  let relrc_msg := mkMPIRelRc (hash_into hash) in
  _ <~ send (MPIMessage_from_relrc relrc_msg);
  _ <~ send (NodeWeight (dd_value data));
  let incoming_hashes := (dd_incoming data).*1 in
  let incoming_values := (dd_incoming data).*2 in
  let msgs := (λ hash, mkMPIIncomingEdge (hash_into hash)) <$> incoming_hashes in
  _ <~ send (MPIMessage_from_edges msgs);
  send_weights incoming_values.

Fixpoint recv_weights (incoming_edges : list RelRcHash) : proc (list (RelRcHash * E)) :=
  match incoming_edges with
  | [] => Ret []
  | source_hash :: rest =>
      msg <~ receive TagEdgeWeight;
      match msg with
      | EdgeWeight edge_weight =>
          incoming <~ recv_weights rest;
          Ret ((source_hash, edge_weight) :: incoming)
      | _ => Throw (Panic "Expected edge weight message")
      end
  end.

Definition mpi_recv : proc (RelRcHash * DetachedInnerData N E) :=
  msg <~ receive TagRelRc;
  match msg with
  | RelRc hash =>
      msg <~ receive TagNodeWeight;
      match msg with
      | NodeWeight node_weight =>
          msg <~ receive TagIncomingEdge;
          match msg with
          | IncomingEdge incoming_edges =>
              incoming <~ recv_weights incoming_edges;
              Ret (hash, mkDetachedInnerData node_weight incoming)
          | _ => Throw (Panic "Expected incoming edge message")
          end
      | _ => Throw (Panic "Expected node weight message")
      end
  | _ => Throw (Panic "Expected RelRc message")
  end.

(** ** The protocol *)

(** [&detached.all_data[&hash]] *)
Definition all_data_index (dt : Detached N E) (hash : RelRcHash) :
    result (DetachedInnerData N E) :=
  expect "no entry found for key" (dt_all_data dt !! hash).

(** The [loop] of [send_relrc]; [fuel] bounds the number of acknowledgements. *)
Fixpoint send_loop (fuel : nat) (detached : Detached N E) : proc unit :=
  match fuel with
  | 0 => Throw OutOfFuel
  | Datatypes.S fuel' =>
      msg <~ receive TagAck;
      match msg with
      | Done => Ret tt
      | RequestRelRc hash =>
          data <~ lift (all_data_index detached hash);
          _ <~ mpi_send hash data;
          send_loop fuel' detached
      | _ => Throw (Panic "Received unexpected message")
      end
  end.

(** [send_relrc] once the node has been detached. *)
Definition send_detached (fuel : nat) (detached : Detached N E) : proc unit :=
  data <~ lift (all_data_index detached (dt_current detached));
  _ <~ mpi_send (dt_current detached) data;
  send_loop fuel detached.

Definition first_unknown_hash {B} (detached : Detached N E) (attach_to : gmap RelRcHash B) :
    option RelRcHash :=
  find (λ hash, negb (btree_contains_key hash attach_to)) (Detached_required_hashes detached).

Definition ready {B} (attach_to : gmap RelRcHash B) (detached : option (Detached N E)) : bool :=
  match detached with
  | None => false
  | Some detached => Detached_attaches_to detached attach_to
  end.

(** [detached.get_or_insert(Detached::empty(hash)).all_data.insert(hash, data)] *)
Definition insert_received (detached : option (Detached N E))
    (r : RelRcHash * DetachedInnerData N E) : Detached N E :=
  let dt := match detached with Some dt => dt | None => Detached_empty r.1 end in
  mkDetached (dt_current dt) (<[r.1 := r.2]> (dt_all_data dt)).

(** The [while] loop of [recv_relrc]; [fuel] bounds the number of objects. *)
Fixpoint recv_loop {B} (fuel : nat) (attach_to : gmap RelRcHash B)
    (detached : option (Detached N E)) : proc (option (Detached N E)) :=
  if ready attach_to detached then Ret detached else
  match fuel with
  | 0 => Throw OutOfFuel
  | Datatypes.S fuel' =>
      _ <~ match detached with
           | None => Ret tt
           | Some dt =>
               first_unknown <~ lift (expect "cannot attach but all required objects are known"
                                       (first_unknown_hash dt attach_to));
               send (RequestRelRc first_unknown)
           end;
      r <~ mpi_recv;
      recv_loop fuel' attach_to (Some (insert_received detached r))
  end.

(** [recv_relrc] up to the call of [RelRc::attach], whose argument it returns. *)
Definition recv_detached {B} (fuel : nat) (attach_to : gmap RelRcHash B) : proc (Detached N E) :=
  detached <~ recv_loop fuel attach_to None;
  _ <~ send Done;
  lift (expect "called `Option::unwrap()` on a `None` value" detached).
End proc.

Arguments proc N E {H} A.
Arguments Ret {N E H A} a.
Arguments Send {N E H A} msg k.
Arguments Receive {N E H A} tag k.
Arguments Throw {N E H A} e.
Notation "x '<~' y ; z" := (proc_bind y (λ x, z))
  (at level 20, y at level 100, z at level 200, only parsing) : proc_scope.

(** ** The communicator *)

Section communicator.
Context {N E : Type} {H : HashIdSig} {S : SlotMapSig} {A : Allocator}.
Context (hash_id : store N E → addr → RelRcHash).
Local Open Scope proc_scope.

(** [send_relrc]: by leaving the set empty, no assumption is made on what the
    receiver knows. *)
Definition send_relrc (fuel : nat) (p : addr) (st : store N E) : result (proc N E unit * store N E) :=
  rbind (RelRc_detach hash_id p ∅ st) (λ r, Ok (send_detached fuel r.1, r.2)).

Definition RelRcCommunicator_send_relrc_async (fuel : nat) (mode : MPIMode) (p : addr)
    (st : store N E) : result (proc N E unit * store N E) :=
  match mode with
  | Buffered | Standard => send_relrc fuel p st
  | Async => Err (Panic "Async mode not supported for sending. Use Standard or Buffered mode instead.")
  end.

(** The last call of [recv_relrc], on the description that [recv_detached]
    returned: the nodes of [attach_to] are cloned for [RelRc::attach], and the
    map is dropped on return. *)
Definition recv_attach (attach_to : gmap RelRcHash addr) (detached : Detached N E) (st : store N E) :
    result (addr * store N E) :=
  let values := (btree_iter attach_to).*2 in
  rbind (foldM (λ s n, RelRc_clone n s) st values) (λ st1,
  rbind (RelRc_attach hash_id detached values st1) (λ r,
  rbind (drop_refs (map_owners attach_to) r.2) (λ st2, Ok (r.1, st2)))).

(** [recv_relrc]: the messages, and what is done with the store once the
    description is complete. *)
Definition recv_relrc (fuel : nat) (attach_to : list addr) (st : store N E) :
    result (proc N E (Detached N E) * (Detached N E → store N E → result (addr * store N E))
            * store N E) :=
  rbind (collect_attach_to hash_id attach_to st) (λ a,
  Ok (recv_detached fuel a.1, recv_attach a.1, a.2)).

(** Every mode can receive asynchronously. *)
Definition RelRcCommunicator_recv_relrc_async (fuel : nat) (mode : MPIMode) (attach_to : list addr)
    (st : store N E) := recv_relrc fuel attach_to st.

(** ** The trait [RelRcCommunicator]

    Two methods, and two more that block on the futures of the first. *)
Class RelRcCommunicator := {
  send_relrc_async : nat → MPIMode → addr → store N E → result (proc N E unit * store N E);
  recv_relrc_async : nat → MPIMode → list addr → store N E →
    result (proc N E (Detached N E) * (Detached N E → store N E → result (addr * store N E)) * store N E);
}.

Definition RelRcCommunicator_send_relrc `{RelRcCommunicator} (fuel : nat) (mode : MPIMode) (p : addr)
    (st : store N E) : result (proc N E unit * store N E) :=
  send_relrc_async fuel mode p st.

Definition RelRcCommunicator_recv_relrc `{RelRcCommunicator} (fuel : nat) (mode : MPIMode)
    (attach_to : list addr) (st : store N E) :
    result (proc N E (Detached N E) * (Detached N E → store N E → result (addr * store N E)) * store N E) :=
  match mode with
  | Async => Err (Panic "Use recv_relrc_async instead of recv_relrc for async mode")
  | _ => recv_relrc_async fuel mode attach_to st
  end.

(** Every process that is a source and a destination. *)
#[export] Instance process_communicator : RelRcCommunicator := {|
  send_relrc_async := RelRcCommunicator_send_relrc_async;
  recv_relrc_async := RelRcCommunicator_recv_relrc_async;
|}.

(** The modes that a blocking transfer has: the asynchronous one is refused on either
    side. *)
Lemma communicator_modes fuel mode p nodes st :
  (∀ r, RelRcCommunicator_send_relrc fuel mode p st = Ok r → mode ≠ Async ∧ send_relrc fuel p st = Ok r) ∧
  (∀ r, RelRcCommunicator_recv_relrc fuel mode nodes st = Ok r → mode ≠ Async ∧ recv_relrc fuel nodes st = Ok r).
Proof. by split; intros r; destruct mode. Qed.
End communicator.

(** ** Two processes *)

Section network.
Context {N E : Type} {H : HashIdSig} {M : MPISig}.

Record network (A B : Type) := mkNetwork {
  nw_sender : proc N E A;
  nw_receiver : proc N E B;
  nw_down : connection (buffer N E);  (* sender to receiver *)
  nw_up : connection (buffer N E);    (* receiver to sender *)
}.
Arguments mkNetwork {A B} _ _ _ _.
Arguments nw_sender {A B} _.
Arguments nw_receiver {A B} _.
Arguments nw_down {A B} _.
Arguments nw_up {A B} _.

(** The next action of a process, if it has one and is not waiting. *)
Definition proc_step {A} (mode : MPIMode) (p : proc N E A) (inbox outbox : connection (buffer N E)) :
    option (proc N E A * connection (buffer N E) * connection (buffer N E)) :=
  match p with
  | Ret _ | Throw _ => None
  | Send msg k => Some (k, inbox, mpi_send_message mode msg outbox)
  | Receive tag k =>
      match mpi_receive_message mode tag inbox with
      | None => None
      | Some (Ok msg, inbox') => Some (k msg, inbox', outbox)
      | Some (Err e, inbox') => Some (Throw e, inbox', outbox)
      end
  end.

(** The tag that a process waits for. *)
Definition waiting_for {A} (p : proc N E A) : option MPIMessageTag :=
  match p with Receive tag _ => Some tag | _ => None end.

(** The modes of the two processes. *)
Context (ms mr : MPIMode).

Inductive network_step {A B} : relation (network A B) :=
  | step_sender s s' r down down' up up' :
      proc_step ms s up down = Some (s', up', down') →
      network_step (mkNetwork s r down up) (mkNetwork s' r down' up')
  | step_receiver s r r' down down' up up' :
      proc_step mr r down up = Some (r', down', up') →
      network_step (mkNetwork s r down up) (mkNetwork s r' down' up').

(** One way to run the network. *)
Definition network_next {A B} (c : network A B) : option (network A B) :=
  match proc_step ms (nw_sender c) (nw_up c) (nw_down c) with
  | Some (s', up', down') => Some (mkNetwork s' (nw_receiver c) down' up')
  | None =>
      match proc_step mr (nw_receiver c) (nw_down c) (nw_up c) with
      | Some (r', down', up') => Some (mkNetwork (nw_sender c) r' down' up')
      | None => None
      end
  end.

Fixpoint network_run {A B} (fuel : nat) (c : network A B) : network A B :=
  match fuel with
  | 0 => c
  | Datatypes.S fuel' =>
      match network_next c with Some c' => network_run fuel' c' | None => c end
  end.
End network.

Arguments mkNetwork {N E H M A B} _ _ _ _.
Arguments nw_sender {N E H M A B} _.
Arguments nw_receiver {N E H M A B} _.
Arguments nw_down {N E H M A B} _.
Arguments nw_up {N E H M A B} _.
Arguments network N E {H M} A B.
