(* ===== verification/TransferFacts.v ===== *)
(** * The transfer protocol completes, or stalls at the hash 0

    Processes over such connections commute, so one complete schedule settles
    all of them; the schedule that is followed here lets the sender run first. *)

From S2P Require Import Prelude Slotmap Store Messages Detached Transfer.

Section network_facts.
Context {N E : Type} {H : HashIdSig} {HLaws : HashIdLaws H} {M : MPISig} {MLaws : MPILaws M}.
Context (ms mr : MPIMode).
Implicit Types (c inbox outbox : connection (buffer N E)).

(** What a step does to the outbox: nothing, or send one message. *)
Definition sends_one (mode : MPIMode) (g : connection (buffer N E) → connection (buffer N E)) : Prop :=
  (∀ c, g c = c) ∨ ∃ msg, ∀ c, g c = mpi_send_message mode msg c.

Lemma proc_step_outbox {A} mode (p p' : proc N E A) inbox outbox inbox' outbox' :
  proc_step mode p inbox outbox = Some (p', inbox', outbox') →
  ∃ g, sends_one mode g ∧ outbox' = g outbox ∧
    ∀ o, proc_step mode p inbox o = Some (p', inbox', g o).
Proof.
  destruct p as [a|msg k|tag k|e]; simpl; [done| | |done].
  - intros [= <- <- <-]. exists (mpi_send_message mode msg). split; [right; eauto|done].
  - destruct (mpi_receive_message mode tag inbox) as [[[m|e] c]|]; [..|done]; intros [= <- <- <-];
      (exists id; split; [by left|done]).
Qed.

(** What is sent to a process does not change what it does next. *)
Lemma proc_step_inbox {A} mode mode' g (p p' : proc N E A) inbox outbox inbox' outbox' :
  sends_one mode' g → proc_step mode p inbox outbox = Some (p', inbox', outbox') →
  proc_step mode p (g inbox) outbox = Some (p', g inbox', outbox').
Proof.
  intros [Hg|[m Hg]]; rewrite !Hg; [done|].
  destruct p as [a|msg k|tag k|e]; simpl; [done|by intros [= <- <- <-]| |done].
  destruct (mpi_receive_message mode tag inbox) as [[r c]|] eqn:Hr; [|done].
  rewrite (receive_after_send _ _ _ _ _ _ _ Hr). by destruct r; intros [= <- <- <-].
Qed.

(** Two processes whose inboxes and outboxes are crossed. *)
Lemma proc_steps_commute {A B} (p p' : proc N E A) (q q' : proc N E B) c1 c2 c1p c2p c1q c2q :
  proc_step ms p c1 c2 = Some (p', c1p, c2p) →
  proc_step mr q c2 c1 = Some (q', c2q, c1q) →
  ∃ c1' c2', proc_step ms p c1q c2q = Some (p', c1', c2') ∧
             proc_step mr q c2p c1p = Some (q', c2', c1').
Proof.
  intros Hp Hq. destruct (proc_step_outbox _ _ _ _ _ _ _ Hp) as (gp & Hgp & -> & Hp').
  destruct (proc_step_outbox _ _ _ _ _ _ _ Hq) as (gq & Hgq & -> & Hq').
  exists (gq c1p), (gp c2q). split.
  - eapply proc_step_inbox; [done|apply Hp'].
  - eapply proc_step_inbox; [done|apply Hq'].
Qed.

Lemma network_diamond {A B} (x y z : network N E A B) :
  network_step ms mr x y → network_step ms mr x z →
  y = z ∨ ∃ w, network_step ms mr y w ∧ network_step ms mr z w.
Proof.
  intros Hy Hz. destruct Hy as [s s' r down down' up up' Hs|s r r' down down' up up' Hr];
    inversion Hz as [? ? ? ? ? ? ? Hs'|? ? ? ? ? ? ? Hr']; simplify_eq; [by left|right|right|by left].
  - destruct (proc_steps_commute _ _ _ _ _ _ _ _ _ _ Hs Hr') as (c1 & c2 & ? & ?).
    eexists. split; [by eapply step_receiver|by eapply step_sender].
  - destruct (proc_steps_commute _ _ _ _ _ _ _ _ _ _ Hs' Hr) as (c1 & c2 & ? & ?).
    eexists. split; [by eapply step_sender|by eapply step_receiver].
Qed.

Lemma network_next_None {A B} (x : network N E A B) :
  network_next ms mr x = None → ∀ y, ¬ network_step ms mr x y.
Proof.
  unfold network_next. destruct x as [s r down up]; simpl. intros Hn y Hy.
  inversion Hy as [? ? ? ? ? ? ? Hs|? ? ? ? ? ? ? Hr]; simplify_eq.
  - rewrite Hs in Hn. done.
  - rewrite Hr in Hn. by destruct (proc_step ms s up down) as [[[??]?]|].
Qed.

Lemma network_run_steps {A B} fuel (x : network N E A B) :
  rtc (network_step ms mr) x (network_run ms mr fuel x).
Proof.
  revert x. induction fuel as [|fuel IH]; intros x; simpl; [done|].
  destruct (network_next ms mr x) as [y|] eqn:Hn; [|done]. eapply rtc_l; [|apply IH].
  destruct x as [s r down up]. unfold network_next in Hn; simpl in Hn.
  destruct (proc_step ms s up down) as [[[??]?]|] eqn:Hs; [simplify_eq; by apply step_sender|].
  destruct (proc_step mr r down up) as [[[??]?]|] eqn:Hr; simplify_eq. by apply step_receiver.
Qed.

(** ** Handing over one object *)

(** A process that sends, or receives, the messages [l] and returns [a]. *)
Inductive emits {A} : proc N E A → list (MPIMessage N E) → A → Prop :=
  | emits_ret a : emits (Ret a) [] a
  | emits_send msg k l a : emits k l a → emits (Send msg k) (msg :: l) a.
Inductive consumes {A} : proc N E A → list (MPIMessage N E) → A → Prop :=
  | consumes_ret a : consumes (Ret a) [] a
  | consumes_receive tag k msg l a :
      MPIMessage_tag msg = tag → sendable msg → consumes (k msg) l a →
      consumes (Receive tag k) (msg :: l) a.

Lemma emits_bind {A B} (p : proc N E A) (f : A → proc N E B) l l' a b :
  emits p l a → emits (f a) l' b → emits (proc_bind p f) (l ++ l') b.
Proof. induction 1; intros ?; simpl; [done|constructor; auto]. Qed.

Lemma consumes_bind {A B} (p : proc N E A) (f : A → proc N E B) l l' a b :
  consumes p l a → consumes (f a) l' b → consumes (proc_bind p f) (l ++ l') b.
Proof. induction 1; intros ?; simpl; [done|constructor; auto]. Qed.

(** [K] is what surrounds the part of a process that runs next. *)
Lemma run_emits {A B C} (K : proc N E A → proc N E B) p l a (r : proc N E C) down up :
  (∀ msg k, K (Send msg k) = Send msg (K k)) → emits p l a →
  nsteps (network_step ms mr) (length l) (mkNetwork (K p) r down up)
    (mkNetwork (K (Ret a)) r (send_messages ms l down) up).
Proof.
  intros HK Hp. revert down. induction Hp as [a|msg k l a _ IH]; intros down; [constructor|].
  rewrite HK. eapply nsteps_l; [by apply step_sender|]. apply IH.
Qed.

Lemma run_consumes {A B C} (K : proc N E A → proc N E B) p l a (s : proc N E C) up :
  (∀ tag k, K (Receive tag k) = Receive tag (λ msg, K (k msg))) → consumes p l a →
  nsteps (network_step ms mr) (length l) (mkNetwork s (K p) (send_messages ms l conn_new) up)
    (mkNetwork s (K (Ret a)) conn_new up).
Proof.
  intros HK Hp. induction Hp as [a|tag k msg l a <- Hm _ IH]; [constructor|].
  rewrite HK. eapply nsteps_l; [|apply IH]. apply step_receiver. cbn [proc_step].
  by rewrite receive_first.
Qed.

(** The messages that carry one object. *)
Definition object_messages (h : RelRcHash) (data : DetachedInnerData N E) : list (MPIMessage N E) :=
  [RelRc h; NodeWeight (dd_value data); IncomingEdge (dd_incoming data).*1] ++
  (EdgeWeight <$> (dd_incoming data).*2).

Lemma mpi_send_emits h data : emits (mpi_send h data) (object_messages h data) tt.
Proof.
  unfold mpi_send, object_messages, MPIMessage_from_relrc, MPIMessage_from_edges. cbn.
  rewrite hash_from_into. rewrite <-list_fmap_compose.
  replace ((λ h, hash_from (mi_source_hash (mkMPIIncomingEdge (hash_into h)))) <$>
    (dd_incoming data).*1) with ((dd_incoming data).*1).
  2: { rewrite <-(list_fmap_id (dd_incoming data).*1) at 1. apply list_fmap_ext.
       intros i x _. symmetry. apply hash_from_into. }
  do 3 constructor. generalize (dd_incoming data).*2 as l.
  induction l; simpl; constructor; auto.
Qed.

Lemma recv_weights_consumes (l : list (RelRcHash * E)) :
  consumes (recv_weights l.*1) (EdgeWeight <$> l.*2) l.
Proof.
  induction l as [|[h e] l IH]; csimpl; constructor; try done.
  rewrite <-(app_nil_r (EdgeWeight <$> l.*2)). eapply consumes_bind; [done|constructor].
Qed.

Lemma mpi_recv_consumes h data : consumes mpi_recv (object_messages h data) (h, data).
Proof.
  unfold mpi_recv, object_messages. cbn. do 3 (constructor; [done..|]).
  rewrite <-(app_nil_r (EdgeWeight <$> _)). eapply consumes_bind; [apply recv_weights_consumes|].
  destruct data. constructor.
Qed.

(** Each message is sent once and received once. *)
Definition object_cost (data : DetachedInnerData N E) : nat := 2 * (3 + length (dd_incoming data)).

(** The sender runs first, then the receiver empties the connection. *)
Lemma run_object {A B} (f : unit → proc N E A) (K : proc N E _ → proc N E B) h data up :
  (∀ tag k, K (Receive tag k) = Receive tag (λ msg, K (k msg))) →
  nsteps (network_step ms mr) (object_cost data)
    (mkNetwork (proc_bind (mpi_send h data) f) (K mpi_recv) conn_new up)
    (mkNetwork (f tt) (K (Ret (h, data))) conn_new up).
Proof.
  intros HK. replace (object_cost data) with
    (length (object_messages h data) + length (object_messages h data)).
  2: { unfold object_cost, object_messages. rewrite length_app, !length_fmap. simpl. lia. }
  eapply nsteps_trans.
  - by eapply (run_emits (λ p, proc_bind p f)), mpi_send_emits.
  - eapply run_consumes, mpi_recv_consumes. done.
Qed.

(** A message from the receiver to the waiting sender. *)
Lemma run_ack {A B} (f : MPIMessage N E → proc N E A) (r : proc N E B) msg :
  sendable msg → MPIMessage_tag msg = TagAck →
  nsteps (network_step ms mr) 2 (mkNetwork (Receive TagAck f) (Send msg r) conn_new conn_new)
    (mkNetwork (f msg) r conn_new conn_new).
Proof.
  intros Hs Ht. eapply nsteps_l; [by apply step_receiver|]. apply nsteps_once, step_sender.
  cbn [proc_step]. rewrite <-Ht.
  change (mpi_send_message mr msg conn_new) with (send_messages mr [msg] conn_new).
  by rewrite (receive_first mr ms msg [] Hs).
Qed.

(** A request for the hash 0 is received as [Done]. *)
Lemma run_zero_request {A B} (f : MPIMessage N E → proc N E A) (r : proc N E B) h :
  hash_into h = 0%Z →
  nsteps (network_step ms mr) 2 (mkNetwork (Receive TagAck f) (Send (RequestRelRc h) r) conn_new conn_new)
    (mkNetwork (f Done) r conn_new conn_new).
Proof.
  intros Hz. eapply nsteps_l; [by apply step_receiver|]. apply nsteps_once, step_sender.
  cbn [proc_step]. rewrite receive_probe, mode_delivers, probe_new. simpl.
  unfold extract_message, MPIMessage_from_ack; simpl. by rewrite Hz.
Qed.
End network_facts.

(** ** What the receiver still needs *)

Section required_hashes.
Context {N E : Type} {H : HashIdSig}.
Implicit Types (dt : Detached N E) (h : RelRcHash).

Lemma elem_of_unique_from {B} `{EqDecision B, Countable B} (x : B) seen l :
  x ∈ unique_from seen l ↔ x ∈ l ∧ x ∉ seen.
Proof.
  revert seen. induction l as [|y l IH]; intros seen; simpl.
  { rewrite elem_of_nil. naive_solver. }
  case_decide; rewrite ?elem_of_cons, IH, ?elem_of_union, ?elem_of_singleton.
  - naive_solver.
  - destruct (decide (x = y)); naive_solver.
Qed.

Lemma btree_contains_key_true {B} h (m : gmap RelRcHash B) :
  btree_contains_key h m = true ↔ is_Some (m !! h).
Proof. unfold btree_contains_key. destruct (m !! h); rewrite ?is_Some_alt; naive_solver. Qed.
Lemma btree_contains_key_false {B} h (m : gmap RelRcHash B) :
  btree_contains_key h m = false ↔ m !! h = None.
Proof. unfold btree_contains_key. destruct (m !! h); naive_solver. Qed.

Lemma elem_of_required_hashes dt h :
  h ∈ Detached_required_hashes dt ↔
  dt_all_data dt !! h = None ∧
  ∃ k data, dt_all_data dt !! k = Some data ∧ h ∈ DetachedInnerData_parents data.
Proof.
  unfold Detached_required_hashes, unique. rewrite elem_of_unique_from, list_elem_of_filter.
  rewrite btree_contains_key_false, list_elem_of_bind. split.
  - intros [[Hn (data & Hh & ([k x] & -> & Hk)%list_elem_of_fmap)] _]. split; [done|].
    unfold btree_iter in Hk. rewrite merge_sort_Permutation, elem_of_map_to_list in Hk. eauto.
  - intros [Hn (k & data & Hk & Hh)]. split; [|set_solver]. split; [done|]. exists data.
    split; [done|]. apply list_elem_of_fmap. exists (k, data). split; [done|].
    unfold btree_iter. by rewrite merge_sort_Permutation, elem_of_map_to_list.
Qed.

Lemma attaches_to_true {B} dt (attach_to : gmap RelRcHash B) :
  Detached_attaches_to dt attach_to = true ↔
  ∀ h, h ∈ Detached_required_hashes dt → is_Some (attach_to !! h).
Proof.
  unfold Detached_attaches_to. rewrite forallb_forall. setoid_rewrite btree_contains_key_true.
  by setoid_rewrite list_elem_of_In.
Qed.

(** While the node cannot be attached there is an object to ask for. *)
Lemma first_unknown_exists {B} dt (attach_to : gmap RelRcHash B) :
  Detached_attaches_to dt attach_to = false →
  ∃ h, first_unknown_hash dt attach_to = Some h ∧ attach_to !! h = None ∧
    h ∈ Detached_required_hashes dt.
Proof.
  intros Ha. unfold first_unknown_hash.
  destruct (find _ _) as [h|] eqn:Hf.
  - apply find_some in Hf as [Hin Hb]. exists h. split; [done|].
    apply list_elem_of_In in Hin. split; [|done].
    apply btree_contains_key_false. by destruct (btree_contains_key h attach_to).
  - exfalso. assert (Detached_attaches_to dt attach_to = true); [|congruence].
    apply forallb_forall. intros h Hin. apply (find_none _ _ Hf) in Hin.
    by destruct (btree_contains_key h attach_to).
Qed.
End required_hashes.

(** ** The whole exchange *)

(** The description lists all ancestors, as one made for a receiver that has
    nothing does. *)
Record self_contained {N E : Type} {H : HashIdSig} (dt : Detached N E) : Prop := {
  sc_current : is_Some (dt_all_data dt !! dt_current dt);
  sc_parents h data h' : dt_all_data dt !! h = Some data →
    h' ∈ DetachedInnerData_parents data → is_Some (dt_all_data dt !! h');
}.

(** The receiver asks for the parents of what it has got that it does not have. *)
Definition needs {N E B : Type} {H : HashIdSig} (dt : Detached N E) (attach_to : gmap RelRcHash B) :
    relation RelRcHash :=
  λ h h', ∃ data, dt_all_data dt !! h = Some data ∧ h' ∈ DetachedInnerData_parents data ∧
    attach_to !! h' = None.

(** What the receiver has got of [dt]: the node itself and otherwise only what
    it does not have. *)
Record received {N E B : Type} {H : HashIdSig} (dt : Detached N E) (attach_to : gmap RelRcHash B)
    (rc : Detached N E) : Prop := {
  rcv_current : dt_current rc = dt_current dt;
  rcv_subset : dt_all_data rc ⊆ dt_all_data dt;
  rcv_start : is_Some (dt_all_data rc !! dt_current dt);
  rcv_unknown h : is_Some (dt_all_data rc !! h) → h ≠ dt_current dt → attach_to !! h = None;
}.

Section exchange.
Context {N E B : Type} {H : HashIdSig} {HLaws : HashIdLaws H} {M : MPISig} {MLaws : MPILaws M}.
Context (ms mr : MPIMode) (dt : Detached N E) (attach_to : gmap RelRcHash B).
Hypothesis Hsc : self_contained dt.

(** The first object arrives. *)
Lemma received_first data :
  dt_all_data dt !! dt_current dt = Some data →
  received dt attach_to (insert_received None (dt_current dt, data)).
Proof.
  intros Hd. split; simpl; [done|by apply insert_subseteq_l, map_empty_subseteq| |].
  - rewrite lookup_insert_eq. eauto.
  - intros h [<-|[_ [? ?]]]%lookup_insert_is_Some Hne; done.
Qed.

(** A requested object arrives. *)
Lemma received_next rc h data :
  received dt attach_to rc → dt_all_data dt !! h = Some data → attach_to !! h = None →
  received dt attach_to (insert_received (Some rc) (h, data)).
Proof.
  intros [Hc Hs H0 Hu] Hd Ha. split; simpl; [done|by apply insert_subseteq_l| |].
  - by apply lookup_insert_is_Some'; right.
  - intros k [<-|[_ ?]]%lookup_insert_is_Some Hne; [done|by apply Hu].
Qed.

Lemma received_size rc : received dt attach_to rc → size (dt_all_data rc) ≤ size (dt_all_data dt).
Proof. intros Hr. apply map_subseteq_size, Hr. Qed.

(** What is missing can be supplied. *)
Lemma required_supplied rc h :
  received dt attach_to rc → h ∈ Detached_required_hashes rc →
  dt_all_data rc !! h = None ∧ h ≠ dt_current dt ∧ is_Some (dt_all_data dt !! h).
Proof.
  intros [Hc Hs H0 Hu] [Hn (k & data & Hk & Hh)]%elem_of_required_hashes.
  split_and!; [done| |].
  - intros ->. destruct H0. congruence.
  - eapply (sc_parents _ Hsc); [|done]. by eapply lookup_weaken.
Qed.

Definition finish (detached : option (Detached N E)) : proc N E (Detached N E) :=
  proc_bind (send Done)
    (λ _, lift (expect "called `Option::unwrap()` on a `None` value" detached)).

Definition finished (rc : Detached N E) : network N E unit (Detached N E) :=
  mkNetwork (Ret tt) (Ret rc) conn_new conn_new.

(** Every object costs its messages and one acknowledgement. *)
Definition transfer_cost (m : gmap RelRcHash (DetachedInnerData N E)) : nat :=
  sum_list_with (λ hd, 2 + object_cost hd.2) (map_to_list m).

Lemma transfer_cost_insert h data m :
  m !! h = None → transfer_cost (<[h := data]> m) = 2 + object_cost data + transfer_cost m.
Proof. intros Hh. unfold transfer_cost. by rewrite map_to_list_insert. Qed.

Lemma transfer_cost_sum m :
  transfer_cost m = sum_list_with (λ hd, 8 + 2 * length (dd_incoming hd.2)) (map_to_list m).
Proof.
  unfold transfer_cost, object_cost. induction (map_to_list m) as [|hd l IH]; [done|].
  cbn [sum_list_with]. rewrite IH. lia.
Qed.

Lemma transfer_cost_empty : transfer_cost ∅ = 0.
Proof. unfold transfer_cost. by rewrite map_to_list_empty. Qed.

Lemma transfer_cost_mono m m' : m ⊆ m' → transfer_cost m ≤ transfer_cost m'.
Proof.
  intros [k Hk]%map_to_list_submseteq%submseteq_Permutation. unfold transfer_cost.
  rewrite Hk, sum_list_with_app. lia.
Qed.

(** Everything that was asked for was needed, and none of it had the hash 0. *)
Definition fetched (rc : Detached N E) : Prop :=
  ∀ h, is_Some (dt_all_data rc !! h) → h ≠ dt_current dt →
    hash_into h ≠ 0%Z ∧ rtc (needs dt attach_to) (dt_current dt) h.

Lemma fetched_needed rc h :
  received dt attach_to rc → fetched rc → h ∈ Detached_required_hashes rc → attach_to !! h = None →
  rtc (needs dt attach_to) (dt_current dt) h.
Proof.
  intros Hr Hf [_ (k & data & Hk & Hh)]%elem_of_required_hashes Hnone. apply (rtc_r _ k).
  - destruct (decide (k = dt_current dt)) as [->|Hne]; [done|]. by apply Hf; eauto.
  - exists data. split_and!; [by eapply lookup_weaken, Hr|done..].
Qed.

Lemma fetched_next rc h data :
  fetched rc → hash_into h ≠ 0%Z → rtc (needs dt attach_to) (dt_current dt) h →
  fetched (insert_received (Some rc) (h, data)).
Proof.
  intros Hf Hz Hn k Hk Hne. simpl in Hk. apply lookup_insert_is_Some in Hk as [<-|[_ Hk]]; [done|by apply Hf].
Qed.

(** Once nothing is missing, all that was needed has been fetched. *)
Lemma fetched_all rc h :
  received dt attach_to rc → Detached_attaches_to rc attach_to = true →
  rtc (needs dt attach_to) (dt_current dt) h → is_Some (dt_all_data rc !! h).
Proof.
  intros Hr Ha Hh. rewrite attaches_to_true in Ha.
  refine (rtc_ind_r (λ h, is_Some (dt_all_data rc !! h)) _ _ _ h Hh); [apply Hr|].
  clear h Hh. intros h h' _ (data & Hdata & Hin & Hnone) [data' Hrc].
  pose proof (lookup_weaken _ _ _ _ Hrc (rcv_subset _ _ _ Hr)). simplify_eq.
  destruct (dt_all_data rc !! h') eqn:Hh'; [by eauto|]. destruct (Ha h') as [? ?]; [|congruence].
  apply elem_of_required_hashes. eauto.
Qed.

(** The sender has returned and the receiver waits for an object. *)
Definition stalled (c : network N E unit (Detached N E)) : Prop :=
  nw_sender c = Ret tt ∧ waiting_for (nw_receiver c) = Some TagRelRc ∧
  nw_down c = conn_new ∧ nw_up c = conn_new.

(** How an exchange ends: the receiver has what it needs, or has asked for the hash 0. *)
Definition exchanged (rc : Detached N E) (c : network N E unit (Detached N E)) : Prop :=
  received dt attach_to rc ∧ fetched rc ∧
  ((Detached_attaches_to rc attach_to = true ∧ c = finished rc) ∨
   (stalled c ∧ ∃ h, rtc (needs dt attach_to) (dt_current dt) h ∧ h ≠ dt_current dt ∧ hash_into h = 0%Z)).

Lemma run_exchange fs fr rc :
  received dt attach_to rc → fetched rc →
  size (dt_all_data dt) < size (dt_all_data rc) + fs →
  size (dt_all_data dt) ≤ size (dt_all_data rc) + fr →
  ∃ rc' n c, exchanged rc' c ∧
    n + transfer_cost (dt_all_data rc) = transfer_cost (dt_all_data rc') + 2 ∧
    nsteps (network_step ms mr) n
      (mkNetwork (send_loop fs dt) (proc_bind (recv_loop fr attach_to (Some rc)) finish)
        conn_new conn_new) c.
Proof.
  revert fs rc. induction fr as [|fr IH]; intros fs rc Hr Hf Hfs Hfr;
    (destruct fs as [|fs]; [pose proof (received_size rc Hr); lia|]);
    cbn [recv_loop ready]; destruct (Detached_attaches_to rc attach_to) eqn:Ha.
  1,3: exists rc, 2, (finished rc); split_and!; [by split_and!; auto|lia|]; cbn [proc_bind finish send send_loop receive];
    (eapply (nsteps_trans 2 0); [by apply run_ack|constructor]).
  all: destruct (first_unknown_exists rc attach_to Ha) as (h & Hh & Hnone & Hin);
    destruct (required_supplied rc h Hr Hin) as (Hrc & Hne & [data Hdata]).
  - exfalso. assert (dt_all_data rc = dt_all_data dt) as Heq; [|congruence].
    apply map_subseteq_size_eq; [apply Hr|lia].
  - pose proof (fetched_needed rc h Hr Hf Hin Hnone) as Hneed.
    rewrite Hh. cbn [expect lift proc_bind send send_loop receive].
    destruct (decide (hash_into h = 0%Z)) as [Hz|Hz].
    { eexists rc, 2, _. split_and!; [|lia|by apply run_zero_request]. split_and!; [done..|]. right. split; [done|by exists h]. }
    destruct (IH fs (insert_received (Some rc) (h, data))) as (rc' & n & c & Hex & Hcost & Hrun).
    + by apply received_next.
    + by apply fetched_next.
    + simpl. rewrite map_size_insert_None by done. lia.
    + simpl. rewrite map_size_insert_None by done. lia.
    + exists rc', (2 + (object_cost data + n)), c. split_and!; [done..| |].
      { simpl in Hcost. rewrite transfer_cost_insert in Hcost by done. lia. }
      eapply nsteps_trans; [by apply run_ack|].
      unfold all_data_index. rewrite Hdata. cbn [expect lift proc_bind].
      eapply nsteps_trans; [|exact Hrun].
      by apply (run_object ms mr (λ _, send_loop fs dt) (λ p, proc_bind
        (proc_bind p (λ r, recv_loop fr attach_to (Some (insert_received (Some rc) r)))) finish)).
Qed.

Definition transfer_start fs fr : network N E unit (Detached N E) :=
  mkNetwork (send_detached fs dt) (recv_detached fr attach_to) conn_new conn_new.

Lemma run_transfer fs fr :
  size (dt_all_data dt) ≤ fs → size (dt_all_data dt) ≤ fr →
  ∃ rc c, exchanged rc c ∧
    nsteps (network_step ms mr) (transfer_cost (dt_all_data rc)) (transfer_start fs fr) c.
Proof.
  intros Hfs Hfr. destruct (sc_current _ Hsc) as [data Hd].
  assert (0 < size (dt_all_data dt)) as Hpos.
  { apply Nat.neq_0_lt_0. intros Hz%map_size_empty_inv. by rewrite Hz in Hd. }
  destruct fr as [|fr]; [lia|].
  destruct (run_exchange fs fr (insert_received None (dt_current dt, data))) as (rc & n & c & ? & Hcost & Hrun).
  - by apply received_first.
  - intros h Hh Hne. simpl in Hh. by apply lookup_insert_is_Some in Hh as [<-|[_ [? ?]]].
  - simpl. rewrite map_size_insert_None by done. lia.
  - simpl. rewrite map_size_insert_None by done. lia.
  - exists rc, c. split; [done|]. simpl in Hcost. rewrite transfer_cost_insert in Hcost by done.
    replace (transfer_cost (dt_all_data rc)) with (object_cost data + n)
      by (rewrite transfer_cost_empty in Hcost; lia).
    eapply nsteps_trans; [|exact Hrun].
    unfold transfer_start, send_detached, all_data_index. rewrite Hd. cbn [expect lift proc_bind].
    unfold recv_detached. cbn [recv_loop ready proc_bind].
    by apply (run_object ms mr (λ _, send_loop fs dt) (λ p, proc_bind
      (proc_bind p (λ r, recv_loop fr attach_to (Some (insert_received None r)))) finish)).
Qed.

Lemma exchanged_stuck rc c : exchanged rc c → ∀ x, ¬ network_step ms mr c x.
Proof.
  intros (_ & _ & [[_ ->]|[(Hs & Hr & Hd & Hu) _]]); apply network_next_None; [done|].
  destruct c as [s r down up]; simpl in *; subst. unfold network_next; simpl.
  destruct r; simpl in Hr; simplify_eq. simpl. by rewrite receive_probe, probe_new.
Qed.

(** Which of the two it is. *)
Lemma exchanged_complete rc c :
  exchanged rc c → (∀ h, rtc (needs dt attach_to) (dt_current dt) h → h ≠ dt_current dt → hash_into h ≠ 0%Z) →
  Detached_attaches_to rc attach_to = true ∧ c = finished rc.
Proof. intros (_ & _ & [?|[_ (h & Hh & Hne & Hz)]]) Hnz; [done|]. by destruct (Hnz h Hh Hne). Qed.

Lemma exchanged_stalled rc c h :
  exchanged rc c → rtc (needs dt attach_to) (dt_current dt) h → h ≠ dt_current dt → hash_into h = 0%Z →
  stalled c.
Proof.
  intros (Hr & Hf & [[Ha _]|[? _]]) Hh Hne Hz; [|done]. exfalso.
  by destruct (Hf h (fetched_all rc h Hr Ha Hh) Hne).
Qed.

(** Needed objects are described. *)
Lemma needed_described h : rtc (needs dt attach_to) (dt_current dt) h → is_Some (dt_all_data dt !! h).
Proof.
  intros Hh. refine (rtc_ind_r (λ h, is_Some (dt_all_data dt !! h)) _ _ _ h Hh); [apply Hsc|].
  intros k k' _ (data & Hdata & Hin & _) _. by eapply (sc_parents _ Hsc).
Qed.
End exchange.
