(* ===== verification/AttachFacts.v ===== *)
(** * [RelRc::attach] builds what was described

    The described objects are created in the order of the traversal.  If every
    object comes after its parents in that order, the result is a node with the
    described history on top of the given nodes; otherwise the first object that
    comes too early makes the call panic. *)

From S2P Require Import Prelude Slotmap Store StoreFacts Rc Registry Drop DropFacts Edge Node NodeFacts Messages Detached DetachedFacts PostOrder Attach TransferFacts.

Section attach_facts.
Context {N E : Type} {S : SlotMapSig} {SLaws : SlotMapLaws S} {A : Allocator} {H : HashIdSig}.
Implicit Types (st : store N E) (a m : gmap RelRcHash addr) (h v : RelRcHash) (p q : addr).
Implicit Types (dt : Detached N E) (ow : list ref) (l : list RelRcHash).

(** ** Maps of owned nodes *)

Lemma map_owners_insert m h p :
  m !! h = None → map_owners (<[h:=p]> m) ≡ₚ NodeStrong p :: map_owners m.
Proof. intros Hh. unfold map_owners. by rewrite !btree_iter_perm, map_to_list_insert. Qed.

Lemma map_owners_delete m h p :
  m !! h = Some p → map_owners m ≡ₚ NodeStrong p :: map_owners (delete h m).
Proof.
  intros Hh. rewrite <-(insert_delete_id m h p Hh) at 1. apply map_owners_insert, lookup_delete_eq.
Qed.

Lemma elem_of_map_owners m h p : m !! h = Some p → NodeStrong p ∈ map_owners m.
Proof.
  intros Hh. apply list_elem_of_fmap. exists p. split; [done|]. apply list_elem_of_fmap.
  exists (h, p). by rewrite elem_of_btree_iter.
Qed.

(** ** Finding the parents *)

(** The node that stands for a hash: the new one, or the given one. *)
Definition located a m h : option addr :=
  match m !! h with Some p => Some p | None => a !! h end.

Definition same_edge a m (pe : addr * E) (he : RelRcHash * E) : Prop :=
  located a m he.1 = Some pe.1 ∧ pe.2 = he.2.

Definition parent_known a m (he : RelRcHash * E) : Prop := is_Some (located a m he.1).

Lemma attach_parent_ok a m h e p st ow acc :
  wf st (parent_owners acc ++ ow) → map_owners m ⊆ ow → map_owners a ⊆ ow →
  located a m h = Some p →
  ∃ st', attach_parent a m (acc, st) (h, e) = Ok (acc ++ [(p, e)], st') ∧
    wf st' (parent_owners (acc ++ [(p, e)]) ++ ow) ∧ same_views st st'.
Proof.
  intros Hw Hm Ha Hp. assert (NodeStrong p ∈ ow) as Ho.
  { unfold located in Hp. destruct (m !! h) eqn:Hh; simplify_eq;
      [apply Hm|apply Ha]; by eapply elem_of_map_owners. }
  destruct (owner_live _ _ p Hw) as [d Hd]; [apply elem_of_app; by right|].
  destruct (rc_clone_wf _ _ p d Hw Hd) as (st' & Hcl & Hw' & Hv). exists st'.
  unfold attach_parent. cbn [fst snd]. fold (located a m h). rewrite Hp. simpl.
  unfold RelRc_clone. rewrite Hcl. split_and!; [done| |done].
  unfold parent_owners. rewrite fmap_app. simpl. rewrite <-(assoc_L (++)). simpl.
  by rewrite <-Permutation_middle.
Qed.

Lemma attach_parents_ok a m incoming st ow acc :
  wf st (parent_owners acc ++ ow) → map_owners m ⊆ ow → map_owners a ⊆ ow →
  Forall (parent_known a m) incoming →
  ∃ parents st', foldM (attach_parent a m) (acc, st) incoming = Ok (acc ++ parents, st') ∧
    wf st' (parent_owners (acc ++ parents) ++ ow) ∧ same_views st st' ∧
    Forall2 (same_edge a m) parents incoming.
Proof.
  intros Hw Hm Ha. revert st acc Hw. induction incoming as [|[h e] l IH]; intros st acc Hw Hk.
  { exists [], st. rewrite app_nil_r. by split_and!. }
  apply Forall_cons in Hk as [[p Hp] Hk].
  destruct (attach_parent_ok a m h e p st ow acc Hw Hm Ha Hp) as (st1 & Hst1 & Hw1 & Hv1).
  destruct (IH st1 _ Hw1 Hk) as (parents & st' & Heq & Hw' & Hv' & Hall).
  exists ((p, e) :: parents), st'. cbn [foldM]. rewrite Hst1. cbn [rbind].
  rewrite Heq, <-(assoc_L (++)). rewrite <-(assoc_L (++)) in Hw'.
  split_and!; [done|done|by etrans|by constructor].
Qed.

Lemma attach_parents_panic a m incoming st ow acc :
  wf st (parent_owners acc ++ ow) → map_owners m ⊆ ow → map_owners a ⊆ ow →
  ¬ Forall (parent_known a m) incoming →
  foldM (attach_parent a m) (acc, st) incoming =
    Err (Panic "called `Option::unwrap()` on a `None` value").
Proof.
  intros Hw Hm Ha. revert st acc Hw. induction incoming as [|[h e] l IH]; intros st acc Hw Hk.
  { by destruct Hk. }
  cbn [foldM]. destruct (located a m h) as [p|] eqn:Hp.
  - destruct (attach_parent_ok a m h e p st ow acc Hw Hm Ha Hp) as (st1 & -> & Hw1 & _).
    apply IH; [done|]. intros Hl. apply Hk. constructor; [by exists p|done].
  - unfold attach_parent at 1. cbn [fst snd]. fold (located a m h). by rewrite Hp.
Qed.

(** ** Creating the objects *)

(** Every object of [l] comes after its parents, except for those [known]. *)
Definition described_parents dt v : list RelRcHash :=
  from_option DetachedInnerData_parents [] (dt_all_data dt !! v).
Fixpoint parents_first dt (known : gset RelRcHash) l : bool :=
  match l with
  | [] => true
  | v :: l => bool_decide (Forall (.∈ known) (described_parents dt v)) &&
      parents_first dt ({[v]} ∪ known) l
  end.

(** The node [q] is what [data] describes, on top of the nodes of [a] and [m]. *)
Definition built a m st (data : DetachedInnerData N E) q : Prop :=
  ∃ edges, node_view st q = Some (dd_value data, edges, None) ∧
    Forall2 (same_edge a m) ((λ e, (ie_source e, ie_value e)) <$> edges) (dd_incoming data).

(** The objects of [m] have been created since [st0]. *)
Record attach_inv dt a st0 ow m st : Prop := {
  ai_wf : wf st (map_owners m ++ map_owners a ++ ow);
  ai_new h q : m !! h = Some q → node st0 q = None ∧
    ∃ data, dt_all_data dt !! h = Some data ∧ built a m st data q;
  ai_inj h h' q : m !! h = Some q → m !! h' = Some q → h = h';
  ai_old q : is_Some (node st0 q) → node_view st q = node_view st0 q;
  ai_regs g : registry_at st g = registry_at st0 g;
}.

Lemma located_known a m h : is_Some (located a m h) ↔ h ∈ dom m ∪ dom a.
Proof.
  unfold located. rewrite elem_of_union, !elem_of_dom.
  destruct (m !! h); [naive_solver|]. split; [by right|]. intros [[? ?]|?]; done.
Qed.

Lemma parent_known_Forall dt a m v data :
  dt_all_data dt !! v = Some data →
  Forall (parent_known a m) (dd_incoming data) ↔ Forall (.∈ dom m ∪ dom a) (described_parents dt v).
Proof.
  intros Hv. unfold described_parents, DetachedInnerData_parents. rewrite Hv. simpl.
  rewrite Forall_fmap. apply Forall_iff. intros he. apply located_known.
Qed.

(** Edges stay where they are when another object is created. *)
Lemma same_edge_insert a m v p pe he :
  m !! v = None → a !! v = None → same_edge a m pe he → same_edge a (<[v:=p]> m) pe he.
Proof.
  intros Hm Ha [Hl ?]. split; [|done]. unfold located in *. rewrite lookup_insert.
  case_decide; [|done]. subst. rewrite Hm in Hl. congruence.
Qed.

Lemma built_insert a m v p st st' data q :
  m !! v = None → a !! v = None → node_view st' q = node_view st q →
  built a m st data q → built a (<[v:=p]> m) st' data q.
Proof.
  intros Hm Ha Hq (edges & He & Hall). exists edges. split; [by rewrite Hq|].
  eapply Forall2_impl; [done|]. intros pe he. by apply same_edge_insert.
Qed.

Lemma attach_inv_insert dt a st0 ow m st st' v data p parents :
  attach_inv dt a st0 ow m st → m !! v = None → a !! v = None → dt_all_data dt !! v = Some data →
  wf st' (NodeStrong p :: map_owners m ++ map_owners a ++ ow) → node st p = None →
  (∀ q, node_view st' q = if decide (q = p)
     then Some (dd_value data, new_incoming p parents, None) else node_view st q) →
  (∀ g, registry_at st' g = registry_at st g) → Forall2 (same_edge a m) parents (dd_incoming data) →
  attach_inv dt a st0 ow (<[v:=p]> m) st'.
Proof.
  intros Hinv Hm Ha Hv Hw' Hp Hn HR Hall.
  assert (∀ h q, m !! h = Some q → q ≠ p) as Hne.
  { intros h q Hh ->. destruct (ai_new _ _ _ _ _ _ Hinv h p Hh) as (_ & dta & _ & edges & He & _).
    unfold node_view in He. by rewrite Hp in He. }
  assert (node st0 p = None) as Hp0.
  { destruct (node st0 p) eqn:Hd; [|done]. pose proof (ai_old _ _ _ _ _ _ Hinv p ltac:(by rewrite Hd)) as He.
    unfold node_view in He. by rewrite Hp, Hd in He. }
  split.
  - by rewrite map_owners_insert.
  - intros h q. rewrite lookup_insert. case_decide as Hh.
    + intros [= <-]. split; [done|]. exists data. subst h. split; [done|].
      exists (new_incoming p parents). rewrite Hn, decide_True by done. split; [done|].
      rewrite new_incoming_pairs. eapply Forall2_impl; [done|]. intros pe he. by apply same_edge_insert.
    + intros Hq. destruct (ai_new _ _ _ _ _ _ Hinv h q Hq) as (? & dta & ? & Hb). split; [done|].
      exists dta. split; [done|]. eapply built_insert; [done..| |done]. rewrite Hn, decide_False by eauto. done.
  - intros h h' q. rewrite !lookup_insert.
    repeat case_decide; subst; try congruence; try (intros; simplify_eq; exfalso; by eapply Hne).
    apply Hinv.
  - intros q Hq. rewrite Hn. case_decide; [subst; rewrite Hp0 in Hq; by destruct Hq|]. by apply Hinv.
  - intros g. rewrite HR. apply Hinv.
Qed.

(** One object: it is created if its parents are there, and a panic otherwise. *)
Lemma attach_node_spec dt a st0 ow m st v data :
  attach_inv dt a st0 ow m st → m !! v = None → a !! v = None → dt_all_data dt !! v = Some data →
  (Forall (.∈ dom m ∪ dom a) (described_parents dt v) ∧
   ∃ p st', attach_node dt a v (m, st) = Ok (<[v:=p]> m, st') ∧ attach_inv dt a st0 ow (<[v:=p]> m) st') ∨
  (¬ Forall (.∈ dom m ∪ dom a) (described_parents dt v) ∧
   attach_node dt a v (m, st) = Err (Panic "called `Option::unwrap()` on a `None` value")).
Proof.
  intros Hinv Hm Ha Hv. pose proof (parent_known_Forall dt a m v data Hv) as Hkn.
  unfold attach_node. rewrite Hv. cbn [unwrap expect rbind fst snd].
  pose proof (ai_wf _ _ _ _ _ _ Hinv) as Hw.
  destruct (decide (Forall (.∈ dom m ∪ dom a) (described_parents dt v))) as [Hk|Hk];
    pose proof Hk as Hk'; rewrite <-Hkn in Hk'.
  - left. split; [done|].
    destruct (attach_parents_ok a m (dd_incoming data) st _ [] Hw) as (parents & st1 & -> & Hw1 & [Hn1 HR1] & Hall);
      [set_solver|set_solver|done|]. cbn [rbind fst snd app] in *.
    destruct (with_parents_view _ _ (dd_value data) parents Hw1) as (p & st2 & -> & Hw2 & Hf & Hn & HR).
    cbn [rbind fst snd]. rewrite Hm. simpl. rewrite drop_refs_nil. exists p, st2. split; [done|].
    eapply attach_inv_insert; [done..| | | |done].
    + rewrite <-Hn1. unfold node. by rewrite Hf.
    + intros q. rewrite Hn. unfold node_view. by rewrite Hn1.
    + intros g. by rewrite HR, HR1.
  - right. split; [done|].
    rewrite (attach_parents_panic a m (dd_incoming data) st _ [] Hw); [done|set_solver|set_solver|done].
Qed.

Lemma attach_nodes_spec dt a st0 ow l m st :
  attach_inv dt a st0 ow m st → NoDup l →
  (∀ v, v ∈ l → m !! v = None ∧ a !! v = None ∧ is_Some (dt_all_data dt !! v)) →
  (parents_first dt (dom m ∪ dom a) l = true ∧
   ∃ m' st', foldM (λ s v, attach_node dt a v s) (m, st) l = Ok (m', st') ∧
     attach_inv dt a st0 ow m' st' ∧ ∀ h, is_Some (m' !! h) ↔ is_Some (m !! h) ∨ h ∈ l) ∨
  (parents_first dt (dom m ∪ dom a) l = false ∧
   foldM (λ s v, attach_node dt a v s) (m, st) l =
     Err (Panic "called `Option::unwrap()` on a `None` value")).
Proof.
  revert m st. induction l as [|v l IH]; intros m st Hinv Hnd Hl.
  { left. split; [done|]. exists m, st. split_and!; [done..|]. set_solver. }
  apply NoDup_cons in Hnd as [Hvl Hnd].
  destruct (Hl v ltac:(left)) as (Hm & Ha & [data Hv]). cbn [foldM parents_first].
  destruct (attach_node_spec dt a st0 ow m st v data Hinv Hm Ha Hv) as [(Hk & p & st1 & -> & Hinv1)|[Hk ->]].
  2: { right. by rewrite bool_decide_false. }
  rewrite bool_decide_true by done. cbn [andb rbind].
  replace ({[v]} ∪ (dom m ∪ dom a)) with (dom (<[v:=p]> m) ∪ dom a)
    by (rewrite dom_insert_L; set_solver).
  destruct (IH _ st1 Hinv1 Hnd) as [(Hpf & m' & st' & Heq & Hinv' & Hdom)|?]; [|left|by right].
  { intros u Hu. rewrite lookup_insert_ne by set_solver. apply Hl. by right. }
  split; [done|]. exists m', st'. split_and!; [done..|]. intros h. rewrite Hdom, lookup_insert, elem_of_cons.
  case_decide; subst; [split; eauto|]. naive_solver.
Qed.

(** ** The traversal *)

Definition attach_visit a id : bool := negb (btree_contains_key id a).
Definition attach_edge dt a : relation RelRcHash := dfs_edge (attach_successors dt) (attach_visit a).

Lemma attach_edge_iff dt a v u :
  attach_edge dt a v u ↔ u ∈ described_parents dt v ∧ a !! u = None.
Proof.
  unfold attach_edge, dfs_edge, attach_successors, attach_visit, described_parents.
  setoid_rewrite negb_true_iff. setoid_rewrite btree_contains_key_false.
  destruct (dt_all_data dt !! v) as [data|]; simpl.
  - naive_solver.
  - rewrite elem_of_nil. naive_solver.
Qed.

(** The order in which the objects are created. *)
Definition attach_order dt a : result (list RelRcHash) :=
  post_order_for_each (λ v out, Ok (out ++ [v])) (attach_successors dt) (attach_visit a)
    (2 + 2 * size (dt_all_data dt)) (dt_current dt) [].

Lemma foldM_collect l out : foldM (λ out v, Ok (out ++ [v])) out l = Ok (out ++ l).
Proof.
  revert out. induction l as [|v l IH]; intros out; cbn [foldM rbind]; [by rewrite app_nil_r|].
  by rewrite IH, <-(assoc_L (++)).
Qed.

(** Everything that is needed is described or given, and no object is its own
    ancestor. *)
Record attachable dt a : Prop := {
  at_current : a !! dt_current dt = None;
  at_start : is_Some (dt_all_data dt !! dt_current dt);
  at_required : Detached_attaches_to dt a = true;
  at_acyclic v : ¬ tc (attach_edge dt a) v v;
}.

Lemma attach_reached dt a v :
  attachable dt a → rtc (attach_edge dt a) (dt_current dt) v →
  is_Some (dt_all_data dt !! v) ∧ a !! v = None.
Proof.
  intros Hat Hv. refine (rtc_ind_r (λ v, is_Some (dt_all_data dt !! v) ∧ a !! v = None) _ _ _ v Hv).
  { split; apply Hat. }
  intros x u _ [Hu Ha]%attach_edge_iff [[data Hx] _]. split; [|done].
  destruct (dt_all_data dt !! u) eqn:Hd; [done|].
  destruct (proj1 (attaches_to_true dt a) (at_required _ _ Hat) u) as [q Hq]; [|congruence].
  apply elem_of_required_hashes. split; [done|]. exists x, data. split; [done|].
  unfold described_parents in Hu. by rewrite Hx in Hu.
Qed.

Lemma attach_order_spec dt a :
  attachable dt a →
  ∃ l, attach_order dt a = Ok l ∧ NoDup l ∧ last l = Some (dt_current dt) ∧
    (∀ v, v ∈ l ↔ rtc (attach_edge dt a) (dt_current dt) v) ∧
    (dfs_forest (attach_successors dt) (attach_visit a) (dt_current dt) →
       ∀ v u, v ∈ l → attach_edge dt a v u → [u; v] `sublist_of` l) ∧
    ∀ s, post_order_for_each (attach_node dt a) (attach_successors dt) (attach_visit a)
        (2 + 2 * size (dt_all_data dt)) (dt_current dt) s = foldM (λ s v, attach_node dt a v s) s l.
Proof.
  intros Hat.
  destruct (post_order_spec (attach_successors dt) (attach_visit a) (dt_current dt) (dom (dt_all_data dt)))
    with (fuel := 2 + 2 * size (dt_all_data dt)) as (l & Hnd & Hlast & Hel & Hbef & Hrun).
  - intros v Hv. destruct (attach_reached _ _ _ Hat Hv) as [[data Hd] _].
    unfold attach_successors. rewrite Hd. by eexists.
  - apply Hat.
  - intros v Hv. apply elem_of_dom. by eapply attach_reached, tc_rtc.
  - by rewrite size_dom.
  - exists l. split_and!; try done. unfold attach_order. by rewrite Hrun, foldM_collect.
Qed.

Lemma parents_first_intro dt known l1 l2 :
  (∀ k1 v k2, l2 = k1 ++ v :: k2 → ∀ u, u ∈ described_parents dt v → u ∈ known ∨ u ∈ l1 ++ k1) →
  parents_first dt (list_to_set l1 ∪ known) l2 = true.
Proof.
  revert l1. induction l2 as [|v l2 IH]; intros l1 Hl; [done|]. simpl. apply andb_true_intro. split.
  - apply bool_decide_eq_true, Forall_forall. intros u Hu.
    destruct (Hl [] v l2 eq_refl u Hu); set_solver.
  - replace ({[v]} ∪ (list_to_set l1 ∪ known)) with (list_to_set (l1 ++ [v]) ∪ known) by set_solver.
    apply IH. intros k1 x k2 -> u Hu. destruct (Hl (v :: k1) x k2 eq_refl u Hu); set_solver.
Qed.

(** Where no object is the parent of two, the order is right. *)
Lemma attach_order_forest dt a l :
  attachable dt a → dfs_forest (attach_successors dt) (attach_visit a) (dt_current dt) →
  attach_order dt a = Ok l → parents_first dt (dom a) l = true.
Proof.
  intros Hat Hf Hl. destruct (attach_order_spec _ _ Hat) as (l' & Heq & Hnd & _ & _ & Hbef & _).
  assert (l' = l) as -> by congruence. replace (dom a) with (list_to_set [] ∪ dom a : gset _) by set_solver.
  apply parents_first_intro. intros k1 v k2 -> u Hu. destruct (a !! u) eqn:Ha; [left; by apply elem_of_dom|right].
  apply (sublist_before _ k2 _ v Hnd), (Hbef Hf); [set_solver|]. by apply attach_edge_iff.
Qed.

(** ** The whole call *)

(** What [attach] leaves behind: [p] has the described history, made of new
    nodes down to the given ones, and what others hold is as before. *)
Record attached dt a st ow p st' : Prop := {
  att_wf : wf st' (NodeStrong p :: ow);
  att_new : node st p = None;
  att_built : ∃ m, m !! dt_current dt = Some p ∧
    (∀ h, is_Some (m !! h) ↔ rtc (attach_edge dt a) (dt_current dt) h) ∧
    (∀ h h' q, m !! h = Some q → m !! h' = Some q → h = h') ∧
    (∀ h q, m !! h = Some q → node st q = None ∧
       ∃ data, dt_all_data dt !! h = Some data ∧ built a m st' data q);
  att_held q : held_by st ow q → is_Some (node st' q);
  att_old q : is_Some (node st q) → is_Some (node st' q) → node_view st' q = node_view st q;
}.

Lemma node_view_incoming st st' q d :
  node_view st' q = node_view st q → node st q = Some d →
  ∃ d', node st' q = Some d' ∧ nd_incoming d' = nd_incoming d.
Proof.
  unfold node_view. intros Hv Hd. rewrite Hd in Hv. destruct (node st' q) as [d'|]; [|done].
  injection Hv as ? ? ?. by exists d'.
Qed.

(** The new objects are ancestors of the last one. *)
Lemma built_ancestor dt a m st p h q :
  (∀ h q, m !! h = Some q → ∃ data, dt_all_data dt !! h = Some data ∧ built a m st data q) →
  m !! dt_current dt = Some p →
  (∀ h, is_Some (m !! h) ↔ rtc (attach_edge dt a) (dt_current dt) h) →
  m !! h = Some q → ancestor_of st q p.
Proof.
  intros Hb Hp Hdom Hq. assert (rtc (attach_edge dt a) (dt_current dt) h) as Hr by (apply Hdom; by eexists).
  revert q Hq. refine (rtc_ind_r (λ h, ∀ q, m !! h = Some q → ancestor_of st q p) _ _ _ h Hr).
  { intros q Hq. simplify_eq. apply rtc_refl. }
  intros x u Hx Hxu IH q Hq. destruct (proj2 (Hdom x) Hx) as [y Hy]. eapply rtc_l; [|by apply IH].
  destruct (Hb x y Hy) as (data & Hdata & edges & Hv & Hall).
  apply attach_edge_iff in Hxu as [Hu _]. unfold described_parents in Hu. rewrite Hdata in Hu.
  apply list_elem_of_fmap in Hu as ([u' e] & -> & Hin). simpl in *.
  apply list_elem_of_lookup in Hin as [i Hi].
  destruct (Forall2_lookup_r _ _ _ _ _ Hall Hi) as (pe & Hpe & [Hloc _]). simpl in Hloc.
  unfold located in Hloc. rewrite Hq in Hloc. injection Hloc as Hloc.
  rewrite list_lookup_fmap, fmap_Some in Hpe. destruct Hpe as (edge & Hedge & ->).
  unfold node_view in Hv. destruct (node st y) as [dy|] eqn:Hdy; [|done]. injection Hv as _ Hinc _.
  exists dy, edge. split_and!; [done| |done]. rewrite Hinc. by eapply list_elem_of_lookup_2.
Qed.

(** What keeps its incoming edges keeps its ancestors. *)
Lemma held_view st st' ow q :
  (∀ y, held_by st ow y → is_Some (node st y) → node_view st' y = node_view st y) →
  held_by st ow q → held_by st' ow q.
Proof.
  intros Hv (x & Hx & Hqx). exists x. split; [done|].
  refine (rtc_ind_l (λ q, ancestor_of st' q x) x _ _ q Hqx); [apply rtc_refl|].
  intros y z (dz & e & Hz & He & <-) Hzx IH. eapply rtc_l; [|exact IH].
  destruct (node_view_incoming st st' z dz) as (dz' & Hz' & Hinc); [|done|].
  { apply Hv; [by exists x|by rewrite Hz]. }
  exists dz', e. by rewrite Hinc.
Qed.

(** Dropping references that nobody needs for [p] or for [ow]. *)
Lemma attached_drop dt a st ow p (rs : list ref) st2 m :
  wf st2 (rs ++ NodeStrong p :: ow) → m !! dt_current dt = Some p →
  (∀ h, is_Some (m !! h) ↔ rtc (attach_edge dt a) (dt_current dt) h) →
  (∀ h h' q, m !! h = Some q → m !! h' = Some q → h = h') →
  (∀ h q, m !! h = Some q → node st q = None ∧
     ∃ data, dt_all_data dt !! h = Some data ∧ built a m st2 data q) →
  (∀ q, held_by st ow q → is_Some (node st q) ∧ is_Some (node st2 q)) →
  (∀ q, is_Some (node st q) → is_Some (node st2 q) → node_view st2 q = node_view st q) →
  ∃ st', drop_refs rs st2 = Ok st' ∧ attached dt a st ow p st'.
Proof.
  intros Hw2 Hp Hdom Hinj Hnew Hheld Hold.
  destruct (drop_refs_spec st2 rs (NodeStrong p :: ow) Hw2) as (st' & Heq & Hw' & Hd).
  exists st'. split; [done|].
  assert (∀ q, is_Some (node st' q) → node_view st' q = node_view st2 q) as Hkeep.
  { intros q [d Hq]. unfold node_view. by rewrite Hq, (dropped_node _ _ _ _ Hd Hq). }
  assert (∀ q, held_by st2 (NodeStrong p :: ow) q → is_Some (node st' q)) as Hlive.
  { intros q Hq. destruct (held_dropped _ _ _ _ Hw' Hd Hq) as [d ->]. done. }
  split; [done|by apply (Hnew _ _ Hp)| | |].
  - exists m. split_and!; [done..|].
    intros h q Hq. destruct (Hnew h q Hq) as (? & data & ? & edges & Hv & ?).
    split; [done|]. exists data. split; [done|]. exists edges. split; [|done].
    rewrite Hkeep; [done|]. apply Hlive. exists p. split; [left|].
    eapply built_ancestor; [|done..]. apply Hnew.
  - intros q Hq. apply Hlive. eapply held_mono; [|eapply held_view; [|exact Hq]]; [set_solver|].
    intros y Hy _. by apply Hold; apply Hheld.
  - intros q Hq Hq'. rewrite Hkeep by done. apply Hold; [done|]. destruct Hq' as [d Hd'].
    eexists. by eapply dropped_node.
Qed.

Lemma attach_finish dt a st ow m st2 p :
  wf st (map_owners a ++ ow) → attach_inv dt a st ow m st2 → m !! dt_current dt = Some p →
  (∀ h, is_Some (m !! h) ↔ rtc (attach_edge dt a) (dt_current dt) h) →
  ∃ st', drop_refs (map_owners (delete (dt_current dt) m) ++ map_owners a) st2 = Ok st' ∧
    attached dt a st ow p st'.
Proof.
  intros Hw Hinv Hp Hdom.
  assert (∀ q, is_Some (node st q) → is_Some (node st2 q)) as Hlive.
  { intros q [d Hd]. pose proof (ai_old _ _ _ _ _ _ Hinv q ltac:(by rewrite Hd)) as Hv.
    destruct (node_view_incoming _ _ _ _ Hv Hd) as (d' & -> & _). done. }
  apply (attached_drop _ _ _ _ _ _ _ m); [|done|done|apply Hinv..| |].
  - pose proof (ai_wf _ _ _ _ _ _ Hinv) as Hw2. rewrite (map_owners_delete _ _ _ Hp) in Hw2.
    rewrite <-Permutation_middle. by rewrite <-(assoc_L (++)).
  - intros q Hq. destruct (held_live st (map_owners a ++ ow) q Hw) as [d Hd].
    { eapply held_mono; [|exact Hq]. set_solver. }
    assert (is_Some (node st q)) as Hl by (by rewrite Hd). auto.
  - intros q Hq _. by apply Hinv.
Qed.

(** Either all objects are built, or one comes before its parents. *)
Lemma attach_outcome (hash_id : store N E → addr → RelRcHash) dt nodes st ow a :
  wf st (map_owners a ++ ow) → collect_attach_to hash_id nodes st = Ok (a, st) → attachable dt a →
  ∃ l, attach_order dt a = Ok l ∧
    if parents_first dt (dom a) l
    then ∃ p st', RelRc_attach hash_id dt nodes st = Ok (p, st') ∧ attached dt a st ow p st'
    else RelRc_attach hash_id dt nodes st = Err (Panic "called `Option::unwrap()` on a `None` value").
Proof.
  intros Hw Hcol Hat. destruct (attach_order_spec _ _ Hat) as (l & Hl & Hnd & Hlast & Hel & _ & Hrun).
  exists l. split; [done|]. unfold RelRc_attach. rewrite Hcol. cbn [rbind fst snd].
  rewrite (at_current _ _ Hat). fold (attach_visit a). rewrite Hrun.
  destruct (attach_nodes_spec dt a st ow l ∅ st) as [(Hpf & m & st2 & -> & Hinv & Hdom)|[Hpf ->]].
  - split; try done.
  - done.
  - intros v Hv%Hel. destruct (attach_reached _ _ _ Hat Hv). by rewrite lookup_empty.
  - rewrite dom_empty_L, union_empty_l_L in Hpf. rewrite Hpf. cbn [rbind fst snd].
    assert (∀ h, is_Some (m !! h) ↔ rtc (attach_edge dt a) (dt_current dt) h) as Hdom'.
    { intros h. rewrite Hdom, Hel. rewrite lookup_empty. split; [intros [[? ?]|?]; done|by right]. }
    destruct (proj2 (Hdom' (dt_current dt)) ltac:(reflexivity)) as [p Hp]. rewrite Hp. cbn [unwrap expect rbind].
    destruct (attach_finish dt a st ow m st2 p Hw Hinv Hp Hdom') as (st' & -> & Hatt). eauto.
  - rewrite dom_empty_L, union_empty_l_L in Hpf. by rewrite Hpf.
Qed.

(** When the node itself is among the given ones, it is returned, and the others are
    let go. *)
Lemma attach_offered (hash_id : store N E → addr → RelRcHash) dt nodes st ow a p :
  wf st (map_owners a ++ ow) → collect_attach_to hash_id nodes st = Ok (a, st) →
  a !! dt_current dt = Some p →
  ∃ st', RelRc_attach hash_id dt nodes st = Ok (p, st') ∧ wf st' (NodeStrong p :: ow) ∧
    ∀ q d, node st' q = Some d ↔ node st q = Some d ∧ held_by st (NodeStrong p :: ow) q.
Proof.
  intros Hw Hcol Hp. unfold RelRc_attach. rewrite Hcol. cbn [rbind fst snd]. rewrite Hp.
  destruct (owner_live st _ p Hw) as [d Hd].
  { apply elem_of_app. left. apply list_elem_of_fmap. exists p. split; [done|].
    apply list_elem_of_fmap. exists (dt_current dt, p). by rewrite elem_of_btree_iter. }
  destruct (rc_clone_wf st _ p d Hw Hd) as (st1 & Heq & Hw1 & Hv). unfold RelRc_clone. rewrite Heq. cbn [rbind].
  rewrite Permutation_middle in Hw1.
  destruct (drop_refs_spec _ _ _ Hw1) as (st2 & Hdrop & Hw2 & _). rewrite Hdrop. cbn [rbind].
  exists st2. split_and!; [done..|]. intros q dq. rewrite (drop_refs_exact _ _ _ _ q dq Hw1 Hdrop), (proj1 Hv).
  split; intros [? Hh]; (split; [done|]); eapply held_same_views; [|exact Hh| |exact Hh]; [by symmetry|done].
Qed.

(** ** The nodes to attach to *)

Section collect.
Context (hash_id : store N E → addr → RelRcHash).

(** Nodes with different hashes: each is found under its hash. *)
Lemma collect_loop nodes st a0 :
  NoDup (hash_id st <$> nodes) → (∀ n, n ∈ nodes → a0 !! hash_id st n = None) →
  ∃ a, foldM (λ acc n, st' ← drop_refs (NodeStrong <$> option_list (acc.1 !! hash_id acc.2 n)) acc.2;
      Ok (<[hash_id acc.2 n := n]> acc.1, st')) (a0, st) nodes = Ok (a, st) ∧
    map_owners a ≡ₚ map_owners a0 ++ (NodeStrong <$> nodes) ∧
    ∀ h p, a !! h = Some p ↔ a0 !! h = Some p ∨ p ∈ nodes ∧ hash_id st p = h.
Proof.
  revert a0. induction nodes as [|n nodes IH]; intros a0 Hnd Ha0.
  { exists a0. split_and!; [done|by rewrite app_nil_r|]. intros h p. rewrite elem_of_nil. naive_solver. }
  rewrite fmap_cons, NoDup_cons in Hnd. destruct Hnd as [Hn Hnd].
  destruct (IH (<[hash_id st n := n]> a0)) as (a & Heq & Hperm & Ha); [done| |].
  { intros x Hx. rewrite lookup_insert_ne; [apply Ha0; by right|]. intros He. apply Hn. rewrite He.
    by apply (list_elem_of_fmap_2 (hash_id st)). }
  exists a. cbn [foldM fst snd]. rewrite (Ha0 n) by left. simpl. rewrite drop_refs_nil. cbn [rbind].
  split_and!; [done| |].
  - rewrite Hperm, map_owners_insert by (apply Ha0; left). by rewrite <-Permutation_middle.
  - intros h p. rewrite Ha, lookup_insert, elem_of_cons. case_decide as Hh; [|naive_solver].
    subst h. rewrite (Ha0 n) by left. split; [|naive_solver].
    intros [[= <-]|[Hp He]]; [by eauto|]. right. split; [by right|done].
Qed.

Lemma collect_attach_to_spec nodes st :
  NoDup (hash_id st <$> nodes) →
  ∃ a, collect_attach_to hash_id nodes st = Ok (a, st) ∧ map_owners a ≡ₚ NodeStrong <$> nodes ∧
    ∀ h p, a !! h = Some p ↔ p ∈ nodes ∧ hash_id st p = h.
Proof.
  intros Hnd. destruct (collect_loop nodes st ∅ Hnd) as (a & Heq & Hp & Ha); [done|].
  exists a. split_and!; [done|done|]. intros h p. rewrite Ha, lookup_empty. naive_solver.
Qed.

(** The values of a map that files nodes under their hashes are such nodes. *)
Lemma collect_values a st :
  (∀ h p, a !! h = Some p → hash_id st p = h) →
  collect_attach_to hash_id (btree_iter a).*2 st = Ok (a, st).
Proof.
  intros Ha. assert (hash_id st <$> (btree_iter a).*2 = (btree_iter a).*1) as Hh.
  { rewrite <-list_fmap_compose. apply list_fmap_ext. intros i [h p] Hi%list_elem_of_lookup_2.
    simpl. apply Ha. by apply elem_of_btree_iter. }
  destruct (collect_attach_to_spec (btree_iter a).*2 st) as (a' & -> & _ & Ha').
  { rewrite Hh. apply btree_iter_NoDup. }
  repeat f_equal. apply map_eq. intros h. apply option_eq. intros p. rewrite Ha'. split.
  - intros [([h' p'] & -> & Hp)%list_elem_of_fmap <-]. apply elem_of_btree_iter in Hp.
    simpl. by rewrite (Ha _ _ Hp).
  - intros Hp. split; [|by apply Ha]. apply list_elem_of_fmap. exists (h, p). by rewrite elem_of_btree_iter.
Qed.
End collect.
End attach_facts.
