(* ===== verification/Delivery.v ===== *)
(** * A node that is sent arrives

    The receiver attaches the description that the transfer leaves it with.
    When the traversal puts parents first, it ends up with a node that has the
    history of the node that was sent. *)

From S2P Require Import Prelude Slotmap Store StoreFacts Rc Registry Drop DropFacts Edge Node NodeFacts RoundTrip Messages Detached DetachedFacts PostOrder Attach Transfer TransferFacts AttachFacts.

Section delivery.
Context {N E : Type} {S : SlotMapSig} {SLaws : SlotMapLaws S} {A : Allocator} {H : HashIdSig}.
Context (hash_id : store N E → addr → RelRcHash).
Implicit Types (st : store N E) (a m : gmap RelRcHash addr) (h : RelRcHash) (p q : addr).
Implicit Types (dt rc : Detached N E) (ow : list ref).

(** ** The last call of the receiver *)

Definition filed st a : Prop := ∀ h p, a !! h = Some p → hash_id st p = h.

Lemma map_owners_live st a ow p : wf st (map_owners a ++ ow) → p ∈ (btree_iter a).*2 → is_Some (node st p).
Proof.
  intros Hw Hp. destruct (owner_live _ _ p Hw) as [d ->]; [|done]. apply elem_of_app. left.
  by apply (list_elem_of_fmap_2 NodeStrong).
Qed.

(** The receiver's copies of its own handles are redundant. *)
Lemma recv_attach_clones st a ow :
  ignores_counts hash_id → filed st a → wf st (map_owners a ++ ow) →
  ∃ st1, foldM (λ s n, RelRc_clone n s) st (btree_iter a).*2 = Ok st1 ∧ same_views st st1 ∧
    wf st1 (map_owners a ++ map_owners a ++ ow) ∧
    collect_attach_to hash_id (btree_iter a).*2 st1 = Ok (a, st1).
Proof.
  intros Hh Hf Hw. destruct (clone_nodes st st _ (btree_iter a).*2 ltac:(done) Hw) as (st1 & Heq & Hw1 & Hv).
  { intros p. by apply map_owners_live with (ow := ow). }
  exists st1. split_and!; [done..|]. apply collect_values. intros h p Hp. rewrite (Hh _ _ _ Hv). by apply Hf.
Qed.

Lemma recv_attach_outcome st a ow rc :
  ignores_counts hash_id → filed st a → wf st (map_owners a ++ ow) → attachable rc a →
  ∃ l, attach_order rc a = Ok l ∧
    if parents_first rc (dom a) l
    then ∃ p st', recv_attach hash_id a rc st = Ok (p, st') ∧ attached rc a st ow p st'
    else recv_attach hash_id a rc st = Err (Panic "called `Option::unwrap()` on a `None` value").
Proof.
  intros Hh Hf Hw Hat. destruct (recv_attach_clones st a ow Hh Hf Hw) as (st1 & Hst1 & Hv & Hw1 & Hcol).
  destruct (attach_outcome hash_id rc _ st1 _ a Hw1 Hcol Hat) as (l & Hl & Hout). exists l. split; [done|].
  unfold recv_attach. rewrite Hst1. cbn [rbind]. destruct (parents_first rc (dom a) l); [|by rewrite Hout].
  destruct Hout as (p & st2 & -> & [Hw2 Hp (m & Hm & Hdom & Hinj & Hnew) Hheld Hold]). cbn [rbind fst snd].
  unfold node_view in Hold. setoid_rewrite (proj1 Hv) in Hold. setoid_rewrite (proj1 Hv) in Hnew.
  destruct (attached_drop rc a st ow p (map_owners a) st2 m) as (st' & -> & Hatt); try done.
  - by rewrite <-Permutation_middle.
  - intros q Hq. assert (held_by st (map_owners a ++ ow) q) as Hq'.
    { eapply held_mono; [|exact Hq]. set_solver. }
    split; [by destruct (held_live _ _ _ Hw Hq') as [d ->]|]. apply Hheld. by eapply held_same_views.
  - by exists p, st'.
Qed.

(** The receiver has the node already. *)
Lemma recv_attach_known st a ow rc p :
  ignores_counts hash_id → filed st a → wf st (map_owners a ++ ow) →
  a !! dt_current rc = Some p →
  ∃ st', recv_attach hash_id a rc st = Ok (p, st') ∧ wf st' (NodeStrong p :: ow) ∧
    (∀ q d, node st' q = Some d → node st q = Some d) ∧
    (∀ q, held_by st ow q → is_Some (node st' q)).
Proof.
  intros Hh Hf Hw Hp. destruct (recv_attach_clones st a ow Hh Hf Hw) as (st1 & Hst1 & Hv & Hw1 & Hcol).
  unfold recv_attach. rewrite Hst1. cbn [rbind]. unfold RelRc_attach. rewrite Hcol. cbn [rbind fst snd].
  rewrite Hp. destruct (owner_live _ _ p Hw1) as [d Hd].
  { apply elem_of_app. left. by eapply elem_of_map_owners. }
  destruct (rc_clone_wf _ _ p d Hw1 Hd) as (st2 & Hcl & Hw2 & Hv2). unfold RelRc_clone. rewrite Hcl.
  cbn [rbind]. rewrite Permutation_middle in Hw2.
  destruct (drop_refs_spec st2 (map_owners a) _ Hw2) as (st3 & -> & Hw3 & Hd3). cbn [rbind fst snd].
  rewrite Permutation_middle in Hw3.
  destruct (drop_refs_spec st3 (map_owners a) _ Hw3) as (st4 & -> & Hw4 & Hd4).
  exists st4. split_and!; [done..| |].
  - intros q dq Hq%(dropped_node _ _ _ _ Hd4)%(dropped_node _ _ _ _ Hd3).
    by rewrite (proj1 Hv2), (proj1 Hv) in Hq.
  - intros q Hq.
    assert (held_by st2 (map_owners a ++ NodeStrong p :: ow) q) as Hq2.
    { apply (held_mono _ ow); [set_solver|]. by do 2 (eapply held_same_views; [done|]). }
    destruct (held_dropped st3 st4 (NodeStrong p :: ow) q Hw4 Hd4) as [d4 ->]; [|done].
    apply (held_mono _ ow); [set_solver|]. apply (held_view st2).
    + intros y Hy _. destruct (held_dropped st2 st3 (map_owners a ++ NodeStrong p :: ow) y) as [d3 Hd3']; [done..| |].
      * eapply held_mono; [|exact Hy]. set_solver.
      * unfold node_view. by rewrite Hd3', (dropped_node _ _ _ _ Hd3 Hd3').
    + by do 2 (eapply held_same_views; [done|]).
Qed.

(** ** The history of the new node *)

(** The history of a node that is still there. *)
Lemma same_history_kept st x str str' ow x' :
  wf str' ow → (∀ q, is_Some (node str q) → is_Some (node str' q) → node_view str' q = node_view str q) →
  is_Some (node str' x') → same_history st x str x' → same_history st x str' x'.
Proof.
  intros Hw' Hold Hx' (Rel & HRel & Hsim). exists (λ y y', Rel y y' ∧ is_Some (node str' y')).
  split; [done|]. intros y y' [Hy [d' Hd']]. destruct (Hsim y y' Hy) as (d & d1 & Hd & Hd1 & Hv & Hall).
  assert (node_view str' y' = node_view str y') as Hview.
  { apply Hold; [by rewrite Hd1|by rewrite Hd']. }
  unfold node_view in Hview. rewrite Hd', Hd1 in Hview. injection Hview as Hv1 Hv2 _.
  exists d, d'. split_and!; [done|done|congruence|]. rewrite Hv2.
  apply Forall2_same_length_lookup in Hall as [Hlen Hall]. apply Forall2_same_length_lookup. split; [done|].
  intros i e e' He He'. destruct (Hall i e e' He He') as [? Hre]. split_and!; [done..|].
  destruct (source_live _ _ _ _ e' Hw' Hd') as [ds ->]; [|done]. rewrite Hv2. by eapply list_elem_of_lookup_2.
Qed.

Section history.
Context (st : store N E) (p : addr) (ow : list ref) (dt rc : Detached N E).
Context (str : store N E) (owr : list ref) (a : gmap RelRcHash addr).
Hypothesis Hw : wf st ow.
Hypothesis Hdt : detaches hash_id st p ∅ dt.
Hypothesis Hrc : received dt a rc.
(** hashes tell the ancestors of the node apart *)
Hypothesis Hinj : ∀ q q', ancestor_of st q p → ancestor_of st q' p → hash_id st q = hash_id st q' → q = q'.
(** the receiver's node for a hash of the sender is the sender's node *)
Hypothesis Hsame : ∀ q r, ancestor_of st q p → a !! hash_id st q = Some r → same_history st q str r.

Lemma received_data h data :
  dt_all_data rc !! h = Some data →
  ∃ q d, ancestor_of st q p ∧ hash_id st q = h ∧ node st q = Some d ∧
    data = DetachedInnerData_from hash_id st d.
Proof.
  intros Hh. pose proof (lookup_weaken _ _ _ _ Hh (rcv_subset _ _ _ Hrc)) as Hh'.
  apply (dts_data _ _ _ _ _ Hdt) in Hh' as (_ & q & d & Hq%reached_ancestor & ? & ? & ?). by exists q, d.
Qed.

Lemma received_edge h u :
  attach_edge rc a h u →
  ∃ q r, ancestor_of st q p ∧ hash_id st q = h ∧ parent_of st r q ∧ hash_id st r = u.
Proof.
  intros [Hu _]%attach_edge_iff. unfold described_parents in Hu.
  destruct (dt_all_data rc !! h) as [data|] eqn:Hh; [|by apply elem_of_nil in Hu].
  destruct (received_data h data Hh) as (q & d & Hq & <- & Hd & ->).
  apply (elem_of_from_parents hash_id st q d u Hd) in Hu as (r & Hr & <-). by exists q, r.
Qed.

(** What arrives has no cycle, since the history of the sender has none. *)
Lemma received_acyclic h : ¬ tc (attach_edge rc a) h h.
Proof.
  destruct (ancestor_rank _ _ Hw) as [rank Hrank].
  assert (∀ h u, tc (attach_edge rc a) h u → ∀ r, ancestor_of st r p → hash_id st r = u →
    ∃ q, ancestor_of st q p ∧ hash_id st q = h ∧ rank r < rank q) as Hdown.
  { intros x u Hxu. induction Hxu as [x u Hxu|x y u Hxy _ IH]; intros r Hr <-.
    - destruct (received_edge _ _ Hxu) as (q & r' & Hq & <- & Hr' & He).
      assert (r' = r) as -> by (apply Hinj; [by eapply rtc_l|done..]).
      exists q. split_and!; [done..|]. apply Hrank. by apply tc_once.
    - destruct (IH r Hr eq_refl) as (y' & Hy & <- & Hlt).
      destruct (received_edge _ _ Hxy) as (q & r' & Hq & <- & Hr' & He).
      assert (r' = y') as -> by (apply Hinj; [by eapply rtc_l|done..]).
      exists q. split_and!; [done..|]. etrans; [done|]. apply Hrank. by apply tc_once. }
  intros Hc. assert (∃ r, ancestor_of st r p ∧ hash_id st r = h) as (r & Hr & Hh).
  { assert (∃ y, attach_edge rc a h y) as [y Hy] by (inversion Hc; eauto).
    destruct (received_edge _ _ Hy) as (q & ? & ? & ? & _). eauto. }
  destruct (Hdown _ _ Hc r Hr Hh) as (q & Hq & Hqh & Hlt).
  assert (q = r) as -> by (apply Hinj; congruence). lia.
Qed.

Lemma received_attachable : Detached_attaches_to rc a = true → a !! dt_current rc = None → attachable rc a.
Proof.
  intros Ha Hc. split; [done| |done|apply received_acyclic].
  rewrite (rcv_current _ _ _ Hrc). apply Hrc.
Qed.

Lemma attached_history p' str' :
  attached rc a str owr p' str' → same_history st p str' p'.
Proof.
  intros [Hw' _ (m & Hm & Hdom & _ & Hnew) _ Hold].
  exists (λ x x', ancestor_of st x p ∧ m !! hash_id st x = Some x' ∨ same_history st x str' x').
  split.
  { left. split; [apply rtc_refl|].
    by rewrite <-(dts_current _ _ _ _ _ Hdt), <-(rcv_current _ _ _ Hrc). }
  intros x x' [[Hx Hx']|(Rel & HRel & Hsim)].
  2: { destruct (Hsim x x' HRel) as (d & d' & Hd & Hd' & Hv & Hall). exists d, d'. split_and!; [done..|].
    eapply Forall2_impl; [exact Hall|]. intros e e' [? ?]. split; [done|]. right. by exists Rel. }
  destruct (Hnew _ _ Hx') as (_ & data & Hdata & edges & Hv & Hall).
  destruct (received_data _ _ Hdata) as (q & d & Hq & Hhq & Hd & ->).
  assert (q = x) as -> by by apply Hinj.
  unfold node_view in Hv. destruct (node str' x') as [d'|] eqn:Hd'; [|done].
  injection Hv as Hv1 <- _. exists d, d'. split_and!; [done..|].
  apply Forall2_same_length_lookup in Hall as [Hlen Hall]. simpl in Hlen. rewrite !length_fmap in Hlen.
  apply Forall2_same_length_lookup. split; [done|]. intros i e e' He He'.
  destruct (Hall i (ie_source e', ie_value e') (hash_id st (ie_source e), ie_value e)) as [Hloc Hval].
  { by rewrite list_lookup_fmap, He'. } { simpl. unfold InnerData_all_incoming. by rewrite list_lookup_fmap, He. }
  simpl in Hloc, Hval. split; [done|].
  assert (ancestor_of st (ie_source e) p) as Hanc.
  { eapply rtc_l; [|exact Hx]. by eapply parent_of_edge. }
  unfold located in Hloc. destruct (m !! hash_id st (ie_source e)) eqn:Hms; [left; split; congruence|right].
  eapply same_history_kept; [done|done| |by apply Hsame].
  destruct (source_live _ _ _ _ e' Hw' Hd') as [ds ->]; [|done]. by eapply list_elem_of_lookup_2.
Qed.

(** The receiver attaches what it has received. *)
Lemma delivered :
  ignores_counts hash_id → filed str a → wf str (map_owners a ++ owr) →
  Detached_attaches_to rc a = true →
  (∃ p' str', recv_attach hash_id a rc str = Ok (p', str') ∧ wf str' (NodeStrong p' :: owr) ∧
     same_history st p str' p' ∧ ∀ q, held_by str owr q → node_view str' q = node_view str q) ∨
  (∃ l, attach_order rc a = Ok l ∧ parents_first rc (dom a) l = false ∧
     recv_attach hash_id a rc str = Err (Panic "called `Option::unwrap()` on a `None` value")).
Proof.
  intros Hh Hf Hwr Ha. assert (∀ q, held_by str owr q → is_Some (node str q)) as Hheld.
  { intros q Hq. destruct (held_live str _ q Hwr) as [d ->]; [|done]. eapply held_mono; [|exact Hq]. set_solver. }
  destruct (a !! dt_current rc) as [p'|] eqn:Hc.
  - left. destruct (recv_attach_known str a owr rc p' Hh Hf Hwr Hc) as (str' & Heq & Hw' & Hold & Hkept).
    assert (∀ q, is_Some (node str' q) → node_view str' q = node_view str q) as Hview.
    { intros q [d Hd]. unfold node_view. by rewrite Hd, (Hold _ _ Hd). }
    exists p', str'. split_and!; [done..| |].
    + eapply same_history_kept; [done|by auto| |].
      * destruct (owner_live _ _ p' Hw') as [d ->]; [left|done].
      * apply Hsame; [apply rtc_refl|]. by rewrite <-(dts_current _ _ _ _ _ Hdt), <-(rcv_current _ _ _ Hrc).
    + intros q Hq. by apply Hview, Hkept.
  - destruct (recv_attach_outcome str a owr rc Hh Hf Hwr (received_attachable Ha Hc)) as (l & Hl & Hout).
    destruct (parents_first rc (dom a) l) eqn:Hpf; [left|right; by exists l].
    destruct Hout as (p' & str' & Heq & Hatt). exists p', str'.
    split_and!; [done|apply Hatt|by apply attached_history|].
    intros q Hq. apply Hatt; [by apply Hheld|by apply Hatt].
Qed.
End history.

(** ** The transfer as a whole *)

Section transfer.
Context {HLaws : HashIdLaws H} {M : MPISig} {MLaws : MPILaws M}.

(** A transfer of a live node, whatever the hashes are. *)
Lemma transfer_outcome B st ow p d ms mr (attach_to : gmap RelRcHash B) :
  ignores_counts hash_id → wf st ow → node st p = Some d → ms ≠ Async →
  ∃ dt st', detaches hash_id st p ∅ dt ∧ same_views st st' ∧ wf st' ow ∧ self_contained dt ∧
    ∀ fs fr, size (dt_all_data dt) ≤ fs → size (dt_all_data dt) ≤ fr →
      ∃ sender rc final,
        let n := transfer_cost (dt_all_data rc) in
        RelRcCommunicator_send_relrc_async hash_id fs ms p st = Ok (sender, st') ∧
        exchanged dt attach_to rc final ∧
        ∀ k c, nsteps (network_step ms mr) k
            (mkNetwork sender (recv_detached fr attach_to) conn_new conn_new) c →
          k ≤ n ∧ nsteps (network_step ms mr) (n - k) c final.
Proof.
  intros Hh Hw Hd Hms. destruct (Detached_new_spec hash_id Hh st ow p d ∅ Hw Hd)
    as (dt & st' & Heq & Hw' & Hv & Hdt).
  assert (self_contained dt) as Hsc.
  { split; [destruct (dts_start _ _ _ _ _ Hdt); set_solver|].
    intros h data h' Hd' Hin. destruct (dts_closed _ _ _ _ _ Hdt h data h' Hd' Hin); set_solver. }
  exists dt, st'. split_and!; [done..|]. intros fs fr Hfs Hfr.
  destruct (run_transfer ms mr dt attach_to Hsc fs fr Hfs Hfr) as (rc & final & Hex & Hn).
  exists (send_detached fs dt), rc, final. split_and!; [|done|].
  - unfold RelRcCommunicator_send_relrc_async, send_relrc, RelRc_detach. rewrite Heq.
    by destruct ms.
  - intros k c. apply (diamond_complete _ (network_diamond ms mr) _ _ _ Hn). by eapply exchanged_stuck.
Qed.

Lemma transfer_runs B st ow p d ms mr (attach_to : gmap RelRcHash B) :
  ignores_counts hash_id → wf st ow → node st p = Some d → ms ≠ Async →
  (∀ q, ancestor_of st q p → hash_id st q ≠ hash_id st p → hash_into (hash_id st q) ≠ 0%Z) →
  ∃ dt st', detaches hash_id st p ∅ dt ∧ same_views st st' ∧ wf st' ow ∧
    ∀ fs fr, size (dt_all_data dt) ≤ fs → size (dt_all_data dt) ≤ fr →
      ∃ sender rc,
        let n := transfer_cost (dt_all_data rc) in
        RelRcCommunicator_send_relrc_async hash_id fs ms p st = Ok (sender, st') ∧
        received dt attach_to rc ∧ Detached_attaches_to rc attach_to = true ∧
        n ≤ transfer_cost (dt_all_data dt) ∧
        ∀ k c, nsteps (network_step ms mr) k
            (mkNetwork sender (recv_detached fr attach_to) conn_new conn_new) c →
          k ≤ n ∧ nsteps (network_step ms mr) (n - k) c (finished rc).
Proof.
  intros Hh Hw Hd Hms Hnz.
  destruct (transfer_outcome B st ow p d ms mr attach_to Hh Hw Hd Hms) as (dt & st' & Hdt & Hv & Hw' & Hsc & Hrun).
  exists dt, st'. split_and!; [done..|]. intros fs fr Hfs Hfr.
  destruct (Hrun fs fr Hfs Hfr) as (sender & rc & final & Hsend & Hex & Hall).
  destruct (exchanged_complete dt attach_to rc final Hex) as [Ha ->].
  { intros h [data Hda]%(needed_described dt attach_to Hsc) Hne.
    destruct (dts_data _ _ _ _ _ Hdt h data Hda) as (_ & q & dq & Hq%reached_ancestor & <- & _).
    apply Hnz; [done|]. by rewrite <-(dts_current _ _ _ _ _ Hdt). }
  destruct Hex as (Hrc & _). exists sender, rc. split_and!; [done..|apply transfer_cost_mono, Hrc|done].
Qed.
End transfer.
End delivery.
