(* ===== verification/Client.v ===== *)
(** * Client programs

    A client holds handles ([RelRc], [RelWeak], [Rc<RefCell<Registry>>]) and
    history graphs, and calls the public API on them.  [exec] runs one call; it
    is [None] when the client does not hold the handles the call uses, which is
    what Rust's ownership rules out.  A call is [disciplined] unless it removes an
    id from the registry of a graph of the client, which Rust does not forbid:
    [remove_orphans_graph_node] shows what happens to the graph.  The worlds that
    programs of disciplined calls reach are the states the properties of the
    library are about; what the next call does is also known when it is not
    disciplined. *)

From S2P Require Import Prelude Slotmap Store StoreFacts Rc Registry Drop DropFacts RegistryOps Edge Node NodeFacts RegistryFacts Ancestors History HistoryFacts Adjacency Petgraph Insertion InsertAncestors Serialization.

Record world (N E : Type) {S : SlotMapSig} := mkWorld {
  w_store : store N E;
  w_handles : list ref;
  w_graphs : list HistoryGraph;
}.
Arguments mkWorld {N E S} _ _ _.
Arguments w_store {N E S} _.
Arguments w_handles {N E S} _.
Arguments w_graphs {N E S} _.

Inductive call (N E : Type) {S : SlotMapSig} :=
  | CallNew (value : N)
  | CallWithParents (value : N) (parents : list (addr * E))
  | CallClone (p : addr)
  | CallDowngrade (p : addr)
  | CallUpgrade (p : addr)
  | CallDrop (r : ref)
  | CallValue (p : addr)
  | CallIncoming (p : addr)
  | CallAllOutgoing (p : addr)
  | CallNOutgoing (p : addr)
  | CallAllAncestors (p : addr)
  | CallNodeRegistry (p : addr)
  | CallNewRegistry
  | CallCloneRegistry (g : addr)
  | CallRegister (p g : addr)
  | CallAddNode (p g : addr)
  | CallGetId (g p : addr)
  | CallGet (g : addr) (id : NodeId)
  | CallFreeNodeIds (g : addr)
  | CallContainsId (g : addr) (id : NodeId)
  | CallRemove (g : addr) (id : NodeId)
  | CallNewGraph (g : addr)
  | CallInsertNode (i : nat) (p : addr)
  | CallInsertAncestors (i : nat) (p : addr)
  | CallGetNode (i : nat) (id : NodeId)
  | CallGetNodeId (i : nat) (p : addr)
  | CallSource (i : nat) (e : EdgeId)
  | CallOutgoingEdges (i : nat) (id : NodeId)
  | CallIncomingEdges (i : nat) (id : NodeId)
  | CallChildren (i : nat) (id : NodeId)
  | CallParents (i : nat) (id : NodeId)
  | CallCloneGraph (i : nat)
  | CallDropGraph (i : nat)
  | CallLen (g : addr)
  | CallIter (g : addr)
  | CallNodeIds (i : nat)
  | CallGetEdge (i : nat) (e : EdgeId)
  | CallTarget (i : nat) (e : EdgeId)
  | CallGraphRegistry (i : nat)
  | CallCloneNode (i : nat) (id : NodeId)
  | CallSerializeGraph (i : nat)
  | CallDeserializeGraph (ser : SerializedHistoryGraph N E)
  | CallCloneWeak (p : addr)
  | CallNeighbors (i : nat) (id : NodeId) (d : Direction)
  | CallEdges (i : nat) (id : NodeId) (d : Direction)
  | CallEdgeReferences (i : nat).
Arguments CallNew {N E S} _.
Arguments CallWithParents {N E S} _ _.
Arguments CallClone {N E S} _.
Arguments CallDowngrade {N E S} _.
Arguments CallUpgrade {N E S} _.
Arguments CallDrop {N E S} _.
Arguments CallValue {N E S} _.
Arguments CallIncoming {N E S} _.
Arguments CallAllOutgoing {N E S} _.
Arguments CallNOutgoing {N E S} _.
Arguments CallNodeRegistry {N E S} _.
Arguments CallNewRegistry {N E S}.
Arguments CallCloneRegistry {N E S} _.
Arguments CallRegister {N E S} _ _.
Arguments CallAddNode {N E S} _ _.
Arguments CallGetId {N E S} _ _.
Arguments CallGet {N E S} _ _.
Arguments CallFreeNodeIds {N E S} _.
Arguments CallContainsId {N E S} _ _.
Arguments CallRemove {N E S} _ _.
Arguments CallAllAncestors {N E S} _.
Arguments CallSource {N E S} _ _.
Arguments CallNewGraph {N E S} _.
Arguments CallInsertNode {N E S} _ _.
Arguments CallInsertAncestors {N E S} _ _.
Arguments CallGetNode {N E S} _ _.
Arguments CallGetNodeId {N E S} _ _.
Arguments CallOutgoingEdges {N E S} _ _.
Arguments CallIncomingEdges {N E S} _ _.
Arguments CallChildren {N E S} _ _.
Arguments CallParents {N E S} _ _.
Arguments CallCloneGraph {N E S} _.
Arguments CallDropGraph {N E S} _.
Arguments CallLen {N E S} _.
Arguments CallIter {N E S} _.
Arguments CallNodeIds {N E S} _.
Arguments CallGetEdge {N E S} _ _.
Arguments CallTarget {N E S} _ _.
Arguments CallGraphRegistry {N E S} _.
Arguments CallCloneNode {N E S} _ _.
Arguments CallSerializeGraph {N E S} _.
Arguments CallDeserializeGraph {N E S} _.
Arguments CallCloneWeak {N E S} _.
Arguments CallNeighbors {N E S} _ _ _.
Arguments CallEdges {N E S} _ _ _.
Arguments CallEdgeReferences {N E S} _.

(** What a call returns. *)
Inductive output (N E : Type) {S : SlotMapSig} :=
  | OutUnit
  | OutBool (b : bool)
  | OutNode (o : option addr)
  | OutNodes (l : list addr)
  | OutValue (value : N)
  | OutIncoming (l : list (addr * E))
  | OutEdges (l : list Edge)
  | OutCount (n : nat)
  | OutRegistry (o : option addr)
  | OutId (o : option NodeId)
  | OutIds (l : list NodeId)
  | OutEdgeIds (l : list EdgeId)
  | OutEntries (l : list (NodeId * addr))
  | OutEdge (o : option (addr * E))
  | OutSerialized (ser : SerializedHistoryGraph N E)
  | OutEdgeRefs (l : list (EdgeId * NodeId * NodeId * E)).
Arguments OutUnit {N E S}.
Arguments OutBool {N E S} _.
Arguments OutNode {N E S} _.
Arguments OutNodes {N E S} _.
Arguments OutValue {N E S} _.
Arguments OutIncoming {N E S} _.
Arguments OutEdges {N E S} _.
Arguments OutCount {N E S} _.
Arguments OutRegistry {N E S} _.
Arguments OutId {N E S} _.
Arguments OutIds {N E S} _.
Arguments OutEdgeIds {N E S} _.
Arguments OutEntries {N E S} _.
Arguments OutEdge {N E S} _.
Arguments OutSerialized {N E S} _.
Arguments OutEdgeRefs {N E S} _.

Section client.
Context {N E : Type} {S : SlotMapSig} {A : Allocator}.
Implicit Types (st : store N E) (w : world N E) (p g : addr) (h : list ref).

(** A call that returns has an output and leads to a world. *)
Notation response := (result (output N E * world N E)).

Definition w_refs w : list ref := w_handles w ++ (w_graphs w ≫= hg_owners).

(** Give up one handle, or several. *)
Fixpoint release (r : ref) h : option (list ref) :=
  match h with
  | [] => None
  | x :: h => if decide (r = x) then Some h else cons x <$> release r h
  end.
Fixpoint release_all (l : list ref) h : option (list ref) :=
  match l with
  | [] => Some h
  | r :: l => release r h ≫= release_all l
  end.

(** A call that borrows the handle [r], or consumes the handles [l]. *)
Definition borrow w (r : ref) (f : response) : option response :=
  if decide (r ∈ w_handles w) then Some f else None.
Definition consume w (l : list ref) (f : list ref → response) : option response :=
  f <$> release_all l (w_handles w).
(** A call on the [i]-th graph that consumes the handles [l]. *)
Definition consume_graph w (i : nat) (l : list ref)
    (f : HistoryGraph → list ref → response) : option response :=
  match w_graphs w !! i with
  | Some hg => consume w l (f hg)
  | None => None
  end.

(** New store, new handles. *)
Definition upd w st h : world N E := mkWorld st h (w_graphs w).
Definition upd_graph w i st h hg : world N E := mkWorld st h (<[i:=hg]> (w_graphs w)).

Definition exec (c : call N E) w : option response :=
  let st := w_store w in let hs := w_handles w in
  match c with
  | CallNew value =>
      let r := RelRc_new value st in
      Some (Ok (OutNode (Some r.1), upd w r.2 (NodeStrong r.1 :: hs)))
  | CallWithParents value parents => consume w (parent_owners parents) (λ hs',
      r ← RelRc_with_parents value parents st;
      Ok (OutNode (Some r.1), upd w r.2 (NodeStrong r.1 :: hs')))
  | CallClone p => borrow w (NodeStrong p)
      (st' ← RelRc_clone p st; Ok (OutUnit, upd w st' (NodeStrong p :: hs)))
  | CallDowngrade p => borrow w (NodeStrong p)
      (st' ← RelRc_downgrade p st; Ok (OutUnit, upd w st' (NodeWeak p :: hs)))
  | CallUpgrade p => borrow w (NodeWeak p)
      (r ← RelWeak_upgrade p st;
       Ok (OutNode r.1, upd w r.2 ((NodeStrong <$> option_list r.1) ++ hs)))
  | CallDrop r => consume w [r] (λ hs',
      st' ← drop_refs [r] st; Ok (OutUnit, upd w st' hs'))
  | CallValue p => borrow w (NodeStrong p)
      (d ← deref (node st p); Ok (OutValue (InnerData_value d), upd w st hs))
  | CallIncoming p => borrow w (NodeStrong p)
      (d ← deref (node st p); Ok (OutIncoming (incoming_pairs d), upd w st hs))
  | CallAllOutgoing p => borrow w (NodeStrong p)
      (r ← InnerData_all_outgoing p st; Ok (OutEdges r.1, upd w r.2 (edge_owners r.1 ++ hs)))
  | CallNOutgoing p => borrow w (NodeStrong p)
      (r ← InnerData_n_outgoing p st; Ok (OutCount r.1, upd w r.2 hs))
  | CallAllAncestors p => borrow w (NodeStrong p)
      (l ← RelRc_all_ancestors p st; Ok (OutNodes l, upd w st hs))
  | CallNodeRegistry p => borrow w (NodeStrong p)
      (r ← RelRc_registry p st;
       Ok (OutRegistry r.1, upd w r.2 ((RegStrong <$> option_list r.1) ++ hs)))
  | CallNewRegistry =>
      let r := reg_alloc Registry_new st in
      Some (Ok (OutRegistry (Some r.1), upd w r.2 (RegStrong r.1 :: hs)))
  | CallCloneRegistry g => borrow w (RegStrong g)
      (st' ← reg_clone g st; Ok (OutUnit, upd w st' (RegStrong g :: hs)))
  | CallRegister p g => if decide (RegStrong g ∈ hs) then borrow w (NodeStrong p)
      (r ← RelRc_try_register_in p g st; Ok (OutId r.1, upd w r.2 hs)) else None
  | CallAddNode p g => if decide (RegStrong g ∈ hs) then borrow w (NodeStrong p)
      (r ← with_registry_mut g (λ R, Registry_add_node R p) st;
       Ok (OutId (Some r.1), upd w r.2 hs)) else None
  | CallGetId g p => if decide (RegStrong g ∈ hs) then borrow w (NodeStrong p)
      (o ← registered_id g p st; Ok (OutId o, upd w st hs)) else None
  | CallGet g id => borrow w (RegStrong g)
      (r ← with_registry g (λ R, Registry_get R id) st;
       Ok (OutNode r.1, upd w r.2 ((NodeStrong <$> option_list r.1) ++ hs)))
  | CallFreeNodeIds g => borrow w (RegStrong g)
      (r ← with_registry_mut g Registry_free_node_ids st; Ok (OutCount r.1, upd w r.2 hs))
  | CallContainsId g id => borrow w (RegStrong g)
      (r ← with_registry g (λ R, Registry_contains_id R id) st; Ok (OutBool r.1, upd w r.2 hs))
  | CallRemove g id => borrow w (RegStrong g)
      (r ← with_registry_mut g (λ R, Registry_remove_drop R id) st; Ok (OutUnit, upd w r.2 hs))
  | CallNewGraph g => consume w [RegStrong g] (λ hs',
      r ← HistoryGraph_with_registry g st;
      Ok (OutUnit, mkWorld r.2 hs' (r.1 :: w_graphs w)))
  | CallInsertNode i p => consume_graph w i [NodeStrong p] (λ hg hs',
      r ← HistoryGraph_insert_node hg p st; Ok (OutId r.1.1, upd_graph w i r.2 hs' r.1.2))
  | CallInsertAncestors i p => consume_graph w i [NodeStrong p] (λ hg hs',
      r ← HistoryGraph_insert_ancestors hg p st;
      Ok (OutId (Some r.1.1), upd_graph w i r.2 hs' r.1.2))
  | CallGetNode i id => consume_graph w i [] (λ hg hs',
      Ok (OutNode (HistoryGraph_get_node hg id), upd w st hs'))
  | CallGetNodeId i p => if decide (NodeStrong p ∈ hs) then consume_graph w i [] (λ hg hs',
      o ← HistoryGraph_get_node_id hg p st; Ok (OutId o, upd w st hs')) else None
  | CallSource i e => consume_graph w i [] (λ hg hs',
      o ← HistoryGraph_source hg e st; Ok (OutId o, upd w st hs'))
  | CallOutgoingEdges i id => consume_graph w i [] (λ hg hs',
      r ← HistoryGraph_outgoing_edges hg id st; Ok (OutEdgeIds r.1, upd w r.2 hs'))
  | CallIncomingEdges i id => consume_graph w i [] (λ hg hs',
      l ← HistoryGraph_incoming_edges hg id st; Ok (OutEdgeIds l, upd w st hs'))
  | CallChildren i id => consume_graph w i [] (λ hg hs',
      r ← HistoryGraph_children hg id st; Ok (OutIds r.1, upd w r.2 hs'))
  | CallParents i id => consume_graph w i [] (λ hg hs',
      l ← HistoryGraph_parents hg id st; Ok (OutIds l, upd w st hs'))
  | CallCloneGraph i => consume_graph w i [] (λ hg hs',
      r ← HistoryGraph_clone hg st; Ok (OutUnit, mkWorld r.2 hs' (r.1 :: w_graphs w)))
  | CallDropGraph i => consume_graph w i [] (λ hg hs',
      st' ← HistoryGraph_drop hg st; Ok (OutUnit, mkWorld st' hs' (delete i (w_graphs w))))
  | CallLen g => borrow w (RegStrong g)
      (r ← with_registry g (λ R s, Ok (Registry_len R, s)) st; Ok (OutCount r.1, upd w r.2 hs))
  | CallIter g => borrow w (RegStrong g)
      (r ← with_registry g Registry_iter st;
       Ok (OutEntries r.1, upd w r.2 ((NodeStrong <$> r.1.*2) ++ hs)))
  | CallNodeIds i => consume_graph w i [] (λ hg hs',
      Ok (OutIds (HistoryGraph_all_node_ids hg), upd w st hs'))
  | CallGetEdge i e => consume_graph w i [] (λ hg hs',
      o ← HistoryGraph_get_edge hg e st;
      Ok (OutEdge ((λ d, (InnerEdgeData_source d, InnerEdgeData_value d)) <$> o), upd w st hs'))
  | CallTarget i e => consume_graph w i [] (λ hg hs',
      o ← HistoryGraph_target hg e st; Ok (OutId o, upd w st hs'))
  | CallGraphRegistry i => consume_graph w i [] (λ hg hs',
      let g := HistoryGraph_registry hg in
      st' ← reg_clone g st; Ok (OutRegistry (Some g), upd w st' (RegStrong g :: hs')))
  | CallCloneNode i id => consume_graph w i [] (λ hg hs',
      match HistoryGraph_get_node hg id with
      | Some p => st' ← RelRc_clone p st; Ok (OutNode (Some p), upd w st' (NodeStrong p :: hs'))
      | None => Ok (OutNode None, upd w st hs')
      end)
  | CallSerializeGraph i => consume_graph w i [] (λ hg hs',
      r ← HistoryGraph_to_serialized hg st; Ok (OutSerialized r.1, upd w r.2 hs'))
  | CallDeserializeGraph ser => Some
      (r ← HistoryGraph_from_serialized ser st; Ok (OutUnit, mkWorld r.2 hs (r.1 :: w_graphs w)))
  | CallCloneWeak p => borrow w (NodeWeak p)
      (st' ← RelWeak_clone p st; Ok (OutUnit, upd w st' (NodeWeak p :: hs)))
  | CallNeighbors i id d => consume_graph w i [] (λ hg hs',
      r ← neighbors_directed hg id d st; Ok (OutIds r.1, upd w r.2 hs'))
  | CallEdges i id d => consume_graph w i [] (λ hg hs',
      r ← edges_directed hg id d st; Ok (OutEdgeIds (EdgeRef_id <$> r.1), upd w r.2 hs'))
  | CallEdgeReferences i => consume_graph w i [] (λ hg hs',
      es ← edge_references hg st;
      l ← traverse (λ e, EdgeRef_read e st) es; Ok (OutEdgeRefs l, upd w st hs'))
  end.

(** ** Reachable worlds *)

(** The call takes no id from the registry of a graph. *)
Definition disciplined (c : call N E) w : bool :=
  match c with
  | CallRemove g _ => forallb (λ hg, bool_decide (hg_registry hg ≠ g)) (w_graphs w)
  | _ => true
  end.

Definition empty_world : world N E := mkWorld empty_store [] [].

Inductive reachable : world N E → Prop :=
  | reachable_start : reachable empty_world
  | reachable_call w c o w' :
      reachable w → disciplined c w = true → exec c w = Some (Ok (o, w')) → reachable w'.

Fixpoint run (cs : list (call N E)) w : option (world N E) :=
  match cs with
  | [] => Some w
  | c :: cs =>
      if disciplined c w then match exec c w with Some (Ok (_, w')) => run cs w' | _ => None end
      else None
  end.

Lemma run_reachable cs w w' : reachable w → run cs w = Some w' → reachable w'.
Proof.
  revert w. induction cs as [|c cs IH]; intros w Hw; simpl; [by intros [= <-]|].
  destruct (disciplined c w) eqn:Hd; [|done].
  destruct (exec c w) as [[[o w1]|]|] eqn:Hc; try done. apply IH. by eapply reachable_call.
Qed.

(** ** The invariant of reachable worlds *)

Record world_ok w : Prop := {
  wok_store : wf (w_store w) (w_refs w);
  wok_graphs hg : hg ∈ w_graphs w → hg_ok (w_store w) hg;
}.
End client.
