(* ===== verification/ClientFacts.v ===== *)
(** * Every client program is safe

    Each call preserves the invariant of the store and of the graphs, and
    returns; the panics are those of [insert_ancestors], of serialising and of
    malformed input to deserialising. *)

From S2P Require Import Prelude Slotmap Store StoreFacts Rc Registry Drop DropFacts RegistryOps Edge Node NodeFacts RegistryFacts Ancestors History HistoryFacts Adjacency Petgraph Insertion InsertAncestors Serialization Deserialize Serialize GraphSerial GraphDeserial Client.

Create HintDb exec.

Section client_facts.
Context {N E : Type} {S : SlotMapSig} {SLaws : SlotMapLaws S} {A : Allocator}.
Implicit Types (st : store N E) (w : world N E) (p q g h : addr) (hs : list ref) (hg : HistoryGraph).
Implicit Types (k id : NodeId) (R : Registry) (c : call N E) (r : ref).

Lemma release_perm r hs hs' : release r hs = Some hs' → hs ≡ₚ r :: hs'.
Proof.
  revert hs'. induction hs as [|x hs IH]; intros hs'; simpl; [done|].
  case_decide as Hx; [by intros [= <-]; subst|].
  intros (hs1 & Hhs1 & ->)%fmap_Some. rewrite (IH _ Hhs1). apply Permutation_swap.
Qed.

Lemma release_all_perm l hs hs' : release_all l hs = Some hs' → hs ≡ₚ l ++ hs'.
Proof.
  revert hs. induction l as [|r l IH]; intros hs; simpl; [by intros [= <-]|].
  intros (hs1 & Hhs1%release_perm & Hh'%IH)%bind_Some. by rewrite Hhs1, Hh'.
Qed.

Lemma empty_world_ok : world_ok (empty_world (N:=N) (E:=E)).
Proof.
  split; [|by intros hg ?%elem_of_nil]. split.
  - intros r. destruct r; done.
  - split; apply map_Forall_empty.
  - split; try done. by exists (λ _, 0).
  - done.
  - done.
Qed.

(** ** Keeping the graphs consistent *)

(** No registry lost the id of a live node. *)
Definition keeps_ids st st' : Prop :=
  ∀ g R, registry_at st g = Some R → ∃ R', registry_at st' g = Some R' ∧
    ∀ k q, sm_get k (reg_nodes R) = Some q → is_Some (node st q) → sm_get k (reg_nodes R') = Some q.

Lemma keeps_ids_ext st st' : (∀ g, registry_at st' g = registry_at st g) → keeps_ids st st'.
Proof. intros HR g R Hg. exists R. by rewrite HR. Qed.

Lemma keeps_ids_more g st st' : registered_more g st st' → keeps_ids st st'.
Proof.
  intros Hm h R Hh. destruct (rm_reg _ _ _ Hm _ _ Hh) as (R' & ? & ?). exists R'. eauto.
Qed.

Lemma graph_refs w hg : hg ∈ w_graphs w → ∃ l, w_refs w ≡ₚ hg_owners hg ++ l.
Proof.
  intros (gs & gs' & Hgs)%list_elem_of_split. unfold w_refs. rewrite Hgs, bind_app, bind_cons.
  exists (w_handles w ++ (gs ≫= hg_owners) ++ (gs' ≫= hg_owners)).
  rewrite (Permutation_app_swap_app (gs ≫= hg_owners)).
  by rewrite (Permutation_app_swap_app (w_handles w)).
Qed.

Lemma graphs_keep w st' :
  world_ok w → keeps_ids (w_store w) st' → ∀ hg, hg ∈ w_graphs w → hg_ok st' hg.
Proof.
  intros Hok Hk hg Hhg. destruct (graph_refs w hg Hhg) as [l Hl].
  destruct (wok_graphs _ Hok hg Hhg) as (R & HR & Hin).
  destruct (Hk _ _ HR) as (R' & HR' & Hsub). exists R'. split; [done|]. intros k q Hq.
  pose proof (wok_store _ Hok) as Hw. rewrite Hl in Hw.
  destruct (hg_node_live _ _ _ _ _ Hw Hq) as [d Hd]. apply Hsub; [by apply Hin|by exists d].
Qed.

Lemma graphs_drop w st' hs gs :
  (∀ hg, hg ∈ gs → hg ∈ w_graphs w) → world_ok w →
  drop_inv (w_store w) st' [] → wf st' (hs ++ (gs ≫= hg_owners)) →
  ∀ hg, hg ∈ gs → hg_ok st' hg.
Proof.
  intros Hgs Hok Hinv Hw hg Hhg.
  destruct (graph_refs (mkWorld st' hs gs) hg Hhg) as [l' Hl']. unfold w_refs in Hl'. simpl in Hl'.
  rewrite Hl' in Hw. eapply hg_ok_drop; [done..|]. by apply Hok, Hgs.
Qed.

(** ** Values and parents never change *)

Definition frozen st st' : Prop :=
  ∀ q d d', node st q = Some d → node st' q = Some d' →
    nd_value d' = nd_value d ∧ nd_incoming d' = nd_incoming d.

Lemma frozen_refl st : frozen st st.
Proof. intros q d d' Hd Hd'. by simplify_eq. Qed.

Lemma frozen_views st st' : (∀ q, node st' q = node st q) → frozen st st'.
Proof. intros Hn q d d' Hd Hd'. rewrite Hn in Hd'. by simplify_eq. Qed.

(** One node may be replaced by one that differs in its outgoing edges and its
    registry only. *)
Lemma frozen_update st st' p dp dp' :
  (∀ q, node st' q = if decide (q = p) then Some dp' else node st q) →
  node st p = Some dp → nd_value dp' = nd_value dp → nd_incoming dp' = nd_incoming dp →
  frozen st st'.
Proof.
  intros Hn Hp Hv Hi q d d' Hd Hd'. rewrite Hn in Hd'. case_decide; by simplify_eq.
Qed.

Lemma frozen_drop st st' : drop_inv st st' [] → frozen st st'.
Proof. intros Hinv q d d' Hd Hd'%(dropped_node _ _ _ _ Hinv). by simplify_eq. Qed.

Lemma frozen_more g st st' : registered_more g st st' → frozen st st'.
Proof.
  intros Hm q d d' Hd Hd'. destruct (rm_node _ _ _ Hm _ _ Hd) as [?|[_ ?]]; by simplify_eq/=.
Qed.

(** ** One lemma per kind of call *)

Definition safe w (x : option (result (output N E * world N E))) : Prop :=
  ∀ res, x = Some res →
    ∃ o w', res = Ok (o, w') ∧ world_ok w' ∧ frozen (w_store w) (w_store w').

Lemma upd_ok w st' hs :
  world_ok w → keeps_ids (w_store w) st' → wf st' (hs ++ (w_graphs w ≫= hg_owners)) →
  world_ok (upd w st' hs).
Proof. intros Hok Hk Hw. split; [done|]. exact (graphs_keep w st' Hok Hk). Qed.

Lemma borrow_safe w r f :
  world_ok w → (r ∈ w_handles w → r ∈ w_refs w → safe w (Some f)) → safe w (borrow w r f).
Proof.
  intros Hok Hf. unfold borrow. case_decide; [|done]. apply Hf; [done|].
  apply elem_of_app. by left.
Qed.

Lemma consume_safe w l f :
  world_ok w → (∀ hs, w_handles w ≡ₚ l ++ hs →
    wf (w_store w) (l ++ hs ++ (w_graphs w ≫= hg_owners)) → safe w (Some (f hs))) →
  safe w (consume w l f).
Proof.
  intros Hok Hf r. unfold consume. intros (hs & Hhs%release_all_perm & ->)%fmap_Some.
  eapply Hf; [done| |done]. rewrite (assoc_L (++)), <-Hhs. apply Hok.
Qed.

Lemma safe_Ok w o w' :
  world_ok w' → frozen (w_store w) (w_store w') → safe w (Some (Ok (o, w'))).
Proof. intros Hok Hf r [= <-]. by exists o, w'. Qed.

Lemma safe_upd w o st' hs :
  world_ok w → keeps_ids (w_store w) st' → frozen (w_store w) st' →
  wf st' (hs ++ (w_graphs w ≫= hg_owners)) → safe w (Some (Ok (o, upd w st' hs))).
Proof. intros. apply safe_Ok; [by apply upd_ok|done]. Qed.

(** Nothing visible changed. *)
Lemma safe_same w o st' hs :
  world_ok w → same_views (w_store w) st' → wf st' (hs ++ (w_graphs w ≫= hg_owners)) →
  safe w (Some (Ok (o, upd w st' hs))).
Proof. intros Hok [Hn HR] Hw. apply safe_upd; [done|by apply keeps_ids_ext|by apply frozen_views|done]. Qed.

Lemma safe_read w o : world_ok w → safe w (Some (Ok (o, upd w (w_store w) (w_handles w)))).
Proof. intros Hok. apply safe_same; [done..|]. apply Hok. Qed.

Lemma exec_new w value : world_ok w → safe w (exec (CallNew value) w).
Proof.
  intros Hok. destruct (RelRc_new_spec (w_store w) _ value (wok_store _ Hok)) as (Hw & Hf & Hn & HR).
  apply safe_upd; [done|by apply keeps_ids_ext| |done]. intros q d d' Hd Hd'.
  rewrite Hn in Hd'. case_decide; [|by simplify_eq].
  subst. by rewrite (fresh_node _ _ Hf) in Hd.
Qed.

Lemma exec_with_parents w value parents :
  world_ok w → safe w (exec (CallWithParents value parents) w).
Proof.
  intros Hok. apply consume_safe; [done|]. intros hs Hhs Hw.
  destruct (RelRc_with_parents_spec _ _ value parents Hw) as (p & st' & -> & Hw' & Hf & Hn & HR).
  simpl. apply safe_upd; [done|by apply keeps_ids_ext| |done]. intros q d d' Hd Hd'.
  rewrite Hn in Hd'. case_decide; [subst; by rewrite (fresh_node _ _ Hf) in Hd|].
  rewrite Hd in Hd'. by simplify_eq/=.
Qed.

Lemma exec_clone w p : world_ok w → safe w (exec (CallClone p) w).
Proof.
  intros Hok. apply borrow_safe; [done|]. intros _ Hp.
  destruct (owner_live _ _ _ (wok_store _ Hok) Hp) as [d Hd].
  destruct (rc_clone_wf _ _ p d (wok_store _ Hok) Hd) as (st' & Heq & Hw' & Hv).
  unfold RelRc_clone. rewrite Heq. apply safe_same; [done|done|done].
Qed.

Lemma exec_downgrade w p : world_ok w → safe w (exec (CallDowngrade p) w).
Proof.
  intros Hok. apply borrow_safe; [done|]. intros _ Hp.
  destruct (owner_live _ _ _ (wok_store _ Hok) Hp) as (d & (b & Hb & _)%node_Some).
  destruct (rc_new_weak_wf _ _ p (wok_store _ Hok) ltac:(by exists b)) as (st' & Heq & Hw' & Hv).
  unfold RelRc_downgrade. rewrite Heq. apply safe_same; [done|done|done].
Qed.

Lemma exec_clone_weak w p : world_ok w → safe w (exec (CallCloneWeak p) w).
Proof.
  intros Hok. apply borrow_safe; [done|]. intros _ Hp.
  pose proof (count_weak_alloc _ _ (wf_owned_count _ _ _ (wok_store _ Hok) Hp)) as Halloc.
  destruct (rc_new_weak_wf _ _ p (wok_store _ Hok) Halloc) as (st' & Heq & Hw' & Hv).
  unfold RelWeak_clone. rewrite Heq. apply safe_same; [done|done|done].
Qed.

Lemma exec_upgrade w p : world_ok w → safe w (exec (CallUpgrade p) w).
Proof.
  intros Hok. pose proof (wok_store _ Hok) as Hw. apply borrow_safe; [done|]. intros _ Hp. unfold RelWeak_upgrade.
  pose proof (count_weak_alloc _ _ (wf_owned_count _ _ _ Hw Hp)) as Halloc.
  destruct (node (w_store w) p) as [d|] eqn:Hd.
  - destruct (rc_upgrade_live _ _ p d Hw Hd) as (st' & -> & _ & Hw' & Hv).
    apply safe_same; [done|done|done].
  - rewrite (rc_upgrade_dead _ _ p Hw Halloc Hd). by apply safe_same.
Qed.

Lemma exec_drop w r : world_ok w → safe w (exec (CallDrop r) w).
Proof.
  intros Hok. apply consume_safe; [done|]. intros hs Hhs Hw.
  destruct (drop_refs_spec _ [r] _ Hw) as (st' & -> & Hw' & Hinv). simpl. apply safe_Ok;
    [|by apply frozen_drop]. split; [done|]. by apply (graphs_drop w st' hs).
Qed.

Lemma exec_value w p : world_ok w → safe w (exec (CallValue p) w).
Proof.
  intros Hok. apply borrow_safe; [done|]. intros _ Hp.
  destruct (owner_live _ _ _ (wok_store _ Hok) Hp) as [d Hd]. rewrite Hd. by apply safe_read.
Qed.

Lemma exec_incoming w p : world_ok w → safe w (exec (CallIncoming p) w).
Proof.
  intros Hok. apply borrow_safe; [done|]. intros _ Hp.
  destruct (owner_live _ _ _ (wok_store _ Hok) Hp) as [d Hd]. rewrite Hd. by apply safe_read.
Qed.

Lemma exec_all_outgoing w p : world_ok w → safe w (exec (CallAllOutgoing p) w).
Proof.
  intros Hok. pose proof (wok_store _ Hok) as Hw. apply borrow_safe; [done|]. intros _ Hp.
  destruct (owner_live _ _ _ Hw Hp) as [d Hd].
  destruct (all_outgoing_spec _ _ p d Hw Hd) as (st' & -> & Hw' & Hn & HR). simpl.
  apply safe_upd; [done|by apply keeps_ids_ext|by eapply frozen_update|]. by rewrite <-(assoc_L (++)).
Qed.

Lemma exec_n_outgoing w p : world_ok w → safe w (exec (CallNOutgoing p) w).
Proof.
  intros Hok. pose proof (wok_store _ Hok) as Hw. apply borrow_safe; [done|]. intros _ Hp.
  destruct (owner_live _ _ _ Hw Hp) as [d Hd].
  destruct (n_outgoing_spec _ _ p d Hw Hd) as (st' & -> & Hw' & Hn & HR). simpl.
  apply safe_upd; [done|by apply keeps_ids_ext|by eapply frozen_update|done].
Qed.

Lemma exec_node_registry w p : world_ok w → safe w (exec (CallNodeRegistry p) w).
Proof.
  intros Hok. pose proof (wok_store _ Hok) as Hw. apply borrow_safe; [done|]. intros _ Hp.
  destruct (owner_live _ _ _ Hw Hp) as [d Hd]. rewrite RelRc_registry_idle by apply Hw. rewrite Hd. simpl.
  destruct (nd_registry d) as [g|] eqn:Hg; [|by apply safe_same].
  pose proof (node_registry_alloc _ _ _ _ _ Hw Hd Hg) as Halloc.
  destruct (registry_at (w_store w) g) as [R|] eqn:HR.
  - destruct (reg_upgrade_live _ _ g R Hw HR) as (st' & -> & _ & Hw' & Hv).
    apply safe_same; [done|done|done].
  - rewrite (reg_upgrade_dead _ _ g Hw Halloc HR). by apply safe_same.
Qed.

Lemma exec_new_registry w : world_ok w → safe w (exec CallNewRegistry w).
Proof.
  intros Hok. pose proof (wok_store _ Hok) as Hw.
  destruct (reg_alloc_wf (w_store w) (w_refs w) Registry_new) as (g & st' & Heq & Hw' & Hg & _ & Hn & HR).
  { by rewrite Registry_new_refs. }
  { apply Registry_new_ok. }
  unfold exec. rewrite Heq. apply safe_upd; [done| |by apply frozen_views|done].
  intros h R Hh. exists R. rewrite HR. case_decide; [congruence|by eauto].
Qed.

Lemma exec_clone_registry w g : world_ok w → safe w (exec (CallCloneRegistry g) w).
Proof.
  intros Hok. pose proof (wok_store _ Hok) as Hw. apply borrow_safe; [done|]. intros _ Hg.
  destruct (reg_owner_live _ _ _ Hw Hg) as [R HR].
  destruct (reg_clone_wf _ _ g R Hw HR) as (st' & -> & Hw' & Hv). simpl.
  apply safe_same; [done|done|done].
Qed.

(** An update of one registry that drops no id of a live node. *)
Lemma keeps_ids_update st st' g R R' :
  registry_at st g = Some R →
  (∀ h, registry_at st' h = if decide (h = g) then Some R' else registry_at st h) →
  (∀ k q, sm_get k (reg_nodes R) = Some q → is_Some (node st q) → sm_get k (reg_nodes R') = Some q) →
  keeps_ids st st'.
Proof.
  intros Hg HR Hk h Rh Hh. rewrite HR. case_decide; [|by exists Rh; eauto]. simplify_eq. by exists R'.
Qed.

Lemma with_handles w r : r ∈ w_handles w → r ∈ w_refs w.
Proof. intros Hr. apply elem_of_app. by left. Qed.

Lemma exec_register w p g : world_ok w → safe w (exec (CallRegister p g) w).
Proof.
  intros Hok. pose proof (wok_store _ Hok) as Hw. unfold exec. case_decide as Hg; [|done].
  apply borrow_safe; [done|]. intros _ Hp.
  destruct (owner_live _ _ _ Hw Hp) as [d Hd].
  destruct (reg_owner_live _ _ _ Hw (with_handles _ _ Hg)) as [R HR].
  destruct (registrable_dec_or _ p g d Hd) as [(d' & ? & Hreg)|(h & Hh & Hne)].
  - simplify_eq. destruct (try_register_in_ok _ _ p g d R Hw Hd HR Hreg)
      as (id & R' & st' & -> & Hw' & Hn & HR' & Hok' & Hid & Hq & Hget & _). simpl.
    apply safe_upd; [done| |by eapply frozen_update|done]. eapply keeps_ids_update; [done..|]. intros k q Hk _.
    by apply (added_id R R' p id (wf_st_regs _ _ Hw _ _ HR)).
  - destruct (try_register_in_other _ _ p g d R h Hw Hd HR Hh Hne) as (st' & -> & Hw' & Hv). simpl.
    apply safe_same; [done|done|done].
Qed.

Lemma exec_add_node w p g : world_ok w → safe w (exec (CallAddNode p g) w).
Proof.
  intros Hok. pose proof (wok_store _ Hok) as Hw. unfold exec. case_decide as Hg; [|done].
  apply borrow_safe; [done|]. intros _ Hp.
  destruct (owner_live _ _ _ Hw Hp) as [d Hd].
  destruct (reg_owner_live _ _ _ Hw (with_handles _ _ Hg)) as [R HR].
  pose proof (wf_st_regs _ _ Hw _ _ HR) as HokR.
  destruct (with_registry_mut_spec (λ R, Registry_add_node R p) (w_store w) (w_refs w) g R
    (λ _ R' st2, (∀ q, node st2 q = node (w_store w) q) ∧
      ∀ k q, sm_get k (reg_nodes R) = Some q → sm_get k (reg_nodes R') = Some q) Hw HR)
    as (id & R' & st2 & st' & -> & Hw' & [Hn2 Hsub] & Hn' & HR').
  { intros st1 Hw1 Hn1 _ _.
    destruct (Registry_add_node_spec st1 (w_refs w) R p d Hw1 HokR) as
      (id & R' & st2 & -> & Hw2 & Hok' & [Hn2 HR2] & Hid & Hq & Hget & _); [by rewrite Hn1|].
    exists id, R', st2. split_and!; try done; [intros q; by rewrite Hn2, Hn1|]. by apply (added_id R R' p id HokR). }
  simpl. apply safe_upd; [done| | |done].
  2: apply frozen_views; intros q; by rewrite Hn', Hn2.
  eapply keeps_ids_update; [done..|]. eauto.
Qed.

Lemma exec_get_id w g p : world_ok w → safe w (exec (CallGetId g p) w).
Proof.
  intros Hok. unfold exec. case_decide as Hg; [|done]. apply borrow_safe; [done|]. intros _ _.
  destruct (reg_owner_live _ _ _ (wok_store _ Hok) (with_handles _ _ Hg)) as [R HR].
  rewrite registered_id_idle, HR by apply (wok_store _ Hok). by apply safe_read.
Qed.

Lemma exec_get w g id : world_ok w → safe w (exec (CallGet g id) w).
Proof.
  intros Hok. pose proof (wok_store _ Hok) as Hw. apply borrow_safe; [done|]. intros _ Hg.
  destruct (reg_owner_live _ _ _ Hw Hg) as [R HR]. rewrite (with_registry_get _ _ g R id Hw HR).
  destruct (Registry_get_spec _ _ R id Hw) as (st' & -> & Hw' & Hv).
  { intros p Hp. by eapply registered_alloc. }
  apply safe_same; [done|done|]. simpl. by rewrite <-(assoc_L (++)).
Qed.

Lemma exec_free_node_ids w g : world_ok w → safe w (exec (CallFreeNodeIds g) w).
Proof.
  intros Hok. pose proof (wok_store _ Hok) as Hw. apply borrow_safe; [done|]. intros _ Hg.
  destruct (reg_owner_live _ _ _ Hw Hg) as [R HR]. pose proof (wf_st_regs _ _ Hw _ _ HR) as HokR.
  destruct (with_registry_mut_spec Registry_free_node_ids (w_store w) (w_refs w) g R
    (λ _ R' st2, (∀ q, node st2 q = node (w_store w) q) ∧ ∀ k, sm_get k (reg_nodes R') = resolve (w_store w) R k) Hw HR)
    as (n & R' & st2 & st' & -> & Hw' & [Hn2 Hres] & Hn' & HR').
  { intros st1 Hw1 Hn1 _ _.
    destruct (Registry_free_node_ids_spec st1 (w_refs w) R Hw1 HokR)
      as (R' & st2 & -> & Hw2 & Hok' & [Hn2 HR2] & Hres).
    eexists _, R', st2. split_and!; try done; [intros q; by rewrite Hn2, Hn1|]. intros k. rewrite Hres. unfold resolve.
    destruct (sm_get k (reg_nodes R)); [by rewrite Hn1|done]. }
  simpl. apply safe_upd; [done| | |done].
  2: apply frozen_views; intros q; by rewrite Hn', Hn2.
  eapply keeps_ids_update; [done..|].
  intros k q Hk Hq. rewrite Hres. by apply resolve_Some.
Qed.

Lemma exec_contains_id w g id : world_ok w → safe w (exec (CallContainsId g id) w).
Proof.
  intros Hok. pose proof (wok_store _ Hok) as Hw. apply borrow_safe; [done|]. intros _ Hg.
  destruct (reg_owner_live _ _ _ Hw Hg) as [R HR]. rewrite (with_registry_contains_id _ _ g R id Hw HR).
  destruct (Registry_contains_id_spec _ _ R id Hw) as (st' & -> & Hw' & Hv).
  { intros p Hp. by eapply registered_alloc. }
  by apply safe_same.
Qed.

(** What [Registry::remove] does to the store. *)
Lemma remove_spec st ow g id R :
  wf st ow → registry_at st g = Some R →
  ∃ st', with_registry_mut g (λ R, Registry_remove_drop R id) st = Ok (tt, st') ∧ wf st' ow ∧
    (∀ q, node st' q = node st q) ∧
    (∀ h, registry_at st' h = if decide (h = g) then Some (Registry_remove R id).2 else registry_at st h).
Proof.
  intros Hw HR. pose proof (wf_st_regs _ _ Hw _ _ HR) as HokR.
  destruct (with_registry_mut_spec (λ R, Registry_remove_drop R id) st ow g R
    (λ _ R' st2, (∀ q, node st2 q = node st q) ∧ R' = (Registry_remove R id).2) Hw HR)
    as ([] & R' & st2 & st' & -> & Hw' & [Hn2 ->] & Hn' & HR').
  { intros st1 Hw1 Hn1 _ _.
    destruct (Registry_remove_drop_spec st1 ow R id Hw1 HokR) as (st2 & -> & Hw2 & [Hn2 HR2]).
    exists tt, (Registry_remove R id).2, st2. split_and!; try done; [by apply Registry_remove_ok|].
    intros q. by rewrite Hn2, Hn1. }
  exists st'. split_and!; try done. intros q. by rewrite Hn', Hn2.
Qed.

Lemma exec_all_ancestors w p : world_ok w → safe w (exec (CallAllAncestors p) w).
Proof.
  intros Hok. pose proof (wok_store _ Hok) as Hw. apply borrow_safe; [done|]. intros _ Hp.
  destruct (owner_live _ _ _ Hw Hp) as [d Hd].
  destruct (all_ancestors_walk _ _ _ _ Hw Hd) as (l & rest & -> & _). by apply safe_read.
Qed.

(** ** Calls on a graph *)

Lemma graph_split (gs : list HistoryGraph) i hg :
  gs !! i = Some hg → gs ≫= hg_owners ≡ₚ hg_owners hg ++ (delete i gs ≫= hg_owners).
Proof. intros Hi. by rewrite (delete_Permutation gs i hg Hi) at 1. Qed.

Lemma graph_update (gs : list HistoryGraph) i hg hg' :
  gs !! i = Some hg →
  <[i:=hg']> gs ≫= hg_owners ≡ₚ hg_owners hg' ++ (delete i gs ≫= hg_owners).
Proof.
  intros Hi. pose proof (lookup_lt_Some _ _ _ Hi) as Hlt.
  rewrite (graph_split _ i hg') by (by apply list_lookup_insert_eq).
  by rewrite !delete_take_drop, take_insert_ge, drop_insert_lt by lia.
Qed.

Lemma consume_graph_safe w i l f :
  world_ok w →
  (∀ hg hs, w_graphs w !! i = Some hg → hg_ok (w_store w) hg →
    wf (w_store w) (l ++ hg_owners hg ++ hs ++ (delete i (w_graphs w) ≫= hg_owners)) →
    safe w (Some (f hg hs))) →
  safe w (consume_graph w i l f).
Proof.
  intros Hok Hf. unfold consume_graph. destruct (w_graphs w !! i) as [hg|] eqn:Hi; [|done].
  apply consume_safe; [done|]. intros hs Hhs Hw. apply Hf; [done| |].
  - apply Hok. by eapply list_elem_of_lookup_2.
  - rewrite (graph_split _ _ _ Hi) in Hw. by rewrite (Permutation_app_swap_app (hg_owners hg)).
Qed.

Lemma upd_graph_ok w i st' hs hg hg' :
  world_ok w → w_graphs w !! i = Some hg → keeps_ids (w_store w) st' → hg_ok st' hg' →
  wf st' (hg_owners hg' ++ hs ++ (delete i (w_graphs w) ≫= hg_owners)) →
  world_ok (upd_graph w i st' hs hg').
Proof.
  intros Hok Hi Hk Hok' Hw. split; simpl.
  - unfold w_refs. simpl. rewrite (graph_update _ i hg) by done.
    by rewrite (Permutation_app_swap_app hs).
  - intros hg1 [j Hj]%list_elem_of_lookup. rewrite list_lookup_insert in Hj.
    case_decide; [naive_solver|]. eapply graphs_keep; [done..|]. by eapply list_elem_of_lookup_2.
Qed.

Lemma exec_new_graph w g : world_ok w → safe w (exec (CallNewGraph g) w).
Proof.
  intros Hok. apply consume_safe; [done|]. intros hs Hhs Hw. apply safe_Ok; [|by apply frozen_refl].
  split; simpl.
  - unfold w_refs. cbn [w_handles w_graphs]. rewrite bind_cons. unfold hg_owners at 1, sec_values.
    simpl. rewrite sec_iter_new. simpl. by rewrite <-Permutation_middle.
  - intros hg [->|Hhg]%elem_of_cons; [|by apply Hok].
    destruct (reg_owner_live _ _ g Hw) as [R HR]; [left|]. exists R. split; [done|].
    intros k p. simpl. by rewrite sec_get_new.
Qed.

(** What the two ways to insert have in common. *)
Lemma exec_insert_node w i p : world_ok w → safe w (exec (CallInsertNode i p) w).
Proof.
  intros Hok. apply consume_graph_safe; [done|]. intros hg hs Hi Hhg Hw.
  destruct (owner_live _ _ p Hw) as [d Hd]; [left|].
  destruct (get_node_id_spec _ _ hg p Hw Hhg) as ([k|] & _ & Ho).
  - destruct (insert_node_known _ _ hg p k Hw Hhg) as (st' & -> & Hw' & Hv); [by apply Ho|].
    simpl. apply safe_Ok; [|apply frozen_views, Hv]. eapply upd_graph_ok; [done..| | |done].
    + apply keeps_ids_ext, Hv.
    + by eapply hg_ok_same_views.
  - assert (¬ in_graph hg p) as Hni by (intros [k Hk]; by apply Ho in Hk).
    destruct (registrable_dec_or _ p (hg_registry hg) d Hd) as [Hreg|(h & Hh & Hne)].
    + destruct (insert_node_new _ _ hg p Hw Hhg Hni Hreg)
        as (id & hg' & st' & -> & Hw' & Hok' & _ & _ & _ & Hm & _). simpl.
      apply safe_Ok; [|by eapply frozen_more]. eapply upd_graph_ok; [done..| |done|done]. by eapply keeps_ids_more.
    + destruct (insert_node_foreign _ _ hg p d h Hw Hhg Hni Hd Hh Hne)
        as (st' & Heq & Hw' & Hok' & Hinv & _).
      rewrite Heq. simpl. apply safe_Ok; [|by apply frozen_drop]. unfold upd_graph. rewrite list_insert_id by done.
      assert (wf st' (hs ++ (w_graphs w ≫= hg_owners))) as Hw1.
      { rewrite (graph_split _ _ _ Hi). by rewrite (Permutation_app_swap_app hs). }
      split; [done|]. by apply (graphs_drop w st' hs).
Qed.

(** Calls that only read a graph. *)
Lemma graph_read_safe w i f :
  world_ok w →
  (∀ hg ow, hg_ok (w_store w) hg → wf (w_store w) (hg_owners hg ++ ow) →
    ∃ o, f hg (w_handles w) = Ok (o, upd w (w_store w) (w_handles w))) →
  safe w (consume_graph w i [] f).
Proof.
  intros Hok Hf. unfold consume_graph. destruct (w_graphs w !! i) as [hg|] eqn:Hi; [|done].
  apply list_elem_of_lookup_2 in Hi. destruct (graph_refs w hg Hi) as [l Hl].
  destruct (Hf hg l) as [o Ho].
  - by apply Hok.
  - rewrite <-Hl. apply Hok.
  - unfold consume. simpl. rewrite Ho. by apply safe_read.
Qed.

Lemma exec_get_node w i id : world_ok w → safe w (exec (CallGetNode i id) w).
Proof. intros Hok. apply graph_read_safe; [done|]. eauto. Qed.

Lemma exec_get_node_id w i p : world_ok w → safe w (exec (CallGetNodeId i p) w).
Proof.
  intros Hok. unfold exec. case_decide; [|done]. apply graph_read_safe; [done|].
  intros hg ow Hhg Hw. destruct (get_node_id_spec _ _ hg p Hw Hhg) as (o & -> & _). eauto.
Qed.

Lemma exec_source w i e : world_ok w → safe w (exec (CallSource i e) w).
Proof.
  intros Hok. apply graph_read_safe; [done|]. intros hg ow Hhg Hw.
  destruct (source_spec _ _ hg e Hw Hhg) as (o & -> & _). eauto.
Qed.

Lemma exec_incoming_edges w i id : world_ok w → safe w (exec (CallIncomingEdges i id) w).
Proof.
  intros Hok. apply graph_read_safe; [done|]. intros hg ow Hhg Hw.
  destruct (incoming_edges_spec _ _ hg id Hw Hhg) as (l & -> & _). eauto.
Qed.

Lemma exec_parents w i id : world_ok w → safe w (exec (CallParents i id) w).
Proof.
  intros Hok. apply graph_read_safe; [done|]. intros hg ow Hhg Hw.
  destruct (parents_spec _ _ hg id Hw Hhg) as (l & -> & _). eauto.
Qed.

(** Reading outgoing edges prunes them and changes nothing else. *)
Lemma pruned_frozen st st' : pruned st st' → frozen st st'.
Proof.
  intros [Hn _] q d d' Hd Hd'. specialize (Hn q). rewrite Hd, Hd' in Hn. simpl in Hn. by injection Hn.
Qed.
Lemma safe_pruned w i hg hs o st' :
  world_ok w → w_graphs w !! i = Some hg → pruned (w_store w) st' →
  wf st' (hg_owners hg ++ hs ++ (delete i (w_graphs w) ≫= hg_owners)) → safe w (Some (Ok (o, upd w st' hs))).
Proof.
  intros Hok Hi Hp Hw. apply safe_upd; [done|by apply keeps_ids_ext, Hp|by apply pruned_frozen|].
  rewrite (graph_split _ _ _ Hi). by rewrite (Permutation_app_swap_app hs).
Qed.

Lemma exec_outgoing_edges w i id : world_ok w → safe w (exec (CallOutgoingEdges i id) w).
Proof.
  intros Hok. apply consume_graph_safe; [done|]. intros hg hs Hi Hhg Hw.
  destruct (outgoing_edges_total _ _ hg id Hw Hhg) as (l & st' & -> & Hw' & Hp & _). by eapply safe_pruned.
Qed.

Lemma exec_children w i id : world_ok w → safe w (exec (CallChildren i id) w).
Proof.
  intros Hok. apply consume_graph_safe; [done|]. intros hg hs Hi Hhg Hw.
  destruct (children_total _ _ hg id Hw Hhg) as (l & st' & -> & Hw' & Hp & _). by eapply safe_pruned.
Qed.

Lemma exec_edges w i id d : world_ok w → safe w (exec (CallEdges i id d) w).
Proof.
  intros Hok. apply consume_graph_safe; [done|]. intros hg hs Hi Hhg Hw.
  destruct (edges_directed_spec _ _ hg id d Hw Hhg) as (l & st' & -> & Hw' & Hp & _). by eapply safe_pruned.
Qed.

Lemma exec_neighbors w i id d : world_ok w → safe w (exec (CallNeighbors i id d) w).
Proof.
  intros Hok. apply consume_graph_safe; [done|]. intros hg hs Hi Hhg Hw. destruct d.
  - destruct (outgoing_neighbors_spec _ _ hg id Hw Hhg) as (l & st' & -> & Hw' & Hp & _). by eapply safe_pruned.
  - destruct (incoming_neighbors_spec _ _ hg id Hw Hhg) as (es & ks & -> & _). by eapply safe_pruned.
Qed.

Lemma exec_edge_references w i : world_ok w → safe w (exec (CallEdgeReferences i) w).
Proof.
  intros Hok. apply graph_read_safe; [done|]. intros hg ow Hhg Hw.
  destruct (read_all_references _ _ hg Hw Hhg) as (es & -> & l & Hl & _). simpl. rewrite Hl. simpl. eauto.
Qed.

Lemma clone_graph_spec st hg ow :
  wf st (hg_owners hg ++ ow) → hg_ok st hg →
  ∃ st', HistoryGraph_clone hg st = Ok (hg, st') ∧
    wf st' (hg_owners hg ++ hg_owners hg ++ ow) ∧ same_views st st'.
Proof.
  intros Hw (R & HR & _). unfold HistoryGraph_clone.
  destruct (clone_nodes st st _ (sec_values (hg_nodes hg)) ltac:(done) Hw) as (st1 & -> & Hw1 & Hv1).
  { intros p [k Hk]%elem_of_sec_values. destruct (hg_node_live _ _ _ _ _ Hw Hk) as [d ->]. done. }
  destruct (reg_clone_wf _ _ (hg_registry hg) R Hw1) as (st2 & Hst2 & Hw2 & Hv2); [by rewrite (proj2 Hv1)|].
  cbn [rbind]. rewrite Hst2. exists st2. split_and!; [done| |by etrans].
  unfold hg_owners at 1. rewrite <-(assoc_L (++)). simpl. by rewrite <-Permutation_middle.
Qed.

Lemma exec_clone_graph w i : world_ok w → safe w (exec (CallCloneGraph i) w).
Proof.
  intros Hok. apply consume_graph_safe; [done|]. intros hg hs Hi Hhg Hw. simpl in Hw.
  destruct (clone_graph_spec _ _ _ Hw Hhg) as (st' & -> & Hw' & Hv). simpl.
  assert (keeps_ids (w_store w) st') as Hk by apply keeps_ids_ext, Hv.
  apply safe_Ok; [|apply frozen_views, Hv]. split; simpl.
  - unfold w_refs. cbn [w_handles w_graphs]. rewrite bind_cons, (graph_split _ _ _ Hi).
    rewrite (Permutation_app_swap_app hs (hg_owners hg)). by rewrite (Permutation_app_swap_app hs).
  - intros hg1 [->|?]%elem_of_cons; [by eapply hg_ok_same_views|]. by eapply graphs_keep.
Qed.

Lemma exec_drop_graph w i : world_ok w → safe w (exec (CallDropGraph i) w).
Proof.
  intros Hok. apply consume_graph_safe; [done|]. intros hg hs Hi Hhg Hw. simpl in Hw.
  unfold HistoryGraph_drop. destruct (drop_refs_spec _ _ _ Hw) as (st' & -> & Hw' & Hinv). simpl.
  apply safe_Ok; [|by apply frozen_drop]. split; [done|]. apply (graphs_drop w st' hs); try done. simpl.
  intros hg1 Hhg1. rewrite (delete_Permutation _ _ _ Hi). by right.
Qed.

(** ** More calls on registries and graphs *)

Lemma exec_len w g : world_ok w → safe w (exec (CallLen g) w).
Proof.
  intros Hok. pose proof (wok_store _ Hok) as Hw. apply borrow_safe; [done|]. intros _ Hg.
  destruct (reg_owner_live _ _ _ Hw Hg) as [R HR]. rewrite (with_registry_len _ _ g R Hw HR). by apply safe_read.
Qed.

Lemma exec_iter w g : world_ok w → safe w (exec (CallIter g) w).
Proof.
  intros Hok. pose proof (wok_store _ Hok) as Hw. apply borrow_safe; [done|]. intros _ Hg.
  destruct (reg_owner_live _ _ _ Hw Hg) as [R HR]. rewrite (with_registry_iter _ _ g R Hw HR).
  destruct (Registry_iter_spec _ _ g R Hw HR) as (l & st' & -> & Hw' & Hv & _). simpl.
  apply safe_same; [done..|]. by rewrite <-(assoc_L (++)).
Qed.

Lemma exec_node_ids w i : world_ok w → safe w (exec (CallNodeIds i) w).
Proof. intros Hok. apply graph_read_safe; [done|]. eauto. Qed.

Lemma exec_get_edge w i e : world_ok w → safe w (exec (CallGetEdge i e) w).
Proof.
  intros Hok. apply graph_read_safe; [done|]. intros hg ow Hhg Hw.
  destruct (get_edge_spec _ _ hg e Hw Hhg) as (o & -> & _). simpl. eauto.
Qed.

Lemma exec_target w i e : world_ok w → safe w (exec (CallTarget i e) w).
Proof.
  intros Hok. apply graph_read_safe; [done|]. intros hg ow Hhg Hw.
  destruct (target_spec _ _ hg e Hw Hhg) as (o & -> & _). simpl. eauto.
Qed.

(** A call on a graph after which nothing looks different. *)
Lemma safe_same_graph w i hg hs ow' o st' :
  world_ok w → w_graphs w !! i = Some hg → same_views (w_store w) st' →
  wf st' (ow' ++ hg_owners hg ++ hs ++ (delete i (w_graphs w) ≫= hg_owners)) →
  safe w (Some (Ok (o, upd w st' (ow' ++ hs)))).
Proof.
  intros Hok Hi Hv Hw. apply safe_same; [done..|]. rewrite <-(assoc_L (++)), (graph_split _ _ _ Hi).
  by rewrite (Permutation_app_swap_app hs).
Qed.

Lemma exec_graph_registry w i : world_ok w → safe w (exec (CallGraphRegistry i) w).
Proof.
  intros Hok. apply consume_graph_safe; [done|]. intros hg hs Hi (R & HR & _) Hw. simpl in Hw.
  unfold HistoryGraph_registry. destruct (reg_clone_wf _ _ _ _ Hw HR) as (st' & -> & Hw' & Hv). simpl.
  by apply (safe_same_graph w i hg hs [RegStrong (hg_registry hg)]).
Qed.

Lemma exec_clone_node w i id : world_ok w → safe w (exec (CallCloneNode i id) w).
Proof.
  intros Hok. apply consume_graph_safe; [done|]. intros hg hs Hi Hhg Hw. simpl in Hw.
  unfold HistoryGraph_get_node. destruct (sec_get id (hg_nodes hg)) as [p|] eqn:Hp.
  - destruct (hg_node_live _ _ _ _ _ Hw Hp) as [d Hd]. unfold RelRc_clone.
    destruct (rc_clone_wf _ _ _ _ Hw Hd) as (st' & -> & Hw' & Hv). simpl.
    by apply (safe_same_graph w i hg hs [NodeStrong p]).
  - by apply (safe_same_graph w i hg hs []).
Qed.

(** ** Calls that may panic *)

(** The messages a call may panic with. *)
Definition may_panic c (msg : string) : Prop :=
  match c with
  | CallInsertAncestors _ _ => msg = "node not registered"%string
  | CallSerializeGraph _ => msg = "valid node"%string
  | CallDeserializeGraph ser => ser_bad (sr_nodes (shg_registry ser)) ∨ unknown_key ser
  | _ => False
  end.

Definition safe_or_panic w c (x : option (result (output N E * world N E))) : Prop :=
  ∀ res, x = Some res →
    (∃ o w', res = Ok (o, w') ∧ wf (w_store w') (w_refs w') ∧
       (disciplined c w = true → world_ok w') ∧ frozen (w_store w) (w_store w')) ∨
    ∃ msg, res = Err (Panic msg) ∧ may_panic c msg.

Lemma safe_no_panic w c x : safe w x → safe_or_panic w c x.
Proof.
  intros Hs res Hx. left. destruct (Hs res Hx) as (o & w' & -> & Hok & Hf). exists o, w'.
  split_and!; [done|apply Hok|done|done].
Qed.

(** Removing an id keeps the store consistent, and the graphs of other registries. *)
Lemma exec_remove w g id :
  world_ok w → safe_or_panic w (CallRemove g id) (exec (CallRemove g id) w).
Proof.
  intros Hok. pose proof (wok_store _ Hok) as Hw. unfold exec, borrow. case_decide as Hh; [|done].
  destruct (reg_owner_live _ _ _ Hw (with_handles _ _ Hh)) as [R HR].
  destruct (remove_spec _ _ g id R Hw HR) as (st' & -> & Hw' & Hn & HR').
  intros res [= <-]. left. eexists _, _. split_and!; [done|exact Hw'| |by apply frozen_views].
  intros Hall. split; [exact Hw'|]. simpl. intros hg Hhg.
  assert (hg_registry hg ≠ g) as Hne.
  { apply list_elem_of_In in Hhg. apply (proj1 (forallb_forall _ _) Hall) in Hhg.
    by apply bool_decide_eq_true in Hhg. }
  destruct (wok_graphs _ Hok hg Hhg) as (Rh & HRh & Hin). exists Rh. split; [|done].
  rewrite HR'. by rewrite decide_False.
Qed.

Lemma graph_call_panic w c i l f :
  world_ok w →
  (∀ hg hs, w_graphs w !! i = Some hg → hg_ok (w_store w) hg →
    wf (w_store w) (l ++ hg_owners hg ++ hs ++ (delete i (w_graphs w) ≫= hg_owners)) →
    safe_or_panic w c (Some (f hg hs))) →
  safe_or_panic w c (consume_graph w i l f).
Proof.
  intros Hok Hf. unfold consume_graph, consume. destruct (w_graphs w !! i) as [hg|] eqn:Hi; [|done].
  intros res (hs & Hhs%release_all_perm & ->)%fmap_Some. apply (Hf hg hs); [done|..|done].
  - apply Hok. by eapply list_elem_of_lookup_2.
  - pose proof (wok_store _ Hok) as Hw. unfold w_refs in Hw. rewrite Hhs, (graph_split _ _ _ Hi) in Hw.
    rewrite <-(assoc_L (++)) in Hw. by rewrite (Permutation_app_swap_app (hg_owners hg)).
Qed.

Lemma exec_insert_ancestors w i p :
  world_ok w → safe_or_panic w (CallInsertAncestors i p) (exec (CallInsertAncestors i p) w).
Proof.
  intros Hok. apply graph_call_panic; [done|]. intros hg hs Hi Hhg Hw.
  destruct (HistoryGraph_insert_ancestors_outcome hg p _ _ Hw Hhg)
    as [(id & hg' & st' & -> & Hw' & Hins & _)|[-> _]]; [|intros res [= <-]; right; by eexists].
  apply safe_no_panic, safe_Ok; [|eapply frozen_more; apply Hins]. eapply upd_graph_ok; [done..| | |done].
  - eapply keeps_ids_more. apply Hins.
  - apply Hins.
Qed.

Lemma exec_serialize_graph w i :
  world_ok w → safe_or_panic w (CallSerializeGraph i) (exec (CallSerializeGraph i) w).
Proof.
  intros Hok. apply graph_call_panic; [done|]. intros hg hs Hi (R & HR & Hin) Hw. simpl in Hw.
  destruct (HistoryGraph_to_serialized_outcome _ _ hg R Hw HR Hin)
    as [(ser & st' & R' & -> & Hw' & Hv & _)|[-> _]]; [|intros res [= <-]; right; by eexists].
  apply safe_no_panic. by apply (safe_same_graph w i hg hs []).
Qed.

(** A new graph beside the others. *)
Lemma add_graph_ok w st' hg :
  world_ok w → keeps_ids (w_store w) st' → hg_ok st' hg → wf st' (hg_owners hg ++ w_refs w) →
  world_ok (mkWorld st' (w_handles w) (hg :: w_graphs w)).
Proof.
  intros Hok Hk Hhg Hw. split; simpl.
  - unfold w_refs. cbn [w_handles w_graphs]. rewrite bind_cons.
    by rewrite (Permutation_app_swap_app (w_handles w)).
  - intros hg1 [->|?]%elem_of_cons; [done|]. by eapply graphs_keep.
Qed.

(** Old registries have lost nothing when a graph is rebuilt. *)
Lemma revived_ids ser st ow R nodes st1 st3 hg st' h Rh :
  wf st ow → revived ser st ow R nodes st1 st3 hg st' → RegStrong h ∈ ow → registry_at st h = Some Rh →
  ∃ R3, registry_at st3 h = Some R3 ∧ ∀ k, sm_get k (reg_nodes R3) = sm_get k (reg_nodes Rh).
Proof.
  intros Hw Hrv Hh HRh. destruct (rv_wf _ _ _ _ _ _ _ _ _ Hrv) as (l & Hw3 & _).
  pose proof (rv_dropped _ _ _ _ _ _ _ _ _ Hrv) as Hinv. pose proof (rv_decoded _ _ _ _ _ _ _ _ _ Hrv) as Hd.
  destruct (reg_owner_live _ _ h Hw3) as [R3 HR3]; [apply elem_of_app; by right|]. exists R3. split; [done|].
  assert (registry_at st1 h = Some Rh) as HR1 by by rewrite (dec_reg _ _ _ _ _ Hd).
  intros k. apply option_eq. intros p. rewrite (dropped_entries _ _ _ _ _ _ k p Hw3 Hinv HR1 HR3).
  split; [by intros [? _]|]. intros Hk. split; [done|]. destruct (node st1 p) as [d|] eqn:Hp; [|by right].
  destruct (dec_new _ _ _ _ _ Hd p d Hp) as [Hp0|[j Hj]].
  - left. destruct (live_held _ _ _ _ Hw Hp0) as (o & Ho & Hanc). exists o. split; [apply elem_of_app; by right|].
    eapply rtc_subrel; [|exact Hanc]. intros a b (db & e & Hb & ?). exists db, e.
    split; [by apply (dec_old _ _ _ _ _ Hd)|done].
  - right. destruct (dec_node _ _ _ _ _ Hd j p Hj) as (_ & _ & d' & _ & Hp' & Hr & _). simplify_eq. simpl. congruence.
Qed.

Lemma exec_deserialize_graph w ser :
  world_ok w → safe_or_panic w (CallDeserializeGraph ser) (exec (CallDeserializeGraph ser) w).
Proof.
  intros Hok. pose proof (wok_store _ Hok) as Hw. unfold exec.
  destruct (HistoryGraph_from_serialized_outcome ser _ _ Hw)
    as [(R & nodes & st1 & st3 & hg & st' & -> & _ & _ & Hw' & Hhg & Hrv)|(msg & -> & Hbad)].
  2: { intros res [= <-]. right. by exists msg. }
  apply safe_no_panic, safe_Ok.
  - apply add_graph_ok; [done| |done|done]. intros h Rh HRh.
    pose proof (registry_owned _ _ _ _ Hw HRh) as Hh.
    destruct (revived_ids _ _ _ _ _ _ _ _ _ h Rh Hw Hrv Hh HRh) as (R3 & HR3 & Hids).
    exists R3. rewrite (rv_registry _ _ _ _ _ _ _ _ _ Hrv), decide_False.
    + split; [done|]. intros k q Hk _. by rewrite Hids.
    + intros ->. destruct (rv_wf _ _ _ _ _ _ _ _ _ Hrv) as (l & Hw3 & _).
      apply registry_at_Some in HR3 as (b & Hb & _). rewrite (rv_fresh _ _ _ _ _ _ _ _ _ Hrv) in Hb. done.
  - intros q d d' Hd Hd'. simpl in Hd'. pose proof (revived_old _ _ _ _ _ _ _ _ _ Hw Hrv _ _ Hd). by simplify_eq.
Qed.

(** ** All calls together *)

#[local] Hint Resolve exec_contains_id exec_remove exec_all_ancestors exec_source exec_value exec_incoming exec_get_id exec_get_node exec_get_node_id
  exec_incoming_edges exec_parents exec_new exec_with_parents exec_clone exec_downgrade exec_upgrade
  exec_drop exec_all_outgoing exec_n_outgoing exec_node_registry exec_new_registry
  exec_clone_registry exec_register exec_add_node exec_get exec_free_node_ids exec_new_graph
  exec_insert_node exec_outgoing_edges exec_children exec_clone_graph exec_drop_graph
  exec_len exec_iter exec_node_ids exec_get_edge exec_target exec_graph_registry exec_clone_node
  exec_insert_ancestors exec_serialize_graph exec_deserialize_graph exec_clone_weak exec_neighbors exec_edges
  exec_edge_references safe_no_panic : exec.

Lemma exec_safe c w : world_ok w → safe_or_panic w c (exec c w).
Proof. intros Hok. destruct c; by auto with exec. Qed.

Lemma disciplined_ok c w o w' :
  world_ok w → disciplined c w = true → exec c w = Some (Ok (o, w')) → world_ok w'.
Proof.
  intros Hok Hd Hc. destruct (exec_safe c w Hok _ Hc) as [(o1 & w1 & [= <- <-] & _ & ? & _)|(? & ? & _)]; [auto|discriminate].
Qed.

Lemma reachable_ok w : reachable w → world_ok w.
Proof.
  induction 1 as [|w c o w' _ IH Hd Hc]; [apply empty_world_ok|]. by eapply disciplined_ok.
Qed.

Lemma run_wf cs w : run cs (empty_world (N:=N) (E:=E)) = Some w → wf (w_store w) (w_refs w).
Proof.
  intros Hr. apply wok_store, reachable_ok. by eapply run_reachable; [constructor|].
Qed.
End client_facts.
