(* ===== verification/Spec.v ===== *)
(** * What the library promises

    A specification without pointers to children, reference counts or slot
    maps: nodes with a value and a list of parents that never change,
    registries that give ids to nodes, graphs that give names to nodes, and
    the handles of a client.  A node exists as long as it is held: by a handle,
    by a graph, or by a descendant that exists.  [spec_step] says what each call
    returns and what it leaves behind. *)

From S2P Require Import Prelude Slotmap Store StoreFacts Rc Registry Drop DropFacts RegistryOps Edge Node NodeFacts Ancestors History Petgraph Serialization Deserialize GraphDeserial Client.

Record content (N E : Type) {S : SlotMapSig} := mkContent {
  (** the value and the parents of a node that exists *)
  ct_node : addr → option (N * list (addr * E));
  (** the registry that a node belongs to *)
  ct_owner : addr → option addr;
  (** the registries that exist *)
  ct_registry : addr → bool;
  (** the node that an id of a registry stands for, which may be gone *)
  ct_id : addr → NodeId → option addr;
}.
Arguments mkContent {N E S} _ _ _ _.
Arguments ct_node {N E S} _ _.
Arguments ct_owner {N E S} _ _.
Arguments ct_registry {N E S} _ _.
Arguments ct_id {N E S} _ _ _.

Record graph_view {S : SlotMapSig} := mkGraphView {
  gv_registry : addr;
  gv_node : NodeId → option addr;
}.
Arguments mkGraphView {S} _ _.

Record spec (N E : Type) {S : SlotMapSig} := mkSpec {
  sp_content : content N E;
  sp_handles : list ref;
  sp_graphs : list graph_view;
}.
Arguments mkSpec {N E S} _ _ _.
Arguments sp_content {N E S} _.
Arguments sp_handles {N E S} _.
Arguments sp_graphs {N E S} _.

(** States are compared by what can be looked up in them. *)
#[export] Instance content_equiv {N E S} : Equiv (@content N E S) := λ C C',
  (∀ p, ct_node C' p = ct_node C p) ∧ (∀ p, ct_owner C' p = ct_owner C p) ∧
  (∀ g, ct_registry C' g = ct_registry C g) ∧ (∀ g k, ct_id C' g k = ct_id C g k).
#[export] Instance graph_view_equiv {S} : Equiv (@graph_view S) := λ f f',
  gv_registry f' = gv_registry f ∧ ∀ k, gv_node f' k = gv_node f k.
#[export] Instance spec_equiv {N E S} : Equiv (@spec N E S) := λ s s',
  sp_content s ≡ sp_content s' ∧ sp_handles s = sp_handles s' ∧ sp_graphs s ≡ sp_graphs s'.

#[export] Instance content_equivalence {N E S} : Equivalence (@equiv (@content N E S) _).
Proof.
  split.
  - by intros C.
  - intros C C' (H1 & H2 & H3 & H4). split_and!; intros; by rewrite ?H1, ?H2, ?H3, ?H4.
  - intros C1 C2 C3 (H1 & H2 & H3 & H4) (K1 & K2 & K3 & K4).
    split_and!; intros; by rewrite ?K1, ?K2, ?K3, ?K4.
Qed.
#[export] Instance graph_view_equivalence {S} : Equivalence (@equiv (@graph_view S) _).
Proof.
  split.
  - by intros f.
  - intros f f' [H1 H2]. split; intros; by rewrite ?H1, ?H2.
  - intros f1 f2 f3 [H1 H2] [K1 K2]. split; intros; by rewrite ?K1, ?K2.
Qed.
#[export] Instance spec_equivalence {N E S} : Equivalence (@equiv (@spec N E S) _).
Proof.
  split.
  - by intros s.
  - by intros s s' (? & ? & ?).
  - intros s1 s2 s3 (? & ? & ?) (? & ? & ?). split_and!; by etrans.
Qed.

Section spec.
Context {N E : Type} {S : SlotMapSig}.
Implicit Types (C : content N E) (s : spec N E) (p q x y g : addr) (k : NodeId) (f : graph_view).

(** ** Changes of the content *)

Definition ct_add p (value : N) (parents : list (addr * E)) C : content N E :=
  mkContent (λ q, if decide (q = p) then Some (value, parents) else ct_node C q)
    (ct_owner C) (ct_registry C) (ct_id C).
Definition ct_add_registry g C : content N E :=
  mkContent (ct_node C) (ct_owner C)
    (λ h, if decide (h = g) then true else ct_registry C h)
    (λ h k, if decide (h = g) then None else ct_id C h k).
(** [p] gets the id [k] in [g]. *)
Definition ct_enter g k p C : content N E :=
  mkContent (ct_node C) (ct_owner C) (ct_registry C)
    (λ h j, if decide (h = g ∧ j = k) then Some p else ct_id C h j).
(** The id [k] of [g] is given up. *)
Definition ct_leave g k C : content N E :=
  mkContent (ct_node C) (ct_owner C) (ct_registry C)
    (λ h j, if decide (h = g ∧ j = k) then None else ct_id C h j).
(** The node with the id [k] of [g], if it is not gone. *)
Definition ct_name C g k : option addr :=
  ct_id C g k ≫= λ p, if ct_node C p then Some p else None.
(** The ids of nodes that are gone are given up. *)
Definition ct_free g C : content N E :=
  mkContent (ct_node C) (ct_owner C) (ct_registry C)
    (λ h k, if decide (h = g) then ct_name C g k else ct_id C h k).
(** [p] belongs to [g]. *)
Definition ct_own p g C : content N E :=
  mkContent (ct_node C) (λ q, if decide (q = p) then Some g else ct_owner C q)
    (ct_registry C) (ct_id C).

(** ** Who holds what *)

Definition ct_parent C x y : Prop :=
  ∃ v l e, ct_node C y = Some (v, l) ∧ (x, e) ∈ l.
Definition ct_parents C p : list addr :=
  match ct_node C p with Some (_, l) => l.*1 | None => [] end.
Definition gv_in f p : Prop := ∃ k, gv_node f k = Some p.

Definition sp_root s p : Prop :=
  NodeStrong p ∈ sp_handles s ∨ ∃ f, f ∈ sp_graphs s ∧ gv_in f p.
Definition sp_held s p : Prop := ∃ q, sp_root s q ∧ rtc (ct_parent (sp_content s)) p q.
Definition sp_registry_held s g : Prop :=
  RegStrong g ∈ sp_handles s ∨ ∃ f, f ∈ sp_graphs s ∧ gv_registry f = g.

(** What is not held is gone.  A node that goes gives up its id in the registry
    that it belongs to; other registries keep theirs. *)
Definition collected s s' : Prop :=
  let C := sp_content s in let C' := sp_content s' in
  (∀ p d, ct_node C' p = Some d ↔ ct_node C p = Some d ∧ sp_held s p) ∧
  (∀ p g, ct_owner C' p = Some g ↔ ct_owner C p = Some g ∧ sp_held s p) ∧
  (∀ g, ct_registry C' g = true ↔ ct_registry C g = true ∧ sp_registry_held s g) ∧
  (∀ g k p, ct_id C' g k = Some p ↔
     ct_id C g k = Some p ∧ (sp_held s p ∨ ct_owner C p ≠ Some g) ∧ sp_registry_held s g) ∧
  sp_handles s' = sp_handles s ∧ sp_graphs s' ≡ sp_graphs s.

(** ** Ingredients of the calls *)

(** A new node is none that anything refers to. *)
Definition fresh_node_in s p : Prop :=
  ct_node (sp_content s) p = None ∧ ct_owner (sp_content s) p = None ∧
  (∀ g k, ct_id (sp_content s) g k ≠ Some p) ∧
  NodeStrong p ∉ sp_handles s ∧ NodeWeak p ∉ sp_handles s ∧
  ∀ f, f ∈ sp_graphs s → ¬ gv_in f p.
Definition fresh_registry_in s g : Prop :=
  ct_registry (sp_content s) g = false ∧ (∀ p, ct_owner (sp_content s) p ≠ Some g) ∧
  RegStrong g ∉ sp_handles s ∧ ∀ f, f ∈ sp_graphs s → gv_registry f ≠ g.

(** The edges with the source [p]: targets and positions, each once. *)
Definition lists_outgoing C p (l : list Edge) : Prop :=
  NoDup l ∧ ∀ i q, mkEdge i q ∈ l ↔
    ∃ v parents e, ct_node C q = Some (v, parents) ∧ parents !! i = Some (p, e).

(** [p] may become a member of [g]. *)
Definition admissible C g p : Prop := ct_owner C p = None ∨ ct_owner C p = Some g.
(** [k] is the id of [p] in [g], or a new one if it has none. *)
Definition id_for C g p k : Prop :=
  ct_id C g k = Some p ∨ ct_id C g k = None ∧ ∀ j, ct_id C g j ≠ Some p.

(** The edge [e] of a graph: the position, and its source and value. *)
Definition gv_edge_at C f (e : EdgeId) (source : addr) (value : E) : Prop :=
  ∃ q v parents, gv_node f (eid_target e) = Some q ∧ ct_node C q = Some (v, parents) ∧
    parents !! eid_index e = Some (source, value) ∧ gv_in f source.
Definition gv_edge C f (e : EdgeId) (source : addr) : Prop := ∃ value, gv_edge_at C f e source value.

(** The edges at the node [k] of a graph, in either direction. *)
Definition gv_incident C f (k : NodeId) (d : Direction) (e : EdgeId) : Prop :=
  match d with
  | Outgoing => ∃ p, gv_node f k = Some p ∧ gv_edge C f e p
  | Incoming => eid_target e = k ∧ ∃ p, gv_edge C f e p
  end.
(** The other end of such an edge. *)
Definition gv_end C f (d : Direction) (e : EdgeId) (m : NodeId) : Prop :=
  match d with
  | Outgoing => m = eid_target e
  | Incoming => ∃ p, gv_edge C f e p ∧ gv_node f m = Some p
  end.

(** Reached from [p] along parents that are not in the graph. *)
Definition gv_missing C f : relation addr := rtc (λ x y, ct_parent C x y ∧ ¬ gv_in f x).

(** [p] and its missing ancestors have been inserted into [f], which is now [f']. *)
Record inserted_all C f p C' f' : Prop := {
  ia_registry : gv_registry f' = gv_registry f;
  ia_nodes x : gv_in f' x ↔ gv_in f x ∨ gv_missing C f x p;
  ia_kept k x : gv_node f k = Some x → gv_node f' k = Some x;
  ia_admissible x : gv_in f' x → gv_in f x ∨ admissible C (gv_registry f) x;
  ia_ct_node x : ct_node C' x = ct_node C x;
  ia_owner_new x : gv_in f' x → ¬ gv_in f x → ct_owner C' x = Some (gv_registry f);
  ia_owner_old x : gv_in f x ∨ ¬ gv_in f' x → ct_owner C' x = ct_owner C x;
  ia_ct_registry g : ct_registry C' g = ct_registry C g;
  ia_id_other g k : g ≠ gv_registry f → ct_id C' g k = ct_id C g k;
  ia_id_kept k x : ct_id C (gv_registry f) k = Some x → ct_id C' (gv_registry f) k = Some x;
  ia_id_new k x : ct_id C' (gv_registry f) k = Some x →
    ct_id C (gv_registry f) k = Some x ∨ gv_node f' k = Some x;
}.

(** ** Graphs in writing *)

Implicit Types (name : NodeId → option addr) (ser : SerializedHistoryGraph N E).

(** What is written down: the traversals of ancestors from the nodes of the graph.
    These nodes, and all that the registry knows, have names. *)
Definition gv_described C f x : Prop :=
  ∃ y l, gv_in f y ∧ lists_ancestors (ct_parents C) y l ∧ x ∈ l.
Definition gv_named C f x : Prop :=
  (∃ k, ct_id C (gv_registry f) k = Some x) ∨ gv_described C f x.
(** A node with a name is gone, or has a parent without one. *)
Definition unwritable C f : Prop :=
  ∃ x, gv_named C f x ∧ (ct_node C x = None ∨ ∃ y, ct_parent C y x ∧ ¬ gv_named C f y).

Record names_for C f name : Prop := {
  nf_kept k x : ct_id C (gv_registry f) k = Some x → name k = Some x;
  nf_named x : gv_named C f x ↔ ∃ k, name k = Some x;
  nf_inj j k x : name j = Some x → name k = Some x → j = k;
}.

(** The data of a node with the value [v] and the parents [l]. *)
Definition spells name (d : SerializedInnerData N E) (v : N) (l : list (addr * E)) : Prop :=
  sid_value d = v ∧ Forall2 (λ pe xe, name pe.1 = Some xe.1 ∧ pe.2 = xe.2) (sid_incoming d) l.

Definition written_down C f name ser : Prop :=
  (∀ k, k ∈ shg_nodes ser ↔ is_Some (gv_node f k)) ∧
  ∀ k d, sm_get k (sr_nodes (shg_registry ser)) = Some d ↔
    ∃ x v l, name k = Some x ∧ gv_described C f x ∧ ct_node C x = Some (v, l) ∧ spells name d v l.

(** Writing that makes no sense: a cycle, a parent or a node without data. *)
Definition malformed ser : Prop := ser_bad (sr_nodes (shg_registry ser)) ∨ unknown_key ser.

(** All that [ser] describes has been made, with the names of [ser] as ids of the
    new registry [g], which the nodes that [ser] lists belong to. *)
Record revives s ser name g C1 : Prop := {
  rs_fresh_registry : fresh_registry_in s g;
  rs_fresh k x : name k = Some x → fresh_node_in s x;
  rs_inj j k x : name j = Some x → name k = Some x → j = k;
  rs_dom k : is_Some (name k) ↔ is_Some (sm_get k (sr_nodes (shg_registry ser)));
  rs_node k x : name k = Some x → ∃ d l, sm_get k (sr_nodes (shg_registry ser)) = Some d ∧
    ct_node C1 x = Some (sid_value d, l) ∧ spells name d (sid_value d) l;
  rs_owner k x : name k = Some x → ct_owner C1 x = if decide (k ∈ shg_nodes ser) then Some g else None;
  rs_old x : (∀ k, name k ≠ Some x) →
    ct_node C1 x = ct_node (sp_content s) x ∧ ct_owner C1 x = ct_owner (sp_content s) x;
  rs_registry h : ct_registry C1 h = if decide (h = g) then true else ct_registry (sp_content s) h;
  rs_id h k : ct_id C1 h k = if decide (h = g) then name k else ct_id (sp_content s) h k;
}.

(** ** The calls *)

Definition with_graph s (i : nat) (P : graph_view → Prop) : Prop :=
  ∃ f, sp_graphs s !! i = Some f ∧ P f.

Definition spec_step (c : call N E) s (o : output N E) s' : Prop :=
  let C := sp_content s in let hs := sp_handles s in let gs := sp_graphs s in
  match c with
  | CallNew value => ∃ p, fresh_node_in s p ∧ o = OutNode (Some p) ∧
      s' ≡ mkSpec (ct_add p value [] C) (NodeStrong p :: hs) gs
  | CallWithParents value parents => ∃ p hs',
      release_all (parent_owners parents) hs = Some hs' ∧ fresh_node_in s p ∧
      o = OutNode (Some p) ∧ s' ≡ mkSpec (ct_add p value parents C) (NodeStrong p :: hs') gs
  | CallClone p => NodeStrong p ∈ hs ∧ o = OutUnit ∧ s' ≡ mkSpec C (NodeStrong p :: hs) gs
  | CallDowngrade p => NodeStrong p ∈ hs ∧ o = OutUnit ∧ s' ≡ mkSpec C (NodeWeak p :: hs) gs
  | CallUpgrade p => NodeWeak p ∈ hs ∧
      if ct_node C p then o = OutNode (Some p) ∧ s' ≡ mkSpec C (NodeStrong p :: hs) gs
      else o = OutNode None ∧ s' ≡ s
  | CallDrop r => ∃ hs', release r hs = Some hs' ∧ o = OutUnit ∧ collected (mkSpec C hs' gs) s'
  | CallValue p => NodeStrong p ∈ hs ∧ s' ≡ s ∧
      ∃ value parents, ct_node C p = Some (value, parents) ∧ o = OutValue value
  | CallIncoming p => NodeStrong p ∈ hs ∧ s' ≡ s ∧
      ∃ value parents, ct_node C p = Some (value, parents) ∧ o = OutIncoming parents
  | CallAllOutgoing p => NodeStrong p ∈ hs ∧ ∃ l, lists_outgoing C p l ∧ o = OutEdges l ∧
      s' ≡ mkSpec C (edge_owners l ++ hs) gs
  | CallNOutgoing p => NodeStrong p ∈ hs ∧ s' ≡ s ∧
      ∃ l, lists_outgoing C p l ∧ o = OutCount (length l)
  | CallAllAncestors p => NodeStrong p ∈ hs ∧ s' ≡ s ∧ ∃ l, o = OutNodes l ∧
      lists_ancestors (ct_parents C) p l
  | CallNodeRegistry p => NodeStrong p ∈ hs ∧
      match ct_owner C p with
      | Some g => if ct_registry C g
                  then o = OutRegistry (Some g) ∧ s' ≡ mkSpec C (RegStrong g :: hs) gs
                  else o = OutRegistry None ∧ s' ≡ s
      | None => o = OutRegistry None ∧ s' ≡ s
      end
  | CallNewRegistry => ∃ g, fresh_registry_in s g ∧ o = OutRegistry (Some g) ∧
      s' ≡ mkSpec (ct_add_registry g C) (RegStrong g :: hs) gs
  | CallCloneRegistry g => RegStrong g ∈ hs ∧ o = OutUnit ∧ s' ≡ mkSpec C (RegStrong g :: hs) gs
  | CallRegister p g => RegStrong g ∈ hs ∧ NodeStrong p ∈ hs ∧
      ((admissible C g p ∧ ∃ k, id_for C g p k ∧ o = OutId (Some k) ∧
          s' ≡ mkSpec (ct_own p g (ct_enter g k p C)) hs gs) ∨
       (¬ admissible C g p ∧ o = OutId None ∧ s' ≡ s))
  | CallAddNode p g => RegStrong g ∈ hs ∧ NodeStrong p ∈ hs ∧
      ∃ k, id_for C g p k ∧ o = OutId (Some k) ∧ s' ≡ mkSpec (ct_enter g k p C) hs gs
  | CallGetId g p => RegStrong g ∈ hs ∧ NodeStrong p ∈ hs ∧ s' ≡ s ∧
      ∃ r, o = OutId r ∧ ∀ k, r = Some k ↔ ct_id C g k = Some p
  | CallGet g k => RegStrong g ∈ hs ∧ o = OutNode (ct_name C g k) ∧
      s' ≡ mkSpec C ((NodeStrong <$> option_list (ct_name C g k)) ++ hs) gs
  | CallFreeNodeIds g => RegStrong g ∈ hs ∧ s' ≡ mkSpec (ct_free g C) hs gs ∧ ∃ l : list NodeId,
      NoDup l ∧ (∀ k, k ∈ l ↔ is_Some (ct_name C g k)) ∧ o = OutCount (length l)
  | CallContainsId g k => RegStrong g ∈ hs ∧ s' ≡ s ∧
      o = OutBool (if ct_name C g k then true else false)
  | CallRemove g k => RegStrong g ∈ hs ∧ o = OutUnit ∧ s' ≡ mkSpec (ct_leave g k C) hs gs
  | CallNewGraph g => ∃ hs', release (RegStrong g) hs = Some hs' ∧ o = OutUnit ∧
      s' ≡ mkSpec C hs' (mkGraphView g (λ _, None) :: gs)
  | CallInsertNode i p => with_graph s i (λ f, ∃ hs', release (NodeStrong p) hs = Some hs' ∧
      ((∃ k, gv_node f k = Some p ∧ o = OutId (Some k) ∧ s' ≡ mkSpec C hs' gs) ∨
       (¬ gv_in f p ∧ admissible C (gv_registry f) p ∧ ∃ k, id_for C (gv_registry f) p k ∧
          gv_node f k = None ∧ o = OutId (Some k) ∧
          s' ≡ mkSpec (ct_own p (gv_registry f) (ct_enter (gv_registry f) k p C)) hs'
            (<[i := mkGraphView (gv_registry f)
                 (λ j, if decide (j = k) then Some p else gv_node f j)]> gs)) ∨
       (¬ gv_in f p ∧ ¬ admissible C (gv_registry f) p ∧ o = OutId None ∧
          collected (mkSpec C hs' gs) s')))
  | CallInsertAncestors i p => with_graph s i (λ f, ∃ hs' C' f' k,
      release (NodeStrong p) hs = Some hs' ∧ inserted_all C f p C' f' ∧
      gv_node f' k = Some p ∧ o = OutId (Some k) ∧ s' ≡ mkSpec C' hs' (<[i := f']> gs))
  | CallGetNode i k => with_graph s i (λ f, o = OutNode (gv_node f k) ∧ s' ≡ s)
  | CallGetNodeId i p => NodeStrong p ∈ hs ∧ with_graph s i (λ f, s' ≡ s ∧
      ∃ r, o = OutId r ∧ ∀ k, r = Some k ↔ gv_node f k = Some p)
  | CallSource i e => with_graph s i (λ f, s' ≡ s ∧
      ∃ r, o = OutId r ∧ ∀ k, r = Some k ↔ ∃ p, gv_edge C f e p ∧ gv_node f k = Some p)
  | CallOutgoingEdges i k => with_graph s i (λ f, s' ≡ s ∧ ∃ l, o = OutEdgeIds l ∧ NoDup l ∧
      ∀ e, e ∈ l ↔ ∃ p, gv_node f k = Some p ∧ gv_edge C f e p)
  | CallIncomingEdges i k => with_graph s i (λ f, s' ≡ s ∧ ∃ l, o = OutEdgeIds l ∧
      StronglySorted (λ e e', eid_index e < eid_index e') l ∧
      ∀ e, e ∈ l ↔ eid_target e = k ∧ ∃ p, gv_edge C f e p)
  | CallChildren i k => with_graph s i (λ f, s' ≡ s ∧ ∃ l, o = OutIds l ∧
      ∀ m, m ∈ l ↔ ∃ p j, gv_node f k = Some p ∧ gv_edge C f (mkEdgeId m j) p)
  | CallParents i k => with_graph s i (λ f, s' ≡ s ∧ ∃ l, o = OutIds l ∧
      ∀ m, m ∈ l ↔ ∃ p j, gv_node f m = Some p ∧ gv_edge C f (mkEdgeId k j) p)
  | CallCloneGraph i => with_graph s i (λ f, o = OutUnit ∧ s' ≡ mkSpec C hs (f :: gs))
  | CallDropGraph i => with_graph s i (λ _, o = OutUnit ∧ collected (mkSpec C hs (delete i gs)) s')
  | CallLen g => RegStrong g ∈ hs ∧ s' ≡ s ∧ ∃ l : list NodeId,
      NoDup l ∧ (∀ k, k ∈ l ↔ is_Some (ct_id C g k)) ∧ o = OutCount (length l)
  | CallIter g => RegStrong g ∈ hs ∧ ∃ l, o = OutEntries l ∧ NoDup l.*1 ∧
      (∀ k p, (k, p) ∈ l ↔ ct_name C g k = Some p) ∧ s' ≡ mkSpec C ((NodeStrong <$> l.*2) ++ hs) gs
  | CallNodeIds i => with_graph s i (λ f, s' ≡ s ∧ ∃ l, o = OutIds l ∧ NoDup l ∧
      ∀ k, k ∈ l ↔ is_Some (gv_node f k))
  | CallGetEdge i e => with_graph s i (λ f, s' ≡ s ∧ ∃ r, o = OutEdge r ∧
      ∀ p v, r = Some (p, v) ↔ gv_edge_at C f e p v)
  | CallTarget i e => with_graph s i (λ f, s' ≡ s ∧ ∃ r, o = OutId r ∧
      ∀ k, r = Some k ↔ k = eid_target e ∧ ∃ p, gv_edge C f e p)
  | CallGraphRegistry i => with_graph s i (λ f, o = OutRegistry (Some (gv_registry f)) ∧
      s' ≡ mkSpec C (RegStrong (gv_registry f) :: hs) gs)
  | CallCloneNode i k => with_graph s i (λ f, o = OutNode (gv_node f k) ∧
      s' ≡ mkSpec C ((NodeStrong <$> option_list (gv_node f k)) ++ hs) gs)
  | CallSerializeGraph i => with_graph s i (λ f, s' ≡ s ∧ ¬ unwritable C f ∧ ∃ ser name,
      o = OutSerialized ser ∧ names_for C f name ∧ written_down C f name ser)
  | CallDeserializeGraph ser => ¬ malformed ser ∧ o = OutUnit ∧ ∃ name g C1,
      revives s ser name g C1 ∧
      collected (mkSpec C1 hs (mkGraphView g
        (λ k, if decide (k ∈ shg_nodes ser) then name k else None) :: gs)) s'
  | CallCloneWeak p => NodeWeak p ∈ hs ∧ o = OutUnit ∧ s' ≡ mkSpec C (NodeWeak p :: hs) gs
  | CallNeighbors i k d => with_graph s i (λ f, s' ≡ s ∧ ∃ es l, o = OutIds l ∧ NoDup es ∧
      (∀ e, e ∈ es ↔ gv_incident C f k d e) ∧ Forall2 (gv_end C f d) es l)
  | CallEdges i k d => with_graph s i (λ f, s' ≡ s ∧ ∃ l, o = OutEdgeIds l ∧ NoDup l ∧
      ∀ e, e ∈ l ↔ gv_incident C f k d e)
  | CallEdgeReferences i => with_graph s i (λ f, s' ≡ s ∧ ∃ l, o = OutEdgeRefs l ∧ NoDup l.*1.*1.*1 ∧
      ∀ e k m v, (e, k, m, v) ∈ l ↔ m = eid_target e ∧ ∃ p, gv_edge_at C f e p v ∧ gv_node f k = Some p)
  end.

(** The calls that may fail: an ancestor to be inserted belongs to another
    registry; a graph cannot be written down; the input makes no sense. *)
Definition spec_fails (c : call N E) s : Prop :=
  match c with
  | CallInsertAncestors i p => with_graph s i (λ f, ∃ x,
      gv_missing (sp_content s) f x p ∧ ¬ gv_in f x ∧
      ¬ admissible (sp_content s) (gv_registry f) x)
  | CallSerializeGraph i => with_graph s i (unwritable (sp_content s))
  | CallDeserializeGraph ser => malformed ser
  | _ => False
  end.

Definition spec_start : spec N E :=
  mkSpec (mkContent (λ _, None) (λ _, None) (λ _, false) (λ _ _, None)) [] [].

(** ** Executions: calls with what they returned *)

Inductive spec_trace : spec N E → list (call N E * output N E) → spec N E → Prop :=
  | spec_trace_nil s s' : s ≡ s' → spec_trace s [] s'
  | spec_trace_cons s c o s1 t s' :
      spec_step c s o s1 → spec_trace s1 t s' → spec_trace s ((c, o) :: t) s'.
End spec.
