(* ===== verification/Abstraction.v ===== *)
(** * From worlds to the specification

    [abs] forgets reference counts, outgoing edges and slot maps.  Dropping references is collecting what nobody holds. *)

From S2P Require Import Prelude Slotmap Store StoreFacts Rc Registry Drop DropFacts RegistryOps Edge Node NodeFacts RegistryFacts Ancestors History HistoryFacts Adjacency Petgraph Insertion InsertAncestors Client ClientFacts Spec.

Section abstraction.
Context {N E : Type} {S : SlotMapSig}.
Implicit Types (st : store N E) (w : world N E) (p g : addr) (k : NodeId) (hg : HistoryGraph).

Definition abs_content st : content N E :=
  mkContent (λ p, (λ d, (nd_value d, incoming_pairs d)) <$> node st p)
    (λ p, node st p ≫= nd_registry)
    (λ g, if registry_at st g then true else false)
    (λ g k, registry_at st g ≫= λ R, sm_get k (reg_nodes R)).
Definition abs_graph hg : graph_view :=
  mkGraphView (hg_registry hg) (λ k, sec_get k (hg_nodes hg)).
Definition abs w : spec N E :=
  mkSpec (abs_content (w_store w)) (w_handles w) (abs_graph <$> w_graphs w).
End abstraction.

Section abstraction_facts.
Context {N E : Type} {S : SlotMapSig} {SLaws : SlotMapLaws S} {A : Allocator}.
Implicit Types (st : store N E) (w : world N E) (p q x y g h : addr) (hs : list ref) (hg : HistoryGraph).
Implicit Types (k id : NodeId) (R : Registry) (c : call N E) (r : ref) (gs : list HistoryGraph).

(** ** Looking things up in the abstraction *)

Lemma abs_node_Some st p v l :
  ct_node (abs_content st) p = Some (v, l) ↔
    ∃ d, node st p = Some d ∧ nd_value d = v ∧ incoming_pairs d = l.
Proof. simpl. rewrite fmap_Some. naive_solver. Qed.

Lemma abs_owner_Some st p g :
  ct_owner (abs_content st) p = Some g ↔ ∃ d, node st p = Some d ∧ nd_registry d = Some g.
Proof. apply bind_Some. Qed.

Lemma abs_registry_true st g :
  ct_registry (abs_content st) g = true ↔ ∃ R, registry_at st g = Some R.
Proof. simpl. destruct (registry_at st g); naive_solver. Qed.

Lemma abs_id_Some st g k p :
  ct_id (abs_content st) g k = Some p ↔
    ∃ R, registry_at st g = Some R ∧ sm_get k (reg_nodes R) = Some p.
Proof. apply bind_Some. Qed.

Lemma abs_name st g k R :
  registry_at st g = Some R → ct_name (abs_content st) g k = resolve st R k.
Proof.
  intros HR. unfold ct_name, resolve. simpl. rewrite HR. simpl.
  destruct (sm_get k (reg_nodes R)) as [p|]; [|done]. simpl. by destruct (node st p).
Qed.

Lemma incoming_pairs_lookup (d : InnerData N E) i p e :
  incoming_pairs d !! i = Some (p, e) ↔
    ∃ edge, nd_incoming d !! i = Some edge ∧ ie_source edge = p ∧ ie_value edge = e.
Proof. unfold incoming_pairs. rewrite list_lookup_fmap, fmap_Some. naive_solver. Qed.

Lemma abs_parent st x y : ct_parent (abs_content st) x y ↔ parent_of st x y.
Proof.
  split.
  - intros (v & l & e & (d & Hd & _ & <-)%abs_node_Some & He).
    apply list_elem_of_lookup in He as [i (edge & Hi & Hx & _)%incoming_pairs_lookup].
    exists d, edge. split_and!; [done| |done]. by eapply list_elem_of_lookup_2.
  - intros (d & edge & Hd & [i Hi]%list_elem_of_lookup & Hx).
    exists (nd_value d), (incoming_pairs d), (ie_value edge).
    split; [apply abs_node_Some; eauto|]. apply (list_elem_of_lookup_2 _ i).
    apply incoming_pairs_lookup. eauto.
Qed.

Lemma abs_parents st q : parents_at st q = ct_parents (abs_content st) q.
Proof.
  unfold parents_at, ct_parents. simpl. destruct (node st q) as [d|]; [|done]. simpl.
  unfold incoming_pairs, InnerData_all_parents. by rewrite <-list_fmap_compose.
Qed.

(** ** Stores with the same content *)

Definition same_content st st' : Prop :=
  (∀ q, node_view st' q = node_view st q) ∧ (∀ g, registry_at st' g = registry_at st g).

Lemma resolve_ext st st' R k :
  (∀ q, is_Some (node st' q) ↔ is_Some (node st q)) → resolve st' R k = resolve st R k.
Proof.
  intros Hl. apply option_eq. intros p. rewrite !resolve_Some. by rewrite Hl.
Qed.

Lemma abs_node_ext st st' p :
  node_view st' p = node_view st p →
  ct_node (abs_content st') p = ct_node (abs_content st) p ∧
  ct_owner (abs_content st') p = ct_owner (abs_content st) p.
Proof.
  unfold node_view. simpl. destruct (node st' p) as [d'|], (node st p) as [d|]; try done; simpl.
  intros [= Hv Hi Hr]. unfold incoming_pairs, InnerData_all_incoming. by rewrite Hv, Hi, Hr.
Qed.

Lemma abs_same_content st st' : same_content st st' → abs_content st' ≡ abs_content st.
Proof.
  intros [Hn HR]. pose proof (node_view_live _ _ Hn) as Hl.
  split_and!; [intros p; symmetry; by apply abs_node_ext..| |]; simpl.
  - intros g. by rewrite HR.
  - intros g k. by rewrite HR.
Qed.

Lemma same_content_views st st' : same_views st st' → same_content st st'.
Proof. intros [Hn HR]. split; [|done]. intros q. unfold node_view. by rewrite Hn. Qed.

Lemma same_content_pruned st st' : pruned st st' → same_content st st'.
Proof.
  intros [Hn HR]. split; [|done]. intros q. specialize (Hn q). unfold node_view.
  destruct (node st' q) as [[]|], (node st q) as [[]|]; simpl in *; by simplify_eq.
Qed.

(** Pruning the outgoing edges of a node. *)
Lemma same_content_prune st st' p d l :
  node st p = Some d →
  (∀ q, node st' q = if decide (q = p) then Some (set_outgoing d l) else node st q) →
  (∀ g, registry_at st' g = registry_at st g) → same_content st st'.
Proof.
  intros Hd Hn HR. split; [|done]. intros q. unfold node_view. rewrite Hn.
  case_decide; [subst; by rewrite Hd|done].
Qed.

(** ** Who holds what *)

Lemma abs_refs_node hs gs p :
  NodeStrong p ∈ hs ++ (gs ≫= hg_owners) ↔
    NodeStrong p ∈ hs ∨ ∃ f, f ∈ abs_graph <$> gs ∧ gv_in f p.
Proof.
  rewrite elem_of_app, list_elem_of_bind. apply or_iff_compat_l.
  setoid_rewrite list_elem_of_fmap. unfold hg_owners. split.
  - intros (hg & [Hp|Hp]%elem_of_app & Hhg); [|by apply list_elem_of_singleton in Hp].
    apply list_elem_of_fmap in Hp as (q & [= <-] & [k Hk]%elem_of_sec_values).
    exists (abs_graph hg). split; [by exists hg|]. by exists k.
  - intros (f & (hg & -> & Hhg) & [k Hk]). exists hg. split; [|done]. apply elem_of_app. left.
    apply list_elem_of_fmap. exists p. split; [done|]. apply elem_of_sec_values. by exists k.
Qed.

Lemma abs_refs_registry hs gs g :
  RegStrong g ∈ hs ++ (gs ≫= hg_owners) ↔
    RegStrong g ∈ hs ∨ ∃ f, f ∈ abs_graph <$> gs ∧ gv_registry f = g.
Proof.
  rewrite elem_of_app, list_elem_of_bind. apply or_iff_compat_l.
  setoid_rewrite list_elem_of_fmap. unfold hg_owners. split.
  - intros (hg & [Hp|Hp]%elem_of_app & Hhg); [by apply list_elem_of_fmap in Hp as (? & ? & _)|].
    apply list_elem_of_singleton in Hp as [= ->]. by exists (abs_graph hg); eauto.
  - intros (f & (hg & -> & Hhg) & <-). exists hg. split; [|done]. apply elem_of_app. right. by left.
Qed.

Lemma abs_held st hs gs p :
  sp_held (mkSpec (abs_content st) hs (abs_graph <$> gs)) p ↔
    held_by st (hs ++ (gs ≫= hg_owners)) p.
Proof.
  unfold sp_held, held_by, sp_root, ancestor_of. simpl. setoid_rewrite abs_refs_node.
  split; intros (q & Hq & Hpq); exists q; (split; [done|]);
    (eapply rtc_subrel; [|exact Hpq]); intros x y; apply abs_parent.
Qed.

(** Dropping is collecting. *)
Lemma abs_collected st st' hs gs :
  wf st' (hs ++ (gs ≫= hg_owners)) → drop_inv st st' [] →
  collected (mkSpec (abs_content st) hs (abs_graph <$> gs)) (abs (mkWorld st' hs gs)).
Proof.
  intros Hw' Hinv. pose proof (λ q d, dropped_exact st st' _ q d Hw' Hinv) as Hex.
  assert (∀ g, (∃ R, registry_at st' g = Some R) → RegStrong g ∈ hs ++ (gs ≫= hg_owners)) as Hreg.
  { intros g [R HR]. by eapply registry_owned. }
  split_and!; cbn [sp_content abs w_store]; try done.
  - intros p [v l]. rewrite abs_held, !abs_node_Some. setoid_rewrite Hex. naive_solver.
  - intros p g. rewrite abs_held, !abs_owner_Some. setoid_rewrite Hex. naive_solver.
  - intros g. unfold sp_registry_held. cbn [sp_handles sp_graphs].
    rewrite <-abs_refs_registry, !abs_registry_true. split.
    + intros [R HR]. split; [|by eauto]. destruct (di_regs _ _ _ Hinv _ _ HR) as (R0 & ? & _). eauto.
    + intros [_ Hg]. by eapply reg_owner_live.
  - intros g k p. unfold sp_registry_held. cbn [sp_handles sp_graphs].
    rewrite <-abs_refs_registry, abs_held, !abs_id_Some. split.
    + intros (R & HR & Hk). destruct (di_regs _ _ _ Hinv _ _ HR) as (R0 & HR0 & _).
      pose proof (proj1 (dropped_entries _ _ _ _ _ _ k p Hw' Hinv HR0 HR) Hk) as [? ?]. split_and!; by eauto.
    + intros ((R0 & HR0 & Hk) & Hor & Hg). destruct (reg_owner_live _ _ _ Hw' Hg) as [R HR].
      exists R. split; [done|]. by apply (dropped_entries _ _ _ _ _ _ k p Hw' Hinv HR0 HR).
Qed.
End abstraction_facts.
