(* ===== verification/Refinement.v ===== *)
(** * The library implements its specification

    Every call of a client on a consistent world is a step of the specification
    between the abstractions, with the same output.  [Simulation.v] puts the calls
    together. *)

From S2P Require Import Prelude Slotmap Store StoreFacts Rc Registry Drop DropFacts RegistryOps Edge Node NodeFacts RegistryFacts Ancestors History HistoryFacts Adjacency Petgraph Insertion InsertAncestors Client ClientFacts Spec Abstraction.

Create HintDb refine.

Section refinement.
Context {N E : Type} {S : SlotMapSig} {SLaws : SlotMapLaws S} {A : Allocator}.
Implicit Types (st : store N E) (w : world N E) (p q x y g h : addr) (hs : list ref) (hg : HistoryGraph).
Implicit Types (k id : NodeId) (R : Registry) (c : call N E) (r : ref) (gs : list HistoryGraph).

(** ** Calls on nodes *)

(** What the specification says about the response to a call. *)
Definition implements c w (x : option (result (output N E * world N E))) : Prop :=
  ∀ res, x = Some res →
    match res with
    | Ok (o, w') => spec_step c (abs w) o (abs w')
    | Err _ => spec_fails c (abs w)
    end.

Lemma implements_Ok c w o w' :
  spec_step c (abs w) o (abs w') → implements c w (Some (Ok (o, w'))).
Proof. by intros Hs res [= <-]. Qed.

Lemma borrow_implements c w r f :
  (r ∈ w_handles w → r ∈ w_refs w → implements c w (Some f)) → implements c w (borrow w r f).
Proof. intros Hf. unfold borrow. case_decide as Hr; [|done]. apply Hf; [done|by apply with_handles]. Qed.

Lemma consume_implements c w l f :
  world_ok w → (∀ hs, release_all l (w_handles w) = Some hs →
    wf (w_store w) (l ++ hs ++ (w_graphs w ≫= hg_owners)) → implements c w (Some (f hs))) →
  implements c w (consume w l f).
Proof.
  intros Hok Hf res. unfold consume. intros (hs & Hhs & ->)%fmap_Some.
  eapply Hf; [done| |done]. rewrite (assoc_L (++)), <-(release_all_perm _ _ _ Hhs). apply Hok.
Qed.

(** Worlds that differ in what the abstraction forgets, and in handles. *)
Lemma abs_upd w st' hs :
  same_content (w_store w) st' →
  abs (upd w st' hs) ≡ mkSpec (sp_content (abs w)) hs (sp_graphs (abs w)).
Proof. intros Hc. split_and!; [by apply abs_same_content|done..]. Qed.

Lemma abs_read w : abs (upd w (w_store w) (w_handles w)) ≡ abs w.
Proof. by apply abs_upd, same_content_views. Qed.
#[local] Hint Resolve abs_read same_content_views abs_upd : refine.

Lemma fresh_abs w p : world_ok w → st_nodes (w_store w) !! p = None → fresh_node_in (abs w) p.
Proof.
  intros Hok Hp. pose proof (wok_store _ Hok) as Hw.
  assert (node (w_store w) p = None) as Hn by (unfold node; by rewrite Hp).
  assert (NodeStrong p ∉ w_refs w) as Hs.
  { intros Hr. destruct (owner_live _ _ _ Hw Hr). congruence. }
  unfold w_refs in Hs. rewrite abs_refs_node in Hs.
  split_and!; cbn [abs sp_content sp_handles sp_graphs].
  - simpl. by rewrite Hn.
  - simpl. by rewrite Hn.
  - intros g k (R & HR & Hk)%abs_id_Some. destruct (registered_alloc _ _ _ _ _ _ Hw HR Hk). congruence.
  - naive_solver.
  - intros Hr%with_handles. pose proof (wf_owned_count _ _ _ Hw Hr) as [b Hb]%count_weak_alloc.
    congruence.
  - naive_solver.
Qed.

(** One node is new, the others keep what the abstraction shows of them. *)
Lemma abs_add st st' ow p value incoming :
  wf st ow → st_nodes st !! p = None →
  (∀ q, node_view st' q = if decide (q = p) then Some (value, incoming, None) else node_view st q) →
  (∀ g, registry_at st' g = registry_at st g) →
  abs_content st' ≡ ct_add p value
    ((λ e, (ie_source e, ie_value e)) <$> incoming) (abs_content st).
Proof.
  intros Hw Hp Hn HR. assert (node st p = None) as Hd by (unfold node; by rewrite Hp).
  split_and!.
  - intros q. specialize (Hn q). simpl. case_decide; [|symmetry; by apply abs_node_ext].
    unfold node_view in Hn. destruct (node st' q) as [d|]; [|done]. simpl in *.
    injection Hn as <- <- _. done.
  - intros q. specialize (Hn q). case_decide as Hq; [|symmetry; by apply abs_node_ext].
    subst. simpl. rewrite Hd. unfold node_view in Hn. destruct (node st' p) as [d|]; [|done].
    simpl in *. by injection Hn.
  - intros g. simpl. by rewrite HR.
  - intros g k. simpl. by rewrite HR.
Qed.

Lemma refines_new w value : world_ok w → implements (CallNew value) w (exec (CallNew value) w).
Proof.
  intros Hok. pose proof (wok_store _ Hok) as Hw.
  destruct (RelRc_new_spec (w_store w) _ value Hw) as (_ & Hf & Hn & HR).
  apply implements_Ok. eexists. split_and!; [by apply fresh_abs|done|]. split_and!; [|done..].
  apply (abs_add _ _ _ _ value [] Hw Hf); [|done]. intros q. unfold node_view. rewrite Hn. by case_decide.
Qed.

Lemma refines_with_parents w value parents :
  world_ok w → implements (CallWithParents value parents) w (exec (CallWithParents value parents) w).
Proof.
  intros Hok. apply consume_implements; [done|]. intros hs Hhs Hw.
  destruct (with_parents_view _ _ value parents Hw) as (p & st' & -> & _ & Hf & Hn & HR).
  apply implements_Ok. exists p, hs. split_and!; [done|by apply fresh_abs|done|]. split_and!; [|done..].
  rewrite <-(new_incoming_pairs p parents) at 1. by apply (abs_add _ _ _ p _ _ Hw Hf).
Qed.

Lemma refines_clone w p : world_ok w → implements (CallClone p) w (exec (CallClone p) w).
Proof.
  intros Hok. apply borrow_implements. intros Hh Hp.
  destruct (owner_live _ _ _ (wok_store _ Hok) Hp) as [d Hd].
  destruct (rc_clone_wf _ _ p d (wok_store _ Hok) Hd) as (st' & Heq & _ & Hv).
  unfold RelRc_clone. rewrite Heq. apply implements_Ok. split_and!; auto with refine.
Qed.

Lemma refines_downgrade w p : world_ok w → implements (CallDowngrade p) w (exec (CallDowngrade p) w).
Proof.
  intros Hok. apply borrow_implements. intros Hh Hp.
  destruct (owner_live _ _ _ (wok_store _ Hok) Hp) as (d & (b & Hb & _)%node_Some).
  destruct (rc_new_weak_wf _ _ p (wok_store _ Hok) ltac:(by exists b)) as (st' & Heq & _ & Hv).
  unfold RelRc_downgrade. rewrite Heq. apply implements_Ok. split_and!; auto with refine.
Qed.

Lemma refines_clone_weak w p : world_ok w → implements (CallCloneWeak p) w (exec (CallCloneWeak p) w).
Proof.
  intros Hok. pose proof (wok_store _ Hok) as Hw. apply borrow_implements. intros Hh Hp.
  pose proof (count_weak_alloc _ _ (wf_owned_count _ _ _ Hw Hp)) as Halloc.
  destruct (rc_new_weak_wf _ _ p Hw Halloc) as (st' & Heq & _ & Hv).
  unfold RelWeak_clone. rewrite Heq. apply implements_Ok. split_and!; auto with refine.
Qed.

Lemma refines_upgrade w p : world_ok w → implements (CallUpgrade p) w (exec (CallUpgrade p) w).
Proof.
  intros Hok. pose proof (wok_store _ Hok) as Hw. apply borrow_implements. intros Hh Hp. unfold RelWeak_upgrade.
  pose proof (count_weak_alloc _ _ (wf_owned_count _ _ _ Hw Hp)) as Halloc.
  destruct (node (w_store w) p) as [d|] eqn:Hd.
  - destruct (rc_upgrade_live _ _ p d Hw Hd) as (st' & -> & _ & _ & Hv).
    apply implements_Ok. split; [done|]. simpl. rewrite Hd. split; [done|].
    by apply abs_upd, same_content_views.
  - rewrite (rc_upgrade_dead _ _ p Hw Halloc Hd). apply implements_Ok. split; [done|]. simpl. rewrite Hd.
    split; [done|]. apply abs_read.
Qed.

Lemma refines_drop w r : world_ok w → implements (CallDrop r) w (exec (CallDrop r) w).
Proof.
  intros Hok. apply consume_implements; [done|]. intros hs Hhs Hw.
  destruct (drop_refs_spec _ [r] _ Hw) as (st' & -> & Hw' & Hinv). apply implements_Ok.
  exists hs. split_and!; [|done|by apply abs_collected].
  simpl in Hhs. by apply bind_Some in Hhs as (? & ? & [= ->]).
Qed.

Lemma refines_value w p : world_ok w → implements (CallValue p) w (exec (CallValue p) w).
Proof.
  intros Hok. apply borrow_implements. intros Hh Hp.
  destruct (owner_live _ _ _ (wok_store _ Hok) Hp) as [d Hd]. rewrite Hd. apply implements_Ok.
  split_and!; [done|apply abs_read|]. exists (nd_value d), (incoming_pairs d). split; [|done].
  apply abs_node_Some. eauto.
Qed.

Lemma refines_incoming w p : world_ok w → implements (CallIncoming p) w (exec (CallIncoming p) w).
Proof.
  intros Hok. apply borrow_implements. intros Hh Hp.
  destruct (owner_live _ _ _ (wok_store _ Hok) Hp) as [d Hd]. rewrite Hd. apply implements_Ok.
  split_and!; [done|apply abs_read|]. exists (nd_value d), (incoming_pairs d). split; [|done].
  apply abs_node_Some. eauto.
Qed.

Lemma lists_outgoing_abs st ow p d :
  wf st ow → node st p = Some d →
  lists_outgoing (abs_content st) p (strong_edge <$> filter (live_edge st) (nd_outgoing d)).
Proof.
  intros Hw Hd. split.
  - apply NoDup_fmap_2_strong; [|by eapply live_outgoing_NoDup]. by intros [i x] [j y] _ _ [= -> ->].
  - intros i q. rewrite list_elem_of_fmap. setoid_rewrite abs_node_Some. split.
    + intros ([j y] & [= -> ->] & (dq & e & Hq & Hi & He)%(elem_of_live_outgoing _ _ _ _ _ _ Hw Hd)).
      exists (nd_value dq), (incoming_pairs dq), (ie_value e). split; [by eauto|].
      apply incoming_pairs_lookup. eauto.
    + intros (v & l & e & (dq & Hq & _ & <-) & (edge & Hi & He & _)%incoming_pairs_lookup).
      exists (mkWeakEdge i q). split; [done|]. eapply elem_of_live_outgoing; eauto.
Qed.

Lemma refines_all_outgoing w p : world_ok w → implements (CallAllOutgoing p) w (exec (CallAllOutgoing p) w).
Proof.
  intros Hok. pose proof (wok_store _ Hok) as Hw. apply borrow_implements. intros Hh Hp.
  destruct (owner_live _ _ _ Hw Hp) as [d Hd].
  destruct (all_outgoing_spec _ _ p d Hw Hd) as (st' & -> & _ & Hn & HR). apply implements_Ok.
  split; [done|]. eexists. split_and!; [by eapply lists_outgoing_abs|done|].
  apply abs_upd. by eapply same_content_prune.
Qed.

Lemma refines_n_outgoing w p : world_ok w → implements (CallNOutgoing p) w (exec (CallNOutgoing p) w).
Proof.
  intros Hok. pose proof (wok_store _ Hok) as Hw. apply borrow_implements. intros Hh Hp.
  destruct (owner_live _ _ _ Hw Hp) as [d Hd].
  destruct (n_outgoing_spec _ _ p d Hw Hd) as (st' & -> & _ & Hn & HR). apply implements_Ok.
  split_and!; [done|apply abs_upd; by eapply same_content_prune|].
  eexists. split; [by eapply lists_outgoing_abs|]. by rewrite length_fmap.
Qed.

(** ** Calls on registries *)

Lemma refines_node_registry w p :
  world_ok w → implements (CallNodeRegistry p) w (exec (CallNodeRegistry p) w).
Proof.
  intros Hok. pose proof (wok_store _ Hok) as Hw. apply borrow_implements. intros Hh Hp.
  destruct (owner_live _ _ _ Hw Hp) as [d Hd]. rewrite RelRc_registry_idle by apply Hw. rewrite Hd. simpl.
  destruct (nd_registry d) as [g|] eqn:Hg.
  2: { apply implements_Ok. split; [done|]. simpl. rewrite Hd. simpl. rewrite Hg.
    split; [done|apply abs_read]. }
  pose proof (node_registry_alloc _ _ _ _ _ Hw Hd Hg) as Halloc.
  destruct (registry_at (w_store w) g) as [R|] eqn:HR.
  - destruct (reg_upgrade_live _ _ g R Hw HR) as (st' & -> & _ & _ & Hv). apply implements_Ok.
    split; [done|]. simpl. rewrite Hd. simpl. rewrite Hg, HR. split; [done|].
    by apply abs_upd, same_content_views.
  - rewrite (reg_upgrade_dead _ _ g Hw Halloc HR). apply implements_Ok.
    split; [done|]. simpl. rewrite Hd. simpl. rewrite Hg, HR. split; [done|apply abs_read].
Qed.

Lemma refines_new_registry w : world_ok w → implements CallNewRegistry w (exec CallNewRegistry w).
Proof.
  intros Hok. pose proof (wok_store _ Hok) as Hw.
  destruct (reg_alloc_wf (w_store w) (w_refs w) Registry_new) as (g & st' & Heq & _ & Hg & Hal & Hn & HR).
  { by rewrite Registry_new_refs. }
  { apply Registry_new_ok. }
  assert (RegStrong g ∉ w_refs w) as Hs.
  { intros Hr. destruct (reg_owner_live _ _ _ Hw Hr). congruence. }
  unfold w_refs in Hs. rewrite abs_refs_registry in Hs.
  unfold exec. rewrite Heq. apply implements_Ok. exists g. split_and!; [split_and!|done|split_and!; try done].
  - simpl. by rewrite Hg.
  - intros p (d & Hd & Hr)%abs_owner_Some.
    destruct (node_registry_alloc _ _ _ _ _ Hw Hd Hr) as [b Hb]. congruence.
  - naive_solver.
  - naive_solver.
  - split_and!; simpl.
    + intros p. by rewrite Hn.
    + intros p. by rewrite Hn.
    + intros h. rewrite HR. by case_decide.
    + intros h k. rewrite HR. case_decide.
      * unfold Registry_new. simpl. by rewrite sm_get_with_key.
      * done.
Qed.

Lemma refines_clone_registry w g :
  world_ok w → implements (CallCloneRegistry g) w (exec (CallCloneRegistry g) w).
Proof.
  intros Hok. pose proof (wok_store _ Hok) as Hw. apply borrow_implements. intros Hh Hg.
  destruct (reg_owner_live _ _ _ Hw Hg) as [R HR].
  destruct (reg_clone_wf _ _ g R Hw HR) as (st' & -> & _ & Hv). apply implements_Ok.
  split_and!; auto with refine.
Qed.

(** The registry [g] has gained, or had, the id [id] for the live node [p]. *)
Record entered st st' g id p : Prop := {
  en_live q : is_Some (node st' q) ↔ is_Some (node st q);
  en_node : is_Some (node st p);
  en_other h : h ≠ g → registry_at st' h = registry_at st h;
  en_registry : ∃ R R', registry_at st g = Some R ∧ registry_at st' g = Some R' ∧
    registry_ok R' ∧ sm_get id (reg_nodes R') = Some p ∧
    (∀ k q, sm_get k (reg_nodes R) = Some q → sm_get k (reg_nodes R') = Some q) ∧
    (∀ k q, sm_get k (reg_nodes R') = Some q → sm_get k (reg_nodes R) = Some q ∨ k = id ∧ q = p);
}.

Lemma entered_id_for st st' g id p : entered st st' g id p → id_for (abs_content st) g p id.
Proof.
  intros [_ Hp _ (R & R' & HR & HR' & Hok' & Hid & Hsub & Hnew)].
  destruct (sm_get id (reg_nodes R)) as [q|] eqn:Hq.
  - left. apply abs_id_Some. pose proof (Hsub _ _ Hq). simplify_eq. eauto.
  - right. split.
    + simpl. by rewrite HR.
    + intros j (R1 & ? & Hj)%abs_id_Some. simplify_eq.
      apply Hsub in Hj as Hj'. apply Hok' in Hj'. apply Hok' in Hid. congruence.
Qed.

Lemma entered_content st st' g id p :
  entered st st' g id p →
  (∀ h, ct_registry (abs_content st') h = ct_registry (abs_content st) h) ∧
  (∀ h k, ct_id (abs_content st') h k = ct_id (ct_enter g id p (abs_content st)) h k).
Proof.
  intros [Hl Hp Ho (R & R' & HR & HR' & Hok' & Hid & Hsub & Hnew)]. split.
  - intros h. simpl. destruct (decide (h = g)) as [->|]; [by rewrite HR, HR'|by rewrite Ho].
  - intros h k. simpl. destruct (decide (h = g)) as [->|Hh].
    + rewrite HR, HR'. case_decide as Hk.
      * by destruct Hk as [_ ->].
      * apply option_eq. intros q. simpl. naive_solver.
    + rewrite decide_False by naive_solver. by rewrite Ho.
Qed.

Lemma abs_enter st st' g id p :
  entered st st' g id p → (∀ q, node st' q = node st q) →
  abs_content st' ≡ ct_enter g id p (abs_content st).
Proof.
  intros [Hr Hi]%entered_content Hn. split_and!; intros; rewrite ?Hr, ?Hi; try done; simpl; by rewrite Hn.
Qed.

Lemma abs_own st st' g id p d :
  entered st st' g id p → node st p = Some d →
  (∀ q, node st' q = if decide (q = p) then Some (set_registry d (Some g)) else node st q) →
  abs_content st' ≡ ct_own p g (ct_enter g id p (abs_content st)).
Proof.
  intros [Hr Hi]%entered_content Hd Hn. split_and!; intros; rewrite ?Hr, ?Hi; try done; simpl; rewrite Hn;
    case_decide; subst; by rewrite ?Hd.
Qed.

Lemma abs_admissible st g p d :
  node st p = Some d →
  admissible (abs_content st) g p ↔ nd_registry d = None ∨ nd_registry d = Some g.
Proof. intros Hd. unfold admissible. simpl. by rewrite Hd. Qed.

(** What [Registry::add_node] does to the registry. *)
Lemma added_entered st st' g id p d R R' :
  registry_ok R → registry_at st g = Some R → node st p = Some d →
  (∀ q, is_Some (node st' q) ↔ is_Some (node st q)) →
  (∀ h, registry_at st' h = if decide (h = g) then Some R' else registry_at st h) →
  registry_ok R' → Registry_get_id R' p = Some id →
  (∀ q, q ≠ p → Registry_get_id R' q = Registry_get_id R q) →
  (∀ k, sm_get k (reg_nodes R') = if decide (k = id) then Some p else sm_get k (reg_nodes R)) →
  entered st st' g id p.
Proof.
  intros HokR Hg Hd Hl HR Hok' Hid Hq Hget. split; [done|by eexists| |].
  - intros h Hh. rewrite HR. by case_decide.
  - exists R, R'. split_and!; [done| |done|by apply Hok'|by apply (added_id R R' p id)|].
    + rewrite HR. by case_decide.
    + intros k q. rewrite Hget. case_decide; naive_solver.
Qed.

Lemma refines_register w p g : world_ok w → implements (CallRegister p g) w (exec (CallRegister p g) w).
Proof.
  intros Hok. pose proof (wok_store _ Hok) as Hw. unfold exec. case_decide as Hg; [|done].
  apply borrow_implements. intros Hh Hp.
  destruct (owner_live _ _ _ Hw Hp) as [d Hd].
  destruct (reg_owner_live _ _ _ Hw (with_handles _ _ Hg)) as [R HR].
  destruct (registrable_dec_or _ p g d Hd) as [(d' & ? & Hreg)|(h & Hdh & Hne)].
  - simplify_eq. destruct (try_register_in_ok _ _ p g d R Hw Hd HR Hreg)
      as (id & R' & st' & -> & Hw' & Hn & HR' & Hok' & Hid & Hq & Hget & _).
    assert (entered (w_store w) st' g id p) as Hen.
    { apply (added_entered _ _ g id p d R R'); try done; [exact (wf_st_regs _ _ Hw _ _ HR)|].
      intros q. rewrite Hn. case_decide; [|done]. subst. by rewrite Hd. }
    apply implements_Ok. split_and!; [done..|]. left. split; [by apply (proj2 (abs_admissible _ _ _ _ Hd))|].
    exists id. split_and!; [by eapply entered_id_for|done|]. split_and!; [by eapply abs_own|done..].
  - destruct (try_register_in_other _ _ p g d R h Hw Hd HR Hdh Hne) as (st' & -> & _ & Hv).
    apply implements_Ok. split_and!; [done..|]. right. split_and!; [|done|by apply abs_upd, same_content_views].
    intros Ha%(proj1 (abs_admissible _ _ _ _ Hd)). naive_solver.
Qed.

Lemma refines_add_node w p g : world_ok w → implements (CallAddNode p g) w (exec (CallAddNode p g) w).
Proof.
  intros Hok. pose proof (wok_store _ Hok) as Hw. unfold exec. case_decide as Hg; [|done].
  apply borrow_implements. intros Hh Hp.
  destruct (owner_live _ _ _ Hw Hp) as [d Hd].
  destruct (reg_owner_live _ _ _ Hw (with_handles _ _ Hg)) as [R HR].
  pose proof (wf_st_regs _ _ Hw _ _ HR) as HokR.
  destruct (with_registry_mut_spec (λ R, Registry_add_node R p) (w_store w) (w_refs w) g R
    (λ id R' st2, (∀ q, node st2 q = node (w_store w) q) ∧ registry_ok R' ∧
      Registry_get_id R' p = Some id ∧ (∀ q, q ≠ p → Registry_get_id R' q = Registry_get_id R q) ∧
      (∀ k, sm_get k (reg_nodes R') = if decide (k = id) then Some p else sm_get k (reg_nodes R))) Hw HR)
    as (id & R' & st2 & st' & -> & _ & (Hn2 & Hok' & Hid & Hq & Hget) & Hn' & HR').
  { intros st1 Hw1 Hn1 _ _.
    destruct (Registry_add_node_spec st1 (w_refs w) R p d Hw1 HokR) as
      (id & R' & st2 & -> & Hw2 & Hok' & [Hn2 HR2] & Hid & Hq & Hget & _); [by rewrite Hn1|].
    exists id, R', st2. split_and!; try done. intros q; by rewrite Hn2, Hn1. }
  assert (∀ q, node st' q = node (w_store w) q) as Hn by (intros q; by rewrite Hn', Hn2).
  assert (entered (w_store w) st' g id p) as Hen.
  { apply (added_entered _ _ g id p d R R'); try done. intros q. by rewrite Hn. }
  apply implements_Ok. split_and!; [done..|]. exists id. split_and!; [by eapply entered_id_for|done|].
  split_and!; [by apply abs_enter|done..].
Qed.

(** The entries of live nodes in a registry that the client holds. *)
Lemma abs_id_live st g R p d k :
  registry_at st g = Some R → node st p = Some d → registry_ok R →
  ct_id (abs_content st) g k = Some p ↔ Registry_get_id R p = Some k.
Proof.
  intros HR Hd HokR. rewrite abs_id_Some, registry_ok_get_id by done. naive_solver.
Qed.

Lemma refines_get_id w g p : world_ok w → implements (CallGetId g p) w (exec (CallGetId g p) w).
Proof.
  intros Hok. pose proof (wok_store _ Hok) as Hw. unfold exec. case_decide as Hg; [|done].
  apply borrow_implements. intros Hh Hp. destruct (owner_live _ _ _ Hw Hp) as [d Hd].
  destruct (reg_owner_live _ _ _ Hw (with_handles _ _ Hg)) as [R HR].
  rewrite registered_id_idle, HR by apply Hw. apply implements_Ok. split_and!; [done|done|apply abs_read|]. eexists. split; [done|].
  intros k. symmetry. eapply abs_id_live; [done..|]. exact (wf_st_regs _ _ Hw _ _ HR).
Qed.

Lemma refines_get w g id : world_ok w → implements (CallGet g id) w (exec (CallGet g id) w).
Proof.
  intros Hok. pose proof (wok_store _ Hok) as Hw. apply borrow_implements. intros Hh Hg.
  destruct (reg_owner_live _ _ _ Hw Hg) as [R HR]. rewrite (with_registry_get _ _ g R id Hw HR).
  destruct (Registry_get_spec _ _ R id Hw) as (st' & -> & _ & Hv).
  { intros p Hp. by eapply registered_alloc. }
  apply implements_Ok. split; [done|]. cbn [abs sp_content]. rewrite (abs_name _ _ _ _ HR). split; [done|].
  by apply abs_upd, same_content_views.
Qed.

Lemma refines_free_node_ids w g :
  world_ok w → implements (CallFreeNodeIds g) w (exec (CallFreeNodeIds g) w).
Proof.
  intros Hok. pose proof (wok_store _ Hok) as Hw. apply borrow_implements. intros Hh Hg.
  destruct (reg_owner_live _ _ _ Hw Hg) as [R HR]. pose proof (wf_st_regs _ _ Hw _ _ HR) as HokR.
  destruct (with_registry_mut_spec Registry_free_node_ids (w_store w) (w_refs w) g R
    (λ n R' st2, (∀ q, node st2 q = node (w_store w) q) ∧ n = Registry_len R' ∧
      ∀ k, sm_get k (reg_nodes R') = resolve (w_store w) R k) Hw HR)
    as (n & R' & st2 & st' & -> & _ & (Hn2 & -> & Hres) & Hn' & HR').
  { intros st1 Hw1 Hn1 _ _.
    destruct (Registry_free_node_ids_spec st1 (w_refs w) R Hw1 HokR)
      as (R' & st2 & -> & Hw2 & Hok' & [Hn2 HR2] & Hres).
    eexists _, R', st2. split_and!; try done; [intros q; by rewrite Hn2, Hn1|]. intros k.
    rewrite Hres. apply resolve_ext. intros q. by rewrite Hn1. }
  assert (∀ q, node st' q = node (w_store w) q) as Hn by (intros q; by rewrite Hn', Hn2).
  apply implements_Ok. split_and!; [done| |].
  - split_and!; [|done..]. split_and!; simpl.
    + intros p. by rewrite Hn.
    + intros p. by rewrite Hn.
    + intros h. rewrite HR'. case_decide; [subst; by rewrite HR|done].
    + intros h k. rewrite HR'. case_decide as Hhg; [|done]. subst. simpl. rewrite Hres.
      exact (abs_name _ _ k _ HR).
  - exists (sm_iter (reg_nodes R')).*1. split_and!; [apply sm_iter_NoDup| |].
    + intros k. cbn [abs sp_content]. rewrite (abs_name _ _ k _ HR), <-Hres, list_elem_of_fmap. split.
      * intros ([j q] & -> & Hj%sm_iter_get). by exists q.
      * intros [q Hq]. exists (k, q). by rewrite sm_iter_get.
    + unfold Registry_len. by rewrite sm_len_iter, length_fmap.
Qed.

Lemma refines_contains_id w g id :
  world_ok w → implements (CallContainsId g id) w (exec (CallContainsId g id) w).
Proof.
  intros Hok. pose proof (wok_store _ Hok) as Hw. apply borrow_implements. intros Hh Hg.
  destruct (reg_owner_live _ _ _ Hw Hg) as [R HR]. rewrite (with_registry_contains_id _ _ g R id Hw HR).
  destruct (Registry_contains_id_spec _ _ R id Hw) as (st' & -> & _ & Hv).
  { intros p Hp. by eapply registered_alloc. }
  apply implements_Ok. split_and!; [done|by apply abs_upd, same_content_views|].
  cbn [abs sp_content]. by rewrite (abs_name _ _ _ _ HR).
Qed.

Lemma refines_remove w g id : world_ok w → implements (CallRemove g id) w (exec (CallRemove g id) w).
Proof.
  intros Hok. pose proof (wok_store _ Hok) as Hw. unfold exec. apply borrow_implements. intros Hh Hg. destruct (reg_owner_live _ _ _ Hw Hg) as [R HR].
  destruct (remove_spec _ _ g id R Hw HR) as (st' & -> & _ & Hn & HR').
  apply implements_Ok. split_and!; [done..|]. split_and!; [|done..]. split_and!; simpl.
  - intros p. by rewrite Hn.
  - intros p. by rewrite Hn.
  - intros h. rewrite HR'. case_decide; [subst; by rewrite HR|done].
  - intros h k. rewrite HR'. destruct (decide (h = g)) as [->|Hne].
    + rewrite HR. simpl. rewrite Registry_remove_get.
      destruct (decide (k = id)) as [->|Hk]; [by rewrite decide_True|by rewrite decide_False by naive_solver].
    + by rewrite decide_False by naive_solver.
Qed.

Lemma refines_all_ancestors w p :
  world_ok w → implements (CallAllAncestors p) w (exec (CallAllAncestors p) w).
Proof.
  intros Hok. pose proof (wok_store _ Hok) as Hw. apply borrow_implements. intros Hh Hp.
  destruct (owner_live _ _ _ Hw Hp) as [d Hd].
  destruct (all_ancestors_walk _ _ _ _ Hw Hd) as (l & rest & Heq & _ & _). rewrite Heq.
  apply implements_Ok. split_and!; [done|apply abs_read|]. exists l. split; [done|].
  apply (lists_ancestors_ext _ _ _ _ (abs_parents _)). by apply all_ancestors_listed.
Qed.

(** ** Calls on graphs *)

Lemma consume_graph_implements c w i l f :
  world_ok w →
  (∀ hg hs, w_graphs w !! i = Some hg → release_all l (w_handles w) = Some hs →
    hg_ok (w_store w) hg →
    wf (w_store w) (l ++ hg_owners hg ++ hs ++ (delete i (w_graphs w) ≫= hg_owners)) →
    implements c w (Some (f hg hs))) →
  implements c w (consume_graph w i l f).
Proof.
  intros Hok Hf. unfold consume_graph. destruct (w_graphs w !! i) as [hg|] eqn:Hi; [|done].
  apply consume_implements; [done|]. intros hs Hhs Hw. apply Hf; [done|done| |].
  - apply Hok. by eapply list_elem_of_lookup_2.
  - rewrite (graph_split _ _ _ Hi) in Hw. by rewrite (Permutation_app_swap_app (hg_owners hg)).
Qed.

Lemma abs_with_graph w i hg P :
  w_graphs w !! i = Some hg → P (abs_graph hg) → with_graph (abs w) i P.
Proof. intros Hi HP. exists (abs_graph hg). split; [|done]. simpl. by rewrite list_lookup_fmap, Hi. Qed.

Lemma abs_edge_at st hg e x v :
  gv_edge_at (abs_content st) (abs_graph hg) e x v ↔
    ∃ edge, graph_edge st hg e edge ∧ ie_source edge = x ∧ ie_value edge = v.
Proof.
  unfold gv_edge_at, graph_edge. simpl. setoid_rewrite abs_node_Some. split.
  - intros (q & v' & l & Hq & (d & Hd & _ & <-) & (edge & He & <- & <-)%incoming_pairs_lookup & Hin).
    exists edge. split; [|done]. eauto 10.
  - intros (edge & (q & d & Hq & Hd & He & Hin) & <- & <-).
    exists q, (nd_value d), (incoming_pairs d).
    split_and!; [done|by eauto|apply incoming_pairs_lookup; by eauto|done].
Qed.

Lemma abs_edge st hg e x :
  gv_edge (abs_content st) (abs_graph hg) e x ↔
    ∃ edge, graph_edge st hg e edge ∧ ie_source edge = x.
Proof. unfold gv_edge. setoid_rewrite abs_edge_at. naive_solver. Qed.

Lemma refines_new_graph w g : world_ok w → implements (CallNewGraph g) w (exec (CallNewGraph g) w).
Proof.
  intros Hok. apply consume_implements; [done|]. intros hs Hhs Hw. apply implements_Ok.
  exists hs. split_and!; [|done|].
  - simpl in Hhs. by apply bind_Some in Hhs as (? & ? & [= ->]).
  - split_and!; [done..|]. simpl. constructor; [|done]. split; [done|]. intros k. simpl. by rewrite sec_get_new.
Qed.

Lemma refines_get_node w i id : world_ok w → implements (CallGetNode i id) w (exec (CallGetNode i id) w).
Proof.
  intros Hok. apply consume_graph_implements; [done|]. intros hg hs Hi [= <-] Hhg Hw.
  apply implements_Ok, (abs_with_graph _ _ hg); [done|]. split; [done|apply abs_read].
Qed.

Lemma refines_get_node_id w i p :
  world_ok w → implements (CallGetNodeId i p) w (exec (CallGetNodeId i p) w).
Proof.
  intros Hok. unfold exec. case_decide; [|done].
  apply consume_graph_implements; [done|]. intros hg hs Hi [= <-] Hhg Hw.
  destruct (get_node_id_spec _ _ hg p Hw Hhg) as (o & -> & Ho).
  apply implements_Ok. split; [done|]. apply (abs_with_graph _ _ hg); [done|]. split; [apply abs_read|].
  exists o. by split.
Qed.

(** Edges at a node, in either direction. *)
Lemma abs_incident st hg k d e :
  gv_incident (abs_content st) (abs_graph hg) k d e ↔
    match d with
    | Outgoing => ∃ p edge, sec_get k (hg_nodes hg) = Some p ∧ graph_edge st hg e edge ∧ ie_source edge = p
    | Incoming => eid_target e = k ∧ ∃ edge, graph_edge st hg e edge
    end.
Proof. destruct d; simpl; setoid_rewrite abs_edge; naive_solver. Qed.

Lemma refines_outgoing_edges w i id :
  world_ok w → implements (CallOutgoingEdges i id) w (exec (CallOutgoingEdges i id) w).
Proof.
  intros Hok. apply consume_graph_implements; [done|]. intros hg hs Hi [= <-] Hhg Hw.
  destruct (outgoing_edges_total _ _ hg id Hw Hhg) as (l & st' & -> & _ & Hp & Hnd & Hl).
  apply implements_Ok, (abs_with_graph _ _ hg); [done|]. split; [by apply abs_upd, same_content_pruned|].
  exists l. split_and!; [done..|]. intros e. rewrite Hl. symmetry. apply (abs_incident _ hg id Outgoing).
Qed.

Lemma refines_edges w i id d : world_ok w → implements (CallEdges i id d) w (exec (CallEdges i id d) w).
Proof.
  intros Hok. apply consume_graph_implements; [done|]. intros hg hs Hi [= <-] Hhg Hw.
  destruct (edges_directed_spec _ _ hg id d Hw Hhg) as (l & st' & -> & _ & Hp & Hnd & Hl).
  apply implements_Ok, (abs_with_graph _ _ hg); [done|]. split; [by apply abs_upd, same_content_pruned|].
  exists l. simpl. split_and!; [by rewrite <-list_fmap_compose, list_fmap_id|done|].
  intros e. rewrite Hl. symmetry. apply abs_incident.
Qed.

Lemma refines_neighbors w i id d :
  world_ok w → implements (CallNeighbors i id d) w (exec (CallNeighbors i id d) w).
Proof.
  intros Hok. apply consume_graph_implements; [done|]. intros hg hs Hi [= <-] Hhg Hw. destruct d.
  - destruct (outgoing_neighbors_spec _ _ hg id Hw Hhg) as (es & st' & -> & _ & Hp & Hnd & Hes).
    apply implements_Ok, (abs_with_graph _ _ hg); [done|]. split; [by apply abs_upd, same_content_pruned|].
    eexists es, _. split_and!; [done|done| |].
    + intros e. rewrite Hes. symmetry. apply (abs_incident _ hg id Outgoing).
    + simpl. by apply Forall2_fmap_r, Forall_Forall2_diag, Forall_true.
  - destruct (incoming_neighbors_spec _ _ hg id Hw Hhg) as (es & ks & -> & Hnd & Hes & Hks).
    apply implements_Ok, (abs_with_graph _ _ hg); [done|]. split; [apply abs_read|].
    exists es, ks. split_and!; [done|done| |].
    + intros e. rewrite Hes. symmetry. apply (abs_incident _ hg id Incoming).
    + eapply Forall2_impl; [exact Hks|]. intros e k (edge & He & Hk). exists (ie_source edge).
      split; [apply abs_edge; eauto|done].
Qed.

Lemma refines_edge_references w i :
  world_ok w → implements (CallEdgeReferences i) w (exec (CallEdgeReferences i) w).
Proof.
  intros Hok. apply consume_graph_implements; [done|]. intros hg hs Hi [= <-] Hhg Hw.
  destruct (read_all_references _ _ hg Hw Hhg) as (es & -> & l & Heq & Hnd & Hl). simpl. rewrite Heq.
  apply implements_Ok, (abs_with_graph _ _ hg); [done|]. split; [apply abs_read|].
  exists l. split_and!; [done..|]. intros e k m v. rewrite Hl. setoid_rewrite abs_edge_at. naive_solver.
Qed.

Lemma refines_source w i e : world_ok w → implements (CallSource i e) w (exec (CallSource i e) w).
Proof.
  intros Hok. apply consume_graph_implements; [done|]. intros hg hs Hi [= <-] Hhg Hw.
  destruct (source_spec _ _ hg e Hw Hhg) as (o & -> & Ho).
  apply implements_Ok, (abs_with_graph _ _ hg); [done|]. split; [apply abs_read|]. exists o.
  split; [done|]. intros k. rewrite Ho. setoid_rewrite abs_edge. simpl. naive_solver.
Qed.

Lemma refines_incoming_edges w i id :
  world_ok w → implements (CallIncomingEdges i id) w (exec (CallIncomingEdges i id) w).
Proof.
  intros Hok. apply consume_graph_implements; [done|]. intros hg hs Hi [= <-] Hhg Hw.
  destruct (incoming_edges_spec _ _ hg id Hw Hhg) as (l & -> & Hs & Hl).
  apply implements_Ok, (abs_with_graph _ _ hg); [done|]. split; [apply abs_read|]. exists l.
  split_and!; [done..|]. intros e. rewrite Hl. setoid_rewrite abs_edge. naive_solver.
Qed.

Lemma refines_children w i id : world_ok w → implements (CallChildren i id) w (exec (CallChildren i id) w).
Proof.
  intros Hok. apply consume_graph_implements; [done|]. intros hg hs Hi [= <-] Hhg Hw.
  destruct (children_total _ _ hg id Hw Hhg) as (l & st' & -> & _ & Hp & Hl).
  apply implements_Ok, (abs_with_graph _ _ hg); [done|]. split; [by apply abs_upd, same_content_pruned|].
  exists l. split; [done|]. intros m. rewrite Hl. setoid_rewrite abs_edge. naive_solver.
Qed.

Lemma refines_parents w i id : world_ok w → implements (CallParents i id) w (exec (CallParents i id) w).
Proof.
  intros Hok. apply consume_graph_implements; [done|]. intros hg hs Hi [= <-] Hhg Hw.
  destruct (parents_spec _ _ hg id Hw Hhg) as (l & -> & Hl).
  apply implements_Ok, (abs_with_graph _ _ hg); [done|]. split; [apply abs_read|]. exists l.
  split_and!; [done..|]. intros m. rewrite Hl. setoid_rewrite abs_edge. naive_solver.
Qed.

Lemma refines_clone_graph w i : world_ok w → implements (CallCloneGraph i) w (exec (CallCloneGraph i) w).
Proof.
  intros Hok. apply consume_graph_implements; [done|]. intros hg hs Hi [= <-] Hhg Hw. simpl in Hw.
  destruct (clone_graph_spec _ _ _ Hw Hhg) as (st' & -> & _ & Hv).
  apply implements_Ok, (abs_with_graph _ _ hg); [done|]. split; [done|].
  split_and!; [by apply abs_same_content, same_content_views|done..].
Qed.

Lemma refines_drop_graph w i : world_ok w → implements (CallDropGraph i) w (exec (CallDropGraph i) w).
Proof.
  intros Hok. apply consume_graph_implements; [done|]. intros hg hs Hi [= <-] Hhg Hw. simpl in Hw.
  unfold HistoryGraph_drop. destruct (drop_refs_spec _ _ _ Hw) as (st' & -> & Hw' & Hinv).
  apply implements_Ok, (abs_with_graph _ _ hg); [done|]. split; [done|]. simpl.
  replace (delete i (abs_graph <$> w_graphs w)) with (abs_graph <$> delete i (w_graphs w)); [by apply abs_collected|].
  by rewrite !delete_take_drop, fmap_app, fmap_take, fmap_drop.
Qed.

(** ** Insertion *)

Lemma abs_upd_graph w i st' hs hg' C f :
  abs_content st' ≡ C → abs_graph hg' ≡ f →
  abs (upd_graph w i st' hs hg') ≡ mkSpec C hs (<[i:=f]> (abs_graph <$> w_graphs w)).
Proof.
  intros HC Hf. split_and!; [done..|]. simpl. rewrite list_fmap_insert.
  by apply list_insert_proper.
Qed.

Lemma registered_live g st st' q :
  registered_more g st st' → is_Some (node st' q) ↔ is_Some (node st q).
Proof.
  intros Hm. split; [by eapply rm_live|]. intros [d Hd].
  destruct (rm_node _ _ _ Hm _ _ Hd) as [->|[_ ->]]; eauto.
Qed.

Lemma refines_insert_new w i hg hs p :
  w_graphs w !! i = Some hg →
  wf (w_store w) (NodeStrong p :: hg_owners hg ++ hs ++ (delete i (w_graphs w) ≫= hg_owners)) →
  hg_ok (w_store w) hg → ¬ in_graph hg p → registrable (w_store w) (hg_registry hg) p →
  ∃ id hg' st', HistoryGraph_insert_node hg p (w_store w) = Ok (Some id, hg', st') ∧
    id_for (abs_content (w_store w)) (hg_registry hg) p id ∧ sec_get id (hg_nodes hg) = None ∧
    abs (upd_graph w i st' hs hg') ≡
      mkSpec (ct_own p (hg_registry hg) (ct_enter (hg_registry hg) id p (abs_content (w_store w)))) hs
        (<[i := mkGraphView (hg_registry hg)
             (λ j, if decide (j = id) then Some p else sec_get j (hg_nodes hg))]>
           (abs_graph <$> w_graphs w)).
Proof.
  intros Hi Hw Hhg Hni Hreg. destruct (insert_node_new _ _ hg p Hw Hhg Hni Hreg)
    as (id & hg' & st' & -> & Hw' & (R' & HR' & Hin') & Hgr & Hid & Hk & Hm & Hq & (d & Hd & Hd') & Hen).
  rewrite Hgr in HR'. destruct Hhg as (R & HR & _). destruct (Hen _ _ HR HR') as [Hnew _].
  assert (entered (w_store w) st' (hg_registry hg) id p) as Hent.
  { split; [intros q; by eapply registered_live|by eexists|apply Hm|]. exists R, R'.
    destruct (rm_reg _ _ _ Hm _ _ HR) as (R1 & ? & Hsub). simplify_eq.
    split_and!; [done|done|by eapply wf_st_regs| |done|done]. apply Hin'. rewrite Hk. by case_decide. }
  exists id, hg', st'. split_and!; [done|by eapply entered_id_for|done|]. apply abs_upd_graph.
  - eapply abs_own; [done|done|]. intros q. case_decide; [by subst|by apply Hq].
  - split; [done|]. intros k. simpl. by rewrite Hk.
Qed.

Lemma refines_insert_node w i p :
  world_ok w → implements (CallInsertNode i p) w (exec (CallInsertNode i p) w).
Proof.
  intros Hok. apply consume_graph_implements; [done|]. intros hg hs Hi Hhs Hhg Hw.
  assert (release (NodeStrong p) (w_handles w) = Some hs) as Hr.
  { simpl in Hhs. by apply bind_Some in Hhs as (? & ? & [= ->]). }
  destruct (owner_live _ _ p Hw) as [d Hd]; [left|].
  destruct (get_node_id_spec _ _ hg p Hw Hhg) as ([k|] & _ & Ho).
  - assert (sec_get k (hg_nodes hg) = Some p) as Hk by by apply Ho.
    destruct (insert_node_known _ _ hg p k Hw Hhg Hk) as (st' & -> & _ & Hv).
    apply implements_Ok, (abs_with_graph _ _ hg); [done|]. exists hs. split; [done|]. left.
    exists k. split_and!; [done..|]. unfold upd_graph. simpl. rewrite list_insert_id by done.
    by apply (abs_upd w), same_content_views.
  - assert (¬ in_graph hg p) as Hni by (intros [k Hk]; by apply Ho in Hk).
    destruct (registrable_dec_or _ p (hg_registry hg) d Hd) as [Hreg|(h & Hh & Hne)].
    + destruct (refines_insert_new w i hg hs p Hi Hw Hhg Hni Hreg) as (id & hg' & st' & -> & Hid & Hnew & Habs).
      apply implements_Ok, (abs_with_graph _ _ hg); [done|]. exists hs. split; [done|]. right. left.
      destruct Hreg as (d' & ? & Hreg). simplify_eq.
      split_and!; [done|by apply (proj2 (abs_admissible _ _ _ _ Hd))|]. by exists id.
    + destruct (insert_node_foreign _ _ hg p d h Hw Hhg Hni Hd Hh Hne) as (st' & -> & Hw' & _ & Hinv & _).
      apply implements_Ok, (abs_with_graph _ _ hg); [done|]. exists hs. split; [done|]. right. right.
      split_and!; [done| |done|].
      * intros Ha%(proj1 (abs_admissible _ _ _ _ Hd)). simpl in Ha. naive_solver.
      * unfold upd_graph. simpl. rewrite list_insert_id by done. apply abs_collected; [|done].
        rewrite (graph_split _ _ _ Hi). by rewrite (Permutation_app_swap_app hs).
Qed.

Lemma abs_missing st hg x p : gv_missing (abs_content st) (abs_graph hg) x p ↔ missing st hg x p.
Proof.
  split; apply rtc_subrel; intros y z [Hp Hn]; (split; [by apply abs_parent|done]).
Qed.

Lemma inserting_all st hg p st' hg' :
  hg_ok st hg → inserting st hg p st' hg' → in_graph hg' p → (∀ y, parent_of st y p → in_graph hg' y) →
  inserted_all (abs_content st) (abs_graph hg) p (abs_content st') (abs_graph hg').
Proof.
  intros (R & HR & _) Hins Hp Hpar. pose proof (ins_stores _ _ _ _ _ Hins) as Hm.
  pose proof (λ q, registered_live _ _ _ q Hm) as Hl.
  destruct (rm_reg _ _ _ Hm _ _ HR) as (R' & HR' & Hsub).
  split; try (change (gv_registry (abs_graph hg)) with (hg_registry hg));
    try (setoid_rewrite abs_missing).
  - apply Hins.
  - intros x. split; [intros [?|[??]]%(ins_sound _ _ _ _ _ Hins); by auto|].
    intros [?|?]; [by eapply ins_mono_in|by eapply inserting_complete].
  - apply Hins.
  - intros x [?|[_ (d & Hd & Hr)]]%(ins_sound _ _ _ _ _ Hins); [by left|right].
    by apply (proj2 (abs_admissible _ _ _ _ Hd)).
  - intros x. destruct (decide (in_graph hg' x ∧ ¬ in_graph hg x)) as [[Hx Hnx]|Hx].
    + destruct (ins_new _ _ _ _ _ Hins _ Hx Hnx) as (d & Hd & Hd'). simpl. by rewrite Hd, Hd'.
    + simpl. rewrite (ins_old _ _ _ _ _ Hins); [done|]. destruct (decide (in_graph hg x)); naive_solver.
  - intros x Hx Hnx. destruct (ins_new _ _ _ _ _ Hins _ Hx Hnx) as (d & Hd & Hd'). simpl. by rewrite Hd'.
  - intros x Hx. simpl. by rewrite (ins_old _ _ _ _ _ Hins).
  - intros g. simpl. destruct (decide (g = hg_registry hg)) as [->|Hg]; [by rewrite HR, HR'|].
    by rewrite (rm_other _ _ _ Hm).
  - intros g k Hg. simpl. by rewrite (rm_other _ _ _ Hm).
  - intros k x (R1 & ? & Hk)%abs_id_Some. simplify_eq. apply abs_id_Some. exists R'.
    split; [done|by apply Hsub].
  - intros k x (R1 & ? & Hk)%abs_id_Some. simplify_eq.
    destruct (ins_entries _ _ _ _ _ Hins _ _ _ _ HR HR' Hk) as [Hk'|?]; [left|by right].
    apply abs_id_Some. by exists R.
Qed.

Lemma refines_insert_ancestors w i p :
  world_ok w → implements (CallInsertAncestors i p) w (exec (CallInsertAncestors i p) w).
Proof.
  intros Hok. apply consume_graph_implements; [done|]. intros hg hs Hi Hhs Hhg Hw.
  destruct (HistoryGraph_insert_ancestors_outcome hg p _ _ Hw Hhg)
    as [(id & hg' & st' & -> & _ & Hins & Hid & Hpar)|[-> (x & Hx & Hnx & Hreg)]].
  - apply implements_Ok, (abs_with_graph _ _ hg); [done|].
    exists hs, (abs_content st'), (abs_graph hg'), id. split_and!.
    + simpl in Hhs. by apply bind_Some in Hhs as (? & ? & [= ->]).
    + apply inserting_all; [done..| |done]. by exists id.
    + done.
    + done.
    + by apply abs_upd_graph.
  - intros res [= <-]. apply (abs_with_graph _ _ hg); [done|]. exists x.
    split_and!; [by apply abs_missing|done|]. intros Ha. apply Hreg.
    assert (∃ d, node (w_store w) x = Some d) as [d Hd].
    { destruct (owner_live _ _ p Hw) as [dp Hdp]; [left|]. eapply ancestor_live; [exact Hw|exact Hdp|].
      eapply rtc_subrel; [|exact Hx]. by intros y z [? _]. }
    exists d. split; [done|]. by apply (proj1 (abs_admissible _ _ _ _ Hd)).
Qed.
End refinement.
