(* ===== verification/SerialRefinement.v ===== *)
(** * Serialisation implements its specification

    The calls that read more of registries and graphs, and those that write a graph
    down and read it back. *)

From S2P Require Import Prelude Slotmap Store StoreFacts Rc Registry Drop DropFacts RegistryOps Edge Node NodeFacts RegistryFacts Ancestors History HistoryFacts Adjacency Insertion InsertAncestors Serialization Deserialize Serialize GraphSerial GraphDeserial Client ClientFacts Spec Abstraction Refinement.

Section serial_refinement.
Context {N E : Type} {S : SlotMapSig} {SLaws : SlotMapLaws S} {A : Allocator}.
Implicit Types (st : store N E) (w : world N E) (p q x y g h : addr) (hs : list ref) (hg : HistoryGraph).
Implicit Types (k id : NodeId) (R : Registry) (c : call N E) (r : ref) (gs : list HistoryGraph).

(** ** Reading registries and graphs *)

Lemma refines_len w g : world_ok w → implements (CallLen g) w (exec (CallLen g) w).
Proof.
  intros Hok. pose proof (wok_store _ Hok) as Hw. apply borrow_implements. intros Hh Hg.
  destruct (reg_owner_live _ _ _ Hw Hg) as [R HR]. rewrite (with_registry_len _ _ g R Hw HR).
  apply implements_Ok. split_and!; [done|apply abs_read|].
  exists (sm_iter (reg_nodes R)).*1. split_and!; [apply sm_iter_NoDup| |].
  - intros k. simpl. rewrite HR. simpl. rewrite list_elem_of_fmap. split.
    + intros ([j q] & -> & Hj%sm_iter_get). by exists q.
    + intros [q Hq]. exists (k, q). by rewrite sm_iter_get.
  - unfold Registry_len. by rewrite sm_len_iter, length_fmap.
Qed.

Lemma refines_iter w g : world_ok w → implements (CallIter g) w (exec (CallIter g) w).
Proof.
  intros Hok. pose proof (wok_store _ Hok) as Hw. apply borrow_implements. intros Hh Hg.
  destruct (reg_owner_live _ _ _ Hw Hg) as [R HR]. rewrite (with_registry_iter _ _ g R Hw HR).
  destruct (Registry_iter_spec _ _ g R Hw HR) as (l & st' & -> & _ & Hv & Hnd & Hl).
  apply implements_Ok. split; [done|]. exists l. split_and!; [done|done| |by apply abs_upd, same_content_views].
  intros k p. rewrite Hl. cbn [abs sp_content]. by rewrite (abs_name _ _ _ _ HR), resolve_Some.
Qed.

Lemma refines_node_ids w i : world_ok w → implements (CallNodeIds i) w (exec (CallNodeIds i) w).
Proof.
  intros Hok. apply consume_graph_implements; [done|]. intros hg hs Hi [= <-] Hhg Hw.
  apply implements_Ok, (abs_with_graph _ _ hg); [done|]. split; [apply abs_read|]. eexists. split; [done|].
  split; [apply sec_iter_NoDup|]. intros k. apply elem_of_sec_keys.
Qed.

Lemma refines_get_edge w i e : world_ok w → implements (CallGetEdge i e) w (exec (CallGetEdge i e) w).
Proof.
  intros Hok. apply consume_graph_implements; [done|]. intros hg hs Hi [= <-] Hhg Hw.
  destruct (get_edge_spec _ _ hg e Hw Hhg) as (o & -> & Ho).
  apply implements_Ok, (abs_with_graph _ _ hg); [done|]. split; [apply abs_read|]. eexists. split; [done|].
  intros p v. setoid_rewrite abs_edge_at. setoid_rewrite <-Ho. rewrite fmap_Some. unfold InnerEdgeData_source, InnerEdgeData_value.
  naive_solver.
Qed.

Lemma refines_target w i e : world_ok w → implements (CallTarget i e) w (exec (CallTarget i e) w).
Proof.
  intros Hok. apply consume_graph_implements; [done|]. intros hg hs Hi [= <-] Hhg Hw.
  destruct (target_spec _ _ hg e Hw Hhg) as (o & -> & Ho).
  apply implements_Ok, (abs_with_graph _ _ hg); [done|]. split; [apply abs_read|]. exists o. split; [done|].
  intros k. rewrite Ho. setoid_rewrite abs_edge. naive_solver.
Qed.

Lemma refines_graph_registry w i :
  world_ok w → implements (CallGraphRegistry i) w (exec (CallGraphRegistry i) w).
Proof.
  intros Hok. apply consume_graph_implements; [done|]. intros hg hs Hi [= <-] (R & HR & _) Hw.
  unfold HistoryGraph_registry. destruct (reg_clone_wf _ _ _ _ Hw HR) as (st' & -> & _ & Hv).
  apply implements_Ok, (abs_with_graph _ _ hg); [done|]. split; [done|]. by apply abs_upd, same_content_views.
Qed.

Lemma refines_clone_node w i id : world_ok w → implements (CallCloneNode i id) w (exec (CallCloneNode i id) w).
Proof.
  intros Hok. apply consume_graph_implements; [done|]. intros hg hs Hi [= <-] Hhg Hw.
  unfold HistoryGraph_get_node. destruct (sec_get id (hg_nodes hg)) as [p|] eqn:Hp.
  - destruct (hg_node_live _ _ _ _ _ Hw Hp) as [d Hd]. unfold RelRc_clone.
    destruct (rc_clone_wf _ _ _ _ Hw Hd) as (st' & -> & _ & Hv).
    apply implements_Ok, (abs_with_graph _ _ hg); [done|]. simpl. rewrite Hp. split; [done|].
    by apply abs_upd, same_content_views.
  - apply implements_Ok, (abs_with_graph _ _ hg); [done|]. simpl. rewrite Hp. split; [done|]. apply abs_read.
Qed.

(** ** Writing a graph down *)

Lemma abs_described st hg x : gv_described (abs_content st) (abs_graph hg) x ↔ yielded st hg x.
Proof.
  split; intros (y & l & Hy & Hl & Hx); exists y, l; (split_and!; [done| |done]);
    (eapply lists_ancestors_ext; [|exact Hl]); intros q; by rewrite abs_parents.
Qed.

Lemma abs_named st hg R x :
  registry_at st (hg_registry hg) = Some R →
  gv_named (abs_content st) (abs_graph hg) x ↔ named st hg R x.
Proof. intros HR. unfold gv_named, named. rewrite abs_described. simpl. by rewrite HR. Qed.

Lemma encodes_spells R (d : InnerData N E) s :
  registry_ok R →
  encodes R d s ↔ spells (λ k, sm_get k (reg_nodes R)) s (nd_value d) (incoming_pairs d).
Proof.
  intros HR. unfold encodes, spells. apply and_iff_compat_l.
  unfold incoming_pairs, InnerData_all_incoming. rewrite Forall2_fmap_r.
  split; (intros Hf%Forall2_flip; eapply Forall2_impl; [exact Hf|]); simpl;
    intros ? ? [? ?]; (split; [|done]); by apply registry_ok_get_id.
Qed.

(** The names that a graph was written with. *)
Lemma written_names st hg R ser R' :
  registry_at st (hg_registry hg) = Some R → written st hg R ser R' →
  names_for (abs_content st) (abs_graph hg) (λ k, sm_get k (reg_nodes R')) ∧
  written_down (abs_content st) (abs_graph hg) (λ k, sm_get k (reg_nodes R')) ser.
Proof.
  intros HR Hwr. pose proof (wr_ok _ _ _ _ _ Hwr) as Hok'. split; [split|split].
  - intros k x. simpl. rewrite HR. apply (wr_kept _ _ _ _ _ Hwr).
  - intros x. rewrite (abs_named _ _ R) by done. split.
    + intros [[k Hk]|Hx]; [exists k; by apply (wr_kept _ _ _ _ _ Hwr)|by apply (wr_all _ _ _ _ _ Hwr)].
    + intros [k [?|?]%(wr_new _ _ _ _ _ Hwr)]; [left; by exists k|by right].
  - intros j k x Hj%Hok' Hk%Hok'. congruence.
  - apply (wr_nodes _ _ _ _ _ Hwr).
  - intros k d. rewrite (wr_entry _ _ _ _ _ Hwr). setoid_rewrite abs_described.
    setoid_rewrite abs_node_Some. split.
    + intros (p & d0 & Hk & Hy & Hd & Henc%encodes_spells); [|done].
      exists p, (nd_value d0), (incoming_pairs d0). split_and!; eauto.
    + intros (p & v & l & Hk & Hy & (d0 & Hd & <- & <-) & Hsp). exists p, d0.
      split_and!; [done..|]. by apply encodes_spells.
Qed.

Lemma written_writable st hg R ser R' :
  registry_at st (hg_registry hg) = Some R → written st hg R ser R' →
  ¬ unwritable (abs_content st) (abs_graph hg).
Proof.
  intros HR Hwr (x & Hx & Hbad). apply (written_not_blocked _ _ _ _ _ Hwr). exists x.
  split; [by apply (abs_named _ _ R)|]. destruct Hbad as [Hno|(y & Hy & Hno)].
  - left. simpl in Hno. by apply fmap_None in Hno.
  - right. exists y. split; [by apply abs_parent|]. by rewrite <-(abs_named _ _ R).
Qed.

Lemma refines_serialize_graph w i :
  world_ok w → implements (CallSerializeGraph i) w (exec (CallSerializeGraph i) w).
Proof.
  intros Hok. apply consume_graph_implements; [done|]. intros hg hs Hi [= <-] (R & HR & Hin) Hw.
  destruct (HistoryGraph_to_serialized_outcome _ _ hg R Hw HR Hin)
    as [(ser & st' & R' & -> & _ & Hv & Hwr)|[-> (x & Hx & Hbad)]].
  - apply implements_Ok, (abs_with_graph _ _ hg); [done|]. split_and!.
    + by apply abs_upd, same_content_views.
    + by eapply written_writable.
    + exists ser, (λ k, sm_get k (reg_nodes R')). split; [done|]. by eapply written_names.
  - intros res [= <-]. apply (abs_with_graph _ _ hg); [done|]. exists x.
    split; [by apply (abs_named _ _ R)|]. destruct Hbad as [Hd|(y & Hy & Hny)].
    + left. simpl. by rewrite Hd.
    + right. exists y. split; [by apply abs_parent|]. intros ?%(abs_named _ _ R); done.
Qed.

(** ** Reading a graph back *)

Section deserialized.
Context (ser : SerializedHistoryGraph N E) (w : world N E) (R : Registry) (nodes : SecondaryMap addr)
  (st1 st3 st' : store N E) (hg : HistoryGraph).
Hypothesis Hok : world_ok w.
Hypothesis Hw' : wf st' (hg_owners hg ++ w_refs w).
Hypothesis Hrv : revived ser (w_store w) (w_refs w) R nodes st1 st3 hg st'.

Local Notation st := (w_store w).
Local Notation new_registry := (hg_registry hg).
Let Hw : wf st (w_refs w) := wok_store _ Hok.
Let Hdec := rv_decoded _ _ _ _ _ _ _ _ _ Hrv.
Let Hinv := rv_dropped _ _ _ _ _ _ _ _ _ Hrv.

(** The content when all is made and nothing has been dropped. *)
Definition made : content N E :=
  mkContent (ct_node (abs_content st1))
    (λ x, if decide (in_graph hg x) then Some new_registry else ct_owner (abs_content st1) x)
    (λ h, if decide (h = new_registry) then true else ct_registry (abs_content st) h)
    (λ h k, if decide (h = new_registry) then sec_get k nodes else ct_id (abs_content st) h k).
Definition made_graph : graph_view :=
  mkGraphView new_registry (λ k, if decide (k ∈ shg_nodes ser) then sec_get k nodes else None).
Definition made_spec : spec N E :=
  mkSpec made (w_handles w) (made_graph :: (abs_graph <$> w_graphs w)).

Lemma made_graph_node k : gv_node made_graph k = sec_get k (hg_nodes hg).
Proof.
  apply option_eq. intros p. rewrite (rv_graph _ _ _ _ _ _ _ _ _ Hrv). simpl. case_decide; naive_solver.
Qed.
Lemma made_graph_in x : gv_in made_graph x ↔ in_graph hg x.
Proof. unfold gv_in, in_graph. by setoid_rewrite made_graph_node. Qed.

(** The new registry is none that was known. *)
Lemma new_registry_alloc h b : st_regs st3 !! h = Some b → h ≠ new_registry.
Proof. intros Hb ->. by rewrite (rv_fresh _ _ _ _ _ _ _ _ _ Hrv) in Hb. Qed.

Lemma old_registry h : RegStrong h ∈ w_refs w → h ≠ new_registry.
Proof.
  intros Hh. destruct (rv_wf _ _ _ _ _ _ _ _ _ Hrv) as (l & Hw3 & _).
  destruct (reg_owner_live _ _ h Hw3) as (Rh & (b & Hb & _)%registry_at_Some); [apply elem_of_app; by right|].
  by eapply new_registry_alloc.
Qed.

Lemma made_fresh_registry : fresh_registry_in (abs w) new_registry.
Proof.
  destruct (rv_wf _ _ _ _ _ _ _ _ _ Hrv) as (l & Hw3 & _). split_and!.
  - simpl. destruct (registry_at st new_registry) as [R0|] eqn:HR0; [|done].
    by destruct (old_registry _ (registry_owned _ _ _ _ Hw HR0)).
  - intros p (d & Hd & Hr)%abs_owner_Some.
    apply (revived_survive _ _ _ _ _ _ _ _ _ Hw Hrv) in Hd.
    destruct (node_registry_alloc _ _ _ _ _ Hw3 Hd Hr) as [b Hb]. by apply new_registry_alloc in Hb.
  - intros Hr. apply (old_registry new_registry); [|done]. apply elem_of_app. by left.
  - intros f Hf Hr. apply (old_registry new_registry); [|done]. unfold w_refs. rewrite abs_refs_registry. eauto.
Qed.

Lemma made_revives : revives (abs w) ser (λ k, sec_get k nodes) new_registry made.
Proof.
  split.
  - apply made_fresh_registry.
  - intros k x Hk. apply (fresh_abs w x Hok). by destruct (dec_node _ _ _ _ _ Hdec k x Hk).
  - apply (dec_inj _ _ _ _ _ Hdec).
  - apply (dec_dom _ _ _ _ _ Hdec).
  - intros k x Hk. destruct (dec_node _ _ _ _ _ Hdec k x Hk) as (_ & d & d1 & Hs & Hd1 & _ & Hv & Hf).
    exists d, (incoming_pairs d1). split_and!; [done| |].
    + apply abs_node_Some. eauto.
    + split; [done|]. unfold incoming_pairs, InnerData_all_incoming. rewrite Forall2_fmap_r.
      eapply Forall2_impl; [exact Hf|]. simpl. intros pe e [? ?]. by split.
  - intros k x Hk. simpl. destruct (dec_node _ _ _ _ _ Hdec k x Hk) as (_ & d & d1 & _ & Hd1 & Hr & _).
    rewrite Hd1. simpl. rewrite Hr. destruct (decide (in_graph hg x)) as [[j Hj]|Hni].
    + apply (rv_graph _ _ _ _ _ _ _ _ _ Hrv) in Hj as [Hj Hjx].
      assert (j = k) as -> by by eapply (dec_inj _ _ _ _ _ Hdec). by rewrite decide_True.
    + rewrite decide_False; [done|]. intros Hks. apply Hni. exists k. by apply (rv_graph _ _ _ _ _ _ _ _ _ Hrv).
  - intros x Hx. assert (node st1 x = node st x) as Heq.
    { destruct (node st x) as [d|] eqn:Hd; [by apply (dec_old _ _ _ _ _ Hdec)|].
      destruct (node st1 x) as [d|] eqn:Hd1; [exfalso|done].
      destruct (dec_new _ _ _ _ _ Hdec x d Hd1) as [?|[k ?]]; [congruence|by eapply Hx]. }
    simpl. rewrite Heq. split; [done|]. rewrite decide_False; [done|].
    intros [k [_ Hk]%(rv_graph _ _ _ _ _ _ _ _ _ Hrv)]. by eapply Hx.
  - done.
  - done.
Qed.

Lemma made_held x l :
  (∀ q, NodeStrong q ∈ l ↔ in_graph hg q) → sp_held made_spec x ↔ held_by st1 (l ++ w_refs w) x.
Proof.
  intros Hl. unfold sp_held, held_by, sp_root, ancestor_of, w_refs. simpl.
  setoid_rewrite elem_of_app at 1. setoid_rewrite abs_refs_node. setoid_rewrite Hl.
  setoid_rewrite elem_of_cons. setoid_rewrite <-made_graph_in.
  split; intros (q & Hq & Hpq); exists q; (split; [naive_solver|]);
    (eapply rtc_subrel; [|exact Hpq]); intros a b; apply (abs_parent st1).
Qed.

(** The nodes that are left are the nodes that are held. *)
Lemma left_exact x d : node st3 x = Some d ↔ node st1 x = Some d ∧ sp_held made_spec x.
Proof.
  destruct (rv_wf _ _ _ _ _ _ _ _ _ Hrv) as (l & Hw3 & Hl). rewrite (made_held x l Hl).
  by apply dropped_exact.
Qed.

Lemma left_node x : ct_node (abs_content st') x = ct_node (abs_content st3) x.
Proof.
  simpl. destruct (decide (in_graph hg x)) as [Hx|Hx].
  - destruct (rv_kept _ _ _ _ _ _ _ _ _ Hrv x Hx) as (d & -> & ->). done.
  - by rewrite (rv_other _ _ _ _ _ _ _ _ _ Hrv x Hx).
Qed.
Lemma left_owner x :
  ct_owner (abs_content st') x =
    if decide (in_graph hg x) then Some new_registry else ct_owner (abs_content st3) x.
Proof.
  simpl. case_decide as Hx.
  - by destruct (rv_kept _ _ _ _ _ _ _ _ _ Hrv x Hx) as (d & _ & ->).
  - by rewrite (rv_other _ _ _ _ _ _ _ _ _ Hrv x Hx).
Qed.

Lemma graph_held x : in_graph hg x → sp_held made_spec x.
Proof.
  intros Hx. destruct (rv_kept _ _ _ _ _ _ _ _ _ Hrv x Hx) as (d & Hd & _).
  by apply left_exact in Hd as [_ ?].
Qed.

Lemma made_registry_held h :
  sp_registry_held made_spec h ↔ h = new_registry ∨ RegStrong h ∈ w_refs w.
Proof.
  unfold sp_registry_held, w_refs. simpl. rewrite abs_refs_registry. setoid_rewrite elem_of_cons.
  split; [|naive_solver]. intros [?|(f & [->|?] & <-)]; simpl; eauto.
Qed.

Lemma made_registry h :
  ct_registry (abs_content st') h = true ↔ ct_registry made h = true ∧ sp_registry_held made_spec h.
Proof.
  rewrite made_registry_held, abs_registry_true, (rv_registry _ _ _ _ _ _ _ _ _ Hrv). cbn [made ct_registry].
  case_decide as Hh; [naive_solver|]. rewrite (abs_registry_true (w_store w)). split.
  - intros [R3 HR3]. destruct (di_regs _ _ _ Hinv _ _ HR3) as (R1 & HR1 & _).
    rewrite (dec_reg _ _ _ _ _ Hdec) in HR1. split; [by eauto|]. right. by eapply registry_owned.
  - intros [[Rh HRh] [?|Hr]]; [done|].
    destruct (revived_ids _ _ _ _ _ _ _ _ _ h Rh Hw Hrv Hr HRh) as (R3 & ? & _). eauto.
Qed.

(** Registries from before keep all their ids; so does the new one. *)
Lemma made_ids h k x :
  ct_id made h k = Some x → sp_held made_spec x ∨ ct_owner made x ≠ Some h.
Proof.
  simpl. intros Hk. destruct (decide (in_graph hg x)) as [Hx|Hx]; [left; by apply graph_held|].
  destruct (node st1 x) as [d|] eqn:Hd; [|by right]. case_decide as Hh.
  - right. destruct (dec_node _ _ _ _ _ Hdec k x Hk) as (_ & _ & d' & _ & Hd' & Hr & _). simplify_eq. simpl. congruence.
  - destruct (dec_new _ _ _ _ _ Hdec x d Hd) as [Hd0|[j Hj]].
    + left. apply (revived_survive _ _ _ _ _ _ _ _ _ Hw Hrv), left_exact in Hd0 as [_ ?]. done.
    + right. destruct (dec_node _ _ _ _ _ Hdec j x Hj) as (_ & _ & d' & _ & Hd' & Hr & _). simplify_eq. simpl. congruence.
Qed.

Lemma made_id h k x :
  ct_id (abs_content st') h k = Some x ↔
    ct_id made h k = Some x ∧ (sp_held made_spec x ∨ ct_owner made x ≠ Some h) ∧ sp_registry_held made_spec h.
Proof.
  rewrite made_registry_held, abs_id_Some, (rv_registry _ _ _ _ _ _ _ _ _ Hrv). split.
  - intros Hk. assert (ct_id made h k = Some x ∧ (h = new_registry ∨ RegStrong h ∈ w_refs w)) as [Hm ?].
    { simpl. case_decide as Hh.
      - destruct Hk as (R1 & [= <-] & Hk). rewrite (rv_same _ _ _ _ _ _ _ _ _ Hrv) in Hk. auto.
      - destruct Hk as (R3 & HR3 & Hk). destruct (di_regs _ _ _ Hinv _ _ HR3) as (R1 & HR1 & Hsub & _).
        rewrite (dec_reg _ _ _ _ _ Hdec) in HR1. rewrite HR1. simpl. split; [by apply Hsub|].
        right. by eapply registry_owned. }
    split_and!; [done|by eapply made_ids|done].
  - intros (Hk & _ & Hh). simpl in Hk. case_decide as Hg.
    + exists R. by rewrite (rv_same _ _ _ _ _ _ _ _ _ Hrv).
    + destruct Hh as [?|Hh]; [done|]. apply bind_Some in Hk as (Rh & HRh & Hk).
      destruct (revived_ids _ _ _ _ _ _ _ _ _ h Rh Hw Hrv Hh HRh) as (R3 & HR3 & Hids). exists R3.
      by rewrite Hids.
Qed.

Lemma made_collected : collected made_spec (abs (mkWorld st' (w_handles w) (hg :: w_graphs w))).
Proof.
  split_and!; cbn [abs sp_content w_store].
  - intros x [v l]. rewrite left_node. change (ct_node (sp_content made_spec) x) with (ct_node (abs_content st1) x).
    rewrite !abs_node_Some. setoid_rewrite left_exact. naive_solver.
  - intros x g. rewrite left_owner. simpl. case_decide as Hx.
    + pose proof (graph_held x Hx). naive_solver.
    + rewrite !bind_Some. setoid_rewrite left_exact. naive_solver.
  - apply made_registry.
  - apply made_id.
  - done.
  - simpl. constructor; [|done]. split; [done|]. apply made_graph_node.
Qed.
End deserialized.

Lemma refines_deserialize_graph w ser :
  world_ok w → implements (CallDeserializeGraph ser) w (exec (CallDeserializeGraph ser) w).
Proof.
  intros Hok. pose proof (wok_store _ Hok) as Hw. unfold exec.
  destruct (HistoryGraph_from_serialized_outcome ser _ _ Hw)
    as [(R & nodes & st1 & st3 & hg & st' & -> & Hgood & Hkeys & Hw' & Hhg & Hrv)|(msg & -> & Hbad)].
  2: { by intros res [= <-]. }
  apply implements_Ok. split; [by intros [?|?]|]. split; [done|].
  exists (λ k, sec_get k nodes), (hg_registry hg), (made w nodes st1 hg). split.
  - by eapply made_revives.
  - by eapply made_collected.
Qed.
End serial_refinement.
