(* ===== verification/Simulation.v ===== *)
(** * Calls and programs implement the specification

    Every call of a client on a consistent world is a step of the specification
    between the abstractions, with the same output; so every program is an
    execution of the specification. *)

From S2P Require Import Prelude Slotmap Store Drop Edge Node History Serialization Client ClientFacts Spec Abstraction Refinement SerialRefinement.

Section simulation.
Context {N E : Type} {S : SlotMapSig} {SLaws : SlotMapLaws S} {A : Allocator}.
Implicit Types (w : world N E) (c : call N E).

(** ** All calls *)

#[local] Hint Resolve refines_contains_id refines_remove refines_all_ancestors refines_source refines_new refines_with_parents refines_clone refines_downgrade
  refines_upgrade refines_drop refines_value refines_incoming refines_all_outgoing
  refines_n_outgoing refines_node_registry refines_new_registry refines_clone_registry
  refines_register refines_add_node refines_get_id refines_get refines_free_node_ids
  refines_new_graph refines_insert_node refines_insert_ancestors refines_get_node
  refines_get_node_id refines_outgoing_edges refines_incoming_edges refines_children
  refines_parents refines_clone_graph refines_drop_graph refines_len refines_iter
  refines_node_ids refines_get_edge refines_target refines_graph_registry refines_clone_node
  refines_serialize_graph refines_deserialize_graph refines_clone_weak refines_neighbors refines_edges
  refines_edge_references : refine.

Lemma exec_refines c w : world_ok w → implements c w (exec c w).
Proof. intros Hok. destruct c; by auto with refine. Qed.

(** ** Programs *)

(** The calls of a program, with what they returned. *)
Fixpoint run_trace (cs : list (call N E)) w : option (list (call N E * output N E) * world N E) :=
  match cs with
  | [] => Some ([], w)
  | c :: cs =>
      if disciplined c w then
        match exec c w with
        | Some (Ok (o, w1)) => (λ tw, ((c, o) :: tw.1, tw.2)) <$> run_trace cs w1
        | _ => None
        end
      else None
  end.

Lemma run_trace_refines cs w t w' :
  world_ok w → run_trace cs w = Some (t, w') → spec_trace (abs w) t (abs w').
Proof.
  revert w t. induction cs as [|c cs IH]; intros w t Hok; simpl; [intros [= <- <-]; by constructor|].
  destruct (disciplined c w) eqn:Hd; [|done].
  destruct (exec c w) as [[[o w1]|]|] eqn:Hc; try done.
  intros ([t1 w2] & Ht & [= -> ->])%fmap_Some.
  econstructor; [exact (exec_refines c w Hok _ Hc)|]. apply IH; [|done]. by eapply disciplined_ok.
Qed.

Lemma abs_empty : abs (empty_world (N:=N) (E:=E)) = spec_start.
Proof. reflexivity. Qed.
End simulation.
