(* ===== verification/GuardedClient.v ===== *)
(** * Clients that keep guards over their calls

    [Client] has programs whose calls release the guards they take.  Here a client
    also takes guards of its own ([Rc<RefCell<Registry>>::borrow] and [borrow_mut],
    and [all_outgoing_weak_ref] for code of the crate) and makes calls, disciplined
    ones, while it keeps them. *)

From S2P Require Import Prelude Slotmap Store RefCell Guarded StoreFacts Rc Registry Drop DropFacts RegistryOps Edge Node NodeFacts RegistryFacts Ancestors History HistoryFacts Adjacency Petgraph Insertion InsertAncestors Serialization GuardedOps Client ClientFacts Spec Abstraction Refinement Simulation.

Section guarded_client.
Context {N E : Type} {S : SlotMapSig} {SLaws : SlotMapLaws S} {A : Allocator}.
Implicit Types (w : world N E) (c : call N E) (F : gmap cell Z) (hs : list ref) (l : list ref).

(** ** Calls under guards *)

(** The same world, with the guards of [F0] and with those of [F1]. *)
Definition worlds F0 F1 w0 w1 : Prop :=
  stores F0 F1 (w_store w0) (w_store w1) ∧ w_handles w0 = w_handles w1 ∧ w_graphs w0 = w_graphs w1.

Notation response := (result (output N E * world N E)).
Definition responses F0 F1 : option response → option response → Prop :=
  option_Forall2 (outcome (prod_relation eq (worlds F0 F1))).

Lemma worlds_mk F0 F1 o s0 s1 hs gs :
  stores F0 F1 s0 s1 → prod_relation eq (worlds F0 F1) (o, mkWorld s0 hs gs) ((o, mkWorld s1 hs gs) : output N E * world N E).
Proof. intros Hs. split; [done|]. by split_and!. Qed.
Lemma worlds_upd F0 F1 o s0 s1 w0 w1 hs :
  worlds F0 F1 w0 w1 → stores F0 F1 s0 s1 →
  prod_relation eq (worlds F0 F1) (o, upd w0 s0 hs) ((o, upd w1 s1 hs) : output N E * world N E).
Proof. intros (_ & _ & Hgs) Hs. split; [done|]. by split_and!. Qed.
Lemma worlds_upd_graph F0 F1 o s0 s1 w0 w1 hs i hg :
  worlds F0 F1 w0 w1 → stores F0 F1 s0 s1 →
  prod_relation eq (worlds F0 F1) (o, upd_graph w0 i s0 hs hg) ((o, upd_graph w1 i s1 hs hg) : output N E * world N E).
Proof. intros (_ & _ & Hgs) Hs. split; [done|]. split_and!; [done..|]. simpl. by rewrite Hgs. Qed.

Lemma borrow_alike F0 F1 w0 w1 r f0 f1 :
  worlds F0 F1 w0 w1 → outcome (prod_relation eq (worlds F0 F1)) f0 f1 →
  responses F0 F1 (borrow w0 r f0) (borrow w1 r f1).
Proof. intros (_ & Hh & _) Hf. unfold borrow. rewrite Hh. case_decide; by constructor. Qed.
Lemma consume_alike F0 F1 w0 w1 l f0 f1 :
  worlds F0 F1 w0 w1 → (∀ hs, outcome (prod_relation eq (worlds F0 F1)) (f0 hs) (f1 hs)) →
  responses F0 F1 (consume w0 l f0) (consume w1 l f1).
Proof. intros (_ & Hh & _) Hf. unfold consume. rewrite Hh. destruct (release_all _ _); by constructor. Qed.
Lemma consume_graph_alike F0 F1 w0 w1 i l f0 f1 :
  worlds F0 F1 w0 w1 → (∀ hg hs, outcome (prod_relation eq (worlds F0 F1)) (f0 hg hs) (f1 hg hs)) →
  responses F0 F1 (consume_graph w0 i l f0) (consume_graph w1 i l f1).
Proof.
  intros Hw Hf. unfold consume_graph. pose proof Hw as (_ & _ & ->).
  destruct (w_graphs w1 !! i); [|constructor]. by apply consume_alike.
Qed.

#[local] Hint Resolve worlds_mk worlds_upd worlds_upd_graph : guarded.

Lemma exec_alike c F0 F1 w0 w1 : worlds F0 F1 w0 w1 → responses F0 F1 (exec c w0) (exec c w1).
Proof.
  destruct w0 as [s0 hs gs], w1 as [s1 hs1 gs1]. intros Hw. pose proof Hw as (Hs & Hh & Hg). simpl in Hs, Hh, Hg. subst hs1 gs1.
  destruct c; unfold exec; cbn [w_store w_handles w_graphs];
    try (case_decide; [|by constructor]);
    first [ apply borrow_alike; [done|]; cbn [w_store w_handles w_graphs]
          | apply consume_alike; [done|]; intros ?; cbn [w_store w_handles w_graphs]
          | apply consume_graph_alike; [done|]; intros ? ?; cbn [w_store w_handles w_graphs]
          | idtac ].
  all: try solve [guarded].
  - destruct (RelRc_new_alike value _ _ _ _ Hs) as [Hp Hs']. rewrite Hp. constructor. guarded.
  - destruct (reg_alloc_alike Registry_new _ _ _ _ Hs) as [Hg Hs']. rewrite Hg. constructor. guarded.
  - eapply outcome_bind.
    + apply with_registry_alike; [|exact Hs]. intros R ? ? t0 t1 Ht. by apply outcome_Ok, returns_pair.
    + guarded_intro. guarded.
  - constructor. guarded.
Qed.

(** ** A world and the guards that are alive in it *)

Definition guards w : gmap cell Z := st_borrows (w_store w).
Definition hold F w : world N E := mkWorld (set_borrows F (w_store w)) (w_handles w) (w_graphs w).

Lemma hold_worlds F w : world_ok w → canonical F → worlds ∅ F w (hold F w).
Proof.
  intros Hok HF. split; [|done]. split_and!; [by apply more_guards_start|apply (wok_store _ Hok)|done].
Qed.
Lemma hold_nothing w : world_ok w → hold ∅ w = w.
Proof. intros Hok. unfold hold. rewrite set_borrows_self by apply Hok. by destruct w. Qed.
Lemma hold_guards w : hold (guards w) w = w.
Proof. by destruct w as [[]]. Qed.
Lemma hold_again F F' w : hold F (hold F' w) = hold F w.
Proof. done. Qed.

(** With guards a call panics because of them, or does what it does without. *)
Lemma responses_hold F x0 x1 res :
  responses ∅ F x0 x1 → x1 = Some res →
  match res with
  | Ok (o, w') => ∃ w1, x0 = Some (Ok (o, w1)) ∧ w' = hold F w1
  | Err e => borrow_error e ∨ x0 = Some (Err e)
  end.
Proof.
  intros Ha Hres. rewrite Hres in Ha. inversion Ha as [r0 r1 Hr Heq|]; subst. destruct res as [[o w']|e].
  - destruct Hr as ([o1 w1] & -> & [Ho (Hs & Hh & Hg)]). simpl in Ho, Hs, Hh, Hg. subst o1. exists w1. split; [done|].
    destruct w' as [s' hs' gs']. simpl in *. destruct Hs as (_ & _ & ->). by subst.
  - destruct Hr as [?| ->]; auto.
Qed.

(** ** Operations through a guard *)

(** The methods of [Registry], called on a [Ref] or [RefMut] that the client has. *)
Inductive guard_op :=
  | OpAddNode (p : addr)
  | OpFreeNodeIds
  | OpRemove (id : NodeId)
  | OpGetId (p : addr)
  | OpGet (id : NodeId)
  | OpContainsId (id : NodeId)
  | OpLen
  | OpIter.

(** The ones that take [&mut self]. *)
Definition op_writes (op : guard_op) : bool :=
  match op with OpAddNode _ | OpFreeNodeIds | OpRemove _ => true | _ => false end.

(** The call that borrows the registry for the same operation. *)
Definition op_call (g : addr) (op : guard_op) : call N E :=
  match op with
  | OpAddNode p => CallAddNode p g
  | OpFreeNodeIds => CallFreeNodeIds g
  | OpRemove id => CallRemove g id
  | OpGetId p => CallGetId g p
  | OpGet id => CallGet g id
  | OpContainsId id => CallContainsId g id
  | OpLen => CallLen g
  | OpIter => CallIter g
  end.

(** The operation without a borrow of its own. *)
Definition through (g : addr) (op : guard_op) w : option response :=
  let st := w_store w in let hs := w_handles w in
  match op with
  | OpAddNode p => borrow w (NodeStrong p)
      (r ← registry_update g (λ R, Registry_add_node R p) st; Ok (OutId (Some r.1), upd w r.2 hs))
  | OpFreeNodeIds => Some
      (r ← registry_update g Registry_free_node_ids st; Ok (OutCount r.1, upd w r.2 hs))
  | OpRemove id => Some
      (r ← registry_update g (λ R, Registry_remove_drop R id) st; Ok (OutUnit, upd w r.2 hs))
  | OpGetId p => borrow w (NodeStrong p)
      (R ← deref (registry_at st g); Ok (OutId (Registry_get_id R p), upd w st hs))
  | OpGet id => Some (R ← deref (registry_at st g); r ← Registry_get R id st;
      Ok (OutNode r.1, upd w r.2 ((NodeStrong <$> option_list r.1) ++ hs)))
  | OpContainsId id => Some (R ← deref (registry_at st g); r ← Registry_contains_id R id st;
      Ok (OutBool r.1, upd w r.2 hs))
  | OpLen => Some (R ← deref (registry_at st g); Ok (OutCount (Registry_len R), upd w st hs))
  | OpIter => Some (R ← deref (registry_at st g); r ← Registry_iter R st;
      Ok (OutEntries r.1, upd w r.2 ((NodeStrong <$> r.1.*2) ++ hs)))
  end.

(** It does what the call does when nothing is borrowed. *)
Lemma through_idle g op w :
  world_ok w → RegStrong g ∈ w_handles w → exec (op_call g op) w = through g op w.
Proof.
  intros Hok Hg. pose proof (wok_store _ Hok) as Hw. assert (st_borrows (w_store w) = ∅) as Hb by apply Hw.
  destruct (reg_owner_live _ _ g Hw) as [R HR]; [by apply with_handles|].
  destruct op; simpl; unfold borrow; rewrite ?(decide_True (P:=RegStrong g ∈ w_handles w)) by done; try reflexivity.
  - by rewrite with_registry_mut_idle by (done || intros; apply Registry_add_node_framed).
  - by rewrite with_registry_mut_idle by (done || intros; apply Registry_free_node_ids_framed).
  - by rewrite with_registry_mut_idle by (done || intros; apply Registry_remove_drop_framed).
  - rewrite registered_id_idle by done. rewrite HR. done.
  - by rewrite (with_registry_get _ _ _ _ _ Hw HR), HR.
  - by rewrite (with_registry_contains_id _ _ _ _ _ Hw HR), HR.
  - by rewrite (with_registry_len _ _ _ _ Hw HR), HR.
  - by rewrite (with_registry_iter _ _ _ _ Hw HR), HR.
Qed.

Lemma through_alike g op F0 F1 w0 w1 : worlds F0 F1 w0 w1 → responses F0 F1 (through g op w0) (through g op w1).
Proof.
  destruct w0 as [s0 hs gs], w1 as [s1 hs1 gs1]. intros Hw. pose proof Hw as (Hs & Hh & Hg).
  simpl in Hs, Hh, Hg. subst hs1 gs1.
  destruct op; unfold through; cbn [w_store w_handles w_graphs];
    first [apply borrow_alike; [done|]|constructor]; guarded.
Qed.

(** ** Programs *)

Inductive action :=
  | ActCall (c : call N E)
  | ActThrough (g : addr) (op : guard_op)
  | ActBorrow (x : cell)
  | ActBorrowMut (x : cell)
  | ActRelease (x : cell)
  | ActReleaseMut (x : cell).

(** The cells that a client can borrow: a guard borrows from the handle, or from the
    graph that gives its registry. *)
Definition can_borrow w (x : cell) : bool :=
  match x with
  | RegistryCell g => bool_decide (RegStrong g ∈ w_handles w) || bool_decide (g ∈ hg_registry <$> w_graphs w)
  | OutgoingCell p => bool_decide (NodeStrong p ∈ w_handles w)
  | RegisterCell _ => false
  end.
(** A node only ever gives out guards for reading. *)
Definition can_borrow_mut w (x : cell) : bool :=
  match x with RegistryCell _ => can_borrow w x | _ => false end.

(** The handles that guards borrow from are still there. *)
Definition guards_backed w : Prop := map_Forall (λ x _, can_borrow w x = true) (guards w).

Definition if_backed (x : option response) : option response :=
  match x with
  | Some (Ok (o, w')) => if decide (guards_backed w') then Some (Ok (o, w')) else None
  | _ => x
  end.

Definition perform (a : action) w : option response :=
  let st := w_store w in let hs := w_handles w in
  match a with
  | ActCall c => if disciplined c w then if_backed (exec c w) else None
  | ActThrough g op =>
      let z := flag (guards w) (RegistryCell g) in
      if bool_decide (RegStrong g ∈ hs) && (if op_writes op then bool_decide (z < 0)%Z else bool_decide (z ≠ 0%Z))
      then if disciplined (op_call g op) w then if_backed (through g op w) else None else None
  | ActBorrow x => if can_borrow w x
      then Some (st' ← RefCell_borrow x st; Ok (OutUnit, upd w st' hs)) else None
  | ActBorrowMut x => if can_borrow_mut w x
      then Some (st' ← RefCell_borrow_mut x st; Ok (OutUnit, upd w st' hs)) else None
  | ActRelease x => if decide (0 < flag (guards w) x)%Z
      then Some (Ok (OutUnit, upd w (Ref_drop x st) hs)) else None
  | ActReleaseMut x => if decide (flag (guards w) x < 0)%Z
      then Some (Ok (OutUnit, upd w (RefMut_drop x st) hs)) else None
  end.

(** The calls of a program, with what they returned. *)
Definition record_call (a : action) (o : output N E) : list (call N E * output N E) :=
  match a with
  | ActCall c => [(c, o)]
  | ActThrough g op => [(op_call g op, o)]
  | _ => []
  end.
Fixpoint run_actions (acts : list action) w : option (list (call N E * output N E) * world N E) :=
  match acts with
  | [] => Some ([], w)
  | a :: acts =>
      match perform a w with
      | Some (Ok (o, w1)) => (λ tw, (record_call a o ++ tw.1, tw.2)) <$> run_actions acts w1
      | _ => None
      end
  end.

(** ** The invariant *)

Record guarded_ok w : Prop := {
  go_world : world_ok (hold ∅ w);
  go_canonical : canonical (guards w);
  go_backed : guards_backed w;
}.

Lemma empty_guarded_ok : guarded_ok empty_world.
Proof. split; [apply empty_world_ok|by intros x|apply map_Forall_empty]. Qed.

(** What an action that is no call does to the guards. *)
Lemma set_flag_hold x z w : upd w (set_flag x z (w_store w)) (w_handles w) = hold (put_flag x z (guards w)) w.
Proof. done. Qed.

Lemma hold_ok F w :
  guarded_ok w → canonical F → map_Forall (λ x _, can_borrow w x = true) F → guarded_ok (hold F w).
Proof. intros Hok HF Hb. split; [apply Hok|done|]. exact Hb. Qed.

Lemma put_flag_backed x z w :
  guarded_ok w → (z ≠ 0%Z → can_borrow w x = true) →
  map_Forall (λ x _, can_borrow w x = true) (put_flag x z (guards w)).
Proof.
  intros Hok Hx. unfold put_flag. case_decide.
  - apply map_Forall_delete, Hok.
  - apply map_Forall_insert_2; [auto|apply Hok].
Qed.

Lemma flag_backed x w : guarded_ok w → flag (guards w) x ≠ 0%Z → can_borrow w x = true.
Proof.
  intros Hok. unfold flag. destruct (guards w !! x) as [z|] eqn:Hz; [|done]. intros _. by apply (go_backed _ Hok x z).
Qed.

(** What a call, made with guards or through one, does between the worlds without. *)
Definition refines_call c w (x : option response) : Prop :=
  ∀ res, x = Some res →
    match res with
    | Ok (o, w') => spec_step c (abs w) o (abs w') ∧ guards w' = guards w ∧
        (disciplined c w = true → world_ok (hold ∅ w'))
    | Err e => borrow_error e ∨ spec_fails c (abs w)
    end.

Lemma responses_refine w c x :
  guarded_ok w → responses ∅ (guards w) (exec c (hold ∅ w)) x → refines_call c w x.
Proof.
  intros [Hok _ _] Hx res Hres. pose proof (responses_hold _ _ _ _ Hx Hres) as Hr. destruct res as [[o w']|e].
  - destruct Hr as (w1 & H1 & ->). pose proof (exec_refines c _ Hok _ H1) as Hspec.
    split_and!; [exact Hspec|done|]. intros Hd. rewrite hold_again.
    assert (world_ok w1) as Hok1 by by eapply (disciplined_ok c (hold ∅ w)). by rewrite hold_nothing.
  - destruct Hr as [?|H1]; [by left|right]. exact (exec_refines c _ Hok _ H1).
Qed.

Lemma guarded_worlds w : guarded_ok w → worlds ∅ (guards w) (hold ∅ w) w.
Proof. intros [Hok Hc _]. pose proof (hold_worlds (guards w) _ Hok Hc) as Hw. by rewrite hold_again, hold_guards in Hw. Qed.

Lemma guarded_call_refines w c : guarded_ok w → refines_call c w (exec c w).
Proof. intros Hok. apply responses_refine; [done|]. by apply exec_alike, guarded_worlds. Qed.
Lemma through_refines w g op :
  guarded_ok w → RegStrong g ∈ w_handles w → refines_call (op_call g op) w (through g op w).
Proof.
  intros Hok Hg. apply responses_refine; [done|]. rewrite (through_idle g op); [|apply Hok|done].
  by apply through_alike, guarded_worlds.
Qed.

Lemma if_backed_ok c w x o w' :
  guarded_ok w → disciplined c w = true → refines_call c w x → if_backed x = Some (Ok (o, w')) →
  guarded_ok w' ∧ spec_step c (abs w) o (abs w').
Proof.
  intros Hok Hd Hx. unfold if_backed. destruct x as [[[o1 w1]|]|]; [|done..]. case_decide as Hb; [|done].
  intros [= <- <-]. destruct (Hx _ eq_refl) as (Hs & Hg & Hw). split; [|done].
  split; [by apply Hw|rewrite Hg; apply Hok|done].
Qed.

(** Setting a flag of a cell that the client can borrow. *)
Lemma set_flag_ok x z w :
  guarded_ok w → (z ≠ 0%Z → can_borrow w x = true) →
  guarded_ok (upd w (set_flag x z (w_store w)) (w_handles w)).
Proof.
  intros Hok Hx. rewrite set_flag_hold.
  apply hold_ok; [done|apply put_flag_canonical, Hok|by apply put_flag_backed].
Qed.

Lemma perform_ok a w o w' :
  guarded_ok w → perform a w = Some (Ok (o, w')) →
  guarded_ok w' ∧
  match a with
  | ActCall c => spec_step c (abs w) o (abs w')
  | ActThrough g op => spec_step (op_call g op) (abs w) o (abs w')
  | _ => abs w' = abs w
  end.
Proof.
  intros Hok. destruct a as [c|g op|x|x|x|x]; simpl.
  - destruct (disciplined c w) eqn:Hd; [|done]. intros Hx.
    by eapply if_backed_ok, Hx; [..|apply guarded_call_refines].
  - destruct (bool_decide (RegStrong g ∈ w_handles w)) eqn:Hg; [|done]. apply bool_decide_eq_true in Hg.
    simpl. destruct (if op_writes op then _ else _); [|done].
    destruct (disciplined (op_call g op) w) eqn:Hd; [|done]. intros Hx.
    by eapply if_backed_ok, Hx; [..|apply through_refines].
  - destruct (can_borrow w x) eqn:Hx; [|done]. unfold RefCell_borrow. case_decide; [done|].
    intros [= _ <-]. split; [by apply set_flag_ok|done].
  - destruct (can_borrow_mut w x) eqn:Hx; [|done]. unfold RefCell_borrow_mut. case_decide; [|done].
    intros [= _ <-]. split; [apply set_flag_ok; [done|by destruct x]|done].
  - case_decide; [|done]. intros [= _ <-]. split; [apply set_flag_ok; [done|]|done].
    intros _. apply flag_backed; [done|lia].
  - case_decide; [|done]. intros [= _ <-]. split; [apply set_flag_ok; [done|]|done].
    intros _. apply flag_backed; [done|lia].
Qed.

Lemma run_actions_refines acts w t w' :
  guarded_ok w → run_actions acts w = Some (t, w') → guarded_ok w' ∧ spec_trace (abs w) t (abs w').
Proof.
  revert w t. induction acts as [|a acts IH]; intros w t Hok; simpl; [intros [= <- <-]; split; [done|by constructor]|].
  destruct (perform a w) as [[[o w1]|]|] eqn:Ha; try done.
  intros ([t1 w2] & Ht & [= -> ->])%fmap_Some.
  destruct (perform_ok a w o w1 Hok Ha) as [Hok1 Hs]. destruct (IH w1 t1 Hok1 Ht) as [Hok2 Htr].
  split; [done|]. destruct a; simpl; [by econstructor|by econstructor|by rewrite <-Hs..].
Qed.

(** A guard is on a cell of a live node or registry. *)
Lemma guard_live w x : guarded_ok w → flag (guards w) x ≠ 0%Z →
  match x with
  | RegistryCell g => is_Some (registry_at (w_store w) g)
  | OutgoingCell p | RegisterCell p => is_Some (node (w_store w) p)
  end.
Proof.
  intros Hok Hx%(flag_backed x); [|done]. pose proof (wok_store _ (go_world _ Hok)) as Hw.
  assert (∀ r, r ∈ w_handles w → r ∈ w_refs (hold ∅ w)) as Hin by (intros; apply elem_of_app; by left).
  destruct x as [p|p|g]; simpl in Hx; [|done|].
  - apply bool_decide_eq_true in Hx. exact (owner_live _ _ _ Hw (Hin _ Hx)).
  - apply orb_true_iff in Hx as [Hx|Hx]; apply bool_decide_eq_true in Hx.
    + exact (reg_owner_live _ _ _ Hw (Hin _ Hx)).
    + apply list_elem_of_fmap in Hx as (hg & -> & Hhg).
      destruct (wok_graphs _ (go_world _ Hok) hg Hhg) as (R & HR & _). by exists R.
Qed.
End guarded_client.

Arguments ActCall {N E S} _.
Arguments ActThrough {N E S} _ _.
Arguments ActBorrow {N E S} _.
Arguments ActBorrowMut {N E S} _.
Arguments ActRelease {N E S} _.
Arguments ActReleaseMut {N E S} _.
