(* ===== verification/Programs.v ===== *)
(** * Operations that are programs of calls

    [RelRc::to_serialized] and [RelRc::from_serialized], and [HistoryGraph::new]
    with the constructors built on it, do what sequences of calls of a client do.
    So they implement what the specification says of these sequences. *)

From S2P Require Import Prelude Slotmap Store StoreFacts Rc Registry Drop DropFacts RegistryOps Edge Node NodeFacts History Serialization Client ClientFacts Spec Abstraction Refinement Simulation.

Section programs.
Context {N E : Type} {S : SlotMapSig} {SLaws : SlotMapLaws S} {A : Allocator}.
Implicit Types (st : store N E) (w : world N E) (p q g : addr) (hs : list ref) (hg : HistoryGraph).
Implicit Types (c : call N E) (r : ref) (nodes : list addr).

Lemma release_other r r' hs hs' : release r hs = Some hs' → r' ≠ r → r' ∈ hs → r' ∈ hs'.
Proof.
  intros Hr Hne Hin. apply release_perm in Hr. rewrite Hr in Hin. by apply elem_of_cons in Hin as [?|?].
Qed.

(** ** [RelRc::to_serialized] *)

Definition to_serialized_calls p g : list (call N E) :=
  [CallNewGraph g; CallClone p; CallInsertAncestors 0 p; CallSerializeGraph 0; CallDropGraph 0].
Definition to_serialized_outputs (ser : SerializedRelRc N E) : list (output N E) :=
  [OutUnit; OutUnit; OutId (Some (srr_id ser)); OutSerialized (srr_ancestors_graph ser); OutUnit].

Lemma to_serialized_program w p g hs :
  NodeStrong p ∈ w_handles w → release (RegStrong g) (w_handles w) = Some hs →
  run_trace (to_serialized_calls p g) w =
    match RelRc_to_serialized p g (w_store w) with
    | Ok (ser, st') =>
        Some (zip (to_serialized_calls p g) (to_serialized_outputs ser), mkWorld st' hs (w_graphs w))
    | Err _ => None
    end.
Proof.
  intros Hp Hg. assert (NodeStrong p ∈ hs) as Hp' by by eapply release_other.
  unfold RelRc_to_serialized, to_serialized_calls. cbn [run_trace exec]. unfold consume. simpl.
  rewrite Hg. simpl. unfold borrow. cbn [w_handles]. rewrite decide_True by done. unfold RelRc_clone. simpl.
  destruct (rc_clone p (w_store w)) as [st1|]; [|done]. simpl. unfold consume_graph, consume. simpl.
  rewrite decide_True by done. simpl.
  destruct (HistoryGraph_insert_ancestors _ p st1) as [[[id hg] st2]|]; [|done]. simpl.
  destruct (HistoryGraph_to_serialized hg st2) as [[ser st3]|]; [|done]. simpl.
  by destruct (HistoryGraph_drop hg st3).
Qed.

(** ** [RelRc::from_serialized] *)

Definition from_serialized_calls (ser : SerializedRelRc N E) : list (call N E) :=
  [CallDeserializeGraph (srr_ancestors_graph ser); CallCloneNode 0 (srr_id ser); CallDropGraph 0].

Lemma from_serialized_program w (ser : SerializedRelRc N E) p st' :
  RelRc_from_serialized ser (w_store w) = Ok (p, st') →
  run_trace (from_serialized_calls ser) w =
    Some (zip (from_serialized_calls ser) [OutUnit; OutNode (Some p); OutUnit],
          mkWorld st' (NodeStrong p :: w_handles w) (w_graphs w)).
Proof.
  unfold RelRc_from_serialized, from_serialized_calls. cbn [run_trace exec].
  destruct (HistoryGraph_from_serialized _ _) as [[hg st1]|]; [|done]. simpl.
  unfold consume_graph, consume. simpl. destruct (HistoryGraph_get_node hg (srr_id ser)) as [q|]; [|done]. simpl.
  unfold RelRc_clone. destruct (rc_clone q st1) as [st2|]; [|done]. simpl.
  destruct (HistoryGraph_drop hg st2) as [st3|]; [|done]. simpl. by intros [= <- <-].
Qed.

(** ** [HistoryGraph::new] *)

Definition insert_calls nodes : list (call N E) := CallInsertNode 0 <$> nodes.
Definition new_graph_calls nodes g : list (call N E) := CallNewGraph g :: insert_calls nodes.

Lemma insert_program nodes w hg gs hs :
  w_graphs w = hg :: gs → release_all (NodeStrong <$> nodes) (w_handles w) = Some hs →
  run (insert_calls nodes) w =
    match foldM (λ acc p, r ← HistoryGraph_insert_node acc.1 p acc.2; Ok (r.1.2, r.2))
        (hg, w_store w) nodes with
    | Ok (hg', st') => Some (mkWorld st' hs (hg' :: gs))
    | Err _ => None
    end.
Proof.
  revert w hg. induction nodes as [|p nodes IH]; intros w hg Hgs; simpl.
  { intros [= <-]. destruct w; simpl in *. by subst. }
  intros (hs1 & Hhs1 & Hhs)%bind_Some. unfold consume_graph, consume. rewrite Hgs. simpl. rewrite Hhs1. simpl.
  destruct (HistoryGraph_insert_node hg p (w_store w)) as [[[o hg1] st1]|]; [|done]. simpl.
  unfold upd_graph. rewrite Hgs. simpl. by rewrite (IH _ hg1).
Qed.

Lemma new_graph_program nodes w g hs :
  release_all (RegStrong g :: (NodeStrong <$> nodes)) (w_handles w) = Some hs →
  run (new_graph_calls nodes g) w =
    match HistoryGraph_new nodes g (w_store w) with
    | Ok (hg, st') => Some (mkWorld st' hs (hg :: w_graphs w))
    | Err _ => None
    end.
Proof.
  intros (hs1 & Hhs1 & Hhs)%bind_Some. unfold new_graph_calls. cbn [run exec]. unfold consume. simpl.
  rewrite Hhs1. simpl. by rewrite (insert_program nodes _ (mkHistoryGraph sec_new g) (w_graphs w) hs).
Qed.

Definition from_nodes_calls nodes w : list (call N E) :=
  CallNewRegistry :: new_graph_calls nodes (reg_alloc Registry_new (w_store w)).1.

Lemma from_nodes_program nodes w hs :
  release_all (NodeStrong <$> nodes) (w_handles w) = Some hs →
  run (from_nodes_calls nodes w) w =
    match HistoryGraph_from_nodes nodes (w_store w) with
    | Ok (hg, st') => Some (mkWorld st' hs (hg :: w_graphs w))
    | Err _ => None
    end.
Proof.
  intros Hhs. unfold from_nodes_calls, HistoryGraph_from_nodes. cbn [run exec].
  rewrite (new_graph_program nodes _ _ hs); [done|]. simpl. by rewrite decide_True by done.
Qed.

(** The insertions of a client that holds the nodes all return. *)
Lemma insert_returns nodes w hs :
  world_ok w → w_graphs w ≠ [] → release_all (NodeStrong <$> nodes) (w_handles w) = Some hs →
  ∃ w', run (insert_calls nodes) w = Some w'.
Proof.
  revert w. induction nodes as [|p nodes IH]; intros w Hok Hgs; [by exists w|]. cbn [fmap list_fmap release_all].
  intros (hs1 & Hhs1 & Hhs)%bind_Some. cbn [insert_calls fmap list_fmap run].
  pose proof (exec_insert_node w 0 p Hok) as Hs. revert Hs. unfold safe, exec, consume_graph, consume.
  destruct (w_graphs w) as [|hg gs] eqn:Hw; [done|]. simpl. rewrite Hhs1. simpl. intros Hs.
  destruct (Hs _ eq_refl) as (o & w1 & Heq & Hok1 & _).
  destruct (HistoryGraph_insert_node hg p (w_store w)) as [[[o1 hg1] st1]|]; [|done]. simpl in *.
  injection Heq as <- <-. apply IH; [done| |done]. unfold upd_graph. by rewrite Hw.
Qed.

Lemma new_graph_returns nodes w g hs :
  world_ok w → release_all (RegStrong g :: (NodeStrong <$> nodes)) (w_handles w) = Some hs →
  ∃ w', run (new_graph_calls nodes g) w = Some w'.
Proof.
  intros Hok (hs1 & Hhs1 & Hhs)%bind_Some. pose proof (exec_new_graph w g Hok) as Hs. revert Hs.
  unfold new_graph_calls, safe, run, exec, consume. simpl. rewrite Hhs1. simpl. intros Hs.
  destruct (Hs _ eq_refl) as (o & w1 & [= <- <-] & Hok1 & _). by apply (insert_returns nodes _ hs).
Qed.

Lemma from_nodes_returns nodes w hs :
  world_ok w → release_all (NodeStrong <$> nodes) (w_handles w) = Some hs →
  ∃ hg st', HistoryGraph_from_nodes nodes (w_store w) = Ok (hg, st').
Proof.
  intros Hok Hhs. pose proof (from_nodes_program nodes w hs Hhs) as Hrun.
  destruct (HistoryGraph_from_nodes nodes (w_store w)) as [[hg st']|]; [by eauto|exfalso].
  destruct (exec_new_registry w Hok _ eq_refl) as (o & w1 & [= _ <-] & Hok1 & _).
  destruct (new_graph_returns nodes _ (reg_alloc Registry_new (w_store w)).1 hs Hok1) as [w' Hw'].
  - simpl. by rewrite decide_True by done.
  - discriminate (eq_trans (eq_sym Hw') Hrun).
Qed.

(** A run has a trace. *)
Lemma run_has_trace cs w w' : run cs w = Some w' → ∃ t, run_trace cs w = Some (t, w') ∧ t.*1 = cs.
Proof.
  revert w. induction cs as [|c cs IH]; intros w; simpl; [intros [= <-]; by exists []|].
  destruct (disciplined c w); [|done]. destruct (exec c w) as [[[o w1]|]|]; try done. intros (t & -> & <-)%IH. by eexists.
Qed.
End programs.
