(* ===== verification/Model.v ===== *)
(** * A concrete slot map and allocator

    An implementation of the [slotmap] interface whose keys are never handed
    out twice, an allocator that reuses addresses, connections that are lists
    of messages, and integers as hashes.  They show that what is assumed of
    this code can hold, and let programs be run. *)

From S2P Require Import Prelude Slotmap Store Messages.

(** The successor of the largest element. *)
Definition above (l : list positive) : positive := foldr (λ x a, Pos.max (Pos.succ x) a) 1%positive l.

Lemma above_lt l x : x ∈ l → (x < above l)%positive.
Proof.
  induction l as [|y l IH]; [by intros ?%elem_of_nil|].
  intros [->|Hx]%elem_of_cons; simpl; [|specialize (IH Hx)]; lia.
Qed.

Lemma above_fresh l : above l ∉ l.
Proof. intros Hl%above_lt. lia. Qed.

(** The least address that is not in use. *)
Fixpoint least_unused (fuel : nat) (a : positive) (X : gset positive) : positive :=
  match fuel with
  | 0 => above (elements X)
  | Datatypes.S fuel => if decide (a ∈ X) then least_unused fuel (Pos.succ a) X else a
  end.

Lemma least_unused_fresh fuel a X : least_unused fuel a X ∉ X.
Proof.
  revert a. induction fuel as [|fuel IH]; intros a; simpl.
  - rewrite <-elem_of_elements. apply above_fresh.
  - by case_decide.
Qed.

#[export] Instance model_allocator : Allocator := {|
  alloc_addr X := least_unused (size X) 1 X;
  alloc_addr_fresh X := least_unused_fresh (size X) 1 X;
|}.

Record slots (V : Type) := mkSlots {
  slots_next : positive;
  slots_map : gmap positive V;
}.
Arguments mkSlots {V} _ _.
Arguments slots_next {V} _.
Arguments slots_map {V} _.

Definition slots_key {V} (m : slots V) : positive :=
  Pos.max (slots_next m) (above (map_to_list (slots_map m)).*1).

Fixpoint map_entries {V U} (f : positive → V → result U) (l : list (positive * V)) :
    result (gmap positive U) :=
  match l with
  | [] => Ok ∅
  | kv :: l => u ← f kv.1 kv.2; m ← map_entries f l; Ok (<[kv.1 := u]> m)
  end.

#[export] Instance model_slotmap : SlotMapSig := {|
  NodeId := positive;
  NodeId_le := Pos.le;
  SlotMap := slots;
  sm_with_key V := mkSlots 1 ∅;
  sm_insert V v m :=
    (slots_key m, mkSlots (Pos.succ (slots_key m)) (<[slots_key m := v]> (slots_map m)));
  sm_get V k m := slots_map m !! k;
  sm_remove V k m := (slots_map m !! k, mkSlots (slots_next m) (delete k (slots_map m)));
  sm_iter V m := map_to_list (slots_map m);
  sm_len V m := size (slots_map m);
  sm_retain V f m := mkSlots (slots_next m) (filter (λ kv, f kv.1 kv.2 = true) (slots_map m));
  sm_map V U f m := m' ← map_entries f (map_to_list (slots_map m)); Ok (mkSlots (slots_next m) m');
  SecondaryMap V := gmap positive V;
  sec_new V := ∅;
  sec_get V k s := s !! k;
  sec_insert V k v s := (s !! k, <[k := v]> s);
  sec_iter V s := map_to_list s;
  sec_retain V f s := filter (λ kv, f kv.1 kv.2 = true) s;
|}.

Lemma slots_key_fresh {V} (m : slots V) : slots_map m !! slots_key m = None.
Proof.
  destruct (slots_map m !! slots_key m) as [v|] eqn:Hk; [exfalso|done].
  assert (slots_key m ∈ (map_to_list (slots_map m)).*1) as Hin%above_lt.
  { apply list_elem_of_fmap. exists (slots_key m, v). by rewrite elem_of_map_to_list. }
  unfold slots_key in Hin at 1. lia.
Qed.

Lemma map_entries_lookup {V U} (f : positive → V → result U) l m' :
  NoDup l.*1 → map_entries f l = Ok m' →
  ∀ k, match list_to_map (M:=gmap positive V) l !! k with
       | Some v => ∃ u, f k v = Ok u ∧ m' !! k = Some u
       | None => m' !! k = None
       end.
Proof.
  revert m'. induction l as [|[j v] l IH]; intros m' Hnd; csimpl; [by intros [= <-] k|].
  apply NoDup_cons in Hnd as [Hj Hnd]. intros Hm k. inv_ok.
  rename select (f j v = Ok _) into Hf. rename select (map_entries f l = Ok _) into Hl.
  destruct (decide (j = k)) as [->|Hne].
  - rewrite !lookup_insert_eq. eauto.
  - rewrite !lookup_insert_ne by done. by apply IH.
Qed.

Lemma map_entries_Err {V U} (f : positive → V → result U) l e :
  map_entries f l = Err e → ∃ k v, (k, v) ∈ l ∧ f k v = Err e.
Proof.
  induction l as [|[j v] l IH]; simpl; [done|].
  destruct (f j v) as [u|e'] eqn:Hf; simpl; [|intros [= ->]; exists j, v; split; [left|done]].
  destruct (map_entries f l) as [m|e'] eqn:Hm; simpl; [done|]. intros [= ->].
  destruct IH as (k & w & ? & ?); [done|]. exists k, w. split; [by right|done].
Qed.

Lemma filter_entries_lookup {V} (f : positive → V → bool) (m : gmap positive V) k :
  filter (λ kv : positive * V, f kv.1 kv.2 = true) m !! k =
    m !! k ≫= λ v, if f k v then Some v else None.
Proof.
  rewrite map_lookup_filter. destruct (m !! k) as [v|]; simpl; [|done].
  unfold guard. case_match; destruct (f k v); naive_solver.
Qed.

Lemma Pos_le_total_order : TotalOrder Pos.le.
Proof.
  split; [split; [split|]|].
  - intros x. lia.
  - intros x y z. lia.
  - intros x y. lia.
  - intros x y. unfold strict.
    destruct (Pos.lt_total x y) as [?|[?|?]]; [left|right; left|right; right]; try split; lia.
Qed.

#[export] Instance model_slotmap_laws : SlotMapLaws model_slotmap.
Proof.
  split; simpl; intros; try done.
  - apply Pos_le_total_order.
  - apply slots_key_fresh.
  - rewrite lookup_insert. repeat case_decide; congruence.
  - rewrite lookup_delete. repeat case_decide; congruence.
  - apply elem_of_map_to_list.
  - apply NoDup_fst_map_to_list.
  - by rewrite length_map_to_list.
  - apply filter_entries_lookup.
  - inv_ok. rename select (map_entries f _ = Ok _) into Hm.
    eapply map_entries_lookup with (k:=k) in Hm; [|apply NoDup_fst_map_to_list].
    by rewrite list_to_map_to_list in Hm.
  - destruct (map_entries f (map_to_list (slots_map m))) as [m'|e'] eqn:Hm; simplify_eq/=.
    apply map_entries_Err in Hm as (k & v & Hkv & He). exists k, v. by rewrite <-elem_of_map_to_list.
  - apply elem_of_map_to_list.
  - apply NoDup_fst_map_to_list.
  - apply filter_entries_lookup.
  - rewrite lookup_insert. repeat case_decide; congruence.
Qed.

(** ** Connections and hashes *)

(** The first message with the tag leaves the list. *)
Fixpoint take_tagged {B} (tag : Z) (l : list (B * Z)) : option ((B * Z) * list (B * Z)) :=
  match l with
  | [] => None
  | x :: l =>
      if decide (tag = x.2) then Some (x, l)
      else match take_tagged tag l with Some (y, l') => Some (y, x :: l') | None => None end
  end.

#[export] Instance model_mpi : MPISig := {|
  connection B := list (B * Z);
  conn_new B := [];
  send_with_tag B b tag c := c ++ [(b, tag)];
  buffered_send_with_tag B b tag c := c ++ [(b, tag)];
  matched_probe_with_tag B := take_tagged;
  immediate_matched_probe_with_tag B := take_tagged;
|}.

Lemma take_tagged_app {B} tag tag' (b : B) l :
  take_tagged tag (l ++ [(b, tag')]) =
    match take_tagged tag l with
    | Some (m, l') => Some (m, l' ++ [(b, tag')])
    | None => if decide (tag = tag') then Some ((b, tag), l) else None
    end.
Proof.
  induction l as [|x l IH]; simpl.
  - destruct (decide (tag = tag')) as [->|]; done.
  - destruct (decide (tag = x.2)); [done|]. rewrite IH.
    destruct (take_tagged tag l) as [[y l']|]; [done|]. by destruct (decide (tag = tag')).
Qed.

#[export] Instance model_mpi_laws : MPILaws model_mpi.
Proof. split; [done|done|..]; intros B b tag tag' c; apply take_tagged_app. Qed.

#[export] Instance model_hash : HashIdSig := {|
  RelRcHash := Z;
  RelRcHash_le := Z.le;
  hash_into := id;
  hash_from := id;
|}.

#[export] Instance model_hash_laws : HashIdLaws model_hash.
Proof. by split. Qed.
