(* ===== verification/Demo.v ===== *)
(** * Example programs

    Worlds reached by concrete client programs over the concrete slot map, on
    which the properties are instantiated. *)

From S2P Require Import Prelude Slotmap Store StoreFacts Rc Registry Drop DropFacts RegistryOps Edge Node NodeFacts RegistryFacts Ancestors History HistoryFacts Adjacency Insertion InsertAncestors Client ClientFacts Model.

Definition is_some {B} (o : option B) : bool := if o then true else false.

Definition is_ok {B} (r : result B) : bool := match r with Ok _ => true | Err _ => false end.

Lemma is_some_true {B} (o : option B) : is_some o = true → ∃ x, o = Some x.
Proof. destruct o; [eauto|done]. Qed.

Section programs.
Context {N E : Type}.
Implicit Types cs : list (call N E).

(** The world a program ends in. *)
Definition after cs : world N E := default empty_world (run cs empty_world).
Definition runs cs : bool := is_some (run cs empty_world).

Lemma after_reachable cs : runs cs = true → reachable (after cs).
Proof.
  unfold runs, is_some, after. destruct (run cs empty_world) as [w|] eqn:Hr; [|done]. intros _.
  by eapply run_reachable; [constructor|].
Qed.

Lemma after_ok cs : runs cs = true → world_ok (after cs).
Proof. intros Hr. by apply reachable_ok, after_reachable. Qed.

(** Its references, in any order. *)
Lemma after_wf cs ow :
  runs cs = true → release_all ow (w_refs (after cs)) = Some [] → wf (w_store (after cs)) ow.
Proof.
  intros Hr Hp%release_all_perm. pose proof (wok_store _ (after_ok cs Hr)) as Hw.
  by rewrite Hp, app_nil_r in Hw.
Qed.

Lemma after_graph cs i hg :
  runs cs = true → w_graphs (after cs) !! i = Some hg → hg_ok (w_store (after cs)) hg.
Proof. intros Hr Hi. apply (after_ok cs Hr). by eapply list_elem_of_lookup_2. Qed.
End programs.

Local Open Scope positive_scope.
Local Notation "'val' n" := (n%nat) (at level 9, only parsing).

(** Three nodes: 2 is a child of 1, and 3 a child of both.  All are registered in
    the registry 1 and held by a history graph; the client keeps handles. *)
Definition triangle_calls : list (call nat nat) :=
  [ CallNew (val 10);
    CallClone 1; CallWithParents (val 20) [(1, val 5)];
    CallClone 1; CallClone 2; CallWithParents (val 30) [(1, val 6); (2, val 7)];
    CallDowngrade 3;
    CallNewRegistry; CallCloneRegistry 1; CallNewGraph 1;
    CallClone 3; CallInsertAncestors 0 3 ].
Definition triangle : world nat nat := after triangle_calls.
Definition triangle_graph : HistoryGraph :=
  default (mkHistoryGraph sec_new 1) (w_graphs triangle !! 0%nat).
Definition triangle_handles : list ref :=
  [RegStrong 1; NodeWeak 3; NodeStrong 3; NodeStrong 2; NodeStrong 1].

Lemma triangle_runs : runs triangle_calls = true.
Proof. vm_compute. reflexivity. Qed.

Lemma triangle_wf ow :
  release_all ow (w_refs triangle) = Some [] → wf (w_store triangle) ow.
Proof. apply after_wf, triangle_runs. Qed.

Lemma triangle_graph_ok : hg_ok (w_store triangle) triangle_graph.
Proof. apply (after_graph _ 0 _ triangle_runs). vm_compute. reflexivity. Qed.

Lemma triangle_graph_wf : wf (w_store triangle) (hg_owners triangle_graph ++ triangle_handles).
Proof. apply triangle_wf. vm_compute. reflexivity. Qed.

(** The same nodes without a graph; the client holds only node 3, a weak
    reference to node 2 and the registry 1, in which 2 is registered. *)
Definition chain_calls : list (call nat nat) :=
  [ CallNew (val 10);
    CallWithParents (val 20) [(1, val 5)];
    CallNewRegistry; CallRegister 2 1; CallDowngrade 2;
    CallWithParents (val 30) [(2, val 7)] ].
Definition chain : world nat nat := after chain_calls.

Lemma chain_runs : runs chain_calls = true.
Proof. vm_compute. reflexivity. Qed.

Lemma chain_wf ow : release_all ow (w_refs chain) = Some [] → wf (w_store chain) ow.
Proof. apply after_wf, chain_runs. Qed.
