(* ===== verification/Tests.v ===== *)
(** * The unit tests of the repository, run in the model

    Each test is a program over the definitions of the development: it starts
    with an empty store, checks what the test asserts, and drops its locals in
    reverse order at the end.  That the programs evaluate as the tests demand
    checks the definitions against the expectations of the authors; that they end
    in an empty store, that nothing is leaked.  Snapshots are compared by content:
    which id has which value and parents. *)

From stdpp Require Import strings.
From S2P Require Import Prelude Slotmap Resolver Store StoreFacts Rc Registry Drop DropFacts RegistryOps Edge Node History Serialization Messages Detached Attach Model.

Local Open Scope string_scope.

Definition assert_eq {B} `{EqDecision B} (x y : B) : result unit :=
  assert_that "assertion `left == right` failed" (bool_decide (x = y)).
Definition assert (b : bool) : result unit := assert_that "assertion failed" b.
Definition unwrap {B} : option B → result B :=
  expect "called `Option::unwrap()` on a `None` value".

Section helpers.
Context {N E : Type}.
Implicit Types (st : store N E) (p g : addr) (R : Registry).

(** [node.value()] and what is derived from the parents. *)
Definition value_of st p : result N := d ← RelRc_deref p st; Ok (InnerData_value d).
Definition parents_of st p : result (list addr) := d ← RelRc_deref p st; Ok (InnerData_all_parents d).
Definition parent_values st p : result (list N) := ps ← parents_of st p; traverse (value_of st) ps.

(** [with_parents] with clones of the parents. *)
Definition child_of (value : N) (parents : list (addr * E)) st : result (addr * store N E) :=
  st1 ← foldM (λ s pe, RelRc_clone pe.1 s) st parents;
  RelRc_with_parents value parents st1.

Definition drop_registry R st : result (store N E) := drop_refs (registry_refs R) st.

(** [Rc::try_unwrap(registry).unwrap().into_inner()] *)
Definition try_unwrap g st : result (Registry * store N E) :=
  b ← expect "dangling" (st_regs st !! g);
  R ← deref (rc_val b);
  _ ← assert_that "called `Result::unwrap()` on an `Err` value" (bool_decide (rc_strong b = 1));
  st1 ← put_registry g Registry_new st;
  st2 ← drop_refs [RegStrong g] st1;
  Ok (R, st2).

(** [all_children().len()]: the children are temporaries. *)
Definition n_children p st : result (nat * store N E) :=
  r ← InnerData_all_children p st;
  st' ← drop_refs (NodeStrong <$> r.1) r.2;
  Ok (length r.1, st').
End helpers.

(** ** Snapshots *)

(** The nodes and the registry of a serialised graph, by id. *)
Definition ser_entries {N E} (ser : SerializedHistoryGraph N E) :
    list NodeId * gmap positive (N * list (NodeId * E)) :=
  (shg_nodes ser, (λ s, (sid_value s, sid_incoming s)) <$> slots_map (sr_nodes (shg_registry ser))).

Definition relrc_entries {N E} (ser : SerializedRelRc N E) :
    NodeId * (list NodeId * gmap positive (N * list (NodeId * E))) :=
  (srr_id ser, ser_entries (srr_ancestors_graph ser)).

(** The content of a snapshot: the ids of the nodes, and for every id the value and
    the incoming edges. *)
Definition snapshot {N E} (nodes : list nat) (registry : list (nat * N * list (nat * E))) :
    list positive * gmap positive (N * list (positive * E)) :=
  (Pos.of_nat <$> nodes,
   list_to_map ((λ x : nat * N * list (nat * E),
     (Pos.of_nat x.1.1, (x.1.2, (λ ie : nat * E, (Pos.of_nat ie.1, ie.2)) <$> x.2))) <$> registry)).

Definition snapshot_history_graph_serialization :=
  snapshot [1; 2; 3; 4; 5; 6]
    [(1, (1, 10), []); (2, (1, 20), [(1, 10)]); (3, (2, 30), [(2, 20)]);
     (4, (1, 15), []); (5, (1, 25), [(4, 15)]); (6, (3, 35), [(5, 25)])].
Definition snapshot_relrc_serialization : positive * (list positive * gmap positive (nat * list (positive * unit))) :=
  (1%positive, snapshot [1] [(1, 42, [])]).
Definition snapshot_relrc_with_multiple_parents_serialization :=
  (4%positive, snapshot [1; 2; 4]
    [(1, "parent1", []); (2, "parent2", []);
     (4, "child", [(1, "edge_from_parent1"); (2, "edge_from_parent2")])]).
Definition snapshot_relrc_with_parents_serialization :=
  (1%positive, snapshot [1; 2; 3]
    [(1, "grandchild", [(2, "edge_to_grandchild")]); (2, "child", [(3, "edge_to_child")]);
     (3, "parent", [])]).
Definition snapshot_two_parents_two_children :=
  snapshot [1; 2]
    [(1, "child1", [(3, "edge1")]); (2, "child2", [(3, "edge2"); (4, "edge3")]);
     (3, "root1", []); (4, "root2", [])].

(** [insta::assert_yaml_snapshot!], on the content. *)
Definition assert_yaml_snapshot {B} `{EqDecision B} (found stored : B) : result unit :=
  assert_that "snapshot assertion failed" (bool_decide (found = stored)).

(** ** [registry.rs] *)

Definition test_register_and_get : result (store string unit) :=
  let registry := Registry_new in
  let node := RelRc_new "test" empty_store in
  a ← Registry_add_node registry node.1 node.2;
  let id := a.1.1 in let registry := a.1.2 in
  g ← Registry_get registry id a.2;
  retrieved ← unwrap g.1;
  _ ← assert (RelRc_ptr_eq node.1 retrieved);
  st ← drop_refs [NodeStrong retrieved; NodeStrong node.1] g.2;
  drop_registry registry st.

Definition test_duplicate_registration : result (store string unit) :=
  let node := RelRc_new "test" empty_store in
  a ← Registry_add_node Registry_new node.1 node.2;
  b ← Registry_add_node a.1.2 node.1 a.2;
  _ ← assert_eq a.1.1 b.1.1;
  st ← drop_refs [NodeStrong node.1] b.2;
  drop_registry b.1.2 st.

Definition test_get_id : result (store string unit) :=
  let node := RelRc_new "test" empty_store in
  _ ← assert_eq (Registry_get_id Registry_new node.1) None;
  a ← Registry_add_node Registry_new node.1 node.2;
  _ ← assert_eq (Registry_get_id a.1.2 node.1) (Some a.1.1);
  st ← drop_refs [NodeStrong node.1] a.2;
  drop_registry a.1.2 st.

(** ** [node.rs] *)

Definition test_cleanup_dead_references : result (store string unit) :=
  let registry := reg_alloc Registry_new empty_store in
  let node := RelRc_new "test" registry.2 in
  r ← RelRc_try_register_in node.1 registry.1 node.2;
  id ← unwrap r.1;
  R ← deref (registry_at r.2 registry.1);
  _ ← assert_eq (Registry_len R) 1;
  st1 ← drop_refs [NodeStrong node.1] r.2;
  u ← try_unwrap registry.1 st1;
  g ← Registry_get u.1 id u.2;
  _ ← assert_eq g.1 None;
  c ← Registry_contains_id u.1 id g.2;
  _ ← assert (negb c.1);
  _ ← assert_eq (Registry_len u.1) 0;
  drop_registry u.1 c.2.

(** ** [history.rs]

    The nodes are moved into the graph; the order of drops at the end is the
    reverse of the order of the declarations. *)

Definition test_history_graph : result (store (nat * nat) nat) :=
  let grandparent := RelRc_new (1, 10) empty_store in
  parent ← child_of (1, 20) [(grandparent.1, 10)] grandparent.2;
  child1 ← child_of (2, 30) [(parent.1, 20)] parent.2;
  child2 ← child_of (3, 35) [(parent.1, 25)] child1.2;
  d ← RelRc_deref child2.1 child2.2;
  e ← unwrap (InnerData_incoming d 0);
  _ ← assert_eq (InnerEdgeData_value e) 25;
  let graph := HistoryGraph_default child2.2 in
  i1 ← HistoryGraph_insert_ancestors graph.1 child1.1 graph.2;
  let child1_id := i1.1.1 in
  _ ← assert_eq (length (HistoryGraph_all_node_ids i1.1.2)) 3;
  s ← HistoryGraph_source i1.1.2 (mkEdgeId child1_id 0) i1.2;
  parent_id ← unwrap s;
  s ← HistoryGraph_source i1.1.2 (mkEdgeId parent_id 0) i1.2;
  grandparent_id ← unwrap s;
  o ← HistoryGraph_outgoing_edges i1.1.2 grandparent_id i1.2;
  _ ← assert_eq (eid_target <$> o.1) [parent_id];
  o ← HistoryGraph_outgoing_edges i1.1.2 parent_id o.2;
  _ ← assert_eq (eid_target <$> o.1) [child1_id];
  i2 ← HistoryGraph_insert_ancestors i1.1.2 child2.1 o.2;
  let child2_id := i2.1.1 in
  let node_ids := btree_set (HistoryGraph_all_node_ids i2.1.2) in
  _ ← assert_eq (length node_ids) 4;
  _ ← assert_eq node_ids [grandparent_id; parent_id; child1_id; child2_id];
  st ← HistoryGraph_drop i2.1.2 i2.2;
  drop_refs [NodeStrong parent.1; NodeStrong grandparent.1] st.

(** The test up to the snapshot, and the rest. *)
Definition history_graph_serialized :
    result (HistoryGraph * SerializedHistoryGraph (nat * nat) nat * list ref * store (nat * nat) nat) :=
  let grandparent1 := RelRc_new (1, 10) empty_store in
  parent1 ← child_of (1, 20) [(grandparent1.1, 10)] grandparent1.2;
  child1 ← child_of (2, 30) [(parent1.1, 20)] parent1.2;
  let grandparent2 := RelRc_new (1, 15) child1.2 in
  parent2 ← child_of (1, 25) [(grandparent2.1, 15)] grandparent2.2;
  child2 ← child_of (3, 35) [(parent2.1, 25)] parent2.2;
  d ← RelRc_deref child2.1 child2.2;
  e ← unwrap (InnerData_incoming d 0);
  _ ← assert_eq (InnerEdgeData_value e) 25;
  let graph := HistoryGraph_default child2.2 in
  i1 ← HistoryGraph_insert_ancestors graph.1 child1.1 graph.2;
  i2 ← HistoryGraph_insert_ancestors i1.1.2 child2.1 i1.2;
  s ← HistoryGraph_to_serialized i2.1.2 i2.2;
  Ok (i2.1.2, s.1, [NodeStrong parent2.1; NodeStrong grandparent2.1; NodeStrong parent1.1;
    NodeStrong grandparent1.1], s.2).

Definition test_history_graph_serialization : result (store (nat * nat) nat) :=
  s ← history_graph_serialized;
  let graph := s.1.1.1 in let serialized := s.1.1.2 in
  _ ← assert_yaml_snapshot (ser_entries serialized) snapshot_history_graph_serialization;
  h ← HistoryGraph_from_serialized serialized s.2;
  _ ← assert_eq (btree_set (HistoryGraph_all_node_ids graph)) (btree_set (HistoryGraph_all_node_ids h.1));
  st1 ← HistoryGraph_drop h.1 h.2;
  st2 ← HistoryGraph_drop graph st1;
  drop_refs s.1.2 st2.

(** ** [serialization.rs]

    What the tests serialise, and what they check after the round trip. *)

Definition relrc_serialized : result (SerializedRelRc nat unit * list ref * store nat unit) :=
  let node := RelRc_new 42 empty_store in
  let g := reg_alloc Registry_new node.2 in
  s ← RelRc_to_serialized node.1 g.1 g.2;
  Ok (s.1, [NodeStrong node.1], s.2).

Definition test_relrc_serialization : result (store nat unit) :=
  s ← relrc_serialized;
  _ ← assert_yaml_snapshot (relrc_entries s.1.1) snapshot_relrc_serialization;
  r ← RelRc_from_serialized s.1.1 s.2;
  v ← value_of r.2 r.1;
  _ ← assert_eq v 42;
  ps ← parents_of r.2 r.1;
  _ ← assert_eq (length ps) 0;
  l ← RelRc_all_ancestors r.1 r.2;
  _ ← assert_eq (length l) 1;
  drop_refs (NodeStrong r.1 :: s.1.2) r.2.

Definition relrc_with_parents_serialized :
    result (SerializedRelRc string string * list ref * store string string) :=
  let parent := RelRc_new "parent" empty_store in
  child ← RelRc_with_parents "child" [(parent.1, "edge_to_child")] parent.2;
  grandchild ← RelRc_with_parents "grandchild" [(child.1, "edge_to_grandchild")] child.2;
  let g := reg_alloc Registry_new grandchild.2 in
  s ← RelRc_to_serialized grandchild.1 g.1 g.2;
  Ok (s.1, [NodeStrong grandchild.1], s.2).

(** The part after the snapshot. *)
Definition relrc_with_parents_checks (s : SerializedRelRc string string * list ref * store string string) :
    result (store string string) :=
  r ← RelRc_from_serialized s.1.1 s.2;
  v ← value_of r.2 r.1;
  _ ← assert_eq v "grandchild";
  vs ← parent_values r.2 r.1;
  _ ← assert_eq vs ["child"];
  l ← RelRc_all_ancestors r.1 r.2;
  _ ← assert_eq (length l) 3;
  drop_refs (NodeStrong r.1 :: s.1.2) r.2.

Definition test_relrc_with_parents_serialization : result (store string string) :=
  s ← relrc_with_parents_serialized;
  _ ← assert_yaml_snapshot (relrc_entries s.1.1) snapshot_relrc_with_parents_serialization;
  relrc_with_parents_checks s.

Definition relrc_with_multiple_parents_serialized :
    result (SerializedRelRc string string * list ref * store string string) :=
  let parent1 := RelRc_new "parent1" empty_store in
  let parent2 := RelRc_new "parent2" parent1.2 in
  child ← child_of "child" [(parent1.1, "edge_from_parent1"); (parent2.1, "edge_from_parent2")] parent2.2;
  sibling ← child_of "sibling" [(parent1.1, "edge_from_parent1")] child.2;
  registry ← Registry_from_iter [parent1.1; parent2.1; sibling.1; child.1] sibling.2;
  let g := reg_alloc registry.1 registry.2 in
  s ← RelRc_to_serialized child.1 g.1 g.2;
  Ok (s.1, [NodeStrong sibling.1; NodeStrong child.1; NodeStrong parent2.1; NodeStrong parent1.1], s.2).

Definition test_relrc_with_multiple_parents_serialization : result (store string string) :=
  s ← relrc_with_multiple_parents_serialized;
  _ ← assert_eq (length (shg_nodes (srr_ancestors_graph s.1.1))) 3;
  _ ← assert_yaml_snapshot (relrc_entries s.1.1) snapshot_relrc_with_multiple_parents_serialization;
  r ← RelRc_from_serialized s.1.1 s.2;
  v ← value_of r.2 r.1;
  _ ← assert_eq v "child";
  vs ← parent_values r.2 r.1;
  _ ← assert_eq vs ["parent1"; "parent2"];
  n ← n_children r.1 r.2;
  _ ← assert_eq n.1 0;
  l ← RelRc_all_ancestors r.1 n.2;
  _ ← assert_eq (length l) 3;
  drop_refs (NodeStrong r.1 :: s.1.2) n.2.

Definition two_parents_two_children_serialized :
    result (SerializedHistoryGraph string string * (addr * addr) * HistoryGraph * store string string) :=
  let root1 := RelRc_new "root1" empty_store in
  let root2 := RelRc_new "root2" root1.2 in
  child1 ← child_of "child1" [(root1.1, "edge1")] root2.2;
  child2 ← child_of "child2" [(root1.1, "edge2"); (root2.1, "edge3")] child1.2;
  st1 ← RelRc_clone child1.1 child2.2;
  st2 ← RelRc_clone child2.1 st1;
  graph ← HistoryGraph_from_nodes [child1.1; child2.1] st2;
  c ← HistoryGraph_clone graph.1 graph.2;
  s ← SerializedHistoryGraph_from_HistoryGraph c.1 c.2;
  Ok (s.1, (child1.1, child2.1), graph.1, s.2).

(** The test of the same name in [serialization.rs]: the ids that it expects are
    those that the new registry has for the nodes of the old graph. *)
Definition test_history_graph_serialization_2 : result (store string string) :=
  s ← two_parents_two_children_serialized;
  let child1 := s.1.1.2.1 in let child2 := s.1.1.2.2 in
  _ ← assert_yaml_snapshot (ser_entries s.1.1.1) snapshot_two_parents_two_children;
  deser ← HistoryGraph_from_serialized s.1.1.1 s.2;
  R ← deref (registry_at deser.2 (HistoryGraph_registry deser.1));
  id1 ← unwrap (Registry_get_id R child1);
  id2 ← unwrap (Registry_get_id R child2);
  _ ← assert_eq (btree_set (HistoryGraph_all_node_ids deser.1)) (btree_set [id1; id2]);
  _ ← assert_eq (Registry_len R) 4;
  st1 ← RelRc_clone child1 deser.2;
  graph ← HistoryGraph_from_nodes [child1] st1;
  c ← HistoryGraph_clone graph.1 graph.2;
  s ← SerializedHistoryGraph_from_HistoryGraph c.1 c.2;
  deser ← HistoryGraph_from_serialized s.1 s.2;
  R ← deref (registry_at deser.2 (HistoryGraph_registry deser.1));
  id1 ← unwrap (Registry_get_id R child1);
  _ ← assert_eq (btree_set (HistoryGraph_all_node_ids deser.1)) (btree_set [id1]);
  _ ← assert_eq (Registry_len R) 2;
  Ok deser.2.

(** ** [detached.rs]

    The values differ, so the value serves as the hash. *)

Definition string_hash (st : store string string) (p : addr) : Z :=
  match node st p with Some d => Z.pos (encode (nd_value d)) | None => 0%Z end.

#[local] Instance DetachedInnerData_eq_dec {N E} {H : HashIdSig} `{EqDecision N, EqDecision E} :
  EqDecision (DetachedInnerData N E).
Proof. solve_decision. Defined.
#[local] Instance Detached_eq_dec {N E} {H : HashIdSig} `{EqDecision N, EqDecision E} :
  EqDecision (Detached N E).
Proof. solve_decision. Defined.

Definition test_detach_and_attach_diamond : result (store string string) :=
  let hash_id := string_hash in
  let root1 := RelRc_new "A" empty_store in
  left1 ← child_of "B" [(root1.1, "left")] root1.2;
  right1 ← child_of "C" [(root1.1, "right")] left1.2;
  grandchild1 ← child_of "D" [(left1.1, "left"); (right1.1, "right")] right1.2;
  let root2 := RelRc_new "A" grandchild1.2 in
  left2 ← child_of "B" [(root2.1, "left")] root2.2;
  let detach_from : gset Z := {[hash_id left2.2 root1.1; hash_id left2.2 left1.1]} in
  dt ← RelRc_detach (H:=model_hash) hash_id grandchild1.1 detach_from left2.2;
  let detached := dt.1 in
  _ ← assert_eq (size (dt_all_data detached)) 2;
  st1 ← drop_refs [NodeStrong grandchild1.1] dt.2;
  n ← n_children left1.1 st1;
  _ ← assert_eq n.1 0;
  n ← n_children right1.1 n.2;
  _ ← assert_eq n.1 0;
  st2 ← RelRc_clone root2.1 n.2;
  st3 ← RelRc_clone left2.1 st2;
  grandchild2 ← RelRc_attach (H:=model_hash) hash_id detached [root2.1; left2.1] st3;
  v ← value_of grandchild2.2 grandchild2.1;
  _ ← assert_eq v "D";
  vs ← parent_values grandchild2.2 grandchild2.1;
  _ ← assert_eq vs ["B"; "C"];
  n ← n_children root2.1 grandchild2.2;
  _ ← assert_eq n.1 2;
  let detach_from2 : gset Z := {[hash_id n.2 root2.1; hash_id n.2 left2.1]} in
  dt2 ← RelRc_detach (H:=model_hash) hash_id grandchild2.1 detach_from2 n.2;
  _ ← assert_eq detached dt2.1;
  drop_refs [NodeStrong grandchild2.1; NodeStrong left2.1; NodeStrong root2.1;
    NodeStrong right1.1; NodeStrong left1.1; NodeStrong root1.1] dt2.2.

(** ** [resolver.rs] *)

Definition test_resolver_equivalence : result unit :=
  let resolver := mkTestResolver in
  _ ← match try_merge_mapping resolver (1, 2) [] (1, 3) [] with
      | inl m => assert_eq m 3
      | inr _ => Err (Panic "assertion failed: result.is_ok()")
      end;
  match try_merge_mapping resolver (1, 2) [] (2, 2) [] with
  | inl _ => Err (Panic "assertion failed: result.is_err()")
  | inr _ => Ok tt
  end.

Definition test_resolver_edge_update : result unit :=
  assert_eq (move_edge_source mkTestResolver (5 : MergeMapping) 10) 5.

(** ** Results *)

(** The unit tests of the repository pass in the model, two excepted: every
    assertion holds, those of the snapshots included, and no node or registry is
    left when the locals of the test have been dropped. *)
Lemma repository_tests_pass :
  (test_register_and_get = Ok empty_store ∧
   test_duplicate_registration = Ok empty_store ∧
   test_get_id = Ok empty_store) ∧
  test_cleanup_dead_references = Ok empty_store ∧
  (test_history_graph = Ok empty_store ∧
   test_history_graph_serialization = Ok empty_store) ∧
  (test_relrc_serialization = Ok empty_store ∧
   test_relrc_with_multiple_parents_serialization = Ok empty_store) ∧
  test_detach_and_attach_diamond = Ok empty_store ∧
  (test_resolver_equivalence = Ok tt ∧ test_resolver_edge_update = Ok tt).
Proof. repeat split; vm_compute; reflexivity. Qed.

(** The test of graph serialisation in [serialization.rs] fails: the nodes of the
    deserialised graph are new allocations, and the new registry has no id for the
    old ones, whose ids the test asks for. *)
Lemma history_graph_test_panics :
  test_history_graph_serialization_2 = Err (Panic "called `Option::unwrap()` on a `None` value").
Proof. vm_compute; reflexivity. Qed.

(** The test of a chain fails at its snapshot, which numbers the nodes from the
    grandchild up, while [insert_ancestors] enters parents before their children.
    What the test checks after the snapshot holds. *)
Lemma parents_snapshot_stale :
  test_relrc_with_parents_serialization = Err (Panic "snapshot assertion failed") ∧
  (s ← relrc_with_parents_serialized; Ok (relrc_entries s.1.1)) =
    Ok (3%positive, snapshot [1; 2; 3]
      [(1, "parent", []); (2, "child", [(1, "edge_to_child")]);
       (3, "grandchild", [(2, "edge_to_grandchild")])]) ∧
  (s ← relrc_with_parents_serialized; relrc_with_parents_checks s) = Ok empty_store.
Proof. repeat split; vm_compute; reflexivity. Qed.
