(* ===== verification/RefinementProps.v ===== *)
(** * Properties: the specification is implemented *)

From S2P Require Import Prelude Slotmap Store StoreFacts Drop Edge Node History GraphDeserial RoundTrip Client ClientFacts Spec Abstraction Refinement Simulation Guarded GuardedClient Programs Serialization Model Demo.

Section refinement_props.
Context {N E : Type} {S : SlotMapSig} {SLaws : SlotMapLaws S} {A : Allocator}.
Implicit Types (w : world N E) (c : call N E).

(** C2: Every call does what the specification says: from a world that a program
    reaches without taking ids from the registries of its graphs, and also when
    the call itself does that,
    what the call returns and the world it leaves behind, seen without reference
    counts, child pointers and slot maps, are an output and a successor state
    that the specification allows for that call.  Nodes and registries that the
    call leaves without holder are gone in the specification too.  A call
    fails only where the specification lets it. *)
Theorem calls_implement_spec w c res :
  reachable w → exec c w = Some res →
  match res with
  | Ok (o, w') => spec_step c (abs w) o (abs w')
  | Err _ => spec_fails c (abs w)
  end.
Proof. intros Hr Hc. by apply (exec_refines c w (reachable_ok w Hr)). Qed.

(** C3: Trace refinement: the calls of a whole program, with everything they
    return, are an execution of the specification from its empty state. *)
Theorem programs_implement_spec cs t w :
  run_trace cs (empty_world (N:=N) (E:=E)) = Some (t, w) → spec_trace spec_start t (abs w).
Proof. rewrite <-abs_empty. apply run_trace_refines, empty_world_ok. Qed.

(** C4: Guards do no harm.  A client may keep guards on shared registries, and on the
    outgoing edges of nodes, over any number of calls, and use a registry through a
    guard on it.  The calls of such a program, those through guards
    included, with what they return, are an execution of the specification; every guard is on
    a registry or a node that is alive; and the next call leaves the guards alone
    and implements the specification, fails where the specification lets it, or
    panics with one of the two borrow errors of [RefCell]. *)
Theorem guarded_programs_implement_spec acts t w :
  run_actions acts (empty_world (N:=N) (E:=E)) = Some (t, w) →
  spec_trace spec_start t (abs w) ∧
  (∀ x, flag (guards w) x ≠ 0%Z →
     match x with
     | RegistryCell g => is_Some (registry_at (w_store w) g)
     | OutgoingCell p | RegisterCell p => is_Some (node (w_store w) p)
     end) ∧
  ∀ c res, exec c w = Some res →
    match res with
    | Ok (o, w') => spec_step c (abs w) o (abs w') ∧ guards w' = guards w
    | Err e => borrow_error e ∨ spec_fails c (abs w)
    end.
Proof.
  intros Hrun. rewrite <-abs_empty.
  destruct (run_actions_refines _ _ _ _ empty_guarded_ok Hrun) as [Hok Htr]. split_and!; [done| |].
  - intros x. by apply guard_live.
  - intros c res Hc. pose proof (guarded_call_refines w c Hok res Hc) as Hs.
    destruct res as [[o w']|e]; [|done]. destruct Hs as (? & ? & _). done.
Qed.

(** C29: [RelRc::to_serialized], [RelRc::from_serialized] and
    [HistoryGraph::from_nodes] do what sequences of calls do, so they implement
    what the specification says of these: a node is serialised by making a graph,
    inserting the history of the node, writing the graph down and dropping it,
    which leaves no trace but ids and owners, and it panics when one of these calls
    does not return.  If the graph in the input is well formed and lists the id of
    the node, the node is deserialised by reading the graph back, cloning the node
    and dropping the graph; otherwise deserialising panics.  A graph is made from
    nodes that the client holds by inserting them, which always returns. *)
Theorem derived_operations_implement_spec w :
  reachable w →
  (∀ p g hs, NodeStrong p ∈ w_handles w → release (RegStrong g) (w_handles w) = Some hs →
     match RelRc_to_serialized p g (w_store w) with
     | Ok (ser, st') =>
         spec_trace (abs w) (zip (to_serialized_calls p g) (to_serialized_outputs ser))
           (abs (mkWorld st' hs (w_graphs w)))
     | Err e => (∃ msg, e = Panic msg) ∧ run_trace (to_serialized_calls p g) w = None
     end) ∧
  (∀ ser, let graph := srr_ancestors_graph ser in
     match RelRc_from_serialized ser (w_store w) with
     | Ok (p, st') =>
         ¬ malformed graph ∧ srr_id ser ∈ shg_nodes graph ∧
         spec_trace (abs w) (zip (from_serialized_calls ser) [OutUnit; OutNode (Some p); OutUnit])
           (abs (mkWorld st' (NodeStrong p :: w_handles w) (w_graphs w)))
     | Err e => (∃ msg, e = Panic msg) ∧ (malformed graph ∨ srr_id ser ∉ shg_nodes graph)
     end) ∧
  (∀ nodes hs, release_all (NodeStrong <$> nodes) (w_handles w) = Some hs →
     ∃ hg st' t, HistoryGraph_from_nodes nodes (w_store w) = Ok (hg, st') ∧
       t.*1 = from_nodes_calls nodes w ∧
       spec_trace (abs w) t (abs (mkWorld st' hs (hg :: w_graphs w)))).
Proof.
  intros Hok%reachable_ok. split_and!.
  - intros p g hs Hp Hg. pose proof (to_serialized_program w p g hs Hp Hg) as Hrun.
    pose proof (wok_store _ Hok) as Hw. destruct (owner_live _ _ p Hw) as [d Hd]; [by apply with_handles|].
    unfold w_refs in Hw. rewrite (release_perm _ _ _ Hg) in Hw.
    destruct (RelRc_to_serialized_outcome _ _ p g d Hw Hd) as [(ser & st' & Heq & _)|[msg Heq]];
      rewrite Heq in Hrun |- *; [by eapply run_trace_refines|by eauto].
  - intros ser graph. destruct (RelRc_from_serialized_outcome ser _ _ (wok_store _ Hok))
      as [(p & d & g & st' & Heq & _ & ? & ? & ? & _)|(msg & Heq & Hbad)]; rewrite Heq.
    + split_and!; [by intros [?|?]|done|]. apply from_serialized_program in Heq. by eapply run_trace_refines.
    + split; [by eexists|]. unfold malformed. destruct Hbad as [?|[?|?]]; auto.
  - intros nodes hs Hhs. destruct (from_nodes_returns nodes w hs Hok Hhs) as (hg & st' & Heq).
    pose proof (from_nodes_program nodes w hs Hhs) as Hrun. rewrite Heq in Hrun.
    destruct (run_has_trace _ _ _ Hrun) as (t & Ht & Hcs). exists hg, st', t.
    split_and!; [done..|]. by eapply run_trace_refines.
Qed.
End refinement_props.

(** ** Instances *)

Local Open Scope positive_scope.

(** The last handle of the chain is dropped: the specification says that all
    three nodes go. *)
Lemma calls_implement_spec_witness :
  ∃ o w', exec (CallDrop (NodeStrong 3)) chain = Some (Ok (o, w')) ∧
    spec_step (CallDrop (NodeStrong 3)) (abs chain) o (abs w').
Proof.
  assert (∃ ow, exec (CallDrop (NodeStrong 3)) chain = Some (Ok ow)) as [[o w'] He].
  { pose (x := match exec (CallDrop (NodeStrong 3)) chain with Some (Ok ow) => Some ow | _ => None end).
    destruct (is_some_true x) as [ow Hx]; [vm_compute; reflexivity|]. exists ow. revert Hx. unfold x.
    destruct (exec (CallDrop (NodeStrong 3)) chain) as [[?|?]|]; congruence. }
  exists o, w'. split; [exact He|].
  exact (calls_implement_spec chain _ (Ok (o, w')) (after_reachable _ chain_runs) He).
Defined.

Lemma programs_implement_spec_witness :
  ∃ t w, run_trace triangle_calls empty_world = Some (t, w) ∧ length t = 12%nat ∧
    spec_trace spec_start t (abs w).
Proof.
  destruct (is_some_true (run_trace triangle_calls empty_world)) as [[t w] Ht]; [vm_compute; reflexivity|].
  exists t, w. split; [exact Ht|]. split.
  - assert (length <$> (fst <$> run_trace triangle_calls empty_world) = Some 12%nat) as Hl
      by (vm_compute; reflexivity).
    rewrite Ht in Hl. simpl in Hl. congruence.
  - exact (programs_implement_spec triangle_calls t w Ht).
Defined.

(** A node gets an id through a guard.  Another guard on the registry is kept while the
    node, registered, is cloned and the clone is dropped; dropping the last
    reference then panics. *)
Definition guarded_actions : list (action (N:=nat) (E:=nat)) :=
  [ ActCall (CallNew 10%nat); ActCall CallNewRegistry;
    ActBorrowMut (RegistryCell 1); ActThrough 1 (OpAddNode 1); ActThrough 1 OpLen;
    ActReleaseMut (RegistryCell 1); ActCall (CallRegister 1 1); ActBorrow (RegistryCell 1);
    ActCall (CallClone 1); ActCall (CallDrop (NodeStrong 1)); ActCall (CallGetId 1 1) ].

Lemma guarded_programs_implement_spec_witness :
  ∃ t w e, run_actions guarded_actions empty_world = Some (t, w) ∧ spec_trace spec_start t (abs w) ∧
    exec (CallDrop (NodeStrong 1)) w = Some (Err e) ∧ (borrow_error e ∨ spec_fails (CallDrop (NodeStrong 1)) (abs w)).
Proof.
  destruct (is_some_true (run_actions guarded_actions empty_world)) as [[t w] Hrun]; [vm_compute; reflexivity|].
  destruct (guarded_programs_implement_spec guarded_actions t w Hrun) as (Ht & _ & Hc).
  assert (option_map (λ tw, exec (CallDrop (NodeStrong 1)) tw.2) (run_actions guarded_actions empty_world)
    = Some (Some (Err (Panic "already borrowed: BorrowMutError")))) as He by (vm_compute; reflexivity).
  rewrite Hrun in He. cbn [option_map snd] in He. injection He as He.
  exists t, w, (Panic "already borrowed: BorrowMutError"). split; [exact Hrun|]. split; [exact Ht|].
  split; [exact He|]. exact (Hc (CallDrop (NodeStrong 1)) _ He).
Defined.

(** Node 2, a child of node 1, and an empty registry. *)
Definition couple_calls : list (call nat nat) :=
  [ CallNew 10%nat; CallWithParents 20%nat [(1, 5%nat)]; CallNewRegistry ].
Definition couple : world nat nat := after couple_calls.

Lemma couple_runs : runs couple_calls = true.
Proof. vm_compute. reflexivity. Qed.

(** Node 2 is serialised. *)
Lemma derived_operations_implement_spec_witness :
  ∃ ser st', RelRc_to_serialized 2 1 (w_store couple) = Ok (ser, st') ∧
    spec_trace (abs couple) (zip (to_serialized_calls 2 1) (to_serialized_outputs ser))
      (abs (mkWorld st' [NodeStrong 2] (w_graphs couple))).
Proof.
  destruct (derived_operations_implement_spec couple (after_reachable _ couple_runs)) as [Hser _].
  specialize (Hser 2 1 [NodeStrong 2]).
  destruct (RelRc_to_serialized 2 1 (w_store couple)) as [[ser st']|] eqn:Heq.
  - exists ser, st'. split; [reflexivity|]. apply Hser.
    + apply (proj1 (bool_decide_eq_true _)). vm_compute. reflexivity.
    + vm_compute. reflexivity.
  - exfalso. assert (is_ok (RelRc_to_serialized 2 1 (w_store couple)) = true) as Ho by (vm_compute; reflexivity).
    rewrite Heq in Ho. discriminate Ho.
Defined.
