(* ===== verification/OwnershipProps.v ===== *)
(** * Properties: ownership and memory *)

From S2P Require Import Prelude Slotmap Store StoreFacts Rc Registry Drop DropFacts RegistryOps Edge Node NodeFacts RegistryFacts Ancestors History HistoryFacts Adjacency Insertion InsertAncestors Client ClientFacts Model Demo.

Section ownership.
Context {N E : Type} {S : SlotMapSig} {SLaws : SlotMapLaws S} {A : Allocator}.
Implicit Types (st : store N E) (w : world N E) (p q : addr) (ow : list ref).

(** C1: In every state that a program of disciplined calls reaches, that is, one
    that takes no id from the registry of one of its graphs, every call that the
    client holds the handles for returns, a [Registry::remove] that is not
    disciplined included: no use of freed memory, no endless recursion, and no
    panic but these: [insert_ancestors] with its documented message,
    [HistoryGraph::to_serialized] with "valid node", and
    [HistoryGraph::from_serialized] on input with a cycle or with a parent or a
    node that has no data.  Afterwards counts and links are exact, the value and
    the parents of a node that stays alive are the same, and graphs agree with
    their registries if the call was disciplined. *)
Theorem client_calls_safe w c res :
  reachable w → exec c w = Some res →
  (∃ o w', res = Ok (o, w') ∧ wf (w_store w') (w_refs w') ∧
     (disciplined c w = true → ∀ hg, hg ∈ w_graphs w' → hg_ok (w_store w') hg) ∧
     ∀ q d d', node (w_store w) q = Some d → node (w_store w') q = Some d' →
       nd_value d' = nd_value d ∧ nd_incoming d' = nd_incoming d) ∨
  (∃ msg, res = Err (Panic msg) ∧ may_panic c msg).
Proof.
  intros Hr Hc. apply reachable_ok in Hr.
  destruct (exec_safe c w Hr res Hc) as [(o & w' & -> & Hw' & Hok' & Hf)|?]; [left|by right].
  exists o, w'. split_and!; [done..| |done]. intros Hd. by apply Hok'.
Qed.

(** C5: In every reachable state the reference counts are exact (each count is
    the number of references held by the client, the graphs, the nodes and the
    registries), a node lives exactly as long as its strong count is positive,
    parents and children agree on their edges, the graph is acyclic, both maps
    of every registry are inverse, and every history graph files its nodes
    under the ids of its registry. *)
Theorem reachable_invariant w : reachable w → world_ok w.
Proof. apply reachable_ok. Qed.

(** C6: Dropping any owned references terminates, and exactly the nodes that
    no remaining owner holds, directly or through a descendant, are gone; the
    others are unchanged. *)
Theorem drop_collects_garbage st l ow :
  wf st (l ++ ow) →
  ∃ st', drop_refs l st = Ok st' ∧ wf st' ow ∧
    ∀ q d, node st' q = Some d ↔ node st q = Some d ∧ held_by st ow q.
Proof.
  intros Hw. destruct (drop_refs_spec _ _ _ Hw) as (st' & Hst' & Hw' & _). exists st'.
  split_and!; [done..|]. intros q d. by eapply drop_refs_exact.
Qed.

(** A chain of edges to a live node, each of which exists before or after a call, is
    one of edges that exist after it. *)
Lemma kept_chain st st' ow p q :
  wf st' ow → frozen st st' → is_Some (node st' q) →
  rtc (λ x y, parent_of st x y ∨ parent_of st' x y) p q → ancestor_of st' p q.
Proof.
  intros Hw Hf Hq Hp. revert Hq. refine (rtc_ind_r (λ q, is_Some (node st' q) → ancestor_of st' p q) p _ _ q Hp).
  { intros _. apply rtc_refl. }
  clear q Hp. intros x y _ Hxy IH [d' Hd'].
  assert (parent_of st' x y) as Hx.
  { destruct Hxy as [(d & e & Hd & He)|?]; [|done]. destruct (Hf y d d' Hd Hd') as [_ Hi].
    exists d', e. by rewrite Hi. }
  apply (rtc_r _ x); [|done]. apply IH. by apply (ancestor_live _ _ x y d' Hw), rtc_once.
Qed.

(** C7: After every call, in every state that a program of disciplined calls
    reaches, a node is alive exactly when a reference that the client or a graph
    still has holds it or one of its descendants.  It does not matter whether
    the edges between them are counted as they were before the call or as they
    are after it: parents are kept alive by their children, and by nothing
    else, and a call frees nothing that is held through the edges that it
    finds. *)
Theorem live_iff_held w c o w' p :
  reachable w → exec c w = Some (Ok (o, w')) →
  (is_Some (node (w_store w') p) ↔ held_by (w_store w') (w_refs w') p) ∧
  (is_Some (node (w_store w') p) ↔ ∃ q, NodeStrong q ∈ w_refs w' ∧
     rtc (λ x y, parent_of (w_store w) x y ∨ parent_of (w_store w') x y) p q).
Proof.
  intros Hr%reachable_ok Hc.
  destruct (exec_safe c w Hr _ Hc) as [(o1 & w1 & [= <- <-] & Hw & _ & Hf)|(? & ? & _)]; [|done].
  assert (is_Some (node (w_store w') p) ↔ held_by (w_store w') (w_refs w') p) as Hiff.
  { split; [intros [d Hd]; by eapply live_held|]. intros Hh. by destruct (held_live _ _ _ Hw Hh) as [d ->]. }
  split; [done|]. rewrite Hiff. split; intros (q & Hq & Hpq); exists q; split; try done.
  - eapply rtc_subrel; [|exact Hpq]. by right.
  - eapply kept_chain; [done..| |exact Hpq]. by eapply owner_live.
Qed.

(** C8: Nothing leaks: when a program has dropped every handle and graph, the
    store is empty, cells of dead nodes and registries included. *)
Theorem no_leaks w : reachable w → w_refs w = [] → w_store w = empty_store.
Proof.
  intros Hr%reachable_ok Hrefs. apply wf_no_owners. rewrite <-Hrefs. apply Hr.
Qed.

(** C25: Every reference is valid, as its type says: in a reachable state a strong
    reference that a client or a graph holds, or that an edge holds to its
    source, points to a node or registry that is alive, and a weak one, of the
    client, of an edge to its target, of a node to its registry or of a registry
    to a node, to memory that is still allocated. *)
Theorem references_valid w r :
  reachable w → r ∈ w_refs w ∨ r ∈ internal (w_store w) →
  match r with
  | NodeStrong p => is_Some (node (w_store w) p)
  | NodeWeak p => is_Some (st_nodes (w_store w) !! p)
  | RegStrong g => is_Some (registry_at (w_store w) g)
  | RegWeak g => is_Some (st_regs (w_store w) !! g)
  end.
Proof.
  intros Hr%reachable_ok Hin. pose proof (wok_store _ Hr) as Hw.
  assert (0 < count (w_store w) r) as Hc.
  { destruct Hin; [by eapply wf_owned_count|by eapply wf_internal_count]. }
  destruct r; [|by apply count_weak_alloc| |by apply count_reg_weak_alloc].
  - destruct (count_strong_live _ _ _ Hw Hc) as (b & d & _ & _ & ->). done.
  - destruct (count_reg_strong_live _ _ _ Hw Hc) as (b & R & _ & _ & ->). done.
Qed.

(** No node is its own ancestor. *)
Lemma history_acyclic w p : reachable w → ¬ tc (parent_of (w_store w)) p p.
Proof.
  intros Hr%reachable_ok Hp. destruct (ancestor_rank _ _ (wok_store _ Hr)) as [rank Hrank].
  specialize (Hrank _ _ Hp). lia.
Qed.

(** [RelWeak::upgrade] of a weak reference somebody holds gives a strong
    reference to its node when the node is alive, and nothing otherwise; in
    both cases no node or registry changes. *)
Lemma upgrade_iff_live st ow p :
  wf st ow → NodeWeak p ∈ ow →
  ∃ o st', RelWeak_upgrade p st = Ok (o, st') ∧ (o = Some p ↔ is_Some (node st p)) ∧
    (o = None ↔ node st p = None) ∧
    wf st' ((NodeStrong <$> option_list o) ++ ow) ∧ same_views st st'.
Proof.
  intros Hw Hp. pose proof (count_weak_alloc _ _ (wf_owned_count _ _ _ Hw Hp)) as Hal.
  unfold RelWeak_upgrade. destruct (node st p) as [d|] eqn:Hd.
  - destruct (rc_upgrade_live _ _ p d Hw Hd) as (st' & -> & _ & Hw' & Hv).
    exists (Some p), st'. by split_and!.
  - rewrite (rc_upgrade_dead _ _ p Hw Hal Hd). exists None, st. by split_and!.
Qed.
End ownership.

(** ** Instances *)

Local Open Scope positive_scope.

Lemma chain_drop_typed : ∃ res, exec (CallDrop (NodeStrong 3)) chain = Some res.
Proof. apply is_some_true. vm_compute. reflexivity. Qed.

Lemma chain_drop_returns : ∃ o w', exec (CallDrop (NodeStrong 3)) chain = Some (Ok (o, w')).
Proof.
  pose (x := match exec (CallDrop (NodeStrong 3)) chain with Some (Ok ow) => Some ow | _ => None end).
  destruct (is_some_true x) as [[o w'] Hx]; [vm_compute; reflexivity|]. exists o, w'. revert Hx. unfold x.
  destruct (exec (CallDrop (NodeStrong 3)) chain) as [[?|?]|]; congruence.
Qed.

Lemma client_calls_safe_witness :
  ∃ o w', exec (CallDrop (NodeStrong 3)) chain = Some (Ok (o, w')) ∧ wf (w_store w') (w_refs w') ∧
    ∀ q d d', node (w_store chain) q = Some d → node (w_store w') q = Some d' →
      nd_value d' = nd_value d ∧ nd_incoming d' = nd_incoming d.
Proof.
  destruct chain_drop_typed as [res He].
  destruct (client_calls_safe chain _ res (after_reachable _ chain_runs) He)
    as [(o & w' & -> & Hw' & _ & Hf)|(msg & _ & Hc)]; [|destruct Hc].
  exists o, w'. split; [exact He|]. exact (conj Hw' Hf).
Defined.

Lemma reachable_invariant_witness : world_ok triangle.
Proof. apply (reachable_invariant triangle). apply (after_reachable _ triangle_runs). Defined.

(** Dropping the last handle of the chain takes the whole chain with it, and the
    id of node 2 is freed. *)
Lemma drop_collects_garbage_witness :
  ∃ st', drop_refs [NodeStrong 3] (w_store chain) = Ok st' ∧ wf st' [NodeWeak 2; RegStrong 1] ∧
    ∀ q d, node st' q = Some d ↔
      node (w_store chain) q = Some d ∧ held_by (w_store chain) [NodeWeak 2; RegStrong 1] q.
Proof.
  apply (drop_collects_garbage (w_store chain) [NodeStrong 3] [NodeWeak 2; RegStrong 1]).
  apply chain_wf. vm_compute. reflexivity.
Defined.

(** After the last handle of the chain is dropped node 1 would be alive only if
    somebody held it. *)
Lemma live_iff_held_witness :
  ∃ o w', exec (CallDrop (NodeStrong 3)) chain = Some (Ok (o, w')) ∧
    (is_Some (node (w_store w') 1) ↔ held_by (w_store w') (w_refs w') 1).
Proof.
  destruct chain_drop_returns as (o & w' & He). exists o, w'. split; [exact He|].
  exact (proj1 (live_iff_held chain _ o w' 1 (after_reachable _ chain_runs) He)).
Defined.

Definition drop_everything : list (call nat nat) :=
  triangle_calls ++ [CallDropGraph 0; CallDrop (RegStrong 1); CallDrop (NodeStrong 1);
    CallDrop (NodeStrong 3); CallDrop (NodeStrong 2); CallDrop (NodeWeak 3)].

Lemma no_leaks_witness : w_store (after drop_everything) = empty_store.
Proof.
  apply (no_leaks (after drop_everything)).
  - apply after_reachable. vm_compute. reflexivity.
  - vm_compute. reflexivity.
Defined.

Lemma references_valid_witness : is_Some (node (w_store triangle) 2) ∧ is_Some (st_nodes (w_store triangle) !! 3).
Proof.
  split.
  - apply (references_valid triangle (NodeStrong 2) (after_reachable _ triangle_runs)). left.
    apply (list_elem_of_lookup_2 _ 3). vm_compute. reflexivity.
  - apply (references_valid triangle (NodeWeak 3) (after_reachable _ triangle_runs)). left.
    apply (list_elem_of_lookup_2 _ 1). vm_compute. reflexivity.
Defined.

