(* ===== verification/NodeProps.v ===== *)
(** * Properties: nodes and edges *)

From S2P Require Import Prelude Slotmap Store RefCell StoreFacts Rc Registry Drop DropFacts RegistryOps Edge Node NodeFacts RegistryFacts Guards Ancestors History HistoryFacts Adjacency Insertion InsertAncestors Client ClientFacts Model Demo.

Section node_props.
Context {N E : Type} {S : SlotMapSig} {SLaws : SlotMapLaws S} {A : Allocator}.
Implicit Types (st : store N E) (p q : addr) (ow : list ref) (d : InnerData N E).

(** C12: [RelRc::with_parents] consumes the handles to the parents and returns
    the only handle to a new node.  The node has the given value, the given
    parents with their edge values in the given order, no children and no
    registry; the parents gain the new edges at the end of their outgoing
    edges; every other node and every registry is as before. *)
Theorem with_parents_creates st ow value parents :
  wf st (parent_owners parents ++ ow) →
  ∃ p st', RelRc_with_parents value parents st = Ok (p, st') ∧
    wf st' (NodeStrong p :: ow) ∧ st_nodes st !! p = None ∧
    node st' p = Some (mkInnerData value
      ((λ pe, mkInnerEdgeData pe.2 pe.1 p) <$> parents) [] None) ∧
    (∀ q d, node st q = Some d → ∃ new,
       node st' q = Some (set_outgoing d (nd_outgoing d ++ new)) ∧
       ∀ i, occ (mkWeakEdge i p) new = (if decide ((parents !! i) ≫= (λ pe, Some pe.1) = Some q)
                                        then 1 else 0)) ∧
    (∀ q, q ≠ p → node st q = None → node st' q = None) ∧
    (∀ g, registry_at st' g = registry_at st g).
Proof.
  intros Hw. destruct (RelRc_with_parents_spec st ow value parents Hw)
    as (p & st' & Heq & Hw' & Hf & Hn & HR).
  exists p, st'. split_and!; try done.
  - by rewrite Hn, decide_True.
  - intros q d Hd. eexists. rewrite Hn, decide_False, Hd.
    + split; [done|]. intros i. rewrite <-(length_fmap (λ pe, mkInnerEdgeData pe.2 pe.1 p) parents).
      unfold new_incoming. rewrite (occ_new_outgoing p).
      2: { intros e (pe & -> & _)%list_elem_of_fmap. done. }
      rewrite decide_True, Nat.sub_0_r, list_lookup_fmap by lia.
      destruct (parents !! i) as [pe|]; simpl; [|done]. repeat case_decide; naive_solver.
    + intros ->. by rewrite (fresh_node _ _ Hf) in Hd.
  - intros q Hq Hd. by rewrite Hn, decide_False, Hd.
Qed.

(** C13: [InnerData::all_outgoing] returns, each once and in order, exactly the
    edges of live nodes that have this node as their source; the node forgets
    the edges to dead nodes and keeps the others. *)
Theorem all_outgoing_exact st ow p d :
  wf st ow → node st p = Some d →
  ∃ l st', InnerData_all_outgoing p st = Ok (l, st') ∧ NoDup l ∧
    wf st' (edge_owners l ++ ow) ∧
    (∀ i q, mkEdge i q ∈ l ↔
       ∃ dq e, node st q = Some dq ∧ nd_incoming dq !! i = Some e ∧ ie_source e = p) ∧
    node st' p = Some (set_outgoing d ((λ e, mkWeakEdge (ed_index e) (ed_target e)) <$> l)) ∧
    (∀ q, q ≠ p → node st' q = node st q) ∧ (∀ g, registry_at st' g = registry_at st g).
Proof.
  intros Hw Hd. destruct (all_outgoing_spec st ow p d Hw Hd) as (st' & Heq & Hw' & Hn & HR).
  eexists _, st'. split_and!; try done.
  - apply NoDup_fmap_2; [intros [] []; by inversion 1|]. by eapply live_outgoing_NoDup.
  - intros i q. rewrite <-(elem_of_live_outgoing st ow p d i q) by done.
    rewrite list_elem_of_fmap. split; [|intros ?; by exists (mkWeakEdge i q)].
    intros ([i' q'] & [= -> ->] & ?). done.
  - rewrite Hn, decide_True by done. do 2 f_equal. rewrite <-list_fmap_compose.
    rewrite <-(list_fmap_id (filter _ _)) at 1. apply list_fmap_ext. by intros ? [].
  - intros q Hq. by rewrite Hn, decide_False.
Qed.

(** [InnerData::n_outgoing] is the number of edges of live nodes with this
    source; its temporary strong references are gone when it returns. *)
Lemma n_outgoing_counts st ow p d :
  wf st ow → node st p = Some d →
  ∃ l st' n, InnerData_n_outgoing p st = Ok (n, st') ∧ wf st' ow ∧ n = length l ∧ NoDup l ∧
    (∀ i q, (i, q) ∈ l ↔
       ∃ dq e, node st q = Some dq ∧ nd_incoming dq !! i = Some e ∧ ie_source e = p) ∧
    (∀ q, is_Some (node st' q) ↔ is_Some (node st q)).
Proof.
  intros Hw Hd. destruct (n_outgoing_spec st ow p d Hw Hd) as (st' & Heq & Hw' & Hn & HR).
  exists ((λ e, (we_index e, we_target e)) <$> filter (live_edge st) (nd_outgoing d)), st'.
  eexists. split_and!; try done.
  - by rewrite length_fmap.
  - apply NoDup_fmap_2; [intros [] []; by inversion 1|]. by eapply live_outgoing_NoDup.
  - intros i q. rewrite <-(elem_of_live_outgoing st ow p d i q) by done.
    rewrite list_elem_of_fmap. split; [|intros ?; by exists (mkWeakEdge i q)].
    intros ([i' q'] & [= -> ->] & ?). done.
  - intros q. rewrite Hn. case_decide; [|done]. subst. rewrite Hd. naive_solver.
Qed.

(** Every edge that [all_outgoing] returns can be dereferenced: the index
    is in range at the target, and the edge found there starts at this
    node. *)
Lemma edge_deref_safe st ow p d l st' e :
  wf st ow → node st p = Some d → InnerData_all_outgoing p st = Ok (l, st') → e ∈ l →
  ∃ ie, Edge_deref e st' = Ok ie ∧ ie_source ie = p ∧ ie_target ie = Edge_target e.
Proof.
  intros Hw Hd Heq He. destruct (all_outgoing_spec st ow p d Hw Hd) as (st1 & Heq1 & Hw1 & Hn & _).
  rewrite Heq in Heq1. injection Heq1 as -> <-.
  apply list_elem_of_fmap in He as ([i q] & -> & Hin). simpl.
  apply (elem_of_live_outgoing st ow p d i q Hw Hd) in Hin as (dq & ie & Hq & Hi & Hs).
  exists ie. unfold Edge_deref. simpl. rewrite Hn.
  assert (ie_target ie = q) as Ht.
  { apply (wf_target _ (wf_st_graph _ _ Hw) q dq); [done|]. by eapply list_elem_of_lookup_2. }
  case_decide as Hqp; simpl; [|by rewrite Hq; simpl; rewrite Hi].
  subst. assert (d = dq) as -> by congruence. by rewrite Hi.
Qed.

(** [InnerEdgeData::target] of an edge found in a live node does not panic
    and returns that node. *)
Lemma edge_target_alive st ow q d e :
  wf st ow → node st q = Some d → e ∈ InnerData_all_incoming d →
  ∃ st', InnerEdgeData_target e st = Ok (q, st') ∧ wf st' (NodeStrong q :: ow) ∧ same_views st st'.
Proof. apply InnerEdgeData_target_owner. Qed.

(** C23: While the guard that [all_outgoing_weak_ref] returns is alive, no child of
    the node can be created by [with_parents] and its children cannot be enumerated
    by [all_outgoing]: both panic in [borrow_mut].  With other parents
    [with_parents], and on other nodes [all_outgoing], do what they do without the
    guard, although the documentation says that no new [RelRc] can be created; and
    when the guard is dropped the store is as it was. *)
Theorem outgoing_guard_excludes st ow p d value parents :
  wf st (parent_owners parents ++ ow) → node st p = Some d →
  ∃ st1, InnerData_all_outgoing_weak_ref p st = Ok (nd_outgoing d, st1) ∧
    Ref_drop (OutgoingCell p) st1 = st ∧
    RelRc_with_parents value parents st1 =
      (if decide (p ∈ parents.*1) then Err (Panic "already borrowed: BorrowMutError") else
       r ← RelRc_with_parents value parents st; Ok (r.1, set_borrows (st_borrows st1) r.2)) ∧
    ∀ q, is_Some (node st q) →
      InnerData_all_outgoing q st1 =
        (if decide (q = p) then Err (Panic "already borrowed: BorrowMutError") else
         r ← InnerData_all_outgoing q st; Ok (r.1, set_borrows (st_borrows st1) r.2)).
Proof.
  intros Hw Hd. pose proof (wf_st_borrows _ _ Hw) as Hb.
  exists (set_borrows {[OutgoingCell p := 1%Z]} st). split_and!.
  - unfold InnerData_all_outgoing_weak_ref. rewrite RefCell_borrow_idle by done. simpl.
    change (node (set_borrows ?m st) p) with (node st p). by rewrite Hd.
  - rewrite (Ref_drop_last _ _ ∅) by done. by rewrite set_borrows_twice, set_borrows_self.
  - by eapply with_parents_guarded.
  - intros q Hq. by apply all_outgoing_guarded.
Qed.

(** C32: [RelRc::all_ancestors] terminates and yields the generations of ancestors
    one after the other, the node itself first, up to the first node that has
    occurred before.  So it yields only ancestors, none twice; and it yields every
    ancestor when none is the source of two edges into the history. *)
Theorem all_ancestors_yields st ow p d :
  wf st ow → node st p = Some d →
  ∃ l, RelRc_all_ancestors p st = Ok l ∧
    (∀ n, size (st_nodes st) < n → l = distinct_prefix ∅ (generations (parents_at st) n [p])) ∧
    NoDup l ∧ (∀ x, x ∈ l → ancestor_of st x p) ∧
    (unshared st p → ∀ x, ancestor_of st x p → x ∈ l).
Proof.
  intros Hw Hd. destruct (all_ancestors_walk _ _ _ _ Hw Hd) as (l & rest & Heq & Hwalk & _). exists l.
  split_and!; [done| |apply Hwalk..|].
  - intros [|n] Hn; [lia|]. apply all_ancestors_generations; [done|lia].
  - intros Hu x Hx. destruct (all_ancestors_unshared _ _ _ _ Hw Hd Hu) as (l2 & Heq2 & _ & Hall).
    rewrite Heq in Heq2. injection Heq2 as <-. by apply Hall.
Qed.
End node_props.

(** ** Instances *)

Local Open Scope positive_scope.

(** A node with the parents [1, 1, 2]: the second edge to node 1 ends the walk
    of [all_ancestors] before it has reached node 2. *)
Definition repeated_calls : list (call nat nat) :=
  [ CallNew 10%nat; CallNew 20%nat; CallClone 1;
    CallWithParents 30%nat [(1, 5%nat); (1, 6%nat); (2, 7%nat)] ].
Definition repeated : world nat nat := after repeated_calls.

(** On histories with shared ancestors [all_ancestors] may stop early: for
    a node whose parents are [1, 1, 2] it yields the node and 1, although 2 is an
    ancestor too. *)
Example all_ancestors_stops_early :
  RelRc_all_ancestors 3 (w_store repeated) = Ok [3; 1] ∧ ancestor_of (w_store repeated) 2 3.
Proof.
  split; [vm_compute; reflexivity|]. apply rtc_once.
  apply (parent_of_edge _ _ (default (InnerData_new 0%nat) (node (w_store repeated) 3)) 2
    (mkInnerEdgeData 7%nat 2 3)); vm_compute; reflexivity.
Qed.

Definition triangle_node (p : addr) : InnerData nat nat :=
  default (InnerData_new 0%nat) (node (w_store triangle) p).

Lemma with_parents_creates_witness :
  ∃ p st', RelRc_with_parents 40%nat [(2, 8%nat); (3, 9%nat)] (w_store triangle) = Ok (p, st') ∧
    node st' p = Some (mkInnerData 40%nat [mkInnerEdgeData 8%nat 2 p; mkInnerEdgeData 9%nat 3 p] [] None).
Proof.
  destruct (with_parents_creates (w_store triangle)
    (hg_owners triangle_graph ++ [RegStrong 1; NodeWeak 3; NodeStrong 1])
    40%nat [(2, 8%nat); (3, 9%nat)]) as (p & st' & Heq & _ & _ & Hn & _).
  - apply triangle_wf. vm_compute. reflexivity.
  - exists p, st'. split; [exact Heq|exact Hn].
Defined.

Lemma all_outgoing_exact_witness :
  ∃ l st', InnerData_all_outgoing 1 (w_store triangle) = Ok (l, st') ∧ NoDup l ∧ mkEdge 0 3 ∈ l.
Proof.
  destruct (all_outgoing_exact (w_store triangle) (hg_owners triangle_graph ++ triangle_handles)
    1 (triangle_node 1) triangle_graph_wf) as (l & st' & Heq & Hnd & _ & Hl & _).
  - vm_compute. reflexivity.
  - exists l, st'. split; [exact Heq|]. split; [exact Hnd|]. apply Hl.
    exists (triangle_node 3), (mkInnerEdgeData 6%nat 1 3). split_and!; vm_compute; reflexivity.
Defined.

(** A guard on the outgoing edges of node 2, which is to be a parent. *)
Lemma outgoing_guard_excludes_witness :
  ∃ edges st1, InnerData_all_outgoing_weak_ref 2 (w_store triangle) = Ok (edges, st1) ∧
    RelRc_with_parents 40%nat [(3, 9%nat); (2, 8%nat)] st1 = Err (Panic "already borrowed: BorrowMutError") ∧
    Ref_drop (OutgoingCell 2) st1 = w_store triangle.
Proof.
  destruct (outgoing_guard_excludes (w_store triangle)
    (hg_owners triangle_graph ++ [RegStrong 1; NodeWeak 3; NodeStrong 1])
    2 (triangle_node 2) 40%nat [(3, 9%nat); (2, 8%nat)]) as (st1 & Hg & Hdrop & Hnew & _).
  - apply triangle_wf. vm_compute. reflexivity.
  - vm_compute. reflexivity.
  - exists (nd_outgoing (triangle_node 2)), st1. split; [exact Hg|]. split; [exact Hnew|exact Hdrop].
Defined.

Definition triangle_outgoing : list Edge * store nat nat :=
  match InnerData_all_outgoing 1 (w_store triangle) with
  | Ok r => r
  | Err _ => ([], w_store triangle)
  end.

(** The edges of the chain, as triples of target, index and source. *)
Lemma chain_edges q d i e :
  node (w_store chain) q = Some d → nd_incoming d !! i = Some e →
  (q, i, ie_source e) ∈ [(2, 0%nat, 1); (3, 0%nat, 2)].
Proof.
  intros (b & Hb & Hv)%node_Some Hi. apply elem_of_map_to_list in Hb.
  assert ((q, i, ie_source e) ∈ map_to_list (st_nodes (w_store chain)) ≫= λ pb,
    from_option (λ d, imap (λ i e, (pb.1, i, ie_source e)) (nd_incoming d)) [] (rc_val pb.2)) as Hin.
  { apply list_elem_of_bind. exists (q, b). split; [|done]. simpl. rewrite Hv. simpl.
    apply (list_elem_of_lookup_2 _ i). rewrite list_lookup_imap, Hi. done. }
  apply (elem_of_list_to_set (C:=gset (addr * nat * addr))) in Hin.
  apply (elem_of_list_to_set (C:=gset (addr * nat * addr))).
  revert Hin. apply elem_of_subseteq. apply (bool_decide_unpack _). vm_compute. exact I.
Qed.

Lemma all_ancestors_yields_witness :
  ∃ l, RelRc_all_ancestors 3 (w_store chain) = Ok l ∧ NoDup l ∧
    l = distinct_prefix ∅ (generations (parents_at (w_store chain)) 4 [3]) ∧
    ∀ x, x ∈ l ↔ ancestor_of (w_store chain) x 3.
Proof.
  destruct (all_ancestors_yields (w_store chain) [NodeStrong 3; NodeWeak 2; RegStrong 1] 3
    (default (InnerData_new 0%nat) (node (w_store chain) 3))) as (l & Hl & Hgen & Hnd & Hs & Hc).
  - apply chain_wf. vm_compute. reflexivity.
  - vm_compute. reflexivity.
  - exists l. split; [exact Hl|]. split; [exact Hnd|].
    split; [apply Hgen; apply Nat.ltb_lt; vm_compute; reflexivity|]. intros x. split; [exact (Hs x)|].
    apply Hc. intros q1 q2 d1 d2 i1 i2 e1 e2 _ _ H1 H2 Hi1 Hi2 He.
    pose proof (chain_edges _ _ _ _ H1 Hi1) as Hin1. pose proof (chain_edges _ _ _ _ H2 Hi2) as Hin2.
    clear H1 H2 Hi1 Hi2. rewrite He in Hin1. clear He.
    rewrite !elem_of_cons, elem_of_nil in Hin1. rewrite !elem_of_cons, elem_of_nil in Hin2.
    destruct Hin1 as [|[|[]]], Hin2 as [|[|[]]]; split; congruence.
Defined.
