(* ===== verification/RegistryProps.v ===== *)
(** * Properties: registries *)

From S2P Require Import Prelude Slotmap Store RefCell StoreFacts Rc Registry Drop DropFacts RegistryOps Edge Node NodeFacts RegistryFacts Guards Ancestors History HistoryFacts Adjacency Insertion InsertAncestors Client ClientFacts Model Demo.

Section registry_props.
Context {N E : Type} {S : SlotMapSig} {SLaws : SlotMapLaws S} {A : Allocator}.
Implicit Types (st : store N E) (p q g h : addr) (ow : list ref) (d : InnerData N E).
Implicit Types (R : Registry) (k id : NodeId).

(** C21: [Registry::add_node] of a live node returns an id; [Registry::get] of this id
    then gives a new strong reference to the node and changes nothing else,
    [get_id] of the node gives the id, and adding it again does nothing.  The ids
    of other nodes stay, both maps of the registry are inverse to each other, and
    when the node is registered already nothing changes. *)
Theorem add_node_get st ow R p d :
  wf st (registry_refs R ++ ow) → registry_ok R → node st p = Some d →
  ∃ id R' st', Registry_add_node R p st = Ok (id, R', st') ∧
    wf st' (registry_refs R' ++ ow) ∧ registry_ok R' ∧ same_views st st' ∧
    (∃ st2, Registry_get R' id st' = Ok (Some p, st2) ∧
       wf st2 (NodeStrong p :: registry_refs R' ++ ow) ∧ same_views st' st2) ∧
    Registry_get_id R' p = Some id ∧
    (∀ q, q ≠ p → Registry_get_id R' q = Registry_get_id R q) ∧
    (is_Some (Registry_get_id R p) → R' = R ∧ st' = st) ∧
    Registry_add_node R' p st' = Ok (id, R', st').
Proof.
  intros Hw Hok Hd. destruct (Registry_add_node_spec st ow R p d Hw Hok Hd)
    as (id & R' & st' & Heq & Hw' & Hok' & Hv & Hid & Hq & Hget & Hsame).
  exists id, R', st'. split_and!; try done.
  - destruct (Registry_get_spec st' _ R' id Hw') as (st2 & Hg & Hw2 & Hv2).
    { intros x Hx. apply count_weak_alloc. eapply wf_owned_count; [exact Hw'|]. apply elem_of_app. left.
      apply list_elem_of_fmap. exists (id, x). split; [done|]. by apply sm_iter_get. }
    assert (resolve st' R' id = Some p) as Hr.
    { apply resolve_Some. split; [by apply registry_ok_get_id|]. rewrite (proj1 Hv). by exists d. }
    rewrite Hr in Hg, Hw2. by exists st2.
  - unfold Registry_add_node. by rewrite Hid.
Qed.

(** [Registry::remove] frees the id and the address it stood for, in both
    maps, and nothing else. *)
Lemma remove_frees R id :
  registry_ok R →
  registry_ok (Registry_remove R id).2 ∧
  (∀ k, sm_get k (reg_nodes (Registry_remove R id).2) =
        if decide (k = id) then None else sm_get k (reg_nodes R)) ∧
  (∀ q, Registry_get_id (Registry_remove R id).2 q =
        if decide (Registry_get_id R q = Some id) then None else Registry_get_id R q).
Proof.
  intros Hok. pose proof (Registry_remove_ok R id Hok) as Hok'. split_and!; [done| |].
  - intros k. apply Registry_remove_get.
  - intros q. apply option_eq. intros k. rewrite registry_ok_get_id, Registry_remove_get by done.
    destruct (decide (Registry_get_id R q = Some id)) as [Hq|Hq].
    + apply registry_ok_get_id in Hq as Hq'; [|done]. case_decide; [done|].
      split; [|done]. intros Hk%registry_ok_get_id; [congruence|done].
    + rewrite (registry_ok_get_id R q k) by done. case_decide; [|done]. subst.
      split; [done|]. intros Hk%registry_ok_get_id; done.
Qed.

(** [Registry::get] returns a new strong reference to the node registered
    under the id when that node is alive, and nothing otherwise: an id never
    gives access to freed memory, nor to another node. *)
Lemma get_resolves st ow g R id :
  wf st ow → registry_at st g = Some R →
  ∃ o st', Registry_get R id st = Ok (o, st') ∧
    (∀ p, o = Some p ↔ sm_get id (reg_nodes R) = Some p ∧ is_Some (node st p)) ∧
    wf st' ((NodeStrong <$> option_list o) ++ ow) ∧ same_views st st'.
Proof.
  intros Hw HR. destruct (Registry_get_spec st ow R id Hw) as (st' & Heq & Hw' & Hv).
  { intros p Hp. by eapply registered_alloc. }
  exists (resolve st R id), st'. split_and!; try done. intros p. apply resolve_Some.
Qed.

(** [Registry::free_node_ids] frees exactly the ids of dead nodes, from
    both maps, and returns the number of ids left; no live node changes. *)
Lemma free_node_ids_exact st ow g R :
  wf st ow → registry_at st g = Some R →
  ∃ n st' R', with_registry_mut g Registry_free_node_ids st = Ok (n, st') ∧ wf st' ow ∧
    registry_at st' g = Some R' ∧ registry_ok R' ∧ n = Registry_len R' ∧
    (∀ k p, sm_get k (reg_nodes R') = Some p ↔
       sm_get k (reg_nodes R) = Some p ∧ is_Some (node st p)) ∧
    (∀ q, node st' q = node st q).
Proof.
  intros Hw HR. pose proof (wf_st_regs _ _ Hw _ _ HR) as HokR.
  destruct (with_registry_mut_spec Registry_free_node_ids st ow g R
    (λ n R' st2, n = Registry_len R' ∧ (∀ q, node st2 q = node st q) ∧
      ∀ k, sm_get k (reg_nodes R') = resolve st R k) Hw HR)
    as (n & R' & st2 & st' & Heq & Hw' & (Hlen & Hn2 & Hres) & Hn' & HR').
  { intros st1 Hw1 Hn1 _ _. destruct (Registry_free_node_ids_spec st1 ow R Hw1 HokR)
      as (R' & st2 & -> & Hw2 & Hok' & [Hn2 HR2] & Hres).
    eexists _, R', st2. split_and!; try done; [intros q; by rewrite Hn2, Hn1|].
    intros k. rewrite Hres. unfold resolve. destruct (sm_get k (reg_nodes R)); [by rewrite Hn1|done]. }
  assert (registry_at st' g = Some R') as Hg by by rewrite HR', decide_True.
  exists n, st', R'. split_and!; try done.
  - exact (wf_st_regs _ _ Hw' _ _ Hg).
  - intros k p. rewrite Hres. apply resolve_Some.
  - intros q. by rewrite Hn', Hn2.
Qed.

(** C18: When the last reference to a node goes, directly or because its last
    descendant goes, its id is freed in the registry it was registered in; the
    ids of nodes that stay alive are kept. *)
Theorem drop_frees_ids st l ow st' g R' :
  wf st (l ++ ow) → drop_refs l st = Ok st' → registry_at st' g = Some R' →
  (∀ p d, node st p = Some d → nd_registry d = Some g → node st' p = None →
     Registry_get_id R' p = None ∧ ∀ k, sm_get k (reg_nodes R') ≠ Some p) ∧
  (∀ R k p, registry_at st g = Some R → sm_get k (reg_nodes R) = Some p →
     is_Some (node st' p) → sm_get k (reg_nodes R') = Some p).
Proof.
  intros Hw Hd HR'. destruct (drop_refs_spec _ _ _ Hw) as (st1 & Heq & Hw' & Hinv).
  rewrite Hd in Heq. injection Heq as <-. split.
  - intros p d Hp Hg Hdead. split; [|intros k].
    + by eapply (di_freed _ _ _ Hinv p d g R'); [| |left|].
    + by eapply drop_frees_id; [apply Hw'|..].
  - intros R k p HR Hk [d Hp]. destruct (di_regs _ _ _ Hinv g R' HR') as (R0 & HR0 & _ & Hkeep).
    simplify_eq. destruct (Hkeep k p Hk) as [?|[?|?%elem_of_nil]]; [done|congruence|done].
Qed.

(** A new node is in no registry, although its address may have been
    used, and registered, before: registries keep the addresses they know from
    being reused. *)
Lemma new_node_unregistered st ow value parents p st' g R :
  wf st (parent_owners parents ++ ow) → RelRc_with_parents value parents st = Ok (p, st') →
  registry_at st' g = Some R → Registry_get_id R p = None.
Proof.
  intros Hw Hnew HR. destruct (RelRc_with_parents_spec st ow value parents Hw)
    as (p1 & st1 & Heq & Hw' & Hf & Hn & HR').
  rewrite Hnew in Heq. injection Heq as <- <-. rewrite HR' in HR.
  exact (fresh_not_registered _ _ _ _ _ Hw HR Hf).
Qed.

(** C19: [RelRc::try_register_in] succeeds exactly when the node has not been
    registered or is registered in this registry, and then the registry maps
    the node to the returned id and back; otherwise it returns [None] and
    changes nothing. *)
Theorem try_register_in_outcomes st ow p g d R :
  wf st ow → node st p = Some d → registry_at st g = Some R →
  ∃ o st', RelRc_try_register_in p g st = Ok (o, st') ∧ wf st' ow ∧
    (is_Some o ↔ nd_registry d = None ∨ nd_registry d = Some g) ∧
    (o = None → same_views st st') ∧
    (∀ id, o = Some id → ∃ R', registry_at st' g = Some R' ∧
       Registry_get_id R' p = Some id ∧ sm_get id (reg_nodes R') = Some p ∧
       node st' p = Some (set_registry d (Some g)) ∧
       (∀ q, q ≠ p → node st' q = node st q ∧ Registry_get_id R' q = Registry_get_id R q)).
Proof.
  intros Hw Hd HR. destruct (registrable_dec_or st p g d Hd) as [(d' & ? & Hreg)|(h & Hh & Hne)].
  - simplify_eq. destruct (try_register_in_ok st ow p g d R Hw Hd HR Hreg)
      as (id & R' & st' & Heq & Hw' & Hn & HR' & Hok' & Hid & Hq & Hget & _).
    exists (Some id), st'. split_and!; try done.
    intros id' [= <-]. exists R'. rewrite HR', decide_True by done. split_and!; try done.
    + by apply registry_ok_get_id.
    + by rewrite Hn, decide_True.
    + intros q Hne. rewrite Hn, decide_False by done. by split; [|apply Hq].
  - destruct (try_register_in_other st ow p g d R h Hw Hd HR Hh Hne) as (st' & Heq & Hw' & Hv).
    exists None, st'. split_and!; try done. split; [by intros [? ?]|]. intros [?|?]; congruence.
Qed.

(** C28: While a guard of the shared registry is alive, ids can be looked up, but a
    node that [try_register_in] would accept makes it panic, and so does dropping
    the last reference to a registered node, in the [borrow_mut] of [drop];
    dropping a reference to a node that has others does what it always does. *)
Theorem registry_guard_excludes st ow g R p d :
  wf st (NodeStrong p :: ow) → registry_at st g = Some R → node st p = Some d →
  ∃ st1, RefCell_borrow (RegistryCell g) st = Ok st1 ∧ Ref_drop (RegistryCell g) st1 = st ∧
    registered_id g p st1 = Ok (Registry_get_id R p) ∧
    (nd_registry d = None ∨ nd_registry d = Some g →
       RelRc_try_register_in p g st1 = Err (Panic "already borrowed: BorrowMutError")) ∧
    (count st (NodeStrong p) = 1 → nd_registry d = Some g → is_Some (Registry_get_id R p) →
       drop_relrc p st1 = Err (Panic "already borrowed: BorrowMutError")) ∧
    (1 < count st (NodeStrong p) →
       ∃ st', drop_relrc p st = Ok st' ∧ drop_relrc p st1 = Ok (set_borrows (st_borrows st1) st')).
Proof.
  intros Hw HR Hd. pose proof (wf_st_borrows _ _ Hw) as Hb.
  exists (set_borrows {[RegistryCell g := 1%Z]} st). split_and!.
  - by apply RefCell_borrow_idle.
  - rewrite (Ref_drop_last _ _ ∅) by done. by rewrite set_borrows_twice, set_borrows_self.
  - by rewrite registered_id_guarded, HR.
  - intros Hreg. by eapply try_register_guarded.
  - intros Hc Hg [id Hid]. by eapply drop_last_guarded.
  - intros Hc. by apply drop_shared_guarded.
Qed.

(** C34: A node whose registry has been dropped reports no registry, but can
    not be registered anywhere else either. *)
Theorem orphaned_node_unregistrable st ow p d h g R :
  wf st ow → node st p = Some d → nd_registry d = Some h → registry_at st h = None →
  registry_at st g = Some R →
  RelRc_registry p st = Ok (None, st) ∧ ∃ st', RelRc_try_register_in p g st = Ok (None, st').
Proof.
  intros Hw Hd Hh Hdead HR. split.
  - rewrite RelRc_registry_idle by apply Hw. rewrite Hd. simpl. rewrite Hh. eapply reg_upgrade_dead; [done| |done].
    apply count_reg_weak_alloc. eapply wf_internal_count; [done|]. apply elem_of_internal. left.
    exists p, d. split; [done|]. right. apply elem_of_inner_refs. right. right. by exists h.
  - assert (h ≠ g) as Hne by congruence.
    destruct (try_register_in_other st ow p g d R h Hw Hd HR Hh Hne) as (st' & ? & _). by exists st'.
Qed.
End registry_props.

(** ** Instances *)

Local Open Scope positive_scope.

Definition chain_node (p : addr) : InnerData nat nat :=
  default (InnerData_new 0%nat) (node (w_store chain) p).
Definition chain_registry : Registry := default Registry_new (registry_at (w_store chain) 1).
Definition chain_handles : list ref := [NodeStrong 3; NodeWeak 2; RegStrong 1].

Lemma chain_handles_wf : wf (w_store chain) chain_handles.
Proof. apply chain_wf. vm_compute. reflexivity. Qed.

Lemma chain_registry_at : registry_at (w_store chain) 1 = Some chain_registry.
Proof. vm_compute. reflexivity. Qed.

(** The node 1 of the chain is added to a registry of its own. *)
Lemma add_node_get_witness :
  ∃ id R' st', Registry_add_node Registry_new 1 (w_store chain) = Ok (id, R', st') ∧
    Registry_get_id R' 1 = Some id ∧ (∃ st2, Registry_get R' id st' = Ok (Some 1, st2)) ∧
    Registry_add_node R' 1 st' = Ok (id, R', st').
Proof.
  destruct (add_node_get (w_store chain) chain_handles Registry_new 1 (chain_node 1))
    as (id & R' & st' & Heq & _ & _ & _ & (st2 & Hget & _) & Hid & _ & _ & Hagain).
  - rewrite Registry_new_refs. apply chain_handles_wf.
  - apply Registry_new_ok.
  - vm_compute. reflexivity.
  - exists id, R', st'. split_and!; [exact Heq|exact Hid|exists st2; exact Hget|exact Hagain].
Defined.

(** One node, registered, with one reference. *)
Definition lone_calls : list (call nat nat) := [CallNew 10%nat; CallNewRegistry; CallRegister 1 1].
Definition lone : store nat nat := w_store (after lone_calls).
Definition lone_registry : Registry := default Registry_new (registry_at lone 1).
Definition lone_node : InnerData nat nat := default (InnerData_new 0%nat) (node lone 1).

Lemma registry_guard_excludes_witness :
  ∃ st1, RefCell_borrow (RegistryCell 1) lone = Ok st1 ∧
    drop_relrc 1 st1 = Err (Panic "already borrowed: BorrowMutError") ∧
    Ref_drop (RegistryCell 1) st1 = lone.
Proof.
  destruct (registry_guard_excludes lone [RegStrong 1] 1 lone_registry 1 lone_node)
    as (st1 & Hg & Hdrop & _ & _ & Hlast & _).
  - apply (after_wf lone_calls); vm_compute; reflexivity.
  - vm_compute. reflexivity.
  - vm_compute. reflexivity.
  - exists st1. split; [exact Hg|]. split; [|exact Hdrop].
    apply Hlast; [vm_compute; reflexivity..|]. eexists. vm_compute. reflexivity.
Defined.

(** An [Rc] of which [RelRc::from] made a [RelRc], dropped last, does not run the
    [drop] of [RelRc]: the node is gone, and its id stays in the registry. *)
Example bare_rc_keeps_id :
  ∃ st' R, Rc_drop 1 lone = Ok st' ∧ node st' 1 = None ∧ registry_at st' 1 = Some R ∧
    Registry_get_id R 1 = Some 1.
Proof. eexists _, _. repeat split; vm_compute; reflexivity. Qed.

Definition chain_dropped : store nat nat :=
  match drop_refs [NodeStrong 3] (w_store chain) with Ok st => st | Err _ => w_store chain end.

(** Dropping node 3 takes node 2 with it, and so its id in registry 1. *)
Lemma drop_frees_ids_witness :
  Registry_get_id (default Registry_new (registry_at chain_dropped 1)) 2 = None.
Proof.
  destruct (drop_frees_ids (w_store chain) [NodeStrong 3] [NodeWeak 2; RegStrong 1] chain_dropped 1
    (default Registry_new (registry_at chain_dropped 1))) as [Hfreed _].
  - apply chain_handles_wf.
  - vm_compute. reflexivity.
  - vm_compute. reflexivity.
  - apply (Hfreed 2 (chain_node 2)); vm_compute; reflexivity.
Defined.

Lemma try_register_in_outcomes_witness :
  ∃ o st', RelRc_try_register_in 3 1 (w_store chain) = Ok (o, st') ∧ is_Some o.
Proof.
  destruct (try_register_in_outcomes (w_store chain) chain_handles 3 1 (chain_node 3) chain_registry
    chain_handles_wf) as (o & st' & Heq & _ & Ho & _).
  - vm_compute. reflexivity.
  - exact chain_registry_at.
  - exists o, st'. split; [exact Heq|]. apply Ho. left. vm_compute. reflexivity.
Defined.

(** Node 1 is registered in registry 1, which is then dropped. *)
Definition orphan_calls : list (call nat nat) :=
  [ CallNew 10%nat; CallNewRegistry; CallNewRegistry; CallRegister 1 1; CallDrop (RegStrong 1) ].
Definition orphan : world nat nat := after orphan_calls.

Lemma orphaned_node_unregistrable_witness :
  RelRc_registry 1 (w_store orphan) = Ok (None, w_store orphan) ∧
  ∃ st', RelRc_try_register_in 1 2 (w_store orphan) = Ok (None, st').
Proof.
  apply (orphaned_node_unregistrable (w_store orphan) [RegStrong 2; NodeStrong 1] 1
    (default (InnerData_new 0%nat) (node (w_store orphan) 1)) 1 2
    (default Registry_new (registry_at (w_store orphan) 2))).
  - apply after_wf; vm_compute; reflexivity.
  - vm_compute. reflexivity.
  - vm_compute. reflexivity.
  - vm_compute. reflexivity.
  - vm_compute. reflexivity.
Defined.
