(* ===== verification/HistoryProps.v ===== *)
(** * Properties: history graphs *)

From S2P Require Import Prelude Slotmap Store StoreFacts Rc Registry Drop DropFacts RegistryOps Edge Node NodeFacts RegistryFacts Ancestors History HistoryFacts Adjacency Insertion InsertAncestors Client ClientFacts Model Demo.

Section history_props.
Context {N E : Type} {S : SlotMapSig} {SLaws : SlotMapLaws S} {A : Allocator}.
Implicit Types (st : store N E) (p q x y : addr) (ow : list ref) (d : InnerData N E).
Implicit Types (hg : HistoryGraph) (id k m : NodeId) (e : EdgeId) (edge : InnerEdgeData E).

(** In a history graph [get_node_id] is the inverse of [get_node], and
    [contains] holds exactly of the nodes that [get_node] can return. *)
Lemma graph_ids_inverse st ow hg p :
  wf st (hg_owners hg ++ ow) → hg_ok st hg →
  ∃ o b, HistoryGraph_get_node_id hg p st = Ok o ∧ HistoryGraph_contains hg p st = Ok b ∧
    (∀ k, o = Some k ↔ HistoryGraph_get_node hg k = Some p) ∧
    (b = true ↔ ∃ k, HistoryGraph_get_node hg k = Some p).
Proof.
  intros Hw Hok. destruct (get_node_id_spec st _ hg p Hw Hok) as (o & Ho & Hk).
  destruct (contains_spec st _ hg p Hw Hok) as (b & Hb & Hbk). by exists o, b.
Qed.

(** [get_edge], [source] and [target] agree: an edge id names an edge
    exactly when its target is in the graph, its index is one of the target's
    incoming edges and the source of that edge is in the graph; [source] is then
    the id of that source and [target] the target of the id. *)
Lemma edge_endpoints st ow hg e :
  wf st (hg_owners hg ++ ow) → hg_ok st hg →
  ∃ o s t, HistoryGraph_get_edge hg e st = Ok o ∧ HistoryGraph_source hg e st = Ok s ∧
    HistoryGraph_target hg e st = Ok t ∧
    (∀ edge, o = Some edge ↔ graph_edge st hg e edge) ∧
    (∀ edge, o = Some edge → ∃ k, s = Some k ∧ HistoryGraph_get_node hg k = Some (ie_source edge)) ∧
    (o = None → s = None) ∧ t = (if o then Some (eid_target e) else None).
Proof.
  intros Hw Hok. destruct (get_edge_spec st ow hg e Hw Hok) as (o & Ho & Ho').
  destruct (source_spec st ow hg e Hw Hok) as (s & Hs & Hs').
  destruct (target_spec st ow hg e Hw Hok) as (t & Ht & Ht').
  exists o, s, t. split_and!; try done.
  - intros edge Hedge. apply Ho' in Hedge as He. pose proof He as (q & d & _ & _ & _ & k & Hk).
    exists k. split; [|done]. apply Hs'. by exists edge.
  - intros ->. destruct s as [k|]; [exfalso|done].
    destruct (proj1 (Hs' k) eq_refl) as (edge & He%Ho' & _). done.
  - destruct o as [edge|].
    + apply Ht'. split; [done|]. exists edge. by apply Ho'.
    + destruct t as [k|]; [exfalso|done]. destruct (proj1 (Ht' k) eq_refl) as (_ & edge & He%Ho'). done.
Qed.

(** C22: The edges of a history graph: [incoming_edges] lists those with the given
    target, by increasing index; [outgoing_edges] of a node of the graph lists those
    with that source, each once.  Edges to nodes outside the graph are left out, and
    the store only forgets edges to dead nodes. *)
Theorem graph_edges_exact st ow hg id :
  wf st (hg_owners hg ++ ow) → hg_ok st hg →
  (∃ l, HistoryGraph_incoming_edges hg id st = Ok l ∧
     StronglySorted (λ e f, eid_index e < eid_index f) l ∧
     ∀ e, e ∈ l ↔ eid_target e = id ∧ ∃ edge, graph_edge st hg e edge) ∧
  (∀ p, HistoryGraph_get_node hg id = Some p →
     ∃ l st', HistoryGraph_outgoing_edges hg id st = Ok (l, st') ∧
       wf st' (hg_owners hg ++ ow) ∧ hg_ok st' hg ∧ NoDup l ∧
       (∀ e, e ∈ l ↔ ∃ edge, graph_edge st hg e edge ∧ ie_source edge = p) ∧
       (∀ e edge, graph_edge st' hg e edge ↔ graph_edge st hg e edge)).
Proof.
  intros Hw Hok. split; [by eapply incoming_edges_spec|]. intros p Hid.
  destruct (hg_node_live _ _ _ _ _ Hw Hid) as [d Hd].
  destruct (outgoing_edges_spec st ow hg id p d Hw Hok Hid Hd)
    as (l & st' & Heq & Hw' & Hn & HR & Hnd & Hl).
  exists l, st'. split_and!; try done.
  - by eapply hg_ok_ext.
  - intros e edge. by eapply graph_edge_pruned.
Qed.

(** [children] and [parents] are converse to each other. *)
Lemma children_converse_parents st ow hg k m p ms ks st' :
  wf st (hg_owners hg ++ ow) → hg_ok st hg → HistoryGraph_get_node hg k = Some p →
  HistoryGraph_children hg k st = Ok (ms, st') → HistoryGraph_parents hg m st = Ok ks →
  m ∈ ms ↔ k ∈ ks.
Proof. apply children_parents_dual. Qed.

(** C20: [HistoryGraph::insert_node] returns the existing id of a node that is
    in the graph; stores a node that may be registered under a new id of the
    graph; and refuses a node that belongs to another registry, dropping the
    handle.  The graph stays consistent with its registry in all cases. *)
Theorem insert_node_outcomes st ow hg p d :
  wf st (NodeStrong p :: hg_owners hg ++ ow) → hg_ok st hg → node st p = Some d →
  ∃ o hg' st', HistoryGraph_insert_node hg p st = Ok (o, hg', st') ∧
    wf st' (hg_owners hg' ++ ow) ∧ hg_ok st' hg' ∧
    ((∃ k, o = Some k ∧ HistoryGraph_get_node hg k = Some p ∧ hg' = hg) ∨
     (¬ in_graph hg p ∧ (nd_registry d = None ∨ nd_registry d = Some (hg_registry hg)) ∧
      ∃ k, o = Some k ∧ HistoryGraph_get_node hg k = None ∧
        ∀ j, HistoryGraph_get_node hg' j =
             if decide (j = k) then Some p else HistoryGraph_get_node hg j) ∨
     (¬ in_graph hg p ∧ (∃ h, nd_registry d = Some h ∧ h ≠ hg_registry hg) ∧
      o = None ∧ hg' = hg)).
Proof.
  intros Hw Hok Hd. destruct (get_node_id_spec st _ hg p Hw Hok) as ([k|] & _ & Ho).
  - assert (sec_get k (hg_nodes hg) = Some p) as Hk by by apply Ho.
    destruct (insert_node_known _ _ hg p k Hw Hok Hk) as (st' & Heq & Hw' & Hv).
    exists (Some k), hg, st'. split_and!; try done; [by eapply hg_ok_same_views|].
    left. by exists k.
  - assert (¬ in_graph hg p) as Hni by (intros [k Hk]; by apply Ho in Hk).
    destruct (registrable_dec_or _ p (hg_registry hg) d Hd) as [Hreg|(h & Hh & Hne)].
    + destruct (insert_node_new _ _ hg p Hw Hok Hni Hreg)
        as (id & hg' & st' & Heq & Hw' & Hok' & _ & Hfresh & Hget & _).
      exists (Some id), hg', st'. split_and!; try done. right. left.
      destruct Hreg as (d' & ? & ?). simplify_eq. split_and!; try done. by exists id.
    + destruct (insert_node_foreign _ _ hg p d h Hw Hok Hni Hd Hh Hne) as (st' & Heq & Hw' & Hok' & _).
      exists None, hg, st'. split_and!; try done. right. right. split_and!; try done. by exists h.
Qed.

(** C14: [HistoryGraph::insert_ancestors] terminates on every history.  It
    either inserts the node and exactly the ancestors that are reached through
    nodes missing from the graph, or panics because one of those is registered
    elsewhere. *)
Theorem insert_ancestors_outcomes st ow hg p :
  wf st (NodeStrong p :: hg_owners hg ++ ow) → hg_ok st hg →
  (∃ id hg' st', HistoryGraph_insert_ancestors hg p st = Ok (id, hg', st') ∧
     wf st' (hg_owners hg' ++ ow) ∧ hg_ok st' hg' ∧ HistoryGraph_get_node hg' id = Some p ∧
     (∀ k x, HistoryGraph_get_node hg k = Some x → HistoryGraph_get_node hg' k = Some x) ∧
     (∀ x, in_graph hg' x ↔ in_graph hg x ∨ missing st hg x p)) ∨
  (HistoryGraph_insert_ancestors hg p st = Err (Panic "node not registered") ∧
     ∃ x d h, missing st hg x p ∧ ¬ in_graph hg x ∧ node st x = Some d ∧
       nd_registry d = Some h ∧ h ≠ hg_registry hg).
Proof.
  intros Hw Hok. destruct (owner_live _ _ p Hw) as [dp Hdp]; [left|].
  destruct (HistoryGraph_insert_ancestors_outcome hg p st ow Hw Hok)
    as [(id & hg' & st' & Heq & Hw' & Hi & Hid & Hpar)|[Heq (x & Hx & Hnx & Hr)]].
  - left. exists id, hg', st'. split_and!; try done; [apply Hi..|]. intros x. split.
    + intros Hx. destruct (ins_sound _ _ _ _ _ Hi x Hx) as [?|[? _]]; auto.
    + intros [Hx|Hx]; [by eapply ins_mono_in|]. eapply inserting_complete; try done. by exists id.
  - right. split; [done|]. assert (ancestor_of st x p) as Hanc.
    { eapply rtc_subrel; [|exact Hx]. by intros ? ? [? _]. }
    destruct (ancestor_live _ _ _ _ _ Hw Hdp Hanc) as [d Hd].
    destruct (registrable_dec_or _ x (hg_registry hg) d Hd) as [?|(h & ? & ?)]; [done|].
    by exists x, d, h.
Qed.

(** On a graph that contains the parents of its nodes, [insert_ancestors]
    inserts all ancestors of the node, and the result contains the parents of
    its nodes again. *)
Lemma insert_ancestors_closed st ow hg p id hg' st' :
  wf st (NodeStrong p :: hg_owners hg ++ ow) → hg_ok st hg →
  (∀ x y, in_graph hg x → parent_of st y x → in_graph hg y) →
  HistoryGraph_insert_ancestors hg p st = Ok (id, hg', st') →
  (∀ x, ancestor_of st x p → in_graph hg' x) ∧
  (∀ x y, in_graph hg' x → parent_of st' y x → in_graph hg' y).
Proof.
  intros Hw Hok Hcl Heq. destruct (HistoryGraph_insert_ancestors_outcome hg p st ow Hw Hok)
    as [(id1 & hg1 & st1 & Heq1 & Hw' & Hi & Hid & Hpar)|[Heq1 _]]; rewrite Heq in Heq1; [|done].
  injection Heq1 as <- <- <-.
  assert (∀ x y, in_graph hg' x → parent_of st y x → in_graph hg' y) as Hcl'.
  { intros x y Hx Hy. destruct (ins_closed _ _ _ _ _ Hi x y Hx Hy) as [?|?]; [|done].
    eapply ins_mono_in; [done|]. by eapply Hcl. }
  split.
  - intros x Hx. unfold ancestor_of in Hx. induction Hx as [p|x y p Hxy _ IH]; [by exists id|].
    eapply Hcl'; [|done]. by apply IH.
  - intros x y Hx Hy. eapply Hcl'; [done|].
    by apply (registered_more_parent _ _ _ y x (ins_stores _ _ _ _ _ Hi)).
Qed.
End history_props.

(** ** Instances *)

Local Open Scope positive_scope.

Lemma graph_edges_exact_witness :
  (∃ l, HistoryGraph_incoming_edges triangle_graph 1 (w_store triangle) = Ok l ∧
     ∀ e, e ∈ l ↔ eid_target e = 1 ∧ ∃ edge, graph_edge (w_store triangle) triangle_graph e edge) ∧
  ∃ l st', HistoryGraph_outgoing_edges triangle_graph 1 (w_store triangle) = Ok (l, st') ∧ NoDup l.
Proof.
  destruct (graph_edges_exact (w_store triangle) triangle_handles triangle_graph 1
    triangle_graph_wf triangle_graph_ok) as [(l & Heq & _ & Hl) Hout].
  split; [exists l; exact (conj Heq Hl)|].
  destruct (Hout 1) as (l' & st' & Heq' & _ & _ & Hnd & _); [vm_compute; reflexivity|].
  exists l', st'. exact (conj Heq' Hnd).
Defined.

Definition triangle_children : list NodeId * store nat nat :=
  match HistoryGraph_children triangle_graph 1 (w_store triangle) with
  | Ok r => r
  | Err _ => ([], w_store triangle)
  end.

(** A graph that holds node 2 but not its parent 1, and node 3, whose parent is 2. *)
Definition partial_calls : list (call nat nat) :=
  [ CallNew 10%nat; CallWithParents 20%nat [(1, 5%nat)];
    CallClone 2; CallWithParents 30%nat [(2, 7%nat)];
    CallNewRegistry; CallNewGraph 1; CallInsertNode 0 2 ].
Definition partial : world nat nat := after partial_calls.
Definition partial_graph : HistoryGraph :=
  default (mkHistoryGraph sec_new 1) (w_graphs partial !! 0%nat).

Lemma partial_runs : runs partial_calls = true.
Proof. vm_compute. reflexivity. Qed.

Lemma partial_wf : wf (w_store partial) (NodeStrong 3 :: hg_owners partial_graph ++ []).
Proof. apply (after_wf _ _ partial_runs). vm_compute. reflexivity. Qed.

Lemma partial_graph_ok : hg_ok (w_store partial) partial_graph.
Proof. apply (after_graph _ 0 _ partial_runs). vm_compute. reflexivity. Qed.

Lemma insert_node_outcomes_witness :
  ∃ o hg' st', HistoryGraph_insert_node partial_graph 3 (w_store partial) = Ok (o, hg', st') ∧
    hg_ok st' hg'.
Proof.
  destruct (insert_node_outcomes (w_store partial) [] partial_graph 3
    (default (InnerData_new 0%nat) (node (w_store partial) 3)) partial_wf partial_graph_ok)
    as (o & hg' & st' & Heq & _ & Hok & _).
  - vm_compute. reflexivity.
  - exists o, hg', st'. split; [exact Heq|exact Hok].
Defined.

Lemma insert_ancestors_outcomes_witness :
  (∃ id hg' st', HistoryGraph_insert_ancestors partial_graph 3 (w_store partial) = Ok (id, hg', st') ∧
     wf st' (hg_owners hg' ++ []) ∧ hg_ok st' hg' ∧ HistoryGraph_get_node hg' id = Some 3 ∧
     (∀ k x, HistoryGraph_get_node partial_graph k = Some x → HistoryGraph_get_node hg' k = Some x) ∧
     (∀ x, in_graph hg' x ↔ in_graph partial_graph x ∨ missing (w_store partial) partial_graph x 3)) ∨
  (HistoryGraph_insert_ancestors partial_graph 3 (w_store partial) = Err (Panic "node not registered") ∧
     ∃ x d h, missing (w_store partial) partial_graph x 3 ∧ ¬ in_graph partial_graph x ∧
       node (w_store partial) x = Some d ∧ nd_registry d = Some h ∧ h ≠ hg_registry partial_graph).
Proof.
  apply (insert_ancestors_outcomes (w_store partial) [] partial_graph 3 partial_wf partial_graph_ok).
Defined.

Definition partial_inserted : NodeId * HistoryGraph * store nat nat :=
  match HistoryGraph_insert_ancestors partial_graph 3 (w_store partial) with
  | Ok r => r
  | Err _ => (1, partial_graph, w_store partial)
  end.

(** On other graphs an ancestor may stay out: after [insert_ancestors] of
    node 3 on a graph that holds its parent 2 but not its grandparent 1, the graph
    holds 2 and 3 only. *)
Lemma insert_ancestors_misses_grandparent :
  HistoryGraph_insert_ancestors partial_graph 3 (w_store partial) = Ok partial_inserted ∧
  sec_values (hg_nodes partial_inserted.1.2) = [3; 2] ∧ ancestor_of (w_store partial) 1 3.
Proof.
  split; [vm_compute; reflexivity|]. split; [vm_compute; reflexivity|].
  apply (rtc_l _ 1 2 3); [|apply rtc_once].
  - apply (parent_of_edge _ _ (default (InnerData_new 0%nat) (node (w_store partial) 2)) 0
      (mkInnerEdgeData 5%nat 1 2)); vm_compute; reflexivity.
  - apply (parent_of_edge _ _ (default (InnerData_new 0%nat) (node (w_store partial) 3)) 0
      (mkInnerEdgeData 7%nat 2 3)); vm_compute; reflexivity.
Qed.

(** The history of node 3 is inserted into an empty graph. *)
Definition empty_graph_calls : list (call nat nat) := chain_calls ++ [CallNewGraph 1].
Definition before_insert : world nat nat := after empty_graph_calls.
Definition empty_graph : HistoryGraph :=
  default (mkHistoryGraph sec_new 1) (w_graphs before_insert !! 0%nat).
Definition after_insert : NodeId * HistoryGraph * store nat nat :=
  match HistoryGraph_insert_ancestors empty_graph 3 (w_store before_insert) with
  | Ok r => r
  | Err _ => (1, empty_graph, w_store before_insert)
  end.

Lemma empty_graph_runs : runs empty_graph_calls = true.
Proof. vm_compute. reflexivity. Qed.

