(* ===== verification/PetgraphProps.v ===== *)
(** * Properties: the [petgraph] traits *)

From S2P Require Import Prelude Slotmap Store StoreFacts Rc Registry Drop DropFacts RegistryOps Edge Node NodeFacts RegistryFacts Ancestors History HistoryFacts Adjacency Petgraph Insertion InsertAncestors Client ClientFacts Model Demo.

Section petgraph_props.
Context {N E : Type} {S : SlotMapSig} {SLaws : SlotMapLaws S} {A : Allocator}.
Implicit Types (st : store N E) (p q : addr) (ow : list ref) (hg : HistoryGraph) (k m : NodeId).

(** [neighbors_directed] never panics, and the two directions are converse:
    [m] is an outgoing neighbor of [k] exactly when [k] is an incoming neighbor of
    [m]. *)
Lemma neighbors_converse st ow hg k m p :
  wf st (hg_owners hg ++ ow) → hg_ok st hg → HistoryGraph_get_node hg k = Some p →
  ∃ ms ks st', neighbors hg k st = Ok (ms, st') ∧ wf st' (hg_owners hg ++ ow) ∧
    neighbors_directed hg m Incoming st = Ok (ks, st) ∧ (m ∈ ms ↔ k ∈ ks).
Proof.
  intros Hw Hok Hk. destruct (outgoing_neighbors_spec st ow hg k Hw Hok) as (es & st' & Hms & Hw' & _ & _ & Hes).
  destruct (incoming_neighbors_spec st ow hg m Hw Hok) as (fs & ks & Hks & _ & Hfs & Hf).
  exists (eid_target <$> es), ks, st'. split_and!; [done..|]. rewrite list_elem_of_fmap. split.
  - intros (e & -> & (p' & edge & Hp' & Hedge & Hsrc)%Hes).
    destruct (Forall2_elem_l _ _ _ e Hf) as (k' & Hk' & edge' & Hedge' & Hs'); [by apply Hfs; eauto|].
    assert (k' = k) as ->; [|done]. apply (hg_ok_inj st _ hg k' k p Hw Hok); [|done].
    rewrite (graph_edge_fun _ _ _ _ _ Hedge' Hedge) in Hs'. unfold HistoryGraph_get_node in Hk. congruence.
  - intros (e & [<- _]%Hfs & edge & Hedge & Hs)%(Forall2_elem_r _ _ _ _ Hf).
    exists e. split; [done|]. apply Hes. by eauto 10.
Qed.

(** C33: The graph traits of petgraph do not panic on a consistent graph and show its
    edges.  [edges_directed] gives a reference to every edge at a node, once, in
    either direction; [neighbors] gives the targets of the outgoing ones, in the same
    order, and its converse is [neighbors_directed] against the edges;
    [edge_references] yields every edge of the graph once, and the methods of the
    references return the two ends of the edge and its value. *)
Theorem petgraph_traits_exact st ow hg :
  wf st (hg_owners hg ++ ow) → hg_ok st hg →
  (∀ k d, ∃ es st', edges_directed hg k d st = Ok ((λ e, EdgeRef_new e hg) <$> es, st') ∧
     wf st' (hg_owners hg ++ ow) ∧ NoDup es ∧
     (∀ e, e ∈ es ↔ match d with
        | Outgoing => ∃ p edge, HistoryGraph_get_node hg k = Some p ∧ graph_edge st hg e edge ∧ ie_source edge = p
        | Incoming => eid_target e = k ∧ ∃ edge, graph_edge st hg e edge
        end) ∧
     (d = Outgoing → neighbors hg k st = Ok (eid_target <$> es, st'))) ∧
  (∀ k m p, HistoryGraph_get_node hg k = Some p →
     ∃ ms ks st', neighbors hg k st = Ok (ms, st') ∧ neighbors_directed hg m Incoming st = Ok (ks, st) ∧
       (m ∈ ms ↔ k ∈ ks)) ∧
  ∃ l, edge_references hg st = Ok l ∧ NoDup l ∧
    (∀ e, EdgeRef_new e hg ∈ l ↔ ∃ edge, graph_edge st hg e edge) ∧
    ∀ r, r ∈ l → ∃ edge k, graph_edge st hg (EdgeRef_id r) edge ∧
      EdgeRef_weight r st = Ok (ie_value edge) ∧ EdgeRef_target r st = Ok (eid_target (EdgeRef_id r)) ∧
      EdgeRef_source r st = Ok k ∧ HistoryGraph_get_node hg k = Some (ie_source edge).
Proof.
  intros Hw Hok. split_and!.
  - intros k d. destruct (edges_directed_spec st ow hg k d Hw Hok) as (es & st' & Heq & Hw' & _ & Hnd & Hes).
    exists es, st'. split_and!; [done..|]. intros ->. revert Heq. unfold neighbors. simpl.
    destruct (HistoryGraph_outgoing_edges hg k st) as [[l s]|]; [|done]. simpl. intros [= Hl ->].
    assert (Inj (=) (=) (λ e, EdgeRef_new e hg)) by (by intros ?? [= ?]).
    by apply (inj (fmap (λ e, EdgeRef_new e hg))) in Hl as ->.
  - intros k m p Hk. destruct (neighbors_converse st ow hg k m p Hw Hok Hk) as (ms & ks & st' & ? & _ & ? & ?).
    by exists ms, ks, st'.
  - destruct (edge_references_spec st ow hg Hw Hok) as (l & Heq & Hnd & Hl).
    exists l. split_and!; [done..| |].
    + intros e. rewrite Hl. simpl. naive_solver.
    + intros r [Hr [edge He]]%Hl. destruct (EdgeRef_methods st ow hg (er_id r) edge Hw Hok He)
        as (_ & Hwt & Ht & k & Hs & Hk).
      exists edge, k. destruct r as [e h]. simpl in *. subst h. done.
Qed.
End petgraph_props.

(** ** Instances *)

Local Open Scope positive_scope.

Lemma petgraph_traits_exact_witness :
  ∃ l, edge_references triangle_graph (w_store triangle) = Ok l ∧ NoDup l.
Proof.
  destruct (petgraph_traits_exact (w_store triangle) triangle_handles triangle_graph
    triangle_graph_wf triangle_graph_ok) as (_ & _ & l & Heq & Hnd & _).
  exists l. split; [exact Heq|exact Hnd].
Defined.
