(* ===== verification/SerializationProps.v ===== *)
(** * Properties: serialisation *)

From S2P Require Import Prelude Slotmap Store StoreFacts Rc Registry Drop DropFacts RegistryOps Edge Node NodeFacts RegistryFacts Ancestors History HistoryFacts Insertion InsertAncestors Serialization Deserialize Serialize GraphSerial GraphDeserial RoundTrip Client ClientFacts Model Demo.

Section serialization_props.
Context {N E : Type} {S : SlotMapSig} {SLaws : SlotMapLaws S} {A : Allocator}.
Implicit Types (st : store N E) (p q g : addr) (ow : list ref) (hg : HistoryGraph) (k : NodeId).
Implicit Types (R : Registry) (nodes : SecondaryMap addr).

(** C9: A node serialised with an empty registry, none of whose ancestors is
    registered, can be deserialised in any store, and the result has the same
    history: the same values, and for every node the same parents in the same
    order with the same edge values.  Nothing that existed in that store
    changes. *)
Theorem relrc_round_trip st ow p g R0 :
  wf st (RegStrong g :: ow) → NodeStrong p ∈ ow →
  registry_at st g = Some R0 → (∀ k, sm_get k (reg_nodes R0) = None) →
  (∀ x d, ancestor_of st x p → node st x = Some d → nd_registry d = None) →
  ∃ ser st', RelRc_to_serialized p g st = Ok (ser, st') ∧ wf st' ow ∧
    ∀ st1 ow1, wf st1 ow1 →
      ∃ p' st2, RelRc_from_serialized ser st1 = Ok (p', st2) ∧ wf st2 (NodeStrong p' :: ow1) ∧
        same_history st p st2 p' ∧ (∀ q d, node st1 q = Some d → node st2 q = Some d).
Proof.
  intros Hw Hp HR0 Hempty Hnone.
  destruct (RelRc_to_serialized_spec st ow p g R0 Hw Hp HR0 Hempty Hnone)
    as (ser & st' & hg & sth & Heq & Hw' & _ & Hm & Hwh & Hdesc & Hid).
  exists ser, st'. split_and!; [done..|]. intros st1 ow1 Hw1.
  destruct (RelRc_from_serialized_spec sth hg ser p st1 ow1 _ Hwh Hdesc Hid Hw1)
    as (p' & st2 & Heq2 & Hw2 & Hsame & Hold).
  exists p', st2. split_and!; try done. eapply same_history_left; [|exact Hsame].
  intros x d Hd. destruct (rm_live _ _ _ Hm x) as [d0 Hd0]; [by exists d|]. exists d0. split; [done|].
  destruct (rm_node _ _ _ Hm _ _ Hd0) as [?|[_ ?]]; by simplify_eq/=.
Qed.

(** C16: A history graph that contains the parents of its nodes, over a registry
    all of whose nodes are alive with registered parents, is serialised without
    changing any node or registry; deserialised in any store it has the same node
    ids, each standing for a node with the same history. *)
Theorem graph_round_trip st ow hg R :
  wf st (hg_owners hg ++ ow) → hg_ok st hg → registry_at st (hg_registry hg) = Some R →
  graph_closed st hg → serializable st R →
  ∃ ser st', HistoryGraph_to_serialized hg st = Ok (ser, st') ∧
    wf st' (hg_owners hg ++ ow) ∧ same_views st st' ∧
    ∀ st1 ow1, wf st1 ow1 →
      ∃ hg' st2, HistoryGraph_from_serialized ser st1 = Ok (hg', st2) ∧
        wf st2 (hg_owners hg' ++ ow1) ∧ hg_ok st2 hg' ∧
        (∀ k, is_Some (HistoryGraph_get_node hg' k) ↔ is_Some (HistoryGraph_get_node hg k)) ∧
        (∀ k p p', HistoryGraph_get_node hg k = Some p → HistoryGraph_get_node hg' k = Some p' →
           same_history st p st2 p').
Proof.
  intros Hw (R' & HR' & Hin) HR Hcl Hser. assert (R' = R) as -> by congruence. clear HR'.
  destruct (HistoryGraph_to_serialized_closed st ow hg R Hw HR Hin Hcl Hser)
    as (ser & st' & Heq & Hw' & Hv & Hdesc).
  exists ser, st'. split_and!; [done..|]. intros st1 ow1 Hw1.
  destruct (HistoryGraph_from_serialized_spec ser st1 ow1 Hw1) as (nodes & hg' & st2 & Heq2 & Hw2 & Hok2 & Hrb).
  - exact (describes_good st _ hg ser Hw Hdesc).
  - intros k [p Hp]%(proj1 Hdesc). pose proof (proj2 Hdesc k) as Hd. rewrite Hp in Hd.
    destruct Hd as (s & _ & ? & _). by exists s.
  - exists hg', st2. split_and!; try done.
    + intros k. unfold HistoryGraph_get_node. split.
      * intros [p [Hk _]%(rb_graph _ _ _ _ _ Hrb)]. by apply (proj1 Hdesc).
      * intros Hk. assert (k ∈ shg_nodes ser) as Hks by by apply (proj1 Hdesc).
        destruct Hk as [p Hp]. pose proof (proj2 Hdesc k) as Hd. rewrite Hp in Hd. destruct Hd as (s & _ & Hs & _).
        destruct (proj2 (rb_dom _ _ _ _ _ Hrb k)) as [p' Hp']; [by exists s|]. exists p'.
        by apply (rb_graph _ _ _ _ _ Hrb).
    + intros k p p' Hk Hk'. apply (rb_graph _ _ _ _ _ Hrb) in Hk' as Hn.
      destruct (hg_node_live _ _ _ _ _ Hw2 Hk') as [d Hd].
      eapply (rebuilt_same_history st hg ser st1 nodes hg' st2); [done|done|exact Hw2|exact Hk|apply Hn|by exists d].
Qed.

(** C15: [Registry::from_serialized] terminates on every input.  It either
    rebuilds every serialised node, fresh and under its id, with the value and
    the parents the input describes, leaving everything else as it was; or it
    panics, and does so exactly on inputs that name an unknown parent or contain
    a cycle. *)
Theorem deserialize_outcomes (ser : SerializedRegistry N E) st ow :
  wf st ow →
  (∃ R nodes st', Registry_from_serialized ser st = Ok (R, nodes, st') ∧
     ¬ ser_bad (sr_nodes ser) ∧ wf st' (node_owners nodes ++ registry_refs R ++ ow) ∧ registry_ok R ∧
     (∀ k, sm_get k (reg_nodes R) = sec_get k nodes) ∧
     (∀ k, match sm_get k (sr_nodes ser) with
           | Some s => ∃ p d, sec_get k nodes = Some p ∧ node st p = None ∧
                         node st' p = Some d ∧ decodes nodes s d
           | None => sec_get k nodes = None
           end) ∧
     (∀ q d, node st q = Some d → node st' q = Some d)) ∨
  (Registry_from_serialized ser st = Err (Panic "invalid node_id") ∧ ser_bad (sr_nodes ser)).
Proof.
  intros Hw. destruct (Registry_from_serialized_outcome ser st ow Hw)
    as [(R & nodes & st' & Heq & Hd & Hok & Hsame)|?]; [left|by right].
  exists R, nodes, st'. split_and!; try done; [by eapply decoded_good|apply Hd| |apply Hd].
  intros k. destruct (sm_get k (sr_nodes ser)) as [s|] eqn:Hs.
  - destruct (proj2 (dec_dom _ _ _ _ _ Hd k)) as [p Hp]; [by exists s|].
    destruct (dec_node _ _ _ _ _ Hd k p Hp) as (?%fresh_node & s' & d & ? & ? & _ & ?). simplify_eq. eauto 10.
  - destruct (sec_get k nodes) as [p|] eqn:Hp; [exfalso|done].
    destruct (proj1 (dec_dom _ _ _ _ _ Hd k)); [by exists p|congruence].
Qed.

(** C30: Serialising a deserialised registry gives back what was deserialised, and
    leaves the store as it was. *)
Theorem registry_round_trip (ser : SerializedRegistry N E) st ow R nodes st' :
  wf st ow → Registry_from_serialized ser st = Ok (R, nodes, st') →
  ∃ ser', Registry_to_serialized R st' = Ok (ser', st') ∧
    ∀ k, sm_get k (sr_nodes ser') = sm_get k (sr_nodes ser).
Proof.
  intros Hw Heq. destruct (Registry_from_serialized_outcome ser st ow Hw)
    as [(R1 & nodes1 & st1 & Heq1 & Hd & Hok & Hsame)|[Heq1 _]]; rewrite Heq in Heq1; [|done].
  injection Heq1 as <- <- <-. by eapply Registry_reserialize.
Qed.

(** C31: [Registry::to_serialized] succeeds exactly when all registered nodes are
    alive and their parents are registered, and then describes every registered
    node: its value, and its parents in order by id with the edge values, and
    leaves the store exactly as it was; it panics otherwise.  [HistoryGraph::to_serialized] of a graph over the registry
    gives ids to what [all_ancestors] yields from its nodes.  It succeeds exactly
    when all nodes that have or get an id are alive and so are, with ids too, their
    parents; then it changes nothing visible and describes the nodes yielded.  It
    panics otherwise, be it for an entry of the registry that has nothing to do
    with the graph. *)
Theorem to_serialized_outcomes st ow g R :
  wf st ow → registry_at st g = Some R →
  ((serializable st R ∧ ∃ ser, Registry_to_serialized R st = Ok (ser, st) ∧ encoded st R ser) ∨
   (¬ serializable st R ∧ Registry_to_serialized R st = Err (Panic "valid node"))) ∧
  ∀ hg ow', ow = hg_owners hg ++ ow' → hg_ok st hg → hg_registry hg = g →
    (¬ blocked st hg R ∧ ∃ ser st' R', HistoryGraph_to_serialized hg st = Ok (ser, st') ∧
       wf st' ow ∧ same_views st st' ∧ written st hg R ser R') ∨
    (blocked st hg R ∧ HistoryGraph_to_serialized hg st = Err (Panic "valid node")).
Proof.
  intros Hw HR. split.
  - destruct (Registry_to_serialized_outcome st ow R Hw) as [(ser & ? & ? & ?)|[? ?]].
    + intros k p Hk. by eapply registered_alloc.
    + left. split; [done|]. by exists ser.
    + right. split; [by apply unserializable_not|done].
  - intros hg ow' -> (R1 & HR1 & Hin) <-. assert (R1 = R) as -> by congruence.
    destruct (HistoryGraph_to_serialized_outcome st ow' hg R Hw HR Hin)
      as [(ser & st' & R' & ? & ? & ? & Hwr)|[? ?]]; [left|by right].
    split; [by eapply written_not_blocked|]. by exists ser, st', R'.
Qed.

(** C35: A node that [RelRc::from_serialized] returned, from whatever input and in
    whatever store, can not be serialised again: [to_serialized] panics with every
    registry that the caller holds and with a fresh one, because the node stays
    bound to the registry that was dropped during deserialisation. *)
Theorem reserialize_panics (ser : SerializedRelRc N E) st ow p st' :
  wf st ow → RelRc_from_serialized ser st = Ok (p, st') →
  (∀ g, RegStrong g ∈ ow → RelRc_to_serialized p g st' = Err (Panic "node not registered")) ∧
  (let r := reg_alloc Registry_new st' in
   RelRc_to_serialized p r.1 r.2 = Err (Panic "node not registered")).
Proof.
  intros Hw Heq. destruct (RelRc_from_serialized_outcome ser st ow Hw)
    as [(p1 & d & h & st1 & Heq1 & Hw' & _ & _ & _ & Hd & Hh & Hdead)|(msg & Heq1 & _)];
    rewrite Heq in Heq1; [|done]. injection Heq1 as <- <-. split.
  - intros g [l Hl]%elem_of_Permutation. rewrite Hl, Permutation_swap in Hw'. by eapply to_serialized_orphan.
  - destruct (reg_alloc_wf st' (NodeStrong p :: ow) Registry_new) as (g & st2 & Hal & Hw2 & Hg & Hn & Hn' & HR).
    { by rewrite Registry_new_refs. } { apply Registry_new_ok. }
    rewrite Hal. simpl. eapply to_serialized_orphan; [exact Hw2|by rewrite Hn'|exact Hh|].
    rewrite HR, decide_False; [done|]. intros ->.
    destruct (node_registry_alloc _ _ _ _ _ Hw' Hd Hh) as [b Hb]. congruence.
Qed.

(** C36: When the output of [HistoryGraph::to_serialized] can be read back.  Its
    nodes are what [all_ancestors] yields from the nodes of the graph, which
    may stop early.  If they contain the parents of all of them,
    [HistoryGraph::from_serialized] rebuilds the graph in any store; otherwise some
    parent has been left out, and [from_serialized] panics in any store. *)
Theorem serialized_graph_readable_iff st ow hg (ser : SerializedHistoryGraph N E) st' :
  wf st (hg_owners hg ++ ow) → hg_ok st hg → HistoryGraph_to_serialized hg st = Ok (ser, st') →
  ∀ st1 ow1, wf st1 ow1 →
    ((∀ x y, yielded st hg x → parent_of st y x → yielded st hg y) ∧
     ∃ hg' st2, HistoryGraph_from_serialized ser st1 = Ok (hg', st2)) ∨
    ((∃ x y, yielded st hg x ∧ parent_of st y x ∧ ¬ yielded st hg y) ∧
     HistoryGraph_from_serialized ser st1 = Err (Panic "invalid node_id")).
Proof.
  intros Hw (R & HR & Hin) Heq st1 ow1 Hw1.
  destruct (HistoryGraph_to_serialized_outcome st ow hg R Hw HR Hin)
    as [(ser1 & st2 & R' & Heq1 & _ & _ & Hwr)|[Heq1 _]]; rewrite Heq in Heq1; [|done]. injection Heq1 as <- <-.
  destruct (HistoryGraph_from_serialized_outcome ser st1 ow1 Hw1)
    as [(R1 & nodes & st3 & st4 & hg' & st5 & Hok & Hgood & _)|(msg & Herr & [Hbad|Hunk])].
  - left. split; [|by exists hg', st5]. intros x y Hx Hyx.
    destruct (written_left_out_dec st hg R ser R' x y Hwr Hx Hyx) as [?|Hny]; [done|].
    destruct Hgood. apply (written_bad st _ hg R ser R' Hw Hwr). by exists x, y.
  - right. split; [by apply (written_bad st _ hg R ser R' Hw Hwr)|].
    unfold HistoryGraph_from_serialized.
    destruct (Registry_from_serialized_outcome (shg_registry ser) st1 ow1 Hw1)
      as [(R1 & nodes & st3 & _ & Hd & _)|[-> _]]; [|done]. by destruct (decoded_good _ _ _ _ _ Hd).
  - by destruct (written_nodes st ow hg R ser R' Hw Hin Hwr).
Qed.
End serialization_props.

(** ** Instances *)

Local Open Scope positive_scope.

(** Node 2, a child of node 1, and an empty registry. *)
Definition pair_calls : list (call nat nat) :=
  [ CallNew 10%nat; CallWithParents 20%nat [(1, 5%nat)]; CallNewRegistry ].
Definition pair_world : world nat nat := after pair_calls.
Definition pair_registry : Registry := default Registry_new (registry_at (w_store pair_world) 1).

Lemma pair_runs : runs pair_calls = true.
Proof. vm_compute. reflexivity. Qed.

Lemma pair_wf : wf (w_store pair_world) [RegStrong 1; NodeStrong 2].
Proof. apply (after_wf _ _ pair_runs). vm_compute. reflexivity. Qed.

(** No node of the store is registered. *)
Definition unregistered (st : store nat nat) : bool :=
  forallb (λ pb : addr * rcbox (InnerData nat nat),
    match rc_val pb.2 with
    | Some d => match nd_registry d with None => true | Some _ => false end
    | None => true
    end) (map_to_list (st_nodes st)).

Lemma unregistered_node st x d : unregistered st = true → node st x = Some d → nd_registry d = None.
Proof.
  intros Hu (b & Hb & Hv)%node_Some. apply elem_of_map_to_list in Hb. unfold unregistered in Hu.
  rewrite forallb_forall in Hu. specialize (Hu (x, b)). simpl in Hu. rewrite Hv in Hu.
  destruct (nd_registry d); [|done]. discriminate Hu. by apply list_elem_of_In.
Qed.

Lemma pair_unregistered : unregistered (w_store pair_world) = true.
Proof. vm_compute. reflexivity. Qed.

Lemma relrc_round_trip_witness :
  ∃ ser st', RelRc_to_serialized 2 1 (w_store pair_world) = Ok (ser, st') ∧ wf st' [NodeStrong 2] ∧
    ∀ st1 ow1, wf st1 ow1 →
      ∃ p' st2, RelRc_from_serialized ser st1 = Ok (p', st2) ∧ wf st2 (NodeStrong p' :: ow1) ∧
        same_history (w_store pair_world) 2 st2 p' ∧ (∀ q d, node st1 q = Some d → node st2 q = Some d).
Proof.
  apply (relrc_round_trip (w_store pair_world) [NodeStrong 2] 2 1 pair_registry pair_wf).
  - left.
  - vm_compute. reflexivity.
  - intros k. change (reg_nodes pair_registry) with (sm_with_key (V:=addr)). apply sm_get_with_key.
  - intros x d _. apply unregistered_node, pair_unregistered.
Defined.

(** Graphs that hold all nodes of the store, over registries of live nodes. *)
Definition holds_all (st : store nat nat) hg : bool :=
  forallb (λ pb : addr * rcbox (InnerData nat nat), bool_decide (pb.1 ∈ sec_values (hg_nodes hg)))
    (map_to_list (st_nodes st)).
Definition all_alive (st : store nat nat) (R : Registry) : bool :=
  forallb (λ kp : NodeId * addr, is_some (node st kp.2)) (sm_iter (reg_nodes R)).

Lemma holds_all_node st hg p d : holds_all st hg = true → node st p = Some d → in_graph hg p.
Proof.
  intros Ha (b & Hb & _)%node_Some. apply elem_of_map_to_list, list_elem_of_In in Hb.
  unfold holds_all in Ha. rewrite forallb_forall in Ha. specialize (Ha _ Hb). simpl in Ha.
  apply bool_decide_eq_true in Ha. by apply elem_of_sec_values in Ha.
Qed.

Lemma holds_all_closed st ow hg : wf st ow → holds_all st hg = true → graph_closed st hg.
Proof.
  intros Hw Ha x y _ (d & e & Hd & He & <-). destruct (source_live _ _ _ _ _ Hw Hd He) as [dp Hdp].
  by eapply holds_all_node.
Qed.

Lemma holds_all_serializable st ow hg R :
  wf st ow → hg_ok st hg → registry_at st (hg_registry hg) = Some R →
  holds_all st hg = true → all_alive st R = true → serializable st R.
Proof.
  intros Hw (R' & HR' & Hin) HR Ha Hl k p Hk. assert (R' = R) as -> by congruence.
  pose proof (wf_st_regs _ _ Hw _ _ HR) as Hok.
  apply sm_iter_get, list_elem_of_In in Hk. unfold all_alive in Hl. rewrite forallb_forall in Hl.
  destruct (is_some_true _ (Hl _ Hk)) as [d Hd]. simpl in Hd. exists d. split; [done|].
  intros e He. destruct (source_live _ _ _ _ _ Hw Hd He) as [dp Hdp].
  destruct (holds_all_node _ _ _ _ Ha Hdp) as [j Hj]. exists j. by apply Hok, Hin.
Qed.

Definition triangle_registry : Registry := default Registry_new (registry_at (w_store triangle) 1).

Lemma triangle_registry_at : registry_at (w_store triangle) 1 = Some triangle_registry.
Proof. vm_compute. reflexivity. Qed.

Lemma triangle_holds_all : holds_all (w_store triangle) triangle_graph = true.
Proof. vm_compute. reflexivity. Qed.

Lemma triangle_serializable : serializable (w_store triangle) triangle_registry.
Proof.
  apply (holds_all_serializable _ _ triangle_graph triangle_registry triangle_graph_wf triangle_graph_ok).
  - exact triangle_registry_at.
  - exact triangle_holds_all.
  - vm_compute. reflexivity.
Qed.

Lemma graph_round_trip_witness :
  ∃ ser st', HistoryGraph_to_serialized triangle_graph (w_store triangle) = Ok (ser, st') ∧
    ∀ st1 ow1, wf st1 ow1 →
      ∃ hg' st2, HistoryGraph_from_serialized ser st1 = Ok (hg', st2) ∧ wf st2 (hg_owners hg' ++ ow1).
Proof.
  destruct (graph_round_trip (w_store triangle) triangle_handles triangle_graph triangle_registry
    triangle_graph_wf triangle_graph_ok triangle_registry_at
    (holds_all_closed _ _ _ triangle_graph_wf triangle_holds_all) triangle_serializable)
    as (ser & st' & Heq & _ & _ & Hde).
  exists ser, st'. split; [exact Heq|]. intros st1 ow1 Hw1.
  destruct (Hde st1 ow1 Hw1) as (hg' & st2 & Heq2 & Hw2 & _). exists hg', st2.
  split; [exact Heq2|exact Hw2].
Defined.

(** A serialised node that names itself as its parent. *)
Definition cyclic_input : SerializedRegistry nat nat :=
  mkSerializedRegistry (sm_insert (mkSerializedInnerData (S:=model_slotmap) 10%nat [(1, 5%nat)]) sm_with_key).2.

Lemma cyclic_bad : ser_bad (sr_nodes cyclic_input).
Proof.
  left. exists 1. apply tc_once. exists (mkSerializedInnerData (S:=model_slotmap) 10%nat [(1, 5%nat)]), 5%nat.
  split; [vm_compute; reflexivity|left].
Qed.

Lemma deserialize_outcomes_witness :
  Registry_from_serialized cyclic_input (w_store pair_world) = Err (Panic "invalid node_id").
Proof.
  destruct (deserialize_outcomes cyclic_input (w_store pair_world) _ pair_wf)
    as [(R & nodes & st' & _ & Hgood & _)|[Heq _]]; [destruct (Hgood cyclic_bad)|exact Heq].
Defined.

(** Two serialised nodes, the second a child of the first. *)
Definition pair_input : SerializedRegistry nat nat :=
  mkSerializedRegistry (sm_insert (mkSerializedInnerData (S:=model_slotmap) 20%nat [(1, 5%nat)])
    (sm_insert (mkSerializedInnerData (S:=model_slotmap) 10%nat []) sm_with_key).2).2.
Definition pair_rebuilt : Registry * SecondaryMap addr * store nat nat :=
  match Registry_from_serialized pair_input (w_store pair_world) with
  | Ok r => r
  | Err _ => (Registry_new, sec_new, w_store pair_world)
  end.

Lemma registry_round_trip_witness :
  ∃ ser', Registry_to_serialized pair_rebuilt.1.1 pair_rebuilt.2 = Ok (ser', pair_rebuilt.2) ∧
    ∀ k, sm_get k (sr_nodes ser') = sm_get k (sr_nodes pair_input).
Proof.
  apply (registry_round_trip pair_input (w_store pair_world) _ pair_rebuilt.1.1 pair_rebuilt.1.2
    pair_rebuilt.2 pair_wf).
  vm_compute. reflexivity.
Defined.

Lemma to_serialized_outcomes_witness :
  (∃ ser, Registry_to_serialized triangle_registry (w_store triangle) = Ok (ser, w_store triangle) ∧
     encoded (w_store triangle) triangle_registry ser) ∧
  ∃ ser st' R', HistoryGraph_to_serialized triangle_graph (w_store triangle) = Ok (ser, st') ∧
    written (w_store triangle) triangle_graph triangle_registry ser R'.
Proof.
  destruct (to_serialized_outcomes (w_store triangle) _ 1 triangle_registry triangle_graph_wf
    triangle_registry_at) as [Hreg Hgr]. split.
  - destruct Hreg as [[_ Hser]|[Hbad _]]; [exact Hser|destruct (Hbad triangle_serializable)].
  - destruct (Hgr triangle_graph triangle_handles eq_refl triangle_graph_ok eq_refl)
      as [[_ (ser & st' & R' & Heq & _ & _ & Hwr)]|[_ Herr]]; [exists ser, st', R'; exact (conj Heq Hwr)|].
    exfalso. assert (is_ok (HistoryGraph_to_serialized triangle_graph (w_store triangle)) = true) as Ho
      by (vm_compute; reflexivity).
    rewrite Herr in Ho. discriminate Ho.
Defined.

(** What is written for node 2. *)
Definition pair_written : SerializedRelRc nat nat :=
  match RelRc_to_serialized 2 1 (w_store pair_world) with
  | Ok r => r.1
  | Err _ => mkSerializedRelRc 1 (mkSerializedHistoryGraph [] (mkSerializedRegistry sm_with_key))
  end.

Lemma reserialize_panics_witness :
  ∃ p st', RelRc_from_serialized pair_written (w_store pair_world) = Ok (p, st') ∧
    RelRc_to_serialized p 1 st' = Err (Panic "node not registered").
Proof.
  destruct (RelRc_from_serialized pair_written (w_store pair_world)) as [[p st']|e] eqn:Heq.
  - exists p, st'. split; [reflexivity|].
    apply (reserialize_panics pair_written (w_store pair_world) _ p st' pair_wf Heq). left.
  - exfalso. assert (is_ok (RelRc_from_serialized pair_written (w_store pair_world)) = true) as Ho
      by (vm_compute; reflexivity).
    rewrite Heq in Ho. discriminate Ho.
Defined.

(** Node 3 with the parents [1, 1, 2] in a graph without its parents, over a
    registry that knows node 2. *)
Definition twice_calls : list (call nat nat) :=
  [ CallNew 10%nat; CallNew 20%nat; CallClone 1; CallClone 2;
    CallWithParents 30%nat [(1, 5%nat); (1, 6%nat); (2, 7%nat)];
    CallNewRegistry; CallRegister 2 1; CallNewGraph 1; CallInsertNode 0%nat 3 ].
Definition twice : world nat nat := after twice_calls.

Lemma twice_runs : runs twice_calls = true.
Proof. vm_compute. reflexivity. Qed.

Definition twice_graph : HistoryGraph := default (mkHistoryGraph sec_new 1) (w_graphs twice !! 0%nat).

Lemma twice_graph_ok : hg_ok (w_store twice) twice_graph.
Proof. apply (after_graph _ 0 _ twice_runs). vm_compute. reflexivity. Qed.

Lemma twice_graph_wf :
  wf (w_store twice) (hg_owners twice_graph ++ [NodeStrong 2]).
Proof. apply (after_wf _ _ twice_runs). vm_compute. reflexivity. Qed.

(** The graph is serialised, but a parent is left out. *)
Lemma serialized_graph_readable_iff_witness :
  ∃ ser st', HistoryGraph_to_serialized twice_graph (w_store twice) = Ok (ser, st') ∧
    (∃ x y, yielded (w_store twice) twice_graph x ∧ parent_of (w_store twice) y x ∧
       ¬ yielded (w_store twice) twice_graph y) ∧
    HistoryGraph_from_serialized ser (w_store twice) = Err (Panic "invalid node_id").
Proof.
  assert (match HistoryGraph_to_serialized twice_graph (w_store twice) with
    | Ok (ser, _) => is_ok (HistoryGraph_from_serialized ser (w_store twice))
    | Err _ => true end = false) as Hno by (vm_compute; reflexivity).
  destruct (HistoryGraph_to_serialized twice_graph (w_store twice)) as [[ser st']|e] eqn:Heq; [|discriminate Hno].
  exists ser, st'. split; [reflexivity|].
  destruct (serialized_graph_readable_iff (w_store twice) [NodeStrong 2] twice_graph ser st' twice_graph_wf
    twice_graph_ok Heq (w_store twice) _ twice_graph_wf) as [[_ (hg' & st2 & Hok)]|Hbad]; [|exact Hbad].
  exfalso. rewrite Hok in Hno. discriminate Hno.
Defined.

(** [Registry::remove] of an id that a graph uses leaves the graph with a node
    that it can find by the id but not by the pointer: inserting the node again
    files it a second time, under another id, and the graph cannot be
    serialised. *)
Definition removed_store : store nat nat :=
  match with_registry_mut 1 (λ R, Registry_remove_drop R 1) (w_store triangle) with
  | Ok r => r.2
  | Err _ => w_store triangle
  end.

Lemma remove_orphans_graph_node :
  HistoryGraph_get_node triangle_graph 1 = Some 1 ∧
  HistoryGraph_get_node_id triangle_graph 1 removed_store = Ok None ∧
  (∃ hg' st', HistoryGraph_insert_node triangle_graph 1 removed_store = Ok (Some 4, hg', st') ∧
     HistoryGraph_get_node hg' 1 = Some 1 ∧ HistoryGraph_get_node hg' 4 = Some 1) ∧
  HistoryGraph_to_serialized triangle_graph removed_store = Err (Panic "invalid node").
Proof.
  split; [vm_compute; reflexivity|]. split; [vm_compute; reflexivity|].
  split; [|vm_compute; reflexivity].
  eexists _, _. split; [vm_compute; reflexivity|]. split; vm_compute; reflexivity.
Qed.
