(* ===== verification/DetachedProps.v ===== *)
(** * Properties: detached nodes and their transfer *)

From S2P Require Import Prelude Slotmap Store StoreFacts Rc Registry Drop DropFacts RegistryOps Edge Node NodeFacts RegistryFacts Ancestors History HistoryFacts Insertion InsertAncestors Messages Detached DetachedFacts PostOrder Attach Transfer TransferFacts AttachFacts RoundTrip Delivery Client ClientFacts Model Demo.

Section detached_props.
Context {N E : Type} {S : SlotMapSig} {SLaws : SlotMapLaws S} {H : HashIdSig} {HLaws : HashIdLaws H}.
Context {M : MPISig} {MLaws : MPILaws M} {A : Allocator}.
Implicit Types (st : store N E) (p q : addr) (ow : list ref) (h : RelRcHash).

(** C24: Detaching a live node succeeds and leaves the store as it was.  The
    result describes, each by its value and the hashes and values of its incoming
    edges in order, only objects whose hash is not in [from] and that are reached
    from the node along parents without passing an object whose hash is in [from].
    It describes the node and the parents of all it describes unless their hash is
    in [from], so it can be attached wherever the objects of [from] are; and where
    no two ancestors have the same hash it describes exactly the objects that are
    reached in this way. *)
Theorem detach_describes (hash_id : store N E → addr → RelRcHash) st ow p d from :
  ignores_counts hash_id → wf st ow → node st p = Some d →
  ∃ dt st', RelRc_detach hash_id p from st = Ok (dt, st') ∧ wf st' ow ∧ same_views st st' ∧
    detaches hash_id st p from dt ∧
    ((∀ q q', ancestor_of st q p → ancestor_of st q' p → hash_id st q = hash_id st q' → q = q') →
     ∀ h data, dt_all_data dt !! h = Some data ↔
       h ∉ from ∧ ∃ q d, rtc (λ x y, parent_of st x y ∧ hash_id st y ∉ from) q p ∧
         hash_id st q = h ∧ node st q = Some d ∧ data = DetachedInnerData_from hash_id st d) ∧
    ∀ B (attach_to : gmap RelRcHash B), (∀ h, h ∈ from → is_Some (attach_to !! h)) →
      Detached_attaches_to dt attach_to = true.
Proof.
  intros Hh Hw Hd. destruct (Detached_new_spec hash_id Hh st ow p d from Hw Hd)
    as (dt & st' & Heq & ? & ? & Hdt).
  exists dt, st'. split_and!; [done..| |].
  { intros Hinj h data. by apply detaches_exact. }
  intros B attach_to Ha. apply attaches_to_true.
  intros h [Hn (k & data & Hk & Hin)]%elem_of_required_hashes. apply Ha.
  destruct (dts_closed _ _ _ _ _ Hdt k data h Hk Hin) as [[? ?]|?]; [congruence|done].
Qed.

(** A message that is sent when no other message with its tag is in flight is
    received as it was sent, and nothing else in flight is touched, except that a
    request for the hash 0 is received as [Done]. *)
Lemma message_round_trip mode mode' (msg : MPIMessage N E) (c : connection (buffer N E)) :
  mpi_receive_message mode' (MPIMessage_tag msg) c = None →
  mpi_receive_message mode' (MPIMessage_tag msg) (mpi_send_message mode msg c) =
    Some (Ok (match msg with
              | RequestRelRc h => if decide (hash_into h = 0%Z) then Done else msg
              | _ => msg
              end), c).
Proof.
  rewrite !receive_probe, mode_delivers.
  destruct (immediate_matched_probe_with_tag _ c) as [[[b t] c']|]; [done|]. intros _.
  rewrite decide_True by done.
  assert (sendable msg ∨ ∃ h, msg = RequestRelRc h ∧ hash_into h = 0%Z) as [Hs|(h & -> & Hz)].
  { destruct msg as [| | | |h|]; simpl; try (by left).
    destruct (decide (hash_into h = 0%Z)); [right; eauto|by left]. }
  - rewrite (extract_message_buffer msg Hs). destruct msg; simpl in Hs; try done.
    by rewrite decide_False.
  - unfold extract_message, MPIMessage_from_ack; simpl. by rewrite Hz.
Qed.

(** C11: Sending a live node to another process completes.  Provided that hashes do
    not depend on reference counts, that the mode of the sender is not [Async] and
    that no ancestor with another hash than the node has the hash 0, every execution of the sender and
    the receiver over connections that keep the order per tag ends, none panics
    or gets stuck on the way, and all end in the same state: both processes have
    finished, nothing is in flight, and the receiver has a description that it can
    attach.  It consists of the node and of ancestors that the receiver does not
    have, as the sender described them. *)
Theorem transfer_completes (hash_id : store N E → addr → RelRcHash) B st ow p d ms mr
    (attach_to : gmap RelRcHash B) :
  ignores_counts hash_id → wf st ow → node st p = Some d → ms ≠ Async →
  (∀ q, ancestor_of st q p → hash_id st q ≠ hash_id st p → hash_into (hash_id st q) ≠ 0%Z) →
  ∃ dt st', detaches hash_id st p ∅ dt ∧ same_views st st' ∧ wf st' ow ∧
    ∀ fs fr, size (dt_all_data dt) ≤ fs → size (dt_all_data dt) ≤ fr →
      ∃ sender n rc,
        RelRcCommunicator_send_relrc_async hash_id fs ms p st = Ok (sender, st') ∧
        received dt attach_to rc ∧ Detached_attaches_to rc attach_to = true ∧
        ∀ m c, nsteps (network_step ms mr) m
            (mkNetwork sender (recv_detached fr attach_to) conn_new conn_new) c →
          m ≤ n ∧ nsteps (network_step ms mr) (n - m) c (finished rc).
Proof.
  intros Hh Hw Hd Hms Hnz.
  destruct (transfer_runs hash_id B st ow p d ms mr attach_to Hh Hw Hd Hms Hnz) as (dt & st' & ? & ? & ? & Hrun).
  exists dt, st'. split_and!; [done..|]. intros fs fr Hfs Hfr.
  destruct (Hrun fs fr Hfs Hfr) as (sender & rc & ? & ? & ? & _ & ?). by eexists sender, _, rc.
Qed.

(** C26: How long a transfer takes, under the conditions under which it completes
    (hashes that ignore reference counts, a sender that is not [Async], no ancestor
    to be requested with the hash 0): every execution that ends takes the same
    number of steps, eight for every object and two for every edge that the
    receiver gets, each object being sent and received once, in one message for
    its hash, one for its value, one for the hashes of its parents, one for each
    edge value and one acknowledgement.  No execution is longer, and the number
    is at most what the whole history costs. *)
Theorem transfer_bounded (hash_id : store N E → addr → RelRcHash) B st ow p d ms mr
    (attach_to : gmap RelRcHash B) :
  ignores_counts hash_id → wf st ow → node st p = Some d → ms ≠ Async →
  (∀ q, ancestor_of st q p → hash_id st q ≠ hash_id st p → hash_into (hash_id st q) ≠ 0%Z) →
  ∃ dt st', detaches hash_id st p ∅ dt ∧
    ∀ fs fr, size (dt_all_data dt) ≤ fs → size (dt_all_data dt) ≤ fr →
      ∃ sender rc, RelRcCommunicator_send_relrc_async hash_id fs ms p st = Ok (sender, st') ∧
        received dt attach_to rc ∧
        let n := sum_list_with (λ hd, 8 + 2 * length (dd_incoming hd.2)) (map_to_list (dt_all_data rc)) in
        n ≤ sum_list_with (λ hd, 8 + 2 * length (dd_incoming hd.2)) (map_to_list (dt_all_data dt)) ∧
        ∀ m c, nsteps (network_step ms mr) m
            (mkNetwork sender (recv_detached fr attach_to) conn_new conn_new) c →
          m ≤ n ∧ (nf (network_step ms mr) c → m = n).
Proof.
  intros Hh Hw Hd Hms Hnz.
  destruct (transfer_runs hash_id B st ow p d ms mr attach_to Hh Hw Hd Hms Hnz) as (dt & st' & ? & _ & _ & Hrun).
  exists dt, st'. split; [done|]. intros fs fr Hfs Hfr.
  destruct (Hrun fs fr Hfs Hfr) as (sender & rc & ? & ? & _ & Hle & Hall). exists sender, rc.
  rewrite (transfer_cost_sum (dt_all_data dt)) in Hle. rewrite transfer_cost_sum in Hle, Hall. split_and!; [done..|]. cbv zeta. split; [done|]. intros m c Hm.
  destruct (Hall m c Hm) as [Hmn Hn]. split; [done|]. intros Hnf.
  destruct (_ - m) eqn:He in Hn; [lia|]. inversion Hn; subst. destruct Hnf. by eexists.
Qed.

(** C10: A node that is sent arrives.  The sender and the receiver of a
    transfer both start, every execution ends with both finished, and the
    receiver attaches what it got: either it ends with a handle to a node with the
    history of the node that was sent, values, edge values and order of the edges
    included, down to the nodes it had, and all that it held before is as it was;
    or it panics, which happens only if the traversal puts some object before
    one of its parents.  The conditions are: the mode of the sender is not [Async];
    hashes do not depend on reference counts, tell the ancestors of the node apart,
    and are not 0 for an ancestor that may be requested; the nodes that the receiver
    offers have distinct hashes, and one with the hash of an ancestor has its
    history. *)
Theorem transfer_delivers (hash_id : store N E → addr → RelRcHash) st ow p d ms mr str owr nodes :
  ignores_counts hash_id → wf st ow → node st p = Some d → ms ≠ Async →
  (∀ q, ancestor_of st q p → hash_id st q ≠ hash_id st p → hash_into (hash_id st q) ≠ 0%Z) →
  (∀ q q', ancestor_of st q p → ancestor_of st q' p → hash_id st q = hash_id st q' → q = q') →
  wf str ((NodeStrong <$> nodes) ++ owr) → NoDup (hash_id str <$> nodes) →
  (∀ q r, ancestor_of st q p → r ∈ nodes → hash_id str r = hash_id st q → same_history st q str r) →
  ∃ a dt st', collect_attach_to hash_id nodes str = Ok (a, str) ∧
    detaches hash_id st p ∅ dt ∧ same_views st st' ∧ wf st' ow ∧
    ∀ fs fr, size (dt_all_data dt) ≤ fs → size (dt_all_data dt) ≤ fr →
      ∃ sender receiver attach n rc,
        RelRcCommunicator_send_relrc_async hash_id fs ms p st = Ok (sender, st') ∧
        RelRcCommunicator_recv_relrc_async hash_id fr mr nodes str = Ok (receiver, attach, str) ∧
        (∀ m c, nsteps (network_step ms mr) m (mkNetwork sender receiver conn_new conn_new) c →
           m ≤ n ∧ nsteps (network_step ms mr) (n - m) c (finished rc)) ∧
        ((∃ p' str', attach rc str = Ok (p', str') ∧ wf str' (NodeStrong p' :: owr) ∧
            same_history st p str' p' ∧ ∀ q, held_by str owr q → node_view str' q = node_view str q) ∨
         (∃ l, attach_order rc a = Ok l ∧ parents_first rc (dom a) l = false ∧
            attach rc str = Err (Panic "called `Option::unwrap()` on a `None` value"))).
Proof.
  intros Hh Hw Hd Hms Hnz Hinj Hwr Hnd Hsame.
  destruct (collect_attach_to_spec hash_id nodes str Hnd) as (a & Hcol & Hperm & Ha).
  destruct (transfer_runs hash_id addr st ow p d ms mr a Hh Hw Hd Hms Hnz) as (dt & st' & Hdt & Hv & Hw' & Hrun).
  exists a, dt, st'. split_and!; [done..|]. intros fs fr Hfs Hfr.
  destruct (Hrun fs fr Hfs Hfr) as (sender & rc & Hsend & Hrc & Hatt & _ & Hall).
  exists sender, (recv_detached fr a), (recv_attach hash_id a), (transfer_cost (dt_all_data rc)), rc. split_and!; [done| |done|].
  { unfold RelRcCommunicator_recv_relrc_async, recv_relrc. by rewrite Hcol. }
  apply (delivered hash_id st p ow dt rc str owr a); try done.
  - intros q r Hq [Hr Hhr]%Ha. by apply Hsame.
  - intros h q [_ ?]%Ha. done.
  - by rewrite Hperm.
Qed.

(** C37: What a hash of 0 does to a transfer.  A request for the hash 0 is encoded like
    [Done].  For every live node, every receiver and every non-[Async] mode of the
    sender, all executions end, without panic, in the same state.  If among the
    objects that the receiver has to ask for, which are reached from the node along
    parents that it does not have, one has the hash 0, then in this state the sender
    has returned, nothing is in flight, and the receiver waits for an object that
    nobody will send; so no execution completes.  If none has, both have finished
    and the receiver has what it needs. *)
Theorem zero_hash_transfer_stalls (hash_id : store N E → addr → RelRcHash) B st ow p d ms mr
    (attach_to : gmap RelRcHash B) :
  ignores_counts hash_id → wf st ow → node st p = Some d → ms ≠ Async →
  ∃ dt st', detaches hash_id st p ∅ dt ∧
    ∀ fs fr, size (dt_all_data dt) ≤ fs → size (dt_all_data dt) ≤ fr →
      ∃ sender n final,
        RelRcCommunicator_send_relrc_async hash_id fs ms p st = Ok (sender, st') ∧
        nf (network_step ms mr) final ∧
        (∀ m c, nsteps (network_step ms mr) m
            (mkNetwork sender (recv_detached fr attach_to) conn_new conn_new) c →
          m ≤ n ∧ nsteps (network_step ms mr) (n - m) c final) ∧
        ((∃ h, rtc (needs dt attach_to) (dt_current dt) h ∧ h ≠ dt_current dt ∧ hash_into h = 0%Z) →
           nw_sender final = Ret tt ∧ waiting_for (nw_receiver final) = Some TagRelRc ∧
           nw_down final = conn_new ∧ nw_up final = conn_new) ∧
        ((∀ h, rtc (needs dt attach_to) (dt_current dt) h → h ≠ dt_current dt → hash_into h ≠ 0%Z) →
           ∃ rc, received dt attach_to rc ∧ Detached_attaches_to rc attach_to = true ∧ final = finished rc).
Proof.
  intros Hh Hw Hd Hms.
  destruct (transfer_outcome hash_id B st ow p d ms mr attach_to Hh Hw Hd Hms) as (dt & st' & Hdt & _ & _ & _ & Hrun).
  exists dt, st'. split; [done|]. intros fs fr Hfs Hfr.
  destruct (Hrun fs fr Hfs Hfr) as (sender & rc & final & Hsend & Hex & Hall).
  exists sender, (transfer_cost (dt_all_data rc)), final. split_and!; [done| |done| |].
  - intros [x Hx]. by eapply exchanged_stuck.
  - intros (h & Hn & Hne & Hz). exact (exchanged_stalled dt attach_to rc final h Hex Hn Hne Hz).
  - intros Hnz. destruct (exchanged_complete dt attach_to rc final Hex Hnz) as [Ha ->].
    exists rc. split_and!; [apply Hex|done|done].
Qed.

(** C17: [RelRc::attach] to given nodes with distinct hashes.  If the described node
    itself is among them, it returns that node, lets go of the others and builds
    nothing.  Otherwise, for a description that has the node and no cycle and whose
    requirements are among the given nodes: if the traversal puts parents first,
    it returns a new node and has built exactly the described objects that are
    reached from the node along parents without passing a given one, each with
    its value and its edges in order, to new nodes or to the given ones, and
    nothing that others hold changes; if not, it panics.  Where no object is the
    parent of two, parents come first. *)
Theorem attach_outcomes (hash_id : store N E → addr → RelRcHash) dt nodes st ow :
  wf st ((NodeStrong <$> nodes) ++ ow) → NoDup (hash_id st <$> nodes) →
  ∃ a, collect_attach_to hash_id nodes st = Ok (a, st) ∧
    (∀ h p, a !! h = Some p ↔ p ∈ nodes ∧ hash_id st p = h) ∧
    (∀ p, a !! dt_current dt = Some p →
     ∃ st', RelRc_attach hash_id dt nodes st = Ok (p, st') ∧ wf st' (NodeStrong p :: ow) ∧
       ∀ q d, node st' q = Some d ↔ node st q = Some d ∧ held_by st (NodeStrong p :: ow) q) ∧
    (attachable dt a →
     ∃ l, attach_order dt a = Ok l ∧
       (dfs_forest (attach_successors dt) (attach_visit a) (dt_current dt) →
          parents_first dt (dom a) l = true) ∧
       if parents_first dt (dom a) l
       then ∃ p st', RelRc_attach hash_id dt nodes st = Ok (p, st') ∧ attached dt a st ow p st'
       else RelRc_attach hash_id dt nodes st =
              Err (Panic "called `Option::unwrap()` on a `None` value")).
Proof.
  intros Hw Hnd. destruct (collect_attach_to_spec hash_id nodes st Hnd) as (a & Hcol & Hperm & Ha).
  rewrite <-Hperm in Hw. exists a. split_and!; [done..| |].
  { intros p Hp. by eapply attach_offered. }
  intros Hat.
  destruct (attach_outcome hash_id dt nodes st ow a Hw Hcol Hat) as (l & Hl & Hout).
  exists l. split_and!; [done| |done]. intros Hf. by eapply attach_order_forest.
Qed.
End detached_props.

(** C27: [post_order_for_each] on a graph whose reachable part lies in a finite set
    and whose start is not reached again terminates and is a loop over a list of
    exactly the reachable vertices, each once and the start last, whatever the
    visitor does.  Where no vertex is a successor of two, every vertex comes after
    its successors.  The loop with its stack of events does what the recursive
    traversal [post_order_rec] does, in which a vertex claims its successors before
    any of them is entered. *)
Theorem post_order_visits_once {V : Type} `{EqDecision V, Countable V}
    (successors : V → result (list V)) (visit : V → bool) (start : V) (X : gset V) fuel :
  (∀ v, rtc (dfs_edge successors visit) start v → ∃ us, successors v = Ok us) →
  (∀ v, tc (dfs_edge successors visit) start v → v ∈ X ∧ v ≠ start) →
  2 + 2 * size X ≤ fuel →
  ∃ l, NoDup l ∧ last l = Some start ∧ (∀ v, v ∈ l ↔ rtc (dfs_edge successors visit) start v) ∧
    (dfs_forest successors visit start → ∀ v u, v ∈ l → dfs_edge successors visit v u →
       [u; v] `sublist_of` l) ∧
    ∀ St (f : V → St → result St) s,
      post_order_for_each f successors visit fuel start s = foldM (λ s v, f v s) s l ∧
      (foldM (λ s v, f v s) s l ≠ Err OutOfFuel →
       (acc ← post_order_rec successors visit f fuel start (∅, s); Ok acc.2) = foldM (λ s v, f v s) s l).
Proof.
  intros Hs Hx Hf. destruct (post_order_spec successors visit start X Hs) with (fuel := fuel)
    as (l & ? & ? & ? & ? & Hl); [|by intros; apply Hx|done|].
  { intros Hc. by destruct (Hx start Hc). }
  exists l. split_and!; [done..|]. intros St f s. split; [apply Hl|]. by apply post_order_recursive.
Qed.

(** ** Instances *)

(** The value of a node as its hash. *)
Definition value_hash (st : store nat nat) (p : addr) : Z :=
  match node st p with Some d => Z.of_nat (nd_value d) | None => 0%Z end.

Lemma value_hash_views : ignores_counts (H:=model_hash) value_hash.
Proof. intros st st' p [Hn _]. unfold value_hash. by rewrite Hn. Qed.

Local Open Scope positive_scope.

Lemma triangle_node_3 : ∃ d, node (w_store triangle) 3 = Some d.
Proof. apply is_some_true. vm_compute. reflexivity. Qed.

(** No node of the example has the value 0. *)
Lemma triangle_values q d : node (w_store triangle) q = Some d → nd_value d ≠ 0%nat.
Proof.
  assert (forallb (λ pb, match rc_val pb.2 with
    Some d => bool_decide (nd_value d ≠ 0%nat) | None => true end)
    (map_to_list (st_nodes (w_store triangle))) = true) as Hall by (vm_compute; reflexivity).
  intros (b & Hb & Hd)%node_Some. apply elem_of_map_to_list, list_elem_of_In in Hb.
  apply (proj1 (forallb_forall _ _) Hall) in Hb. simpl in Hb. rewrite Hd in Hb.
  by apply bool_decide_eq_true in Hb.
Qed.

Lemma detach_describes_witness :
  ∃ dt st', RelRc_detach (H:=model_hash) value_hash 3 {[10%Z]} (w_store triangle) = Ok (dt, st') ∧
    Detached_attaches_to dt (<[10%Z := tt]> ∅ : gmap Z unit) = true.
Proof.
  destruct triangle_node_3 as [d Hd].
  destruct (detach_describes (H:=model_hash) value_hash (w_store triangle) _ 3 d {[10%Z]}
    value_hash_views triangle_graph_wf Hd) as (dt & st' & Heq & _ & _ & _ & _ & Ha).
  exists dt, st'. split; [exact Heq|]. apply Ha. intros h Hh.
  apply elem_of_singleton in Hh as ->. exists tt. reflexivity.
Defined.

Lemma transfer_bounded_witness :
  ∃ (dt : Detached nat nat) rc, received (H:=model_hash) dt (<[20%Z := tt]> ∅ : gmap Z unit) rc ∧
    (sum_list_with (λ hd, 8 + 2 * length (dd_incoming hd.2)) (map_to_list (dt_all_data rc)) ≤
     sum_list_with (λ hd, 8 + 2 * length (dd_incoming hd.2)) (map_to_list (dt_all_data dt)))%nat.
Proof.
  destruct triangle_node_3 as [d Hd].
  destruct (transfer_bounded (H:=model_hash) value_hash unit (w_store triangle) _ 3 d Standard Async
    (<[20%Z := tt]> ∅ : gmap Z unit) value_hash_views triangle_graph_wf Hd) as (dt & st' & Hdt & Hrun).
  - discriminate.
  - intros q Hq _. destruct (ancestor_live _ _ _ _ _ triangle_graph_wf Hd Hq) as [dq Hdq].
    unfold value_hash. rewrite Hdq. simpl. unfold id.
    assert (nd_value dq ≠ 0%nat); [|lia]. revert Hdq. apply triangle_values.
  - destruct (Hrun _ _ (le_n _) (le_n _)) as (_ & rc & _ & Hrc & Hle & _).
    exists dt, rc. split; [exact Hrc|exact Hle].
Defined.

Lemma transfer_completes_witness :
  ∃ (dt : Detached nat nat) rc, received (H:=model_hash) dt (<[20%Z := tt]> ∅ : gmap Z unit) rc ∧
    Detached_attaches_to rc (<[20%Z := tt]> ∅ : gmap Z unit) = true.
Proof.
  destruct triangle_node_3 as [d Hd].
  destruct (transfer_completes (H:=model_hash) value_hash unit (w_store triangle) _ 3 d Standard Async
    (<[20%Z := tt]> ∅ : gmap Z unit) value_hash_views triangle_graph_wf Hd)
    as (dt & st' & Hdt & _ & _ & Hrun).
  - discriminate.
  - intros q Hq _. destruct (ancestor_live _ _ _ _ _ triangle_graph_wf Hd Hq) as [dq Hdq].
    unfold value_hash. rewrite Hdq. simpl. unfold id.
    assert (nd_value dq ≠ 0%nat); [|lia]. revert Hdq. apply triangle_values.
  - destruct (Hrun _ _ (le_n _) (le_n _)) as (_ & _ & rc & _ & Hrc & Ha & _).
    exists dt, rc. split; [exact Hrc|exact Ha].
Defined.

(** The nodes of the example and their values. *)
Lemma triangle_nodes q d :
  node (w_store triangle) q = Some d → (q, nd_value d) ∈ [(1, 10%nat); (2, 20%nat); (3, 30%nat)].
Proof.
  assert (forallb (λ pb, match rc_val pb.2 with
    Some d => bool_decide ((pb.1, nd_value d) ∈ [(1, 10%nat); (2, 20%nat); (3, 30%nat)]) | None => true end)
    (map_to_list (st_nodes (w_store triangle))) = true) as Hall by (vm_compute; reflexivity).
  intros (b & Hb & Hd)%node_Some. apply elem_of_map_to_list, list_elem_of_In in Hb.
  apply (proj1 (forallb_forall _ _) Hall) in Hb. simpl in Hb. rewrite Hd in Hb.
  by apply bool_decide_eq_true in Hb.
Qed.

Lemma three_values (q : addr) (v : nat) :
  (q, v) ∈ [(1, 10%nat); (2, 20%nat); (3, 30%nat)] →
  q = 1 ∧ v = 10%nat ∨ q = 2 ∧ v = 20%nat ∨ q = 3 ∧ v = 30%nat.
Proof. rewrite !elem_of_cons, elem_of_nil. naive_solver. Qed.

Lemma triangle_ancestor q : ancestor_of (w_store triangle) q 3 →
  q = 1 ∧ value_hash (w_store triangle) q = 10%Z ∨ q = 2 ∧ value_hash (w_store triangle) q = 20%Z ∨
  q = 3 ∧ value_hash (w_store triangle) q = 30%Z.
Proof.
  destruct triangle_node_3 as [d Hd]. intros Hq.
  destruct (ancestor_live _ _ _ _ _ triangle_graph_wf Hd Hq) as [dq Hdq].
  unfold value_hash. rewrite Hdq. apply triangle_nodes, three_values in Hdq.
  destruct Hdq as [[-> ->]|[[-> ->]|[-> ->]]]; [left|right; left|right; right]; split; reflexivity.
Qed.

Lemma triangle_hashes q q' :
  ancestor_of (w_store triangle) q 3 → ancestor_of (w_store triangle) q' 3 →
  value_hash (w_store triangle) q = value_hash (w_store triangle) q' → q = q'.
Proof.
  intros Hq%triangle_ancestor Hq'%triangle_ancestor. revert Hq Hq'.
  generalize (value_hash (w_store triangle)). intros f Hq Hq' He. naive_solver congruence.
Qed.

(** A receiver that has a copy of the node 1. *)
Definition receiver_calls : list (call nat nat) := [CallNew 10%nat].
Definition receiver : store nat nat := w_store (after receiver_calls).

Lemma receiver_history : same_history (w_store triangle) 1 receiver 1.
Proof.
  exists (λ x x', x = 1 ∧ x' = 1). split; [done|]. intros x x' [-> ->].
  destruct (is_some_true (node (w_store triangle) 1)) as [d Hd]; [vm_compute; reflexivity|].
  destruct (is_some_true (node receiver 1)) as [d' Hd']; [vm_compute; reflexivity|].
  exists d, d'. split_and!; [done..| |].
  - assert (nd_value <$> node receiver 1 = nd_value <$> node (w_store triangle) 1) as Hv
      by (vm_compute; reflexivity). rewrite Hd, Hd' in Hv. simpl in Hv. congruence.
  - assert (nd_incoming <$> node (w_store triangle) 1 = Some []) as Hi by (vm_compute; reflexivity).
    assert (nd_incoming <$> node receiver 1 = Some []) as Hi' by (vm_compute; reflexivity).
    rewrite Hd in Hi. rewrite Hd' in Hi'. simpl in Hi, Hi'. injection Hi as ->. injection Hi' as ->. constructor.
Qed.

Lemma transfer_delivers_witness :
  ∃ a (dt : Detached nat nat), collect_attach_to (H:=model_hash) value_hash [1] receiver = Ok (a, receiver) ∧
    ∃ sender recv attach n rc,
      (∃ st', RelRcCommunicator_send_relrc_async (H:=model_hash) value_hash (size (dt_all_data dt)) Standard 3
        (w_store triangle) = Ok (sender, st')) ∧
      RelRcCommunicator_recv_relrc_async (H:=model_hash) value_hash (size (dt_all_data dt)) Async [1] receiver =
        Ok (recv, attach, receiver) ∧
      nsteps (network_step Standard Async) n (mkNetwork sender recv conn_new conn_new) (finished rc) ∧
      ((∃ p' str', attach rc receiver = Ok (p', str') ∧ wf str' [NodeStrong p'] ∧
          same_history (w_store triangle) 3 str' p') ∨
       (∃ l, attach_order rc a = Ok l ∧ parents_first rc (dom a) l = false)).
Proof.
  destruct triangle_node_3 as [d Hd].
  destruct (transfer_delivers (H:=model_hash) value_hash (w_store triangle) _ 3 d Standard Async
    receiver [] [1] value_hash_views triangle_graph_wf Hd) as (a & dt & st' & Hcol & _ & _ & _ & Hrun).
  - discriminate.
  - intros q Hq%triangle_ancestor _. destruct Hq as [[_ ->]|[[_ ->]|[_ ->]]]; vm_compute; discriminate.
  - exact triangle_hashes.
  - apply (after_wf receiver_calls); vm_compute; reflexivity.
  - apply NoDup_singleton.
  - intros q r Hq%triangle_ancestor ->%list_elem_of_singleton He. rewrite <-He in Hq.
    assert (value_hash receiver 1 = 10%Z) as Hv by (vm_compute; reflexivity). rewrite Hv in Hq.
    destruct Hq as [[-> _]|[[_ Hq]|[_ Hq]]]; [apply receiver_history|discriminate Hq..].
  - exists a, dt. split; [exact Hcol|].
    destruct (Hrun _ _ (le_n _) (le_n _)) as (sender & recv & attach & n & rc & Hs & Hr & Hsteps & Hout).
    exists sender, recv, attach, n, rc. split; [exists st'; exact Hs|]. split; [exact Hr|]. split.
    + destruct (Hsteps 0%nat _ (nsteps_O _ _)) as [_ Hn]. by rewrite Nat.sub_0_r in Hn.
    + destruct Hout as [(p' & str' & H1 & H2 & H3 & _)|(l & H1 & H2 & _)]; [left|right].
      * exists p', str'. exact (conj H1 (conj H2 H3)).
      * exists l. exact (conj H1 H2).
Defined.

(** The node 3 of the chain, as described for a receiver that has nothing. *)
Definition chain_detached : Detached nat nat :=
  match RelRc_detach (H:=model_hash) value_hash 3 ∅ (w_store chain) with
  | Ok r => r.1
  | Err _ => Detached_empty (0%Z : @RelRcHash model_hash)
  end.

(** Parents with smaller hashes. *)
Definition descending (dt : Detached (H:=model_hash) nat nat) : bool :=
  forallb (λ hd, forallb (λ u, bool_decide (u < hd.1)%Z) (DetachedInnerData_parents hd.2))
    (map_to_list (dt_all_data dt)).

Lemma descending_acyclic dt a v : descending dt = true → ¬ tc (attach_edge dt a) v v.
Proof.
  intros Hall. assert (∀ v u, attach_edge dt a v u → (u < v)%Z) as Hedge.
  { intros x u [Hu _]%attach_edge_iff. unfold described_parents in Hu.
    destruct (dt_all_data dt !! x) as [data|] eqn:Hx; [|by apply elem_of_nil in Hu].
    apply elem_of_map_to_list, list_elem_of_In in Hx. apply (proj1 (forallb_forall _ _) Hall) in Hx.
    apply list_elem_of_In in Hu. apply (proj1 (forallb_forall _ _) Hx) in Hu.
    by apply bool_decide_eq_true in Hu. }
  assert (∀ x y, tc (attach_edge dt a) x y → (y < x)%Z) as Hlt.
  { induction 1 as [x y Hxy%Hedge|x y z Hxy%Hedge _ IH]; lia. }
  intros Hv%Hlt. lia.
Qed.

Lemma chain_attachable : attachable chain_detached (∅ : gmap (@RelRcHash model_hash) addr).
Proof.
  split.
  - reflexivity.
  - apply is_some_true. vm_compute. reflexivity.
  - vm_compute. reflexivity.
  - intros v. apply descending_acyclic. vm_compute. reflexivity.
Qed.

Definition order_ok {N E : Type} {H : HashIdSig} (dt : Detached N E) (a : gmap RelRcHash addr) : bool :=
  match attach_order dt a with Ok l => parents_first dt (dom a) l | Err _ => false end.

Lemma order_ok_true {N E : Type} {H : HashIdSig} (dt : Detached N E) a l :
  attach_order dt a = Ok l → order_ok dt a = true → parents_first dt (dom a) l = true.
Proof. intros Hl. unfold order_ok. by rewrite Hl. Qed.

Lemma attach_outcomes_witness :
  ∃ p st', RelRc_attach (H:=model_hash) value_hash chain_detached [] empty_store = Ok (p, st') ∧
    attached chain_detached ∅ empty_store [] p st'.
Proof.
  destruct (attach_outcomes (H:=model_hash) value_hash chain_detached [] empty_store [])
    as (a & Hcol & Ha & _ & Hout).
  - apply (run_wf [] empty_world). reflexivity.
  - constructor.
  - injection Hcol as <-. destruct (Hout chain_attachable) as (l & Hl & _ & Hif).
    rewrite (order_ok_true _ _ _ Hl) in Hif; [exact Hif|vm_compute; reflexivity].
Defined.

(** Three vertices: 3 has the successors 1 and 2, and 2 the successor 1. *)
Definition shared_successors (v : nat) : result (list nat) :=
  Ok (match v with 3 => [1; 2] | 2 => [1] | _ => [] end)%nat.

Lemma shared_edge_lt v u : dfs_edge shared_successors (λ _, true) v u → (u < v)%nat ∧ (0 < u)%nat.
Proof.
  intros (us & Hus & Hu & _). injection Hus as <-.
  destruct v as [|[|[|[|v]]]]; simpl in Hu; rewrite ?elem_of_cons, ?elem_of_nil in Hu; lia.
Qed.

Lemma shared_reach_lt v : tc (dfs_edge shared_successors (λ _, true)) 3%nat v → (0 < v < 3)%nat.
Proof.
  cut (∀ x y, tc (dfs_edge shared_successors (λ _, true)) x y → (0 < y < x)%nat); [auto|].
  induction 1 as [x y Hxy%shared_edge_lt|x y z Hxy%shared_edge_lt _ IH]; lia.
Qed.

Lemma post_order_visits_once_witness :
  ∃ l, NoDup l ∧ last l = Some 3%nat ∧
    post_order_for_each (λ v s, Ok (s ++ [v])%list) shared_successors (λ _, true) 6 3%nat [] =
      foldM (λ s v, Ok (s ++ [v])%list) [] l.
Proof.
  destruct (post_order_visits_once shared_successors (λ _, true) 3%nat {[1%nat; 2%nat]} 6)
    as (l & Hnd & Hlast & _ & _ & Hrun).
  - intros v _. eexists. reflexivity.
  - intros v Hv%shared_reach_lt. split; [|lia].
    destruct v as [|[|[|v]]]; [lia|vm_compute; tauto|vm_compute; tauto|lia].
  - vm_compute. lia.
  - exists l. split; [exact Hnd|split; [exact Hlast|apply Hrun]].
Defined.

(** The traversal is not a post-order when a vertex is reached along two
    edges: with the parents 1 and 2 of 3, in this order, and 1 a parent of 2, the
    node 2 is visited before its parent 1.  So a node with this history cannot be
    attached: [attaches_to] promises that it can, and [attach] panics. *)
Lemma attach_shared_parent_panics :
  post_order_for_each (λ v s, Ok (s ++ [v])%list) shared_successors (λ _, true) 6 3%nat [] =
    Ok [2; 1; 3]%nat ∧
  ∃ dt st', RelRc_detach (H:=model_hash) value_hash 3 ∅ (w_store triangle) = Ok (dt, st') ∧
    Detached_attaches_to dt (∅ : gmap Z addr) = true ∧
    is_panic (RelRc_attach (H:=model_hash) value_hash dt [] st').
Proof.
  split; [reflexivity|]. eexists _, _. split; [vm_compute; reflexivity|].
  split; [vm_compute; reflexivity|]. eexists. vm_compute. reflexivity.
Qed.

(** A node with the value, and so the hash, 20 and a parent with the value 0. *)
Definition zero_calls : list (call nat nat) := [CallNew 0%nat; CallWithParents 20%nat [(1, 5%nat)]].
Definition zero_parent : store nat nat := w_store (after zero_calls).
Definition zero_node : InnerData nat nat := default (InnerData_new 0%nat) (node zero_parent 2).

Lemma zero_parent_wf : wf zero_parent [NodeStrong 2].
Proof. apply (after_wf zero_calls); vm_compute; reflexivity. Qed.
Lemma zero_node_at : node zero_parent 2 = Some zero_node.
Proof. vm_compute. reflexivity. Qed.

(** The node has to be asked for its parent. *)
Lemma zero_needed (dt : Detached nat nat) :
  detaches (H:=model_hash) value_hash zero_parent 2 ∅ dt →
  dt_current dt = 20%Z ∧ needs dt (∅ : gmap Z unit) (dt_current dt) 0%Z.
Proof.
  intros Hdt. pose proof (dts_current _ _ _ _ _ Hdt) as Hcur.
  assert (value_hash zero_parent 2 = 20%Z) as Hh by (vm_compute; reflexivity). rewrite Hh in Hcur. split; [exact Hcur|].
  destruct (dts_start _ _ _ _ _ Hdt) as [[data Hda]|Hin]; [|set_solver]. exists data. split; [exact Hda|].
  split; [|reflexivity]. destruct (dts_data _ _ _ _ _ Hdt _ _ Hda) as (_ & q & dq & _ & Hq & Hdq & ->).
  rewrite Hcur in Hq.
  assert (forallb (λ pb, bool_decide (value_hash zero_parent pb.1 = 20%Z → pb.1 = 2))
    (map_to_list (st_nodes zero_parent)) = true) as Hall by (vm_compute; reflexivity).
  apply node_Some in Hdq as Hb. destruct Hb as (b & Hb & _). apply elem_of_map_to_list, list_elem_of_In in Hb.
  apply (proj1 (forallb_forall _ _) Hall), bool_decide_eq_true in Hb. simpl in Hb. rewrite (Hb Hq) in Hdq.
  rewrite zero_node_at in Hdq. injection Hdq as <-.
  apply (proj1 (bool_decide_eq_true _)). vm_compute. reflexivity.
Qed.

Lemma zero_hash_transfer_stalls_witness :
  ∃ fuel sender st' final,
    RelRcCommunicator_send_relrc_async (H:=model_hash) value_hash fuel Standard 2 zero_parent = Ok (sender, st') ∧
    (∀ c, rtc (network_step Standard Standard)
       (mkNetwork sender (recv_detached fuel (∅ : gmap Z unit)) conn_new conn_new) c →
     rtc (network_step Standard Standard) c final) ∧
    nw_sender final = Ret tt ∧ waiting_for (nw_receiver final) = Some TagRelRc.
Proof.
  destruct (zero_hash_transfer_stalls (H:=model_hash) value_hash unit zero_parent [NodeStrong 2] 2 zero_node
    Standard Standard ∅ value_hash_views zero_parent_wf zero_node_at) as (dt & st' & Hdt & Hrun); [discriminate|].
  destruct (Hrun _ _ (le_n _) (le_n _)) as (sender & n & final & Hsend & _ & Hall & Hst & _).
  exists (size (dt_all_data dt)), sender, st', final. split; [exact Hsend|]. split.
  - intros c Hc. apply rtc_nsteps in Hc as [m Hm]. apply rtc_nsteps. exists (n - m)%nat. apply (Hall m c Hm).
  - destruct (zero_needed dt Hdt) as [Hcur Hneed].
    destruct Hst as (Hs & Hr & _); [|exact (conj Hs Hr)]. exists 0%Z. split; [exact (rtc_once _ _ Hneed)|].
    split; [rewrite Hcur; discriminate|reflexivity].
Defined.

(** A start that is reached again is visited again, since it is not marked. *)
Example post_order_start_twice :
  post_order_for_each (λ v s, Ok (s ++ [v])%list) (λ _ : nat, Ok [1%nat]) (λ _, true) 10 1%nat [] = Ok [1; 1]%nat.
Proof. vm_compute. reflexivity. Qed.
